(* ===== verification/_CoqProject ===== *)
-Q . S2P
Prelude.v
Text.v
Util.v
Netdoc.v
Cells.v
Cc.v
Crypto.v
Relay.v
Circuit.v
Certs.v
Handshake.v
TorStream.v
Channel.v
Authority.v
Consensus.v
Diff.v
Prime25519.v
Field25519.v
Ed25519Point.v
Onion.v
Microdesc.v
Path.v
Pool.v
Guards.v
Descriptor.v
HsNtor.v
Rendezvous.v
Socks5.v
Computation.v
Telescope.v
Builder.v
Fetch.v
Directory.v
Fallback.v
DirCircuit.v
Maintain.v
OnionClient.v
Status.v
Upkeep.v
Loader.v
