(* ===== verification/Prelude.v ===== *)
(** * A verification development for rust-tor-proxy

    The program ([src/src/], Rust) is a Tor client with a proxy front end: it
    opens TLS channels to relays, builds circuits of three hops over them,
    keeps a verified view of the network on disk and in memory, reaches onion
    services, and serves SOCKS5, SOCKS4a and HTTP CONNECT on one port.  This
    library translates its logic into Rocq definitions, nearly all of them
    executable, and proves what each part promises.  A definition keeps the
    name it has in the source wherever Rocq allows it, and is written in the
    order of the source: the same guards, the same early returns, the same
    assignments before a failure.

    ** The parts and the files

    Foundations.
    - [Prelude]: results and errors ([io_error] keeps the kind and the message
      template), bytes as [list Z], slices, big-endian integers, bounded
      iteration, and the lemmas and tactics all files share.
    - [Text]: Rust's string functions on UTF-8 bytes.  [Util]: [util.rs].
    - [Crypto]: OpenSSL as the class [Crypto] with the laws [CryptoLaws], the
      wrappers [Ctr] and [Digest] of [ffi/aes.rs] and [ffi/hash.rs], and a toy
      instance on which every run is computed.
    - [Loader]: the search for the libraries of [ffi/mod.rs], and [config.rs].
    - [Computation]: state, failure and waiting, with the Hoare triples the
      files on the client prove with.

    A link and a circuit.
    - [Cells] ([tor/cell.rs]): framing, [try_parse] and [read_from].
    - [Certs] ([tor/certs.rs]) and [Channel] ([tor/channel.rs]): the link
      handshake, and the I/O thread as a machine whose steps are the answers
      of the TLS session.  State: [Channel.Shared] with its output queue and
      its table of mailboxes.
    - [Handshake] ([tor/ntor.rs], [tor/ntor_v3.rs], [Handshake] of
      [tor/circuit.rs]): CREATE_FAST, ntor and ntor-v3.
    - [Cc] ([tor/cc.rs]): Tor Vegas and the receiver's counter.
    - [Relay] and [Circuit] ([tor/circuit.rs]): the hops with their ciphers
      and digests, [State], [build_relay_cell], [decrypt_inbound]; then
      [Inner] with the stream table, the pump [handle_cell], and opening,
      reading, writing and closing streams.  A stream buffer outlives its
      entry in the table, so buffers live in a store and the table has
      references.
    - [Telescope] ([create] to [extend_with], [probe] of [tor/circuit.rs]):
      whole handshakes over a circuit whose far end is the interface [Peer].
    - [TorStream] ([TorStream] of [tor/circuit.rs]): streams that move to
      another circuit, over the interface [Transport].

    The directory.
    - [Netdoc], [Authority], [Consensus], [Diff], [Microdesc]
      ([tor/dir/netdoc.rs], [authority.rs] with [ffi/rsa.rs], [consensus.rs],
      [diff.rs], [microdesc.rs]): the documents and their signatures.
    - [Fetch] ([tor/dir/fetch.rs], [ffi/zlib.rs]): HTTP over a stream, over
      the interfaces [DirStreams] and [Zlib].
    - [Directory] ([tor/dir/mod.rs], [tor/dir/cache.rs]): the cache on a disk
      that may fail at any byte, bootstrap, refresh and microdescriptors, over
      the interface [DirServer].
    - [Fallback], [DirCircuit] ([tor/dir/fallback.rs], [DirCircuit] of
      [tor/dir/mod.rs]): where a directory circuit comes from, over [Links].

    The client ([tor/client.rs] unless said otherwise).
    - [Path] ([tor/path.rs], [ffi/rand.rs]): constraints and weighted draws.
    - [Guards]: the guard list, strikes, demotion, the open channel, the file.
    - [Pool] ([tor/pool.rs], the meter of [tor/circuit.rs]): stubs, circuits,
      predictions, jobs, and who must close what.
    - [Builder]: paths, circuits and the requests that need one, with a log of
      every circuit created and closed.
    - [Maintain] ([tor/maintain.rs]): when a consensus is fetched.
    - [Upkeep]: start-up, adopting a consensus and the rounds of the
      maintenance thread, composed from the files above.

    Onion services.
    - [Prime25519], [Field25519], [Ed25519Point]
      ([crypto/ed25519_point.rs]): the prime, the field on five limbs of
      machine words, the curve and key blinding.
    - [Onion] ([crypto/base32.rs], [tor/hs/mod.rs], [address.rs], [blind.rs],
      [hsdir.rs]), [Descriptor] ([tor/hs/descriptor.rs]), [HsNtor]
      ([tor/hs/ntor.rs]), [Rendezvous] ([tor/hs/rendezvous.rs]).
    - [OnionClient]: the ring, the descriptor cache and the shared rendezvous
      circuits, with the sections other threads may run in between.

    The front end.
    - [Socks5] ([socks5.rs], the counters of [status.rs]): the three protocols
      on one port.  [Status] ([status.rs]): the JSON page.

    ** How the parts meet

    A component is a client of another through a class or a record that says
    what it needs of it: [Crypto], [Zlib], [Machine] (how a build treats an
    overflow) and [DynamicLoader] for what is outside the repository;
    [Transport], [DirStreams], [DirServer], [Links] and [Peer] between parts of
    it.  A class of laws ([CryptoLaws], [ZlibLaws], [LinksLaws],
    [TransportLaws], [DirStreamsLaws]) states what the using part relies on,
    never the property it proves, and each has an instance in the development
    on which the witnesses run.  Where a part asks the network, the clock or
    another thread, its answers are fields of a record ([World], [Look],
    [Outside]) that may depend on the state or on the number of the question;
    theorems quantify over them.

    ** What the theorems show

    - Nobody outside is believed without proof.  [consensus_quorum],
      [only_the_verified_is_kept], [microdescs_are_genuine],
      [client_only_moves_forward]: a client works only from a consensus that a
      majority of the embedded authorities signed, with the keys and within the
      dates their key certificates carry, on disk and in memory, and only moves
      to newer ones.  [validate_responder_iff] and [connect_iff]: a
      channel is up exactly when the chain of certificates and the link
      handshake are right.  [descriptor_authentic_iff],
      [descriptors_are_authentic]: the same for onion services.
      and a cached descriptor is used only while it is in its lifetime and of
      the period in force.  [extension_is_authenticated]: no hop without a reply
      that carries the AUTH value of the handshake begun with that very relay's
      identity and onion key.
    - Both ends agree.  [handshake_agreement], [onion_outbound],
      [onion_inbound], [telescope_agrees] and
      [introduction_reaches_the_service] put the relays' or the service's
      half, written from the protocol, against the program's.
    - Nothing is lost and nothing is left open.  [pool_conservation],
      [no_circuit_is_lost], [onion_circuits_accounted],
      [circuits_fail_closed], [fetch_ends_and_closes], and [dir_circuit_leaves_nothing].
    - Data arrives as it was sent.  [cell_codec], [stream_fifo],
      [replay_faithful], [request_read_exactly], [fetch_returns_the_answer],
      [inflate_concatenation], [status_page_reads_back].
    - Flow control holds, and an XOFF noted is an XOFF on the wire.
      [circuit_invariant], [cc_accounting],
      [cc_honest_link], [pump_leaves_nobody_waiting].
    - The optimised is the simple.  [apply_is_edit] for diffs,
      [fe_refines_field] and [blind_public_key_spec] for the curve,
      [hsdir_responsible] for the ring.
    - Choices are fair and stay apart, by the families relays declare too.
      [choice_in_proportion], [paths_never_double_back], [guard_channel_spec].
      The last is about one thread at a time, and says when a guard can be
      blamed.
    - Start-up finds what is there.  [openssl_is_found], for a dynamic loader
      whose answers change as it opens libraries.

    Each property that has a hypothesis has a witness in a [Demo] module at the
    end of its file: the theorem applied to a concrete run.  The [Example]s
    there show where the code does not do what it means to (circuits dropped
    without being closed, a guard used after it was dropped, a refused document
    that replaces the cached one, a library search that stops too early, a
    guard blamed while the network is down).

    ** Integers, fuel and bounds

    A machine integer is a [Z]; where a width can be exceeded the wrap or the
    saturation is written out ([as_u8], [as_u16], [u64], [Machine]), and where
    the source cannot exceed it the invariant says so.  The circuit and stream
    window counters of [tor/circuit.rs] are [i32] there and unbounded here:
    they change by one a cell and by an increment a SENDME.  A slice index that
    would panic is an [option] or is excluded by the guard before it.

    Loops that are not structural carry fuel that is a bound of the input: the
    length of the text that is left (the parsers of [Netdoc] documents,
    [Text], [Diff], [Prelude.chunks]), the number of bytes asked for (the key
    derivations), twenty digits for a 64-bit number, the size of the table that
    shrinks ([evict], [make_room]), and for [Fetch] one more than the bytes
    that may still come.  [Prelude.iterate_ends], [inflate_run_ends],
    [read_response_ends], [kdf_tor_len], [chunks_fuel_enough],
    [enough_rounds] and the like show that the fuel is never what ends the
    loop.  A random draw that rejects a word asks for another: a computation
    is [Waiting] or [None] only while the list of words it was given has run
    out.  Waiting on a condition variable is one pass of its loop, with the
    timeout as an argument; in [Telescope] it is the delivery of all that has
    come, and since the far end may hold a cell back to its next answer this
    covers the other orders.

    ** What is not modelled

    - The primitives of OpenSSL and zlib and their bindings
      ([ffi/tls.rs], [ffi/x25519.rs], [ffi/ed25519.rs], [ffi/hmac.rs]): foreign
      code behind pointers, here parameters with laws.  That the laws hold of
      OpenSSL, and that no digest of four bytes collides, is assumed or named
      in the statement ([mistaken], [confused]).
    - Sockets, threads, locks and condition variables as such.  A section
      under a lock is one step; where another thread can come between two
      sections, its steps are explicit ([Channel], [OnionClient], the races
      shown in [TorStream] and [Guards]).  Memory safety and data races are the
      Rust compiler's matter.
    - [main.rs], [log.rs], [ffi/malloc.rs] and [relay.rs]: start-up order, log
      lines, one allocator call, and two copying loops of the standard library.
      Measuring the round trip and logging in [extend_with].
    - Memory that runs out: zlib's Z_MEM_ERROR is outside [ZlibLaws].  Reading
      a file of the cache gives what is there or nothing; only writes and
      renames can fail half way.
    - Texts of error messages are kept as templates, since nothing parses
      them; the kind of an error, which the program does ask for, is kept.
    - Tests, and the tests that need the live network. *)
From Stdlib Require Export ZArith Lia.
From Stdlib Require Import String Ascii.
From stdpp Require Export base tactics list numbers gmap strings.
From coqutil Require Export Datatypes.RecordSetters.
Export DoubleBraceUpdate.
#[global] Open Scope Z_scope.
#[export] Set Default Goal Selector "!".
#[global] Arguments RecordSetters.constant {_} _ _ /.

(** ** Results: [std::io::Result] *)

(** The [std::io::ErrorKind]s this program distinguishes. *)
Inductive ErrorKind :=
  | InvalidData | OtherError | TimedOut | ConnectionAborted | NotConnected
  | ConnectionRefused | NotFound | PermissionDenied | AlreadyExists
  | UnexpectedEof | InvalidInput | WouldBlock.

#[export] Instance ErrorKind_eq_dec : EqDecision ErrorKind.
Proof. solve_decision. Defined.

(** What an [io::Error] carries besides its kind: a message (the holes of a
    [format!] stay as written in the source) or the reason byte of a
    RELAY_END ([circuit::StreamEnd]). *)
Inductive Payload :=
  | Message (template : string)
  | StreamEnd (reason : Z).

Record io_error := IoError { kind : ErrorKind; payload : Payload }.

Inductive result (A : Type) :=
  | Ok (a : A)
  | Err (e : io_error).
Arguments Ok {A} _.
Arguments Err {A} _.

#[export] Instance Ok_inj {A} : Inj (=) (=) (@Ok A).
Proof. by intros ? ? [= ->]. Qed.

#[export] Instance result_ret : MRet result := @Ok.
#[export] Instance result_bind : MBind result := fun A B f r =>
  match r with Ok a => f a | Err e => Err e end.
#[export] Instance result_fmap : FMap result := fun A B f r =>
  match r with Ok a => Ok (f a) | Err e => Err e end.

Definition is_ok {A} (r : result A) : bool :=
  match r with Ok _ => true | Err _ => false end.

(** [Option::ok_or] and [Result::ok]. *)
Definition ok_or {A} (o : option A) (e : io_error) : result A :=
  match o with Some a => Ok a | None => Err e end.
Definition to_option {A} (r : result A) : option A :=
  match r with Ok a => Some a | Err _ => None end.

(** [util::invalid_data]. *)
Definition invalid_data (template : string) : io_error :=
  IoError InvalidData (Message template).

(** [io::Error::other]. *)
Definition other_error (template : string) : io_error :=
  IoError OtherError (Message template).

(** Take apart every [Ok]/[Err] hypothesis of a monadic computation. *)
Ltac res_inv :=
  repeat match goal with
  | H : Ok _ = Ok _ |- _ => injection H as H
  | H : Err _ = Err _ |- _ => injection H as H
  | H : Some _ = Some _ |- _ => injection H as H
  | H : Ok _ = Err _ |- _ => discriminate H
  | H : Err _ = Ok _ |- _ => discriminate H
  | H : Some _ = None |- _ => discriminate H
  | H : None = Some _ |- _ => discriminate H
  | H : mbind _ ?e = _ |- _ =>
      unfold mbind, result_bind, option_bind in H
  | H : mret _ = _ |- _ => unfold mret, result_ret in H
  | H : ok_or ?o _ = _ |- _ => unfold ok_or in H
  | H : match ?e with Ok _ => _ | Err _ => _ end = _ |- _ =>
      let E := fresh "E" in destruct e eqn:E
  | H : match ?e with Some _ => _ | None => _ end = _ |- _ =>
      let E := fresh "E" in destruct e eqn:E
  | H : (if ?b then _ else _) = _ |- _ =>
      let E := fresh "E" in destruct b eqn:E
  | H : (_ && _)%bool = true |- _ => apply andb_prop in H as [? ?]
  | H : (_ || _)%bool = false |- _ => apply orb_false_elim in H as [? ?]
  | H : negb _ = true |- _ => apply negb_true_iff in H
  | H : negb _ = false |- _ => apply negb_false_iff in H
  end.

(** Boolean comparisons of the model as propositions. *)
Ltac b2p :=
  repeat match goal with
  | H : (_ <? _) = true |- _ => apply Z.ltb_lt in H
  | H : (_ <? _) = false |- _ => apply Z.ltb_ge in H
  | H : (_ <=? _) = true |- _ => apply Z.leb_le in H
  | H : (_ <=? _) = false |- _ => apply Z.leb_gt in H
  | H : (_ =? _) = true |- _ => apply Z.eqb_eq in H
  | H : (_ =? _) = false |- _ => apply Z.eqb_neq in H
  | H : (_ && _)%bool = true |- _ => apply andb_prop in H as [? ?]
  | H : (_ || _)%bool = false |- _ => apply orb_false_elim in H as [? ?]
  | H : negb _ = true |- _ => apply negb_true_iff in H
  | H : negb _ = false |- _ => apply negb_false_iff in H
  | H : bool_decide _ = true |- _ => apply bool_decide_eq_true_1 in H
  | H : bool_decide _ = false |- _ => apply bool_decide_eq_false_1 in H
  end.

(** Decide the next boolean comparison of the goal, closing the impossible
    side by arithmetic. *)
Ltac zif1 :=
  match goal with
  | |- context [?a <? ?b] => destruct (Z.ltb_spec a b); try (exfalso; lia)
  | |- context [?a <=? ?b] => destruct (Z.leb_spec a b); try (exfalso; lia)
  | |- context [?a =? ?b] => destruct (Z.eqb_spec a b); try (exfalso; lia)
  end.
Ltac zif := repeat zif1.

(** Linear arithmetic with quotients and remainders. *)
Ltac dlia := Z.to_euclidean_division_equations; lia.

(** ** Machine integers

    A w-bit unsigned integer is the [Z] it denotes. *)

Definition U8_MAX : Z := 255.
Definition U16_MAX : Z := 65535.
Definition U32_MAX : Z := 4294967295.
Definition U64_MAX : Z := 18446744073709551615.

(** [as u8], [as u16], [as u32]: truncation. *)
Definition as_u8 (z : Z) : Z := z mod 256.
Definition as_u16 (z : Z) : Z := z mod 65536.
Definition as_u32 (z : Z) : Z := z mod 4294967296.

(** [saturating_add] at a maximum, [saturating_sub] and [saturating_mul]. *)
Definition sat_add (max a b : Z) : Z := Z.min (a + b) max.
Definition sat_mul (max a b : Z) : Z := Z.min (a * b) max.
Definition sat_sub (a b : Z) : Z := Z.max 0 (a - b).

(** ** Bytes and slices *)

Abbreviation bytes := (list Z).

Definition is_u8 (b : Z) : Prop := 0 <= b < 256.
Definition bytes_ok (l : bytes) : Prop := Forall is_u8 l.

#[export] Instance is_u8_dec b : Decision (is_u8 b).
Proof. unfold is_u8. apply _. Defined.
#[export] Instance bytes_ok_dec l : Decision (bytes_ok l).
Proof. unfold bytes_ok. apply _. Defined.

(** A string literal as the bytes of its UTF-8 encoding. *)
Definition B (s : string) : bytes :=
  map (fun a => Z.of_N (N_of_ascii a)) (String.list_ascii_of_string s).

(** [l.len()]. *)
Definition len {A} (l : list A) : Z := Z.of_nat (length l).

(** [&l[a..b]], [&l[a..]] and [&l[..b]]; the callers guard the bounds. *)
Definition slice {A} (l : list A) (a b : Z) : list A :=
  take (Z.to_nat (b - a)) (drop (Z.to_nat a) l).
Definition slice_from {A} (l : list A) (a : Z) : list A := drop (Z.to_nat a) l.
Definition slice_to {A} (l : list A) (b : Z) : list A := take (Z.to_nat b) l.

(** [l[i]] where the caller guards the index. *)
Definition byte_at (l : bytes) (i : Z) : Z := nth (Z.to_nat i) l 0.

(** [vec.resize(n, 0)] and [vec![0; n]]. *)
Definition zeros (n : Z) : bytes := replicate (Z.to_nat n) 0.
Definition resize0 (l : bytes) (n : Z) : bytes :=
  take (Z.to_nat n) l ++ replicate (Z.to_nat n - length l) 0.

(** Big-endian integers: [to_be_bytes] and [from_be_bytes]. *)
Fixpoint to_be (n : nat) (v : Z) : bytes :=
  match n with
  | O => []
  | S m => to_be m (v / 256) ++ [v mod 256]
  end.
Definition from_be (l : bytes) : Z := fold_left (fun acc b => acc * 256 + b) l 0.

(** [slice::chunks(n)] for a non-zero [n], with fuel for the length. *)
Fixpoint chunks_fuel {A} (fuel : nat) (n : nat) (l : list A) : list (list A) :=
  match fuel, l with
  | S f, _ :: _ => take n l :: chunks_fuel f n (drop n l)
  | _, _ => []
  end.
Definition chunks {A} (n : nat) (l : list A) : list (list A) :=
  chunks_fuel (length l) n l.

(** Pointwise exclusive or, as long as the shorter argument. *)
Definition xor_bytes : bytes -> bytes -> bytes := zip_with Z.lxor.

(** ** Loops with binary fuel

    [iterate p step s] takes at most [p] steps and stops at the first that
    gives a result; [p] is binary, so a bound of millions costs nothing. *)
Section iterate.
Context {S R : Type} (step : S -> S + R).

Fixpoint iterate (p : positive) (s : S) : S + R :=
  match p with
  | xH => step s
  | xO p => match iterate p s with inl s => iterate p s | inr r => inr r end
  | xI p =>
      match step s with
      | inl s => match iterate p s with inl s => iterate p s | inr r => inr r end
      | inr r => inr r
      end
  end.

(** What every step keeps holds of an unfinished loop, and what every last
    step gives holds of the result. *)
Lemma iterate_inv (I : S -> Prop) (Q : R -> Prop) :
  (forall s s', I s -> step s = inl s' -> I s') ->
  (forall s r, I s -> step s = inr r -> Q r) ->
  forall p s, I s -> match iterate p s with inl s' => I s' | inr r => Q r end.
Proof.
  intros HI HQ. induction p as [p IH|p IH|]; intros s Hs; cbn [iterate].
  - destruct (step s) as [s1|r] eqn:E; [|by eapply HQ]. specialize (HI _ _ Hs E).
    pose proof (IH s1 HI) as H1. destruct (iterate p s1); [by apply IH|done].
  - pose proof (IH s Hs) as H1. destruct (iterate p s); [by apply IH|done].
  - destruct (step s) as [s1|r] eqn:E; [by eapply HI|by eapply HQ].
Qed.

(** A measure that every step lowers bounds the steps. *)
Lemma iterate_steps (I : S -> Prop) (m : S -> Z) :
  (forall s s', I s -> step s = inl s' -> I s' /\ m s' < m s) ->
  forall p s s', I s -> iterate p s = inl s' -> I s' /\ m s' <= m s - Zpos p.
Proof.
  intros HI. induction p as [p IH|p IH|]; intros s s' Hs; cbn [iterate].
  - destruct (step s) as [s1|] eqn:E; [|done]. destruct (HI _ _ Hs E) as [H1 M1].
    destruct (iterate p s1) as [s2|] eqn:E2; [|done]. destruct (IH _ _ H1 E2) as [H2 M2].
    intros E3. destruct (IH _ _ H2 E3). split; [done|lia].
  - destruct (iterate p s) as [s2|] eqn:E2; [|done]. destruct (IH _ _ Hs E2) as [H2 M2].
    intros E3. destruct (IH _ _ H2 E3). split; [done|lia].
  - intros E. destruct (HI _ _ Hs E). split; [done|lia].
Qed.

Lemma iterate_ends (I : S -> Prop) (m : S -> Z) :
  (forall s, I s -> 0 <= m s) ->
  (forall s s', I s -> step s = inl s' -> I s' /\ m s' < m s) ->
  forall p s, I s -> m s < Zpos p -> exists r, iterate p s = inr r.
Proof.
  intros H0 HI p s Hs Hm. destruct (iterate p s) as [s'|r] eqn:E; [|by exists r].
  destruct (iterate_steps I m HI p s s' Hs E) as [Hs' M]. specialize (H0 _ Hs'). lia.
Qed.
End iterate.

(** ** Shared lemmas *)

Create HintDb tor.
Create Rewrite HintDb len.

Lemma len_nil {A} : len (@nil A) = 0.
Proof. done. Qed.
Lemma len_cons {A} (x : A) l : len (x :: l) = 1 + len l.
Proof. unfold len. cbn [length]. lia. Qed.
Lemma len_app {A} (l k : list A) : len (l ++ k) = len l + len k.
Proof. unfold len. rewrite length_app. lia. Qed.
Lemma len_nonneg {A} (l : list A) : 0 <= len l.
Proof. unfold len. lia. Qed.
Lemma len_take {A} n (l : list A) : len (take n l) = Z.min (Z.of_nat n) (len l).
Proof. unfold len. rewrite length_take. lia. Qed.
Lemma len_drop {A} n (l : list A) : len (drop n l) = Z.max 0 (len l - Z.of_nat n).
Proof. unfold len. rewrite length_drop. lia. Qed.
Lemma len_replicate {A} n (x : A) : len (replicate n x) = Z.of_nat n.
Proof. unfold len. by rewrite length_replicate. Qed.
Lemma len_map {A C} (f : A -> C) l : len (map f l) = len l.
Proof. unfold len. by rewrite length_map. Qed.
Lemma len_rev {A} (l : list A) : len (rev l) = len l.
Proof. unfold len. by rewrite length_rev. Qed.
Lemma len_zeros n : 0 <= n -> len (zeros n) = n.
Proof. intros. unfold zeros. rewrite len_replicate. lia. Qed.
Lemma len_slice {A} (l : list A) a b :
  0 <= a -> a <= b <= len l -> len (slice l a b) = b - a.
Proof. intros. unfold slice. rewrite len_take, len_drop. lia. Qed.
Lemma len_zero_nil {A} (l : list A) : len l = 0 -> l = [].
Proof. destruct l; [done|]. rewrite len_cons. pose proof (len_nonneg l). lia. Qed.

#[export] Hint Rewrite @len_nil @len_cons @len_app @len_take @len_drop
  @len_replicate @len_map @len_rev : len.

(** Length goals: push [len] inwards, then arithmetic. *)
Ltac len_pos :=
  repeat match goal with
  | |- context [len ?l] =>
      lazymatch goal with
      | _ : 0 <= len l |- _ => fail
      | _ => pose proof (len_nonneg l)
      end
  | H : context [len ?l] |- _ =>
      lazymatch goal with
      | _ : 0 <= len l |- _ => fail
      | _ => pose proof (len_nonneg l)
      end
  end.
Ltac solve_len := autorewrite with len in *; len_pos; lia.

Lemma slice_app_l {A} (p l s : list A) :
  slice (p ++ l ++ s) (len p) (len p + len l) = l.
Proof.
  unfold slice, len. rewrite Nat2Z.id, drop_app_length.
  replace (Z.to_nat _) with (length l) by lia. apply take_app_length.
Qed.

Lemma slice_app_at {A} (p l s : list A) a b :
  a = len p -> b = len p + len l -> slice (p ++ l ++ s) a b = l.
Proof. intros -> ->. apply slice_app_l. Qed.

Lemma slice_from_app {A} (p s : list A) a : a = len p -> slice_from (p ++ s) a = s.
Proof. intros ->. unfold slice_from, len. by rewrite Nat2Z.id, drop_app_length. Qed.

Lemma slice_to_app {A} (p s : list A) a : a = len p -> slice_to (p ++ s) a = p.
Proof. intros ->. unfold slice_to, len. by rewrite Nat2Z.id, take_app_length. Qed.

Lemma slice_0_to {A} (l : list A) b : slice l 0 b = slice_to l b.
Proof. unfold slice, slice_to. by rewrite Z.sub_0_r. Qed.

(** Skipping a known prefix. *)
Lemma slice_skip {A} (p s : list A) a b :
  len p <= a -> slice (p ++ s) a b = slice s (a - len p) (b - len p).
Proof.
  intros H. unfold slice. rewrite drop_app_ge by (unfold len in H; lia).
  f_equal; [f_equal; lia|f_equal]. unfold len in *. lia.
Qed.

Lemma byte_at_app_l p s i : 0 <= i < len p -> byte_at (p ++ s) i = byte_at p i.
Proof. unfold byte_at, len. intros. apply app_nth1. lia. Qed.

Lemma byte_at_app_r p s i : len p <= i -> byte_at (p ++ s) i = byte_at s (i - len p).
Proof.
  unfold byte_at, len. intros. rewrite app_nth2 by lia. f_equal. lia.
Qed.

Lemma filter_all {A} (P : A -> Prop) `{!forall x, Decision (P x)} l :
  Forall P l -> filter P l = l.
Proof.
  induction 1 as [|x l Hx Hl IH]; [done|]. rewrite filter_cons. case_decide; [|done].
  by rewrite IH.
Qed.

Lemma filter_none {A} (P : A -> Prop) `{!forall x, Decision (P x)} l :
  Forall (fun x => ~ P x) l -> filter P l = [].
Proof. induction 1 as [|x l Hx Hl IH]; [done|]. by rewrite filter_cons_False. Qed.

(** *** Bytes in range *)

Lemma bytes_ok_app l k : bytes_ok (l ++ k) <-> bytes_ok l /\ bytes_ok k.
Proof. apply Forall_app. Qed.
Lemma bytes_ok_cons b l : bytes_ok (b :: l) <-> is_u8 b /\ bytes_ok l.
Proof. apply Forall_cons. Qed.
Lemma bytes_ok_nil : bytes_ok [].
Proof. constructor. Qed.
Lemma bytes_ok_take n l : bytes_ok l -> bytes_ok (take n l).
Proof. apply Forall_take. Qed.
Lemma bytes_ok_drop n l : bytes_ok l -> bytes_ok (drop n l).
Proof. apply Forall_drop. Qed.
Lemma bytes_ok_zeros n : bytes_ok (zeros n).
Proof. apply Forall_replicate. unfold is_u8. lia. Qed.
Lemma bytes_ok_slice l a b : bytes_ok l -> bytes_ok (slice l a b).
Proof. intros. by apply bytes_ok_take, bytes_ok_drop. Qed.
Lemma is_u8_mod v : is_u8 (v mod 256).
Proof. unfold is_u8. apply Z.mod_pos_bound. lia. Qed.
Lemma byte_at_ok l i : bytes_ok l -> is_u8 (byte_at l i).
Proof.
  unfold byte_at. intros H. destruct (decide (Z.to_nat i < length l)%nat) as [Hi|Hi].
  - eapply Forall_forall in H; [exact H|]. apply list_elem_of_In, nth_In. lia.
  - rewrite nth_overflow by lia. unfold is_u8. lia.
Qed.

#[export] Hint Resolve bytes_ok_nil bytes_ok_take bytes_ok_drop bytes_ok_zeros
  bytes_ok_slice is_u8_mod byte_at_ok : tor.
#[export] Hint Extern 1 (bytes_ok (_ ++ _)) => apply bytes_ok_app; split : tor.
#[export] Hint Extern 1 (bytes_ok (_ :: _)) => apply bytes_ok_cons; split : tor.
#[export] Hint Extern 2 (is_u8 _) => unfold is_u8; lia : tor.

(** *** Big-endian integers *)

Lemma length_to_be n v : length (to_be n v) = n.
Proof. revert v. induction n as [|n IH]; intros v; [done|].
  cbn [to_be]. rewrite length_app, IH. cbn. lia.
Qed.
Lemma len_to_be n v : len (to_be n v) = Z.of_nat n.
Proof. unfold len. by rewrite length_to_be. Qed.
#[export] Hint Rewrite len_to_be : len.

Lemma bytes_ok_to_be n v : bytes_ok (to_be n v).
Proof. revert v. induction n as [|n IH]; intros v; cbn; auto with tor. Qed.
#[export] Hint Resolve bytes_ok_to_be : tor.

Lemma from_be_snoc l b : from_be (l ++ [b]) = from_be l * 256 + b.
Proof. unfold from_be. by rewrite fold_left_app. Qed.

Lemma from_be_to_be n v : from_be (to_be n v) = v mod 256 ^ Z.of_nat n.
Proof.
  revert v. induction n as [|n IH]; intros v.
  - cbn. by rewrite Z.mod_1_r.
  - cbn [to_be]. rewrite from_be_snoc, IH, Nat2Z.inj_succ, Z.pow_succ_r by lia.
    pose proof (Z.pow_pos_nonneg 256 (Z.of_nat n) ltac:(lia) ltac:(lia)).
    rewrite Z.rem_mul_r by lia. ring.
Qed.

Lemma from_be_to_be_small n v :
  0 <= v < 256 ^ Z.of_nat n -> from_be (to_be n v) = v.
Proof. intros. rewrite from_be_to_be. by apply Z.mod_small. Qed.

Lemma from_be_bound l : bytes_ok l -> 0 <= from_be l < 256 ^ len l.
Proof.
  unfold bytes_ok. induction l as [|b l IH] using rev_ind; intros H; [by vm_compute|].
  apply Forall_app in H as [Hl Hb]. inversion_clear Hb as [|? ? Hb' _].
  specialize (IH Hl). unfold is_u8 in Hb'.
  rewrite from_be_snoc, len_app, Z.pow_add_r by solve_len.
  change (256 ^ len [b]) with 256. lia.
Qed.

Lemma to_be_from_be l : bytes_ok l -> to_be (length l) (from_be l) = l.
Proof.
  unfold bytes_ok. induction l as [|b l IH] using rev_ind; intros H; [done|].
  apply Forall_app in H as [Hl Hb]. inversion_clear Hb as [|? ? Hb' _].
  unfold is_u8 in Hb'. rewrite length_app, Nat.add_comm. cbn [to_be length Nat.add].
  rewrite from_be_snoc. f_equal.
  - rewrite Z.div_add_l, Z.div_small, Z.add_0_r by lia. auto.
  - f_equal. rewrite Z.add_comm, Z.mod_add, Z.mod_small by lia. done.
Qed.

Lemma from_be_inj l k :
  bytes_ok l -> bytes_ok k -> length l = length k -> from_be l = from_be k -> l = k.
Proof. intros Hl Hk E F. rewrite <- (to_be_from_be l), <- (to_be_from_be k), E, F; done. Qed.

(** *** Chunks *)

Lemma chunks_nil {A} n : chunks n (@nil A) = [].
Proof. done. Qed.

Lemma chunks_fuel_enough {A} n (l : list A) f g :
  (0 < n)%nat -> (length l <= f)%nat -> (length l <= g)%nat ->
  chunks_fuel f n l = chunks_fuel g n l.
Proof.
  intros Hn. revert l g. induction f as [|f IH]; intros l g Hf Hg.
  - destruct l; [|cbn in Hf; lia]. by destruct g.
  - destruct l as [|x l]; [by destruct g|]. destruct g as [|g]; [cbn in Hg; lia|].
    cbn [chunks_fuel]. f_equal. apply IH; rewrite length_drop; cbn in *; lia.
Qed.

Lemma chunks_app {A} n (p l : list A) :
  (0 < n)%nat -> length p = n -> chunks n (p ++ l) = p :: chunks n l.
Proof.
  intros Hn Hp. unfold chunks. destruct p as [|x p]; [cbn in Hp; lia|].
  cbn [chunks_fuel app length]. rewrite app_comm_cons.
  rewrite take_app_length', drop_app_length' by done. f_equal.
  apply chunks_fuel_enough; rewrite ?length_app; lia.
Qed.

Lemma chunks_short {A} n (l : list A) :
  l <> [] -> (length l <= n)%nat -> chunks n l = [l].
Proof.
  intros Hl Hn. unfold chunks. destruct l as [|x l]; [done|].
  cbn [chunks_fuel length]. rewrite take_ge, drop_ge by done.
  f_equal. by destruct (length l).
Qed.

Lemma concat_chunks {A} n (l : list A) : (0 < n)%nat -> concat (chunks n l) = l.
Proof.
  intros Hn. revert l. apply (induction_ltof1 _ (@length A)). unfold ltof. intros l IH.
  destruct (decide (l = [])) as [E|Hne]; [by subst|].
  destruct (decide (length l <= n)%nat).
  - rewrite chunks_short by done. cbn. apply app_nil_r.
  - rewrite <- (take_drop n l) at 1. rewrite chunks_app; [|done|rewrite length_take; lia].
    cbn. rewrite IH; [apply take_drop|]. rewrite length_drop. lia.
Qed.

Lemma chunks_bound {A} n (l c : list A) :
  (0 < n)%nat -> c ∈ chunks n l -> (0 < length c <= n)%nat.
Proof.
  intros Hn. unfold chunks. generalize (length l). intros f. revert l.
  induction f as [|f IH]; intros k; cbn.
  - by rewrite elem_of_nil.
  - destruct k as [|x k]; [by rewrite elem_of_nil|]. rewrite elem_of_cons.
    intros [->|H]; [|by apply IH in H]. rewrite length_take. cbn. lia.
Qed.

(** *** Exclusive or *)

Lemma length_xor_bytes l k : length k = length l -> length (xor_bytes l k) = length l.
Proof. intros. unfold xor_bytes. rewrite length_zip_with. lia. Qed.

Lemma xor_bytes_involutive l k :
  length k = length l -> xor_bytes (xor_bytes l k) k = l.
Proof.
  revert k. induction l as [|a l IH]; intros [|b k] H; try done; cbn in *; try lia.
  f_equal; [|apply IH; lia].
  by rewrite Z.lxor_assoc, Z.lxor_nilpotent, Z.lxor_0_r.
Qed.

Lemma xor_bytes_comm l k m :
  xor_bytes (xor_bytes l k) m = xor_bytes (xor_bytes l m) k.
Proof.
  revert k m. induction l as [|a l IH]; intros [|b k] [|c m]; cbn; try done.
  f_equal; [|apply IH]. by rewrite !Z.lxor_assoc, (Z.lxor_comm b c).
Qed.

Lemma is_u8_lxor a b : is_u8 a -> is_u8 b -> is_u8 (Z.lxor a b).
Proof.
  unfold is_u8. intros Ha Hb. assert (0 <= Z.lxor a b) as H0 by (apply Z.lxor_nonneg; lia).
  split; [done|]. destruct (decide (Z.lxor a b = 0)) as [->|Hn]; [lia|].
  change 256 with (2 ^ 8). apply Z.log2_lt_pow2; [lia|].
  assert (forall z, 0 <= z < 256 -> Z.log2 z < 8) as L.
  { intros z Hz. destruct (decide (z = 0)) as [->|]; [done|].
    apply Z.log2_lt_pow2; lia. }
  pose proof (Z.log2_lxor a b ltac:(lia) ltac:(lia)).
  pose proof (L a Ha). pose proof (L b Hb). lia.
Qed.

Lemma bytes_ok_xor l k : bytes_ok l -> bytes_ok k -> bytes_ok (xor_bytes l k).
Proof.
  intros H. revert k. induction H as [|a l Ha Hl IH]; intros k Hk; [constructor|].
  destruct Hk as [|b k Hb Hk]; [constructor|]. cbn. constructor.
  - by apply is_u8_lxor.
  - by apply IH.
Qed.
#[export] Hint Resolve bytes_ok_xor is_u8_lxor : tor.


