(* ===== verification/Text.v ===== *)
(** * The string functions of Rust's standard library the program uses

    A [&str] is the byte list of its UTF-8 encoding.  Every function here is
    executable and follows the standard library's documented behaviour:
    [split], [split_once], [lines], [split_whitespace] and [trim_end] (with
    Unicode white space), [strip_prefix], [find], and the [parse] of the
    integer types with their width. *)
From S2P Require Import Prelude.

Definition NL : Z := 10.
Definition CR : Z := 13.
Definition SP : Z := 32.

(** ** Prefixes, suffixes and searching *)

Fixpoint strip_prefix (p s : bytes) : option bytes :=
  match p, s with
  | [], _ => Some s
  | a :: p', b :: s' => if a =? b then strip_prefix p' s' else None
  | _ :: _, [] => None
  end.

Definition starts_with (s p : bytes) : bool :=
  match strip_prefix p s with Some _ => true | None => false end.

Definition strip_suffix (p s : bytes) : option bytes :=
  match strip_prefix (rev p) (rev s) with Some r => Some (rev r) | None => None end.

(** [str::find] with a string pattern: the byte offset of the first match. *)
Fixpoint find_from (i : Z) (s p : bytes) : option Z :=
  if starts_with s p then Some i
  else match s with [] => None | _ :: s' => find_from (i + 1) s' p end.
Definition find (s p : bytes) : option Z := find_from 0 s p.

(** ** Splitting on a one-byte character *)

Fixpoint split (c : Z) (s : bytes) : list bytes :=
  match s with
  | [] => [[]]
  | b :: s' =>
      if b =? c then [] :: split c s'
      else match split c s' with
           | [] => [[b]]
           | w :: ws => (b :: w) :: ws
           end
  end.

Fixpoint split_once (c : Z) (s : bytes) : option (bytes * bytes) :=
  match s with
  | [] => None
  | b :: s' =>
      if b =? c then Some ([], s')
      else match split_once c s' with
           | Some (x, y) => Some (b :: x, y)
           | None => None
           end
  end.

(** [str::lines]: split after each newline, drop the newline and one carriage
    return before it, and no empty piece after a final newline. *)
Definition strip_cr (l : bytes) : bytes :=
  match strip_suffix [CR] l with Some l' => l' | None => l end.

(** The pieces a newline ends lose a trailing carriage return; the last one,
    which no newline ends, is kept as it is and dropped when empty. *)
Fixpoint lines_of (ps : list bytes) : list bytes :=
  match ps with
  | [] => []
  | [l] => match l with [] => [] | _ => [l] end
  | l :: ps' => strip_cr l :: lines_of ps'
  end.
Definition lines (s : bytes) : list bytes := lines_of (split NL s).

(** ** White space

    The length in bytes of the white-space character a string starts with,
    zero when it starts with something else (Unicode [White_Space]). *)
Definition ws_len (s : bytes) : nat :=
  match s with
  | a :: r1 =>
      if ((9 <=? a) && (a <=? 13)) || (a =? 32) then 1%nat else
      match r1 with
      | b :: r2 =>
          if (a =? 194) && ((b =? 133) || (b =? 160)) then 2%nat else
          match r2 with
          | c :: _ =>
              if ((a =? 225) && (b =? 154) && (c =? 128))
                 || ((a =? 226) && (b =? 128) &&
                       (((128 <=? c) && (c <=? 138)) || (c =? 168) || (c =? 169) || (c =? 175)))
                 || ((a =? 226) && (b =? 129) && (c =? 159))
                 || ((a =? 227) && (b =? 128) && (c =? 128))
              then 3%nat else 0%nat
          | [] => 0%nat
          end
      | [] => 0%nat
      end
  | [] => 0%nat
  end.

(** [split_whitespace]: the maximal runs of non-white-space characters. *)
Fixpoint split_ws_fuel (fuel : nat) (cur : bytes) (s : bytes) : list bytes :=
  let flush := match cur with [] => [] | _ => [rev cur] end in
  match fuel, s with
  | S f, b :: s' =>
      match ws_len s with
      | O => split_ws_fuel f (b :: cur) s'
      | n => flush ++ split_ws_fuel f [] (drop n s)
      end
  | _, _ => flush
  end.
Definition split_whitespace (s : bytes) : list bytes := split_ws_fuel (length s) [] s.

Fixpoint trim_end_fuel (fuel : nat) (s : bytes) : bytes :=
  match fuel, s with
  | S f, b :: s' =>
      match ws_len s with
      | O => b :: trim_end_fuel f s'
      | n => match trim_end_fuel f (drop n s) with
             | [] => []
             | r => take n s ++ r
             end
      end
  | _, _ => []
  end.
Definition trim_end (s : bytes) : bytes := trim_end_fuel (length s) s.

Fixpoint trim_start_fuel (fuel : nat) (s : bytes) : bytes :=
  match fuel, ws_len s with
  | S f, S n => trim_start_fuel f (drop (S n) s)
  | _, _ => s
  end.
Definition trim (s : bytes) : bytes := trim_end (trim_start_fuel (length s) s).

(** ** ASCII classes and case *)

Definition is_ascii_digit (b : Z) : bool := (48 <=? b) && (b <=? 57).
Definition is_ascii_upper (b : Z) : bool := (65 <=? b) && (b <=? 90).
Definition is_ascii_lower (b : Z) : bool := (97 <=? b) && (b <=? 122).
(** Space, tab, newline, form feed, carriage return. *)
Definition is_ascii_whitespace (b : Z) : bool :=
  (b =? 32) || (b =? 9) || (b =? 10) || (b =? 12) || (b =? 13).
Definition to_ascii_lowercase (b : Z) : Z := if is_ascii_upper b then b + 32 else b.
Definition eq_ignore_ascii_case (s t : bytes) : bool :=
  bool_decide (map to_ascii_lowercase s = map to_ascii_lowercase t).

Definition bytes_eqb (s t : bytes) : bool := bool_decide (s = t).

(** ** [String::from_utf8]: which byte strings are UTF-8 *)

(** A continuation byte, and the second byte of a three- and of a four-byte
    character, which excludes overlong forms, surrogates and what lies past
    U+10FFFF. *)
Definition utf8_tail (b : Z) : bool := (128 <=? b) && (b <=? 191).
Definition utf8_second3 (a b : Z) : bool :=
  if a =? 224 then (160 <=? b) && (b <=? 191)
  else if a =? 237 then (128 <=? b) && (b <=? 159) else utf8_tail b.
Definition utf8_second4 (a b : Z) : bool :=
  if a =? 240 then (144 <=? b) && (b <=? 191)
  else if a =? 244 then (128 <=? b) && (b <=? 143) else utf8_tail b.

Fixpoint utf8_valid (s : bytes) : bool :=
  match s with
  | [] => true
  | a :: s1 =>
      if a <? 128 then utf8_valid s1 else
      match s1 with
      | b :: s2 =>
          if (194 <=? a) && (a <=? 223) then utf8_tail b && utf8_valid s2 else
          match s2 with
          | c :: s3 =>
              if (224 <=? a) && (a <=? 239) then utf8_second3 a b && utf8_tail c && utf8_valid s3
              else
                match s3 with
                | d :: s4 =>
                    (240 <=? a) && (a <=? 244) && utf8_second4 a b && utf8_tail c && utf8_tail d
                    && utf8_valid s4
                | [] => false
                end
          | [] => false
          end
      | [] => false
      end
  end.

(** [String::from_utf8_lossy]: U+FFFD in place of every maximal part of a
    character that is not one. *)
Definition REPLACEMENT : bytes := [239; 191; 189].

Fixpoint from_utf8_lossy (s : bytes) : bytes :=
  match s with
  | [] => []
  | a :: s1 =>
      if a <? 128 then a :: from_utf8_lossy s1
      else if (194 <=? a) && (a <=? 223) then
        match s1 with
        | b :: s2 => if utf8_tail b then a :: b :: from_utf8_lossy s2
                     else REPLACEMENT ++ from_utf8_lossy s1
        | [] => REPLACEMENT
        end
      else if (224 <=? a) && (a <=? 239) then
        match s1 with
        | b :: s2 =>
            if utf8_second3 a b then
              match s2 with
              | c :: s3 => if utf8_tail c then a :: b :: c :: from_utf8_lossy s3
                           else REPLACEMENT ++ from_utf8_lossy s2
              | [] => REPLACEMENT
              end
            else REPLACEMENT ++ from_utf8_lossy s1
        | [] => REPLACEMENT
        end
      else if (240 <=? a) && (a <=? 244) then
        match s1 with
        | b :: s2 =>
            if utf8_second4 a b then
              match s2 with
              | c :: s3 =>
                  if utf8_tail c then
                    match s3 with
                    | d :: s4 => if utf8_tail d then a :: b :: c :: d :: from_utf8_lossy s4
                                 else REPLACEMENT ++ from_utf8_lossy s3
                    | [] => REPLACEMENT
                    end
                  else REPLACEMENT ++ from_utf8_lossy s2
              | [] => REPLACEMENT
              end
            else REPLACEMENT ++ from_utf8_lossy s1
        | [] => REPLACEMENT
        end
      else REPLACEMENT ++ from_utf8_lossy s1
  end.

(** ** Integers: [str::parse] *)

Fixpoint parse_digits (acc : Z) (s : bytes) : option Z :=
  match s with
  | [] => Some acc
  | b :: s' => if is_ascii_digit b then parse_digits (acc * 10 + (b - 48)) s' else None
  end.

(** [parse::<uN>()] with the type's maximum: one optional plus sign, at least
    one digit, and no overflow. *)
Definition parse_uint (max : Z) (s : bytes) : option Z :=
  let digits := match s with 43 :: s' => s' | _ => s end in
  match digits with
  | [] => None
  | _ => match parse_digits 0 digits with
         | Some v => if v <=? max then Some v else None
         | None => None
         end
  end.

(** [parse::<i64>()]: the sign may also be a minus. *)
Definition parse_i64 (s : bytes) : option Z :=
  match s with
  | 45 :: s' =>
      match s' with
      | [] => None
      | _ => match parse_digits 0 s' with
             | Some v => if v <=? 9223372036854775808 then Some (- v) else None
             | None => None
             end
      end
  | _ => parse_uint 9223372036854775807 s
  end.

(** The decimal digits of a number, as [Display] writes them. *)
Fixpoint show_fuel (fuel : nat) (v : Z) : bytes :=
  match fuel with
  | O => []
  | S f => (if v <? 10 then [] else show_fuel f (v / 10)) ++ [48 + v mod 10]
  end.
Definition show_uint (v : Z) : bytes := show_fuel 20 v.

(** ** Lemmas *)

Lemma strip_prefix_Some p s r : strip_prefix p s = Some r <-> s = p ++ r.
Proof.
  revert s. induction p as [|a p IH]; intros s; cbn.
  - split; [by intros [= ->]|by intros ->].
  - destruct s as [|b s]; cbn; [by split|]. destruct (Z.eqb_spec a b) as [->|Hne].
    + rewrite IH. split; [by intros ->|by intros [= ->]].
    + split; [done|]. by intros [= ->].
Qed.

Lemma strip_prefix_app p s : strip_prefix p (p ++ s) = Some s.
Proof. by apply strip_prefix_Some. Qed.

Lemma split_nonempty c s : split c s <> [].
Proof. induction s as [|b s IH]; cbn; [done|]. case_match; [done|]. by case_match. Qed.

(** Joining the pieces of a split gives the string back. *)
Fixpoint join (c : Z) (ws : list bytes) : bytes :=
  match ws with
  | [] => []
  | [w] => w
  | w :: ws' => w ++ [c] ++ join c ws'
  end.

Lemma join_cons c w ws : ws <> [] -> join c (w :: ws) = w ++ c :: join c ws.
Proof. by destruct ws. Qed.

Lemma join_split c s : join c (split c s) = s.
Proof.
  induction s as [|b s IH]; cbn; [done|]. pose proof (split_nonempty c s).
  destruct (Z.eqb_spec b c) as [->|Hne].
  - rewrite join_cons by done. by rewrite IH.
  - destruct (split c s) as [|w ws]; [done|]. rewrite <- IH.
    by destruct ws.
Qed.

Lemma split_no_sep c s : Forall (Forall (fun b => b <> c)) (split c s).
Proof.
  induction s as [|b s IH]; cbn; [repeat constructor|].
  destruct (Z.eqb_spec b c); [by repeat constructor|].
  destruct (split c s) as [|w ws]; inversion IH; subst; repeat constructor; done.
Qed.

Lemma split_app_sep c w s :
  Forall (fun b => b <> c) w -> split c (w ++ c :: s) = w :: split c s.
Proof.
  induction 1 as [|b w Hb Hw IH]; cbn; [by rewrite Z.eqb_refl|].
  destruct (Z.eqb_spec b c); [done|]. by rewrite IH.
Qed.

Lemma split_single c w : Forall (fun b => b <> c) w -> split c w = [w].
Proof.
  induction 1 as [|b w Hb Hw IH]; cbn; [done|].
  destruct (Z.eqb_spec b c); [done|]. by rewrite IH.
Qed.

Lemma split_join c ws :
  ws <> [] -> Forall (Forall (fun b => b <> c)) ws -> split c (join c ws) = ws.
Proof.
  intros Hne Hall. induction Hall as [|w ws Hw Hws IH]; [done|].
  destruct ws as [|v ws]; [by apply split_single|].
  rewrite join_cons, split_app_sep by done. f_equal. by apply IH.
Qed.

Lemma split_once_app c x y :
  Forall (fun b => b <> c) x -> split_once c (x ++ c :: y) = Some (x, y).
Proof.
  induction 1 as [|b x Hb Hx IH]; cbn; [by rewrite Z.eqb_refl|].
  destruct (Z.eqb_spec b c); [done|]. by rewrite IH.
Qed.

Lemma split_once_Some c s x y :
  split_once c s = Some (x, y) -> s = x ++ c :: y /\ Forall (fun b => b <> c) x.
Proof.
  revert x. induction s as [|b s IH]; intros x H; cbn in H; [done|].
  destruct (Z.eqb_spec b c) as [->|Hne]; [by simplify_eq|].
  destruct (split_once c s) as [[x' y']|]; simplify_eq.
  destruct (IH x' eq_refl) as [-> Hx]. split; [done|by constructor].
Qed.

Lemma parse_digits_app acc s t v :
  parse_digits acc s = Some v -> parse_digits acc (s ++ t) = parse_digits v t.
Proof.
  revert acc. induction s as [|b s IH]; intros acc H; cbn in *; [by simplify_eq|].
  case_match; [by apply IH|done].
Qed.

Lemma parse_digits_bound acc s v :
  0 <= acc -> parse_digits acc s = Some v -> acc <= v.
Proof.
  revert acc. induction s as [|b s IH]; intros acc Ha H; cbn in H; simplify_eq; [lia|].
  unfold is_ascii_digit in H. case_match eqn:E; [|done]. b2p.
  apply IH in H; lia.
Qed.

Lemma parse_uint_bound max s v : parse_uint max s = Some v -> 0 <= v <= max.
Proof.
  unfold parse_uint. intros H. set (d := match s with 43 :: _ => _ | _ => _ end) in H.
  destruct d; [done|]. case_match eqn:E; [|done]. res_inv. b2p. subst.
  apply parse_digits_bound in E; lia.
Qed.

(** Printing and parsing a number. *)
Lemma show_fuel_digits n v :
  0 <= v -> Forall (fun b => is_ascii_digit b = true) (show_fuel n v).
Proof.
  revert v. induction n as [|n IH]; intros v Hv; cbn; [constructor|].
  apply Forall_app. split.
  - case_match; [constructor|]. apply IH. by apply Z.div_pos.
  - constructor; [|done]. unfold is_ascii_digit.
    pose proof (Z.mod_pos_bound v 10). lia.
Qed.

Lemma parse_show_fuel n v :
  0 <= v < 10 ^ Z.of_nat n -> parse_digits 0 (show_fuel n v) = Some v.
Proof.
  revert v. induction n as [|n IH]; intros v Hv; [cbn; f_equal; change (10 ^ Z.of_nat 0) with 1 in Hv; lia|].
  cbn [show_fuel]. assert (is_ascii_digit (48 + v mod 10) = true) as Hd.
  { unfold is_ascii_digit. pose proof (Z.mod_pos_bound v 10). lia. }
  destruct (Z.ltb_spec v 10).
  - cbn [app parse_digits]. rewrite Hd. f_equal. rewrite Z.mod_small by lia. lia.
  - erewrite parse_digits_app.
    2: { apply IH. rewrite Nat2Z.inj_succ, Z.pow_succ_r in Hv by lia.
         split; [apply Z.div_pos; lia|]. apply Z.div_lt_upper_bound; lia. }
    cbn [parse_digits]. rewrite Hd. f_equal. pose proof (Z.div_mod v 10). lia.
Qed.

Lemma show_fuel_nonempty n v : show_fuel (S n) v <> [].
Proof. cbn. by destruct (if v <? 10 then _ else _). Qed.

Lemma show_uint_head v b s : 0 <= v -> show_uint v = b :: s -> is_ascii_digit b = true.
Proof.
  intros Hv E. pose proof (show_fuel_digits 20 v Hv) as H. unfold show_uint in E.
  rewrite E in H. by inversion H.
Qed.

Lemma parse_show_uint max v :
  0 <= v <= max -> v < 10 ^ 20 -> parse_uint max (show_uint v) = Some v.
Proof.
  intros Hv Hs. unfold parse_uint. pose proof (parse_show_fuel 20 v ltac:(lia)) as Hp.
  pose proof (show_fuel_nonempty 19 v) as Hne. pose proof (show_uint_head v) as Hh.
  fold (show_uint v) in Hp, Hne. destruct (show_uint v) as [|b s] eqn:E; [done|].
  specialize (Hh b s ltac:(lia) eq_refl). unfold is_ascii_digit in Hh.
  assert (match b :: s with 43 :: s' => s' | _ => b :: s end = b :: s) as ->.
  { b2p. assert (b <> 43) by lia. repeat (case_match; try done). }
  rewrite Hp. zif. done.
Qed.

(** *** Words *)

(** Plain text: no character of it is white space. *)
Definition plain (b : Z) : Prop := 33 <= b <= 126.

Lemma ws_len_plain b s : plain b -> ws_len (b :: s) = 0%nat.
Proof.
  unfold plain, ws_len. intros H. repeat zif1; try lia; repeat case_match; try done;
    repeat match goal with H : _ = true |- _ => progress (apply orb_true_iff in H as [H|H] || b2p) end; lia.
Qed.

Lemma split_ws_word w : forall fuel cur s,
  Forall plain w -> split_ws_fuel (length w + fuel) cur (w ++ s) = split_ws_fuel fuel (rev w ++ cur) s.
Proof.
  induction w as [|b w IH]; intros fuel cur s F; [done|]. inversion_clear F as [|? ? Hb Hw].
  cbn [length Nat.add app split_ws_fuel]. rewrite ws_len_plain by done. rewrite IH by done.
  cbn [rev]. by rewrite <- app_assoc.
Qed.

Lemma split_ws_join ws :
  Forall (fun w => w <> [] /\ Forall plain w) ws -> split_whitespace (Text.join SP ws) = ws.
Proof.
  unfold split_whitespace. induction 1 as [|w ws (Hn & Hw) F IH]; [done|].
  destruct ws as [|w' ws].
  - cbn [Text.join]. replace (length w) with (length w + 0)%nat by lia.
    rewrite <- (app_nil_r w) at 2. rewrite split_ws_word by done. cbn. rewrite app_nil_r.
    destruct (rev w) eqn:R; [exfalso; apply Hn; by rewrite <- (rev_involutive w), R|].
    by rewrite <- R, rev_involutive.
  - rewrite join_cons by done. rewrite length_app. rewrite split_ws_word by done.
    cbn [length split_ws_fuel]. change (ws_len (SP :: Text.join SP (w' :: ws))) with 1%nat. cbn [drop]. rewrite drop_0.
    rewrite IH, app_nil_r. destruct (rev w) eqn:R; [exfalso; apply Hn; by rewrite <- (rev_involutive w), R|].
    by rewrite <- R, rev_involutive.
Qed.

Lemma digit_plain b : is_ascii_digit b = true -> plain b.
Proof. unfold is_ascii_digit, plain. intros H. b2p. lia. Qed.

Lemma show_uint_digits v : 0 <= v -> Forall (fun b => is_ascii_digit b = true) (show_uint v).
Proof. apply show_fuel_digits. Qed.

Lemma show_uint_nonempty v : show_uint v <> [].
Proof. apply show_fuel_nonempty. Qed.

Lemma digits_plain s : Forall (fun b => is_ascii_digit b = true) s -> Forall plain s.
Proof. intros F. eapply Forall_impl; [exact F|exact digit_plain]. Qed.

(** *** ASCII is UTF-8 *)

Lemma utf8_valid_ascii s : Forall (fun b => 0 <= b < 128) s -> utf8_valid s = true.
Proof.
  induction 1 as [|b s Hb F IH]; [done|]. cbn [utf8_valid]. by rewrite (proj2 (Z.ltb_lt _ _)) by lia.
Qed.

Lemma plain_ascii s : Forall plain s -> Forall (fun b => 0 <= b < 128) s.
Proof. intros F. eapply Forall_impl; [exact F|]. unfold plain. intros; lia. Qed.

(** What is UTF-8 is kept as it is. *)
Lemma lossy_ascii s : Forall (fun b => 0 <= b < 128) s -> from_utf8_lossy s = s.
Proof.
  induction 1 as [|b s Hb F IH]; [done|]. cbn [from_utf8_lossy].
  by rewrite (proj2 (Z.ltb_lt _ _)), IH by lia.
Qed.

Lemma lossy_valid_len n : forall s, (length s <= n)%nat -> utf8_valid s = true -> from_utf8_lossy s = s.
Proof.
  induction n as [|n IH]; intros s Hn H; [by destruct s; [|cbn in Hn; lia]|].
  destruct s as [|a s1]; [done|]. cbn [from_utf8_lossy utf8_valid length] in *.
  destruct (a <? 128); [by rewrite IH by (done || lia)|]. destruct s1 as [|b s2]; [done|].
  cbn [length] in Hn. destruct ((194 <=? a) && (a <=? 223)).
  { apply andb_prop in H as [-> H]. by rewrite IH by (done || lia). }
  destruct s2 as [|c s3]; [done|]. cbn [length] in Hn. destruct ((224 <=? a) && (a <=? 239)).
  { apply andb_prop in H as [[-> ->]%andb_prop H]. by rewrite IH by (done || lia). }
  destruct s3 as [|d s4]; [done|]. cbn [length] in Hn.
  apply andb_prop in H as [[[[-> ->]%andb_prop ->]%andb_prop ->]%andb_prop H].
  by rewrite IH by (done || lia).
Qed.

Lemma lossy_valid s : utf8_valid s = true -> from_utf8_lossy s = s.
Proof. by apply (lossy_valid_len (length s)). Qed.

(** *** UTF-8 at a one-byte character *)

Lemma utf8_tail_not_ascii b : utf8_tail b = true -> b <? 128 = false.
Proof. unfold utf8_tail. intros H. b2p. apply Z.ltb_ge. lia. Qed.

Lemma utf8_second_tail a b :
  (utf8_second3 a b = true -> b <? 128 = false) /\ (utf8_second4 a b = true -> b <? 128 = false).
Proof.
  unfold utf8_second3, utf8_second4, utf8_tail. split; intros H; repeat case_match; b2p; apply Z.ltb_ge; lia.
Qed.

(** A one-byte character starts a character of its own. *)
Lemma utf8_split_len n : forall x b y, (length x <= n)%nat -> (b <? 128) = true ->
  utf8_valid (x ++ b :: y) = utf8_valid x && utf8_valid y.
Proof.
  assert (T : forall b, (b <? 128) = true -> utf8_tail b = false /\ (forall a, utf8_second3 a b = false) /\
                        (forall a, utf8_second4 a b = false)).
  { intros b Hb. split; [|split; intros a]; apply not_true_iff_false; intros H;
      (apply utf8_tail_not_ascii in H || apply (utf8_second_tail a b) in H); by rewrite Hb in H. }
  induction n as [|n IH]; intros x b y Hn Hb.
  { destruct x; [|cbn in Hn; lia]. cbn [app utf8_valid]. by rewrite Hb. }
  destruct (T b Hb) as (T1 & T3 & T4).
  destruct x as [|a x]; [cbn [app utf8_valid]; by rewrite Hb|]. cbn [app utf8_valid length] in *.
  destruct (a <? 128); [apply IH; [lia|done]|].
  destruct x as [|c x]; cbn [app length] in *.
  { rewrite T1, T3, T4. destruct ((194 <=? a) && (a <=? 223)); [done|].
    destruct y as [|y1 y]; [done|]. destruct ((224 <=? a) && (a <=? 239)); [done|].
    destruct y; [done|]. by rewrite andb_false_r. }
  destruct ((194 <=? a) && (a <=? 223)); [rewrite IH by (done || lia); by rewrite andb_assoc|].
  destruct x as [|d x]; cbn [app length] in *.
  { rewrite T1, !andb_false_r. destruct ((224 <=? a) && (a <=? 239)); [done|]. by destruct y. }
  destruct ((224 <=? a) && (a <=? 239)); [rewrite IH by (done || lia); by rewrite !andb_assoc|].
  destruct x as [|e x]; cbn [app length] in *; [by rewrite T1, !andb_false_r|].
  rewrite IH by (done || lia). by rewrite !andb_assoc.
Qed.

Lemma utf8_split x b y : (b <? 128) = true -> utf8_valid (x ++ b :: y) = utf8_valid x && utf8_valid y.
Proof. by apply (utf8_split_len (length x)). Qed.

Lemma utf8_replaced s : utf8_valid (REPLACEMENT ++ s) = utf8_valid s.
Proof. done. Qed.

(** What is read lossily is UTF-8. *)
Lemma lossy_is_utf8_len n : forall s, (length s <= n)%nat -> utf8_valid (from_utf8_lossy s) = true.
Proof.
  induction n as [|n IH]; intros s Hn; [by destruct s; [|cbn in Hn; lia]|].
  destruct s as [|a s1]; [done|]. cbn [length] in Hn.
  assert (I1 : utf8_valid (from_utf8_lossy s1) = true) by (apply IH; lia).
  cbn [from_utf8_lossy]. destruct (a <? 128) eqn:Ha; [cbn [utf8_valid]; by rewrite Ha|].
  destruct ((194 <=? a) && (a <=? 223)) eqn:A2.
  { destruct s1 as [|b s2]; [done|]. destruct (utf8_tail b) eqn:Tb; [|by rewrite utf8_replaced].
    cbn [utf8_valid]. rewrite Ha, A2, Tb. apply IH. cbn [length] in Hn. lia. }
  destruct ((224 <=? a) && (a <=? 239)) eqn:A3.
  { destruct s1 as [|b s2]; [done|]. destruct (utf8_second3 a b) eqn:Tb; [|by rewrite utf8_replaced].
    cbn [length] in Hn. destruct s2 as [|c s3]; [done|].
    destruct (utf8_tail c) eqn:Tc; [|rewrite utf8_replaced; apply IH; lia].
    cbn [utf8_valid length] in *. rewrite Ha, A2, A3, Tb, Tc. apply IH. lia. }
  destruct ((240 <=? a) && (a <=? 244)) eqn:A4; [|by rewrite utf8_replaced].
  destruct s1 as [|b s2]; [done|]. destruct (utf8_second4 a b) eqn:Tb; [|by rewrite utf8_replaced].
  cbn [length] in Hn. destruct s2 as [|c s3]; [done|].
  destruct (utf8_tail c) eqn:Tc; [|rewrite utf8_replaced; apply IH; lia]. cbn [length] in Hn.
  destruct s3 as [|d s4]; [done|]. destruct (utf8_tail d) eqn:Td; [|rewrite utf8_replaced; apply IH; cbn [length] in *; lia].
  cbn [utf8_valid length] in *. rewrite Ha, A2, A3, A4, Tb, Tc, Td. apply IH. lia.
Qed.

Lemma lossy_is_utf8 s : utf8_valid (from_utf8_lossy s) = true.
Proof. by apply (lossy_is_utf8_len (length s)). Qed.

Lemma utf8_app_ok s t : utf8_valid s = true -> utf8_valid (s ++ t) = utf8_valid t.
Proof.
  assert (G : forall n s, (length s <= n)%nat -> utf8_valid s = true -> utf8_valid (s ++ t) = utf8_valid t).
  { clear s. induction n as [|n IH]; intros s Hn H; [by destruct s; [|cbn in Hn; lia]|].
    destruct s as [|a s]; [done|]. cbn [app utf8_valid length] in *.
    destruct (a <? 128); [apply IH; [lia|done]|]. destruct s as [|b s]; [done|]. cbn [app length] in *.
    destruct ((194 <=? a) && (a <=? 223)).
    { apply andb_prop in H as [-> H]. apply IH; [lia|done]. }
    destruct s as [|c s]; [done|]. cbn [app length] in *. destruct ((224 <=? a) && (a <=? 239)).
    { apply andb_prop in H as [-> H]. apply IH; [lia|done]. }
    destruct s as [|d s]; [done|]. cbn [app length] in *. apply andb_prop in H as [-> H]. apply IH; [lia|done]. }
  by apply (G (length s)).
Qed.

(** *** Trimming what ends in plain text *)

Lemma ws_len_bytes s : Forall (fun b => ~ plain b) (take (ws_len s) s).
Proof.
  unfold ws_len, plain. destruct s as [|a [|b [|c s]]]; repeat case_match;
    repeat constructor; repeat match goal with
    | H : (_ || _)%bool = true |- _ => apply orb_true_iff in H as [H|H]
    | H : (_ && _)%bool = true |- _ => apply andb_prop in H as [? ?]
    end; b2p; lia.
Qed.

Lemma trim_end_plain x b : plain b -> trim_end (x ++ [b]) = x ++ [b].
Proof.
  intros Hb. unfold trim_end.
  assert (G : forall f x, (length x < f)%nat -> trim_end_fuel f (x ++ [b]) = x ++ [b]); [|apply G; rewrite length_app; cbn; lia].
  induction f as [|f IH]; intros y Hy; [lia|]. destruct y as [|a y].
  - cbn [app trim_end_fuel]. rewrite ws_len_plain by done. by destruct f.
  - cbn [app trim_end_fuel length] in *. pose proof (ws_len_bytes (a :: y ++ [b])) as W.
    destruct (ws_len (a :: y ++ [b])) as [|n] eqn:E; [by rewrite IH by lia|].
    assert (n <= length y)%nat as Hn.
    { destruct (decide (n <= length y)%nat) as [|Hn]; [done|]. exfalso.
      rewrite take_ge in W by (cbn [length]; rewrite length_app; cbn; lia).
      rewrite app_comm_cons in W. apply Forall_app in W as [_ W]. by inversion W. }
    cbn [drop take]. rewrite drop_app_le, IH by (rewrite ?length_drop; lia).
    assert (take n y ++ drop n y ++ [b] = y ++ [b]) as R by (by rewrite app_assoc, take_drop).
    rewrite take_app_le by done. destruct (drop n y ++ [b]) eqn:D; [by destruct (drop n y)|].
    cbn [app]. by rewrite R.
Qed.
