(* ===== verification/Util.v ===== *)
(** * Encodings and dates ([src/src/util.rs])

    Base64 without padding, hexadecimal, and the timestamps of directory
    documents.  The theorems are round trips: what the encoders and the
    formatter produce, the decoders and the parser read back. *)
From S2P Require Import Prelude.
From S2P Require Import Text.

(** ** Base64 *)

Definition B64_ALPHABET : bytes :=
  B "ABCDEFGHIJKLMNOPQRSTUVWXYZabcdefghijklmnopqrstuvwxyz0123456789+/".

Definition b64_value (c : Z) : option Z :=
  if is_ascii_upper c then Some (c - 65)
  else if is_ascii_lower c then Some (c - 97 + 26)
  else if is_ascii_digit c then Some (c - 48 + 52)
  else if c =? 43 then Some 62
  else if c =? 47 then Some 63
  else None.

(** The loop of [base64_decode], with its 32-bit accumulator: the
    accumulator and the number of its bits still to be used, and the bytes. *)
Fixpoint b64_loop (input : bytes) (acc bits : Z) (out : bytes) : result (Z * Z * bytes) :=
  match input with
  | [] => Ok (acc, bits, out)
  | c :: input =>
      if c =? 61 then Ok (acc, bits, out)
      else if (c =? 32) || (c =? 9) || (c =? 13) || (c =? 10) then b64_loop input acc bits out
      else
        v ← ok_or (b64_value c) (invalid_data "invalid base64 character");
        let acc := Z.lor (as_u32 (Z.shiftl acc 6)) v in
        let bits := bits + 6 in
        if 8 <=? bits then
          let bits := bits - 8 in
          b64_loop input acc bits (out ++ [as_u8 (Z.shiftr acc bits)])
        else b64_loop input acc bits out
  end.

Definition base64_decode (input : bytes) : result bytes :=
  '(acc, bits, out) ← b64_loop input 0 0 [];
  if (6 <=? bits) || negb (Z.land acc (Z.shiftl 1 bits - 1) =? 0)
  then Err (invalid_data "truncated base64 group")
  else Ok out.

Definition b64_chunk (chunk : bytes) : bytes :=
  let n := Z.lor (Z.lor (Z.shiftl (byte_at chunk 0) 16) (Z.shiftl (byte_at chunk 1) 8))
                 (byte_at chunk 2) in
  let chars := [Z.land (Z.shiftr n 18) 63; Z.land (Z.shiftr n 12) 63;
                Z.land (Z.shiftr n 6) 63; Z.land n 63] in
  map (byte_at B64_ALPHABET) (take (length chunk + 1) chars).

Definition base64_encode_unpadded (data : bytes) : bytes := concat (map b64_chunk (chunks 3 data)).

(** ** Hexadecimal *)

Definition HEX : bytes := B "0123456789ABCDEF".

Definition hex_encode (data : bytes) : bytes :=
  concat (map (fun b => [byte_at HEX (Z.shiftr b 4); byte_at HEX (Z.land b 15)]) data).

Definition nibble (c : Z) : result Z :=
  if is_ascii_digit c then Ok (c - 48)
  else if (97 <=? c) && (c <=? 102) then Ok (c - 97 + 10)
  else if (65 <=? c) && (c <=? 70) then Ok (c - 65 + 10)
  else Err (invalid_data "invalid hex character").

(** [chunks(2)] and [collect] together: the first error ends it. *)
Fixpoint hex_pairs (s : bytes) : result bytes :=
  match s with
  | a :: b :: s =>
      x ← nibble a; y ← nibble b;
      rest ← hex_pairs s;
      Ok (Z.lor (Z.shiftl x 4) y :: rest)
  | _ => Ok []
  end.

Definition hex_decode (s : bytes) : result bytes :=
  if negb (len s mod 2 =? 0) then Err (invalid_data "odd-length hex string") else hex_pairs s.

(** ** Dates

    [i64] arithmetic of a release build: results wrap. *)

Definition i64 (z : Z) : Z := (z + 2 ^ 63) mod 2 ^ 64 - 2 ^ 63.

Definition days_from_civil (year month day : Z) : Z :=
  let year := if month <=? 2 then i64 (year - 1) else year in
  let era := Z.quot (if 0 <=? year then year else i64 (year - 399)) 400 in
  let year_of_era := year - era * 400 in
  let day_of_year :=
    Z.quot (153 * (if 2 <? month then month - 3 else month + 9) + 2) 5 + day - 1 in
  let day_of_era :=
    year_of_era * 365 + Z.quot year_of_era 4 - Z.quot year_of_era 100 + day_of_year in
  i64 (i64 (i64 (era * 146097) + day_of_era) - 719468).

(** Three numbers separated by [sep], no more and no fewer. *)
Definition three_numbers (sep : Z) (s : bytes) : option (Z * Z * Z) :=
  match split sep s with
  | [a; b; c] => x ← parse_i64 a; y ← parse_i64 b; z ← parse_i64 c; Some (x, y, z)
  | _ => None
  end.

Definition parse_datetime (date time : bytes) : result Z :=
  let bad := invalid_data "bad timestamp {date:?} {time:?}" in
  '(year, month, day) ← ok_or (three_numbers 45 date) bad;
  if negb ((1 <=? month) && (month <=? 12)) || negb ((1 <=? day) && (day <=? 31)) then Err bad
  else
    '(hour, minute, second) ← ok_or (three_numbers 58 time) bad;
    if (23 <? hour) || (59 <? minute) || (60 <? second) then Err bad
    else
      let seconds :=
        i64 (i64 (i64 (i64 (days_from_civil year month day * 86400) + i64 (hour * 3600))
                  + i64 (minute * 60)) + second) in
      if seconds <? 0 then Err bad else Ok seconds.

(** [{:0w$}]. *)
Definition show_padded (w : nat) (v : Z) : bytes :=
  let s := show_uint v in replicate (w - length s) 48 ++ s.

(** Year, month and day of a day number, as [format_datetime] inverts
    [days_from_civil]. *)
Definition civil_of_days (days : Z) : Z * Z * Z :=
  let z := days + 719468 in
  let era := Z.quot (if 0 <=? z then z else z - 146096) 146097 in
  let doe := z - era * 146097 in
  let yoe := Z.quot (doe - Z.quot doe 1460 + Z.quot doe 36524 - Z.quot doe 146096) 365 in
  let y := yoe + era * 400 in
  let doy := doe - (365 * yoe + Z.quot yoe 4 - Z.quot yoe 100) in
  let mp := Z.quot (5 * doy + 2) 153 in
  let d := doy - Z.quot (153 * mp + 2) 5 + 1 in
  let m := if mp <? 10 then mp + 3 else mp - 9 in
  let y := if m <=? 2 then y + 1 else y in
  (y, m, d).

Definition format_datetime (unix : Z) : bytes :=
  let '(y, m, d) := civil_of_days (unix / 86400) in
  let secs := unix mod 86400 in
  show_padded 4 y ++ [45] ++ show_padded 2 m ++ [45] ++ show_padded 2 d ++ [32] ++
  show_padded 2 (secs / 3600) ++ [58] ++ show_padded 2 (secs mod 3600 / 60) ++ [58] ++
  show_padded 2 (secs mod 60).

(** ** Lemmas *)

Example decodes_hello : base64_decode (B "aGVsbG8=") = Ok (B "hello").
Proof. by vm_compute. Qed.
Example encodes_hello : base64_encode_unpadded (B "hello") = B "aGVsbG8".
Proof. by vm_compute. Qed.
Example formats_a_date : format_datetime 1788352496 = B "2026-09-02 12:34:56".
Proof. by vm_compute. Qed.
Example parses_a_date : parse_datetime (B "2026-09-02") (B "12:34:56") = Ok 1788352496.
Proof. by vm_compute. Qed.

(** *** Bit operations as arithmetic *)

Lemma lor_low x y k : 0 <= k -> 0 <= y < 2 ^ k -> Z.lor (Z.shiftl x k) y = x * 2 ^ k + y.
Proof.
  intros Hk Hy. assert (D : Z.land (Z.shiftl x k) y = 0).
  { apply Z.bits_inj'. intros i Hi. rewrite Z.land_spec, Z.shiftl_spec, Z.bits_0 by lia.
    destruct (Z.ltb_spec i k); [by rewrite Z.testbit_neg_r by lia|].
    rewrite <- (Z.mod_small y (2 ^ k)), Z.testbit_mod_pow2 by lia.
    rewrite (proj2 (Z.ltb_ge i k)) by lia. apply andb_false_r. }
  pose proof (Z.add_lor_land (Z.shiftl x k) y) as E. rewrite D, Z.add_0_r in E.
  by rewrite E, Z.shiftl_mul_pow2.
Qed.

Lemma land_63 x : Z.land x 63 = x mod 64.
Proof. change 63 with (Z.ones 6). by rewrite Z.land_ones by lia. Qed.

Lemma land_15 x : Z.land x 15 = x mod 16.
Proof. change 15 with (Z.ones 4). by rewrite Z.land_ones by lia. Qed.

(** *** Base64 *)

(** Every value has a character of its own, none of which is skipped. *)
Definition b64_char_ok (v : Z) : bool :=
  let c := byte_at B64_ALPHABET v in
  bool_decide (b64_value c = Some v) &&
  negb ((c =? 61) || ((c =? 32) || (c =? 9) || (c =? 13) || (c =? 10))).

Lemma b64_chars v : 0 <= v < 64 -> b64_char_ok v = true.
Proof.
  intros Hv. assert (A : forallb (fun i => b64_char_ok (Z.of_nat i)) (seq 0 64) = true)
    by (by vm_compute).
  rewrite forallb_forall in A. specialize (A (Z.to_nat v)).
  rewrite Z2Nat.id in A by lia. apply A. apply in_seq. lia.
Qed.

(** One character of the loop. *)
Lemma b64_step v input acc bits out :
  0 <= v < 64 ->
  b64_loop (byte_at B64_ALPHABET v :: input) acc bits out =
  let acc := as_u32 (acc * 64) + v in
  if 2 <=? bits then b64_loop input acc (bits - 2) (out ++ [as_u8 (acc / 2 ^ (bits - 2))])
  else b64_loop input acc (bits + 6) out.
Proof.
  intros Hv. pose proof (b64_chars v Hv) as C. unfold b64_char_ok in C.
  apply andb_prop in C as [C1%bool_decide_eq_true_1 C2%negb_true_iff].
  apply orb_false_elim in C2 as [C2 C3].
  cbn [b64_loop]. set (c := byte_at B64_ALPHABET v) in *. rewrite C2, C3, C1.
  cbn [mbind result_bind ok_or].
  assert (E : Z.lor (as_u32 (Z.shiftl acc 6)) v = as_u32 (acc * 64) + v).
  { unfold as_u32. rewrite Z.shiftl_mul_pow2 by lia. change (2 ^ 6) with 64.
    replace (acc * 64 mod 4294967296) with (Z.shiftl (acc mod 67108864) 6).
    - rewrite lor_low by lia. change (2 ^ 6) with 64.
      rewrite Z.shiftl_mul_pow2 by lia. done.
    - rewrite Z.shiftl_mul_pow2 by lia. change (2 ^ 6) with 64.
      change 4294967296 with (67108864 * 64). by rewrite Z.mul_mod_distr_r by lia. }
  rewrite E. cbn zeta. destruct (Z.leb_spec 2 bits), (Z.leb_spec 8 (bits + 6)); try lia; [|done].
  replace (bits + 6 - 8) with (bits - 2) by lia. by rewrite Z.shiftr_div_pow2 by lia.
Qed.

Lemma b64_chunk_value a b c :
  is_u8 a -> is_u8 b -> is_u8 c ->
  Z.lor (Z.lor (Z.shiftl a 16) (Z.shiftl b 8)) c = a * 65536 + b * 256 + c.
Proof.
  unfold is_u8. intros Ha Hb Hc.
  replace (Z.shiftl b 8) with (b * 256) by (by rewrite Z.shiftl_mul_pow2).
  rewrite (lor_low a (b * 256) 16) by lia. change (2 ^ 16) with 65536.
  replace (a * 65536 + b * 256) with (Z.shiftl (a * 256 + b) 8)
    by (rewrite Z.shiftl_mul_pow2 by lia; change (2 ^ 8) with 256; lia).
  rewrite lor_low by lia. by rewrite Z.shiftl_mul_pow2 by lia.
Qed.

(** The four characters of a group, as numbers. *)
Definition sextets (n : Z) : list Z := [n / 262144; n / 4096 mod 64; n / 64 mod 64; n mod 64].

Lemma b64_chunk_sextets chunk a b c :
  byte_at chunk 0 = a -> byte_at chunk 1 = b -> byte_at chunk 2 = c ->
  is_u8 a -> is_u8 b -> is_u8 c ->
  b64_chunk chunk =
    map (byte_at B64_ALPHABET) (take (length chunk + 1) (sextets (a * 65536 + b * 256 + c))).
Proof.
  intros Ea Eb Ec Ha Hb Hc. unfold b64_chunk. rewrite Ea, Eb, Ec, b64_chunk_value by done.
  unfold is_u8 in *. rewrite !land_63, !Z.shiftr_div_pow2 by lia. unfold sextets. cbv zeta.
  change (2 ^ 18) with 262144. change (2 ^ 12) with 4096. change (2 ^ 6) with 64.
  do 3 f_equal. rewrite Z.mod_small; [done|]. split; [apply Z.div_pos; lia|].
  apply Z.div_lt_upper_bound; lia.
Qed.

(** A full group, wherever the accumulator stands. *)
Lemma b64_group a b c rest acc out :
  is_u8 a -> is_u8 b -> is_u8 c ->
  exists acc', b64_loop (b64_chunk [a; b; c] ++ rest) acc 0 out = b64_loop rest acc' 0 (out ++ [a; b; c]).
Proof.
  intros Ha Hb Hc. rewrite (b64_chunk_sextets _ a b c) by done.
  unfold sextets. cbn [length take map app Nat.add]. unfold is_u8 in *.
  set (n := a * 65536 + b * 256 + c).
  assert (Hn : 0 <= n < 16777216) by (unfold n; dlia).
  assert (Ea : a = n / 65536) by (unfold n; dlia).
  assert (Eb : b = n / 256 mod 256) by (unfold n; dlia).
  assert (Ec : c = n mod 256) by (unfold n; dlia). clearbody n.
  assert (H1 : 0 <= n / 262144 < 64) by dlia. assert (H2 : 0 <= n / 4096 mod 64 < 64) by dlia.
  assert (H3 : 0 <= n / 64 mod 64 < 64) by dlia. assert (H4 : 0 <= n mod 64 < 64) by dlia.
  rewrite (b64_step _ _ _ _ _ H1). cbn [Z.leb Z.compare]. cbv zeta.
  rewrite (b64_step _ _ _ _ _ H2). change (2 <=? 0 + 6) with true. cbv iota zeta.
  rewrite (b64_step _ _ _ _ _ H3). change (2 <=? 0 + 6 - 2) with true. cbv iota zeta.
  rewrite (b64_step _ _ _ _ _ H4). change (2 <=? 0 + 6 - 2 - 2) with true. cbv iota zeta.
  change (0 + 6 - 2 - 2 - 2) with 0. change (0 + 6 - 2 - 2) with 2. change (0 + 6 - 2) with 4.
  change (2 ^ 0) with 1. change (2 ^ 2) with 4. change (2 ^ 4) with 16.
  eexists. rewrite <- !app_assoc. cbn [app].
  unfold as_u8, as_u32. do 2 f_equal. f_equal; [dlia|f_equal; [dlia|f_equal; dlia]].
Qed.

(** What a finished loop leaves behind. *)
Definition b64_finished (r : result (Z * Z * bytes)) (out : bytes) : Prop :=
  exists acc bits, r = Ok (acc, bits, out) /\ bits < 6 /\ Z.land acc (Z.shiftl 1 bits - 1) = 0.

Lemma b64_one a acc out :
  is_u8 a -> b64_finished (b64_loop (b64_chunk [a]) acc 0 out) (out ++ [a]).
Proof.
  intros Ha. rewrite (b64_chunk_sextets [a] a 0 0) by (done || by vm_compute).
  unfold sextets. cbn [length take map app Nat.add]. unfold is_u8 in Ha.
  assert (H1 : 0 <= (a * 65536 + 0 * 256 + 0) / 262144 < 64) by dlia.
  assert (H2 : 0 <= (a * 65536 + 0 * 256 + 0) / 4096 mod 64 < 64) by dlia.
  rewrite (b64_step _ _ _ _ _ H1). cbn [Z.leb Z.compare]. cbv zeta.
  rewrite (b64_step _ _ _ _ _ H2). change (2 <=? 0 + 6) with true. cbv iota zeta. cbn [b64_loop].
  change (0 + 6 - 2) with 4. change (2 ^ 4) with 16. unfold as_u8, as_u32.
  eexists _, _. split; [do 3 f_equal; [f_equal; dlia]|]. split; [lia|].
  change (Z.shiftl 1 4 - 1) with 15. rewrite land_15. dlia.
Qed.

Lemma b64_two a b acc out :
  is_u8 a -> is_u8 b -> b64_finished (b64_loop (b64_chunk [a; b]) acc 0 out) (out ++ [a; b]).
Proof.
  intros Ha Hb. rewrite (b64_chunk_sextets [a; b] a b 0) by (done || by vm_compute).
  unfold sextets. cbn [length take map app Nat.add]. unfold is_u8 in *.
  assert (H1 : 0 <= (a * 65536 + b * 256 + 0) / 262144 < 64) by dlia.
  assert (H2 : 0 <= (a * 65536 + b * 256 + 0) / 4096 mod 64 < 64) by dlia.
  assert (H3 : 0 <= (a * 65536 + b * 256 + 0) / 64 mod 64 < 64) by dlia.
  rewrite (b64_step _ _ _ _ _ H1). cbn [Z.leb Z.compare]. cbv zeta.
  rewrite (b64_step _ _ _ _ _ H2). change (2 <=? 0 + 6) with true. cbv iota zeta.
  rewrite (b64_step _ _ _ _ _ H3). change (2 <=? 0 + 6 - 2) with true. cbv iota zeta. cbn [b64_loop].
  change (0 + 6 - 2 - 2) with 2. change (0 + 6 - 2) with 4. change (2 ^ 4) with 16. change (2 ^ 2) with 4.
  unfold as_u8, as_u32. rewrite <- app_assoc. cbn [app].
  eexists _, _. split; [do 3 f_equal; [f_equal; [dlia|f_equal; dlia]]|]. split; [lia|].
  change (Z.shiftl 1 2 - 1) with (Z.ones 2). rewrite Z.land_ones by lia. change (2 ^ 2) with 4. dlia.
Qed.

Lemma b64_all data : forall acc out,
  bytes_ok data -> b64_finished (b64_loop (base64_encode_unpadded data) acc 0 out) (out ++ data).
Proof.
  induction data as [data IH] using (induction_ltof1 _ (@length Z)). unfold ltof in IH.
  intros acc out Hd. unfold base64_encode_unpadded in *.
  destruct data as [|a [|b [|c data]]].
  - exists acc, 0. rewrite app_nil_r. split; [done|]. split; [lia|]. apply Z.land_0_r.
  - rewrite chunks_short by (done || (cbn; lia)). cbn [map concat]. rewrite app_nil_r.
    apply b64_one. by inversion Hd.
  - rewrite chunks_short by (done || (cbn; lia)). cbn [map concat]. rewrite app_nil_r.
    inversion Hd as [|? ? Ha Hd']. inversion Hd'. by apply b64_two.
  - change (a :: b :: c :: data) with ([a; b; c] ++ data).
    rewrite chunks_app by (done || lia). cbn [map concat].
    inversion Hd as [|? ? Ha Hd1]; subst. inversion Hd1 as [|? ? Hb Hd2]; subst.
    inversion Hd2 as [|? ? Hc Hd3]; subst.
    destruct (b64_group a b c (concat (map b64_chunk (chunks 3 data))) acc out Ha Hb Hc) as [acc' ->].
    specialize (IH data ltac:(cbn; lia) acc' (out ++ [a; b; c]) Hd3).
    by rewrite <- app_assoc in IH.
Qed.

Lemma base64_round data : bytes_ok data -> base64_decode (base64_encode_unpadded data) = Ok data.
Proof.
  intros Hd. unfold base64_decode. destruct (b64_all data 0 [] Hd) as (acc & bits & -> & Hb & Hl).
  cbn [mbind result_bind]. destruct (Z.leb_spec 6 bits); [lia|]. by rewrite Hl.
Qed.

(** *** Hexadecimal *)

Lemma nibble_hex v : 0 <= v < 16 -> nibble (byte_at HEX v) = Ok v.
Proof.
  intros Hv. assert (A : forallb (fun i => match nibble (byte_at HEX (Z.of_nat i)) with
    Ok w => w =? Z.of_nat i | _ => false end) (seq 0 16) = true) by (by vm_compute).
  rewrite forallb_forall in A. specialize (A (Z.to_nat v)). rewrite Z2Nat.id in A by lia.
  destruct (nibble _); [|by discriminate A; apply in_seq; lia].
  f_equal. apply Z.eqb_eq, A, in_seq. lia.
Qed.

Lemma hex_pairs_round data : bytes_ok data -> hex_pairs (hex_encode data) = Ok data.
Proof.
  induction 1 as [|b data Hb Hd IH]; [done|]. unfold hex_encode in *. cbn [map concat app hex_pairs].
  unfold is_u8 in Hb. rewrite Z.shiftr_div_pow2, land_15 by lia. change (2 ^ 4) with 16.
  rewrite !nibble_hex by dlia. cbn [mbind result_bind]. rewrite IH. cbn [mbind result_bind].
  rewrite lor_low by dlia. change (2 ^ 4) with 16. do 2 f_equal. dlia.
Qed.

Lemma len_hex_encode data : len (hex_encode data) = 2 * len data.
Proof.
  unfold hex_encode. induction data as [|b data IH]; [done|]. cbn [map concat app].
  rewrite !len_cons, IH. lia.
Qed.

Lemma hex_round data : bytes_ok data -> hex_decode (hex_encode data) = Ok data.
Proof.
  intros Hd. unfold hex_decode. rewrite len_hex_encode, Z.mul_comm, Z.mod_mul by lia.
  by apply hex_pairs_round.
Qed.

(** Case does not matter. *)
Lemma nibble_lower c : nibble (to_ascii_lowercase c) = nibble c.
Proof.
  unfold to_ascii_lowercase, is_ascii_upper.
  destruct (Z.leb_spec 65 c) as [H1|], (Z.leb_spec c 90) as [H2|]; cbn [andb]; try reflexivity.
  unfold nibble, is_ascii_digit.
  rewrite (proj2 (Z.leb_le 48 (c + 32))), (proj2 (Z.leb_gt (c + 32) 57)) by lia.
  rewrite (proj2 (Z.leb_le 48 c)), (proj2 (Z.leb_gt c 57)) by lia. cbn [andb].
  rewrite (proj2 (Z.leb_le 97 (c + 32))), (proj2 (Z.leb_gt 97 c)), (proj2 (Z.leb_le 65 (c + 32)))
    by lia.
  rewrite (proj2 (Z.leb_le 65 c)) by lia. cbn [andb].
  destruct (Z.leb_spec (c + 32) 102), (Z.leb_spec c 70); try lia; [f_equal; lia|].
  by rewrite (proj2 (Z.leb_gt (c + 32) 70)) by lia.
Qed.

Lemma hex_pairs_lower s : hex_pairs (map to_ascii_lowercase s) = hex_pairs s.
Proof.
  induction s as [s IH] using (induction_ltof1 _ (@length Z)). unfold ltof in IH.
  destruct s as [|a [|b s]]; [done..|]. cbn [map hex_pairs]. rewrite !nibble_lower.
  by rewrite IH by (cbn; lia).
Qed.

(** What base64 decodes to is bytes. *)
Lemma b64_loop_bytes input : forall acc bits out r,
  bytes_ok out -> b64_loop input acc bits out = Ok r -> bytes_ok (snd r).
Proof.
  induction input as [|c input IH]; intros acc bits out r Ho E; cbn [b64_loop] in E.
  - by injection E as <-.
  - res_inv; try (subst r; done); eapply IH; try exact E; try done;
      apply bytes_ok_app; (split; [done|]); apply bytes_ok_cons; (split; [apply is_u8_mod|constructor]).
Qed.

Lemma base64_decode_bytes input data : base64_decode input = Ok data -> bytes_ok data.
Proof.
  unfold base64_decode. intros E. res_inv. destruct a as [[acc bits] out]. res_inv. subst out.
  by eapply (b64_loop_bytes _ _ _ [] (acc, bits, data)); [constructor|].
Qed.

(** Digests that differ only in the case of their hexadecimal form are the
    same digest. *)
Lemma hex_decode_case s t : eq_ignore_ascii_case s t = true -> hex_decode s = hex_decode t.
Proof.
  unfold eq_ignore_ascii_case. intros H%bool_decide_eq_true_1. unfold hex_decode.
  assert (L : len s = len t) by (rewrite <- (len_map to_ascii_lowercase s), H; apply len_map).
  by rewrite L, <- (hex_pairs_lower s), H, hex_pairs_lower.
Qed.

(** Unpadded base64 and hexadecimal read back as the bytes that were encoded,
    and the case of hexadecimal digits never matters. *)
Lemma encodings_round data :
  bytes_ok data ->
  base64_decode (base64_encode_unpadded data) = Ok data /\ hex_decode (hex_encode data) = Ok data /\
  forall s, eq_ignore_ascii_case s (hex_encode data) = true -> hex_decode s = Ok data.
Proof.
  intros Hd. split; [by apply base64_round|]. split; [by apply hex_round|].
  intros s E. rewrite (hex_decode_case _ _ E). by apply hex_round.
Qed.

(** *** Dates *)

Lemma i64_small z : - 2 ^ 63 <= z < 2 ^ 63 -> i64 z = z.
Proof.
  intros Hz. unfold i64. rewrite Z.mod_small; [lia|].
  change (2 ^ 64) with (2 * 2 ^ 63). lia.
Qed.

Lemma show_padded_digits w v :
  0 <= v -> Forall (fun b => is_ascii_digit b = true) (show_padded w v).
Proof.
  intros Hv. unfold show_padded. apply Forall_app. split; [by apply Forall_replicate|].
  by apply show_fuel_digits.
Qed.

Lemma show_padded_no_sep sep w v :
  0 <= v -> is_ascii_digit sep = false -> Forall (fun b => b <> sep) (show_padded w v).
Proof.
  intros Hv Hs. eapply Forall_impl; [by apply show_padded_digits|]. intros b Hb ->. by rewrite Hb in Hs.
Qed.

Lemma parse_digits_zeros k s : parse_digits 0 (replicate k 48 ++ s) = parse_digits 0 s.
Proof. by induction k. Qed.

Lemma parse_show_padded w v :
  0 <= v < 2 ^ 63 -> parse_i64 (show_padded w v) = Some v.
Proof.
  intros Hv. pose proof (show_padded_digits w v ltac:(lia)) as D.
  assert (P : parse_digits 0 (show_padded w v) = Some v).
  { unfold show_padded. rewrite parse_digits_zeros. apply parse_show_fuel.
    change (10 ^ Z.of_nat 20) with 100000000000000000000. change (2 ^ 63) with 9223372036854775808 in Hv.
    lia. }
  assert (N : show_padded w v <> []).
  { unfold show_padded. intros [_ E]%app_eq_nil. by apply (show_fuel_nonempty 19 v). }
  destruct (show_padded w v) as [|b s]; [done|].
  apply Forall_cons in D as [Hb _]. unfold is_ascii_digit in Hb. b2p.
  assert (E : parse_i64 (b :: s) = match parse_digits 0 (b :: s) with
    | Some v => if v <=? 9223372036854775807 then Some v else None | None => None end).
  { assert (b = 48 \/ b = 49 \/ b = 50 \/ b = 51 \/ b = 52 \/ b = 53 \/ b = 54 \/ b = 55 \/
      b = 56 \/ b = 57) as Hd by lia.
    by repeat destruct Hd as [->|Hd]; [..|subst b]. }
  rewrite E, P. change (2 ^ 63) with 9223372036854775808 in Hv.
  by rewrite (proj2 (Z.leb_le v _)) by lia.
Qed.

Lemma three_numbers_show sep w1 w2 w3 a b c :
  is_ascii_digit sep = false -> 0 <= a < 2 ^ 63 -> 0 <= b < 2 ^ 63 -> 0 <= c < 2 ^ 63 ->
  three_numbers sep (show_padded w1 a ++ [sep] ++ show_padded w2 b ++ [sep] ++ show_padded w3 c)
  = Some (a, b, c).
Proof.
  intros Hs Ha Hb Hc. unfold three_numbers. cbn [app].
  rewrite !split_app_sep by (apply show_padded_no_sep; [lia|done]).
  rewrite split_single by (apply show_padded_no_sep; [lia|done]).
  by rewrite !parse_show_padded by done.
Qed.

(** Within an era of 400 years: the year, and the day of it. *)
Definition yoe_of (doe : Z) : Z := (doe - doe / 1460 + doe / 36524 - doe / 146096) / 365.
Definition doy_of (doe : Z) : Z := doe - (365 * yoe_of doe + yoe_of doe / 4 - yoe_of doe / 100).

Lemma era_days doe : 0 <= doe < 146097 -> 0 <= yoe_of doe < 400 /\ 0 <= doy_of doe < 366.
Proof. intros Hd. unfold doy_of, yoe_of. split; dlia. Qed.

(** The month and day of a day of the year. *)
Lemma month_days doy :
  0 <= doy < 366 ->
  let mp := (5 * doy + 2) / 153 in
  let d := doy - (153 * mp + 2) / 5 + 1 in
  0 <= mp < 12 /\ 1 <= d <= 31.
Proof. intros Hd. cbv zeta. dlia. Qed.

(** [civil_of_days], with divisions of non-negative numbers. *)
Lemma civil_of_days_eq days :
  0 <= days ->
  let z := days + 719468 in
  let doe := z mod 146097 in
  let doy := doy_of doe in
  let mp := (5 * doy + 2) / 153 in
  let m := if mp <? 10 then mp + 3 else mp - 9 in
  let y := yoe_of doe + z / 146097 * 400 in
  civil_of_days days = (if m <=? 2 then y + 1 else y, m, doy - (153 * mp + 2) / 5 + 1).
Proof.
  intros Hd z doe doy mp m y. unfold civil_of_days. cbv zeta. fold z.
  rewrite (proj2 (Z.leb_le 0 z)) by lia.
  rewrite !(Z.quot_div_nonneg z) by lia.
  replace (z - z / 146097 * 146097) with doe by (unfold doe; dlia).
  assert (Hdoe : 0 <= doe < 146097) by (unfold doe; dlia).
  destruct (era_days doe Hdoe) as [Hy Hdoy]. fold doy in Hdoy.
  assert (Ey : Z.quot (doe - Z.quot doe 1460 + Z.quot doe 36524 - Z.quot doe 146096) 365 = yoe_of doe)
    by (unfold yoe_of; clear -Hdoe; dlia).
  rewrite Ey. rewrite !(Z.quot_div_nonneg (yoe_of doe)) by lia.
  change (doe - (365 * yoe_of doe + yoe_of doe / 4 - yoe_of doe / 100)) with doy.
  rewrite (Z.quot_div_nonneg (5 * doy + 2)) by lia. fold mp.
  rewrite (Z.quot_div_nonneg (153 * mp + 2)) by (unfold mp; dlia). done.
Qed.

(** The calendar inverts itself. *)
Lemma days_of_civil days :
  0 <= days < 2 ^ 47 ->
  let '(y, m, d) := civil_of_days days in
  days_from_civil y m d = days /\ 0 <= y < 2 ^ 47 /\ 1 <= m <= 12 /\ 1 <= d <= 31.
Proof.
  intros Hd. rewrite civil_of_days_eq by lia.
  set (z := days + 719468). set (doe := z mod 146097). set (era := z / 146097).
  assert (Hdoe : 0 <= doe < 146097) by (unfold doe; dlia).
  assert (Hz : z = 146097 * era + doe) by (unfold era, doe; dlia).
  assert (Hera : 0 <= era < 2 ^ 30).
  { unfold era, z. change (2 ^ 47) with 140737488355328 in Hd. change (2 ^ 30) with 1073741824. dlia. }
  clearbody era doe. destruct (era_days doe Hdoe) as [Hyoe Hdoy].
  set (yoe := yoe_of doe) in *. assert (Edoy : doy_of doe = doe - (365 * yoe + yoe / 4 - yoe / 100)) by done.
  set (doy := doy_of doe) in *. clearbody doy yoe.
  destruct (month_days doy Hdoy) as [Hmp Hday].
  set (mp := (5 * doy + 2) / 153) in *. set (d := doy - (153 * mp + 2) / 5 + 1) in *.
  assert (Ed : d = doy - (153 * mp + 2) / 5 + 1) by done. clearbody mp d.
  set (m := if mp <? 10 then mp + 3 else mp - 9).
  assert (Hm : 1 <= m <= 12) by (unfold m; destruct (Z.ltb_spec mp 10); lia).
  assert (Emp : (if 2 <? m then m - 3 else m + 9) = mp).
  { unfold m. destruct (Z.ltb_spec mp 10); zif; lia. }
  assert (Ey : (if m <=? 2 then i64 ((if m <=? 2 then yoe + era * 400 + 1 else yoe + era * 400) - 1)
                else if m <=? 2 then yoe + era * 400 + 1 else yoe + era * 400) = era * 400 + yoe).
  { change (2 ^ 30) with 1073741824 in Hera.
    destruct (m <=? 2); [rewrite i64_small|]; [lia| |lia].
    change (2 ^ 63) with 9223372036854775808. lia. }
  split_and!; try lia.
  - unfold days_from_civil. rewrite Ey, Emp. cbv zeta.
    rewrite (proj2 (Z.leb_le 0 (era * 400 + yoe))) by lia.
    rewrite (Z.quot_div_nonneg (era * 400 + yoe)) by lia.
    replace ((era * 400 + yoe) / 400) with era by dlia.
    replace (era * 400 + yoe - era * 400) with yoe by lia.
    rewrite !(Z.quot_div_nonneg yoe) by lia. rewrite (Z.quot_div_nonneg (153 * mp + 2)) by lia.
    change (2 ^ 30) with 1073741824 in Hera. 
    assert (Edays : era * 146097 + (yoe * 365 + yoe / 4 - yoe / 100 + ((153 * mp + 2) / 5 + d - 1)) - 719468 = days)
      by (subst z; lia).
    rewrite (i64_small (era * 146097)) by (change (2 ^ 63) with 9223372036854775808; lia).
    change (2 ^ 47) with 140737488355328 in Hd.
    set (x := _ + ((153 * mp + 2) / 5 + d - 1)) in *. clearbody x.
    rewrite (i64_small (era * 146097 + x)) by (change (2 ^ 63) with 9223372036854775808; lia).
    rewrite i64_small by (change (2 ^ 63) with 9223372036854775808; lia). exact Edays.
  - destruct (m <=? 2); lia.
  - change (2 ^ 30) with 1073741824 in Hera. change (2 ^ 47) with 140737488355328.
    destruct (m <=? 2); lia.
Qed.

(** [format_datetime] prints a date and a time separated by its only space,
    which [parse_datetime] reads back, without overflow anywhere in the i64
    arithmetic. *)
Lemma datetime_round unix :
  0 <= unix < 2 ^ 63 ->
  exists date time, split_once 32 (format_datetime unix) = Some (date, time) /\
    split 32 time = [time] /\ parse_datetime date time = Ok unix.
Proof.
  intros Hu. unfold format_datetime.
  assert (Hdays : 0 <= unix / 86400 < 2 ^ 47).
  { change (2 ^ 63) with 9223372036854775808 in Hu. change (2 ^ 47) with 140737488355328. dlia. }
  pose proof (days_of_civil _ Hdays) as C.
  destruct (civil_of_days (unix / 86400)) as [[y m] d]. destruct C as (Ed & Hy & Hm & Hd).
  set (h := unix mod 86400 / 3600). set (mi := unix mod 86400 mod 3600 / 60).
  set (s := unix mod 86400 mod 60).
  assert (Hh : 0 <= h <= 23) by (unfold h; dlia). assert (Hmi : 0 <= mi <= 59) by (unfold mi; dlia).
  assert (Hs : 0 <= s <= 59) by (unfold s; dlia).
  assert (Eu : unix / 86400 * 86400 + h * 3600 + mi * 60 + s = unix) by (unfold h, mi, s; dlia).
  clearbody h mi s. set (time := show_padded 2 h ++ [58] ++ show_padded 2 mi ++ [58] ++ show_padded 2 s).
  set (date := show_padded 4 y ++ [45] ++ show_padded 2 m ++ [45] ++ show_padded 2 d).
  assert (Nd : Forall (fun b => b <> 32) date /\ Forall (fun b => b <> 32) time).
  { unfold date, time. rewrite !Forall_app, !Forall_cons.
    split_and!; (apply show_padded_no_sep; [lia|done]) || done || constructor. }
  exists date, time. split_and!.
  - transitivity (split_once 32 (date ++ [32] ++ time)); [|apply split_once_app, Nd].
    f_equal. unfold date, time. by rewrite <- !app_assoc.
  - apply split_single, Nd.
  - change (2 ^ 47) with 140737488355328 in *. change (2 ^ 63) with 9223372036854775808 in Hu.
    unfold parse_datetime, date, time.
    rewrite !three_numbers_show by (done || (change (2 ^ 63) with 9223372036854775808; lia)).
    cbn [mbind result_bind ok_or]. rewrite Ed.
    rewrite !(proj2 (Z.leb_le _ _)), !(proj2 (Z.ltb_ge _ _)) by lia. cbn [andb negb orb].
    assert (Hb : forall z, 0 <= z <= unix -> i64 z = z)
      by (intros z Hz; apply i64_small; change (2 ^ 63) with 9223372036854775808; lia).
    rewrite (Hb (unix / 86400 * 86400)), (Hb (h * 3600)), (Hb (mi * 60)) by lia.
    rewrite (Hb (unix / 86400 * 86400 + h * 3600)) by lia.
    rewrite (Hb (unix / 86400 * 86400 + h * 3600 + mi * 60)) by lia.
    rewrite Eu, (Hb unix) by lia. by rewrite (proj2 (Z.ltb_ge unix 0)) by lia.
Qed.

(** The fields of directory documents are read back exactly as they were written: unpadded base64 and hexadecimal (in either case) give the bytes that were encoded, for every byte string, and for every unix time below 2^63 format_datetime prints a date and a time separated by its only space, which parse_datetime reads back as exactly that instant, without overflow anywhere in the i64 arithmetic. *)
Theorem directory_fields_roundtrip data unix :
  bytes_ok data -> 0 <= unix < 2 ^ 63 ->
  base64_decode (base64_encode_unpadded data) = Ok data /\
  (forall s, eq_ignore_ascii_case s (hex_encode data) = true -> hex_decode s = Ok data) /\
  exists date time, split_once 32 (format_datetime unix) = Some (date, time) /\
    split 32 time = [time] /\ parse_datetime date time = Ok unix.
Proof.
  intros Hd Hu. destruct (encodings_round data Hd) as (H1 & _ & H3).
  split; [exact H1|]. split; [exact H3|]. by apply datetime_round.
Qed.

Lemma directory_fields_witness :
  hex_decode (B "000fA5ff") = Ok [0; 15; 165; 255] /\
  exists date time, split_once 32 (B "2024-02-29 23:59:59") = Some (date, time) /\
    split 32 time = [time] /\ parse_datetime date time = Ok 1709251199.
Proof.
  destruct (directory_fields_roundtrip [0; 15; 165; 255] 1709251199) as (_ & H2 & H3).
  - apply (bool_decide_unpack _). by vm_compute.
  - lia.
  - split; [apply H2; by vm_compute|].
    replace (B "2024-02-29 23:59:59") with (format_datetime 1709251199) by (by vm_compute). exact H3.
Defined.

(** A field may carry a minus sign, which only the upper bounds are checked
    against. *)
Lemma parse_datetime_negative :
  parse_datetime (B "1970-01-02") (B "-1:00:-5") = Ok (82800 - 5).
Proof. by vm_compute. Qed.
