(* ===== verification/Netdoc.v ===== *)
(** * Directory document syntax ([src/src/tor/dir/netdoc.rs])

    Items, their arguments, and PEM objects.  A byte offset is a [Z]. *)
From S2P Require Import Prelude.
From S2P Require Import Text.
From S2P Require Import Util.

(** [rest[1..]] after a space; any other character ends the keyword. *)
Definition item_args (line keyword : bytes) : option bytes :=
  rest ← strip_prefix keyword line;
  match rest with
  | [] => Some []
  | c :: rest => if c =? SP then Some (trim_end rest) else None
  end.

(** [lines().find_map(..)]. *)
Fixpoint first_item (ls : list bytes) (keyword : bytes) : option bytes :=
  match ls with
  | [] => None
  | line :: ls =>
      match item_args line keyword with
      | Some args => Some args
      | None => first_item ls keyword
      end
  end.
Definition item (text keyword : bytes) : option bytes := first_item (lines text) keyword.

Definition begin_of (label : bytes) : bytes := B "-----BEGIN " ++ label ++ B "-----".
Definition end_of (label : bytes) : bytes := B "-----END " ++ label ++ B "-----".

Definition object (text label : bytes) : result bytes :=
  at_begin ← ok_or (find text (begin_of label)) (invalid_data "missing {begin}");
  let rest := slice_from text (at_begin + len (begin_of label)) in
  stop ← ok_or (find rest (end_of label)) (invalid_data "missing {end}");
  base64_decode (slice_to rest stop).

Definition line_start_of (text keyword : bytes) : option Z :=
  if starts_with text keyword then Some 0
  else i ← find text (NL :: keyword); Some (i + 1).

Definition line_end_after (text keyword : bytes) : option Z :=
  start ← line_start_of text keyword;
  newline ← find (slice_from text start) [NL];
  Some (start + newline + 1).

Definition item_object (text keyword label : bytes) : result bytes :=
  after ← ok_or (line_end_after text keyword) (invalid_data "document has no {keyword}");
  let rest := slice_from text after in
  if negb (starts_with rest (begin_of label))
  then Err (invalid_data "{keyword} is not followed by a {label}")
  else object rest label.

Definition base64_fixed (n : Z) (value : bytes) : result bytes :=
  b ← base64_decode value;
  if len b =? n then Ok b else Err (invalid_data "expected {N} bytes of base64").

(** ** Lemmas *)

Lemma base64_fixed_len n value b : base64_fixed n value = Ok b -> len b = n.
Proof.
  unfold base64_fixed. destruct (base64_decode value); [|done]. cbn [mbind result_bind].
  destruct (Z.eqb_spec (len a) n); [|done]. by intros [= <-].
Qed.

Lemma find_from_range i s p j : find_from i s p = Some j -> i <= j <= i + len s - len p.
Proof.
  revert i. induction s as [|b s IH]; intros i; cbn [find_from].
  - destruct (starts_with [] p) eqn:S; [|done]. intros [= <-].
    unfold starts_with in S. destruct (strip_prefix p []) as [r|] eqn:P; [|done].
    apply strip_prefix_Some in P. symmetry in P. apply app_eq_nil in P as [-> _]. rewrite len_nil. lia.
  - destruct (starts_with (b :: s) p) eqn:S.
    + intros [= <-]. unfold starts_with in S. destruct (strip_prefix p (b :: s)) as [r|] eqn:P; [|done].
      apply strip_prefix_Some in P. rewrite P, len_app. pose proof (len_nonneg r). lia.
    + intros E. apply IH in E. rewrite len_cons. lia.
Qed.

Lemma find_range s p j : find s p = Some j -> 0 <= j <= len s - len p.
Proof. intros E. apply find_from_range in E. lia. Qed.

Lemma line_start_range text keyword i :
  line_start_of text keyword = Some i -> 0 <= i <= len text - len keyword.
Proof.
  unfold line_start_of. destruct (starts_with text keyword) eqn:S.
  - intros [= <-]. unfold starts_with in S. destruct (strip_prefix keyword text) as [r|] eqn:P; [|done].
    apply strip_prefix_Some in P. rewrite P, len_app. pose proof (len_nonneg r). lia.
  - destruct (find text (NL :: keyword)) as [j|] eqn:F; [|done]. cbn [mbind option_bind].
    intros [= <-]. apply find_range in F. rewrite len_cons in F. lia.
Qed.

(** *** Searching *)

Lemma starts_with_iff s p : starts_with s p = true <-> exists b, s = p ++ b.
Proof.
  unfold starts_with. split.
  - destruct (strip_prefix p s) as [b|] eqn:P; [|done]. intros _. exists b. by apply strip_prefix_Some.
  - intros [b ->]. assert (E : strip_prefix p (p ++ b) = Some b) by by apply strip_prefix_Some.
    by rewrite E.
Qed.

Lemma starts_with_false s p : starts_with s p = false <-> forall b, s <> p ++ b.
Proof.
  pose proof (starts_with_iff s p) as I. destruct (starts_with s p); split; try done.
  - intros H. destruct (proj1 I eq_refl) as [b Hb]. by apply H in Hb.
  - intros _ b Hb. assert (E : false = true) by (apply I; by exists b). done.
Qed.

Lemma find_from_skip a : forall i rest p,
  (forall k, (k < length a)%nat -> starts_with (drop k a ++ rest) p = false) ->
  find_from i (a ++ rest) p = find_from (i + len a) rest p.
Proof.
  induction a as [|c a IH]; intros i rest p H; [by rewrite Z.add_0_r|].
  pose proof (H 0%nat ltac:(cbn; lia)) as H0. cbn [drop] in H0.
  rewrite <- app_comm_cons in *. cbn [find_from]. rewrite H0, IH.
  - rewrite len_cons. f_equal. lia.
  - intros k Hk. apply (H (S k)). cbn. lia.
Qed.

Lemma find_from_here i p b : find_from i (p ++ b) p = Some i.
Proof.
  assert (S : starts_with (p ++ b) p = true) by (apply starts_with_iff; by exists b).
  destruct (p ++ b); cbn [find_from]; by rewrite S.
Qed.

(** [None] means there is no occurrence. *)
Lemma find_none s p : find s p = None <-> forall a b, s <> a ++ p ++ b.
Proof.
  unfold find. generalize 0. induction s as [|c s IH]; intros i; cbn [find_from].
  - destruct (starts_with [] p) eqn:S.
    + apply starts_with_iff in S as [b Hb]. split; [done|]. intros H. by destruct (H [] b).
    + rewrite starts_with_false in S. split; [|done]. intros _ a b E.
      symmetry in E. apply app_eq_nil in E as [-> E]. by apply (S b).
  - destruct (starts_with (c :: s) p) eqn:S.
    + apply starts_with_iff in S as [b Hb]. split; [done|]. intros H. by destruct (H [] b).
    + rewrite starts_with_false in S. rewrite IH. split.
      * intros H [|x a] b E; [by apply (S b)|]. injection E as -> E. by apply (H a b).
      * intros H a b E. apply (H (c :: a) b). by rewrite E.
Qed.

(** A prefix [p] without a newline inside cannot run past the newline that ends [x]. *)
Lemma no_straddle (x p z : bytes) b :
  (x ++ [NL]) ++ z = p ++ b -> (forall u v, p <> u ++ NL :: v) -> exists b', x ++ [NL] = p ++ b'.
Proof.
  intros E Hp. apply app_eq_inv in E as [(k & E & _)|(k & E & _)]; [by exists k|].
  exfalso. apply (Hp x k). by rewrite E, <- app_assoc.
Qed.

Lemma cons_split (x y : Z) (s t : bytes) : x :: s = y :: t -> x = y /\ s = t.
Proof. by intros [= -> ->]. Qed.

Lemma find_newline l s : NL ∉ l -> find (l ++ NL :: s) [NL] = Some (len l).
Proof.
  intros H. unfold find. rewrite find_from_skip.
  - change (NL :: s) with ([NL] ++ s). by rewrite find_from_here.
  - intros k Hk. apply starts_with_false. intros b E.
    destruct (drop k l) as [|c y] eqn:D.
    { apply (f_equal length) in D. rewrite length_drop in D. cbn in D. lia. }
    injection E as -> E. apply H. rewrite <- (take_drop k l), D. set_solver.
Qed.

(** *** What a document says

    The grammar of a directory document, stated of its bytes alone: the
    first place a piece occurs, the first line of a keyword, the item such a
    line carries and the armoured object after a place.  What the search
    functions above answer is related to it below. *)

(** [p] occurs in [text] between [pre] and [rest], and nowhere earlier among
    the places [P] allows. *)
Definition first_at (P : bytes -> Prop) (text p pre rest : bytes) : Prop :=
  text = pre ++ p ++ rest /\ P pre /\
  forall pre' rest', text = pre' ++ p ++ rest' -> P pre' -> len pre <= len pre'.

Definition anywhere (pre : bytes) : Prop := True.
Definition at_line_start (pre : bytes) : Prop := pre = [] \/ last pre = Some NL.

(** The object a text holds: the base64 between its first BEGIN line of that
    label and the first END line after it. *)
Definition armored (text label data : bytes) : Prop :=
  exists pre rest b64 post,
    first_at anywhere text (begin_of label) pre rest /\
    first_at anywhere rest (end_of label) b64 post /\ base64_decode b64 = Ok data.

(** A line carries a keyword's item: the keyword alone, or the keyword, a
    space and the arguments. *)
Definition carries (line keyword args : bytes) : Prop :=
  (line = keyword /\ args = []) \/ exists r, line = keyword ++ SP :: r /\ args = trim_end r.

(** The first line that carries the item carries these arguments. *)
Definition has_item (text keyword args : bytes) : Prop :=
  exists before line after,
    lines text = before ++ line :: after /\ carries line keyword args /\
    Forall (fun l => forall a, ~ carries l keyword a) before.

Lemma find_from_first i s p j :
  find_from i s p = Some j -> exists x y, j = i + len x /\ first_at anywhere s p x y.
Proof.
  revert i. induction s as [|b s IH]; intros i E; cbn [find_from] in E.
  - destruct (starts_with [] p) eqn:S; [|done]. injection E as <-.
    apply starts_with_iff in S as [r S]. exists [], r. split; [by rewrite Z.add_0_r|].
    split_and!; [done|done|intros; apply len_nonneg].
  - destruct (starts_with (b :: s) p) eqn:S.
    + injection E as <-. apply starts_with_iff in S as [r S]. exists [], r.
      split; [by rewrite Z.add_0_r|]. split_and!; [done|done|intros; apply len_nonneg].
    + destruct (IH _ E) as (x & y & -> & Hs & _ & M). exists (b :: x), y.
      rewrite len_cons. split; [lia|]. split_and!; [by rewrite Hs|done|].
      intros [|c pre'] rest' E' _.
      * by apply (proj1 (starts_with_false _ _) S) in E'.
      * apply cons_split in E' as [-> E']. rewrite !len_cons. pose proof (M _ _ E' I). lia.
Qed.

Lemma find_first s p j : find s p = Some j -> exists x y, j = len x /\ first_at anywhere s p x y.
Proof. intros E. apply find_from_first in E as (x & y & -> & F). by exists x, y. Qed.

Lemma line_start_first text keyword i :
  line_start_of text keyword = Some i ->
  exists pre rest, i = len pre /\ first_at at_line_start text keyword pre rest.
Proof.
  unfold line_start_of. destruct (starts_with text keyword) eqn:S.
  - intros [= <-]. apply starts_with_iff in S as [r S]. exists [], r.
    split_and!; [done|]. split_and!; [done|by left|intros; apply len_nonneg].
  - destruct (find text (NL :: keyword)) as [j|] eqn:F; [|done]. cbn [mbind option_bind].
    intros [= <-]. apply find_first in F as (x & y & -> & Ht & _ & M).
    exists (x ++ [NL]), y. rewrite len_app. split; [done|]. split_and!.
    + by rewrite Ht, <- app_assoc.
    + right. apply last_snoc.
    + intros pre' rest' E [->|L]; [by apply (proj1 (starts_with_false _ _) S) in E|].
      apply last_Some in L as [x' ->]. rewrite <- app_assoc in E.
      rewrite !len_app. pose proof (M _ _ E I). lia.
Qed.

(** The first place is one place. *)
Lemma first_at_unique P text p pre rest pre' rest' :
  first_at P text p pre rest -> first_at P text p pre' rest' -> pre = pre' /\ rest = rest'.
Proof.
  intros (E & H & M) (E' & H' & M').
  pose proof (M _ _ E' H'). pose proof (M' _ _ E H). rewrite E in E'.
  assert (L : length pre = length pre') by (unfold len in *; lia).
  apply (app_inj_1 _ _ _ _ L) in E' as [-> E']. by apply app_inv_head in E' as ->.
Qed.

(** What a text says first it still says first when more text follows. *)
Lemma first_at_app P text p pre rest more :
  first_at P text p pre rest -> first_at P (text ++ more) p pre (rest ++ more).
Proof.
  intros (E & H & M). split_and!; [by rewrite E, <- !app_assoc|done|].
  intros pre' rest' E' H'. destruct (Z.le_gt_cases (len pre) (len pre')) as [|L]; [done|].
  rewrite app_assoc in E'.
  assert (K : exists r, text = (pre' ++ p) ++ r).
  { apply app_eq_inv in E' as [(k & Hk & _)|(k & Hk & _)]; [by exists k|].
    exists []. rewrite app_nil_r. apply (f_equal len) in E as El.
    pose proof (f_equal len Hk) as Hl. rewrite !len_app in El, Hl.
    pose proof (len_nonneg rest). pose proof (len_nonneg k).
    by rewrite (len_zero_nil k), app_nil_r in Hk by lia. }
  destruct K as [r K]. rewrite <- app_assoc in K. by apply (M _ _ K).
Qed.

Lemma armored_unique text label a b : armored text label a -> armored text label b -> a = b.
Proof.
  intros (? & ? & ? & ? & F & G & D) (? & ? & ? & ? & F' & G' & D').
  destruct (first_at_unique _ _ _ _ _ _ _ F F') as [-> ->].
  destruct (first_at_unique _ _ _ _ _ _ _ G G') as [-> ->]. rewrite D in D'. by injection D'.
Qed.

Lemma armored_app text label a more : armored text label a -> armored (text ++ more) label a.
Proof.
  intros (pre & rest & b64 & post & F & G & D). exists pre, (rest ++ more), b64, (post ++ more).
  split_and!; [by apply first_at_app|by apply first_at_app|done].
Qed.

Lemma object_armored text label data : object text label = Ok data -> armored text label data.
Proof.
  unfold object. destruct (find text (begin_of label)) as [i|] eqn:F; [|done].
  cbn [ok_or mbind result_bind]. apply find_first in F as (pre & rest & -> & F).
  assert (slice_from text (len pre + len (begin_of label)) = rest) as ->.
  { destruct F as (-> & _). rewrite app_assoc. apply slice_from_app. by rewrite len_app. }
  destruct (find rest (end_of label)) as [k|] eqn:G; [|done]. cbn [ok_or mbind result_bind].
  apply find_first in G as (b64 & post & -> & G). pose proof G as (Er & _).
  assert (slice_to rest (len b64) = b64) as -> by (rewrite Er; by apply slice_to_app).
  intros D. by exists pre, rest, b64, post.
Qed.

Lemma item_args_carries line keyword args : item_args line keyword = Some args <-> carries line keyword args.
Proof.
  unfold item_args, carries. destruct (strip_prefix keyword line) as [r|] eqn:E; cbn [mbind option_bind].
  - apply strip_prefix_Some in E as ->. destruct r as [|c r].
    + split; [intros [= <-]; left; by rewrite app_nil_r|].
      intros [[_ ->]|(r & H & _)]; [done|]. by apply app_inv_head in H.
    + destruct (Z.eqb_spec c SP) as [->|Hc].
      * split; [intros [= <-]; right; by exists r|]. intros [[H _]|(r' & H & ->)].
        -- rewrite <- (app_nil_r keyword) in H at 2. by apply app_inv_head in H.
        -- apply app_inv_head in H. by injection H as ->.
      * split; [done|]. intros [[H _]|(r' & H & _)].
        -- rewrite <- (app_nil_r keyword) in H at 2. by apply app_inv_head in H.
        -- apply app_inv_head in H. by injection H.
  - split; [done|]. intros [[-> _]|(r & -> & _)]; exfalso.
    + pose proof (strip_prefix_app keyword []) as S. by rewrite app_nil_r, E in S.
    + by rewrite strip_prefix_app in E.
Qed.

Lemma item_has_item text keyword args : item text keyword = Some args -> has_item text keyword args.
Proof.
  unfold item, has_item. induction (lines text) as [|l ls IH]; [done|]. cbn [first_item].
  destruct (item_args l keyword) as [a|] eqn:A.
  - intros [= ->]. exists [], l, ls. split_and!; [done|by apply item_args_carries|constructor].
  - intros E. destruct (IH E) as (before & line & after & -> & C & F).
    exists (l :: before), line, after. split_and!; [done|done|]. constructor; [|done].
    intros b Hb. apply item_args_carries in Hb. by rewrite A in Hb.
Qed.

Lemma item_of_has_item text keyword args : has_item text keyword args -> item text keyword = Some args.
Proof.
  intros (before & line & after & E & C & F). unfold item. rewrite E. clear E.
  induction F as [|l before H F IH]; cbn [app first_item].
  - apply item_args_carries in C. by rewrite C.
  - destruct (item_args l keyword) as [a|] eqn:A; [|done]. apply item_args_carries in A. by apply H in A.
Qed.

Lemma has_item_unique text keyword a b : has_item text keyword a -> has_item text keyword b -> a = b.
Proof. intros A C. apply item_of_has_item in A, C. rewrite A in C. by injection C. Qed.

Lemma lines_app x y : lines (x ++ NL :: y) = lines (x ++ [NL]) ++ lines y.
Proof.
  assert (Sp : forall y, split NL (x ++ NL :: y) = split NL x ++ split NL y).
  { clear y. intros y. induction x as [|c x IH]; cbn [app split].
    - by rewrite Z.eqb_refl.
    - rewrite IH. destruct (c =? NL); [done|]. destruct (split NL x) as [|w ws] eqn:E; [|done].
      by destruct (split_nonempty NL x). }
  assert (L : forall a b, b <> [] -> lines_of (a ++ b) = map strip_cr a ++ lines_of b).
  { clear. intros a b Hb. induction a as [|p a IH]; [done|]. cbn [app lines_of map]. rewrite <- IH.
    destruct (a ++ b) eqn:E; [|done]. by apply app_eq_nil in E as [_ ->]. }
  unfold lines. rewrite !Sp, !L by (apply split_nonempty || done). cbn [split lines_of].
  by rewrite app_nil_r.
Qed.

Lemma has_item_app text keyword args more :
  at_line_start text -> has_item text keyword args -> has_item (text ++ more) keyword args.
Proof.
  intros L (before & line & after & E & C & F). destruct L as [->|L].
  - exfalso. cbn in E. by destruct before.
  - apply last_Some in L as [t ->]. rewrite <- app_assoc. cbn [app].
    exists before, line, (after ++ lines more). by rewrite lines_app, E, <- app_assoc.
Qed.

(** The end of a keyword's first line. *)
Lemma line_end_splits text keyword stop :
  NL ∉ keyword -> line_end_after text keyword = Some stop ->
  exists pre eol after,
    first_at at_line_start text keyword pre (eol ++ NL :: after) /\ NL ∉ eol /\
    slice_to text stop = pre ++ keyword ++ eol ++ [NL] /\ slice_from text stop = after.
Proof.
  intros Hk. unfold line_end_after.
  destruct (line_start_of text keyword) as [i|] eqn:L; [|done]. cbn [mbind option_bind].
  apply line_start_first in L as (pre & rest & -> & F). pose proof F as (Et & _).
  assert (slice_from text (len pre) = keyword ++ rest) as -> by (rewrite Et; by apply slice_from_app).
  destruct (find (keyword ++ rest) [NL]) as [j|] eqn:N; [|done]. cbn [mbind option_bind].
  intros [= <-]. apply find_first in N as (x & after & -> & Ex & _ & M).
  assert (Hx : NL ∉ x).
  { intros H. apply list_elem_of_split in H as (a & b & ->). rewrite <- !app_assoc in Ex.
    pose proof (M a _ Ex I) as Hl. rewrite !len_app, len_cons in Hl. pose proof (len_nonneg b). lia. }
  assert (K : exists eol, x = keyword ++ eol /\ rest = eol ++ NL :: after).
  { apply app_eq_inv in Ex as [(k & Hc & Hr)|(k & -> & Hr)]; [|by exists k].
    destruct k as [|b k]; [exists []; rewrite app_nil_r in *; by rewrite Hc|].
    injection Hr as <- _. exfalso. apply Hk. rewrite Hc. set_solver. }
  destruct K as (eol & -> & ->). exists pre, eol, after. split_and!; [done|set_solver| |].
  all: rewrite Et.
  - replace (pre ++ keyword ++ eol ++ NL :: after) with ((pre ++ keyword ++ eol ++ [NL]) ++ after)
      by (by rewrite <- !app_assoc).
    apply slice_to_app. rewrite !len_app. change (len [NL]) with 1. lia.
  - replace (pre ++ keyword ++ eol ++ NL :: after) with ((pre ++ keyword ++ eol ++ [NL]) ++ after)
      by (by rewrite <- !app_assoc).
    apply slice_from_app. rewrite !len_app. change (len [NL]) with 1. lia.
Qed.

(** *** Documents in blocks

    A batch of documents, or the introduction points of one, are cut at the
    lines that start with a keyword [K]. *)
Section blocks.
Context (K : bytes).

(** The keyword is no empty one and lies on one line. *)
Definition keyword_ok : Prop := K <> [] /\ NL ∉ K.

(** No line after the first opens a block. *)
Definition quiet (s : bytes) : Prop := find s (NL :: K) = None.

(** A block opens with its keyword and consists of lines, of which no other
    opens a block. *)
Definition block_ok (t : bytes) : Prop := starts_with t K = true /\ last t = Some NL /\ quiet t.

(** What may stand before the first block: nothing, or lines. *)
Definition remainder (r : bytes) : Prop := quiet (NL :: r) /\ (r = [] \/ last r = Some NL).

Context (K_ok : keyword_ok).

Lemma one_line a b : K <> a ++ NL :: b.
Proof using K_ok. intros E. destruct K_ok as [_ H]. apply H. rewrite E. set_solver. Qed.

Lemma remainder_nil : remainder [].
Proof using K_ok.
  split; [|by left]. unfold quiet, find. cbn [find_from]. destruct K_ok as [N _].
  assert (S1 : starts_with [NL] (NL :: K) = false).
  { apply starts_with_false. intros b E. injection E as E. symmetry in E.
    apply app_eq_nil in E as [E _]. done. }
  rewrite S1. done.
Qed.

Lemma remainder_next r ts :
  remainder r -> Forall block_ok ts ->
  line_start_of (r ++ concat ts) K = match ts with [] => None | _ => Some (len r) end.
Proof using K_ok.
  intros [Q L] F. unfold line_start_of. unfold quiet in Q. rewrite find_none in Q.
  assert (Start : r = [] \/ starts_with (r ++ concat ts) K = false).
  { destruct L as [->|L]; [by left|right]. apply starts_with_false. intros b E.
    apply last_Some in L as [x ->]. apply no_straddle in E as [b' E]; [|exact one_line].
    apply (Q [] b'). by rewrite E. }
  destruct ts as [|t ts].
  - cbn [concat]. rewrite app_nil_r in *.
    assert (Sf : starts_with r K = false).
    { destruct Start as [->|]; [|done]. apply starts_with_false. intros b E.
      symmetry in E. apply app_eq_nil in E as [E _]. by destruct K_ok. }
    rewrite Sf. assert (N : find r (NL :: K) = None).
    { apply find_none. intros a b E. apply (Q (NL :: a) b). by rewrite E. }
    by rewrite N.
  - inversion_clear F as [|? ? (St & Lt & Qt) _]. apply starts_with_iff in St as [z Hz].
    cbn [concat] in *. rewrite Hz, <- !app_assoc in *. destruct L as [->|L].
    { assert (Sf : starts_with ([] ++ K ++ z ++ concat ts) K = true)
        by (apply starts_with_iff; eexists; reflexivity). by rewrite Sf. }
    destruct Start as [->|Start]; [by apply last_Some in L as [? []%app_cons_not_nil]|].
    rewrite Start. clear x. apply last_Some in L as [x ->]. unfold find.
    rewrite <- (app_assoc x), find_from_skip.
    + cbn [app]. change (NL :: K ++ z ++ concat ts) with ((NL :: K) ++ z ++ concat ts).
      rewrite find_from_here. cbn [mbind option_bind]. f_equal. rewrite len_app. change (len [NL]) with 1. lia.
    + intros k Hk. apply starts_with_false. intros b E.
      destruct (drop k x) as [|c y] eqn:D.
      { apply (f_equal length) in D. rewrite length_drop in D. cbn in D. lia. }
      assert (Hx : x = take k x ++ c :: y) by (by rewrite <- D, take_drop).
      destruct (cons_split c NL (y ++ [NL] ++ K ++ z ++ concat ts) (K ++ b) E) as [-> E'].
      clear E. rename E' into E. rewrite (app_assoc y) in E.
      apply no_straddle in E as [b' E]; [|exact one_line].
      apply (Q (NL :: take k x) b'). rewrite Hx at 1.
      rewrite <- !app_comm_cons, <- app_assoc, <- app_comm_cons. by rewrite E.
Qed.

Lemma block_first_line t :
  block_ok t -> exists l r, t = l ++ NL :: r /\ (NL ∉ l) /\ remainder r.
Proof using K_ok.
  intros (St & Lt & Qt). assert (I : NL ∈ t) by (apply last_Some in Lt as [x ->]; set_solver).
  apply list_elem_of_split_l in I as (l & r & E & Hl).
  exists l, r. split_and!; [done|done|]. split.
  - unfold quiet in *. rewrite find_none in *. intros a b Er. apply (Qt (l ++ a) b).
    rewrite E, Er. by rewrite <- app_assoc.
  - rewrite E in Lt. destruct (decide (r = [])) as [->|Nr]; [by left|right].
    change (l ++ NL :: r) with (l ++ [NL] ++ r) in Lt. rewrite app_assoc, last_app in Lt.
    destruct (last r) eqn:L; [exact Lt|]. by apply last_None in L.
Qed.

(** Where the blocks start, from an offset on. *)
Fixpoint offsets (o : Z) (ts : list bytes) : list Z :=
  match ts with [] => [] | t :: ts => o :: offsets (o + len t) ts end.

(** One step of the search: the next block is found where it starts, and
    behind its first line the same situation holds again. *)
Lemma next_block text o r t ts :
  Forall block_ok (t :: ts) -> remainder r -> 0 <= o -> slice_from text o = r ++ concat (t :: ts) ->
  exists n r',
    line_start_of (slice_from text o) K = Some (len r) /\
    find (slice_from text (o + len r)) [NL] = Some n /\ 0 <= n /\ remainder r' /\
    slice_from text (o + len r + (n + 1)) = r' ++ concat ts /\
    o + len r + len t = o + len r + (n + 1) + len r' /\
    (len text <= o + len r + (n + 1) -> ts = []).
Proof using K_ok.
  intros F R Ho E. inversion_clear F as [|? ? Ft F'].
  destruct (block_first_line t Ft) as (l & r' & Et & Hl & R').
  assert (Ea : slice_from text (o + len r) = t ++ concat ts).
  { unfold slice_from in *. replace (Z.to_nat (o + len r)) with (Z.to_nat o + length r)%nat
      by (unfold len; lia). rewrite <- drop_drop, E. cbn [concat]. by rewrite drop_app_length. }
  pose proof (len_nonneg r). pose proof (len_nonneg l).
  assert (Eo : slice_from text (o + len r + (len l + 1)) = r' ++ concat ts).
  { unfold slice_from in *. replace (Z.to_nat (o + len r + (len l + 1)))
      with (Z.to_nat (o + len r) + S (length l))%nat by (unfold len in *; lia).
    rewrite <- drop_drop, Ea, Et.
    replace ((l ++ NL :: r') ++ concat ts) with ((l ++ [NL]) ++ r' ++ concat ts)
      by (by rewrite <- !app_assoc).
    replace (S (length l)) with (length (l ++ [NL])) by (rewrite length_app; cbn; lia).
    by rewrite drop_app_length. }
  exists (len l), r'. split_and!; try done.
  - rewrite E. apply (remainder_next r (t :: ts)); [done|by constructor].
  - rewrite Ea, Et, <- app_assoc. exact (find_newline l (r' ++ concat ts) Hl).
  - rewrite Et, len_app, len_cons. lia.
  - intros Hle. assert (Z0 : r' ++ concat ts = []).
    { rewrite <- Eo. unfold slice_from. apply drop_ge. unfold len in *. lia. }
    destruct ts as [|t' ts]; [done|]. exfalso. inversion_clear F' as [|? ? (St & _) _].
    apply starts_with_iff in St as [b ->]. apply app_eq_nil in Z0 as [_ Z0]. cbn [concat] in Z0.
    apply app_eq_nil in Z0 as [Z0 _]. apply app_eq_nil in Z0 as [Z0 _]. by destruct K_ok.
Qed.
End blocks.

Example reads_an_item :
  item (B "valid-after 2026-09-02 10:00:00" ++ [NL] ++ B "flag" ++ [NL]) (B "valid-after")
  = Some (B "2026-09-02 10:00:00") /\
  item (B "valid-after 2026-09-02 10:00:00" ++ [NL] ++ B "flag" ++ [NL]) (B "flag") = Some [] /\
  item (B "valid-after 2026-09-02 10:00:00" ++ [NL] ++ B "flag" ++ [NL]) (B "valid") = None.
Proof. by vm_compute. Qed.
