(* ===== verification/Cells.v ===== *)
(** * Cell framing ([src/src/tor/cell.rs])

    Fixed- and variable-length link cells, their encoding, the incremental
    parser [try_parse] and the blocking reader [read_from].  The module
    [Cell] follows the file; the theorems say that the parser inverts the
    encoder with any bytes following, and that it asks for more input on
    every strict prefix of a cell. *)
From S2P Require Import Prelude.

Definition CELL_BODY_LEN : Z := 509.
Definition CIRC_ID_LEN_V2 : Z := 2.
Definition CIRC_ID_LEN_V4 : Z := 4.

Definition CMD_PADDING : Z := 0.
Definition CMD_RELAY : Z := 3.
Definition CMD_DESTROY : Z := 4.
Definition CMD_CREATE_FAST : Z := 5.
Definition CMD_CREATED_FAST : Z := 6.
Definition CMD_VERSIONS : Z := 7.
Definition CMD_NETINFO : Z := 8.
Definition CMD_RELAY_EARLY : Z := 9.
Definition CMD_CREATE2 : Z := 10.
Definition CMD_CREATED2 : Z := 11.
Definition CMD_VPADDING : Z := 128.
Definition CMD_CERTS : Z := 129.
Definition CMD_AUTH_CHALLENGE : Z := 130.

Definition is_variable_length (command : Z) : bool :=
  (command =? CMD_VERSIONS) || (128 <=? command).

Module Cell.

Record t := Mk { circ_id : Z; command : Z; body : bytes }.

#[export] Instance eq_dec : EqDecision t.
Proof. solve_decision. Defined.

Definition new (circ_id command : Z) (body : bytes) : result t :=
  if is_variable_length command then
    if U16_MAX <? len body
    then Err (invalid_data "variable-length cell body too long")
    else Ok (Mk circ_id command body)
  else
    if CELL_BODY_LEN <? len body
    then Err (invalid_data "fixed-length cell body too long")
    else Ok (Mk circ_id command (resize0 body CELL_BODY_LEN)).

Definition encode (c : t) (circ_id_len : Z) : bytes :=
  (if circ_id_len =? CIRC_ID_LEN_V2
   then to_be 2 (as_u16 (circ_id c))
   else to_be 4 (circ_id c))
  ++ [command c]
  ++ (if is_variable_length (command c) then to_be 2 (as_u16 (len (body c))) else [])
  ++ body c.

Definition try_parse (buf : bytes) (circ_id_len : Z) : result (option (t * Z)) :=
  let header := circ_id_len + 1 in
  if len buf <? header then Ok None else
  circ_id ← (if circ_id_len =? CIRC_ID_LEN_V2 then Ok (from_be (slice buf 0 2))
             else if circ_id_len =? CIRC_ID_LEN_V4 then Ok (from_be (slice buf 0 4))
             else Err (invalid_data "bad CircID width {other}"));
  let command := byte_at buf circ_id_len in
  let finish (body_start body_len : Z) :=
    let total := body_start + body_len in
    if len buf <? total then Ok None
    else Ok (Some (Mk circ_id command (slice buf body_start total), total)) in
  if is_variable_length command then
    if len buf <? header + 2 then Ok None
    else finish (header + 2) (from_be (slice buf header (header + 2)))
  else finish header CELL_BODY_LEN.

(** [Read::read_exact] on a reader that still has the bytes [s]. *)
Definition read_exact (n : Z) (s : bytes) : result (bytes * bytes) :=
  if len s <? n then Err (IoError UnexpectedEof (Message "failed to fill whole buffer"))
  else Ok (slice_to s n, slice_from s n).

Definition read_from (reader : bytes) (circ_id_len : Z) : result (t * bytes) :=
  '(header, reader) ← read_exact (circ_id_len + 1) reader;
  '(buf, reader) ←
    (if is_variable_length (byte_at header circ_id_len) then
       '(len_bytes, reader) ← read_exact 2 reader;
       '(rest, reader) ← read_exact (from_be len_bytes) reader;
       Ok (header ++ len_bytes ++ rest, reader)
     else
       '(rest, reader) ← read_exact CELL_BODY_LEN reader;
       Ok (header ++ rest, reader));
  parsed ← try_parse buf circ_id_len;
  match parsed with
  | Some (cell, _) => Ok (cell, reader)
  | None => Err (invalid_data "short cell")
  end.

End Cell.

(** [cell::be_u16]. *)
Definition be_u16 (buf : bytes) (offset : Z) : result Z :=
  if len buf <? offset + 2 then Err (invalid_data "truncated u16")
  else Ok (from_be (slice buf offset (offset + 2))).

(** ** Well-formed cells for a link width *)

Definition width_ok (w : Z) : Prop := w = CIRC_ID_LEN_V2 \/ w = CIRC_ID_LEN_V4.

Record cell_ok (w : Z) (c : Cell.t) : Prop := {
  ok_circ_id : 0 <= Cell.circ_id c < 256 ^ w;
  ok_command : is_u8 (Cell.command c);
  ok_body : bytes_ok (Cell.body c);
  ok_body_len :
    if is_variable_length (Cell.command c)
    then len (Cell.body c) <= U16_MAX
    else len (Cell.body c) = CELL_BODY_LEN;
}.

(** ** Parsing inverts encoding *)

Section roundtrip.
Context (w : Z) (Hw : width_ok w).

Lemma encode_shape c :
  cell_ok w c ->
  Cell.encode c w =
    to_be (Z.to_nat w) (Cell.circ_id c) ++ [Cell.command c] ++
    (if is_variable_length (Cell.command c) then to_be 2 (len (Cell.body c)) else [])
    ++ Cell.body c.
Proof.
  intros [Hid _ _ Hlen]. unfold Cell.encode, as_u16. destruct Hw as [-> | ->].
  - change (256 ^ CIRC_ID_LEN_V2) with 65536 in Hid. cbn [Z.eqb].
    rewrite Z.mod_small by lia. f_equal. f_equal.
    case_match; [|done]. pose proof (len_nonneg (Cell.body c)). unfold U16_MAX in Hlen.
    by rewrite Z.mod_small by lia.
  - f_equal. f_equal.
    case_match; [|done]. pose proof (len_nonneg (Cell.body c)). unfold U16_MAX in Hlen.
    by rewrite Z.mod_small by lia.
Qed.

(** The size of a cell, as the parser works it out from the header. *)
Definition cell_size (c : Cell.t) : Z :=
  w + 1 + (if is_variable_length (Cell.command c) then 2 else 0) + len (Cell.body c).

Lemma len_encode c : cell_ok w c -> len (Cell.encode c w) = cell_size c.
Proof.
  intros H. rewrite encode_shape by done. unfold cell_size.
  assert (0 <= w) by (destruct Hw as [-> | ->]; done).
  case_match; autorewrite with len; lia.
Qed.

(** What [try_parse] sees of the header once the whole header is there. *)
Lemma try_parse_header id cmd rest :
  0 <= id < 256 ^ w ->
  Cell.try_parse (to_be (Z.to_nat w) id ++ cmd :: rest) w =
    if is_variable_length cmd then
      if len rest <? 2 then Ok None
      else let n := from_be (slice rest 0 2) in
           if len rest <? 2 + n then Ok None
           else Ok (Some (Cell.Mk id cmd (slice rest 2 (2 + n)), w + 3 + n))
    else if len rest <? CELL_BODY_LEN then Ok None
         else Ok (Some (Cell.Mk id cmd (slice rest 0 CELL_BODY_LEN), w + 1 + CELL_BODY_LEN)).
Proof.
  intros Hid. assert (Hw0 : 0 <= w) by (destruct Hw as [-> | ->]; done).
  assert (Hlid : len (to_be (Z.to_nat w) id) = w) by (rewrite len_to_be; lia).
  assert (Hidp : forall s, from_be (slice (to_be (Z.to_nat w) id ++ s) 0 w) = id).
  { intros s. rewrite slice_0_to, slice_to_app by lia. apply from_be_to_be_small. by rewrite Z2Nat.id. }
  assert (Hcmd : byte_at (to_be (Z.to_nat w) id ++ cmd :: rest) w = cmd).
  { rewrite byte_at_app_r by lia. by rewrite Hlid, Z.sub_diag. }
  assert (Hsl : forall a b, 0 <= a ->
    slice (to_be (Z.to_nat w) id ++ cmd :: rest) (w + 1 + a) (w + 1 + b) = slice rest a b).
  { intros a b Ha. rewrite cons_middle, app_assoc, slice_skip by (autorewrite with len; lia).
    f_equal; autorewrite with len; lia. }
  unfold Cell.try_parse. rewrite Hcmd.
  set (buf := to_be _ _ ++ _) in *.
  assert (Hlen : len buf = w + 1 + len rest) by (unfold buf; autorewrite with len; lia).
  rewrite Hlen. pose proof (len_nonneg rest).
  destruct (Z.ltb_spec (w + 1 + len rest) (w + 1)); [lia|].
  replace (if w =? CIRC_ID_LEN_V2 then _ else _) with (Ok id); cycle 1.
  { specialize (Hidp (cmd :: rest)). destruct Hw as [-> | ->]; cbn [Z.eqb]; by f_equal. }
  cbn [mbind result_bind]. case_match.
  - replace (w + 1 + len rest <? w + 1 + 2) with (len rest <? 2)
      by (destruct (Z.ltb_spec (len rest) 2), (Z.ltb_spec (w + 1 + len rest) (w + 1 + 2)); lia).
    case_match; [done|].
    replace (slice buf (w + 1) (w + 1 + 2)) with (slice rest 0 2)
      by (rewrite <- Hsl by lia; f_equal; lia).
    set (n := from_be _).
    replace (w + 1 + len rest <? w + 1 + 2 + n) with (len rest <? 2 + n)
      by (destruct (Z.ltb_spec (len rest) (2 + n)), (Z.ltb_spec (w + 1 + len rest) (w + 1 + 2 + n)); lia).
    case_match; [done|]. do 3 f_equal; [|lia]. rewrite <- Hsl by lia. by rewrite !Z.add_assoc.
  - replace (w + 1 + len rest <? w + 1 + CELL_BODY_LEN) with (len rest <? CELL_BODY_LEN)
      by (destruct (Z.ltb_spec (len rest) CELL_BODY_LEN),
            (Z.ltb_spec (w + 1 + len rest) (w + 1 + CELL_BODY_LEN)); lia).
    case_match; [done|]. do 3 f_equal. rewrite <- Hsl by lia. do 2 f_equal; lia.
Qed.

Lemma try_parse_encode_aux c rest :
  cell_ok w c ->
  Cell.try_parse (Cell.encode c w ++ rest) w = Ok (Some (c, cell_size c)).
Proof.
  intros Hc. rewrite encode_shape by done. rewrite <- !app_assoc. cbn [app].
  destruct Hc as [Hid Hcmd Hb Hlen]. rewrite try_parse_header by done.
  unfold cell_size. pose proof (len_nonneg (Cell.body c)). pose proof (len_nonneg rest).
  destruct c as [id cmd body]. cbn [Cell.circ_id Cell.command Cell.body] in *. case_match.
  - unfold U16_MAX in Hlen.
    rewrite slice_0_to, slice_to_app by (by rewrite len_to_be).
    rewrite from_be_to_be_small by (cbn; lia).
    autorewrite with len. change (Z.of_nat 2) with 2. zif.
    rewrite slice_app_at by (rewrite ?len_to_be; lia).
    by replace (w + 3 + len body) with (w + 1 + 2 + len body) by lia.
  - rewrite app_nil_l, len_app, Hlen. zif.
    rewrite slice_0_to, slice_to_app by done. by rewrite Z.add_0_r.
Qed.

(** On a strict prefix of a cell, however long, the parser asks for more. *)
Lemma try_parse_prefix_aux c p s :
  cell_ok w c -> Cell.encode c w = p ++ s -> s <> [] -> Cell.try_parse p w = Ok None.
Proof.
  intros Hc E Hs. assert (Hl : len p < cell_size c).
  { rewrite <- len_encode, E by done. destruct s; [done|]. solve_len. }
  destruct (Z.ltb_spec (len p) (w + 1)) as [Hh|Hh].
  { unfold Cell.try_parse. by destruct (Z.ltb_spec (len p) (w + 1)); [|lia]. }
  rewrite encode_shape in E by done. assert (Hw0 : 0 <= w) by (destruct Hw as [-> | ->]; done).
  assert (Hp : exists q, p = to_be (Z.to_nat w) (Cell.circ_id c) ++ Cell.command c :: q).
  { exists (drop (Z.to_nat w + 1) p). rewrite <- (take_drop (Z.to_nat w + 1) p) at 1.
    rewrite (cons_middle (Cell.command c)), app_assoc. f_equal.
    apply (f_equal (take (Z.to_nat w + 1))) in E.
    rewrite (take_app_le p) in E by (unfold len in Hh; lia).
    rewrite <- E, app_assoc. apply take_app_length'. rewrite length_app, length_to_be. done. }
  destruct Hp as [q ->]. rewrite <- app_assoc in E. cbn [app] in E.
  apply app_inv_head in E. injection E as E.
  destruct Hc as [Hid Hcmd Hb Hlen]. rewrite try_parse_header by done.
  assert (Hq : len q + w + 1 < cell_size c) by (revert Hl; autorewrite with len; lia).
  unfold cell_size in Hq. revert Hlen Hq E. case_match; intros Hlen Hq E.
  - destruct (Z.ltb_spec (len q) 2); [done|].
    assert (slice q 0 2 = to_be 2 (len (Cell.body c))) as ->.
    { rewrite slice_0_to. unfold slice_to.
      rewrite <- (take_app_le q s), <- E by (unfold len in *; lia).
      apply take_app_length'. by rewrite length_to_be. }
    unfold U16_MAX in Hlen. pose proof (len_nonneg (Cell.body c)).
    rewrite from_be_to_be_small by (cbn; lia). cbn zeta.
    by destruct (Z.ltb_spec (len q) (2 + len (Cell.body c))); [|lia].
  - by destruct (Z.ltb_spec (len q) CELL_BODY_LEN); [|lia].
Qed.

(** Every parse that succeeds consumes at least a header. *)
Lemma try_parse_consumes buf c n :
  bytes_ok buf -> Cell.try_parse buf w = Ok (Some (c, n)) -> 0 < n <= len buf.
Proof.
  assert (Hw0 : 0 <= w) by (destruct Hw as [-> | ->]; done).
  intros Hok H. pose proof (from_be_bound _ (bytes_ok_slice buf (w + 1) (w + 1 + 2) Hok)).
  unfold Cell.try_parse, CELL_BODY_LEN in H. res_inv; b2p; simplify_eq; lia.
Qed.

(** *** The blocking reader *)

Lemma read_exact_app p s n : n = len p -> Cell.read_exact n (p ++ s) = Ok (p, s).
Proof.
  intros ->. unfold Cell.read_exact. rewrite len_app. pose proof (len_nonneg s). zif.
  by rewrite slice_to_app, slice_from_app.
Qed.

Lemma read_from_encode_aux c rest :
  cell_ok w c -> Cell.read_from (Cell.encode c w ++ rest) w = Ok (c, rest).
Proof.
  intros Hc. pose proof (try_parse_encode_aux c [] Hc) as Hp. rewrite app_nil_r in Hp.
  assert (Hw0 : 0 <= w) by (destruct Hw as [-> | ->]; done).
  rewrite encode_shape in * by done. destruct Hc as [Hid Hcmd Hb Hlen].
  set (hdr := to_be (Z.to_nat w) (Cell.circ_id c) ++ [Cell.command c]).
  assert (Hhdr : w + 1 = len hdr) by (unfold hdr; autorewrite with len; lia).
  unfold Cell.read_from. rewrite <- !app_assoc, (app_assoc (to_be (Z.to_nat w) _)).
  fold hdr. rewrite read_exact_app by done. cbn [mbind result_bind].
  assert (byte_at hdr w = Cell.command c) as ->.
  { unfold hdr. rewrite byte_at_app_r by (rewrite len_to_be; lia).
    rewrite len_to_be, Z2Nat.id, Z.sub_diag by lia. done. }
  rewrite (app_assoc (to_be (Z.to_nat w) _)) in Hp. fold hdr in Hp.
  revert Hlen Hp. case_match; intros Hlen Hp.
  - unfold U16_MAX in Hlen. pose proof (len_nonneg (Cell.body c)).
    rewrite read_exact_app by (by rewrite len_to_be). cbn [mbind result_bind].
    rewrite from_be_to_be_small by (cbn; lia).
    rewrite read_exact_app by done. cbn [mbind result_bind]. by rewrite Hp.
  - rewrite app_nil_l in *. rewrite read_exact_app by done. cbn [mbind result_bind].
    by rewrite Hp.
Qed.

(** What [read_exact] returns. *)
Lemma read_exact_inv n s p r :
  0 <= n -> Cell.read_exact n s = Ok (p, r) -> s = p ++ r /\ len p = n.
Proof.
  intros Hn. unfold Cell.read_exact. destruct (Z.ltb_spec (len s) n); [done|]. intros [= <- <-].
  unfold slice_to, slice_from. rewrite take_drop, len_take. split; [done|lia].
Qed.

(** Every header is the encoding of its fields. *)
Lemma header_inv h :
  bytes_ok h -> len h = w + 1 ->
  exists id cmd, h = to_be (Z.to_nat w) id ++ [cmd] /\ 0 <= id < 256 ^ w /\ is_u8 cmd /\
    byte_at h w = cmd.
Proof.
  intros Hb Hl. assert (Hw0 : 0 <= w) by (destruct Hw as [-> | ->]; done).
  destruct h as [|cmd id _] using rev_ind; [change (len []) with 0 in Hl; lia|].
  apply bytes_ok_app in Hb as [Hid Hc]. apply bytes_ok_cons in Hc as [Hc _].
  assert (Li : len id = w) by solve_len.
  exists (from_be id), cmd. pose proof (from_be_bound id Hid) as Hf. rewrite Li in Hf.
  split_and!; try done; try lia.
  - f_equal. rewrite <- (to_be_from_be id) at 1 by done. f_equal. unfold len in Li. lia.
  - rewrite byte_at_app_r by lia. by rewrite Li, Z.sub_diag.
Qed.

(** What the blocking reader returns was encoded at the front of the stream. *)
Lemma read_from_inv s c r :
  bytes_ok s -> Cell.read_from s w = Ok (c, r) -> s = Cell.encode c w ++ r /\ cell_ok w c.
Proof.
  intros Hs E. assert (Hw0 : 0 <= w) by (destruct Hw as [-> | ->]; done).
  unfold Cell.read_from in E. destruct (Cell.read_exact _ s) as [[h s1]|] eqn:R1; [|done].
  cbn [mbind result_bind] in E. apply read_exact_inv in R1 as [-> Lh]; [|lia].
  apply bytes_ok_app in Hs as [Hh Hs].
  destruct (header_inv h Hh Lh) as (id & cmd & -> & Hid & Hcmd & Hb). rewrite Hb in E.
  assert (F : forall body, bytes_ok body ->
    (if is_variable_length cmd then len body <= U16_MAX else len body = CELL_BODY_LEN) ->
    cell_ok w (Cell.Mk id cmd body)) by (intros; by constructor).
  destruct (is_variable_length cmd) eqn:V.
  - destruct (Cell.read_exact 2 s1) as [[lb s2]|] eqn:R2; [|done]. cbn [mbind result_bind] in E.
    apply read_exact_inv in R2 as [-> Ll]; [|lia]. apply bytes_ok_app in Hs as [Hlb Hs].
    pose proof (from_be_bound lb Hlb) as Hn. rewrite Ll in Hn. change (256 ^ 2) with 65536 in Hn.
    destruct (Cell.read_exact (from_be lb) s2) as [[body s3]|] eqn:R3; [|done].
    cbn [mbind result_bind] in E. apply read_exact_inv in R3 as [-> Lb]; [|lia].
    apply bytes_ok_app in Hs as [Hbody _].
    assert (Hok : cell_ok w (Cell.Mk id cmd body)) by (apply F; [done|unfold U16_MAX; lia]).
    pose proof (try_parse_encode_aux _ [] Hok) as P. rewrite app_nil_r in P.
    assert (Ee : Cell.encode (Cell.Mk id cmd body) w = (to_be (Z.to_nat w) id ++ [cmd]) ++ lb ++ body).
    { rewrite encode_shape by done. cbn [Cell.circ_id Cell.command Cell.body].
      rewrite V, <- !app_assoc. do 3 f_equal. rewrite Lb.
      replace 2%nat with (length lb) by (unfold len in Ll; lia). by apply to_be_from_be. }
    rewrite <- Ee, P in E. cbn [mbind result_bind] in E. injection E as <- <-.
    by rewrite Ee, <- !app_assoc.
  - destruct (Cell.read_exact CELL_BODY_LEN s1) as [[body s2]|] eqn:R2; [|done].
    cbn [mbind result_bind] in E. apply read_exact_inv in R2 as [-> Ll]; [|done].
    apply bytes_ok_app in Hs as [Hbody _].
    assert (Hok : cell_ok w (Cell.Mk id cmd body)) by (by apply F).
    pose proof (try_parse_encode_aux _ [] Hok) as P. rewrite app_nil_r in P.
    assert (Ee : Cell.encode (Cell.Mk id cmd body) w = (to_be (Z.to_nat w) id ++ [cmd]) ++ body).
    { rewrite encode_shape by done. cbn [Cell.circ_id Cell.command Cell.body].
      by rewrite V, <- !app_assoc. }
    rewrite <- Ee, P in E. cbn [mbind result_bind] in E. injection E as <- <-.
    by rewrite Ee, <- !app_assoc.
Qed.
End roundtrip.

(** ** Cells made by [Cell::new] *)

(** The longest body [Cell::new] takes for a command. *)
Definition body_limit (command : Z) : Z :=
  if is_variable_length command then U16_MAX else CELL_BODY_LEN.

Lemma len_resize0 l n : 0 <= n -> len (resize0 l n) = n.
Proof. intros. unfold resize0, len. rewrite length_app, length_take, length_replicate. lia. Qed.

Lemma bytes_ok_resize0 l n : bytes_ok l -> bytes_ok (resize0 l n).
Proof.
  intros. unfold resize0. apply bytes_ok_app. split; [by apply bytes_ok_take|].
  apply Forall_replicate. unfold is_u8. lia.
Qed.

Lemma new_cell_ok w id cmd body c :
  Cell.new id cmd body = Ok c -> 0 <= id < 256 ^ w -> is_u8 cmd -> bytes_ok body ->
  cell_ok w c.
Proof.
  unfold Cell.new. intros H Hid Hcmd Hb. res_inv; subst; b2p; constructor; cbn;
    rewrite ?E; auto using bytes_ok_resize0.
  by apply len_resize0.
Qed.

(** ** Properties *)

(** C23. The cell codec. A cell made by [Cell::new] and encoded for a link width
    is read back exactly, whatever bytes follow: by [try_parse], which also
    reports how many bytes it used, and by the blocking [read_from], which
    leaves exactly the bytes that follow. On every strict prefix of that
    encoding [try_parse] answers [Ok(None)] -- never an error, never a short
    cell -- so the caller keeps its buffer and reads more. *)
Theorem cell_codec (w id cmd : Z) (body : bytes) (c : Cell.t)
  (Hw : width_ok w) (Hid : 0 <= id < 256 ^ w) (Hcmd : is_u8 cmd) (Hb : bytes_ok body)
  (Hnew : Cell.new id cmd body = Ok c) :
  (forall rest,
    Cell.try_parse (Cell.encode c w ++ rest) w = Ok (Some (c, len (Cell.encode c w))) /\
    Cell.read_from (Cell.encode c w ++ rest) w = Ok (c, rest)) /\
  (forall p s, Cell.encode c w = p ++ s -> s <> [] -> Cell.try_parse p w = Ok None).
Proof.
  pose proof (new_cell_ok w _ _ _ _ Hnew Hid Hcmd Hb) as Hc. split.
  - intros rest. split.
    + rewrite len_encode by done. by apply try_parse_encode_aux.
    + by apply read_from_encode_aux.
  - intros p s Hp Hs. by eapply try_parse_prefix_aux.
Qed.

Lemma cell_codec_witness :
  let c := Cell.Mk 7 CMD_CERTS [9; 8; 7] in
  Cell.try_parse (Cell.encode c 4 ++ [1; 2]) 4 = Ok (Some (c, 10)) /\
  Cell.read_from (Cell.encode c 4 ++ [1; 2]) 4 = Ok (c, [1; 2]) /\
  Cell.try_parse [0; 0; 0; 7; 129; 0; 3; 9] 4 = Ok None.
Proof.
  destruct (cell_codec 4 7 CMD_CERTS [9; 8; 7] (Cell.Mk 7 CMD_CERTS [9; 8; 7])) as [A C].
  - by right.
  - by vm_compute.
  - by vm_compute.
  - by apply (bool_decide_unpack _).
  - by vm_compute.
  - destruct (A [1; 2]) as [A1 A2]. split_and!; [exact A1|exact A2|].
    apply (C [0; 0; 0; 7; 129; 0; 3; 9] [8; 7]); [by vm_compute|done].
Defined.
