(* ===== verification/Cc.v ===== *)
(** * Congestion control ([src/src/tor/cc.rs])

    Proposal 324's Tor Vegas: the [cc_*] consensus parameters and their
    parser, the sending state machine [Vegas] and the receiving
    [DeliverCounter].  An [Instant] is a [Z] of nanoseconds.  The record
    fields, the operations and the order of their assignments are the
    source's; [u64]/[u128] intermediates are exact integers, with the clamps
    of the source written out. *)
From S2P Require Import Prelude.
From S2P Require Import Text.

Definition OUTBUF_CELLS : Z := 62.
Definition INT32_MAX : Z := 2147483647.
Definition CLOCK_JUMP_RATIO : Z := 5000.

Inductive Position := Exit | Onion.

Module CcParams.

Definition suffix (p : Position) : bytes :=
  match p with Exit => B "_exit" | Onion => B "_onion" end.

Record t := Mk {
  alg : Z; p_sendme_inc : Z; cwnd_init : Z; cwnd_min : Z; cwnd_max : Z;
  cwnd_inc : Z; cwnd_inc_rate : Z; cwnd_inc_pct_ss : Z; ewma_cwnd_pct : Z;
  ewma_max : Z; ewma_ss : Z; rtt_reset_pct : Z; vegas_alpha : Z;
  vegas_beta : Z; vegas_gamma : Z; vegas_delta : Z; ss_cap : Z; ss_max : Z;
  cwnd_full_gap : Z; cwnd_full_minpct : Z; cwnd_full_per_cwnd : bool;
  xoff_client : Z;
}.

Definition defaults (position : Position) : t :=
  let '(beta, gamma, delta, ss_cap) :=
    match position with
    | Exit => (4, 3, 5, 600)
    | Onion => (6, 4, 7, 475)
    end in
  {| alg := 2; p_sendme_inc := 31; cwnd_init := 4 * 31; cwnd_min := 31;
     cwnd_max := INT32_MAX; cwnd_inc := 31; cwnd_inc_rate := 1;
     cwnd_inc_pct_ss := 50; ewma_cwnd_pct := 50; ewma_max := 10; ewma_ss := 2;
     rtt_reset_pct := 100; vegas_alpha := 3 * OUTBUF_CELLS;
     vegas_beta := beta * OUTBUF_CELLS; vegas_gamma := gamma * OUTBUF_CELLS;
     vegas_delta := delta * OUTBUF_CELLS; ss_cap := ss_cap; ss_max := 5000;
     cwnd_full_gap := 4; cwnd_full_minpct := 25; cwnd_full_per_cwnd := true;
     xoff_client := 500 |}.

(** Split a [_exit], [_onion] or [_sbws] suffix off a parameter name. *)
Fixpoint strip_suffixes (key : bytes) (suffixes : list bytes) : option (bytes * bytes) :=
  match suffixes with
  | [] => None
  | suffix :: rest =>
      match strip_suffix suffix key with
      | Some stem => Some (stem, suffix)
      | None => strip_suffixes key rest
      end
  end.
Definition strip_position (key : bytes) : option (bytes * bytes) :=
  strip_suffixes key [B "_exit"; B "_onion"; B "_sbws"].

(** [bounded::<T>]: [max] is the maximum of the field's integer type. *)
Definition bounded (max : Z) (value : bytes) (low high : Z) : option Z :=
  match parse_uint max value with
  | Some v => if (low <=? v) && (v <=? high) then Some v else None
  | None => None
  end.

(** [if let Some(v) = e { out.field = v; }] *)
Definition if_let {S} (o : option Z) (set : Z -> S) (out : S) : S :=
  match o with Some v => set v | None => out end.

(** One [key => ...] arm of the [match] in [CcParams::parse]. *)
Definition set_param (out : t) (key value : bytes) : t :=
  let key_is s := bytes_eqb key (B s) in
  let u32 := bounded U32_MAX value in
  if key_is "cc_alg" then
    if_let (match parse_uint U8_MAX value with
            | Some v => if (v =? 0) || (v =? 2) then Some v else None
            | None => None
            end) (fun v => out{{alg := v}}) out
  else if key_is "cc_sendme_inc" then
    if_let (bounded U8_MAX value 1 254) (fun v => out{{p_sendme_inc := v}}) out
  else if key_is "cc_xoff_client" then
    if_let (u32 1 10000) (fun v => out{{xoff_client := v}}) out
  else if key_is "cc_cwnd_init" then
    if_let (u32 31 10000) (fun v => out{{cwnd_init := v}}) out
  else if key_is "cc_cwnd_min" then
    if_let (u32 31 1000) (fun v => out{{cwnd_min := v}}) out
  else if key_is "cc_cwnd_max" then
    if_let (u32 500 INT32_MAX) (fun v => out{{cwnd_max := v}}) out
  else if key_is "cc_cwnd_inc" then
    if_let (u32 1 1000) (fun v => out{{cwnd_inc := v}}) out
  else if key_is "cc_cwnd_inc_rate" then
    if_let (u32 1 250) (fun v => out{{cwnd_inc_rate := v}}) out
  else if key_is "cc_cwnd_inc_pct_ss" then
    if_let (u32 1 500) (fun v => out{{cwnd_inc_pct_ss := v}}) out
  else if key_is "cc_ewma_cwnd_pct" then
    if_let (u32 1 255) (fun v => out{{ewma_cwnd_pct := v}}) out
  else if key_is "cc_ewma_max" then
    if_let (u32 2 INT32_MAX) (fun v => out{{ewma_max := v}}) out
  else if key_is "cc_ewma_ss" then
    if_let (u32 2 INT32_MAX) (fun v => out{{ewma_ss := v}}) out
  else if key_is "cc_rtt_reset_pct" then
    if_let (u32 0 100) (fun v => out{{rtt_reset_pct := v}}) out
  else if key_is "cc_vegas_alpha" then
    if_let (u32 0 1000) (fun v => out{{vegas_alpha := v}}) out
  else if key_is "cc_vegas_beta" then
    if_let (u32 0 1000) (fun v => out{{vegas_beta := v}}) out
  else if key_is "cc_vegas_gamma" then
    if_let (u32 0 1000) (fun v => out{{vegas_gamma := v}}) out
  else if key_is "cc_vegas_delta" then
    if_let (u32 0 INT32_MAX) (fun v => out{{vegas_delta := v}}) out
  else if key_is "cc_sscap" then
    if_let (u32 100 INT32_MAX) (fun v => out{{ss_cap := v}}) out
  else if key_is "cc_ss_max" then
    if_let (u32 500 INT32_MAX) (fun v => out{{ss_max := v}}) out
  else if key_is "cc_cwnd_full_gap" then
    if_let (u32 0 32767) (fun v => out{{cwnd_full_gap := v}}) out
  else if key_is "cc_cwnd_full_minpct" then
    if_let (u32 0 100) (fun v => out{{cwnd_full_minpct := v}}) out
  else if key_is "cc_cwnd_full_per_cwnd" then
    if_let (u32 0 1) (fun v => out{{cwnd_full_per_cwnd := (v =? 1)}}) out
  else out.

(** The body of the loop over the fields of the line. *)
Definition parse_field (mine : bytes) (out : t) (field : bytes) : t :=
  match split_once 61 field with
  | None => out
  | Some (key, value) =>
      match strip_position key with
      | Some (stem, suffix) =>
          if bytes_eqb suffix mine then set_param out stem value else out
      | None => set_param out key value
      end
  end.

Definition parse (args : bytes) (position : Position) : t :=
  fold_left (parse_field (suffix position)) (split_whitespace args) (defaults position).

End CcParams.

(** ** The sending side *)

Module Vegas.

Record t := Mk {
  params : CcParams.t;
  sendme_inc : Z;
  cwnd : Z;
  sent : Z;
  acked : Z;
  in_slow_start : bool;
  cwnd_full : bool;
  next_cc_event : Z;
  next_cwnd_event : Z;
  marks : list Z;
  ewma_rtt_us : Z;
  min_rtt_us : Z;
  bdp : Z;
  clock_broken : bool;
}.

Definition clamp_cwnd (v : t) (cwnd : Z) : Z :=
  Z.min (Z.max (Z.max cwnd (CcParams.cwnd_min (params v))) 1) (Z.max (CcParams.cwnd_max (params v)) 1).

Definition inflight (v : t) : Z := Z.min (sat_sub (sent v) (acked v)) U32_MAX.

Definition can_send (v : t) : bool := inflight v <? cwnd v.

Definition cwnd_is_full (v : t) : bool :=
  let gap := CcParams.cwnd_full_gap (params v) * sendme_inc v in
  cwnd v <=? inflight v + gap.

Definition cwnd_is_nonfull (v : t) : bool :=
  100 * inflight v <? CcParams.cwnd_full_minpct (params v) * cwnd v.

Definition rfc3742_ss_inc (v : t) : Z :=
  let p := params v in
  if cwnd v <=? CcParams.ss_cap p then
    let scaled := CcParams.cwnd_inc_pct_ss p * sendme_inc v in
    Z.min ((scaled + 50) / 100) U32_MAX
  else
    let numerator := sendme_inc v * CcParams.ss_cap p in
    let divisor := 2 * cwnd v in
    Z.max (Z.min ((numerator + divisor / 2) / divisor) U32_MAX) 1.

Definition sendme_per_cwnd (v : t) : Z :=
  let acks := (cwnd v + sendme_inc v / 2) / sendme_inc v in
  Z.max (Z.min acks U32_MAX) 1.

Definition cwnd_update_rate (v : t) : Z :=
  if in_slow_start v then 1 else
  let step := Z.max (CcParams.cwnd_inc_rate (params v)) 1 * sendme_inc v in
  let rate := (cwnd v + step / 2) / step in
  Z.max (Z.min rate U32_MAX) 1.

Definition new (params : CcParams.t) (sendme_inc : Z) : t :=
  let sendme_inc := Z.max sendme_inc 1 in
  let vegas :=
    {| params := params; sendme_inc := sendme_inc; cwnd := 0; sent := 0; acked := 0;
       in_slow_start := true; cwnd_full := false; next_cc_event := 0;
       next_cwnd_event := 0; marks := []; ewma_rtt_us := 0; min_rtt_us := 0;
       bdp := 0; clock_broken := false |} in
  let vegas := vegas{{cwnd := clamp_cwnd vegas (CcParams.cwnd_init params)}} in
  let vegas := vegas{{next_cc_event := cwnd_update_rate vegas}} in
  vegas{{next_cwnd_event := sendme_per_cwnd vegas}}.

Definition on_send (v : t) (now : Z) : t :=
  let v := v{{sent := sent v + 1}} in
  if sent v mod sendme_inc v =? 0 then v{{marks := marks v ++ [now] }} else v.

(** [N_EWMA]. *)
Definition ewma_n (v : t) : Z :=
  if in_slow_start v then Z.max (CcParams.ewma_ss (params v)) 2
  else
    let rate := cwnd_update_rate v in
    Z.max (Z.min (rate * CcParams.ewma_cwnd_pct (params v) / 100) (CcParams.ewma_max (params v))) 2.

(** *** [update_rtt], one definition per paragraph of its body *)

(** The clock heuristics: whether a non-zero sample is a measurement. *)
Definition judge (v : t) (rtt_us : Z) : t * bool :=
  if negb (ewma_rtt_us v =? 0) && negb (in_slow_start v) then
    if sat_mul U64_MAX (ewma_rtt_us v) CLOCK_JUMP_RATIO <? rtt_us then (v, false)
    else if sat_mul U64_MAX rtt_us CLOCK_JUMP_RATIO <? ewma_rtt_us v then
      if clock_broken v then (v, false) else (v, true)
    else (v{{clock_broken := false}}, true)
  else (v, true).

Definition smooth (v : t) (rtt_us : Z) : t :=
  v{{ewma_rtt_us :=
    if ewma_rtt_us v =? 0 then rtt_us
    else
      let n := ewma_n v in
      let smoothed := (rtt_us * 2 + ewma_rtt_us v * (n - 1)) / (n + 1) in
      Z.min smoothed U64_MAX}}.

Definition track_min (v : t) : t :=
  if (min_rtt_us v =? 0) || (ewma_rtt_us v <? min_rtt_us v)
  then v{{min_rtt_us := ewma_rtt_us v}} else v.

Definition estimate_bdp (v : t) : t :=
  if negb (ewma_rtt_us v =? 0) then
    v{{bdp := Z.min (cwnd v * min_rtt_us v / ewma_rtt_us v) U32_MAX}}
  else v.

(** [update_rtt]: the new state, and whether the sample is usable. *)
Definition update_rtt (v : t) (rtt_us : Z) : t * bool :=
  if rtt_us =? 0 then (v{{clock_broken := true}}, false) else
  match judge v rtt_us with
  | (v, false) => (v, false)
  | (v, true) => (estimate_bdp (track_min (smooth v rtt_us)), true)
  end.

(** *** [vegas_update], one definition per paragraph of its body *)

(** Whether the window was seen full during the period. *)
Definition note_full (v : t) : t :=
  if cwnd_is_full v then v{{cwnd_full := true}}
  else if cwnd_is_nonfull v then v{{cwnd_full := false}} else v.

(** The slow-start branch. *)
Definition slow_start_step (queue_use : Z) (v : t) : t :=
  let p := params v in
  let v :=
    if queue_use <? CcParams.vegas_gamma p then
      if cwnd_full v then
        let inc := rfc3742_ss_inc v in
        let v := v{{cwnd := clamp_cwnd v (sat_add U32_MAX (cwnd v) inc)}} in
        if inc * sendme_per_cwnd v <=? CcParams.cwnd_inc p * CcParams.cwnd_inc_rate p
        then v{{in_slow_start := false}} else v
      else v
    else
      let v := v{{in_slow_start := false}} in
      v{{cwnd := clamp_cwnd v (sat_add U32_MAX (bdp v) (CcParams.vegas_gamma p))}} in
  if CcParams.ss_max p <=? cwnd v then
    let v := v{{cwnd := clamp_cwnd v (CcParams.ss_max p)}} in
    v{{in_slow_start := false}}
  else v.

(** The steady-state branch, before the unconditional clamp. *)
Definition steady_step (queue_use : Z) (v : t) : t :=
  let p := params v in
  if CcParams.vegas_delta p <? queue_use then
    v{{cwnd := sat_sub (sat_add U32_MAX (bdp v) (CcParams.vegas_delta p))
                 (CcParams.cwnd_inc p)}}
  else if CcParams.vegas_beta p <? queue_use then
    v{{cwnd := sat_sub (cwnd v) (CcParams.cwnd_inc p)}}
  else if cwnd_full v && (queue_use <? CcParams.vegas_alpha p) then
    v{{cwnd := sat_add U32_MAX (cwnd v) (CcParams.cwnd_inc p)}}
  else v.

(** A window pinned at the floor moves RTT_min towards the smoothed RTT. *)
Definition reset_min_rtt (v : t) : t :=
  let p := params v in
  if negb (in_slow_start v) && (cwnd v =? clamp_cwnd v (CcParams.cwnd_min p)) then
    let pct := Z.min (CcParams.rtt_reset_pct p) 100 in
    let kept := sat_mul U64_MAX (min_rtt_us v / 100) (100 - pct) in
    let fresh := sat_mul U64_MAX (ewma_rtt_us v / 100) pct in
    v{{min_rtt_us := Z.max (sat_add U64_MAX kept fresh) 1}}
  else v.

(** Re-arm the period counters and start the new period. *)
Definition rearm (v : t) : t :=
  let p := params v in
  let v :=
    if next_cc_event v =? 0 then v{{next_cc_event := cwnd_update_rate v}} else v in
  let v :=
    if next_cwnd_event v =? 0 then v{{next_cwnd_event := sendme_per_cwnd v}} else v in
  if CcParams.cwnd_full_per_cwnd p then
    if next_cwnd_event v =? sendme_per_cwnd v then v{{cwnd_full := false}} else v
  else
    if next_cc_event v =? cwnd_update_rate v then v{{cwnd_full := false}} else v.

(** The Vegas rules, run once per usable SENDME. *)
Definition vegas_update (v : t) : t :=
  let queue_use := sat_sub (cwnd v) (bdp v) in
  let v := note_full v in
  let v :=
    if in_slow_start v then slow_start_step queue_use v
    else if next_cc_event v =? 0 then steady_step queue_use v
    else v in
  let v := v{{cwnd := clamp_cwnd v (cwnd v)}} in
  rearm (reset_min_rtt v).

(** The clock sample of a SENDME: pop the oldest mark and measure it. *)
Definition sample (v : t) (now : Z) : t * bool :=
  match marks v with
  | sent_at :: rest =>
      let v := v{{marks := rest}} in
      if sent_at <=? now
      then update_rtt v (Z.min ((now - sent_at) / 1000) U64_MAX)
      else (v{{clock_broken := true}}, false)
  | [] => (v, false)
  end.

Definition on_sendme (v : t) (now : Z) : result t :=
  if sat_sub (sent v) (acked v) <? sendme_inc v then
    Err (invalid_data "SENDME acknowledged cells that were never sent")
  else
    let v := v{{next_cc_event := sat_sub (next_cc_event v) 1}} in
    let v := v{{next_cwnd_event := sat_sub (next_cwnd_event v) 1}} in
    let '(v, usable) := sample v now in
    let v := if usable then vegas_update v else v in
    Ok (v{{acked := acked v + sendme_inc v}}).

End Vegas.

(** ** The receiving side *)

Module DeliverCounter.

Record t := Mk { inc : Z; seen : Z }.

Definition new (sendme_inc : Z) : t := Mk (Z.max sendme_inc 1) 0.

Definition on_data (c : t) : t * bool :=
  let c := c{{seen := seen c + 1}} in
  if seen c <? inc c then (c, false) else (c{{seen := 0}}, true).

End DeliverCounter.

(** ** Parameters stay in the ranges of the proposal *)

(** The ranges of [cc.rs]'s own comments, one per field. *)
Definition params_in_range (p : CcParams.t) : bool :=
  ((CcParams.alg p =? 0) || (CcParams.alg p =? 2)) &&
  forallb (fun '(v, low, high) => (low <=? v) && (v <=? high))
    [(CcParams.p_sendme_inc p, 1, 254); (CcParams.xoff_client p, 1, 10000);
     (CcParams.cwnd_init p, 31, 10000); (CcParams.cwnd_min p, 31, 1000);
     (CcParams.cwnd_max p, 500, INT32_MAX); (CcParams.cwnd_inc p, 1, 1000);
     (CcParams.cwnd_inc_rate p, 1, 250); (CcParams.cwnd_inc_pct_ss p, 1, 500);
     (CcParams.ewma_cwnd_pct p, 1, 255); (CcParams.ewma_max p, 2, INT32_MAX);
     (CcParams.ewma_ss p, 2, INT32_MAX); (CcParams.rtt_reset_pct p, 0, 100);
     (CcParams.vegas_alpha p, 0, 1000); (CcParams.vegas_beta p, 0, 1000);
     (CcParams.vegas_gamma p, 0, 1000); (CcParams.vegas_delta p, 0, INT32_MAX);
     (CcParams.ss_cap p, 100, INT32_MAX); (CcParams.ss_max p, 500, INT32_MAX);
     (CcParams.cwnd_full_gap p, 0, 32767); (CcParams.cwnd_full_minpct p, 0, 100)].

Lemma bounded_range max value low high v :
  CcParams.bounded max value low high = Some v -> (low <=? v) && (v <=? high) = true.
Proof. unfold CcParams.bounded. intros H. res_inv. subst. lia. Qed.

Lemma if_let_params (P : CcParams.t -> Prop) o set out :
  P out -> (forall v, o = Some v -> P (set v)) -> P (CcParams.if_let o set out).
Proof. destruct o; cbn; auto. Qed.

Lemma set_param_in_range out key value :
  params_in_range out = true -> params_in_range (CcParams.set_param out key value) = true.
Proof.
  intros H. unfold CcParams.set_param. cbv zeta.
  repeat lazymatch goal with
  | |- context [if bytes_eqb key ?s then _ else _] => destruct (bytes_eqb key s)
  | |- _ = true => first [exact H | apply (if_let_params (fun p => params_in_range p = true));
      [exact H|]; intros v Hv]
  end.
  all: first [apply bounded_range in Hv | res_inv; simplify_eq].
  all: destruct out; unfold params_in_range in *; cbn [forallb CcParams.alg] in *.
  all: cbn in *.
  all: repeat match goal with
       | K : (_ && _)%bool = true |- _ => apply andb_prop in K as [? ?]
       | |- (_ && _)%bool = true => apply andb_true_intro; split
       end; assumption.
Qed.

Lemma defaults_in_range pos : params_in_range (CcParams.defaults pos) = true.
Proof. by destruct pos. Qed.

Lemma parse_field_in_range mine out field :
  params_in_range out = true -> params_in_range (CcParams.parse_field mine out field) = true.
Proof.
  intros H. unfold CcParams.parse_field.
  repeat case_match; auto using set_param_in_range.
Qed.

(** ** What every operation leaves alone *)

(** The clamp's interval. *)
Definition cwnd_floor (p : CcParams.t) : Z :=
  Z.min (Z.max (CcParams.cwnd_min p) 1) (Z.max (CcParams.cwnd_max p) 1).
Definition cwnd_ceiling (p : CcParams.t) : Z := Z.max (CcParams.cwnd_max p) 1.

(** The accounting part of the state, which the Vegas rules never touch. *)
Definition acct (v : Vegas.t) : CcParams.t * Z * Z * Z * list Z :=
  (Vegas.params v, Vegas.sendme_inc v, Vegas.sent v, Vegas.acked v, Vegas.marks v).

Section vegas.
Import Vegas.
Implicit Types v : Vegas.t.

Lemma clamp_range v c :
  cwnd_floor (params v) <= clamp_cwnd v c <= cwnd_ceiling (params v).
Proof. unfold clamp_cwnd, cwnd_floor, cwnd_ceiling. lia. Qed.

Lemma clamp_id v c :
  cwnd_floor (params v) <= c <= cwnd_ceiling (params v) -> clamp_cwnd v c <= c.
Proof. unfold clamp_cwnd, cwnd_floor, cwnd_ceiling. lia. Qed.

Lemma acct_note_full v : acct (note_full v) = acct v.
Proof. unfold note_full. by repeat case_match. Qed.
Lemma acct_slow_start_step q v : acct (slow_start_step q v) = acct v.
Proof. unfold slow_start_step. cbv zeta. by repeat case_match. Qed.
Lemma acct_steady_step q v : acct (steady_step q v) = acct v.
Proof. unfold steady_step. cbv zeta. by repeat case_match. Qed.
Lemma acct_reset_min_rtt v : acct (reset_min_rtt v) = acct v.
Proof. unfold reset_min_rtt. cbv zeta. by repeat case_match. Qed.
Lemma acct_rearm v : acct (rearm v) = acct v.
Proof. unfold rearm. cbv zeta. by repeat case_match. Qed.
Lemma acct_update_rtt v rtt : acct (fst (update_rtt v rtt)) = acct v.
Proof.
  unfold update_rtt. case_match; [done|].
  destruct (judge v rtt) as [w b] eqn:E. assert (acct w = acct v) as Hw.
  { unfold judge in E. by repeat case_match; simplify_eq. }
  destruct b; [|done]. cbn [fst]. unfold estimate_bdp, track_min.
  by repeat case_match.
Qed.

Lemma acct_vegas_update v : acct (vegas_update v) = acct v.
Proof.
  unfold vegas_update. rewrite acct_rearm, acct_reset_min_rtt.
  rewrite <- (acct_note_full v). cbn zeta.
  set (w := if in_slow_start _ then _ else _).
  change (acct w = acct (note_full v)). unfold w.
  case_match; [apply acct_slow_start_step|case_match; [apply acct_steady_step|done]].
Qed.

Lemma acct_sample v now v' b :
  sample v now = (v', b) ->
  acct v' = (params v, sendme_inc v, sent v, acked v, tail (marks v)).
Proof.
  unfold sample. intros H. destruct (marks v) as [|t ms] eqn:E.
  - injection H as <- <-. unfold acct. by rewrite E.
  - destruct (t <=? now).
    + apply (f_equal fst) in H. cbn in H. rewrite <- H. by rewrite acct_update_rtt.
    + by injection H as <- <-.
Qed.

(** *** Round-trip estimates *)

Definition rtt_ok v : Prop := 0 <= ewma_rtt_us v /\ 0 <= min_rtt_us v /\ 0 <= bdp v.

Lemma ewma_n_ge_2 v : 2 <= ewma_n v.
Proof. unfold ewma_n. case_match; lia. Qed.

Lemma smoothed_pos rtt ewma n :
  1 <= rtt -> 1 <= ewma -> 2 <= n -> 1 <= (rtt * 2 + ewma * (n - 1)) / (n + 1).
Proof. intros. apply Z.div_le_lower_bound; nia. Qed.

(** The window part of the state, which the round-trip code never touches. *)
Definition window v : Z * bool * bool := (cwnd v, in_slow_start v, cwnd_full v).

Lemma judge_spec v rtt v' b :
  judge v rtt = (v', b) ->
  window v' = window v /\ ewma_rtt_us v' = ewma_rtt_us v /\ min_rtt_us v' = min_rtt_us v /\
  bdp v' = bdp v.
Proof. unfold judge. intros H. by repeat case_match; simplify_eq. Qed.

(** A usable sample leaves a positive smoothed RTT, RTT_min at most it, and
    so a BDP estimate that does not exceed the window. *)
Lemma smooth_spec v rtt :
  1 <= rtt <= U64_MAX -> 0 <= ewma_rtt_us v ->
  1 <= ewma_rtt_us (smooth v rtt) /\ window (smooth v rtt) = window v /\
  min_rtt_us (smooth v rtt) = min_rtt_us v.
Proof.
  intros Hr He. split; [|done]. cbn. unfold U64_MAX in *.
  pose proof (ewma_n_ge_2 v) as Hn. destruct (Z.eqb_spec (ewma_rtt_us v) 0); [lia|].
  pose proof (smoothed_pos rtt (ewma_rtt_us v) (ewma_n v)). lia.
Qed.

Lemma track_min_spec v :
  0 <= min_rtt_us v -> 1 <= ewma_rtt_us v ->
  0 <= min_rtt_us (track_min v) <= ewma_rtt_us v /\ window (track_min v) = window v /\
  ewma_rtt_us (track_min v) = ewma_rtt_us v.
Proof.
  intros. unfold track_min. destruct (_ || _) eqn:E; cbn.
  - repeat split; lia.
  - b2p. repeat split; lia.
Qed.

Lemma estimate_bdp_spec v :
  0 <= min_rtt_us v <= ewma_rtt_us v -> 1 <= ewma_rtt_us v -> 0 <= cwnd v ->
  0 <= bdp (estimate_bdp v) <= cwnd v /\ window (estimate_bdp v) = window v /\
  ewma_rtt_us (estimate_bdp v) = ewma_rtt_us v /\ min_rtt_us (estimate_bdp v) = min_rtt_us v.
Proof.
  intros. unfold estimate_bdp. destruct (Z.eqb_spec (ewma_rtt_us v) 0); [lia|].
  cbn. unfold U32_MAX. split; [|done].
  assert (0 <= cwnd v * min_rtt_us v / ewma_rtt_us v) by (apply Z.div_pos; nia).
  assert (cwnd v * min_rtt_us v / ewma_rtt_us v <= cwnd v) by (apply Z.div_le_upper_bound; nia).
  lia.
Qed.

Lemma update_rtt_spec v rtt v' b :
  update_rtt v rtt = (v', b) -> 0 <= rtt <= U64_MAX -> rtt_ok v -> 0 <= cwnd v ->
  rtt_ok v' /\ window v' = window v /\ (b = true -> bdp v' <= cwnd v').
Proof.
  intros H Hr (He & Hm & Hb) Hc. unfold update_rtt in H.
  destruct (Z.eqb_spec rtt 0) as [->|Hr0]; [by simplify_eq/=|].
  destruct (judge v rtt) as [w [|]] eqn:E;
    apply judge_spec in E as (W0 & E1 & E2 & E3); injection H as <- <-.
  2: { unfold rtt_ok. split_and!; (lia || done). }
  destruct (smooth_spec w rtt ltac:(lia) ltac:(lia)) as (S1 & W1 & S2).
  destruct (track_min_spec (smooth w rtt) ltac:(lia) S1) as (T1 & W2 & T2).
  assert (Hc' : 0 <= cwnd (track_min (smooth w rtt))).
  { assert (window (track_min (smooth w rtt)) = window v) as Hw by congruence.
    unfold window in Hw. by injection Hw as -> _ _. }
  destruct (estimate_bdp_spec (track_min (smooth w rtt)) ltac:(lia) ltac:(lia) Hc')
    as (B1 & W3 & B2 & B3).
  unfold rtt_ok. rewrite W3, W2, W1, W0, B2, B3, T2. split; [lia|]. split; [done|].
  intros _. unfold window in W3. injection W3 as -> _ _. lia.
Qed.

(** *** How the window moves *)

(** What the Vegas rules rely on: a window in range, a BDP estimate that
    does not exceed it, and the signs of the parameters. *)
Record rules_ok v : Prop := {
  rk_range : cwnd_floor (params v) <= cwnd v <= cwnd_ceiling (params v);
  rk_bdp : 0 <= bdp v <= cwnd v;
  rk_inc : 1 <= sendme_inc v;
  rk_params : params_in_range (params v) = true;
}.

Lemma params_signs p :
  params_in_range p = true ->
  1 <= CcParams.cwnd_inc p /\ 0 <= CcParams.vegas_gamma p /\
  0 <= CcParams.vegas_delta p /\ 100 <= CcParams.ss_cap p /\
  1 <= CcParams.cwnd_inc_pct_ss p /\ CcParams.cwnd_max p <= INT32_MAX.
Proof.
  unfold params_in_range. cbn. intros H.
  repeat match goal with K : (_ && _)%bool = true |- _ => apply andb_prop in K as [? ?] end.
  b2p. lia.
Qed.

Lemma cwnd_floor_pos p : 1 <= cwnd_floor p.
Proof. unfold cwnd_floor. lia. Qed.

Lemma clamp_le v c : clamp_cwnd v c <= Z.max c (cwnd_floor (params v)).
Proof. unfold clamp_cwnd, cwnd_floor. lia. Qed.

Lemma clamp_params w v c : params w = params v -> clamp_cwnd w c = clamp_cwnd v c.
Proof. unfold clamp_cwnd. by intros ->. Qed.

Lemma rfc3742_ss_inc_nonneg v :
  cwnd_floor (params v) <= cwnd v -> 1 <= sendme_inc v ->
  params_in_range (params v) = true -> 0 <= rfc3742_ss_inc v.
Proof.
  intros Hf Hi Hp. apply params_signs in Hp as (_ & _ & _ & Hs & Hq & _).
  pose proof (cwnd_floor_pos (params v)). unfold rfc3742_ss_inc, U32_MAX. case_match; [|lia].
  pose proof (Z.div_pos (CcParams.cwnd_inc_pct_ss (params v) * sendme_inc v + 50) 100).
  nia.
Qed.

(** The most one SENDME may add, and whether the window was seen full. *)
Definition growth_cap v : Z :=
  if in_slow_start v then rfc3742_ss_inc v else CcParams.cwnd_inc (params v).
Definition seen_full v : bool := cwnd_full v || cwnd_is_full v.

Lemma growth_cap_nonneg v :
  cwnd_floor (params v) <= cwnd v -> 1 <= sendme_inc v ->
  params_in_range (params v) = true -> 0 <= growth_cap v.
Proof.
  intros. unfold growth_cap. case_match; [by apply rfc3742_ss_inc_nonneg|].
  pose proof (params_signs (params v) ltac:(done)). lia.
Qed.

(** [w] follows [v] by a move the rules allow, growing by at most [inc] and
    only when [full] holds. *)
Definition allowed (v w : Vegas.t) (inc : Z) (full : bool) : Prop :=
  cwnd w <= cwnd v + inc /\ (cwnd v < cwnd w -> full = true) /\
  (in_slow_start v = false -> in_slow_start w = false).

Ltac vsimpl :=
  cbn [apply_update constant params sendme_inc cwnd sent acked in_slow_start cwnd_full
       next_cc_event next_cwnd_event marks ewma_rtt_us min_rtt_us bdp clock_broken] in *.

Lemma slow_start_step_allowed v :
  rules_ok v ->
  allowed v (slow_start_step (sat_sub (cwnd v) (bdp v)) v) (rfc3742_ss_inc v) (cwnd_full v).
Proof.
  intros [Hr Hb Hi Hp]. pose proof (rfc3742_ss_inc_nonneg v ltac:(lia) Hi Hp) as Hinc.
  apply params_signs in Hp as (_ & Hg & _).
  pose proof (clamp_le v (sat_add U32_MAX (cwnd v) (rfc3742_ss_inc v))) as C1.
  pose proof (clamp_le v (sat_add U32_MAX (bdp v) (CcParams.vegas_gamma (params v)))) as C2.
  pose proof (clamp_le v (CcParams.ss_max (params v))) as C3.
  unfold slow_start_step, allowed. cbv zeta. unfold sat_add, sat_sub in *.
  destruct (Z.ltb_spec (Z.max 0 (cwnd v - bdp v)) (CcParams.vegas_gamma (params v))).
  all: set (ss_max := CcParams.ss_max (params v)) in *.
  - destruct (cwnd_full v).
    + destruct (_ * _ <=? CcParams.cwnd_inc _ * _);
        match goal with |- context [?a <=? ?b] => destruct (Z.leb_spec a b) end;
        vsimpl; rewrite ?(clamp_params (Mk _ _ _ _ _ _ _ _ _ _ _ _ _ _) v) by done;
        repeat split; try done; lia.
    + destruct (Z.leb_spec ss_max (cwnd v)); vsimpl; repeat split; try done; lia.
  - match goal with |- context [?a <=? ?b] => destruct (Z.leb_spec a b) end;
      vsimpl; fold (bdp v) in *; rewrite ?(clamp_params (Mk _ _ _ _ _ _ _ _ _ _ _ _ _ _) v) in * by done;
      repeat split; try done; lia.
Qed.

Lemma steady_step_allowed v :
  rules_ok v ->
  allowed v (steady_step (sat_sub (cwnd v) (bdp v)) v)
    (CcParams.cwnd_inc (params v)) (cwnd_full v).
Proof.
  intros [Hr Hb Hi Hp]. apply params_signs in Hp as (Hc & _ & Hd & _).
  unfold steady_step, allowed, sat_sub, sat_add. cbv zeta.
  repeat (case_match; b2p); vsimpl; repeat split; try done; lia.
Qed.

Lemma cwnd_rearm_reset v :
  cwnd (rearm (reset_min_rtt v)) = cwnd v /\
  in_slow_start (rearm (reset_min_rtt v)) = in_slow_start v.
Proof.
  assert (cwnd (reset_min_rtt v) = cwnd v /\
          in_slow_start (reset_min_rtt v) = in_slow_start v) as [<- <-].
  { unfold reset_min_rtt. cbv zeta. by case_match. }
  unfold rearm. cbv zeta. by repeat case_match.
Qed.

Lemma note_full_spec v :
  rules_ok v -> rules_ok (note_full v) /\ cwnd (note_full v) = cwnd v /\
  bdp (note_full v) = bdp v /\ in_slow_start (note_full v) = in_slow_start v /\
  params (note_full v) = params v /\ rfc3742_ss_inc (note_full v) = rfc3742_ss_inc v /\
  (cwnd_full (note_full v) = true -> cwnd_full v || cwnd_is_full v = true).
Proof.
  intros [Hr Hb Hi Hp]. unfold note_full.
  destruct (cwnd_is_full v), (cwnd_is_nonfull v); cbn;
    repeat split; try done; try tauto; by rewrite ?orb_true_r, ?orb_false_r.
Qed.

Lemma vegas_update_allowed v :
  rules_ok v ->
  allowed v (vegas_update v) (growth_cap v) (seen_full v) /\
  cwnd_floor (params v) <= cwnd (vegas_update v) <= cwnd_ceiling (params v).
Proof.
  intros Hv. unfold vegas_update. cbv zeta.
  destruct (note_full_spec v Hv) as (Hn & E1 & E2 & E3 & E4 & E5 & E6).
  set (n := note_full v) in *. rewrite <- E1, <- E2.
  set (w := if in_slow_start n then _ else _).
  destruct (cwnd_rearm_reset (w{{cwnd := clamp_cwnd w (cwnd w)}})) as [F1 F2].
  assert (Hw : params w = params v).
  { rewrite <- E4. unfold w. destruct (in_slow_start n); [|destruct (_ =? _); [|done]].
    - pose proof (acct_slow_start_step (sat_sub (cwnd n) (bdp n)) n) as A.
      unfold acct in A. by injection A.
    - pose proof (acct_steady_step (sat_sub (cwnd n) (bdp n)) n) as A.
      unfold acct in A. by injection A. }
  assert (Ha : allowed n w (growth_cap v) (cwnd_full n)).
  { unfold w, growth_cap. rewrite E3. destruct (in_slow_start v).
    - rewrite <- E5. by apply slow_start_step_allowed.
    - rewrite <- E4. destruct (_ =? _); [by apply steady_step_allowed|].
      pose proof (params_signs _ (rk_params _ Hn)). unfold allowed. repeat split; try done; lia. }
  pose proof (clamp_le w (cwnd w)) as C. pose proof (clamp_range w (cwnd w)) as R.
  pose proof (growth_cap_nonneg v ltac:(apply Hv) (rk_inc _ Hv) (rk_params _ Hv)).
  rewrite Hw in C, R. pose proof (rk_range _ Hv). destruct Ha as (A1 & A2 & A3).
  unfold allowed. rewrite F1, F2. cbn.
  split; [split_and!|done].
  - lia.
  - intros. apply E6, A2. lia.
  - by rewrite <- E3.
Qed.

(** *** The whole of [on_sendme] *)

Definition rtts v : Z * Z := (ewma_rtt_us v, bdp v).

Lemma rtts_vegas_update v :
  rtts (vegas_update v) = rtts v /\
  (min_rtt_us (vegas_update v) = min_rtt_us v \/ 1 <= min_rtt_us (vegas_update v)).
Proof.
  assert (forall w, rtts (rearm w) = rtts w /\ min_rtt_us (rearm w) = min_rtt_us w) as R1.
  { intros w. unfold rearm. cbv zeta. by repeat case_match. }
  assert (forall w, rtts (reset_min_rtt w) = rtts w /\
    (min_rtt_us (reset_min_rtt w) = min_rtt_us w \/ 1 <= min_rtt_us (reset_min_rtt w))) as R2.
  { intros w. unfold reset_min_rtt. cbv zeta. case_match; [|tauto]. vsimpl.
    split; [done|]. right. lia. }
  assert (forall w, rtts (note_full w) = rtts w /\ min_rtt_us (note_full w) = min_rtt_us w) as R3.
  { intros w. unfold note_full. by repeat case_match. }
  assert (forall q w, rtts (slow_start_step q w) = rtts w /\
            min_rtt_us (slow_start_step q w) = min_rtt_us w) as R4.
  { intros q w. unfold slow_start_step. cbv zeta. by repeat case_match. }
  assert (forall q w, rtts (steady_step q w) = rtts w /\
            min_rtt_us (steady_step q w) = min_rtt_us w) as R5.
  { intros q w. unfold steady_step. cbv zeta. by repeat case_match. }
  unfold vegas_update. cbv zeta. set (w := if in_slow_start _ then _ else _).
  assert (rtts w = rtts v /\ min_rtt_us w = min_rtt_us v) as [<- <-].
  { destruct (R3 v) as [<- <-]. unfold w. by repeat case_match. }
  set (u := w{{cwnd := _}}). destruct (R1 (reset_min_rtt u)) as [-> ->].
  exact (R2 u).
Qed.

Lemma rtt_ok_vegas_update v : rtt_ok v -> rtt_ok (vegas_update v).
Proof.
  unfold rtt_ok. destruct (rtts_vegas_update v) as [E M]. unfold rtts in E.
  injection E as -> ->. lia.
Qed.

Lemma sample_spec v now v' b :
  sample v now = (v', b) -> rtt_ok v -> 0 <= cwnd v ->
  rtt_ok v' /\ window v' = window v /\ (b = true -> bdp v' <= cwnd v').
Proof.
  unfold sample. intros H Hr Hc. destruct (marks v) as [|t ms]; [by simplify_eq|].
  destruct (Z.leb_spec t now); [|by simplify_eq].
  apply update_rtt_spec in H; [done| |done|done].
  pose proof (Z.div_pos (now - t) 1000). unfold U64_MAX. lia.
Qed.

(** The state in which a sender's circuit finds itself. *)
Record vegas_ok v : Prop := {
  vk_range : cwnd_floor (params v) <= cwnd v <= cwnd_ceiling (params v);
  vk_rtt : rtt_ok v;
  vk_inc : 1 <= sendme_inc v;
  vk_params : params_in_range (params v) = true;
}.

(** Sampling keeps everything the rules read besides the estimates. *)
Lemma sample_keeps v now v' b :
  sample v now = (v', b) -> rtt_ok v -> 0 <= cwnd v ->
  growth_cap v' = growth_cap v /\ seen_full v' = seen_full v /\
  cwnd v' = cwnd v /\ in_slow_start v' = in_slow_start v.
Proof.
  intros H Ht Hc. pose proof (acct_sample _ _ _ _ H) as A.
  destruct (sample_spec _ _ _ _ H Ht Hc) as (_ & W & _).
  unfold acct in A. injection A as A1 A2 A3 A4 A5.
  unfold window in W. injection W as W1 W2 W3.
  unfold growth_cap, seen_full, rfc3742_ss_inc, cwnd_is_full, inflight.
  by rewrite W1, W2, W3, A1, A2, A3, A4.
Qed.

(** Sampling and then, if the sample is usable, the Vegas rules. *)
Lemma sample_update_spec v now v' b :
  vegas_ok v -> sample v now = (v', b) ->
  let w := if b then vegas_update v' else v' in
  vegas_ok w /\ allowed v w (growth_cap v) (seen_full v) /\
  acct w = (params v, sendme_inc v, sent v, acked v, tail (marks v)).
Proof.
  intros [Hr Ht Hi Hp] H w. pose proof (cwnd_floor_pos (params v)).
  pose proof (acct_sample _ _ _ _ H) as A.
  destruct (sample_spec _ _ _ _ H Ht ltac:(lia)) as (T & _ & B).
  destruct (sample_keeps _ _ _ _ H Ht ltac:(lia)) as (K1 & K2 & K3 & K4).
  assert (Aw : acct w = acct v') by (unfold w; destruct b; [apply acct_vegas_update|done]).
  rewrite A in Aw. split_and!; [| |done].
  - unfold acct in A, Aw. injection A as A1 A2 _ _ _. injection Aw as P1 P2 _ _ _.
    split; rewrite ?P1, ?P2; [| |done|done]; unfold w; destruct b; [|by rewrite K3| |done].
    + rewrite <- A1. apply vegas_update_allowed. split; rewrite ?A1, ?A2, ?K3; try done.
      rewrite <- K3. split; [apply T|auto].
    + by apply rtt_ok_vegas_update.
  - unfold acct in A. injection A as A1 A2 _ _ _. unfold w. destruct b.
    + rewrite <- K1, <- K2. unfold allowed. rewrite <- K3, <- K4.
      apply vegas_update_allowed. split; rewrite ?A1, ?A2, ?K3; try done.
      rewrite <- K3. split; [apply T|auto].
    + unfold allowed. rewrite K3, K4. pose proof (growth_cap_nonneg v ltac:(lia) Hi Hp).
      repeat split; [|lia|done]. lia.
Qed.

Lemma on_sendme_spec v now v' :
  vegas_ok v -> on_sendme v now = Ok v' ->
  sendme_inc v <= sent v - acked v /\ vegas_ok v' /\
  allowed v v' (growth_cap v) (seen_full v) /\
  acct v' = (params v, sendme_inc v, sent v, acked v + sendme_inc v, tail (marks v)).
Proof.
  intros Hv H. unfold on_sendme in H. cbv zeta in H.
  destruct (Z.ltb_spec (sat_sub (sent v) (acked v)) (sendme_inc v)) as [|Hs]; [done|].
  pose proof (vk_inc _ Hv). split; [unfold sat_sub in Hs; lia|].
  set (v1 := v{{next_cc_event := _}}{{next_cwnd_event := _}}) in H.
  destruct (sample v1 now) as [v2 b] eqn:E. injection H as <-.
  assert (Hv1 : vegas_ok v1) by (destruct Hv; by split).
  destruct (sample_update_spec _ _ _ _ Hv1 E) as (W1 & W2 & W3).
  set (w := if b then _ else _) in *. unfold acct in W3. injection W3 as P1 P2 P3 P4 P5.
  split; [|split].
  - destruct W1. by split.
  - exact W2.
  - change ((params w, sendme_inc w, sent w, acked w + sendme_inc w, marks w) =
      (params v, sendme_inc v, sent v, acked v + sendme_inc v, tail (marks v))).
    by rewrite P1, P2, P3, P4, P5.
Qed.

Lemma new_vegas_ok p i : params_in_range p = true -> vegas_ok (new p i).
Proof.
  intros Hp. unfold new. cbv zeta. split; vsimpl.
  - apply (clamp_range (Mk p _ _ _ _ _ _ _ _ _ _ _ _ _)).
  - unfold rtt_ok. vsimpl. lia.
  - lia.
  - done.
Qed.

Lemma acct_new p i : acct (new p i) = (p, Z.max i 1, 0, 0, []).
Proof. done. Qed.

Lemma on_send_spec v now :
  let ms := if (sent v + 1) mod sendme_inc v =? 0 then marks v ++ [now] else marks v in
  acct (on_send v now) = (params v, sendme_inc v, sent v + 1, acked v, ms) /\
  window (on_send v now) = window v /\ (vegas_ok v -> vegas_ok (on_send v now)).
Proof.
  cbv zeta. unfold on_send. vsimpl. fold (sendme_inc v).
  destruct (_ =? 0); (split; [done|]; split; [done|]); intros []; by split.
Qed.
End vegas.

(** ** Runs of a sender

    [sender p i ts n v]: the sender made by [Vegas::new(p, i)] is in state [v]
    after sending cells at the times [ts] (each one while [can_send] allowed
    it) and accepting [n] SENDMEs, interleaved in any order and at any
    clock readings. *)
Inductive sender (p : CcParams.t) (i : Z) : list Z -> nat -> Vegas.t -> Prop :=
  | sender_new : sender p i [] 0 (Vegas.new p i)
  | sender_send ts n v now :
      sender p i ts n v -> Vegas.can_send v = true ->
      sender p i (ts ++ [now]) n (Vegas.on_send v now)
  | sender_sendme ts n v now v' :
      sender p i ts n v -> Vegas.on_sendme v now = Ok v' -> sender p i ts (S n) v'.

Section runs.
Import Vegas.
Context (p : CcParams.t) (i : Z) (Hp : params_in_range p = true) (Hi : 1 <= i).

Record run_ok (ts : list Z) (n : nat) (v : Vegas.t) : Prop := {
  ro_ok : vegas_ok v;
  ro_params : params v = p;
  ro_inc : sendme_inc v = i;
  ro_sent : sent v = len ts;
  ro_acked : acked v = Z.of_nat n * i;
  ro_le : acked v <= sent v;
  ro_inflight : sent v - acked v <= cwnd_ceiling p;
  ro_marks : forall j, marks v !! j = ts !! Z.to_nat ((Z.of_nat (n + j) + 1) * i - 1);
}.

Lemma marks_length ts n v :
  run_ok ts n v -> len (marks v) = len ts / i - Z.of_nat n.
Proof.
  intros H. pose proof (ro_marks _ _ _ H) as M. pose proof (ro_le _ _ _ H) as Hle.
  rewrite (ro_acked _ _ _ H), (ro_sent _ _ _ H) in Hle.
  assert (forall j, (j < length (marks v))%nat <-> (Z.of_nat (n + j) + 1) * i <= len ts) as L.
  { intros j. rewrite <- lookup_lt_is_Some, M, lookup_lt_is_Some. unfold len. nia. }
  pose proof (Z.div_le_lower_bound (len ts) i (Z.of_nat n) ltac:(lia) ltac:(lia)) as D.
  pose proof (Z.mul_div_le (len ts) i ltac:(lia)) as Q1.
  pose proof (Z.mul_succ_div_gt (len ts) i ltac:(lia)) as Q2.
  pose proof (proj1 (L (length (marks v))%nat)) as L1.
  pose proof (proj1 (L (pred (length (marks v)))%nat)) as L2.
  pose proof (proj2 (L (Z.to_nat (len ts / i - Z.of_nat n)))) as L3.
  pose proof (proj2 (L (pred (Z.to_nat (len ts / i - Z.of_nat n))))) as L4.
  unfold len at 1. nia.
Qed.

Lemma lookup_snoc_ne {A} (l : list A) x k : k <> length l -> (l ++ [x]) !! k = l !! k.
Proof.
  intros Hk. destruct (decide (k < length l)%nat); [by apply lookup_app_l|].
  rewrite lookup_app_r, !lookup_ge_None_2 by (cbn; lia). done.
Qed.

Lemma run_ok_new : run_ok [] 0 (new p i).
Proof.
  split; try done.
  - by apply new_vegas_ok.
  - cbn. lia.
  - unfold cwnd_ceiling. cbn. lia.
Qed.

(** The send times that wait for a SENDME, after one more send. *)
Lemma marks_snoc (ts ms : list Z) (n : nat) now :
  len ms = len ts / i - Z.of_nat n ->
  (forall j, ms !! j = ts !! Z.to_nat ((Z.of_nat (n + j) + 1) * i - 1)) ->
  forall j, (if (len ts + 1) mod i =? 0 then ms ++ [now] else ms) !! j =
    (ts ++ [now]) !! Z.to_nat ((Z.of_nat (n + j) + 1) * i - 1).
Proof.
  intros ML M j.
  pose proof (Z.div_mod (len ts) i ltac:(lia)) as D.
  pose proof (Z.mod_pos_bound (len ts) i ltac:(lia)) as DB.
  destruct (Z.eqb_spec ((len ts + 1) mod i) 0) as [Em|Em].
  - assert (len ts + 1 = (len ts / i + 1) * i) as Es.
    { pose proof (Z.div_mod (len ts + 1) i ltac:(lia)) as D1. rewrite Em in D1.
      assert (len ts / i < (len ts + 1) / i) by nia.
      assert ((len ts + 1) / i < len ts / i + 2) by nia.
      replace (len ts / i + 1) with ((len ts + 1) / i) by lia. lia. }
    destruct (decide (j = length ms)) as [->|Hj].
    + rewrite list_lookup_middle by done.
      replace (Z.to_nat _) with (length ts) by (unfold len in *; nia).
      by rewrite list_lookup_middle.
    + rewrite !lookup_snoc_ne; [apply M| |done]. unfold len in *. nia.
  - rewrite M, lookup_snoc_ne; [done|]. intros Hx. apply Em.
    replace (len ts + 1) with ((Z.of_nat (n + j) + 1) * i) by (unfold len; nia).
    apply Z.mod_mul. lia.
Qed.

Lemma can_send_lt v : can_send v = true -> inflight v < cwnd v.
Proof. intros Hc. apply Z.ltb_lt in Hc. exact Hc. Qed.

Lemma ceiling_u32 q : params_in_range q = true -> cwnd_ceiling q < U32_MAX.
Proof.
  intros P. apply params_signs in P as (_ & _ & _ & _ & _ & P).
  unfold cwnd_ceiling, U32_MAX. unfold INT32_MAX in P. lia.
Qed.

Lemma can_send_below v :
  vegas_ok v -> can_send v = true -> sent v - acked v < cwnd_ceiling (params v).
Proof.
  intros [[_ R] _ _ P] Hc%can_send_lt. apply ceiling_u32 in P.
  unfold inflight, sat_sub in Hc. lia.
Qed.

Lemma run_ok_send ts n v now :
  run_ok ts n v -> can_send v = true -> run_ok (ts ++ [now]) n (on_send v now).
Proof.
  intros H Hc. pose proof (marks_length _ _ _ H) as ML. destruct H as [Hv E1 E2 E3 E4 E5 E6 M].
  destruct (on_send_spec v now) as (A & _ & Hv'). unfold acct in A.
  injection A as A1 A2 A3 A4 A5.
  pose proof (can_send_below v Hv Hc) as B. rewrite E1 in B.
  split; rewrite ?A1, ?A2, ?A3, ?A4; auto; try lia.
  - rewrite len_app, len_cons, len_nil. lia.
  - rewrite A5, E2, E3. by apply marks_snoc.
Qed.

Lemma run_ok_sendme ts n v now v' :
  run_ok ts n v -> on_sendme v now = Ok v' -> run_ok ts (S n) v'.
Proof.
  intros [Hv E1 E2 E3 E4 E5 E6 M] H.
  destruct (on_sendme_spec v now v' Hv H) as (S1 & S2 & _ & A). unfold acct in A.
  injection A as A1 A2 A3 A4 A5.
  split; rewrite ?A1, ?A2, ?A3, ?A4; auto; try lia.
  intros j. rewrite A5, lookup_tail, M. do 2 f_equal. lia.
Qed.

Lemma sender_run_ok ts n v : sender p i ts n v -> run_ok ts n v.
Proof.
  induction 1; [apply run_ok_new|by apply run_ok_send|by eapply run_ok_sendme].
Qed.
End runs.

(** ** A sender and an honest receiver

    One direction of a circuit: the sender's [Vegas], the receiver's
    [DeliverCounter], and the data cells and SENDMEs between them. *)
Record link := Link {
  snd_side : Vegas.t; rcv_side : DeliverCounter.t; cells : Z; sendmes : Z }.

Inductive link_step : link -> link -> Prop :=
  | link_send v c k m now :
      Vegas.can_send v = true ->
      link_step (Link v c k m) (Link (Vegas.on_send v now) c (k + 1) m)
  | link_deliver v c c' k m answer :
      0 < k -> DeliverCounter.on_data c = (c', answer) ->
      link_step (Link v c k m) (Link v c' (k - 1) (if answer then m + 1 else m))
  | link_sendme v c k m now v' :
      0 < m -> Vegas.on_sendme v now = Ok v' ->
      link_step (Link v c k m) (Link v' c k (m - 1)).

(** States reachable once both ends negotiated the increment [i]. *)
Definition link_reach (p : CcParams.t) (i : Z) : link -> Prop :=
  rtc link_step (Link (Vegas.new p i) (DeliverCounter.new i) 0 0).

Record link_ok (p : CcParams.t) (i : Z) (l : link) : Prop := {
  lo_vegas : vegas_ok (snd_side l);
  lo_params : Vegas.params (snd_side l) = p;
  lo_inc : Vegas.sendme_inc (snd_side l) = i;
  lo_rinc : DeliverCounter.inc (rcv_side l) = i;
  lo_seen : 0 <= DeliverCounter.seen (rcv_side l) < i;
  lo_flight : 0 <= cells l /\ 0 <= sendmes l;
  lo_balance : Vegas.sent (snd_side l) =
    Vegas.acked (snd_side l) + sendmes l * i + DeliverCounter.seen (rcv_side l) + cells l;
}.

Lemma on_data_spec c c' answer :
  DeliverCounter.on_data c = (c', answer) -> 0 <= DeliverCounter.seen c < DeliverCounter.inc c ->
  DeliverCounter.inc c' = DeliverCounter.inc c /\
  0 <= DeliverCounter.seen c' < DeliverCounter.inc c /\
  DeliverCounter.seen c + 1 =
    DeliverCounter.seen c' + (if answer then DeliverCounter.inc c else 0).
Proof.
  destruct c as [i s]. unfold DeliverCounter.on_data. cbn. intros H Hs.
  destruct (Z.ltb_spec (s + 1) i); simplify_eq; cbn; lia.
Qed.

Lemma link_ok_step p i l l' :
  params_in_range p = true -> 1 <= i -> link_ok p i l -> link_step l l' -> link_ok p i l'.
Proof.
  intros Hp Hi [Hv E1 E2 E3 E4 E5 E6] H. destruct H as [v c k m now Hc|v c c' k m a Hk Hd|v c k m now v' Hm Hs];
    cbn [snd_side rcv_side cells sendmes] in *.
  - destruct (on_send_spec v now) as (A & _ & Hv'). unfold acct in A. injection A as A1 A2 A3 A4 _.
    split; cbn [snd_side rcv_side cells sendmes]; rewrite ?A1, ?A2, ?A3, ?A4; auto; lia.
  - apply on_data_spec in Hd as (D1 & D2 & D3); [|lia].
    split; cbn [snd_side rcv_side cells sendmes]; auto; destruct a; lia.
  - destruct (on_sendme_spec v now v' Hv Hs) as (S1 & S2 & _ & A). unfold acct in A.
    injection A as A1 A2 A3 A4 _.
    split; cbn [snd_side rcv_side cells sendmes]; rewrite ?A1, ?A2, ?A3, ?A4; auto; lia.
Qed.

Lemma link_reach_ok p i l :
  params_in_range p = true -> 1 <= i -> link_reach p i l -> link_ok p i l.
Proof.
  intros Hp Hi H. unfold link_reach in H.
  remember (Link _ _ 0 0) as l0 eqn:E0 in H. assert (link_ok p i l0) as H0.
  { subst l0. split; cbn; try lia; [by apply new_vegas_ok|done]. }
  clear E0. induction H; eauto using link_ok_step.
Qed.

(** The counter after [n] data cells. *)
Definition after_data (c : DeliverCounter.t) (n : nat) : DeliverCounter.t :=
  Nat.iter n (fun c => fst (DeliverCounter.on_data c)) c.

Lemma after_data_seen i n :
  after_data (DeliverCounter.new i) n =
    DeliverCounter.Mk (Z.max i 1) (Z.of_nat n mod Z.max i 1).
Proof.
  induction n as [|n IH]; [cbn; by rewrite Z.mod_0_l by lia|].
  change (after_data _ (S n)) with
    (fst (DeliverCounter.on_data (after_data (DeliverCounter.new i) n))). rewrite IH.
  unfold DeliverCounter.on_data. cbn. rewrite Nat2Z.inj_succ. unfold Z.succ.
  set (m := Z.max i 1) in *. pose proof (Z.mod_pos_bound (Z.of_nat n) m ltac:(lia)).
  rewrite <- Zplus_mod_idemp_l. destruct (Z.ltb_spec (Z.of_nat n mod m + 1) m); cbn.
  - by rewrite (Z.mod_small (_ + 1)) by lia.
  - replace (Z.of_nat n mod m + 1) with m by lia. by rewrite Z.mod_same by lia.
Qed.

(** ** Properties *)

(** Whatever a consensus [params] line holds -- unknown names, values out
    of range or not numbers, the other position's suffix -- the parsed
    parameters are inside the ranges of the proposal, every one of them. *)
Theorem cc_params_in_range (args : bytes) (position : Position) :
  params_in_range (CcParams.parse args position) = true.
Proof.
  unfold CcParams.parse. generalize (split_whitespace args). intros fields.
  pose proof (defaults_in_range position) as H. revert H.
  generalize (CcParams.defaults position). induction fields as [|f fields IH]; cbn; [done|].
  intros q Hq. by apply IH, parse_field_in_range.
Qed.

(** C24. Accounting of a sender, for every interleaving of sends and SENDMEs at
    any clock readings: cells acknowledged never pass cells sent, what is in
    flight never exceeds the window's ceiling, a SENDME is accepted exactly
    when a whole increment is outstanding, and the queue of marks holds
    exactly the send times of the cells [(n+1)*i], [(n+2)*i], ... that the
    next SENDMEs acknowledge, so the round trip a SENDME measures is that of
    the cell that caused it. *)
Theorem cc_accounting (p : CcParams.t) (i : Z) (ts : list Z) (n : nat) (v : Vegas.t)
  (Hp : params_in_range p = true) (Hi : 1 <= i) (H : sender p i ts n v) :
  Vegas.sent v = len ts /\ Vegas.acked v = Z.of_nat n * i /\
  Vegas.acked v <= Vegas.sent v <= Vegas.acked v + cwnd_ceiling p /\
  (forall now, is_ok (Vegas.on_sendme v now) = (i <=? Vegas.sent v - Vegas.acked v)) /\
  (forall j, Vegas.marks v !! j = ts !! Z.to_nat ((Z.of_nat (n + j) + 1) * i - 1)) /\
  len (Vegas.marks v) = len ts / i - Z.of_nat n.
Proof.
  apply sender_run_ok in H; [|done..]. pose proof (marks_length p i Hi _ _ _ H) as L.
  destruct H as [_ _ E2 E3 E4 E5 E6 M].
  split_and!; auto; try lia. intros now. unfold Vegas.on_sendme. rewrite E2.
  unfold sat_sub. destruct (Z.ltb_spec (Z.max 0 (Vegas.sent v - Vegas.acked v)) i),
    (Z.leb_spec i (Vegas.sent v - Vegas.acked v)); try done; try lia.
  cbv zeta. by destruct (Vegas.sample _ now).
Qed.

(** The window of a sender stays between its floor and its ceiling; one
    SENDME adds at most the increment of the current phase, and adds anything
    only when the window was seen full; and slow start, once left, is never
    entered again. *)
Theorem cc_window (p : CcParams.t) (i : Z) (ts : list Z) (n : nat) (v : Vegas.t)
  (Hp : params_in_range p = true) (Hi : 1 <= i) (H : sender p i ts n v) :
  cwnd_floor p <= Vegas.cwnd v <= cwnd_ceiling p /\
  forall now v', Vegas.on_sendme v now = Ok v' ->
    cwnd_floor p <= Vegas.cwnd v' <= Vegas.cwnd v + growth_cap v /\
    (Vegas.cwnd v < Vegas.cwnd v' -> seen_full v = true) /\
    (Vegas.in_slow_start v = false -> Vegas.in_slow_start v' = false).
Proof.
  apply sender_run_ok in H; [|done..]. destruct H as [Hv E1 _ _ _ _ _ _].
  pose proof (vk_range _ Hv) as R. rewrite E1 in R. split; [done|].
  intros now v' Hs. apply on_sendme_spec in Hs as (_ & Hv' & (A1 & A2 & A3) & A); [|done].
  pose proof (vk_range _ Hv') as R'. unfold acct in A. injection A as A0 _ _ _ _.
  rewrite A0, E1 in R'. split_and!; auto; lia.
Qed.

(** The receiving counter asks for a SENDME at the data cells whose number is a
    multiple of the increment, and at no other. *)
Lemma deliver_counter_cadence (i : Z) (n : nat) :
  snd (DeliverCounter.on_data (after_data (DeliverCounter.new i) n)) =
    ((Z.of_nat n + 1) mod Z.max i 1 =? 0).
Proof.
  rewrite after_data_seen. unfold DeliverCounter.on_data. cbn.
  set (m := Z.max i 1) in *. pose proof (Z.mod_pos_bound (Z.of_nat n) m ltac:(lia)).
  rewrite <- Zplus_mod_idemp_l. destruct (Z.ltb_spec (Z.of_nat n mod m + 1) m); cbn.
  - rewrite (Z.mod_small (_ + 1)) by lia. symmetry. apply Z.eqb_neq. lia.
  - replace (Z.of_nat n mod m + 1) with m by lia. by rewrite Z.mod_same by lia.
Qed.

(** C25. Interoperation: between a sender and a receiver that agreed on the
    increment, no SENDME in flight is ever refused, whatever the clock says;
    and when nothing is in flight in either direction the sender may send
    again, provided the window's floor is at least one increment -- so the
    flow control cannot deadlock.  The receiver asks for a SENDME at the data
    cells whose number is a multiple of the increment, and at no other. *)
Theorem cc_honest_link (p : CcParams.t) (i : Z) (l : link)
  (Hp : params_in_range p = true) (Hi : 1 <= i) (H : link_reach p i l) :
  (0 < sendmes l -> forall now, is_ok (Vegas.on_sendme (snd_side l) now) = true) /\
  (cells l = 0 -> sendmes l = 0 -> i <= cwnd_floor p -> Vegas.can_send (snd_side l) = true) /\
  (forall n, snd (DeliverCounter.on_data (after_data (DeliverCounter.new i) n)) =
     ((Z.of_nat n + 1) mod i =? 0)).
Proof.
  apply link_reach_ok in H as [Hv E1 E2 E3 E4 E5 E6]; [|done..]. split_and!.
  - intros Hm now. unfold Vegas.on_sendme. rewrite E2. unfold sat_sub.
    destruct (Z.ltb_spec (Z.max 0 (Vegas.sent (snd_side l) - Vegas.acked (snd_side l))) i);
      [nia|]. cbv zeta. by destruct (Vegas.sample _ now).
  - intros Hc Hm Hf. pose proof (vk_range _ Hv) as R. rewrite E1 in R.
    apply Z.ltb_lt. unfold Vegas.inflight, sat_sub. nia.
  - intros n. rewrite deliver_counter_cadence. by rewrite Z.max_l by lia.
Qed.

(** ** A concrete run

    The default exit parameters with an increment of one: a cell sent at 1 us
    and its SENDME at 5 us. *)
Definition demo_sent : Vegas.t := Vegas.on_send (Vegas.new (CcParams.defaults Exit) 1) 1000.
Definition demo_acked : Vegas.t := default demo_sent (to_option (Vegas.on_sendme demo_sent 5000)).

Lemma demo_sent_sender : sender (CcParams.defaults Exit) 1 [1000] 0 demo_sent.
Proof. apply (sender_send _ _ []); [constructor|by vm_compute]. Qed.

Lemma demo_acked_sender : sender (CcParams.defaults Exit) 1 [1000] 1 demo_acked.
Proof. apply (sender_sendme _ _ _ _ demo_sent 5000); [apply demo_sent_sender|]. by vm_compute. Qed.

Lemma demo_link : link_reach (CcParams.defaults Exit) 1
  (Link demo_sent (DeliverCounter.new 1) 0 1).
Proof.
  eapply rtc_l; [by apply (link_send _ _ _ _ 1000); vm_compute|].
  eapply rtc_l; [by eapply (link_deliver _ _ (DeliverCounter.new 1) _ _ true); vm_compute|].
  apply rtc_refl.
Qed.

Lemma cc_accounting_witness :
  Vegas.acked demo_acked = 1 /\ Vegas.marks demo_acked !! 0%nat = [1000] !! 1%nat /\
  is_ok (Vegas.on_sendme demo_acked 6000) = false /\
  Vegas.marks demo_sent !! 0%nat = Some 1000.
Proof.
  destruct (cc_accounting (CcParams.defaults Exit) 1 [1000] 1 demo_acked eq_refl ltac:(lia)
    demo_acked_sender) as (_ & A & _ & B & C & _).
  destruct (cc_accounting (CcParams.defaults Exit) 1 [1000] 0 demo_sent eq_refl ltac:(lia)
    demo_sent_sender) as (_ & _ & _ & _ & D & _).
  split_and!; [exact A|exact (C 0%nat)| |exact (D 0%nat)].
  rewrite (B 6000). by vm_compute.
Defined.

Lemma cc_window_witness :
  31 <= Vegas.cwnd demo_acked <= 2147483647 /\
  Vegas.cwnd demo_acked <= Vegas.cwnd demo_sent + growth_cap demo_sent.
Proof.
  destruct (cc_window (CcParams.defaults Exit) 1 [1000] 1 demo_acked eq_refl ltac:(lia)
    demo_acked_sender) as [A _].
  destruct (cc_window (CcParams.defaults Exit) 1 [1000] 0 demo_sent eq_refl ltac:(lia)
    demo_sent_sender) as [_ B].
  destruct (B 5000 demo_acked ltac:(by vm_compute)) as ((_ & C) & _). by split.
Defined.

Lemma cc_honest_link_witness :
  is_ok (Vegas.on_sendme demo_sent 5000) = true /\
  Vegas.can_send (Vegas.new (CcParams.defaults Exit) 31) = true.
Proof.
  split.
  - destruct (cc_honest_link (CcParams.defaults Exit) 1 _ eq_refl ltac:(lia) demo_link) as (A & _).
    apply A. by vm_compute.
  - destruct (cc_honest_link (CcParams.defaults Exit) 31
      (Link (Vegas.new (CcParams.defaults Exit) 31) (DeliverCounter.new 31) 0 0)
      eq_refl ltac:(lia) ltac:(apply rtc_refl)) as (_ & A & _).
    apply A; by vm_compute.
Defined.
