(* ===== verification/Crypto.v ===== *)
(** * The cryptographic interface ([src/src/ffi/aes.rs], [src/src/ffi/hash.rs])

    OpenSSL is not part of the repository, so its primitives are the fields of
    the class [Crypto]: an AES-CTR keystream, hash functions, HMAC, X25519 and
    signature verification.  [CryptoLaws] states what the program relies on
    (output lengths, Diffie-Hellman agreement).  The Rust wrappers that keep
    state around them -- a continuous keystream and a running digest that can
    be read without ending it -- are modelled in [Ctr] and [Digest].  [Toy] is
    a concrete instance on which every definition computes. *)
From S2P Require Import Prelude.

Inductive CipherAlg := Aes128 | Aes256.
Inductive HashAlg := Sha1 | Sha256 | Sha3_256.

#[export] Instance CipherAlg_eq_dec : EqDecision CipherAlg.
Proof. solve_decision. Defined.
#[export] Instance HashAlg_eq_dec : EqDecision HashAlg.
Proof. solve_decision. Defined.

(** The number of bytes a hash produces ([Digest::output_len]). *)
Definition output_len (a : HashAlg) : Z :=
  match a with Sha1 => 20 | Sha256 | Sha3_256 => 32 end.

Class Crypto := {
  (** byte [i] of the CTR keystream of a key and an initial counter block *)
  keystream : CipherAlg -> bytes -> bytes -> nat -> Z;
  hash : HashAlg -> bytes -> bytes;
  shake256 : bytes -> Z -> bytes;
  hmac_sha256 : bytes -> bytes -> bytes;
  (** scalar multiplication; [None] for a degenerate shared secret *)
  x25519 : bytes -> bytes -> option bytes;
  (** the public key of a scalar *)
  x25519_public : bytes -> bytes;
  ed25519_verify : bytes -> bytes -> bytes -> bool;
  (** whether a DER blob is a PKCS#1 RSA public key *)
  rsa_parse : bytes -> bool;
  (** PKCS#1 signature recovery under a DER public key *)
  rsa_verify_recover : bytes -> bytes -> option bytes;
}.

Class CryptoLaws `{Crypto} : Prop := {
  keystream_u8 a key iv i : is_u8 (keystream a key iv i);
  hash_len a m : len (hash a m) = output_len a;
  hash_bytes a m : bytes_ok (hash a m);
  shake256_len m n : 0 <= n -> len (shake256 m n) = n;
  hmac_len k m : len (hmac_sha256 k m) = 32;
  x25519_public_len a : len (x25519_public a) = 32;
  x25519_len a p s : x25519 a p = Some s -> len s = 32;
  x25519_agree a b : x25519 a (x25519_public b) = x25519 b (x25519_public a);
}.

Definition sha1 `{Crypto} := hash Sha1.
Definition sha256 `{Crypto} := hash Sha256.
Definition sha3_256 `{Crypto} := hash Sha3_256.

(** ** Comparison without an early exit ([src/src/ffi/mod.rs]) *)

Definition constant_time_eq (a b : bytes) : bool :=
  if negb (len a =? len b) then false
  else fold_left (fun diff '(x, y) => Z.lor diff (Z.lxor x y)) (zip a b) 0 =? 0.

Lemma fold_diff_zero l d :
  fold_left (fun diff '(x, y) => Z.lor diff (Z.lxor x y)) l d = 0 <->
  d = 0 /\ Forall (fun p => fst p = snd p) l.
Proof.
  revert d. induction l as [|[x y] l IH]; intros d; cbn; [by rewrite Forall_nil; tauto|].
  rewrite IH, Z.lor_eq_0_iff, Z.lxor_eq_0_iff, Forall_cons. cbn. tauto.
Qed.

Lemma zip_diag (a b : bytes) :
  length a = length b -> Forall (fun p => fst p = snd p) (zip a b) <-> a = b.
Proof.
  revert b. induction a as [|x a IH]; intros [|y b]; cbn; try done.
  intros E. rewrite Forall_cons, IH by lia. cbn. naive_solver.
Qed.

(** It is equality. *)
Lemma constant_time_eq_spec a b : constant_time_eq a b = true <-> a = b.
Proof.
  unfold constant_time_eq. destruct (Z.eqb_spec (len a) (len b)) as [El|El]; cbn.
  - rewrite Z.eqb_eq, fold_diff_zero, zip_diag by (unfold len in El; lia). tauto.
  - split; [done|by intros ->].
Qed.

(** ** RSA keys ([src/src/ffi/rsa.rs]) *)
Module Rsa.

(** [RsaPublicKey], by the DER it was parsed from. *)
Record t := Mk { der : bytes }.

#[export] Instance eq_dec : EqDecision t.
Proof. solve_decision. Defined.

Section rsa.
Context `{Crypto}.

Definition from_pkcs1_der (der : bytes) : result t :=
  if rsa_parse der then Ok (Mk der) else Err (other_error "d2i_PublicKey(RSA)").

Definition fingerprint (k : t) : bytes := sha1 (der k).

Definition verify_recover (k : t) (sig : bytes) : result bytes :=
  ok_or (rsa_verify_recover (der k) sig) (other_error "EVP_PKEY_verify_recover").

(** A Tor signature: the recovered block is the bare digest. *)
Definition verify_digest (k : t) (digest sig : bytes) : bool :=
  match verify_recover k sig with
  | Ok recovered => constant_time_eq recovered digest
  | Err _ => false
  end.
End rsa.
End Rsa.

(** ** AES-CTR as a continuous keystream *)

Module Ctr.

Record t := Mk { alg : CipherAlg; key : bytes; iv : bytes; pos : nat }.

#[export] Instance eq_dec : EqDecision t.
Proof. solve_decision. Defined.

(** [Aes128Ctr::with_counter], [Aes256Ctr::with_counter], and their [new]
    with a zero counter. *)
Definition with_counter (alg : CipherAlg) (key iv : bytes) : t := Mk alg key iv 0.
Definition new (alg : CipherAlg) (key : bytes) : t := with_counter alg key (zeros 16).

(** The next [n] bytes of keystream. *)
Definition next `{Crypto} (c : t) (n : nat) : bytes :=
  map (keystream (alg c) (key c) (iv c)) (seq (pos c) n).

(** [apply]: xor in place and advance. *)
Definition apply `{Crypto} (c : t) (buf : bytes) : t * bytes :=
  (Mk (alg c) (key c) (iv c) (pos c + length buf),
   xor_bytes buf (next c (length buf))).

End Ctr.

(** ** A running digest *)

Module Digest.

(** The context is the algorithm and everything absorbed so far. *)
Record t := Mk { alg : HashAlg; absorbed : bytes }.

#[export] Instance eq_dec : EqDecision t.
Proof. solve_decision. Defined.

Definition new (alg : HashAlg) : t := Mk alg [].
Definition update (d : t) (data : bytes) : t := Mk (alg d) (absorbed d ++ data).

(** [peek_prefix::<N>]: finalise a copy. *)
Definition peek_prefix `{Crypto} (n : Z) (d : t) : bytes :=
  slice_to (hash (alg d) (absorbed d)) n.

End Digest.

Section lemmas.
Context `{CryptoLaws}.

Lemma apply_length (c : Ctr.t) buf : length (snd (Ctr.apply c buf)) = length buf.
Proof.
  cbn. apply length_xor_bytes. unfold Ctr.next. by rewrite length_map, length_seq.
Qed.

Lemma apply_len (c : Ctr.t) buf : len (snd (Ctr.apply c buf)) = len buf.
Proof. unfold len. by rewrite apply_length. Qed.

(** The same keystream position undoes what it did. *)
Lemma apply_apply (c : Ctr.t) buf : snd (Ctr.apply c (snd (Ctr.apply c buf))) = buf.
Proof.
  cbn. rewrite length_xor_bytes by (unfold Ctr.next; by rewrite length_map, length_seq).
  apply xor_bytes_involutive. unfold Ctr.next. by rewrite length_map, length_seq.
Qed.

Lemma apply_state (c : Ctr.t) b b' :
  length b = length b' -> fst (Ctr.apply c b) = fst (Ctr.apply c b').
Proof. cbn. by intros ->. Qed.

(** A copy of the context, fed the output, gives the input back and ends in
    the same state. *)
Lemma apply_undo (c c' : Ctr.t) b out :
  Ctr.apply c b = (c', out) -> Ctr.apply c out = (c', b).
Proof.
  intros A. assert (Ho : out = snd (Ctr.apply c b)) by (by rewrite A).
  rewrite (surjective_pairing (Ctr.apply c out)). f_equal.
  - rewrite Ho, (apply_state _ _ b) by apply apply_length. by rewrite A.
  - rewrite Ho. apply apply_apply.
Qed.

(** Layers commute. *)
Lemma apply_comm (c d : Ctr.t) buf :
  snd (Ctr.apply c (snd (Ctr.apply d buf))) = snd (Ctr.apply d (snd (Ctr.apply c buf))).
Proof.
  cbn. rewrite !length_xor_bytes by (unfold Ctr.next; by rewrite length_map, length_seq).
  apply xor_bytes_comm.
Qed.

Lemma bytes_ok_apply (c : Ctr.t) buf : bytes_ok buf -> bytes_ok (snd (Ctr.apply c buf)).
Proof.
  intros Hb. cbn. apply bytes_ok_xor; [done|]. unfold Ctr.next, bytes_ok.
  apply Forall_map, Forall_true. intros i. apply keystream_u8.
Qed.

Lemma peek_len n d :
  0 <= n <= 20 -> len (Digest.peek_prefix n d) = n.
Proof.
  intros Hn. unfold Digest.peek_prefix, slice_to. rewrite len_take, hash_len.
  unfold output_len. case_match; lia.
Qed.

Lemma peek_bytes n d : bytes_ok (Digest.peek_prefix n d).
Proof. unfold Digest.peek_prefix, slice_to. apply bytes_ok_take, hash_bytes. Qed.

(** A shorter prefix is a prefix of a longer one. *)
Lemma peek_prefix_prefix m n d :
  0 <= m <= n -> slice_to (Digest.peek_prefix n d) m = Digest.peek_prefix m d.
Proof.
  intros Hm. unfold Digest.peek_prefix, slice_to. rewrite take_take. f_equal. lia.
Qed.
End lemmas.

(** ** A concrete instance

    Not secure in any way: arithmetic functions with the right lengths, on
    which the definitions of the development can be run. *)
Module Toy.

Definition mix (seed : Z) (m : bytes) : Z :=
  fold_left (fun acc b => (acc * 257 + b + 1) mod 65536) m seed.

Definition expand (seed : Z) (n : nat) : bytes :=
  map (fun i => (seed / (Z.of_nat i + 1) + Z.of_nat i * 7) mod 256) (seq 0 n).

#[export] Instance crypto : Crypto := {|
  keystream := fun a key iv i => (match a with Aes128 => 3 | Aes256 => 5 end + byte_at key 0 + byte_at iv 0 +
     Z.of_nat i * 31) mod 256;
  hash := fun a m => expand (mix (output_len a) m) (Z.to_nat (output_len a));
  shake256 := fun m n => expand (mix 11 m) (Z.to_nat n);
  hmac_sha256 := fun k m => expand (mix (mix 13 k) m) 32;
  x25519 := fun a p =>
    Some (to_be 32 (from_be a * from_be p));
  x25519_public := fun a => to_be 32 (from_be a * 9);
  ed25519_verify := fun pk msg sig => bool_decide (sig = expand (mix (mix 17 pk) msg) 64);
  rsa_parse := fun der => 0 <? len der;
  rsa_verify_recover := fun der sig =>
    if bool_decide (take (length der) sig = der) then Some (drop (length der) sig) else None;
|}.

(** The signature [ed25519_verify] accepts. *)
Definition sign (pk msg : bytes) : bytes := expand (mix (mix 17 pk) msg) 64.

Lemma expand_length seed n : length (expand seed n) = n.
Proof. unfold expand. by rewrite length_map, length_seq. Qed.

Lemma expand_bytes seed n : bytes_ok (expand seed n).
Proof. unfold expand. apply Forall_map, Forall_true. intros i. apply is_u8_mod. Qed.

Lemma agree a b :
  to_be 32 (from_be a * from_be (to_be 32 (from_be b * 9))) =
  to_be 32 (from_be b * from_be (to_be 32 (from_be a * 9))).
Proof.
  assert (forall v, to_be 32 v = to_be 32 (v mod 256 ^ 32)) as M.
  { intros v. rewrite <- (to_be_from_be (to_be 32 v)) by auto with tor.
    by rewrite from_be_to_be, length_to_be. }
  rewrite (M (_ * from_be (to_be 32 (from_be b * 9)))), (M (_ * from_be (to_be 32 (from_be a * 9)))).
  rewrite !from_be_to_be. change (Z.of_nat 32) with 32.
  rewrite !Zmult_mod_idemp_r. do 2 f_equal. ring.
Qed.

#[export] Instance laws : CryptoLaws.
Proof.
  split.
  - intros. apply is_u8_mod.
  - intros a m. unfold hash, crypto, len. rewrite expand_length. by destruct a.
  - intros. apply expand_bytes.
  - intros m n Hn. unfold shake256, crypto, len. rewrite expand_length. lia.
  - intros. unfold hmac_sha256, crypto, len. by rewrite expand_length.
  - intros. unfold x25519_public, crypto. by rewrite len_to_be.
  - intros a p s E. apply (inj Some) in E. rewrite <- E. by rewrite len_to_be.
  - intros a b. unfold x25519, x25519_public, crypto. f_equal. apply agree.
Qed.

End Toy.
