(* ===== verification/Relay.v ===== *)
(** * Relay cells and circuit state ([src/src/tor/circuit.rs], first half)

    The per-hop cryptographic state, the circuit's flow control and its
    mutable [State]; assembling a relay cell for a hop ([build_relay_cell])
    and peeling an inbound one ([decrypt_inbound]).

    [wrap_layers] and [peel_layers] are the loops over the hop list.  They are
    written once for both directions: the client wraps forwards and peels
    backwards; the relays of the circuit, whose state is the mirror image of
    the client's, peel forwards and wrap backwards ([relays_receive],
    [relays_send]), which is what the round-trip theorems run against. *)
From S2P Require Import Prelude.
From S2P Require Import Cells.
From S2P Require Import Cc.
From S2P Require Import Crypto.

Definition RELAY_BEGIN : Z := 1.
Definition RELAY_DATA : Z := 2.
Definition RELAY_END : Z := 3.
Definition RELAY_CONNECTED : Z := 4.
Definition RELAY_SENDME : Z := 5.
Definition RELAY_TRUNCATED : Z := 9.
Definition RELAY_DROP : Z := 10.
Definition RELAY_BEGIN_DIR : Z := 13.
Definition RELAY_EXTEND2 : Z := 14.
Definition RELAY_EXTENDED2 : Z := 15.
Definition RELAY_ESTABLISH_RENDEZVOUS : Z := 33.
Definition RELAY_INTRODUCE1 : Z := 34.
Definition RELAY_RENDEZVOUS2 : Z := 37.
Definition RELAY_RENDEZVOUS_ESTABLISHED : Z := 39.
Definition RELAY_INTRODUCE_ACK : Z := 40.
Definition RELAY_XOFF : Z := 43.
Definition RELAY_XON : Z := 44.

Definition RELAY_HEADER_LEN : Z := 11.
Definition RELAY_DATA_MAX : Z := CELL_BODY_LEN - RELAY_HEADER_LEN.
Definition CIRCUIT_WINDOW_START : Z := 1000.
Definition CIRCUIT_WINDOW_INCREMENT : Z := 100.
Definition STREAM_WINDOW_START : Z := 500.
Definition STREAM_WINDOW_INCREMENT : Z := 50.
Definition MAX_RELAY_EARLY : Z := 8.
Definition MAX_QUEUED_CONTROL : Z := 16.

(** ** Hops *)

(** [ntor::CircuitKeys] and [hs::ntor::HsCircuitKeys]. *)
Record CircuitKeys := MkKeys { df : bytes; db : bytes; kf : bytes; kb : bytes }.

(** [HopCipher]: a [Ctr.t] knows which of the two ciphers it is. *)
Module Hop.

Record t := Mk {
  forward_cipher : Ctr.t;
  backward_cipher : Ctr.t;
  forward_digest : Digest.t;
  backward_digest : Digest.t;
}.

Definition build (forward_cipher backward_cipher : Ctr.t) (digest : Digest.t)
    (df db : bytes) : t :=
  let forward_digest := Digest.update digest df in
  let backward_digest := Digest.update digest db in
  Mk forward_cipher backward_cipher forward_digest backward_digest.

Definition new (keys : CircuitKeys) : t :=
  build (Ctr.new Aes128 (kf keys)) (Ctr.new Aes128 (kb keys)) (Digest.new Sha1)
    (df keys) (db keys).

Definition virtual_hop (keys : CircuitKeys) : t :=
  build (Ctr.new Aes256 (kf keys)) (Ctr.new Aes256 (kb keys)) (Digest.new Sha3_256)
    (df keys) (db keys).

End Hop.

(** The direction of a cell, and the cipher and digest it runs through. *)
Inductive dir := Fwd | Bwd.

Definition cipher (d : dir) (h : Hop.t) : Ctr.t :=
  match d with Fwd => Hop.forward_cipher h | Bwd => Hop.backward_cipher h end.
Definition set_cipher (d : dir) (h : Hop.t) (c : Ctr.t) : Hop.t :=
  match d with
  | Fwd => h{{Hop.forward_cipher := c}}
  | Bwd => h{{Hop.backward_cipher := c}}
  end.
Definition digest (d : dir) (h : Hop.t) : Digest.t :=
  match d with Fwd => Hop.forward_digest h | Bwd => Hop.backward_digest h end.
Definition set_digest (d : dir) (h : Hop.t) (g : Digest.t) : Hop.t :=
  match d with
  | Fwd => h{{Hop.forward_digest := g}}
  | Bwd => h{{Hop.backward_digest := g}}
  end.

(** ** Flow control *)

Module FlowControl.

Inductive t :=
  | Window (package deliver : Z)
  | Congestion (vegas : Vegas.t) (delivered : DeliverCounter.t) (xoff_bytes : Z).

Definition windows : t := Window CIRCUIT_WINDOW_START CIRCUIT_WINDOW_START.

Definition may_send (f : t) : bool :=
  match f with
  | Window package _ => 0 <? package
  | Congestion vegas _ _ => Vegas.can_send vegas
  end.

Definition note_sent (f : t) (now : Z) : t :=
  match f with
  | Window package deliver => Window (package - 1) deliver
  | Congestion vegas delivered x => Congestion (Vegas.on_send vegas now) delivered x
  end.

(** The new state -- also when the peer overran the window -- and the answer. *)
Definition note_received (f : t) : t * result bool :=
  match f with
  | Window package deliver =>
      let deliver := deliver - 1 in
      if deliver <? 0 then
        (Window package deliver, Err (invalid_data "peer overran the circuit deliver window"))
      else if deliver <=? CIRCUIT_WINDOW_START - CIRCUIT_WINDOW_INCREMENT then
        (Window package (deliver + CIRCUIT_WINDOW_INCREMENT), Ok true)
      else (Window package deliver, Ok false)
  | Congestion vegas delivered x =>
      let '(delivered, answer) := DeliverCounter.on_data delivered in
      (Congestion vegas delivered x, Ok answer)
  end.

Definition note_sendme (f : t) (now : Z) : t * result unit :=
  match f with
  | Window package deliver => (Window (package + CIRCUIT_WINDOW_INCREMENT) deliver, Ok tt)
  | Congestion vegas delivered x =>
      match Vegas.on_sendme vegas now with
      | Ok vegas => (Congestion vegas delivered x, Ok tt)
      | Err e => (f, Err e)
      end
  end.

Definition xoff_bytes (f : t) : option Z :=
  match f with Window _ _ => None | Congestion _ _ x => Some x end.

End FlowControl.

(** ** The circuit's mutable state *)

Module State.

Record t := Mk {
  hops : list Hop.t;
  relay_early_left : Z;
  flow : FlowControl.t;
  next_stream_id : Z;
  handshake : option (bytes + string);
  control : list (Z * bytes);
  last_recv_digest : bytes;
}.

(** The state [Circuit::new_on] starts with. *)
Definition initial : t :=
  {| hops := []; relay_early_left := MAX_RELAY_EARLY; flow := FlowControl.windows;
     next_stream_id := 1; handshake := None; control := [];
     last_recv_digest := zeros 20 |}.

Definition push_control (s : t) (relay_command : Z) (data : bytes) : t :=
  let queue :=
    if MAX_QUEUED_CONTROL <=? len (control s) then tail (control s) else control s in
  s{{control := queue ++ [(relay_command, data)] }}.

(** The first queued reply with this command, and the queue without it. *)
Fixpoint take_first (relay_command : Z) (queue : list (Z * bytes))
    : option (bytes * list (Z * bytes)) :=
  match queue with
  | [] => None
  | (command, data) :: rest =>
      if command =? relay_command then Some (data, rest)
      else match take_first relay_command rest with
           | Some (found, rest) => Some (found, (command, data) :: rest)
           | None => None
           end
  end.

Definition take_control (s : t) (relay_command : Z) : t * option bytes :=
  match take_first relay_command (control s) with
  | Some (data, rest) => (s{{control := rest}}, Some data)
  | None => (s, None)
  end.

End State.

(** ** Layers *)

(** [body[off..off + new.len()].copy_from_slice(new)]. *)
Definition splice (body : bytes) (off : Z) (new : bytes) : bytes :=
  slice_to body off ++ new ++ slice_from body (off + len new).

Section layers.
Context `{Crypto}.

(** [for h in (0..=hop).rev() { hops[h].cipher.apply(&mut body) }] with
    [n = hop + 1]: the far layers first, the near one last. *)
Fixpoint wrap_layers (d : dir) (hops : list Hop.t) (n : nat) (body : bytes)
    : list Hop.t * bytes :=
  match hops, n with
  | h :: rest, S n =>
      let '(rest, body) := wrap_layers d rest n body in
      let '(c, body) := Ctr.apply (cipher d h) body in
      (set_cipher d h c :: rest, body)
  | _, _ => (hops, body)
  end.

(** The check one hop makes on a body it has just decrypted: its advanced
    digest, the 20 digest bytes and the body with the digest field zeroed. *)
Definition recognise (d : dir) (h : Hop.t) (body : bytes)
    : option (Digest.t * bytes * bytes) :=
  if negb (byte_at body 1 =? 0) || negb (byte_at body 2 =? 0) then None
  else
    let claimed := slice body 5 9 in
    let body := splice body 5 [0; 0; 0; 0] in
    let trial := Digest.update (digest d h) body in
    let full := Digest.peek_prefix 20 trial in
    if bool_decide (slice_to full 4 = claimed) then Some (trial, full, body) else None.

(** [for index in 0..hops.len()]: peel until a hop recognises the cell. The
    result has the hops, the body, and the hop's index with its digest. *)
Fixpoint peel_layers (d : dir) (hops : list Hop.t) (body : bytes)
    : list Hop.t * bytes * option (nat * bytes) :=
  match hops with
  | [] => ([], body, None)
  | h :: rest =>
      let '(c, body) := Ctr.apply (cipher d h) body in
      let h := set_cipher d h c in
      match recognise d h body with
      | Some (trial, full, body) => (set_digest d h trial :: rest, body, Some (0%nat, full))
      | None =>
          let '(rest, body, r) := peel_layers d rest body in
          (h :: rest, body, (fun '(i, full) => (S i, full)) <$> r)
      end
  end.

(** Digest first, over the body with the digest field still zero, then one
    layer per hop from the target back to the near end. *)
Definition seal (d : dir) (hops : list Hop.t) (hop : nat) (body : bytes)
    : option (list Hop.t * bytes) :=
  match hops !! hop with
  | None => None
  | Some target =>
      let trial := Digest.update (digest d target) body in
      let body := splice body 5 (Digest.peek_prefix 4 trial) in
      let hops := <[hop := set_digest d target trial]> hops in
      Some (wrap_layers d hops (S hop) body)
  end.

(** ** [build_relay_cell]

    [rng n] is what [rand::fill] puts in an [n]-byte buffer. *)
Definition relay_body (relay_command stream_id : Z) (data : bytes) : bytes :=
  let body := zeros CELL_BODY_LEN in
  let body := splice body 0 [relay_command] in
  let body := splice body 3 (to_be 2 stream_id) in
  let body := splice body 9 (to_be 2 (as_u16 (len data))) in
  splice body RELAY_HEADER_LEN data.

Definition pad_body (rng : Z -> result bytes) (data body : bytes) : result bytes :=
  let pad_start := RELAY_HEADER_LEN + len data in
  if pad_start + 4 <? CELL_BODY_LEN then
    fill ← rng (CELL_BODY_LEN - (pad_start + 4));
    Ok (splice body (pad_start + 4) fill)
  else Ok body.

Definition build_relay_cell (rng : Z -> result bytes) (state : State.t) (circ_id : Z)
    (hop : nat) (relay_command stream_id : Z) (data : bytes) (early : bool)
    : State.t * result Cell.t :=
  if RELAY_DATA_MAX <? len data then
    (state, Err (invalid_data "relay message body too long"))
  else if bool_decide (length (State.hops state) <= hop)%nat then
    (state, Err (invalid_data "relay cell addressed to a nonexistent hop"))
  else if early && (State.relay_early_left state =? 0) then
    (state, Err (invalid_data "circuit has no RELAY_EARLY cells left"))
  else
    let state :=
      if early then state{{State.relay_early_left := State.relay_early_left state - 1}}
      else state in
    match pad_body rng data (relay_body relay_command stream_id data) with
    | Err e => (state, Err e)
    | Ok body =>
        match seal Fwd (State.hops state) hop body with
        | None => (state, Err (invalid_data "relay cell addressed to a nonexistent hop"))
        | Some (hops, body) =>
            let command := if early then CMD_RELAY_EARLY else CMD_RELAY in
            (state{{State.hops := hops}}, Cell.new circ_id command body)
        end
    end.

(** ** [decrypt_inbound] *)
Definition decrypt_inbound (state : State.t) (body : bytes) : State.t * bytes * option nat :=
  let '(hops, body, r) := peel_layers Bwd (State.hops state) body in
  match r with
  | Some (index, full) =>
      (state{{State.hops := hops; State.last_recv_digest := full}}, body, Some index)
  | None => (state{{State.hops := hops}}, body, None)
  end.

(** ** The relays' side: the mirror image *)

Definition relays_receive (hops : list Hop.t) (body : bytes) := peel_layers Fwd hops body.
Definition relays_send (hops : list Hop.t) (hop : nat) (body : bytes) := seal Bwd hops hop body.

(** Whether one of the first [n] hops takes the cell for its own: only a
    coincidence of four digest bytes can make an earlier hop do so. *)
Fixpoint mistaken (d : dir) (hops : list Hop.t) (n : nat) (body : bytes) : bool :=
  match hops, n with
  | h :: rest, S n =>
      let '(c, body) := Ctr.apply (cipher d h) body in
      match recognise d (set_cipher d h c) body with
      | Some _ => true
      | None => mistaken d rest n body
      end
  | _, _ => false
  end.
End layers.

(** The fields [handle_relay] reads from a decrypted body: the command, the
    stream ID and the message. *)
Definition relay_message (body : bytes) : result (Z * Z * bytes) :=
  let relay_command := byte_at body 0 in
  let stream_id := from_be (slice body 3 5) in
  let length := from_be (slice body 9 11) in
  if RELAY_DATA_MAX <? length then
    Err (invalid_data "relay message length exceeds the cell")
  else Ok (relay_command, stream_id, slice body RELAY_HEADER_LEN (RELAY_HEADER_LEN + length)).

(** ** Lemmas on bodies *)

Lemma splice_app p old s new :
  length new = length old -> splice (p ++ old ++ s) (len p) new = p ++ new ++ s.
Proof.
  intros E. unfold splice. rewrite slice_to_app by done. do 2 f_equal.
  rewrite app_assoc. apply slice_from_app. unfold len. rewrite length_app. lia.
Qed.

Lemma splice_at p old s new off :
  off = len p -> length new = length old -> splice (p ++ old ++ s) off new = p ++ new ++ s.
Proof. intros ->. apply splice_app. Qed.

Lemma len_splice body off new :
  0 <= off -> off + len new <= len body -> len (splice body off new) = len body.
Proof.
  intros. unfold splice, slice_to, slice_from. autorewrite with len. len_pos. lia.
Qed.

(** A body whose [recognized] and digest fields are zero. *)
Record blank (body : bytes) : Prop := {
  blank_len : len body = CELL_BODY_LEN;
  blank_recognized : byte_at body 1 = 0 /\ byte_at body 2 = 0;
  blank_digest : slice body 5 9 = [0; 0; 0; 0];
}.

Lemma blank_split body :
  blank body -> exists p s, body = p ++ [0; 0; 0; 0] ++ s /\ len p = 5 /\
    byte_at p 1 = 0 /\ byte_at p 2 = 0.
Proof.
  intros [Hl [H1 H2] Hd]. exists (slice_to body 5), (slice_from body 9).
  assert (Hp : len (slice_to body 5) = 5).
  { unfold slice_to. rewrite len_take, Hl. done. }
  assert (E : body = slice_to body 5 ++ [0; 0; 0; 0] ++ slice_from body 9).
  { rewrite <- Hd. unfold slice_to, slice, slice_from.
    rewrite <- (take_drop 5 body) at 1. f_equal.
    change (Z.to_nat 5) with 5%nat. change (Z.to_nat (9 - 5)) with 4%nat.
    change (Z.to_nat 9) with (5 + 4)%nat. rewrite <- drop_drop. by rewrite take_drop. }
  split_and!; [done|done| |].
  - rewrite E in H1. by rewrite byte_at_app_l in H1 by lia.
  - rewrite E in H2. by rewrite byte_at_app_l in H2 by lia.
Qed.

Section layer_lemmas.
Context `{CryptoLaws}.

Lemma cipher_set_digest d h g : cipher d (set_digest d h g) = cipher d h.
Proof. by destruct d. Qed.
Lemma digest_set_cipher d h c : digest d (set_cipher d h c) = digest d h.
Proof. by destruct d. Qed.
Lemma set_digest_cipher d h c g :
  set_digest d (set_cipher d h c) g = set_cipher d (set_digest d h g) c.
Proof. by destruct d. Qed.

(** A hop recognises the body it was sealed for, and gets it back blank. *)
Lemma recognise_sealed d h body :
  blank body ->
  let trial := Digest.update (digest d h) body in
  recognise d h (splice body 5 (Digest.peek_prefix 4 trial)) =
    Some (trial, Digest.peek_prefix 20 trial, body).
Proof.
  intros Hb trial. destruct (blank_split body Hb) as (p & s & E & Hp & H1 & H2).
  assert (Hd : length (Digest.peek_prefix 4 trial) = 4%nat).
  { pose proof (peek_len 4 trial ltac:(lia)) as L. unfold len in L. lia. }
  rewrite E at 1. rewrite splice_at by (lia || done).
  unfold recognise. rewrite !byte_at_app_l, H1, H2 by lia. cbn [Z.eqb negb orb].
  rewrite slice_app_at by (unfold len in *; lia).
  rewrite splice_at by (rewrite ?Hd; done || lia). rewrite <- E.
  rewrite peek_prefix_prefix by lia. by rewrite bool_decide_eq_true_2.
Qed.

Lemma wrap_layers_length d hops n body :
  length (snd (wrap_layers d hops n body)) = length body.
Proof.
  revert n body. induction hops as [|h hops IH]; intros [|n] body; try done.
  cbn [wrap_layers]. specialize (IH n body). destruct (wrap_layers d hops n body) as [r b].
  cbn in IH |- *. rewrite <- IH. apply length_xor_bytes.
  unfold Ctr.next. by rewrite length_map, length_seq.
Qed.

Lemma wrap_layers_hops d hops n body :
  length (fst (wrap_layers d hops n body)) = length hops.
Proof.
  revert n body. induction hops as [|h hops IH]; intros [|n] body; try done.
  cbn [wrap_layers]. specialize (IH n body). destruct (wrap_layers d hops n body) as [r b].
  cbn in IH |- *. by rewrite IH.
Qed.

(** Peeling undoes wrapping, unless an earlier hop is mistaken. *)
Lemma peel_wrap d hops k target body :
  hops !! k = Some target -> blank body ->
  let trial := Digest.update (digest d target) body in
  let sealed := splice body 5 (Digest.peek_prefix 4 trial) in
  let '(hops', out) := wrap_layers d (<[k := set_digest d target trial]> hops) (S k) sealed in
  mistaken d hops k out = false ->
  peel_layers d hops out = (hops', body, Some (k, Digest.peek_prefix 20 trial)).
Proof.
  intros Hk Hb trial sealed. revert k Hk.
  induction hops as [|h hops IH]; intros k Hk; [done|]. destruct k as [|k].
  - injection Hk as ->. cbn [wrap_layers list_insert insert]. unfold insert, list_insert.
    rewrite cipher_set_digest. cbv beta iota zeta.
    destruct (wrap_layers d hops 0 sealed) as [r b] eqn:W.
    assert (r = hops /\ b = sealed) as [-> ->] by (destruct hops; by injection W).
    destruct (Ctr.apply (cipher d target) sealed) as [c out] eqn:A. intros _.
    cbn [peel_layers]. rewrite (apply_undo _ _ _ _ A).
    pose proof (recognise_sealed d (set_cipher d target c) body Hb) as R. cbv zeta in R.
    rewrite digest_set_cipher in R. fold trial in R. fold sealed in R. rewrite R.
    by rewrite set_digest_cipher.
  - cbn in Hk. specialize (IH k Hk).
    change (<[S k := ?x]> (h :: hops)) with (h :: <[k := x]> hops).
    cbn [wrap_layers].
    destruct (wrap_layers d (<[k:=set_digest d target trial]> hops) (S k) sealed) as [r b] eqn:W.
    destruct (Ctr.apply (cipher d h) b) as [c out] eqn:A.
    cbn [mistaken peel_layers]. rewrite (apply_undo _ _ _ _ A).
    destruct (recognise d (set_cipher d h c) b); [done|]. intros M.
    by rewrite (IH M).
Qed.
End layer_lemmas.

(** ** The body of a built cell *)

Lemma relay_body_shape cmd sid data :
  len data <= RELAY_DATA_MAX ->
  relay_body cmd sid data =
    ([cmd; 0; 0] ++ to_be 2 sid) ++ [0; 0; 0; 0] ++
      to_be 2 (len data) ++ data ++ zeros (RELAY_DATA_MAX - len data).
Proof.
  intros Hd. unfold relay_body. unfold RELAY_DATA_MAX, CELL_BODY_LEN, RELAY_HEADER_LEN in *.
  len_pos. unfold as_u16. rewrite Z.mod_small by lia.
  set (n := 509 - 11 - len data).
  assert (Hz : zeros 509 = [] ++ [0] ++ [0; 0] ++ [0; 0] ++ [0; 0; 0; 0] ++ [0; 0] ++
                            zeros (len data) ++ zeros n).
  { unfold zeros, n. rewrite <- replicate_add.
    replace (Z.to_nat (len data) + Z.to_nat (509 - 11 - len data))%nat with 498%nat by lia. done. }
  rewrite Hz. rewrite (splice_at []) by done.
  change ([] ++ [cmd] ++ [0; 0] ++ ?r) with ([cmd; 0; 0] ++ r).
  rewrite (splice_at [cmd; 0; 0] [0; 0]) by done.
  rewrite app_assoc. rewrite (app_assoc _ [0; 0; 0; 0]).
  rewrite (splice_at (([cmd; 0; 0] ++ to_be 2 sid) ++ [0; 0; 0; 0]) [0; 0]) by done.
  rewrite (app_assoc _ (to_be 2 (len data))).
  rewrite (splice_at _ (zeros (len data))).
  - by rewrite <- !app_assoc.
  - by autorewrite with len.
  - unfold zeros, len. rewrite length_replicate. lia.
Qed.

(** What [rand::fill] promises: it fills the buffer it is given. *)
Definition fills (rng : Z -> result bytes) : Prop :=
  forall n bs, 0 <= n -> rng n = Ok bs -> len bs = n.

Lemma pad_body_shape rng cmd sid data body :
  fills rng -> len data <= RELAY_DATA_MAX ->
  pad_body rng data (relay_body cmd sid data) = Ok body ->
  exists pad, len pad = RELAY_DATA_MAX - len data /\
    body = ([cmd; 0; 0] ++ to_be 2 sid) ++ [0; 0; 0; 0] ++ to_be 2 (len data) ++ data ++ pad.
Proof.
  intros Hr Hd. rewrite relay_body_shape by done. unfold pad_body.
  unfold RELAY_DATA_MAX, CELL_BODY_LEN, RELAY_HEADER_LEN in *. len_pos.
  destruct (Z.ltb_spec (11 + len data + 4) 509) as [Hp|Hp]; intros E; res_inv; subst.
  - apply Hr in E0; [|lia]. set (n := 509 - 11 - len data) in *.
    exists ([0; 0; 0; 0] ++ a). split; [autorewrite with len; lia|].
    assert (zeros n = [0; 0; 0; 0] ++ zeros (n - 4)) as ->.
    { unfold zeros. replace (Z.to_nat n) with (4 + Z.to_nat (n - 4))%nat by lia. done. }
    set (p := ([cmd; 0; 0] ++ to_be 2 sid) ++ [0; 0; 0; 0] ++ to_be 2 (len data) ++ data ++
                [0; 0; 0; 0]).
    match goal with |- splice ?l _ _ = _ =>
      replace l with (p ++ zeros (n - 4) ++ []) by (unfold p; by rewrite <- !app_assoc, app_nil_r)
    end.
    rewrite (splice_at p); [unfold p; by rewrite <- !app_assoc, app_nil_r| |].
    + unfold p. autorewrite with len. change (Z.of_nat 2) with 2. lia.
    + unfold zeros. rewrite length_replicate. unfold len in *. lia.
  - exists (zeros (509 - 11 - len data)). split; [rewrite len_zeros; lia|done].
Qed.

Section bodies.
Context (cmd sid : Z) (data pad : bytes).
Context (Hd : len data + len pad = RELAY_DATA_MAX).
Let body : bytes :=
  ([cmd; 0; 0] ++ to_be 2 sid) ++ [0; 0; 0; 0] ++ to_be 2 (len data) ++ data ++ pad.

Lemma body_blank : blank body.
Proof.
  unfold RELAY_DATA_MAX, CELL_BODY_LEN, RELAY_HEADER_LEN in Hd. unfold body. split.
  - autorewrite with len. change (Z.of_nat 2) with 2. unfold CELL_BODY_LEN. lia.
  - split; apply byte_at_app_l; autorewrite with len; change (Z.of_nat 2) with 2; lia.
  - by apply slice_app_at.
Qed.

Lemma body_message :
  0 <= sid < 65536 -> relay_message body = Ok (cmd, sid, data).
Proof.
  intros Hs. pose proof (len_nonneg data). pose proof (len_nonneg pad).
  unfold relay_message. assert (Hsid : slice body 3 5 = to_be 2 sid).
  { unfold body. rewrite <- !app_assoc. by apply slice_app_at. }
  assert (Hlen : slice body 9 11 = to_be 2 (len data)).
  { unfold body. rewrite (app_assoc _ [0; 0; 0; 0]). by apply slice_app_at. }
  rewrite Hsid, Hlen, !from_be_to_be_small
    by (cbn; unfold RELAY_DATA_MAX, CELL_BODY_LEN, RELAY_HEADER_LEN in *; lia).
  destruct (Z.ltb_spec RELAY_DATA_MAX (len data)); [lia|]. do 3 f_equal.
  unfold body. rewrite (app_assoc _ [0; 0; 0; 0]), (app_assoc _ (to_be 2 (len data))).
  by apply slice_app_at.
Qed.
End bodies.

Section theorems.
Context `{CryptoLaws}.

Lemma resize0_id l n : len l = n -> resize0 l n = l.
Proof.
  intros <-. unfold resize0, len. rewrite Nat2Z.id, take_ge, Nat.sub_diag by lia. apply app_nil_r.
Qed.

Lemma new_relay_cell circ_id (early : bool) body :
  len body = CELL_BODY_LEN ->
  Cell.new circ_id (if early then CMD_RELAY_EARLY else CMD_RELAY) body =
    Ok (Cell.Mk circ_id (if early then CMD_RELAY_EARLY else CMD_RELAY) body).
Proof.
  intros Hl. unfold Cell.new. replace (is_variable_length _) with false by (by destruct early).
  rewrite Hl, Z.ltb_irrefl. by rewrite resize0_id.
Qed.

Lemma seal_len d hops k body hops' out :
  blank body -> seal d hops k body = Some (hops', out) -> len out = CELL_BODY_LEN.
Proof.
  intros B S. unfold seal in S. destruct (hops !! k) as [target|]; [|done].
  apply (inj Some) in S. apply (f_equal snd) in S. cbn [snd] in S. rewrite <- S.
  unfold len at 1. rewrite wrap_layers_length. fold (len (A:=Z)).
  change (len (splice body 5 (Digest.peek_prefix 4 (Digest.update (digest d target) body))) =
    CELL_BODY_LEN).
  rewrite len_splice; [by apply B|lia|]. rewrite peek_len, (blank_len _ B) by lia. done.
Qed.

Lemma seal_total d hops k body :
  (k < length hops)%nat -> exists hops' out, seal d hops k body = Some (hops', out).
Proof.
  intros Hk. destruct (lookup_lt_is_Some_2 hops k Hk) as [target Ht]. unfold seal. rewrite Ht.
  destruct (wrap_layers _ _ _ _) as [r b] eqn:E. eauto.
Qed.

(** The successful branch of [build_relay_cell], unfolded. *)
Lemma build_relay_cell_ok rng state circ_id hop cmd sid data early state' cell :
  fills rng -> build_relay_cell rng state circ_id hop cmd sid data early = (state', Ok cell) ->
  exists pad hops,
    let body := ([cmd; 0; 0] ++ to_be 2 sid) ++ [0; 0; 0; 0] ++ to_be 2 (len data) ++ data ++ pad in
    len data + len pad = RELAY_DATA_MAX /\
    seal Fwd (State.hops state) hop body = Some (hops, Cell.body cell) /\
    cell = Cell.Mk circ_id (if early then CMD_RELAY_EARLY else CMD_RELAY) (Cell.body cell) /\
    (early = true -> State.relay_early_left state <> 0) /\
    state' = state{{State.relay_early_left :=
                      State.relay_early_left state - (if early then 1 else 0);
                    State.hops := hops}}.
Proof.
  intros Hr. unfold build_relay_cell.
  destruct (Z.ltb_spec RELAY_DATA_MAX (len data)) as [|Hd]; [done|].
  case_bool_decide; [done|]. destruct (early && _) eqn:E; [done|].
  destruct (pad_body _ _ _) as [body|] eqn:P; [|done].
  apply pad_body_shape in P as (pad & Hp & ->); [|done..].
  set (body := ([cmd; 0; 0] ++ _) ++ _).
  replace (State.hops (if early then _ else _)) with (State.hops state) by (by destruct early).
  destruct (seal Fwd (State.hops state) hop body) as [[hops out]|] eqn:S; [|done].
  assert (Hout : len out = CELL_BODY_LEN).
  { eapply seal_len; [|exact S]. apply body_blank. lia. }
  rewrite new_relay_cell by done. intros [= <- <-].
  exists pad, hops. split_and!; [lia|done|done| |].
  - intros ->. cbn in E. b2p. done.
  - destruct state, early; cbn; f_equal; lia.
Qed.

(** With room in the cell, an existing hop, RELAY_EARLY cells left where one is
    asked for and a working generator, a cell is built. *)
Lemma build_relay_cell_built rng state circ_id hop cmd sid data early :
  fills rng -> (forall n, is_ok (rng n) = true) -> len data <= RELAY_DATA_MAX ->
  (hop < length (State.hops state))%nat -> (early = true -> State.relay_early_left state <> 0) ->
  exists state' cell,
    build_relay_cell rng state circ_id hop cmd sid data early = (state', Ok cell).
Proof.
  intros Hr Ht Hd Hh He. unfold build_relay_cell.
  destruct (Z.ltb_spec RELAY_DATA_MAX (len data)); [lia|].
  rewrite bool_decide_eq_false_2 by lia.
  replace (early && _) with false by (destruct early; [symmetry; apply Z.eqb_neq; auto|done]).
  replace (State.hops (if early then _ else _)) with (State.hops state) by (by destruct early).
  destruct (pad_body _ _ _) as [body|e] eqn:P.
  - apply pad_body_shape in P as (pad & Hp & ->); [|done..].
    match goal with |- context [seal Fwd _ hop ?b] =>
      destruct (seal_total Fwd (State.hops state) hop b Hh) as (hops & out & S);
      rewrite S end.
    rewrite new_relay_cell; [eauto|].
    eapply seal_len; [|exact S]. apply body_blank. lia.
  - exfalso. unfold pad_body in P. case_match; [|done]. res_inv.
    specialize (Ht (CELL_BODY_LEN - (RELAY_HEADER_LEN + len data + 4))). by rewrite E in Ht.
Qed.

Lemma build_relay_cell_total rng state circ_id hop cmd sid data :
  fills rng -> (forall n, is_ok (rng n) = true) -> len data <= RELAY_DATA_MAX ->
  (hop < length (State.hops state))%nat ->
  exists state' cell,
    build_relay_cell rng state circ_id hop cmd sid data false = (state', Ok cell).
Proof. intros. by apply build_relay_cell_built. Qed.

(** A mistake is a hop before the target that takes the cell. *)
Lemma mistaken_found d hops n : forall body,
  mistaken d hops n body = true ->
  exists hops' body' k full, peel_layers d hops body = (hops', body', Some (k, full)) /\ (k < n)%nat /\
    length hops' = length hops.
Proof.
  revert n. induction hops as [|h hops IH]; intros [|n] body M; try done. cbn [mistaken peel_layers] in *.
  destruct (Ctr.apply (cipher d h) body) as [c out].
  destruct (recognise d (set_cipher d h c) out) as [[[trial full] b]|].
  - eexists _, _, 0%nat, _. split; [reflexivity|]. split; [lia|done].
  - apply IH in M as (hops' & body' & k & full & -> & Hk & L). eexists _, _, (S k), full.
    split; [reflexivity|]. split; [lia|]. cbn. by rewrite L.
Qed.

(** An error never advances a cipher or a digest. *)
Lemma build_relay_cell_err rng state circ_id hop cmd sid data early state' e :
  build_relay_cell rng state circ_id hop cmd sid data early = (state', Err e) ->
  fills rng ->
  State.hops state' = State.hops state /\
  (State.relay_early_left state' = State.relay_early_left state \/
   early = true /\ State.relay_early_left state <> 0 /\
   State.relay_early_left state' = State.relay_early_left state - 1).
Proof.
  intros B Hr. unfold build_relay_cell in B.
  destruct (RELAY_DATA_MAX <? len data) eqn:Hd; [injection B as <- _; auto|].
  case_bool_decide; [injection B as <- _; auto|].
  destruct (early && _) eqn:E; [injection B as <- _; auto|].
  destruct (pad_body _ _ _) as [body|] eqn:P.
  - exfalso. b2p. apply pad_body_shape in P as (pad & Hp & ->); [|done..].
    replace (State.hops (if early then _ else _)) with (State.hops state) in B
      by (by destruct early).
    match type of B with context [seal Fwd _ hop ?b] =>
      destruct (seal_total Fwd (State.hops state) hop b) as (hops & out & S); [lia|] end.
    rewrite S, new_relay_cell in B; [done|]. eapply seal_len; [|exact S].
    apply body_blank. lia.
  - injection B as <- _. destruct early; cbn in E |- *; b2p; auto.
Qed.

(** What the target makes of a built cell. *)
Lemma built_cell_received rng state state' circ_id hop cmd sid data early cell :
  fills rng -> 0 <= sid < 65536 ->
  build_relay_cell rng state circ_id hop cmd sid data early = (state', Ok cell) ->
  mistaken Fwd (State.hops state) hop (Cell.body cell) = false ->
  exists body full,
    relays_receive (State.hops state) (Cell.body cell) =
      (State.hops state', body, Some (hop, full)) /\
    relay_message body = Ok (cmd, sid, data) /\ len (Cell.body cell) = CELL_BODY_LEN.
Proof.
  intros Hrng Hsid Hb Hm.
  apply build_relay_cell_ok in Hb as (pad & hops & Hp & Hs & _ & _ & ->); [|done].
  set (body := _ ++ _) in Hs. pose proof (body_blank cmd sid data pad Hp) as B. fold body in B.
  pose proof (seal_len _ _ _ _ _ _ B Hs) as L. unfold seal in Hs.
  destruct (State.hops state !! hop) as [target|] eqn:Ht; [|done]. apply (inj Some) in Hs.
  pose proof (peel_wrap Fwd (State.hops state) hop target body Ht B) as P. cbv zeta in P.
  rewrite Hs in P. eexists body, _. split_and!; [by apply P|by apply body_message|done].
Qed.

(** What the client makes of a cell a relay sent. *)
Lemma sent_cell_decrypted state hop body out hops :
  blank body -> relays_send (State.hops state) hop body = Some (hops, out) ->
  mistaken Bwd (State.hops state) hop out = false ->
  exists target,
    State.hops state !! hop = Some target /\
    decrypt_inbound state out =
      (state{{State.hops := hops;
              State.last_recv_digest :=
                Digest.peek_prefix 20 (Digest.update (Hop.backward_digest target) body)}},
       body, Some hop).
Proof.
  intros Hb Hs Hm.
  unfold relays_send, seal in Hs. destruct (State.hops state !! hop) as [target|] eqn:Ht; [|done].
  apply (inj Some) in Hs. exists target. split; [done|].
  pose proof (peel_wrap Bwd (State.hops state) hop target body Ht Hb) as P. cbv zeta in P.
  rewrite Hs in P. unfold decrypt_inbound. by rewrite (P Hm).
Qed.

(** ** A cell that nobody recognises *)

(** The hop after one more inbound cell went through its cipher. *)
Definition advance (d : dir) (n : nat) (h : Hop.t) : Hop.t :=
  set_cipher d h
    (Ctr.Mk (Ctr.alg (cipher d h)) (Ctr.key (cipher d h)) (Ctr.iv (cipher d h))
       (Ctr.pos (cipher d h) + n)).

Lemma peel_unrecognised d hops body hops' body' :
  peel_layers d hops body = (hops', body', None) -> hops' = map (advance d (length body)) hops.
Proof.
  revert body hops' body'. induction hops as [|h hops IH]; intros body hops' body'; cbn.
  - by intros [= <- _].
  - destruct (recognise _ _ _) as [[[] ]|]; [done|].
    destruct (peel_layers d hops _) as [[r b] o] eqn:P. destruct o as [[]|]; [done|].
    apply IH in P. intros [= <- <-]. f_equal. rewrite P. f_equal. f_equal.
    apply length_xor_bytes. unfold Ctr.next. by rewrite length_map, length_seq.
Qed.
End theorems.

(** ** Sequences of cells *)

Record request := MkReq {
  rq_hop : nat; rq_command : Z; rq_stream : Z; rq_data : bytes; rq_early : bool }.

(** Build cells for a list of requests; the ones that fail send nothing. *)
Fixpoint build_all `{Crypto} (rng : Z -> result bytes) (state : State.t) (circ_id : Z)
    (reqs : list request) : State.t * list Cell.t :=
  match reqs with
  | [] => (state, [])
  | r :: reqs =>
      let '(state, built) :=
        build_relay_cell rng state circ_id (rq_hop r) (rq_command r) (rq_stream r)
          (rq_data r) (rq_early r) in
      let '(state, cells) := build_all rng state circ_id reqs in
      (state, match built with Ok c => c :: cells | Err _ => cells end)
  end.

Definition is_early (c : Cell.t) : bool := Cell.command c =? CMD_RELAY_EARLY.

Lemma build_relay_cell_early `{CryptoLaws} rng state circ_id hop cmd sid data early state' r :
  fills rng -> build_relay_cell rng state circ_id hop cmd sid data early = (state', r) ->
  0 <= State.relay_early_left state ->
  0 <= State.relay_early_left state' /\
  State.relay_early_left state' +
    match r with Ok c => if is_early c then 1 else 0 | Err _ => 0 end <=
    State.relay_early_left state.
Proof.
  intros Hr B Hn. destruct r as [c|e].
  - apply build_relay_cell_ok in B as (pad & hops & _ & _ & -> & He & ->); [|done].
    unfold is_early. cbn. destruct early; cbn; [specialize (He eq_refl)|]; lia.
  - apply build_relay_cell_err in B as (_ & [->|(-> & Hz & ->)]); [|lia|done]. lia.
Qed.

(** ** The fixed-window scheme between two ends *)

Record window_link := WLink {
  w_sender : FlowControl.t; w_receiver : FlowControl.t; w_cells : Z; w_sendmes : Z }.

Inductive window_step : window_link -> window_link -> Prop :=
  | w_send s r k m now :
      FlowControl.may_send s = true ->
      window_step (WLink s r k m) (WLink (FlowControl.note_sent s now) r (k + 1) m)
  | w_deliver s r r' k m answer :
      0 < k -> FlowControl.note_received r = (r', Ok answer) ->
      window_step (WLink s r k m) (WLink s r' (k - 1) (if answer then m + 1 else m))
  | w_sendme s s' r k m now :
      0 < m -> FlowControl.note_sendme s now = (s', Ok tt) ->
      window_step (WLink s r k m) (WLink s' r k (m - 1)).

Definition window_reach : window_link -> Prop :=
  rtc window_step (WLink FlowControl.windows FlowControl.windows 0 0).

(** Every cell of the window is with the sender, in flight, held by the
    receiver, or on its way back in a SENDME. *)
Definition window_ok (l : window_link) : Prop :=
  exists package deliver a b,
    w_sender l = FlowControl.Window package a /\ w_receiver l = FlowControl.Window b deliver /\
    0 <= package /\ 900 < deliver <= 1000 /\ 0 <= w_cells l /\ 0 <= w_sendmes l /\
    package + w_cells l + (1000 - deliver) + 100 * w_sendmes l = 1000.

Lemma window_ok_step l l' : window_ok l -> window_step l l' -> window_ok l'.
Proof.
  intros (p & d & a & b & Es & Er & Hp & Hd & Hk & Hm & Hb) St.
  destruct St as [s r k m now Hs|s r r' k m ans Hc Hr|s s' r k m now Hm' Hs];
    cbn [w_sender w_receiver w_cells w_sendmes] in *; subst.
  - cbn [FlowControl.may_send] in Hs. b2p. exists (p - 1), d, a, b.
    cbn [w_sender w_receiver w_cells w_sendmes]. repeat split; try done; lia.
  - cbn [FlowControl.note_received] in Hr. unfold CIRCUIT_WINDOW_START, CIRCUIT_WINDOW_INCREMENT in Hr. revert Hr.
    destruct (Z.ltb_spec (d - 1) 0); [done|].
    destruct (Z.leb_spec (d - 1) (1000 - 100)); intros [= <- <-].
    + exists p, (d - 1 + 100), a, b.
    cbn [w_sender w_receiver w_cells w_sendmes]. repeat split; try done; lia.
    + exists p, (d - 1), a, b.
    cbn [w_sender w_receiver w_cells w_sendmes]. repeat split; try done; lia.
  - cbn [FlowControl.note_sendme] in Hs. injection Hs as <-. unfold CIRCUIT_WINDOW_INCREMENT.
    exists (p + 100), d, a, b.
    cbn [w_sender w_receiver w_cells w_sendmes]. repeat split; try done; lia.
Qed.

Lemma window_reach_ok l : window_reach l -> window_ok l.
Proof.
  unfold window_reach. intros R. remember (WLink _ _ 0 0) as l0 eqn:E.
  assert (window_ok l0) as H0.
  { subst. exists 1000, 1000, 1000, 1000.
    cbn [w_sender w_receiver w_cells w_sendmes]. repeat split; try done; lia. }
  clear E. induction R; eauto using window_ok_step.
Qed.

(** ** The control queue *)

Lemma take_first_spec cmd q :
  match State.take_first cmd q with
  | None => Forall (fun p => p.1 <> cmd) q
  | Some (data, rest) =>
      exists before after, q = before ++ (cmd, data) :: after /\ rest = before ++ after /\
        Forall (fun p => p.1 <> cmd) before
  end.
Proof.
  induction q as [|[c d] q IH]; cbn; [constructor|].
  destruct (Z.eqb_spec c cmd) as [->|Hc]; [by exists [], q|].
  destruct (State.take_first cmd q) as [[data rest]|].
  - destruct IH as (b & a & -> & -> & Hb). exists ((c, d) :: b), a. by repeat constructor.
  - by constructor.
Qed.

(** ** Properties *)

Section properties.
Context `{CryptoLaws}.

(** C3. Outbound onion round trip: a cell the client builds for a hop is
    recognised at exactly that hop of a circuit whose relays hold the same
    state, which reads the command, stream ID and message that were sent; and
    afterwards the relays' ciphers and digests are again exactly the
    client's.  The one escape is an earlier relay mistaking the cell for its
    own, a coincidence of four digest bytes. *)
Theorem onion_outbound (rng : Z -> result bytes) (state state' : State.t) (circ_id : Z)
  (hop : nat) (cmd sid : Z) (data : bytes) (early : bool) (cell : Cell.t)
  (Hrng : fills rng) (Hsid : 0 <= sid < 65536)
  (Hb : build_relay_cell rng state circ_id hop cmd sid data early = (state', Ok cell))
  (Hm : mistaken Fwd (State.hops state) hop (Cell.body cell) = false) :
  exists body full,
    relays_receive (State.hops state) (Cell.body cell) =
      (State.hops state', body, Some (hop, full)) /\
    relay_message body = Ok (cmd, sid, data) /\ len (Cell.body cell) = CELL_BODY_LEN.
Proof.
  by eapply built_cell_received.
Qed.

(** C4. Inbound round trip: a cell that any relay of the circuit sends back is
    attributed by [decrypt_inbound] to exactly that hop with exactly its body;
    the client's ciphers and digests then equal the relays', and
    [last_recv_digest] is the digest of that cell, which is what an
    authenticated SENDME must quote. *)
Theorem onion_inbound (state : State.t) (hop : nat) (body out : bytes) (hops : list Hop.t)
  (Hb : blank body) (Hs : relays_send (State.hops state) hop body = Some (hops, out))
  (Hm : mistaken Bwd (State.hops state) hop out = false) :
  exists target,
    State.hops state !! hop = Some target /\
    decrypt_inbound state out =
      (state{{State.hops := hops;
              State.last_recv_digest :=
                Digest.peek_prefix 20 (Digest.update (Hop.backward_digest target) body)}},
       body, Some hop).
Proof.
  by apply sent_cell_decrypted.
Qed.

(** Cells that come to nothing. A cell nobody recognises moves no digest
    and nothing else of the state: the only change is that every hop's backward
    keystream advances by the length of the cell. A cell that cannot be built
    leaves every cipher, every digest and the flow control where they were, so
    the cells that follow still verify at the relays. *)
Theorem relay_errors_keep_state (state : State.t) :
  (forall body state' body',
    decrypt_inbound state body = (state', body', None) ->
    state' = state{{State.hops := map (advance Bwd (length body)) (State.hops state)}}) /\
  (forall rng circ_id hop cmd sid data early state' e,
    fills rng ->
    build_relay_cell rng state circ_id hop cmd sid data early = (state', Err e) ->
    State.hops state' = State.hops state /\ State.flow state' = State.flow state).
Proof.
  split.
  - intros body state' body' Hd. unfold decrypt_inbound in Hd.
    destruct (peel_layers _ _ _) as [[hops b] r] eqn:P.
    destruct r as [[index full]|]; [done|]. injection Hd as <- _.
    by rewrite (peel_unrecognised _ _ _ _ _ P).
  - intros rng circ_id hop cmd sid data early state' e Hrng Hb.
    split; [by apply build_relay_cell_err in Hb as [-> _]|].
    unfold build_relay_cell in Hb. repeat (case_match; simplify_eq/=; try done).
Qed.

(** Whatever is sent, a circuit emits at most as many RELAY_EARLY cells
    as its budget: eight for a new circuit. *)
Theorem relay_early_budget (rng : Z -> result bytes) (state : State.t) (circ_id : Z)
  (reqs : list request) (Hrng : fills rng) (Hn : 0 <= State.relay_early_left state) :
  len (filter is_early (snd (build_all rng state circ_id reqs))) <= State.relay_early_left state.
Proof.
  revert state Hn. induction reqs as [|r reqs IH]; intros state Hn; [done|]. cbn [build_all].
  destruct (build_relay_cell _ _ _ _ _ _ _ _) as [st1 built] eqn:B.
  apply build_relay_cell_early in B as [N1 N2]; [|done|done]. specialize (IH st1 N1).
  destruct (build_all rng st1 circ_id reqs) as [st2 cells]. cbn [snd] in *.
  destruct built as [c|]; [|lia]. rewrite filter_cons.
  case_decide as D; destruct (is_early c); rewrite ?len_cons; try done; lia.
Qed.
End properties.

(** The fixed-window scheme between two honest ends, for every
    interleaving: the receiver never reports an overrun window, and when
    nothing is in flight the sender may send. *)
Theorem window_scheme_sound (l : window_link) (R : window_reach l) :
  (0 < w_cells l -> is_ok (snd (FlowControl.note_received (w_receiver l))) = true) /\
  (w_cells l = 0 -> w_sendmes l = 0 -> FlowControl.may_send (w_sender l) = true) /\
  w_cells l <= 1000.
Proof.
  apply window_reach_ok in R as (p & d & a & b & -> & -> & Hp & Hd & Hk & Hm & Hb).
  cbn [FlowControl.note_received FlowControl.may_send]. split_and!; [| |lia].
  - intros _. destruct (Z.ltb_spec (d - 1) 0); [lia|]. by case_match.
  - intros Hc Hs. apply Z.ltb_lt. lia.
Qed.

(** The control queue is bounded by sixteen whatever a relay sends, keeps
    the newest reply, and [take_control] hands out the oldest reply with the
    command asked for, leaving the others in order. *)
Theorem control_queue (s : State.t) (cmd : Z) (data : bytes)
  (Hs : len (State.control s) <= MAX_QUEUED_CONTROL) :
  len (State.control (State.push_control s cmd data)) <= MAX_QUEUED_CONTROL /\
  last (State.control (State.push_control s cmd data)) = Some (cmd, data) /\
  match State.take_control s cmd with
  | (s', Some found) =>
      exists before after, State.control s = before ++ (cmd, found) :: after /\
        State.control s' = before ++ after /\ Forall (fun p => p.1 <> cmd) before
  | (s', None) => s' = s /\ Forall (fun p => p.1 <> cmd) (State.control s)
  end.
Proof.
  unfold State.push_control, State.take_control. cbn [State.control].
  split_and!.
  - cbn [State.control apply_update RecordSetters.constant]. rewrite len_app, len_cons, len_nil. unfold MAX_QUEUED_CONTROL in *.
    destruct (Z.leb_spec 16 (len (State.control s))); [|lia].
    destruct (State.control s); cbn [tail]; rewrite ?len_nil, ?len_cons in *; lia.
  - cbn. by rewrite last_snoc.
  - pose proof (take_first_spec cmd (State.control s)) as T.
    destruct (State.take_first cmd (State.control s)) as [[found rest]|]; [|done].
    destruct T as (b & a & E1 & E2 & E3). exists b, a. by subst.
Qed.

(** ** Concrete runs on the toy instance *)

Module RelayDemo.
Import Toy.

Definition demo_keys (seed : Z) : CircuitKeys :=
  MkKeys (replicate 20 seed) (replicate 20 (seed + 1)) (replicate 16 (seed + 2))
    (replicate 16 (seed + 3)).
Definition demo_hops : list Hop.t :=
  [Hop.new (demo_keys 1); Hop.new (demo_keys 11); Hop.virtual_hop (demo_keys 21)].
Definition demo_state : State.t := State.initial{{State.hops := demo_hops}}.
Definition demo_rng (n : Z) : result bytes := Ok (zeros (Z.max 0 n)).
Definition demo_built : State.t * result Cell.t :=
  build_relay_cell demo_rng demo_state 9 2 RELAY_DATA 7 [104; 105] false.
Definition demo_cell : Cell.t :=
  match snd demo_built with Ok c => c | Err _ => Cell.Mk 0 0 [] end.
Definition demo_inbound : bytes := relay_body RELAY_DATA 7 [104; 105].

Lemma demo_rng_fills : fills demo_rng.
Proof.
  intros n bs Hn E. assert (zeros (Z.max 0 n) = bs) as <- by (unfold demo_rng in E; congruence).
  rewrite len_zeros; lia.
Qed.

Lemma demo_built_ok : demo_built = (fst demo_built, Ok demo_cell).
Proof. by vm_compute. Qed.

Lemma demo_blank : blank demo_inbound.
Proof. split; [by vm_compute|split; by vm_compute|by vm_compute]. Qed.

Lemma onion_outbound_witness :
  exists body full,
    relays_receive (State.hops demo_state) (Cell.body demo_cell) =
      (State.hops (fst demo_built), body, Some (2%nat, full)) /\
    relay_message body = Ok (RELAY_DATA, 7, [104; 105]).
Proof.
  destruct (onion_outbound demo_rng demo_state (fst demo_built) 9 2 RELAY_DATA 7 [104; 105] false
    demo_cell demo_rng_fills ltac:(lia) demo_built_ok ltac:(by vm_compute))
    as (body & full & A & B & _).
  exists body, full. split; [exact A|exact B].
Defined.

Lemma onion_inbound_witness :
  match relays_send (State.hops demo_state) 1 demo_inbound with
  | Some (_, out) => snd (decrypt_inbound demo_state out) = Some 1%nat
  | None => False
  end.
Proof.
  destruct (relays_send (State.hops demo_state) 1 demo_inbound) as [[hops out]|] eqn:E;
    [|by vm_compute in E].
  destruct (onion_inbound demo_state 1 demo_inbound out hops demo_blank E) as (t & _ & ->).
  - assert (out = match relays_send (State.hops demo_state) 1 demo_inbound with
                  | Some (_, o) => o | None => [] end) as -> by (by rewrite E).
    by vm_compute.
  - done.
Defined.

Definition demo_unrecognised : State.t * bytes := fst (decrypt_inbound demo_state (zeros 20)).

Lemma demo_unrecognised_ok :
  decrypt_inbound demo_state (zeros 20) = (fst demo_unrecognised, snd demo_unrecognised, None).
Proof. by vm_compute. Qed.

Lemma relay_errors_witness :
  let failed := build_relay_cell demo_rng demo_state 9 5 RELAY_DATA 7 [] true in
  fst demo_unrecognised =
    demo_state{{State.hops := map (advance Bwd (length (zeros 20))) (State.hops demo_state)}} /\
  State.hops (fst failed) = State.hops demo_state.
Proof.
  intros failed. destruct (relay_errors_keep_state demo_state) as [A C].
  split; [exact (A _ _ _ demo_unrecognised_ok)|].
  exact (proj1 (C demo_rng 9 5%nat RELAY_DATA 7 [] true (fst failed)
    (invalid_data "relay cell addressed to a nonexistent hop") demo_rng_fills ltac:(by vm_compute))).
Defined.

Lemma relay_early_budget_witness :
  len (filter is_early (snd (build_all demo_rng demo_state 9
    (replicate 10 (MkReq 1 RELAY_EXTEND2 0 [1; 2] true))))) <= 8.
Proof.
  apply (relay_early_budget demo_rng demo_state 9 _ demo_rng_fills). by vm_compute.
Defined.

Lemma window_scheme_witness :
  is_ok (snd (FlowControl.note_received FlowControl.windows)) = true.
Proof.
  destruct (window_scheme_sound (WLink (FlowControl.Window 999 1000) FlowControl.windows 1 0))
    as [A _].
  - eapply rtc_l; [by apply (w_send FlowControl.windows FlowControl.windows 0 0 0)|].
    apply rtc_refl.
  - by apply A.
Defined.

Lemma control_queue_witness :
  last (State.control (State.push_control demo_state RELAY_RENDEZVOUS2 [1])) =
    Some (RELAY_RENDEZVOUS2, [1]).
Proof.
  by destruct (control_queue demo_state RELAY_RENDEZVOUS2 [1] ltac:(by vm_compute)) as (_ & A & _).
Defined.
End RelayDemo.
