(* ===== verification/Circuit.v ===== *)
(** * A circuit and its streams ([src/src/tor/circuit.rs], second half)

    [Inner] is what the pump and the writers share: the channel, the crypto
    state, the table of open streams.  A stream's buffer is shared between the
    table and the [TorStream] handles, and outlives its entry in the table, so
    the buffers live in a store ([objects]) and the table maps a stream ID to
    a reference.

    Every operation runs under the locks the source takes, so it is one
    function of the state and of what the environment supplies: the clock
    [now] and the random bytes [rng].  A loop around a condition variable is
    one pass of the loop; [Wait] is the pass that goes back to sleep. *)
From S2P Require Import Prelude.
From S2P Require Import Text.
From S2P Require Import Cells.
From S2P Require Import Cc.
From S2P Require Import Crypto.
From S2P Require Import Relay.

Definition END_REASON_MISC : Z := 1.
Definition END_REASON_RESOLVEFAILED : Z := 2.
Definition END_REASON_CONNECTREFUSED : Z := 3.
Definition END_REASON_EXITPOLICY : Z := 4.
Definition END_REASON_DONE : Z := 6.
Definition END_REASON_TIMEOUT : Z := 7.
Definition END_REASON_NOROUTE : Z := 8.

Definition EXT_CC_REQUEST : Z := 1.
Definition EXT_CC_RESPONSE : Z := 2.
Definition CREATED_FAST_LEN : Z := 40.
Definition ACTIVE_GAP_MS : Z := 500.

Definition circuit_closed : io_error :=
  IoError ConnectionAborted (Message "circuit is closed").

(** [impl From<StreamEnd> for io::Error] and [is_stream_end]. *)
Definition stream_end_error (reason : Z) : io_error :=
  let kind :=
    if reason =? END_REASON_CONNECTREFUSED then ConnectionRefused
    else if reason =? END_REASON_TIMEOUT then TimedOut
    else if (reason =? END_REASON_RESOLVEFAILED) || (reason =? END_REASON_NOROUTE) then NotFound
    else if reason =? END_REASON_EXITPOLICY then PermissionDenied
    else OtherError in
  IoError kind (StreamEnd reason).

Definition is_stream_end (e : io_error) : bool :=
  match payload e with StreamEnd _ => true | Message _ => false end.

(** ** The meter *)

Module Meter.

Record t := Mk {
  rx_bytes : Z; active_ms : Z; last_data_ms : Z; wants_probe : bool; created : Z }.

Definition new (created : Z) : t := Mk 0 0 0 false created.

(** [now] and [created] are nanoseconds. *)
Definition note_data (m : t) (now n : Z) : t :=
  let at_ms := Z.max ((now - created m) / 1000000) 1 in
  let m := m{{rx_bytes := rx_bytes m + n}} in
  let m := m{{wants_probe := false}} in
  let previous := last_data_ms m in
  let m := m{{last_data_ms := at_ms}} in
  let gap := sat_sub at_ms previous in
  if negb (previous =? 0) && (gap <=? ACTIVE_GAP_MS)
  then m{{active_ms := active_ms m + gap}} else m.

(** [Delivery::kbps] on [Circuit::delivery]. *)
Definition kbps (m : t) (min_bytes min_active_ms : Z) : option Z :=
  if (active_ms m =? 0) || (rx_bytes m <? min_bytes) || (active_ms m <? min_active_ms)
  then None else Some (rx_bytes m / active_ms m).

End Meter.

(** ** Streams *)

Module Stream.

(** [StreamShared] with its [StreamBuf]. *)
Record t := Mk {
  id : Z;
  hop : nat;
  xoff_bytes : option Z;
  data : bytes;
  connected : bool;
  ended : option Z;
  error : option string;
  deliver_window : Z;
  package_window : Z;
  unacked : Z;
  send_blocked : bool;
  xoff_sent : bool;
}.

(** What [open_stream] puts in the table. *)
Definition new (id : Z) (hop : nat) (xoff_bytes : option Z) : t :=
  {| id := id; hop := hop; xoff_bytes := xoff_bytes; data := []; connected := false;
     ended := None; error := None; deliver_window := STREAM_WINDOW_START;
     package_window := STREAM_WINDOW_START; unacked := 0; send_blocked := false;
     xoff_sent := false |}.

End Stream.

Module Inner.

Record t := Mk {
  circ_id : Z;
  (** the channel: the cells handed to it, and whether it is closed *)
  sent : list Cell.t;
  chan_closed : bool;
  registered : bool;
  state : State.t;
  streams : gmap Z nat;
  objects : gmap nat Stream.t;
  closed : bool;
  meter : Meter.t;
}.

(** [Circuit::new_on]. *)
Definition new_on (circ_id created : Z) : t :=
  {| circ_id := circ_id; sent := []; chan_closed := false; registered := true;
     state := State.initial; streams := empty; objects := empty; closed := false;
     meter := Meter.new created |}.

End Inner.

Definition is_closed (i : Inner.t) : bool := Inner.closed i || Inner.chan_closed i.

(** [Channel::send_cell], once there is room in its queue. *)
Definition send_cell (i : Inner.t) (c : Cell.t) : Inner.t * result unit :=
  if Inner.chan_closed i
  then (i, Err (IoError NotConnected (Message "channel to {peer} is closed")))
  else (i{{Inner.sent := Inner.sent i ++ [c] }}, Ok tt).

(** [lookup]: the stream object behind an ID. *)
Definition lookup (i : Inner.t) (stream_id : Z) : option nat := Inner.streams i !! stream_id.

Definition with_stream (i : Inner.t) (r : nat) (f : Stream.t -> Stream.t) : Inner.t :=
  i{{Inner.objects := alter f r (Inner.objects i)}}.

(** One pass of a loop that may go back to sleep. *)
Inductive pass (A : Type) := Done (a : A) | Wait.
Arguments Done {A} _.
Arguments Wait {A}.

Section circuit.
Context `{Crypto} (rng : Z -> result bytes).

(** [send_relay] and [send_prebuilt]: the same cell, under the same lock. *)
Definition send_relay (i : Inner.t) (hop : nat) (relay_command stream_id : Z) (data : bytes)
    (early : bool) : Inner.t * result unit :=
  let '(st, built) :=
    build_relay_cell rng (Inner.state i) (Inner.circ_id i) hop relay_command stream_id data
      early in
  let i := i{{Inner.state := st}} in
  match built with
  | Err e => (i, Err e)
  | Ok cell => send_cell i cell
  end.

Definition last_hop (i : Inner.t) : result nat :=
  match State.hops (Inner.state i) with
  | [] => Err (invalid_data "this circuit has no hops")
  | _ :: rest => Ok (length rest)
  end.

(** [send_control]. *)
Definition send_control (i : Inner.t) (relay_command : Z) (data : bytes)
    : Inner.t * result unit :=
  match last_hop i with
  | Err e => (i, Err e)
  | Ok hop => send_relay i hop relay_command 0 data false
  end.

(** *** The pump *)

(** The body of an authenticated (version 1) SENDME. *)
Definition sendme_payload (digest : bytes) : bytes := [1] ++ to_be 2 20 ++ digest.

(** RELAY_DATA: account for the cell, answer with a SENDME if one is due,
    then hand the payload to its stream, asking the far end to stop if the
    reader is too far behind. *)
Definition deliver_data (now : Z) (i : Inner.t) (hop : nat) (stream_id : Z) (payload : bytes)
    : Inner.t * result unit :=
  match lookup i stream_id with
  | None => (i, Ok tt)
  | Some r =>
      let i := with_stream i r (fun s =>
        s{{Stream.deliver_window := Stream.deliver_window s - 1;
           Stream.unacked := Stream.unacked s + 1;
           Stream.data := Stream.data s ++ payload}}) in
      let i := i{{Inner.meter := Meter.note_data (Inner.meter i) now (len payload)}} in
      let stop :=
        match Inner.objects i !! r with
        | Some s =>
            match Stream.xoff_bytes s with
            | Some limit => negb (Stream.xoff_sent s) && (limit <? len (Stream.data s))
            | None => false
            end
        | None => false
        end in
      if stop then
        let i := with_stream i r (fun s => s{{Stream.xoff_sent := true}}) in
        send_relay i hop RELAY_XOFF stream_id [0] false
      else (i, Ok tt)
  end.

Definition handle_data (now : Z) (i : Inner.t) (hop : nat) (stream_id : Z) (data : bytes)
    : Inner.t * result unit :=
  let '(flow, acked) := FlowControl.note_received (State.flow (Inner.state i)) in
  let i := i{{Inner.state := (Inner.state i){{State.flow := flow}} }} in
  match acked with
  | Err e => (i, Err e)
  | Ok true =>
      let '(st, built) :=
        build_relay_cell rng (Inner.state i) (Inner.circ_id i) hop RELAY_SENDME 0
          (sendme_payload (State.last_recv_digest (Inner.state i))) false in
      let i := i{{Inner.state := st}} in
      match built with
      | Err e => (i, Err e)
      | Ok cell =>
          let '(i, sent) := send_cell i cell in
          match sent with
          | Err e => (i, Err e)
          | Ok _ => deliver_data now i hop stream_id data
          end
      end
  | Ok false => deliver_data now i hop stream_id data
  end.

(** The reply of a handshake inside a length-prefixed message. *)
Definition handshake_reply (data : bytes) (what : string) : result bytes :=
  n ← be_u16 data 0;
  if len data <? 2 + n then Err (invalid_data what) else Ok (slice data 2 (2 + n)).

Definition first_or (data : bytes) (dflt : Z) : Z := default dflt (head data).

Definition set_state (i : Inner.t) (st : State.t) : Inner.t := i{{Inner.state := st}}.

(** Change the stream behind an ID, if there is one. *)
Definition on_stream (i : Inner.t) (stream_id : Z) (f : Stream.t -> Stream.t) : Inner.t :=
  match lookup i stream_id with Some r => with_stream i r f | None => i end.

(** The [match relay_command] of [handle_relay]. *)
Definition dispatch_relay (now : Z) (i : Inner.t) (hop : nat) (relay_command stream_id : Z)
    (data : bytes) : Inner.t * result unit :=
  let st := Inner.state i in
  if relay_command =? RELAY_EXTENDED2 then
    match handshake_reply data "EXTENDED2 length runs past the message" with
    | Err e => (i, Err e)
    | Ok reply => (set_state i (st{{State.handshake := Some (inl reply)}}), Ok tt)
    end
  else if relay_command =? RELAY_SENDME then
    if stream_id =? 0 then
      let '(flow, r) := FlowControl.note_sendme (State.flow st) now in
      (set_state i (st{{State.flow := flow}}), r)
    else
      (on_stream i stream_id (fun s =>
         s{{Stream.package_window := Stream.package_window s + STREAM_WINDOW_INCREMENT}}), Ok tt)
  else if relay_command =? RELAY_DATA then handle_data now i hop stream_id data
  else if relay_command =? RELAY_CONNECTED then
    (on_stream i stream_id (fun s => s{{Stream.connected := true}}), Ok tt)
  else if relay_command =? RELAY_END then
    let reason := first_or data END_REASON_MISC in
    let i := on_stream i stream_id (fun s => s{{Stream.ended := Some reason}}) in
    (i{{Inner.streams := delete stream_id (Inner.streams i)}}, Ok tt)
  else if relay_command =? RELAY_TRUNCATED then
    (i, Err (IoError ConnectionAborted (Message "circuit truncated, reason {reason}")))
  else if (relay_command =? RELAY_XOFF) || (relay_command =? RELAY_XON) then
    if negb (first_or data 0 =? 0) then (i, Err (invalid_data "unknown XON/XOFF version"))
    else
      (on_stream i stream_id (fun s =>
         s{{Stream.send_blocked := (relay_command =? RELAY_XOFF)}}), Ok tt)
  else if (relay_command =? RELAY_RENDEZVOUS_ESTABLISHED) ||
          (relay_command =? RELAY_INTRODUCE_ACK) || (relay_command =? RELAY_RENDEZVOUS2) then
    (set_state i (State.push_control st relay_command data), Ok tt)
  else (i, Ok tt).

Definition handle_relay (now : Z) (i : Inner.t) (cell : Cell.t) : Inner.t * result unit :=
  let body := Cell.body cell in
  if negb (len body =? CELL_BODY_LEN) then
    (i, Err (invalid_data "relay cell has the wrong body length"))
  else
    let '(st, body, r) := decrypt_inbound (Inner.state i) body in
    let i := set_state i st in
    match r with
    | None => (i, Ok tt)
    | Some hop =>
        match relay_message body with
        | Err e => (i, Err e)
        | Ok (relay_command, stream_id, data) =>
            dispatch_relay now i hop relay_command stream_id data
        end
    end.

Definition handle_cell (now : Z) (i : Inner.t) (cell : Cell.t) : Inner.t * result unit :=
  let command := Cell.command cell in
  let body := Cell.body cell in
  if command =? CMD_CREATED_FAST then
    if len body <? CREATED_FAST_LEN then
      (i, Err (invalid_data "CREATED_FAST cell is too short"))
    else
      (set_state i ((Inner.state i){{State.handshake := Some (inl (slice_to body CREATED_FAST_LEN))}}),
       Ok tt)
  else if command =? CMD_CREATED2 then
    match handshake_reply body "CREATED2 length runs past the cell" with
    | Err e => (i, Err e)
    | Ok reply =>
        (set_state i ((Inner.state i){{State.handshake := Some (inl reply)}}), Ok tt)
    end
  else if command =? CMD_DESTROY then
    (i, Err (IoError ConnectionAborted (Message "DESTROY received, reason {reason}")))
  else if (command =? CMD_RELAY) || (command =? CMD_RELAY_EARLY) then handle_relay now i cell
  else (i, Ok tt).

(** [fail_all]: every stream of the table learns why, and the table empties. *)
Definition fail_stream (reason : string) (s : Stream.t) : Stream.t :=
  match Stream.error s, Stream.ended s with
  | None, None => s{{Stream.error := Some reason}}
  | _, _ => s
  end.

Definition fail_all (i : Inner.t) (reason : string) : Inner.t :=
  let refs := map snd (map_to_list (Inner.streams i)) in
  let i := i{{Inner.streams := empty}} in
  fold_left (fun i r => with_stream i r (fail_stream reason)) refs i.

(** What the pump does when its loop ends. *)
Definition pump_end (i : Inner.t) : Inner.t :=
  let i := i{{Inner.closed := true}} in
  let i := i{{Inner.registered := false}} in
  fail_all i "circuit closed".

(** The pump on the cells it receives, each with the clock at its arrival. *)
Fixpoint pump (cells : list (Z * Cell.t)) (i : Inner.t) : Inner.t :=
  match cells with
  | [] => pump_end i
  | (now, cell) :: cells =>
      if Inner.closed i then pump_end i
      else
        match handle_cell now i cell with
        | (i, Ok _) => pump cells i
        | (i, Err _) => pump_end i
        end
  end.

(** *** Opening a circuit *)

(** [adopt_congestion_control]: [answered] is the relay's extension list, as
    pairs of kind and body. *)
Definition adopt_congestion_control (i : Inner.t) (answered : list (Z * bytes))
    (params : CcParams.t) : Inner.t * result unit :=
  match list_find (fun e => fst e = EXT_CC_RESPONSE) answered with
  | None => (i, Ok tt)
  | Some (_, (_, [sendme_inc])) =>
      let expected := CcParams.p_sendme_inc params in
      let offered := sendme_inc in
      if (sendme_inc =? 0) || (offered * 2 <? expected) || (expected * 2 <? offered) then
        (i, Err (invalid_data
               "relay wants a SENDME every {offered} cells, but the consensus says {expected}"))
      else
        let flow :=
          FlowControl.Congestion (Vegas.new params sendme_inc) (DeliverCounter.new sendme_inc)
            (CcParams.xoff_client params * RELAY_DATA_MAX) in
        (set_state i ((Inner.state i){{State.flow := flow}}), Ok tt)
  | Some _ => (i, Err (invalid_data "congestion control answer is not one byte"))
  end.

(** [use_congestion_control]. *)
Definition use_congestion_control (i : Inner.t) (params : CcParams.t) (sendme_inc : Z) : Inner.t :=
  let flow :=
    FlowControl.Congestion (Vegas.new params sendme_inc) (DeliverCounter.new sendme_inc)
      (CcParams.xoff_client params * RELAY_DATA_MAX) in
  set_state i ((Inner.state i){{State.flow := flow}}).

(** The hop list grows by an established hop, or by the virtual one. *)
Definition push_hop (i : Inner.t) (h : Hop.t) : Inner.t :=
  set_state i ((Inner.state i){{State.hops := State.hops (Inner.state i) ++ [h] }}).
Definition add_virtual_hop (i : Inner.t) (keys : CircuitKeys) : Inner.t :=
  push_hop i (Hop.virtual_hop keys).

(** One pass of [wait_for_handshake] and of [wait_for_control]. *)
Definition wait_for_handshake (i : Inner.t) (timed_out : bool)
    : Inner.t * pass (result bytes) :=
  match State.handshake (Inner.state i) with
  | Some r =>
      (set_state i ((Inner.state i){{State.handshake := None}}),
       Done (match r with inl reply => Ok reply | inr e => Err (other_error e) end))
  | None =>
      if is_closed i then
        (i, Done (Err (IoError ConnectionAborted (Message "circuit closed during handshake"))))
      else if timed_out then
        (i, Done (Err (IoError TimedOut (Message "timed out waiting for CREATED2/EXTENDED2"))))
      else (i, Wait)
  end.

Definition wait_for_control (i : Inner.t) (relay_command : Z) (timed_out : bool)
    : Inner.t * pass (result bytes) :=
  match State.take_control (Inner.state i) relay_command with
  | (st, Some data) => (set_state i st, Done (Ok data))
  | (_, None) =>
      if is_closed i then
        (i, Done (Err (IoError ConnectionAborted
                         (Message "circuit closed while waiting for a reply"))))
      else if timed_out then
        (i, Done (Err (IoError TimedOut
                         (Message "timed out waiting for relay command {relay_command}"))))
      else (i, Wait)
  end.

(** *** Opening a stream *)

(** The loop of [alloc_stream_id]: the ID found, and the next candidate. *)
Fixpoint find_stream_id (tries : nat) (streams : gmap Z nat) (next : Z) : option Z * Z :=
  match tries with
  | O => (None, next)
  | S tries =>
      let id := next in
      let next := (next + 1) mod 65536 in
      if (id =? 0) || bool_decide (is_Some (streams !! id))
      then find_stream_id tries streams next
      else (Some id, next)
  end.

Definition alloc_stream_id (i : Inner.t) : Inner.t * result Z :=
  let '(found, next) :=
    find_stream_id (Z.to_nat U16_MAX) (Inner.streams i) (State.next_stream_id (Inner.state i)) in
  let i := set_state i ((Inner.state i){{State.next_stream_id := next}}) in
  match found with
  | Some id => (i, Ok id)
  | None => (i, Err (other_error "no free stream ID on this circuit"))
  end.

(** [open_stream]: the new handle is the reference [r], which the caller
    takes fresh; when the BEGIN cannot be sent the last reference to the
    buffer goes away with it. *)
Definition open_stream (i : Inner.t) (r : nat) (relay_command : Z) (payload : bytes)
    : Inner.t * result nat :=
  match last_hop i with
  | Err e => (i, Err e)
  | Ok hop =>
      let '(i, allocated) := alloc_stream_id i in
      match allocated with
      | Err e => (i, Err e)
      | Ok stream_id =>
          let xoff_bytes := FlowControl.xoff_bytes (State.flow (Inner.state i)) in
          let i := i{{Inner.objects :=
                        <[r := Stream.new stream_id hop xoff_bytes]> (Inner.objects i)}} in
          let i := i{{Inner.streams := <[stream_id := r]> (Inner.streams i)}} in
          let '(i, sent) := send_relay i hop relay_command stream_id payload false in
          match sent with
          | Err e =>
              (i{{Inner.streams := delete stream_id (Inner.streams i);
                  Inner.objects := delete r (Inner.objects i)}}, Err e)
          | Ok _ => (i, Ok r)
          end
      end
  end.

(** [begin_stream], [begin_stream_onion], [begin_dir_stream]; the target name
    has ASCII letters only, as SOCKS5 hands it over. *)
Definition begin_stream (i : Inner.t) (r : nat) (target : bytes) (port : Z) :=
  open_stream i r RELAY_BEGIN
    (map to_ascii_lowercase target ++ B ":" ++ show_uint port ++ [0]).
Definition begin_stream_onion (i : Inner.t) (r : nat) (port : Z) :=
  open_stream i r RELAY_BEGIN (B ":" ++ show_uint port ++ [0]).
Definition begin_dir_stream (i : Inner.t) (r : nat) :=
  open_stream i r RELAY_BEGIN_DIR [].

(** *** Using a stream *)

(** One pass of [send_data]. *)
Definition send_data (now : Z) (timed_out : bool) (i : Inner.t) (hop : nat) (stream_id : Z)
    (data : bytes) : Inner.t * pass (result unit) :=
  if negb (FlowControl.may_send (State.flow (Inner.state i))) then
    if is_closed i then (i, Done (Err circuit_closed))
    else if timed_out then
      (i, Done (Err (IoError TimedOut (Message "circuit send window stayed empty"))))
    else (i, Wait)
  else
    let i := set_state i ((Inner.state i){{State.flow :=
               FlowControl.note_sent (State.flow (Inner.state i)) now}}) in
    let '(i, sent) := send_relay i hop RELAY_DATA stream_id data false in
    (i, Done sent).

(** One pass of the wait in [send_stream_data]; [woken] when it has slept. *)
Definition reserve (woken timed_out : bool) (i : Inner.t) (s : Stream.t)
    : pass (result unit) :=
  if woken && is_closed i then Done (Err circuit_closed)
  else if Stream.package_window s <=? 0 then
    match Stream.ended s, Stream.error s with
    | Some reason, _ => Done (Err (stream_end_error reason))
    | None, Some err => Done (Err (IoError ConnectionAborted (Message err)))
    | None, None =>
        if timed_out
        then Done (Err (IoError TimedOut (Message "stream send window stayed empty")))
        else Wait
    end
  else
    match Stream.ended s with
    | Some reason => Done (Err (stream_end_error reason))
    | None => Done (Ok tt)
    end.

(** [send_stream_data] when neither wait has to sleep; [Wait] otherwise. *)
Definition send_stream_data (now : Z) (i : Inner.t) (r : nat) (chunk : bytes)
    : Inner.t * pass (result unit) :=
  match Inner.objects i !! r with
  | None => (i, Wait)
  | Some s =>
      match reserve false false i s with
      | Wait => (i, Wait)
      | Done (Err e) => (i, Done (Err e))
      | Done (Ok _) =>
          let i := with_stream i r (fun s =>
            s{{Stream.package_window := Stream.package_window s - 1}}) in
          send_data now false i (Stream.hop s) (Stream.id s) chunk
      end
  end.

(** One pass of [read_stream] into a buffer of [want] bytes.  [woken] carries
    the nanoseconds since the wait began, once it has slept. *)
Definition QUIET_BEFORE_PROBE : Z := 15 * 1000000000.

Definition read_stream (i : Inner.t) (r : nat) (want : Z) (woken : option Z)
    : Inner.t * pass (result bytes) :=
  match Inner.objects i !! r with
  | None => (i, Wait)
  | Some s =>
      let gone :=
        match woken with
        | Some _ => is_closed i && bool_decide (Stream.data s = [])
        | None => false
        end in
      if gone then (i, Done (Err circuit_closed)) else
      let i :=
        match woken with
        | Some elapsed =>
            if QUIET_BEFORE_PROBE <=? elapsed
            then i{{Inner.meter := (Inner.meter i){{Meter.wants_probe := true}} }} else i
        | None => i
        end in
      match Stream.data s with
      | _ :: _ =>
          let n := Z.min (len (Stream.data s)) want in
          (with_stream i r (fun s => s{{Stream.data := slice_from (Stream.data s) n}}),
           Done (Ok (slice_to (Stream.data s) n)))
      | [] =>
          match Stream.error s, Stream.ended s with
          | Some err, _ => (i, Done (Err (IoError ConnectionAborted (Message err))))
          | None, Some reason =>
              if (reason =? END_REASON_DONE) || (reason =? END_REASON_MISC)
              then (i, Done (Ok [])) else (i, Done (Err (stream_end_error reason)))
          | None, None => (i, Wait)
          end
      end
  end.

(** The [loop] of [release_backpressure] under the window scheme, with fuel:
    each turn takes an increment off [unacked]. *)
Fixpoint release_windows (fuel : nat) (i : Inner.t) (r : nat) : Inner.t * result unit :=
  match fuel, Inner.objects i !! r with
  | S fuel, Some s =>
      let backlog_low := len (Stream.data s) <=? STREAM_WINDOW_INCREMENT * RELAY_DATA_MAX in
      if (Stream.unacked s <? STREAM_WINDOW_INCREMENT) || negb backlog_low then (i, Ok tt)
      else
        let i := with_stream i r (fun s =>
          s{{Stream.unacked := Stream.unacked s - STREAM_WINDOW_INCREMENT;
             Stream.deliver_window := Stream.deliver_window s + STREAM_WINDOW_INCREMENT}}) in
        let '(i, sent) := send_relay i (Stream.hop s) RELAY_SENDME (Stream.id s) [] false in
        match sent with
        | Err e => (i, Err e)
        | Ok _ => release_windows fuel i r
        end
  | _, _ => (i, Ok tt)
  end.

Definition release_backpressure (i : Inner.t) (r : nat) : Inner.t * result unit :=
  match Inner.objects i !! r with
  | None => (i, Ok tt)
  | Some s =>
      match Stream.xoff_bytes s with
      | Some limit =>
          if negb (Stream.xoff_sent s) || (limit / 2 <? len (Stream.data s)) then (i, Ok tt)
          else
            let i := with_stream i r (fun s => s{{Stream.xoff_sent := false}}) in
            send_relay i (Stream.hop s) RELAY_XON (Stream.id s) ([0] ++ to_be 4 0) false
      | None =>
          release_windows (S (Z.to_nat (Stream.unacked s / STREAM_WINDOW_INCREMENT))) i r
      end
  end.

(** [TorStream::close]. *)
Definition close_stream (i : Inner.t) (r : nat) : Inner.t :=
  match Inner.objects i !! r with
  | None => i
  | Some s =>
      let i := fst (send_relay i (Stream.hop s) RELAY_END (Stream.id s) [END_REASON_DONE] false) in
      let i := i{{Inner.streams := delete (Stream.id s) (Inner.streams i)}} in
      with_stream i r (fun s =>
        match Stream.ended s with
        | None => s{{Stream.ended := Some END_REASON_DONE}}
        | Some _ => s
        end)
  end.

(** [Circuit::close]. *)
Definition close (i : Inner.t) : Inner.t :=
  if Inner.closed i then i
  else
    let i := i{{Inner.closed := true}} in
    let i :=
      match Cell.new (Inner.circ_id i) CMD_DESTROY [END_REASON_MISC] with
      | Ok cell => fst (send_cell i cell)
      | Err _ => i
      end in
    let i := i{{Inner.registered := false}} in
    fail_all i "circuit closed".
End circuit.

(** ** What each operation leaves alone *)

(** The table, the stream buffers and the allocator. *)
Definition tables (i : Inner.t) : gmap Z nat * gmap nat Stream.t * bool * Z * Z :=
  (Inner.streams i, Inner.objects i, Inner.chan_closed i, Inner.circ_id i,
   State.next_stream_id (Inner.state i)).

Section frames.
Context `{Crypto} (rng : Z -> result bytes).

Lemma send_cell_tables i c : tables (fst (send_cell i c)) = tables i.
Proof. unfold send_cell. by case_match. Qed.

Lemma build_relay_cell_next st id hop cmd sid data early :
  State.next_stream_id (fst (build_relay_cell rng st id hop cmd sid data early)) =
    State.next_stream_id st.
Proof. unfold build_relay_cell. repeat (case_match; try done). Qed.

Lemma decrypt_inbound_next st body :
  State.next_stream_id (fst (fst (decrypt_inbound st body))) = State.next_stream_id st.
Proof. unfold decrypt_inbound. by repeat case_match. Qed.

Lemma send_relay_tables i hop cmd sid data early :
  tables (fst (send_relay rng i hop cmd sid data early)) = tables i.
Proof.
  unfold send_relay. pose proof (build_relay_cell_next (Inner.state i) (Inner.circ_id i) hop cmd
    sid data early) as N.
  destruct (build_relay_cell _ _ _ _ _ _ _ _) as [st [c|e]]; cbn [fst] in N |- *.
  - rewrite send_cell_tables. unfold tables. cbn. by rewrite N.
  - unfold tables. cbn. by rewrite N.
Qed.

Lemma send_relay_objects i hop cmd sid data early :
  Inner.objects (fst (send_relay rng i hop cmd sid data early)) = Inner.objects i /\
  Inner.streams (fst (send_relay rng i hop cmd sid data early)) = Inner.streams i /\
  State.next_stream_id (Inner.state (fst (send_relay rng i hop cmd sid data early))) =
    State.next_stream_id (Inner.state i).
Proof.
  pose proof (send_relay_tables i hop cmd sid data early) as T. unfold tables in T.
  by injection T as -> -> _ _ ->.
Qed.

Lemma handle_data_tables now i hop sid data :
  let '(i', r) := handle_data rng now i hop sid data in
  (exists j, tables j = tables i /\ (i', r) = deliver_data rng now j hop sid data) \/
  (tables i' = tables i /\ is_ok r = false).
Proof.
  unfold handle_data. destruct (FlowControl.note_received _) as [flow [[|]|e]]; [| |by right].
  - cbv zeta. match goal with |- context [build_relay_cell rng ?st ?id ?h ?c ?s ?d ?e] =>
      pose proof (build_relay_cell_next st id h c s d e) as N end.
    destruct (build_relay_cell _ _ _ _ _ _ _ _) as [st [c|e]]; cbn [fst] in N;
      [|right; unfold tables; cbn; by rewrite N].
    destruct (send_cell _ c) as [j [u|e]] eqn:S; apply (f_equal fst) in S; cbn [fst] in S; subst j.
    + destruct (deliver_data _ _ _ _ _ _) as [i' r] eqn:D. left. eexists. split; [|symmetry; exact D].
      rewrite send_cell_tables. unfold tables. cbn. by rewrite N.
    + right. split; [|done]. rewrite send_cell_tables. unfold tables. cbn. by rewrite N.
  - destruct (deliver_data _ _ _ _ _ _) as [i' r] eqn:D. left. eexists. by split; [|symmetry; exact D].
Qed.
End frames.

(** ** Cells only ever join the end of the channel's queue *)

Lemma send_relay_sent `{Crypto} rng i hop cmd sid data early :
  exists rest, Inner.sent (fst (send_relay rng i hop cmd sid data early)) = Inner.sent i ++ rest.
Proof.
  unfold send_relay. destruct (build_relay_cell _ _ _ _ _ _ _ _) as [st [c|e]];
    [|exists []; by rewrite app_nil_r].
  unfold send_cell. destruct (Inner.chan_closed _); [exists []; by rewrite app_nil_r|by exists [c]].
Qed.

Lemma deliver_data_sent `{Crypto} rng now i hop sid payload :
  exists rest, Inner.sent (fst (deliver_data rng now i hop sid payload)) = Inner.sent i ++ rest.
Proof.
  unfold deliver_data. destruct (lookup i sid); [|exists []; by rewrite app_nil_r].
  cbv zeta. destruct (match _ !! _ with Some _ => _ | None => _ end);
    [|exists []; by rewrite app_nil_r].
  match goal with |- context [send_relay rng ?k ?h ?c ?d ?p ?e] =>
    destruct (send_relay_sent rng k h c d p e) as [rest E] end.
  exists rest. exact E.
Qed.

(** ** The invariant of the tables *)

Record stream_ok (s : Stream.t) : Prop := {
  so_windows : Stream.deliver_window s + Stream.unacked s = STREAM_WINDOW_START;
  so_unacked : 0 <= Stream.unacked s;
  so_xoff : forall limit, Stream.xoff_bytes s = Some limit ->
    0 <= limit < len (Stream.data s) -> Stream.xoff_sent s = true;
  so_id : 0 < Stream.id s < 65536;
}.

(** Every buffer is sound, and the table maps an ID to the one stream that
    has it. *)
Record inner_ok (i : Inner.t) : Prop := {
  io_objects : forall r s, Inner.objects i !! r = Some s -> stream_ok s;
  io_table : forall id r, Inner.streams i !! id = Some r ->
    exists s, Inner.objects i !! r = Some s /\ Stream.id s = id;
  io_next : 0 <= State.next_stream_id (Inner.state i) < 65536;
}.

Lemma inner_ok_tables i j : tables i = tables j -> inner_ok j -> inner_ok i.
Proof.
  unfold tables. intros E [A C N]. injection E as E1 E2 _ _ E3. split; rewrite ?E1, ?E2, ?E3; done.
Qed.

(** Changing one stream without renaming it. *)
Lemma inner_ok_with_stream i r f :
  inner_ok i -> (forall s, stream_ok s -> stream_ok (f s) /\ Stream.id (f s) = Stream.id s) ->
  inner_ok (with_stream i r f).
Proof.
  intros [A C N] Hf. split; cbn; [| |done].
  - intros q s Hq. apply lookup_alter_Some in Hq as [(-> & t & Ht & ->)|[_ Hq]]; [|by eapply A].
    apply Hf. by eapply A.
  - intros id q Hq. destruct (C id q Hq) as (s & Hs & Hid).
    destruct (decide (q = r)) as [->|Hn].
    + exists (f s). rewrite lookup_alter_eq, Hs. split; [done|].
      rewrite <- Hid. apply Hf. by eapply A.
    + exists s. by rewrite lookup_alter_ne.
Qed.

Lemma inner_ok_on_stream i id f :
  inner_ok i -> (forall s, stream_ok s -> stream_ok (f s) /\ Stream.id (f s) = Stream.id s) ->
  inner_ok (on_stream i id f).
Proof. unfold on_stream. intros. case_match; [by apply inner_ok_with_stream|done]. Qed.

Lemma inner_ok_delete i id :
  inner_ok i -> inner_ok (i{{Inner.streams := delete id (Inner.streams i)}}).
Proof.
  intros [A C N]. split; cbn; [done| |done]. intros k r Hk. apply lookup_delete_Some in Hk as [_ Hk].
  by apply C.
Qed.

(** A change that leaves the fields of [stream_ok] alone. *)
Ltac stream_frame := let S := fresh in intros ? S; split; [by destruct S; split|done].

(** What a data cell does to its stream, all told. *)
Definition receive (payload : bytes) (s : Stream.t) : Stream.t :=
  let s := s{{Stream.deliver_window := Stream.deliver_window s - 1;
              Stream.unacked := Stream.unacked s + 1;
              Stream.data := Stream.data s ++ payload}} in
  match Stream.xoff_bytes s with
  | Some limit =>
      if negb (Stream.xoff_sent s) && (limit <? len (Stream.data s))
      then s{{Stream.xoff_sent := true}} else s
  | None => s
  end.

Lemma stream_ok_receive payload s :
  stream_ok s -> stream_ok (receive payload s) /\ Stream.id (receive payload s) = Stream.id s.
Proof.
  intros [W U X I]. destruct s; unfold receive; cbn in *.
  destruct xoff_bytes as [limit|]; [destruct xoff_sent; cbn;
    [|destruct (Z.ltb_spec limit (len (data ++ payload))); cbn]|];
    (split; [split; cbn; try done; try lia|done]).
  intros ? [= <-]. lia.
Qed.

Section preserve.
Context `{Crypto} (rng : Z -> result bytes).

Lemma deliver_data_objects now i hop sid payload :
  let i' := fst (deliver_data rng now i hop sid payload) in
  Inner.streams i' = Inner.streams i /\
  State.next_stream_id (Inner.state i') = State.next_stream_id (Inner.state i) /\
  Inner.objects i' =
    match lookup i sid with
    | None => Inner.objects i
    | Some r => alter (receive payload) r (Inner.objects i)
    end.
Proof.
  unfold deliver_data. destruct (lookup i sid) as [r|] eqn:L; [|done]. cbn zeta.
  set (f1 := fun s : Stream.t => s{{Stream.deliver_window := _; Stream.unacked := _;
    Stream.data := _}}).
  set (j := (with_stream i r f1){{Inner.meter := _}}).
  change (Inner.objects j) with (alter f1 r (Inner.objects i)).
  rewrite lookup_alter_eq. set (stop := match _ <$> _ with Some _ => _ | None => _ end).
  assert (E : alter (receive payload) r (Inner.objects i) =
    if stop then alter (fun s => s{{Stream.xoff_sent := true}}) r (alter f1 r (Inner.objects i))
    else alter f1 r (Inner.objects i)).
  { unfold stop. destruct (Inner.objects i !! r) as [s|] eqn:O; cbn [fmap option_fmap option_map].
    - apply map_eq. intros q. destruct (decide (q = r)) as [->|Hq].
      + rewrite lookup_alter_eq, O. cbn [fmap option_fmap option_map]. unfold receive.
        fold (f1 s). destruct (Stream.xoff_bytes (f1 s)) as [limit|];
          [destruct (negb _ && _)|]; by rewrite !lookup_alter_eq, O.
      + rewrite lookup_alter_ne by done. case_match; by rewrite !lookup_alter_ne.
    - apply map_eq. intros q. destruct (decide (q = r)) as [->|Hq].
      + by rewrite !lookup_alter_eq, O.
      + by rewrite !lookup_alter_ne. }
  rewrite E. destruct stop; [|done].
  destruct (send_relay_objects rng (with_stream j r (fun s => s{{Stream.xoff_sent := true}}))
    hop RELAY_XOFF sid [0] false) as (-> & -> & ->). done.
Qed.

Lemma deliver_data_ok now i hop sid payload :
  inner_ok i -> inner_ok (fst (deliver_data rng now i hop sid payload)).
Proof.
  intros Hi. destruct (deliver_data_objects now i hop sid payload) as (E1 & E3 & E2).
  destruct (lookup i sid) as [r|].
  - assert (inner_ok (with_stream i r (receive payload))) as [A C N].
    { apply inner_ok_with_stream; [done|]. intros s. apply stream_ok_receive. }
    split; rewrite ?E1, ?E2, ?E3; done.
  - destruct Hi as [A C N]. split; rewrite ?E1, ?E2, ?E3; done.
Qed.

Lemma dispatch_relay_ok now i hop cmd sid data :
  inner_ok i -> inner_ok (fst (dispatch_relay rng now i hop cmd sid data)).
Proof.
  intros Hi. assert (forall st, State.next_stream_id st = State.next_stream_id (Inner.state i) ->
    inner_ok (set_state i st)) as Hs.
  { intros st Hn. apply (inner_ok_tables _ i); [|done]. unfold tables. cbn. by rewrite Hn. }
  unfold dispatch_relay. cbv zeta.
  repeat lazymatch goal with
  | |- inner_ok (fst (if ?b then _ else _)) => destruct b
  end; cbn [fst]; auto.
  - destruct (handshake_reply _ _); cbn [fst]; auto.
  - destruct (FlowControl.note_sendme _ _); cbn [fst]; auto.
  - apply inner_ok_on_stream; [done|]. stream_frame.
  - pose proof (handle_data_tables rng now i hop sid data) as T.
    destruct (handle_data rng now i hop sid data) as [i' r]. destruct T as [(j & Tj & E)|[Ti _]].
    + cbn [fst]. apply (f_equal fst) in E. cbn [fst] in E. rewrite E.
      apply deliver_data_ok. by apply (inner_ok_tables _ i).
    + by apply (inner_ok_tables _ i).
  - apply inner_ok_on_stream; [done|]. stream_frame.
  - apply inner_ok_delete, inner_ok_on_stream; [done|]. stream_frame.
  - apply inner_ok_on_stream; [done|]. stream_frame.
Qed.

Lemma handle_cell_ok now i c : inner_ok i -> inner_ok (fst (handle_cell rng now i c)).
Proof.
  intros Hi. assert (forall st, State.next_stream_id st = State.next_stream_id (Inner.state i) ->
    inner_ok (set_state i st)) as Hs.
  { intros st Hn. apply (inner_ok_tables _ i); [|done]. unfold tables. cbn. by rewrite Hn. }
  unfold handle_cell. cbv zeta.
  repeat lazymatch goal with
  | |- inner_ok (fst (if ?b then _ else _)) => destruct b
  end; cbn [fst]; auto.
  - destruct (handshake_reply _ _); cbn [fst]; auto.
  - unfold handle_relay. cbv zeta. destruct (negb _); [done|].
    pose proof (decrypt_inbound_next (Inner.state i) (Cell.body c)) as N.
    destruct (decrypt_inbound _ _) as [[st b] [hop|]]; cbn [fst] in *; auto.
    destruct (relay_message b) as [[[cmd sid] data]|e]; cbn [fst]; auto.
    apply dispatch_relay_ok; auto.
Qed.

Lemma find_stream_id_spec tries streams next :
  0 <= next < 65536 ->
  let '(found, next') := find_stream_id tries streams next in
  0 <= next' < 65536 /\
  match found with
  | Some id => 0 < id < 65536 /\ streams !! id = None
  | None => forall k, (k < tries)%nat ->
      (next + Z.of_nat k) mod 65536 = 0 \/ is_Some (streams !! ((next + Z.of_nat k) mod 65536))
  end.
Proof.
  revert next. induction tries as [|tries IH]; intros next Hn; cbn.
  { split; [done|]. intros k Hk. lia. }
  pose proof (Z.mod_pos_bound (next + 1) 65536 ltac:(lia)) as Hb.
  destruct ((next =? 0) || _) eqn:E.
  - specialize (IH _ Hb). destruct (find_stream_id _ _ _) as [[id|] next']; [done|].
    destruct IH as [IH1 IH2]. split; [done|]. intros [|k] Hk.
    + rewrite Z.add_0_r, Z.mod_small by lia. apply orb_true_iff in E as [E|E]; b2p; auto.
    + specialize (IH2 k ltac:(lia)). rewrite Zplus_mod_idemp_l in IH2.
      by replace (next + Z.of_nat (S k)) with (next + 1 + Z.of_nat k) by lia.
  - b2p. split; [done|]. split; [lia|].
    by destruct (streams !! next); [exfalso; eauto|].
Qed.

Lemma alloc_stream_id_ok i i' res :
  inner_ok i -> alloc_stream_id i = (i', res) ->
  inner_ok i' /\ Inner.streams i' = Inner.streams i /\ Inner.objects i' = Inner.objects i /\
  forall id, res = Ok id -> 0 < id < 65536 /\ Inner.streams i !! id = None.
Proof.
  intros [A C N]. unfold alloc_stream_id.
  pose proof (find_stream_id_spec (Z.to_nat U16_MAX) (Inner.streams i) _ N) as F.
  destruct (find_stream_id _ _ _) as [found next]. destruct F as [F1 F2].
  destruct found as [id|]; intros [= <- <-]; (split; [by split|split_and!; try done]).
  by intros ? [= <-].
Qed.

Lemma open_stream_ok i r cmd data :
  inner_ok i -> Inner.objects i !! r = None -> inner_ok (fst (open_stream rng i r cmd data)).
Proof.
  intros Hi Hr. unfold open_stream. destruct (last_hop i) as [hop|]; [|done].
  destruct (alloc_stream_id i) as [j [id|e]] eqn:Al;
    apply alloc_stream_id_ok in Al as (Hj & E1 & E2 & F); try done.
  destruct (F id eq_refl) as [F1 F2].
  set (k := j{{Inner.objects := _}}{{Inner.streams := _}}).
  assert (Hk : inner_ok k).
  { unfold k. destruct Hj as [A C N]. split; cbn; [| |done].
    - intros q s Hq. apply lookup_insert_Some in Hq as [[-> <-]|[_ Hq]]; [|by eapply A].
      split; [done|done| |done]. intros limit _. change (len (Stream.data _)) with 0. lia.
    - intros id' q Hq. apply lookup_insert_Some in Hq as [[<- <-]|[Hn Hq]].
      + exists (Stream.new id hop (FlowControl.xoff_bytes (State.flow (Inner.state j)))).
        by rewrite lookup_insert_eq.
      + destruct (C id' q Hq) as (s & Hs & Hid). exists s. split; [|done].
        rewrite lookup_insert_ne; [done|]. intros ->. rewrite E2 in Hs. congruence. }
  pose proof (send_relay_tables rng k hop cmd id data false) as T.
  destruct (send_relay rng k hop cmd id data false) as [m [u|e]]; cbn [fst] in T |- *.
  - by apply (inner_ok_tables _ k).
  - assert (Hm : inner_ok m) by (by apply (inner_ok_tables _ k)). destruct Hm as [A C N].
    unfold tables in T. injection T as T1 T2 _ _ _.
    split; cbn; [| |done].
    + intros q s Hq. apply lookup_delete_Some in Hq as [_ Hq]. by eapply A.
    + intros id' q Hq. apply lookup_delete_Some in Hq as [Hne Hq].
      destruct (C id' q Hq) as (s & Hs & Hid). exists s. split; [|done].
      rewrite lookup_delete_ne; [done|]. intros <-. apply Hne.
      rewrite T2 in Hs. unfold k in Hs. cbn in Hs. rewrite lookup_insert_eq in Hs.
      by injection Hs as <-.
Qed.

Lemma inner_ok_send_relay i hop cmd sid data early :
  inner_ok i -> inner_ok (fst (send_relay rng i hop cmd sid data early)).
Proof. intros Hi. apply (inner_ok_tables _ i); [apply send_relay_tables|done]. Qed.

Lemma send_data_tables now timed_out i hop sid data :
  tables (fst (send_data rng now timed_out i hop sid data)) = tables i.
Proof.
  unfold send_data. repeat (case_match; try done).
  all: match goal with S : send_relay rng ?j _ _ _ _ _ = _ |- _ =>
         pose proof (send_relay_tables rng j hop RELAY_DATA sid data false) as T; rewrite S in T
       end; exact T.
Qed.

Lemma send_stream_data_ok now i r chunk :
  inner_ok i -> inner_ok (fst (send_stream_data rng now i r chunk)).
Proof.
  intros Hi. unfold send_stream_data. destruct (Inner.objects i !! r) as [s|]; [|done].
  destruct (reserve _ _ _ _) as [[u|e]|]; [|done|done].
  eapply inner_ok_tables; [apply send_data_tables|].
  apply inner_ok_with_stream; [done|]. stream_frame.
Qed.

Lemma stream_ok_drop n s :
  stream_ok s ->
  stream_ok (s{{Stream.data := slice_from (Stream.data s) n}}) /\
  Stream.id (s{{Stream.data := slice_from (Stream.data s) n}}) = Stream.id s.
Proof.
  intros [W U X I]. split; [|done]. split; [done|done| |done]. intros limit Hl Hd.
  apply (X limit Hl). change (len (Stream.data _)) with (len (slice_from (Stream.data s) n)) in Hd.
  unfold slice_from in Hd. rewrite len_drop in Hd. lia.
Qed.

Lemma read_stream_ok i r want woken :
  inner_ok i -> inner_ok (fst (read_stream i r want woken)).
Proof.
  intros Hi. unfold read_stream. destruct (Inner.objects i !! r) as [s|]; [|done].
  destruct (match woken with Some _ => _ | None => _ end); [done|].
  set (j := match woken with Some _ => _ | None => i end).
  assert (Hj : inner_ok j).
  { apply (inner_ok_tables _ i); [|done]. unfold j. by repeat case_match. }
  destruct (Stream.data s) as [|b l] eqn:D; [by repeat case_match|]. cbn [fst].
  apply inner_ok_with_stream; [done|]. intros t. apply stream_ok_drop.
Qed.

Lemma release_windows_ok fuel i r :
  inner_ok i -> inner_ok (fst (release_windows rng fuel i r)).
Proof.
  revert i. induction fuel as [|fuel IH]; intros i Hi; [done|]. cbn [release_windows].
  destruct (Inner.objects i !! r) as [s|] eqn:O; [|done].
  destruct ((_ <? _) || _) eqn:E; [done|]. b2p.
  set (j := with_stream i r _). assert (Hj : inner_ok j).
  { destruct Hi as [A C N]. split; cbn; [| |done].
    - intros q t Hq. apply lookup_alter_Some in Hq as [(-> & u & Hu & ->)|[_ Hq]]; [|by eapply A].
      assert (u = s) as -> by congruence. destruct (A _ s O) as [W U X I].
      split; [cbn; lia|cbn; lia|exact X|exact I].
    - intros id q Hq. destruct (C id q Hq) as (t & Ht & Hid).
      destruct (decide (q = r)) as [->|Hn].
      + eexists. rewrite lookup_alter_eq, Ht. split; [done|exact Hid].
      + exists t. by rewrite lookup_alter_ne. }
  pose proof (inner_ok_send_relay j (Stream.hop s) RELAY_SENDME (Stream.id s) [] false Hj) as Hk.
  destruct (send_relay _ _ _ _ _ _ _) as [k [u|e]]; [by apply IH|done].
Qed.

Lemma release_backpressure_ok i r :
  inner_ok i -> inner_ok (fst (release_backpressure rng i r)).
Proof.
  intros Hi. unfold release_backpressure. destruct (Inner.objects i !! r) as [s|] eqn:O; [|done].
  destruct (Stream.xoff_bytes s) as [limit|] eqn:L; [|by apply release_windows_ok].
  destruct (_ || _) eqn:E; [done|]. b2p. apply inner_ok_send_relay.
  destruct Hi as [A C N]. split; cbn; [| |done].
  - intros q t Hq. apply lookup_alter_Some in Hq as [(-> & u & Hu & ->)|[_ Hq]]; [|by eapply A].
    assert (u = s) as -> by congruence. destruct (A _ s O) as [W U X I].
    split; [exact W|exact U| |exact I]. intros limit' Hl Hd. exfalso.
    change (Stream.xoff_bytes s = Some limit') in Hl.
    change (0 <= limit' < len (Stream.data s)) in Hd.
    assert (limit' = limit) as -> by congruence.
    pose proof (Z.div_le_upper_bound limit 2 limit). lia.
  - intros id q Hq. destruct (C id q Hq) as (t & Ht & Hid).
    destruct (decide (q = r)) as [->|Hn].
    + eexists. rewrite lookup_alter_eq, Ht. split; [done|exact Hid].
    + exists t. by rewrite lookup_alter_ne.
Qed.

Lemma close_stream_ok i r : inner_ok i -> inner_ok (close_stream rng i r).
Proof.
  intros Hi. unfold close_stream. destruct (Inner.objects i !! r) as [s|]; [|done].
  apply inner_ok_with_stream; [by apply inner_ok_delete, inner_ok_send_relay|].
  intros t St. destruct (Stream.ended t); (split; [by destruct St; split|done]).
Qed.

Lemma fail_all_ok i reason : inner_ok i -> inner_ok (fail_all i reason).
Proof.
  intros Hi. unfold fail_all.
  assert (Hj : inner_ok (i{{Inner.streams := ∅}})) by (destruct Hi; by split).
  revert Hj. generalize (i{{Inner.streams := ∅}}).
  induction (map snd _) as [|r refs IH]; intros j Hj; [done|]. cbn. apply IH.
  apply inner_ok_with_stream; [done|]. unfold fail_stream.
  intros t St. repeat case_match; (split; [by destruct St; split|done]).
Qed.

Lemma pump_end_ok i : inner_ok i -> inner_ok (pump_end i).
Proof. intros []. apply fail_all_ok. by split. Qed.

Lemma close_ok i : inner_ok i -> inner_ok (close i).
Proof.
  intros Hi. unfold close. destruct (Inner.closed i); [done|]. apply fail_all_ok.
  assert (H0 : inner_ok (i{{Inner.closed := true}})) by (destruct Hi; by split).
  cbv zeta. set (j := match Cell.new _ _ _ with Ok _ => _ | Err _ => _ end).
  assert (Hj : inner_ok j); [|destruct Hj; by split].
  unfold j. destruct (Cell.new _ _ _); [|done].
  by eapply inner_ok_tables; [apply send_cell_tables|].
Qed.
End preserve.

(** ** Everything that can happen to a circuit *)

Inductive op :=
  | OpHop (h : Hop.t)
  | OpAdopt (answered : list (Z * bytes)) (params : CcParams.t)
  | OpUseCc (params : CcParams.t) (sendme_inc : Z)
  | OpHandshake (timed_out : bool)
  | OpControl (relay_command : Z) (timed_out : bool)
  | OpSendControl (relay_command : Z) (payload : bytes)
  | OpCell (now : Z) (c : Cell.t)
  | OpOpen (r : nat) (relay_command : Z) (payload : bytes)
  | OpWrite (now : Z) (r : nat) (chunk : bytes)
  | OpRead (r : nat) (want : Z) (woken : option Z)
  | OpRelease (r : nat)
  | OpCloseStream (r : nat)
  | OpPumpEnd
  | OpClose.

(** One operation; a stream is opened under a reference not used before. *)
Definition run_op `{Crypto} (rng : Z -> result bytes) (i : Inner.t) (o : op) : Inner.t :=
  match o with
  | OpHop h => push_hop i h
  | OpAdopt answered params => fst (adopt_congestion_control i answered params)
  | OpUseCc params sendme_inc => use_congestion_control i params sendme_inc
  | OpHandshake timed_out => fst (wait_for_handshake i timed_out)
  | OpControl cmd timed_out => fst (wait_for_control i cmd timed_out)
  | OpSendControl cmd payload => fst (send_control rng i cmd payload)
  | OpCell now c => fst (handle_cell rng now i c)
  | OpOpen r cmd payload =>
      match Inner.objects i !! r with
      | None => fst (open_stream rng i r cmd payload)
      | Some _ => i
      end
  | OpWrite now r chunk => fst (send_stream_data rng now i r chunk)
  | OpRead r want woken => fst (read_stream i r want woken)
  | OpRelease r => fst (release_backpressure rng i r)
  | OpCloseStream r => close_stream rng i r
  | OpPumpEnd => pump_end i
  | OpClose => close i
  end.

Definition run_ops `{Crypto} (rng : Z -> result bytes) (i : Inner.t) (ops : list op) : Inner.t :=
  fold_left (run_op rng) ops i.

(** The operations that only concern the crypto state and the control queue. *)
Definition is_setup (o : op) : bool :=
  match o with
  | OpHop _ | OpAdopt _ _ | OpUseCc _ _ | OpHandshake _ | OpControl _ _ | OpSendControl _ _ => true
  | _ => false
  end.

Lemma setup_tables `{Crypto} rng i o : is_setup o = true -> tables (run_op rng i o) = tables i.
Proof.
  destruct o; try done; intros _; cbn [run_op].
  - unfold adopt_congestion_control. by repeat (case_match; try done).
  - unfold wait_for_handshake. by repeat (case_match; try done).
  - unfold wait_for_control, State.take_control.
    by repeat (case_match; simplify_eq; try done).
  - unfold send_control. case_match; [apply send_relay_tables|done].
Qed.

Lemma run_op_ok `{Crypto} rng i o : inner_ok i -> inner_ok (run_op rng i o).
Proof.
  intros Hi. destruct (is_setup o) eqn:S; [by eapply inner_ok_tables; [by apply setup_tables|]|].
  revert Hi. destruct o; try done; cbn [run_op]; eauto using handle_cell_ok, send_stream_data_ok, read_stream_ok,
    release_backpressure_ok, close_stream_ok, pump_end_ok, close_ok.
  case_match; eauto using open_stream_ok.
Qed.

Lemma run_ops_ok `{Crypto} rng ops i : inner_ok i -> inner_ok (run_ops rng i ops).
Proof.
  revert i. induction ops as [|o ops IH]; intros i Hi; [done|]. cbn. by apply IH, run_op_ok.
Qed.

(** ** XOFF goes out when its flag goes up

    [xoff_sent] is a note to itself; that the far end was told is read off
    the queue of the channel. *)

Section xoff.
Context `{CryptoLaws} (rng : Z -> result bytes).

(** In going from [i] to [i'] the circuit queued, last of all, the cell of
    this relay message; which the relay it is addressed to, keeping step with
    the client, reads as exactly that message. *)
Definition queued_last (i i' : Inner.t) (hop : nat) (cmd sid : Z) (data : bytes) : Prop :=
  exists j earlier c,
    Inner.sent j = Inner.sent i ++ earlier /\ Inner.sent i' = Inner.sent j ++ [c] /\
    build_relay_cell rng (Inner.state j) (Inner.circ_id j) hop cmd sid data false = (Inner.state i', Ok c) /\
    (fills rng -> mistaken Fwd (State.hops (Inner.state j)) hop (Cell.body c) = false ->
     exists body full,
       relays_receive (State.hops (Inner.state j)) (Cell.body c) =
         (State.hops (Inner.state i'), body, Some (hop, full)) /\
       relay_message body = Ok (cmd, sid, data)).

(** Every flag that is up in [m'] was up in [m], on the same stream. *)
Definition no_new_flag (m m' : gmap nat Stream.t) : Prop :=
  forall r s', m' !! r = Some s' -> Stream.xoff_sent s' = true ->
  exists s, m !! r = Some s /\ Stream.xoff_sent s = true /\ Stream.id s = Stream.id s'.

#[local] Instance no_new_flag_preorder : PreOrder no_new_flag.
Proof.
  split; [intros m r s' Hs X; by exists s'|].
  intros m1 m2 m3 A C r s' Hs X. destruct (C r s' Hs X) as (s2 & H2 & X2 & <-). by apply A.
Qed.

Lemma no_new_flag_alter m q (f : Stream.t -> Stream.t) :
  (forall s, (Stream.xoff_sent (f s) = true -> Stream.xoff_sent s = true) /\ Stream.id (f s) = Stream.id s) ->
  no_new_flag m (alter f q m).
Proof.
  intros Hf r s' Hs X. apply lookup_alter_Some in Hs as [(-> & s & Hs & ->)|[_ Hs]]; [|by exists s'].
  destruct (Hf s) as [F1 F2]. exists s. auto.
Qed.

Lemma no_new_flag_delete m q : no_new_flag m (delete q m).
Proof. intros r s' Hs X. apply lookup_delete_Some in Hs as [_ Hs]. by exists s'. Qed.

Lemma no_new_flag_insert m q s : Stream.xoff_sent s = false -> no_new_flag m (<[q := s]> m).
Proof.
  intros Hs r s' Hr X. apply lookup_insert_Some in Hr as [[<- <-]|[_ Hr]]; [congruence|by exists s'].
Qed.

Lemma no_new_flag_tables i j : tables j = tables i -> no_new_flag (Inner.objects i) (Inner.objects j).
Proof. intros T. unfold tables in T. injection T as _ -> _ _ _. reflexivity. Qed.

Lemma no_new_flag_send i hop cmd sid data early :
  no_new_flag (Inner.objects i) (Inner.objects (fst (send_relay rng i hop cmd sid data early))).
Proof. apply no_new_flag_tables, send_relay_tables. Qed.

Ltac keeps_flags := apply no_new_flag_alter; intros ?; by split.

(** A flag that is up after a step was up before it, or its XOFF was queued. *)
Definition flag_step (i i' : Inner.t) : Prop :=
  forall r s', Inner.objects i' !! r = Some s' -> Stream.xoff_sent s' = true ->
  (exists s, Inner.objects i !! r = Some s /\ Stream.xoff_sent s = true /\ Stream.id s = Stream.id s') \/
  (exists hop, queued_last i i' hop RELAY_XOFF (Stream.id s') [0]).

Lemma flag_step_quiet i i' : no_new_flag (Inner.objects i) (Inner.objects i') -> flag_step i i'.
Proof. intros F r s' Hs X. left. by apply F. Qed.

Lemma flag_step_after i j i' rest :
  Inner.objects j = Inner.objects i -> Inner.sent j = Inner.sent i ++ rest -> flag_step j i' -> flag_step i i'.
Proof.
  intros Eo Es F r s' Hs X. destruct (F r s' Hs X) as [O|(hop & k & earlier & c & E1 & E2)].
  - left. by rewrite <- Eo.
  - right. exists hop, k, (rest ++ earlier), c. split; [|exact E2]. by rewrite E1, Es, <- app_assoc.
Qed.

Lemma send_relay_queued i hop cmd sid data j :
  0 <= sid < 65536 -> send_relay rng i hop cmd sid data false = (j, Ok tt) -> queued_last i j hop cmd sid data.
Proof.
  intros Hsid. unfold send_relay.
  destruct (build_relay_cell rng (Inner.state i) (Inner.circ_id i) hop cmd sid data false) as [st [c|e]] eqn:Bc; [|done].
  unfold send_cell. destruct (Inner.chan_closed _); [done|]. intros [= <-].
  exists i, [], c. split_and!; [by rewrite app_nil_r|done|done|]. intros Hf Hm.
  destruct (built_cell_received rng _ _ _ _ _ _ _ _ _ Hf Hsid Bc Hm) as (body & full & R & M & _).
  by exists body, full.
Qed.

(** The pump tells the far end to stop in the same breath. *)
Lemma deliver_data_flags now i hop sid payload :
  inner_ok i -> is_ok (snd (deliver_data rng now i hop sid payload)) = true ->
  flag_step i (fst (deliver_data rng now i hop sid payload)).
Proof.
  intros Hi. unfold deliver_data. destruct (lookup i sid) as [q|] eqn:L; [|intros _; by apply flag_step_quiet].
  cbv zeta. set (f1 := fun s : Stream.t => s{{Stream.deliver_window := _; Stream.unacked := _; Stream.data := _}}).
  set (j := (with_stream i q f1){{Inner.meter := _}}).
  assert (Oj : Inner.objects j = alter f1 q (Inner.objects i)) by done.
  assert (Hj : no_new_flag (Inner.objects i) (Inner.objects j)) by keeps_flags.
  destruct (match _ !! _ with Some _ => _ | None => _ end); [|intros _; by apply flag_step_quiet].
  set (k := with_stream j q _).
  destruct (io_table i Hi sid q L) as (s0 & Hs0 & Hid).
  assert (Hsid : 0 <= sid < 65536) by (destruct (io_objects i Hi q s0 Hs0) as [_ _ _ I0]; lia).
  destruct (send_relay_objects rng k hop RELAY_XOFF sid [0] false) as (Eo & _ & _).
  destruct (send_relay rng k hop RELAY_XOFF sid [0] false) as [m [[]|e]] eqn:Se; [|done]. intros _. cbn [fst] in Eo |- *.
  apply send_relay_queued in Se; [|done]. intros r s' Hs X. rewrite Eo in Hs.
  change (Inner.objects k) with (alter (fun s => s{{Stream.xoff_sent := true}}) q (Inner.objects j)) in Hs.
  apply lookup_alter_Some in Hs as [(-> & t & Ht & ->)|[_ Hs]]; [right|left; by apply Hj].
  rewrite Oj in Ht. apply lookup_alter_Some in Ht as [(_ & u & Hu & ->)|[? _]]; [|done].
  assert (u = s0) as -> by congruence. exists hop. change (Stream.id _) with (Stream.id s0). by rewrite Hid.
Qed.

Lemma handle_data_flags now i hop sid data :
  inner_ok i -> is_ok (snd (handle_data rng now i hop sid data)) = true ->
  flag_step i (fst (handle_data rng now i hop sid data)).
Proof.
  intros Hi. unfold handle_data. destruct (FlowControl.note_received _) as [flow [[|]|e]]; [| |done].
  - cbv zeta. match goal with |- context [build_relay_cell rng ?st ?id ?h ?c ?s ?d ?e] =>
      pose proof (build_relay_cell_next rng st id h c s d e) as N end.
    destruct (build_relay_cell _ _ _ _ _ _ _ _) as [st [c|e]]; cbn [fst] in N; [|done].
    unfold send_cell. destruct (Inner.chan_closed _); [done|]. intros Hok.
    match type of Hok with context [deliver_data rng now ?j _ _ _] => set (k := j) in * end.
    apply (flag_step_after i k _ [c]); [done|done|]. apply deliver_data_flags; [|done].
    apply (inner_ok_tables _ i); [|done]. unfold tables. cbn. by rewrite N.
  - intros Hok. match type of Hok with context [deliver_data rng now ?j _ _ _] => set (k := j) in * end.
    apply (flag_step_after i k _ []); [done|by rewrite app_nil_r|]. apply deliver_data_flags; [|done].
    by apply (inner_ok_tables _ i).
Qed.

Lemma on_stream_flags i sid (f : Stream.t -> Stream.t) :
  (forall s, (Stream.xoff_sent (f s) = true -> Stream.xoff_sent s = true) /\ Stream.id (f s) = Stream.id s) ->
  no_new_flag (Inner.objects i) (Inner.objects (on_stream i sid f)).
Proof. intros Hf. unfold on_stream. case_match; [by apply no_new_flag_alter|reflexivity]. Qed.

Lemma dispatch_relay_flags now i hop cmd sid data :
  inner_ok i -> is_ok (snd (dispatch_relay rng now i hop cmd sid data)) = true ->
  flag_step i (fst (dispatch_relay rng now i hop cmd sid data)).
Proof.
  intros Hi. assert (Same : forall i', Inner.objects i' = Inner.objects i -> flag_step i i')
    by (intros i' E; apply flag_step_quiet; by rewrite E).
  unfold dispatch_relay. cbv zeta.
  case_match; [destruct (handshake_reply _ _); intros _; by apply Same|].
  case_match; [case_match; [destruct (FlowControl.note_sendme _ _); intros _; by apply Same|]|];
    [intros _; apply flag_step_quiet, on_stream_flags; intros ?; by split|].
  case_match; [by apply handle_data_flags|].
  case_match; [intros _; apply flag_step_quiet, on_stream_flags; intros ?; by split|].
  case_match; [intros _; apply flag_step_quiet; cbn [fst]; apply (on_stream_flags i sid); intros ?; by split|].
  case_match; [done|].
  case_match; [case_match; [done|]; intros _; apply flag_step_quiet, on_stream_flags; intros ?; by split|].
  case_match; intros _; by apply Same.
Qed.

Lemma handle_cell_flags now i c :
  inner_ok i -> is_ok (snd (handle_cell rng now i c)) = true -> flag_step i (fst (handle_cell rng now i c)).
Proof.
  intros Hi. assert (Same : forall i', Inner.objects i' = Inner.objects i -> flag_step i i')
    by (intros i' E; apply flag_step_quiet; by rewrite E).
  unfold handle_cell. cbv zeta. case_match; [case_match; intros _; by apply Same|].
  case_match; [destruct (handshake_reply _ _); intros _; by apply Same|].
  case_match; [intros _; by apply Same|]. case_match; [|intros _; by apply Same].
  unfold handle_relay. cbv zeta. destruct (negb _); [done|].
  pose proof (decrypt_inbound_next (Inner.state i) (Cell.body c)) as N.
  destruct (decrypt_inbound _ _) as [[st b] [hop|]]; cbn [fst] in N; [|intros _; by apply Same].
  destruct (relay_message b) as [[[cmd sid] data]|e]; [|done]. intros Hok.
  apply (flag_step_after i (set_state i st) _ []); [done|by rewrite app_nil_r|].
  apply dispatch_relay_flags; [|done]. apply (inner_ok_tables _ i); [|done]. unfold tables. cbn. by rewrite N.
Qed.

Lemma release_windows_flags fuel q : forall i,
  no_new_flag (Inner.objects i) (Inner.objects (fst (release_windows rng fuel i q))).
Proof.
  induction fuel as [|fuel IH]; intros i; [reflexivity|]. cbn [release_windows].
  destruct (Inner.objects i !! q) as [s|]; [|reflexivity]. destruct (_ || _); [reflexivity|].
  set (j := with_stream i q _). assert (Hj : no_new_flag (Inner.objects i) (Inner.objects j)) by keeps_flags.
  pose proof (no_new_flag_send j (Stream.hop s) RELAY_SENDME (Stream.id s) [] false) as Hk.
  destruct (send_relay _ _ _ _ _ _ _) as [k [u|e]]; cbn [fst] in *; [|by etrans].
  etrans; [exact Hj|]. by etrans.
Qed.

Lemma fail_all_flags i reason : no_new_flag (Inner.objects i) (Inner.objects (fail_all i reason)).
Proof.
  unfold fail_all. change (Inner.objects i) with (Inner.objects (i{{Inner.streams := ∅}})).
  generalize (i{{Inner.streams := ∅}}).
  induction (map snd _) as [|q refs IH]; intros j; [reflexivity|]. cbn. etrans; [|apply IH].
  apply no_new_flag_alter. intros s. unfold fail_stream. by repeat case_match.
Qed.

Lemma open_stream_flags i q cmd payload :
  no_new_flag (Inner.objects i) (Inner.objects (fst (open_stream rng i q cmd payload))).
Proof.
  unfold open_stream. destruct (last_hop i) as [hop|]; [|reflexivity].
  unfold alloc_stream_id. destruct (find_stream_id _ _ _) as [[id|] next]; [|reflexivity]. cbv zeta.
  match goal with |- context [send_relay rng ?j ?h ?c ?s ?d ?e] =>
    pose proof (no_new_flag_send j h c s d e) as D; set (k := j) in * end.
  assert (Hk : no_new_flag (Inner.objects i) (Inner.objects k)) by (by apply no_new_flag_insert).
  destruct (send_relay _ _ _ _ _ _ _) as [m [u|e]]; cbn [fst] in D |- *; [by etrans|].
  etrans; [exact Hk|]. etrans; [exact D|]. apply no_new_flag_delete.
Qed.

Lemma read_stream_flags i q want woken :
  no_new_flag (Inner.objects i) (Inner.objects (fst (read_stream i q want woken))).
Proof.
  unfold read_stream. destruct (Inner.objects i !! q) as [s|]; [|reflexivity].
  destruct (match woken with Some _ => _ | None => _ end); [reflexivity|].
  set (j := match woken with Some _ => _ | None => i end).
  assert (Hj : Inner.objects j = Inner.objects i) by (unfold j; by repeat case_match). rewrite <- Hj.
  destruct (Stream.data s); [by repeat case_match|]. keeps_flags.
Qed.

(** No operation but a cell's puts a flag up. *)
Lemma run_op_flags i o :
  inner_ok i ->
  match o with OpCell now c => is_ok (snd (handle_cell rng now i c)) | _ => true end = true ->
  match o with
  | OpCell _ _ => flag_step i (run_op rng i o)
  | _ => no_new_flag (Inner.objects i) (Inner.objects (run_op rng i o))
  end.
Proof.
  intros Hi Hok. destruct (is_setup o) eqn:S.
  { pose proof (no_new_flag_tables _ _ (setup_tables rng i o S)). by destruct o. }
  destruct o as [| | | | | |now c|q cmd payload|now q chunk|q want woken|q|q| |]; try done; cbn [run_op] in *;
    [by apply handle_cell_flags|..].
  - destruct (Inner.objects i !! q); [reflexivity|apply open_stream_flags].
  - unfold send_stream_data. destruct (Inner.objects i !! q) as [s|]; [|reflexivity].
    destruct (reserve _ _ _ _) as [[u|e]|]; [|reflexivity..]. etrans; [|apply no_new_flag_tables, send_data_tables]. keeps_flags.
  - apply read_stream_flags.
  - unfold release_backpressure. destruct (Inner.objects i !! q) as [s|]; [|reflexivity].
    destruct (Stream.xoff_bytes s) as [limit|]; [|apply release_windows_flags].
    destruct (_ || _); [reflexivity|]. etrans; [|apply no_new_flag_send]. keeps_flags.
  - unfold close_stream. destruct (Inner.objects i !! q) as [s|]; [|reflexivity].
    etrans; [|apply no_new_flag_alter; intros t; by destruct (Stream.ended t)]. apply no_new_flag_send.
  - unfold pump_end. etrans; [|apply fail_all_flags]. reflexivity.
  - unfold close. destruct (Inner.closed i); [reflexivity|]. etrans; [|apply fail_all_flags]. cbv zeta.
    destruct (Cell.new _ _ _); [|reflexivity]. unfold send_cell. by destruct (Inner.chan_closed _).
Qed.
End xoff.

(** ** Bytes through a stream *)

Definition data_of (i : Inner.t) (r : nat) : bytes :=
  match Inner.objects i !! r with Some s => Stream.data s | None => [] end.

(** The payload an inbound cell carries for the stream object [r]. *)
Definition payload_for `{Crypto} (i : Inner.t) (c : Cell.t) (r : nat) : bytes :=
  if (Cell.command c =? CMD_RELAY) || (Cell.command c =? CMD_RELAY_EARLY) then
    match decrypt_inbound (Inner.state i) (Cell.body c) with
    | (_, body, Some _) =>
        match relay_message body with
        | Ok (cmd, sid, data) =>
            if (cmd =? RELAY_DATA) && bool_decide (lookup i sid = Some r) then data else []
        | Err _ => []
        end
    | _ => []
    end
  else [].

(** What the operations of a run brought in for [r], and what they read. *)
Fixpoint received `{Crypto} (rng : Z -> result bytes) (i : Inner.t) (ops : list op) (r : nat)
    : bytes :=
  match ops with
  | [] => []
  | o :: ops =>
      match o with OpCell _ c => payload_for i c r | _ => [] end ++
      received rng (run_op rng i o) ops r
  end.

Fixpoint read_back `{Crypto} (rng : Z -> result bytes) (i : Inner.t) (ops : list op) (r : nat)
    : bytes :=
  match ops with
  | [] => []
  | o :: ops =>
      match o with
      | OpRead q want woken =>
          if bool_decide (q = r) then
            match snd (read_stream i q want woken) with Done (Ok out) => out | _ => [] end
          else []
      | _ => []
      end ++ read_back rng (run_op rng i o) ops r
  end.

(** No cell of the run made the pump give up. *)
Fixpoint no_errors `{Crypto} (rng : Z -> result bytes) (i : Inner.t) (ops : list op) : bool :=
  match ops with
  | [] => true
  | o :: ops =>
      match o with OpCell now c => is_ok (snd (handle_cell rng now i c)) | _ => true end &&
      no_errors rng (run_op rng i o) ops
  end.

(** *** The history of a flag *)

Section announced.
Context `{CryptoLaws} (rng : Z -> result bytes).

(** The far end was told to stop, and has not been told to go on since: the
    handling of one cell of the run queued the stream's XOFF, and the flag
    has been up ever since. *)
Definition announced (i0 : Inner.t) (ops : list op) (r : nat) (s : Stream.t) : Prop :=
  exists before now c after hop,
    ops = before ++ OpCell now c :: after /\
    queued_last rng (run_ops rng i0 before) (run_ops rng i0 (before ++ [OpCell now c])) hop
      RELAY_XOFF (Stream.id s) [0] /\
    forall mid rest, after = mid ++ rest ->
      exists t, Inner.objects (run_ops rng i0 (before ++ OpCell now c :: mid)) !! r = Some t /\
        Stream.id t = Stream.id s /\ Stream.xoff_sent t = true.

Lemma run_ops_app i a b : run_ops rng i (a ++ b) = run_ops rng (run_ops rng i a) b.
Proof. apply fold_left_app. Qed.

Lemma no_errors_app i a b :
  no_errors rng i (a ++ b) = no_errors rng i a && no_errors rng (run_ops rng i a) b.
Proof.
  revert i. induction a as [|o a IH]; intros i; [done|]. cbn [app no_errors]. rewrite IH, andb_assoc. done.
Qed.

Lemma flag_announced i0 ops :
  inner_ok i0 -> Inner.objects i0 = ∅ -> no_errors rng i0 ops = true ->
  forall r s, Inner.objects (run_ops rng i0 ops) !! r = Some s -> Stream.xoff_sent s = true ->
  announced i0 ops r s.
Proof.
  intros Hi Hno. induction ops as [|o ops IH] using rev_ind; intros Hn r s Hs X.
  { cbn in Hs. rewrite Hno in Hs. done. }
  rewrite no_errors_app in Hn. apply andb_prop in Hn as [Hn Ho]. cbn [no_errors] in Ho. rewrite andb_true_r in Ho.
  assert (Old : (exists t, Inner.objects (run_ops rng i0 ops) !! r = Some t /\
                   Stream.xoff_sent t = true /\ Stream.id t = Stream.id s) -> announced i0 (ops ++ [o]) r s).
  { intros (t & Ht & Xt & It). destruct (IH Hn r t Ht Xt) as (before & now & c & after & hop & -> & Q & K).
    exists before, now, c, (after ++ [o]), hop. split; [by rewrite <- app_assoc|]. split; [by rewrite <- It|].
    intros mid rest E. destruct rest as [|p rest _] using rev_ind.
    - rewrite app_nil_r in E. subst mid. exists s. rewrite <- app_assoc in Hs. by split_and!.
    - rewrite app_assoc in E. apply app_inj_tail in E as [-> _]. rewrite <- It. by apply (K mid rest). }
  pose proof (run_op_flags rng (run_ops rng i0 ops) o (run_ops_ok rng ops i0 Hi) Ho) as F.
  rewrite run_ops_app in Hs. cbn [run_ops fold_left] in Hs.
  destruct o as [| | | | | |now c| | | | | | |]; try (by apply Old, F).
  destruct (F r s Hs X) as [O|(hop & Q)]; [by apply Old|].
  exists ops, now, c, [], hop. split; [done|]. split; [by rewrite run_ops_app|].
  intros mid rest E. symmetry in E. apply app_eq_nil in E as [-> _]. exists s. by rewrite run_ops_app.
Qed.
End announced.

(** A change to some stream that keeps its bytes. *)
Lemma data_of_with_stream i q f r :
  (forall s, Stream.data (f s) = Stream.data s) -> data_of (with_stream i q f) r = data_of i r.
Proof.
  intros Hf. unfold data_of. cbn. destruct (decide (q = r)) as [->|Hn].
  - rewrite lookup_alter_eq. destruct (Inner.objects i !! r); cbn; auto.
  - by rewrite lookup_alter_ne.
Qed.

Lemma data_of_on_stream i sid f r :
  (forall s, Stream.data (f s) = Stream.data s) -> data_of (on_stream i sid f) r = data_of i r.
Proof. unfold on_stream. intros. case_match; [by apply data_of_with_stream|done]. Qed.

Lemma data_of_objects i j r : Inner.objects i = Inner.objects j -> data_of i r = data_of j r.
Proof. unfold data_of. by intros ->. Qed.

Lemma data_of_tables i j r : tables i = tables j -> data_of i r = data_of j r.
Proof. unfold tables. intros E. injection E as _ E _ _ _. by apply data_of_objects. Qed.

Section fifo.
Context `{Crypto} (rng : Z -> result bytes).

Lemma data_of_send_relay i hop cmd sid data early r :
  data_of (fst (send_relay rng i hop cmd sid data early)) r = data_of i r.
Proof. apply data_of_objects. apply send_relay_objects. Qed.

Lemma data_of_deliver now i hop sid payload r :
  inner_ok i ->
  data_of (fst (deliver_data rng now i hop sid payload)) r =
    data_of i r ++ (if bool_decide (lookup i sid = Some r) then payload else []).
Proof.
  intros Hi. destruct (deliver_data_objects rng now i hop sid payload) as (_ & _ & E).
  unfold data_of. rewrite E. destruct (lookup i sid) as [q|] eqn:L.
  - case_bool_decide as B.
    + injection B as ->. rewrite lookup_alter_eq. unfold lookup in L.
      destruct (io_table i Hi _ _ L) as (s & -> & _). cbn. unfold receive.
      by repeat case_match.
    + rewrite lookup_alter_ne by congruence. by rewrite app_nil_r.
  - case_bool_decide; [done|]. by rewrite app_nil_r.
Qed.

Lemma data_of_dispatch now i hop cmd sid data r :
  inner_ok i -> is_ok (snd (dispatch_relay rng now i hop cmd sid data)) = true ->
  data_of (fst (dispatch_relay rng now i hop cmd sid data)) r =
    data_of i r ++
    (if (cmd =? RELAY_DATA) && bool_decide (lookup i sid = Some r) then data else []).
Proof.
  intros Hi. unfold dispatch_relay. cbv zeta.
  destruct (Z.eqb_spec cmd RELAY_DATA) as [->|Hc].
  - cbn [Z.eqb RELAY_DATA RELAY_EXTENDED2 RELAY_SENDME Pos.eqb andb].
    pose proof (handle_data_tables rng now i hop sid data) as T.
    destruct (handle_data rng now i hop sid data) as [i' res]. cbn [fst snd].
    destruct T as [(j & Tj & E)|[_ E]]; [|by rewrite E]. intros _.
    apply (f_equal fst) in E. cbn [fst] in E. rewrite E.
    rewrite data_of_deliver by (by apply (inner_ok_tables _ i)).
    unfold tables in Tj. injection Tj as T1 T2 _ _ _.
    rewrite (data_of_objects j i) by done. unfold lookup. by rewrite T1.
  - cbn [andb]. intros _. rewrite app_nil_r.
    repeat lazymatch goal with
    | |- data_of (fst (if ?b then _ else _)) _ = _ => destruct b
    end; cbn [fst]; try done; try (by apply data_of_on_stream).
    + by destruct (handshake_reply _ _).
    + by destruct (FlowControl.note_sendme _ _).
Qed.

Lemma data_of_cell now i c r :
  inner_ok i -> is_ok (snd (handle_cell rng now i c)) = true ->
  data_of (fst (handle_cell rng now i c)) r = data_of i r ++ payload_for i c r.
Proof.
  intros Hi. unfold handle_cell, payload_for. cbv zeta.
  destruct (Z.eqb_spec (Cell.command c) CMD_CREATED_FAST) as [->|_].
  { intros _. cbn [Z.eqb CMD_CREATED_FAST CMD_RELAY CMD_RELAY_EARLY Pos.eqb orb].
    rewrite app_nil_r. by case_match. }
  destruct (Z.eqb_spec (Cell.command c) CMD_CREATED2) as [->|_].
  { intros _. cbn [Z.eqb CMD_CREATED2 CMD_RELAY CMD_RELAY_EARLY Pos.eqb orb].
    rewrite app_nil_r. by destruct (handshake_reply _ _). }
  destruct (Z.eqb_spec (Cell.command c) CMD_DESTROY); [done|].
  destruct (_ || _); [|intros _; by rewrite app_nil_r].
  unfold handle_relay. cbv zeta. destruct (negb _); [done|].
  pose proof (decrypt_inbound_next (Inner.state i) (Cell.body c)) as N.
  destruct (decrypt_inbound _ _) as [[st b] [hop|]]; [|intros _; by rewrite app_nil_r].
  destruct (relay_message b) as [[[cmd sid] data]|e]; [|done]. cbn [fst] in N. intros Hok.
  assert (Hst : inner_ok (set_state i st)).
  { apply (inner_ok_tables _ i); [|done]. unfold tables. cbn. by rewrite N. }
  exact (data_of_dispatch now (set_state i st) hop cmd sid data r Hst Hok).
Qed.

Lemma data_of_release fuel i q r :
  data_of (fst (release_windows rng fuel i q)) r = data_of i r.
Proof.
  revert i. induction fuel as [|fuel IH]; intros i; [done|]. cbn [release_windows].
  destruct (Inner.objects i !! q) as [s|]; [|done]. destruct (_ || _); [done|].
  set (j := with_stream i q _).
  pose proof (data_of_send_relay j (Stream.hop s) RELAY_SENDME (Stream.id s) [] false r) as D.
  destruct (send_relay _ _ _ _ _ _ _) as [k [u|e]]; cbn [fst] in D |- *;
    rewrite ?IH, D; by apply data_of_with_stream.
Qed.

Lemma data_of_fail_all i reason r : data_of (fail_all i reason) r = data_of i r.
Proof.
  unfold fail_all. rewrite <- (data_of_objects (i{{Inner.streams := ∅}}) i r) by done.
  generalize (i{{Inner.streams := ∅}}).
  induction (map snd _) as [|q refs IH]; intros j; [done|]. cbn. rewrite IH.
  apply data_of_with_stream. intros s. unfold fail_stream. by repeat case_match.
Qed.

Lemma data_of_open i q cmd payload r :
  Inner.objects i !! q = None ->
  data_of (fst (open_stream rng i q cmd payload)) r = data_of i r.
Proof.
  intros Hq. unfold open_stream. destruct (last_hop i) as [hop|]; [|done].
  unfold alloc_stream_id. destruct (find_stream_id _ _ _) as [[id|] next]; [|done].
  cbv zeta. cbn [Inner.state set_state].
  match goal with |- context [send_relay rng ?j ?h ?c ?s ?d ?e] =>
    pose proof (data_of_send_relay j h c s d e r) as D; set (k := j) in * end.
  assert (Hk : data_of k r = data_of i r).
  { unfold data_of, k. cbn. destruct (decide (q = r)) as [->|Hn].
    - by rewrite lookup_insert_eq, Hq.
    - by rewrite lookup_insert_ne. }
  destruct (send_relay _ _ _ _ _ _ _) as [m [u|e]]; cbn [fst] in D |- *;
    [congruence|].
  unfold data_of in *. cbn. destruct (decide (q = r)) as [->|Hn].
  - by rewrite lookup_delete_eq, Hq.
  - rewrite lookup_delete_ne by done. congruence.
Qed.

Lemma data_of_read i q want woken r :
  data_of i r =
    (if bool_decide (q = r) then
       match snd (read_stream i q want woken) with Done (Ok out) => out | _ => [] end
     else []) ++ data_of (fst (read_stream i q want woken)) r.
Proof.
  unfold read_stream. destruct (Inner.objects i !! q) as [s|] eqn:O; [|by case_bool_decide].
  destruct (match woken with Some _ => _ | None => _ end); [by case_bool_decide|].
  set (j := match woken with Some _ => _ | None => i end).
  assert (Hj : Inner.objects j = Inner.objects i) by (unfold j; by repeat case_match).
  rewrite <- (data_of_objects j i r) by done.
  destruct (Stream.data s) as [|b l] eqn:D.
  { by repeat (case_match; cbn [fst snd] in *; simplify_eq). }
  cbn [fst snd]. case_bool_decide as B.
  - subst q. unfold data_of. cbn. rewrite lookup_alter_eq, Hj, O. cbn. rewrite D.
    unfold slice_to, slice_from. by rewrite take_drop.
  - unfold data_of. cbn. by rewrite lookup_alter_ne.
Qed.

(** The bytes an operation adds and takes. *)
Lemma data_of_op i o r :
  inner_ok i ->
  match o with OpCell now c => is_ok (snd (handle_cell rng now i c)) | _ => true end = true ->
  data_of i r ++ match o with OpCell _ c => payload_for i c r | _ => [] end =
  match o with
  | OpRead q want woken =>
      if bool_decide (q = r) then
        match snd (read_stream i q want woken) with Done (Ok out) => out | _ => [] end
      else []
  | _ => []
  end ++ data_of (run_op rng i o) r.
Proof.
  intros Hi Hok. destruct (is_setup o) eqn:S.
  { rewrite (data_of_tables _ _ r (setup_tables rng i o S)).
    destruct o; try done; by rewrite app_nil_r. }
  destruct o as [| | | | | |now c|q cmd payload|now q chunk|q want woken|q|q| |]; try done;
    cbn [run_op app]; rewrite ?app_nil_r.
  - symmetry. by apply data_of_cell.
  - destruct (Inner.objects i !! q) eqn:O; [done|]. symmetry. by apply data_of_open.
  - symmetry. unfold send_stream_data. destruct (Inner.objects i !! q) as [s|]; [|done].
    destruct (reserve _ _ _ _) as [[u|e]|]; [|done|done].
    rewrite (data_of_tables _ _ r (send_data_tables rng _ _ _ _ _ _)).
    by apply data_of_with_stream.
  - apply data_of_read.
  - symmetry. unfold release_backpressure. destruct (Inner.objects i !! q) as [s|]; [|done].
    destruct (Stream.xoff_bytes s) as [limit|]; [|apply data_of_release].
    destruct (_ || _); [done|]. rewrite data_of_send_relay. by apply data_of_with_stream.
  - symmetry. unfold close_stream. destruct (Inner.objects i !! q) as [s|]; [|done].
    rewrite data_of_with_stream by (intros t; by case_match).
    rewrite (data_of_objects _ (fst (send_relay rng i (Stream.hop s) RELAY_END (Stream.id s)
      [END_REASON_DONE] false))) by done.
    apply data_of_send_relay.
  - symmetry. unfold pump_end. rewrite data_of_fail_all. by apply data_of_objects.
  - symmetry. unfold close. destruct (Inner.closed i); [done|]. rewrite data_of_fail_all.
    cbv zeta. apply data_of_objects. destruct (Cell.new _ _ _); [|done].
    unfold send_cell. by destruct (Inner.chan_closed _).
Qed.

Lemma data_of_run i ops r :
  inner_ok i -> no_errors rng i ops = true ->
  data_of i r ++ received rng i ops r = read_back rng i ops r ++ data_of (run_ops rng i ops) r.
Proof.
  revert i. induction ops as [|o ops IH]; intros i Hi Hn; cbn; [by rewrite app_nil_r|].
  cbn in Hn. apply andb_prop in Hn as [Ho Hn].
  rewrite app_assoc, (data_of_op i o r Hi Ho), <- !app_assoc. f_equal.
  apply IH; [by apply run_op_ok|done].
Qed.
End fifo.

(** ** Room for another stream *)

Lemma filter_nonzero_length (l : list Z) :
  NoDup l -> (length l <= S (length (filter (fun z => z <> 0%Z) l)))%nat.
Proof.
  induction l as [|x l IH]; intros Hn; [cbn; lia|].
  apply NoDup_cons in Hn as [Hx Hn]. rewrite filter_cons. case_decide as D; cbn [length].
  - specialize (IH Hn). lia.
  - assert (x = 0) as -> by lia. assert (filter (fun z => z <> 0) l = l) as ->; [|lia].
    apply filter_all, Forall_forall. intros y Hy ->. done.
Qed.

Lemma candidates_nodup next tries :
  (Z.of_nat tries <= 65536) ->
  NoDup (map (fun k => (next + Z.of_nat k) mod 65536) (seq 0 tries)).
Proof.
  intros Ht. apply NoDup_alt. intros a b x Ha Hb.
  apply list_lookup_fmap_Some in Ha as (ka & -> & Ha), Hb as (kb & E & Hb).
  apply lookup_seq in Ha as [-> Ha], Hb as [-> Hb].
  pose proof (Z.div_mod (next + Z.of_nat (0 + a)) 65536 ltac:(lia)).
  pose proof (Z.div_mod (next + Z.of_nat (0 + b)) 65536 ltac:(lia)). lia.
Qed.

Lemma alloc_has_room i :
  inner_ok i -> Z.of_nat (size (Inner.streams i)) < 65534 ->
  exists id, snd (alloc_stream_id i) = Ok id.
Proof.
  intros [_ _ N] Hs. unfold alloc_stream_id.
  pose proof (find_stream_id_spec (Z.to_nat U16_MAX) (Inner.streams i) _ N) as F.
  destruct (find_stream_id _ _ _) as [[id|] next]; [by exists id|]. exfalso.
  destruct F as [_ F]. set (next0 := State.next_stream_id _) in F.
  set (l := map (fun k => (next0 + Z.of_nat k) mod 65536) (seq 0 (Z.to_nat U16_MAX))).
  assert (Hl : NoDup l) by (apply candidates_nodup; unfold U16_MAX; lia).
  pose proof (filter_nonzero_length l Hl) as L.
  assert (Hsub : filter (fun z => z <> 0) l ⊆ (map_to_list (Inner.streams i)).*1).
  { intros x Hx. apply list_elem_of_filter in Hx as [Hx0 Hx].
    apply list_elem_of_fmap in Hx as (k & -> & Hk). apply elem_of_seq in Hk.
    destruct (F k ltac:(lia)) as [|[v Hv]]; [done|].
    apply list_elem_of_fmap. exists ((next0 + Z.of_nat k) mod 65536, v).
    split; [done|]. by apply elem_of_map_to_list. }
  apply NoDup_submseteq in Hsub; [|by apply NoDup_filter]. apply submseteq_length in Hsub.
  rewrite length_fmap, length_map_to_list in Hsub.
  assert (length l = Z.to_nat U16_MAX) as E by (unfold l; by rewrite length_map, length_seq).
  rewrite E in L. unfold U16_MAX in L. lia.
Qed.

(** ** Nobody is left waiting on a dead circuit *)

Definition settled (s : Stream.t) : Prop := Stream.error s <> None \/ Stream.ended s <> None.

Lemma settled_fail_stream reason s : settled (fail_stream reason s).
Proof.
  unfold fail_stream, settled. destruct (Stream.error s) eqn:E; [left; by rewrite E|].
  destruct (Stream.ended s) eqn:D; [right; by rewrite D|]. by left.
Qed.

Lemma settled_keep reason s : settled s -> settled (fail_stream reason s).
Proof. intros _. apply settled_fail_stream. Qed.

Lemma fail_refs_spec reason refs i r s :
  Inner.objects i !! r = Some s ->
  exists s', Inner.objects (fold_left (fun i r => with_stream i r (fail_stream reason)) refs i)
    !! r = Some s' /\ (settled s \/ r ∈ refs -> settled s').
Proof.
  revert i s. induction refs as [|q refs IH]; intros i s Hr; cbn.
  - exists s. split; [done|]. intros [?|?%elem_of_nil]; done.
  - destruct (decide (q = r)) as [->|Hn].
    + destruct (IH (with_stream i r (fail_stream reason)) (fail_stream reason s)) as (s' & E & S).
      { cbn. by rewrite lookup_alter_eq, Hr. }
      exists s'. split; [done|]. intros _. apply S. left. apply settled_fail_stream.
    + destruct (IH (with_stream i q (fail_stream reason)) s) as (s' & E & S).
      { cbn. by rewrite lookup_alter_ne. }
      exists s'. split; [done|]. intros [Hs|Hq]; apply S; [by left|].
      apply elem_of_cons in Hq as [->|]; [done|by right].
Qed.

Lemma fail_all_settles i reason id r :
  inner_ok i -> Inner.streams i !! id = Some r ->
  exists s, Inner.objects (fail_all i reason) !! r = Some s /\ settled s.
Proof.
  intros Hi Hr. destruct (io_table i Hi id r Hr) as (s & Hs & _).
  unfold fail_all. cbv zeta.
  match goal with |- context [fold_left _ ?refs ?j] =>
    destruct (fail_refs_spec reason refs j r s Hs) as (s' & E & S) end.
  exists s'. split; [exact E|]. apply S. right. apply list_elem_of_fmap.
  exists (id, r). split; [done|]. by apply elem_of_map_to_list.
Qed.

Lemma fail_refs_fields reason refs i :
  let i' := fold_left (fun i r => with_stream i r (fail_stream reason)) refs i in
  Inner.streams i' = Inner.streams i /\ Inner.closed i' = Inner.closed i /\
  Inner.registered i' = Inner.registered i.
Proof.
  revert i. induction refs as [|q refs IH]; intros i; [done|]. cbn.
  exact (IH (with_stream i q (fail_stream reason))).
Qed.

Lemma fail_all_fields i reason :
  Inner.streams (fail_all i reason) = ∅ /\ Inner.closed (fail_all i reason) = Inner.closed i /\
  Inner.registered (fail_all i reason) = Inner.registered i.
Proof.
  unfold fail_all. cbv zeta.
  match goal with |- context [fold_left _ ?refs ?j] =>
    destruct (fail_refs_fields reason refs j) as (-> & -> & ->) end.
  done.
Qed.

Lemma pump_spec `{Crypto} rng cells i :
  exists j, pump rng cells i = pump_end j /\ (inner_ok i -> inner_ok j).
Proof.
  revert i. induction cells as [|[now c] cells IH]; intros i; cbn [pump].
  - by exists i.
  - destruct (Inner.closed i); [by exists i|].
    pose proof (handle_cell_ok rng now i c) as Hk.
    destruct (handle_cell rng now i c) as [k [u|e]]; cbn [fst] in Hk.
    + destruct (IH k) as (j & -> & Hj). exists j. auto.
    + by exists k.
Qed.

(** A stream somebody may be waiting on: settled already, or in the table. *)
Definition tracked (i : Inner.t) (r : nat) : Prop :=
  exists s, Inner.objects i !! r = Some s /\
    (settled s \/ exists id, Inner.streams i !! id = Some r).

Lemma tracked_tables i j r : tables i = tables j -> tracked j r -> tracked i r.
Proof. unfold tables, tracked. intros E. injection E as -> -> _ _ _. done. Qed.

Lemma tracked_with_stream i q f r :
  (forall s, settled s -> settled (f s)) -> tracked i r -> tracked (with_stream i q f) r.
Proof.
  intros Hf (s & Hs & Hr). destruct (decide (q = r)) as [->|Hn].
  - exists (f s). cbn. rewrite lookup_alter_eq, Hs. split; [done|]. destruct Hr; auto.
  - exists s. cbn. by rewrite lookup_alter_ne.
Qed.

Lemma tracked_on_stream i sid f r :
  (forall s, settled s -> settled (f s)) -> tracked i r -> tracked (on_stream i sid f) r.
Proof. unfold on_stream. intros. case_match; [by apply tracked_with_stream|done]. Qed.

(** RELAY_END takes a stream off the table and settles it. *)
Lemma tracked_end i sid reason r :
  tracked i r ->
  let j := on_stream i sid (fun s => s{{Stream.ended := Some reason}}) in
  tracked (j{{Inner.streams := delete sid (Inner.streams j)}}) r.
Proof.
  intros (s & Hs & Hr). cbv zeta. unfold on_stream, lookup.
  destruct (Inner.streams i !! sid) as [q|] eqn:L.
  - destruct (decide (q = r)) as [->|Hn].
    + exists (s{{Stream.ended := Some reason}}). cbn. rewrite lookup_alter_eq, Hs.
      split; [done|]. left. by right.
    + exists s. cbn. rewrite lookup_alter_ne by done. split; [done|].
      destruct Hr as [|[id Hid]]; [by left|]. right. exists id.
      rewrite lookup_delete_ne; [done|]. intros ->. congruence.
  - exists s. cbn. split; [done|]. destruct Hr as [|[id Hid]]; [by left|]. right. exists id.
    rewrite lookup_delete_ne; [done|]. intros ->. congruence.
Qed.

Section track.
Context `{Crypto} (rng : Z -> result bytes).

Lemma tracked_deliver now i hop sid payload r :
  tracked i r -> tracked (fst (deliver_data rng now i hop sid payload)) r.
Proof.
  intros Ht. destruct (deliver_data_objects rng now i hop sid payload) as (E1 & _ & E2).
  destruct (lookup i sid) as [q|].
  - assert (tracked (with_stream i q (receive payload)) r) as T.
    { apply tracked_with_stream; [|done]. intros s. unfold settled, receive.
      by repeat case_match. }
    unfold tracked in *. rewrite E1, E2. exact T.
  - unfold tracked in *. by rewrite E1, E2.
Qed.

Lemma tracked_cell now i c r : tracked i r -> tracked (fst (handle_cell rng now i c)) r.
Proof.
  intros Ht. assert (forall st, tracked (set_state i st) r) as Hs by done.
  unfold handle_cell. cbv zeta.
  repeat lazymatch goal with
  | |- tracked (fst (if ?b then _ else _)) _ => destruct b
  end; cbn [fst]; auto.
  - destruct (handshake_reply _ _); cbn [fst]; auto.
  - unfold handle_relay. cbv zeta. destruct (negb _); [done|].
    destruct (decrypt_inbound _ _) as [[st b] [hop|]]; cbn [fst]; auto.
    destruct (relay_message b) as [[[cmd sid] data]|e]; cbn [fst]; auto.
    specialize (Hs st). revert Hs. generalize (set_state i st). clear. intros i Hi.
    assert (forall st, tracked (set_state i st) r) as Hs by done.
    unfold dispatch_relay. cbv zeta.
    repeat lazymatch goal with
    | |- tracked (fst (if ?b then _ else _)) _ => destruct b
    end; cbn [fst]; auto.
    + destruct (handshake_reply _ _); cbn [fst]; auto.
    + destruct (FlowControl.note_sendme _ _); cbn [fst]; auto.
    + by apply tracked_on_stream.
    + pose proof (handle_data_tables rng now i hop sid data) as T.
      destruct (handle_data rng now i hop sid data) as [i' res].
      destruct T as [(j & Tj & E)|[Ti _]]; cbn [fst]; [|by apply (tracked_tables _ i)].
      apply (f_equal fst) in E. cbn [fst] in E. rewrite E.
      apply tracked_deliver. by apply (tracked_tables _ i).
    + by apply tracked_on_stream.
    + by apply tracked_end.
    + by apply tracked_on_stream.
Qed.

Lemma tracked_pump_end i r :
  inner_ok i -> tracked i r ->
  exists s, Inner.objects (pump_end i) !! r = Some s /\ settled s.
Proof.
  intros Hi (s & Hs & Hr). unfold pump_end. cbv zeta.
  set (j := i{{Inner.closed := true}}{{Inner.registered := false}}).
  assert (Hj : inner_ok j) by (destruct Hi; by split).
  destruct Hr as [Hset|[id Hid]]; [|by apply (fail_all_settles j _ id)].
  unfold fail_all. cbv zeta.
  match goal with |- context [fold_left _ ?refs ?k] =>
    destruct (fail_refs_spec "circuit closed" refs k r s Hs) as (s' & E & S) end.
  exists s'. split; [exact E|]. apply S. by left.
Qed.

Lemma pump_settles cells i r :
  inner_ok i -> tracked i r -> exists s, Inner.objects (pump rng cells i) !! r = Some s /\ settled s.
Proof.
  revert i. induction cells as [|[now c] cells IH]; intros i Hi Ht; cbn [pump];
    [by apply tracked_pump_end|].
  destruct (Inner.closed i); [by apply tracked_pump_end|].
  pose proof (handle_cell_ok rng now i c Hi) as Hk.
  pose proof (tracked_cell now i c r Ht) as Htk.
  destruct (handle_cell rng now i c) as [k [u|e]]; cbn [fst] in *;
    [by apply IH|by apply tracked_pump_end].
Qed.
End track.

(** ** Releasing back-pressure *)

(** The loop's fuel is enough: it stops because nothing is left to release,
    or because a cell could not be sent. *)
Lemma release_windows_done `{Crypto} rng fuel i r s j :
  Inner.objects i !! r = Some s -> 0 <= Stream.unacked s ->
  (Z.to_nat (Stream.unacked s / STREAM_WINDOW_INCREMENT) < fuel)%nat ->
  release_windows rng fuel i r = (j, Ok tt) ->
  exists t, Inner.objects j !! r = Some t /\ Stream.data t = Stream.data s /\
    (Stream.unacked t < STREAM_WINDOW_INCREMENT \/
     STREAM_WINDOW_INCREMENT * RELAY_DATA_MAX < len (Stream.data t)).
Proof.
  revert i s. induction fuel as [|fuel IH]; intros i s Hs Hu Hf; [lia|].
  cbn [release_windows]. rewrite Hs.
  destruct ((Stream.unacked s <? _) || _) eqn:E.
  - intros [= <-]. exists s. split; [done|]. split; [done|].
    apply orb_true_iff in E as [E|E]; b2p; auto.
  - b2p. set (k := with_stream i r _).
    destruct (send_relay_objects rng k (Stream.hop s) RELAY_SENDME (Stream.id s) [] false)
      as (Eo & _ & _).
    destruct (send_relay _ _ _ _ _ _ _) as [m [u|e]]; [|done]. cbn [fst] in Eo.
    intros R. apply (IH m (s{{Stream.unacked := Stream.unacked s - STREAM_WINDOW_INCREMENT;
      Stream.deliver_window := Stream.deliver_window s + STREAM_WINDOW_INCREMENT}})) in R; [done| | |].
    + rewrite Eo. unfold k. cbn. by rewrite lookup_alter_eq, Hs.
    + cbn. lia.
    + cbn [Stream.unacked apply_update RecordSetters.constant].
      unfold STREAM_WINDOW_INCREMENT in *.
      replace (Stream.unacked s - 50) with (Stream.unacked s + (-1) * 50) by lia.
      rewrite Z.div_add by lia. pose proof (Z.div_le_lower_bound (Stream.unacked s) 50 1 ltac:(lia) ltac:(lia)). lia.
Qed.

(** ** Writes *)

(** Write chunks one after the other, until one of them has to wait or fails;
    how many went out. *)
Fixpoint write_all `{Crypto} (rng : Z -> result bytes) (i : Inner.t) (r : nat)
    (chunks : list (Z * bytes)) : Inner.t * nat :=
  match chunks with
  | [] => (i, O)
  | (now, chunk) :: chunks =>
      match send_stream_data rng now i r chunk with
      | (i, Done (Ok _)) => let '(i, n) := write_all rng i r chunks in (i, S n)
      | (i, _) => (i, O)
      end
  end.

Lemma send_stream_data_window `{Crypto} rng now i r s chunk j :
  Inner.objects i !! r = Some s -> send_stream_data rng now i r chunk = (j, Done (Ok tt)) ->
  0 < Stream.package_window s /\
  Inner.objects j !! r = Some (s{{Stream.package_window := Stream.package_window s - 1}}).
Proof.
  intros Hs. unfold send_stream_data. rewrite Hs. unfold reserve. cbn [andb].
  destruct (Z.leb_spec (Stream.package_window s) 0); [by repeat case_match|].
  destruct (Stream.ended s); [done|]. intros E. split; [lia|].
  match type of E with send_data _ _ _ ?k _ _ _ = _ => set (k0 := k) in E end.
  pose proof (send_data_tables rng now false k0 (Stream.hop s) (Stream.id s) chunk) as T.
  rewrite E in T. cbn [fst] in T. unfold tables in T.
  assert (Eo : Inner.objects j = Inner.objects k0) by congruence.
  rewrite Eo. unfold k0. cbn. by rewrite lookup_alter_eq, Hs.
Qed.

(** ** Properties *)

Section properties.
Context `{CryptoLaws} (rng : Z -> result bytes).

(** C10. Whatever sequence of cells, opens, writes, reads and closes a new
    circuit goes through: on every stream the delivery window and the
    unacknowledged cells add up to the initial window, a congestion-controlled
    stream holding more than its limit has its XOFF flag up, and the table
    maps each stream ID to the stream that carries it.  And the flag tells the
    truth about the wire: along a run in which no cell made the pump give up,
    a stream whose flag is up has sent its XOFF -- the handling of one cell
    queued on the channel, as its last, a RELAY_XOFF cell for exactly that
    stream ID, which the relay it is addressed to, keeping step with the
    client, reads as that message (a coincidence of four digest bytes
    excepted) -- and its flag has been up ever since. *)
Theorem circuit_invariant (ops : list op) (circ_id created : Z) :
  let i0 := Inner.new_on circ_id created in
  inner_ok (run_ops rng i0 ops) /\
  (no_errors rng i0 ops = true ->
   forall r s, Inner.objects (run_ops rng i0 ops) !! r = Some s -> Stream.xoff_sent s = true ->
   announced rng i0 ops r s).
Proof.
  assert (Hi : inner_ok (Inner.new_on circ_id created)) by (split; cbn; [done|done|lia]).
  split; [by apply run_ops_ok|]. by apply flag_announced.
Qed.

(** C11. Streams are first-in first-out and lossless: along any run in which
    no cell made the pump give up, the bytes read from a stream followed by
    the bytes still buffered are exactly the payloads of the DATA cells that
    arrived for it, in order. *)
Theorem stream_fifo (ops : list op) (circ_id created : Z) (r : nat)
  (Hok : no_errors rng (Inner.new_on circ_id created) ops = true) :
  received rng (Inner.new_on circ_id created) ops r =
    read_back rng (Inner.new_on circ_id created) ops r ++
    data_of (run_ops rng (Inner.new_on circ_id created) ops) r.
Proof.
  rewrite <- (data_of_run rng); [done| |done]. split; cbn; [done|done|lia].
Qed.

(** A stream ID that is allocated is a non-zero 16-bit number no open
    stream uses, and with fewer than 65,534 streams open the allocation
    succeeds. *)
Theorem stream_id_allocation (i : Inner.t) (Hi : inner_ok i) :
  (forall id, snd (alloc_stream_id i) = Ok id ->
     0 < id < 65536 /\ Inner.streams i !! id = None) /\
  (Z.of_nat (size (Inner.streams i)) < 65534 -> is_ok (snd (alloc_stream_id i)) = true).
Proof.
  split.
  - intros id E. destruct (alloc_stream_id i) as [j res] eqn:Al.
    apply alloc_stream_id_ok in Al as (_ & _ & _ & F); [|done]. by apply F.
  - intros Hs. destruct (alloc_has_room i Hi Hs) as [id ->]. done.
Qed.

(** C20. When the pump stops -- whatever cells it was fed -- the circuit is
    closed and unregistered, its table is empty, and every stream that was
    open has an error or an end, so that a read on it returns at once. *)
Theorem pump_leaves_nobody_waiting (i : Inner.t) (cells : list (Z * Cell.t)) (id : Z) (r : nat)
  (Hi : inner_ok i) (Hr : Inner.streams i !! id = Some r) :
  let i' := pump rng cells i in
  Inner.closed i' = true /\ Inner.registered i' = false /\ Inner.streams i' = ∅ /\
  forall want woken, snd (read_stream i' r want woken) <> Wait.
Proof.
  cbv zeta. destruct (pump_settles rng cells i r Hi) as (s & Hs & Hset).
  { destruct (io_table i Hi id r Hr) as (s & Hs & _). exists s. eauto. }
  destruct (pump_spec rng cells i) as (j & Ej & _). rewrite Ej in *. unfold pump_end in *.
  destruct (fail_all_fields (j{{Inner.closed := true}}{{Inner.registered := false}})
    "circuit closed") as (F1 & F2 & F3).
  split_and!; [by rewrite F2|by rewrite F3|done|].
  intros want woken. unfold read_stream. rewrite Hs.
  destruct (match woken with Some _ => _ | None => _ end); [done|].
  destruct (Stream.data s); [|done].
  destruct Hset as [He|He]; destruct (Stream.error s), (Stream.ended s);
    try done; by case_match.
Qed.

(** Back-pressure is released as soon as it may be: when
    [release_backpressure] succeeds, a window-scheme stream owes the far end
    less than one increment unless its backlog is high, and a
    congestion-controlled stream is no longer stopped unless more than half
    its limit is still unread. *)
Theorem backpressure_released (i j : Inner.t) (r : nat) (s : Stream.t)
  (Hi : inner_ok i) (Hs : Inner.objects i !! r = Some s)
  (Hr : release_backpressure rng i r = (j, Ok tt)) :
  exists t, Inner.objects j !! r = Some t /\ Stream.data t = Stream.data s /\
    match Stream.xoff_bytes s with
    | Some limit => Stream.xoff_sent t = true -> limit / 2 < len (Stream.data t)
    | None => Stream.unacked t < STREAM_WINDOW_INCREMENT \/
        STREAM_WINDOW_INCREMENT * RELAY_DATA_MAX < len (Stream.data t)
    end.
Proof.
  unfold release_backpressure in Hr. rewrite Hs in Hr.
  destruct (io_objects i Hi r s Hs) as [_ U _ _].
  destruct (Stream.xoff_bytes s) as [limit|] eqn:L.
  - destruct (negb (Stream.xoff_sent s) || _) eqn:E.
    + injection Hr as <-. exists s. split; [done|]. split; [done|]. intros Hx.
      rewrite Hx in E. cbn in E. b2p. done.
    + match type of Hr with send_relay _ ?k ?h ?c ?d ?p ?e = _ =>
        destruct (send_relay_objects rng k h c d p e) as (Eo & _ & _) end.
      rewrite Hr in Eo. cbn [fst] in Eo.
      exists (s{{Stream.xoff_sent := false}}). rewrite Eo. cbn.
      by rewrite lookup_alter_eq, Hs.
  - apply (release_windows_done _ _ _ _ s) in Hr; [done|done|done|lia].
Qed.

(** The write after the package window's last cell goes to sleep. *)
Lemma writes_window_bound (i : Inner.t) (r : nat) (s : Stream.t)
  (chunks : list (Z * bytes)) (Hs : Inner.objects i !! r = Some s)
  (Hw : 0 <= Stream.package_window s) :
  Z.of_nat (snd (write_all rng i r chunks)) <= Stream.package_window s.
Proof.
  revert i s Hs Hw. induction chunks as [|[now chunk] chunks IH]; intros i s Hs Hw; cbn; [lia|].
  destruct (send_stream_data rng now i r chunk) as [j [[[]|e]|]] eqn:E; cbn [snd]; [|lia|lia].
  apply (send_stream_data_window _ _ _ _ s) in E as [Hp Hj]; [|done].
  specialize (IH j _ Hj). destruct (write_all rng j r chunks) as [k n]. cbn [snd] in *.
  cbn [Stream.package_window apply_update RecordSetters.constant] in IH. lia.
Qed.

(** [send_blocked], which the pump sets on XOFF, is never read. *)
Lemma xoff_ignored (i : Inner.t) (r : nat) (s : Stream.t) (now : Z) (chunk : bytes)
  (Hs : Inner.objects i !! r = Some s) :
  snd (send_stream_data rng now
         (with_stream i r (fun s => s{{Stream.send_blocked := true}})) r chunk) =
  snd (send_stream_data rng now i r chunk).
Proof.
  unfold send_stream_data. set (f := fun s : Stream.t => s{{Stream.send_blocked := true}}).
  change (Inner.objects (with_stream i r f)) with (alter f r (Inner.objects i)).
  rewrite lookup_alter_eq, Hs. cbn [fmap option_fmap option_map].
  change (reserve false false (with_stream i r f) (f s)) with (reserve false false i s).
  destruct (reserve false false i s) as [[u|e]|]; [|done|done].
  change (Stream.hop (f s)) with (Stream.hop s). change (Stream.id (f s)) with (Stream.id s).
  clear Hs. destruct i. unfold send_data, send_relay, is_closed, with_stream, set_state.
  cbn -[build_relay_cell FlowControl.may_send].
  destruct (negb _); [by destruct (closed || chan_closed)|].
  destruct (build_relay_cell _ _ _ _ _ _ _ _) as [st [c|e]]; [|done].
  unfold send_cell. cbn. by destruct chan_closed.
Qed.

(** What stops a writer. A stream sends at most its package window of
    cells between two stream-level SENDMEs -- on a congestion-controlled circuit
    too, where streams have no windows and no such SENDME comes: the write after
    the 500th goes to sleep. And nothing else about the stream does: XOFF does
    not, because [send_blocked], which the pump sets when the far end asks this
    end to stop, is never read, and a write does exactly what it would have
    done without it. *)
Theorem writes_bounded_by_package_window (i : Inner.t) (r : nat) (s : Stream.t)
  (Hs : Inner.objects i !! r = Some s) :
  (forall chunks, 0 <= Stream.package_window s ->
     Z.of_nat (snd (write_all rng i r chunks)) <= Stream.package_window s) /\
  (forall now chunk,
     snd (send_stream_data rng now
            (with_stream i r (fun s => s{{Stream.send_blocked := true}})) r chunk) =
     snd (send_stream_data rng now i r chunk)).
Proof.
  split; [intros chunks Hw; by apply writes_window_bound|intros now chunk; by eapply xoff_ignored].
Qed.

(** Authenticated SENDMEs: when a DATA cell that a relay sent makes one
    due, the first cell the pump sends is one which that relay, in the state
    it is then in, recognises as a circuit-level SENDME quoting exactly the
    20-byte digest of the cell it had just sent. *)
Theorem sendme_quotes_the_cell (i : Inner.t) (now sid : Z) (hop : nat) (data pad out : bytes)
  (hops : list Hop.t) (flow : FlowControl.t)
  (Hrng : fills rng) (Hall : forall n, is_ok (rng n) = true)
  (Hopen : Inner.chan_closed i = false) (Hsid : 0 <= sid < 65536)
  (Hlen : len data + len pad = RELAY_DATA_MAX)
  (Hsend : relays_send (State.hops (Inner.state i)) hop
             (([RELAY_DATA; 0; 0] ++ to_be 2 sid) ++ [0; 0; 0; 0] ++ to_be 2 (len data)
                ++ data ++ pad) = Some (hops, out))
  (Hmist : mistaken Bwd (State.hops (Inner.state i)) hop out = false)
  (Hdue : FlowControl.note_received (State.flow (Inner.state i)) = (flow, Ok true)) :
  exists target c rest,
    State.hops (Inner.state i) !! hop = Some target /\
    Inner.sent (fst (handle_relay rng now i (Cell.Mk (Inner.circ_id i) CMD_RELAY out))) =
      Inner.sent i ++ c :: rest /\
    (mistaken Fwd hops hop (Cell.body c) = false ->
     exists hops' b full,
       relays_receive hops (Cell.body c) = (hops', b, Some (hop, full)) /\
       relay_message b = Ok (RELAY_SENDME, 0, sendme_payload
         (Digest.peek_prefix 20 (Digest.update (Hop.backward_digest target)
            (([RELAY_DATA; 0; 0] ++ to_be 2 sid) ++ [0; 0; 0; 0] ++ to_be 2 (len data)
               ++ data ++ pad))))).
Proof.
  set (body := ([RELAY_DATA; 0; 0] ++ _) ++ _) in *.
  assert (Hb : blank body) by (by apply body_blank).
  assert (Hlo : len out = CELL_BODY_LEN) by (by eapply seal_len).
  destruct (sent_cell_decrypted (Inner.state i) hop body out hops Hb Hsend Hmist)
    as (target & Ht & Hd).
  set (dg := Digest.peek_prefix 20 _) in *.
  assert (Hh : (hop < length hops)%nat).
  { apply (f_equal (fmap fst)) in Hsend. unfold relays_send, seal in Hsend. rewrite Ht in Hsend.
    cbn [fmap option_fmap option_map] in Hsend. injection Hsend as <-.
    rewrite wrap_layers_hops, length_insert. by eapply lookup_lt_Some. }
  unfold handle_relay. cbn [Cell.body]. rewrite Hlo, Z.eqb_refl. cbn [negb]. rewrite Hd.
  assert (Hm : relay_message body = Ok (RELAY_DATA, sid, data)) by (by apply body_message).
  rewrite Hm. unfold dispatch_relay. cbv zeta. rewrite Z.eqb_refl.
  change (RELAY_DATA =? RELAY_EXTENDED2) with false. change (RELAY_DATA =? RELAY_SENDME) with false.
  unfold handle_data.
  set (st0 := (Inner.state i){{State.hops := hops}}{{State.last_recv_digest := dg}}).
  change (State.flow (Inner.state (set_state i st0))) with (State.flow (Inner.state i)).
  rewrite Hdue. cbv zeta.
  set (j := (set_state i st0){{Inner.state := _}}).
  destruct (build_relay_cell_total rng (Inner.state j) (Inner.circ_id j) hop RELAY_SENDME 0
    (sendme_payload (State.last_recv_digest (Inner.state j)))) as (st1 & c & Hc); [done|done| |done|].
  { unfold sendme_payload. change (State.last_recv_digest (Inner.state j)) with dg.
    rewrite !len_app, len_to_be. unfold dg. rewrite peek_len by lia. done. }
  rewrite Hc. unfold send_cell. change (Inner.chan_closed (j{{Inner.state := st1}})) with
    (Inner.chan_closed i). rewrite Hopen. cbv zeta.
  match goal with |- context [deliver_data rng now ?k hop sid data] =>
    destruct (deliver_data_sent rng now k hop sid data) as [rest Hrest] end.
  exists target, c, rest. split; [done|]. split.
  - rewrite Hrest. cbn. by rewrite <- app_assoc.
  - intros Hmc. apply built_cell_received in Hc as (b & full & R & M & _); [|done|lia|done].
    exists (State.hops st1), b, full. by split.
Qed.
End properties.

(** ** Concrete runs on the toy instance *)

Module CircuitDemo.
Import Toy RelayDemo.

Definition two_hops : list Hop.t := [Hop.new (demo_keys 1); Hop.new (demo_keys 11)].

(** A DATA cell for stream 1 carrying [104; 105], as hop 1 sends it. *)
Definition demo_body : bytes :=
  ([RELAY_DATA; 0; 0] ++ to_be 2 1) ++ [0; 0; 0; 0] ++ to_be 2 (len [104; 105]) ++ [104; 105] ++
    zeros (RELAY_DATA_MAX - 2).
Definition demo_sent : list Hop.t * bytes := default ([], []) (relays_send two_hops 1 demo_body).
Definition demo_data_cell : Cell.t := Cell.Mk 9 CMD_RELAY (snd demo_sent).

Definition demo_ops : list op :=
  [OpHop (Hop.new (demo_keys 1)); OpHop (Hop.new (demo_keys 11)); OpOpen 0 RELAY_BEGIN_DIR [];
   OpCell 5000000 demo_data_cell; OpRead 0 1 None].

Definition demo_open : Inner.t := run_ops demo_rng (Inner.new_on 9 0) (take 3 demo_ops).

Lemma demo_open_ok : inner_ok demo_open.
Proof. apply run_ops_ok. split; cbn; [done|done|lia]. Qed.

Lemma demo_no_errors : no_errors demo_rng (Inner.new_on 9 0) demo_ops = true.
Proof. by vm_compute. Qed.
Lemma demo_received : received demo_rng (Inner.new_on 9 0) demo_ops 0 = [104; 105].
Proof. by vm_compute. Qed.

Lemma stream_fifo_witness :
  received demo_rng (Inner.new_on 9 0) demo_ops 0 = [104; 105] /\
  read_back demo_rng (Inner.new_on 9 0) demo_ops 0 ++
    data_of (run_ops demo_rng (Inner.new_on 9 0) demo_ops) 0 = [104; 105].
Proof.
  pose proof (stream_fifo demo_rng demo_ops 9 0 0 demo_no_errors) as E.
  split; [exact demo_received|]. rewrite <- E. exact demo_received.
Defined.

(** A congestion-controlled stream whose first data is more than its limit. *)
Definition demo_stop_ops : list op :=
  [OpHop (Hop.new (demo_keys 1)); OpHop (Hop.new (demo_keys 11));
   OpUseCc ((CcParams.defaults Exit){{CcParams.xoff_client := 0}}) 31; OpOpen 0 RELAY_BEGIN_DIR [];
   OpCell 5000000 demo_data_cell].
Definition demo_stopped : Stream.t :=
  default (Stream.new 0 0 None) (Inner.objects (run_ops demo_rng (Inner.new_on 9 0) demo_stop_ops) !! 0%nat).

Lemma demo_stopped_ok :
  no_errors demo_rng (Inner.new_on 9 0) demo_stop_ops = true /\
  Inner.objects (run_ops demo_rng (Inner.new_on 9 0) demo_stop_ops) !! 0%nat = Some demo_stopped /\
  Stream.xoff_sent demo_stopped = true /\ Stream.id demo_stopped = 1.
Proof. by vm_compute. Qed.

Lemma circuit_invariant_witness :
  Stream.id demo_stopped = 1 /\ announced demo_rng (Inner.new_on 9 0) demo_stop_ops 0 demo_stopped.
Proof.
  destruct demo_stopped_ok as (E & S & X & I). split; [exact I|].
  exact (proj2 (circuit_invariant demo_rng demo_stop_ops 9 0) E 0%nat demo_stopped S X).
Defined.

Lemma stream_id_allocation_witness : is_ok (snd (alloc_stream_id demo_open)) = true.
Proof. apply (stream_id_allocation demo_open demo_open_ok). by vm_compute. Defined.

Lemma pump_witness :
  snd (read_stream (pump demo_rng [(7, Cell.Mk 9 CMD_DESTROY [0])] demo_open) 0 10 None) <> Wait.
Proof.
  apply (pump_leaves_nobody_waiting demo_rng demo_open [(7, Cell.Mk 9 CMD_DESTROY [0])] 1 0
    demo_open_ok). by vm_compute.
Defined.

Definition demo_stream : Stream.t := default (Stream.new 0 0 None) (Inner.objects demo_open !! 0%nat).

Lemma demo_stream_ok : Inner.objects demo_open !! 0%nat = Some demo_stream.
Proof. by vm_compute. Qed.

Definition demo_released : Inner.t := fst (release_backpressure demo_rng demo_open 0).
Lemma demo_released_ok : release_backpressure demo_rng demo_open 0 = (demo_released, Ok tt).
Proof. by vm_compute. Qed.

Lemma backpressure_witness :
  exists t, Inner.objects demo_released !! 0%nat = Some t /\
    Stream.data t = Stream.data demo_stream.
Proof.
  destruct (backpressure_released demo_rng demo_open demo_released 0 demo_stream demo_open_ok
    demo_stream_ok demo_released_ok) as (t & A & B & _).
  exists t. split; [exact A|exact B].
Defined.

Lemma writes_bounded_witness :
  Z.of_nat (snd (write_all demo_rng demo_open 0 (replicate 600 (0, [1])))) <= 500 /\
  snd (send_stream_data demo_rng 0
         (with_stream demo_open 0 (fun s => s{{Stream.send_blocked := true}})) 0 [1]) =
  snd (send_stream_data demo_rng 0 demo_open 0 [1]).
Proof.
  destruct (writes_bounded_by_package_window demo_rng demo_open 0 demo_stream demo_stream_ok) as [A C].
  split; [apply A; by vm_compute|exact (C 0 [1])].
Defined.

(** A circuit one cell short of owing a SENDME. *)
Definition demo_due : Inner.t :=
  set_state demo_open ((Inner.state demo_open){{State.flow := FlowControl.Window 1000 901}}).

Lemma demo_rng_total n : is_ok (demo_rng n) = true.
Proof. done. Qed.

Definition demo_hops_after : list Hop.t :=
  fst (default ([], []) (relays_send (State.hops (Inner.state demo_due)) 1 demo_body)).

Lemma demo_due_sends :
  relays_send (State.hops (Inner.state demo_due)) 1 demo_body =
    Some (demo_hops_after, snd demo_sent).
Proof. by vm_compute. Qed.
Lemma demo_due_not_mistaken :
  mistaken Bwd (State.hops (Inner.state demo_due)) 1 (snd demo_sent) = false.
Proof. by vm_compute. Qed.
Lemma demo_due_now :
  FlowControl.note_received (State.flow (Inner.state demo_due)) =
    (FlowControl.Window 1000 1000, Ok true).
Proof. by vm_compute. Qed.
Lemma demo_due_open : Inner.chan_closed demo_due = false.
Proof. by vm_compute. Qed.

Lemma sendme_quotes_witness :
  exists target c rest,
    State.hops (Inner.state demo_due) !! 1%nat = Some target /\
    Inner.sent (fst (handle_relay demo_rng 3 demo_due (Cell.Mk (Inner.circ_id demo_due) CMD_RELAY
      (snd demo_sent)))) = Inner.sent demo_due ++ c :: rest.
Proof.
  destruct (sendme_quotes_the_cell demo_rng demo_due 3 1 1 [104; 105] (zeros (RELAY_DATA_MAX - 2))
    (snd demo_sent) demo_hops_after (FlowControl.Window 1000 1000) demo_rng_fills demo_rng_total
    demo_due_open ltac:(lia) eq_refl demo_due_sends demo_due_not_mistaken demo_due_now)
    as (target & c & rest & A & B & _).
  exists target, c, rest. split; [exact A|exact B].
Defined.
End CircuitDemo.
