(* ===== verification/Certs.v ===== *)
(** * Certificates ([src/src/tor/certs.rs])

    Tor's Ed25519 certificate format, the CERTS cell, and the responder
    authentication that decides whose relay a TLS connection belongs to.  The
    theorem says that [validate_responder] accepts exactly the certificate
    chains the protocol asks for. *)
From S2P Require Import Prelude.
From S2P Require Import Crypto.

Definition CERT_TYPE_IDENTITY_V_SIGNING : Z := 4.
Definition CERT_TYPE_SIGNING_V_TLS : Z := 5.
Definition CERT_TYPE_HS_DESC_SIGN : Z := 8.
Definition CERT_TYPE_HS_INTRO_AUTH : Z := 9.
Definition CERT_TYPE_HS_INTRO_ENC : Z := 11.
Definition KEY_TYPE_ED25519 : Z := 1.
Definition KEY_TYPE_SHA256_OF_X509 : Z := 3.
Definition EXT_TYPE_SIGNED_WITH_ED25519 : Z := 4.
Definition EXT_FLAG_AFFECTS_VALIDATION : Z := 1.

Module Ed25519Cert.

Record t := Mk {
  cert_type : Z;
  expiration_hours : Z;
  cert_key_type : Z;
  certified_key : bytes;
  signing_key : option bytes;
  signed_portion : bytes;
  signature : bytes;
}.

(** The loop over the extensions, from position [pos] with [n] to go: the
    position after the last one and the signing key found. *)
Fixpoint parse_extensions (n : nat) (data : bytes) (pos : Z) (signing_key : option bytes)
    : result (Z * option bytes) :=
  match n with
  | O => Ok (pos, signing_key)
  | S n =>
      if len data <? pos + 4 then Err (invalid_data "truncated certificate extension header")
      else
        let ext_len := from_be (slice data pos (pos + 2)) in
        let ext_type := byte_at data (pos + 2) in
        let ext_flags := byte_at data (pos + 3) in
        let body_start := pos + 4 in
        let body_end := body_start + ext_len in
        if len data <? body_end then Err (invalid_data "certificate extension runs past end")
        else if ext_type =? EXT_TYPE_SIGNED_WITH_ED25519 then
          if negb (ext_len =? 32)
          then Err (invalid_data "signed-with-ed25519-key must be 32 bytes")
          else parse_extensions n data body_end (Some (slice data body_start body_end))
        else if negb (Z.land ext_flags EXT_FLAG_AFFECTS_VALIDATION =? 0) then
          Err (invalid_data "unrecognized critical certificate extension {ext_type}")
        else parse_extensions n data body_end signing_key
  end.

Definition parse (data : bytes) : result t :=
  if len data <? 40 then Err (invalid_data "ed25519 certificate too short")
  else if negb (byte_at data 0 =? 1) then
    Err (invalid_data "unsupported certificate version {}")
  else
    '(pos, signing_key) ← parse_extensions (Z.to_nat (byte_at data 39)) data 40 None;
    if negb (pos + 64 =? len data) then
      Err (invalid_data "certificate length does not match signature")
    else
      Ok {| cert_type := byte_at data 1;
            expiration_hours := from_be (slice data 2 6);
            cert_key_type := byte_at data 6;
            certified_key := slice data 7 39;
            signing_key := signing_key;
            signed_portion := slice_to data pos;
            signature := slice_from data pos |}.

Definition check_signature `{Crypto} (c : t) (key : bytes) : bool :=
  ed25519_verify key (signed_portion c) (signature c).

Definition expires_at_unix (c : t) : Z := expiration_hours c * 3600.

Definition is_expired (c : t) (now_unix : Z) : bool := expires_at_unix c <=? now_unix.

End Ed25519Cert.

Module CertsCell.

Definition t : Type := list (Z * bytes).

Fixpoint parse_entries (n : nat) (body : bytes) (pos : Z) : result t :=
  match n with
  | O => Ok []
  | S n =>
      if len body <? pos + 3 then Err (invalid_data "truncated CERTS entry header")
      else
        let cert_type := byte_at body pos in
        let n_bytes := from_be (slice body (pos + 1) (pos + 3)) in
        let start := pos + 3 in
        let stop := start + n_bytes in
        if len body <? stop then Err (invalid_data "CERTS entry runs past end of cell")
        else
          rest ← parse_entries n body stop;
          Ok ((cert_type, slice body start stop) :: rest)
  end.

Definition parse (body : bytes) : result t :=
  match body with
  | [] => Err (invalid_data "empty CERTS cell")
  | count :: _ => parse_entries (Z.to_nat count) body 1
  end.

(** The loop of [unique]. *)
Fixpoint unique_from (entries : t) (cert_type : Z) (found : option bytes) : result bytes :=
  match entries with
  | [] => ok_or found (invalid_data "CERTS cell has no type {cert_type} certificate")
  | (k, body) :: entries =>
      if k =? cert_type then
        match found with
        | Some _ =>
            Err (invalid_data "CERTS cell has more than one type {cert_type} certificate")
        | None => unique_from entries cert_type (Some body)
        end
      else unique_from entries cert_type found
  end.

Definition unique (certs : t) (cert_type : Z) : result bytes := unique_from certs cert_type None.

End CertsCell.

Section validate.
Context `{Crypto}.
Import Ed25519Cert.

Definition check (ok : bool) (what : string) : result unit :=
  if ok then Ok tt else Err (invalid_data what).

Definition validate_responder (certs : CertsCell.t) (tls_cert_sha256 : bytes) (now_unix : Z)
    : result bytes :=
  id_body ← CertsCell.unique certs CERT_TYPE_IDENTITY_V_SIGNING;
  id_cert ← parse id_body;
  _ ← check (cert_type id_cert =? CERT_TYPE_IDENTITY_V_SIGNING)
        "type 4 certificate has the wrong CERT_TYPE";
  _ ← check (cert_key_type id_cert =? KEY_TYPE_ED25519)
        "type 4 certificate does not certify an Ed25519 key";
  identity ← ok_or (signing_key id_cert)
        (invalid_data "type 4 certificate has no signed-with-ed25519-key");
  _ ← check (check_signature id_cert identity)
        "type 4 certificate is not correctly self-signed";
  _ ← check (negb (is_expired id_cert now_unix))
        "{what} expired at unix time {expires_at}, local clock says {now}";
  tls_body ← CertsCell.unique certs CERT_TYPE_SIGNING_V_TLS;
  tls_cert ← parse tls_body;
  _ ← check (cert_type tls_cert =? CERT_TYPE_SIGNING_V_TLS)
        "type 5 certificate has the wrong CERT_TYPE";
  _ ← check (cert_key_type tls_cert =? KEY_TYPE_SHA256_OF_X509)
        "type 5 certificate does not certify an X.509 digest";
  _ ← check (check_signature tls_cert (certified_key id_cert))
        "type 5 certificate is not signed by the relay signing key";
  _ ← check (negb (is_expired tls_cert now_unix))
        "{what} expired at unix time {expires_at}, local clock says {now}";
  _ ← check (constant_time_eq (certified_key tls_cert) tls_cert_sha256)
        "type 5 certificate does not certify the TLS certificate we saw";
  Ok identity.
End validate.

(** ** Specification *)

(** The certificate format written out: the encoder the parser inverts. *)
Record Extension := MkExt { ext_type : Z; ext_flags : Z; ext_body : bytes }.

Definition encode_ext (e : Extension) : bytes :=
  to_be 2 (len (ext_body e)) ++ [ext_type e; ext_flags e] ++ ext_body e.

Definition encode_unsigned (kind hours key_type : Z) (key : bytes) (exts : list Extension) : bytes :=
  [1; kind] ++ to_be 4 hours ++ [key_type] ++ key ++ [len exts] ++ concat (map encode_ext exts).

(** An extension the parser may accept: of a known type and shape, or not
    marked as affecting validation. *)
Definition acceptable (e : Extension) : Prop :=
  len (ext_body e) < 65536 /\
  if decide (ext_type e = EXT_TYPE_SIGNED_WITH_ED25519) then len (ext_body e) = 32
  else Z.land (ext_flags e) EXT_FLAG_AFFECTS_VALIDATION = 0.

#[export] Instance acceptable_dec e : Decision (acceptable e).
Proof. unfold acceptable. destruct (decide (ext_type e = _)); apply _. Defined.

(** The last signing key among the extensions. *)
Definition signer_of (exts : list Extension) (init : option bytes) : option bytes :=
  fold_left (fun sk e =>
    if decide (ext_type e = EXT_TYPE_SIGNED_WITH_ED25519) then Some (ext_body e) else sk) exts init.

(** Exactly one entry has this type, and it is [body]. *)
Definition only_entry (certs : CertsCell.t) (cert_type : Z) (body : bytes) : Prop :=
  filter (fun e => fst e = cert_type) certs = [(cert_type, body)].

(** A certificate for [subject] in force at [now], whose 64-byte signature by
    [signer] covers every byte before it. *)
Record certifies `{Crypto} (signer data : bytes) (kind key_type : Z) (subject : bytes) (now : Z)
    (c : Ed25519Cert.t) : Prop := {
  ct_parse : Ed25519Cert.parse data = Ok c;
  ct_kind : Ed25519Cert.cert_type c = kind;
  ct_key_type : Ed25519Cert.cert_key_type c = key_type;
  ct_subject : Ed25519Cert.certified_key c = subject;
  ct_whole : data = Ed25519Cert.signed_portion c ++ Ed25519Cert.signature c;
  ct_sig_len : len (Ed25519Cert.signature c) = 64;
  ct_signed : ed25519_verify signer (Ed25519Cert.signed_portion c) (Ed25519Cert.signature c) = true;
  ct_in_force : now < Ed25519Cert.expiration_hours c * 3600;
}.

(** The chain the link protocol asks for: the identity certifies a signing
    key with a self-signed certificate, and the signing key certifies the TLS
    certificate. *)
Definition authenticates `{Crypto} (certs : CertsCell.t) (tls_hash : bytes) (now : Z)
    (identity : bytes) : Prop :=
  exists id_body tls_body signing id_cert tls_cert,
    only_entry certs CERT_TYPE_IDENTITY_V_SIGNING id_body /\
    only_entry certs CERT_TYPE_SIGNING_V_TLS tls_body /\
    certifies identity id_body CERT_TYPE_IDENTITY_V_SIGNING KEY_TYPE_ED25519 signing now id_cert /\
    Ed25519Cert.signing_key id_cert = Some identity /\
    certifies signing tls_body CERT_TYPE_SIGNING_V_TLS KEY_TYPE_SHA256_OF_X509 tls_hash now tls_cert.

Lemma unique_from_spec (entries : list (Z * bytes)) k found body :
  CertsCell.unique_from entries k found = Ok body <->
  match found with
  | Some b => b = body /\ filter (fun e => fst e = k) entries = []
  | None => filter (fun e => fst e = k) entries = [(k, body)]
  end.
Proof.
  revert found. induction entries as [|[t b] entries IH]; intros found.
  - destruct found as [b|]; cbn; [|done]. split; [by intros [= ->]|by intros [-> _]].
  - rewrite filter_cons. cbn [CertsCell.unique_from fst].
    destruct (Z.eqb_spec t k) as [->|Hn].
    + rewrite decide_True by done. destruct found as [b'|]; [by split; [|intros [_ ?]]|].
      rewrite IH. split; [by intros [-> ->]|]. by intros [= -> ->].
    + rewrite decide_False by done. apply IH.
Qed.

Lemma unique_spec certs k body : CertsCell.unique certs k = Ok body <-> only_entry certs k body.
Proof. apply (unique_from_spec certs k None). Qed.

(** Extensions are walked forwards. *)
Lemma parse_extensions_pos n data pos sk pos' sk' :
  bytes_ok data -> Ed25519Cert.parse_extensions n data pos sk = Ok (pos', sk') -> pos <= pos'.
Proof.
  intros Hd. revert pos sk. induction n as [|n IH]; intros pos sk; cbn; [intros [= <- <-]; lia|].
  intros E. pose proof (from_be_bound _ (bytes_ok_slice data pos (pos + 2) Hd)).
  res_inv; apply IH in E; lia.
Qed.

(** The signature is the last 64 bytes and everything before it is signed. *)
Lemma parse_whole data c :
  bytes_ok data -> Ed25519Cert.parse data = Ok c ->
  data = Ed25519Cert.signed_portion c ++ Ed25519Cert.signature c /\
  len (Ed25519Cert.signature c) = 64.
Proof.
  intros Hd E. unfold Ed25519Cert.parse in E. res_inv. destruct a as [pos sk].
  apply parse_extensions_pos in E2; [|done]. res_inv. subst c. b2p. cbn. unfold slice_to, slice_from. split; [by rewrite take_drop|].
  rewrite len_drop. lia.
Qed.

(** *** The parser inverts the encoder *)

(** Reading one encoded extension where it starts. *)
Lemma ext_fields pre e rest data :
  0 <= len (ext_body e) < 65536 -> data = pre ++ encode_ext e ++ rest ->
  from_be (slice data (len pre) (len pre + 2)) = len (ext_body e) /\
  byte_at data (len pre + 2) = ext_type e /\ byte_at data (len pre + 3) = ext_flags e /\
  slice data (len pre + 4) (len pre + 4 + len (ext_body e)) = ext_body e.
Proof.
  intros Hb ->. unfold encode_ext. rewrite <- !app_assoc. split_and!.
  - rewrite slice_app_at by (rewrite ?len_to_be; lia).
    apply from_be_to_be_small. change (256 ^ Z.of_nat 2) with 65536. lia.
  - rewrite byte_at_app_r, byte_at_app_r by solve_len. rewrite len_to_be.
    by replace (len pre + 2 - len pre - Z.of_nat 2) with 0 by lia.
  - rewrite byte_at_app_r, byte_at_app_r by solve_len. rewrite len_to_be.
    by replace (len pre + 3 - len pre - Z.of_nat 2) with 1 by lia.
  - rewrite (app_assoc (to_be _ _)), (app_assoc pre). apply slice_app_at; solve_len.
Qed.

Lemma len_encode_ext e : len (encode_ext e) = 4 + len (ext_body e).
Proof. unfold encode_ext. solve_len. Qed.

Lemma parse_extensions_encode exts : forall pre rest sk,
  Forall acceptable exts ->
  Ed25519Cert.parse_extensions (length exts) (pre ++ concat (map encode_ext exts) ++ rest)
    (len pre) sk
  = Ok (len pre + len (concat (map encode_ext exts)), signer_of exts sk).
Proof.
  induction exts as [|e exts IH]; intros pre rest sk Ha.
  - cbn. do 2 f_equal. change (len []) with 0. lia.
  - apply Forall_cons in Ha as [[Hb Ht] Ha]. cbn [map concat length Ed25519Cert.parse_extensions].
    len_pos. set (tl := concat (map encode_ext exts)) in *.
    pose proof (len_encode_ext e) as Le. rewrite <- app_assoc.
    destruct (ext_fields pre e (tl ++ rest) _ ltac:(lia) eq_refl) as (E1 & E2 & E3 & E4).
    specialize (IH (pre ++ encode_ext e) rest). rewrite <- app_assoc in IH.
    replace (len (pre ++ encode_ext e)) with (len pre + 4 + len (ext_body e)) in IH by solve_len.
    rewrite E1, E2, E3, E4, !len_app, Le. len_pos. do 2 zif1. unfold signer_of. cbn [fold_left].
    destruct (decide (ext_type e = EXT_TYPE_SIGNED_WITH_ED25519)) as [Et|Et].
    + rewrite (proj2 (Z.eqb_eq _ _) Et). rewrite Ht in *. rewrite Z.eqb_refl. cbn [negb].
      rewrite IH by done. do 2 f_equal. lia.
    + rewrite (proj2 (Z.eqb_neq _ _) Et). rewrite Ht. cbn [negb Z.eqb].
      rewrite IH by done. do 2 f_equal. lia.
Qed.

(** The fields of an encoded certificate. *)
Lemma parse_encode kind hours key_type key exts sig :
  0 <= hours < 2 ^ 32 -> len key = 32 -> len exts < 256 -> Forall acceptable exts ->
  len sig = 64 ->
  let unsigned := encode_unsigned kind hours key_type key exts in
  Ed25519Cert.parse (unsigned ++ sig) =
  Ok {| Ed25519Cert.cert_type := kind; Ed25519Cert.expiration_hours := hours;
        Ed25519Cert.cert_key_type := key_type; Ed25519Cert.certified_key := key;
        Ed25519Cert.signing_key := signer_of exts None;
        Ed25519Cert.signed_portion := unsigned; Ed25519Cert.signature := sig |}.
Proof.
  intros Hh Hk He Ha Hs unsigned.
  set (pre := [1; kind] ++ to_be 4 hours ++ [key_type] ++ key ++ [len exts]).
  assert (Lp : len pre = 40) by (unfold pre; solve_len).
  assert (U : unsigned = pre ++ concat (map encode_ext exts))
    by (unfold unsigned, encode_unsigned, pre; by rewrite <- !app_assoc).
  pose proof (parse_extensions_encode exts pre sig None Ha) as P.
  rewrite app_assoc, <- U, Lp in P.
  assert (B39 : byte_at (unsigned ++ sig) 39 = len exts).
  { rewrite U. unfold pre. rewrite <- !app_assoc.
    rewrite !byte_at_app_r by solve_len. autorewrite with len. rewrite Hk. done. }
  assert (F : from_be (slice (unsigned ++ sig) 2 6) = hours).
  { rewrite U. unfold pre. rewrite <- !app_assoc. rewrite slice_app_at by solve_len.
    apply from_be_to_be_small. exact Hh. }
  assert (K : slice (unsigned ++ sig) 7 39 = key).
  { rewrite U. unfold pre. rewrite <- !app_assoc.
    rewrite (app_assoc (to_be _ _)), (app_assoc [1; kind]). apply slice_app_at; solve_len. }
  assert (KT : byte_at (unsigned ++ sig) 6 = key_type).
  { rewrite U. unfold pre. rewrite <- !app_assoc. rewrite !byte_at_app_r by solve_len.
    autorewrite with len. done. }
  assert (L : len (unsigned ++ sig) = 40 + len (concat (map encode_ext exts)) + 64)
    by (rewrite U; solve_len).
  unfold Ed25519Cert.parse. rewrite B39. replace (Z.to_nat (len exts)) with (length exts)
    by (unfold len; lia).
  rewrite P, L, F, K, KT. len_pos. zif1. cbn [mbind result_bind].
  change (byte_at (unsigned ++ sig) 0) with 1. change (byte_at (unsigned ++ sig) 1) with kind.
  change (negb (1 =? 1)) with false. rewrite Z.eqb_refl. cbn [negb].
  rewrite slice_to_app, slice_from_app by (rewrite U; solve_len). done.
Qed.

(** The Ed25519 certificate parser reads back every field of an encoded certificate (extensions included: the last signed-with key wins, unknown extensions are skipped unless marked as affecting validation), with signed_portion exactly the bytes before the signature; and whatever it accepts is signed_portion followed by a 64-byte signature, so no byte of an accepted certificate escapes the signature. *)
Theorem cert_roundtrip kind hours key_type key exts sig :
  0 <= hours < 2 ^ 32 -> len key = 32 -> len exts < 256 -> Forall acceptable exts ->
  len sig = 64 ->
  (let unsigned := encode_unsigned kind hours key_type key exts in
   Ed25519Cert.parse (unsigned ++ sig) =
   Ok {| Ed25519Cert.cert_type := kind; Ed25519Cert.expiration_hours := hours;
         Ed25519Cert.cert_key_type := key_type; Ed25519Cert.certified_key := key;
         Ed25519Cert.signing_key := signer_of exts None;
         Ed25519Cert.signed_portion := unsigned; Ed25519Cert.signature := sig |}) /\
  forall data c, bytes_ok data -> Ed25519Cert.parse data = Ok c ->
    data = Ed25519Cert.signed_portion c ++ Ed25519Cert.signature c /\
    len (Ed25519Cert.signature c) = 64.
Proof. intros. split; [by apply parse_encode|apply parse_whole]. Qed.

(** *** The responder chain *)

Lemma check_ok ok what u : check ok what = Ok u -> ok = true.
Proof. by destruct ok. Qed.

Lemma certs_bytes certs k body :
  Forall (fun e => bytes_ok (snd e)) certs -> only_entry certs k body -> bytes_ok body.
Proof.
  intros Hf E. assert ((k, body) ∈ certs) as Hin.
  { assert ((k, body) ∈ filter (fun e => fst e = k) certs) as Hin by (rewrite E; set_solver).
    by apply list_elem_of_filter in Hin as [_ ?]. }
  rewrite Forall_forall in Hf. exact (Hf _ Hin).
Qed.

(** One certificate of the chain passes the code's checks exactly when it
    certifies. *)
Lemma certifies_iff `{Crypto} signer data kind key_type subject now c :
  bytes_ok data -> Ed25519Cert.parse data = Ok c ->
  certifies signer data kind key_type subject now c <->
  (Ed25519Cert.cert_type c =? kind) = true /\ (Ed25519Cert.cert_key_type c =? key_type) = true /\
  Ed25519Cert.check_signature c signer = true /\ Ed25519Cert.is_expired c now = false /\
  Ed25519Cert.certified_key c = subject.
Proof.
  intros Hb P. pose proof (parse_whole _ _ Hb P) as [Hw Hl].
  unfold Ed25519Cert.is_expired, Ed25519Cert.expires_at_unix.
  rewrite !Z.eqb_eq, Z.leb_gt. split; [by intros []|].
  intros (? & ? & ? & ? & ?). by constructor.
Qed.

Lemma validate_iff `{Crypto} certs tls_hash now identity :
  Forall (fun e => bytes_ok (snd e)) certs ->
  validate_responder certs tls_hash now = Ok identity <-> authenticates certs tls_hash now identity.
Proof.
  intros Hf. unfold validate_responder. split.
  - intros V. res_inv. repeat match goal with H : check _ _ = Ok _ |- _ => apply check_ok in H end.
    repeat match goal with H : CertsCell.unique _ _ = Ok _ |- _ => apply unique_spec in H end.
    subst. b2p. eexists _, _, _, _, _. split_and!; [done..| | |].
    + eapply certifies_iff; [by eapply certs_bytes|done|]. rewrite !Z.eqb_eq. done.
    + done.
    + eapply certifies_iff; [by eapply certs_bytes|done|]. rewrite !Z.eqb_eq.
      split_and!; try done. by apply constant_time_eq_spec.
  - intros (ib & tb & signing & ic & tc & Ui & Ut & Ci & Si & Ct).
    pose proof (ct_parse _ _ _ _ _ _ _ Ci) as Pi. pose proof (ct_parse _ _ _ _ _ _ _ Ct) as Pt.
    apply certifies_iff in Ci as (I1 & I2 & I3 & I4 & I5); [|by eapply certs_bytes|done].
    apply certifies_iff in Ct as (T1 & T2 & T3 & T4 & T5); [|by eapply certs_bytes|done].
    apply unique_spec in Ui as ->, Ut as ->. cbn [mbind result_bind].
    rewrite Pi. cbn [mbind result_bind]. rewrite I1, I2, Si. cbn [mbind result_bind check ok_or].
    rewrite I3, I4, Pt. cbn [mbind result_bind check negb]. rewrite T1, T2, I5, T3, T4.
    cbn [mbind result_bind check negb]. rewrite (proj2 (constant_time_eq_spec _ _) T5). done.
Qed.

(** C13. validate_responder returns an identity exactly when the CERTS cell holds one type-4 and one type-5 certificate, the type-4 certificate is self-signed by that identity (taken from its extension), in force, and certifies an Ed25519 signing key, and that signing key signed the in-force type-5 certificate of the SHA-256 of the TLS certificate seen on the wire; in every other case it is an error. *)
Theorem validate_responder_iff `{Crypto} certs tls_hash now identity :
  Forall (fun e => bytes_ok (snd e)) certs ->
  validate_responder certs tls_hash now = Ok identity <-> authenticates certs tls_hash now identity.
Proof. apply validate_iff. Qed.

(** ** A concrete chain *)
Module CertsDemo.
Import Toy.

Definition identity : bytes := replicate 32 7.
Definition signing : bytes := replicate 32 9.
Definition tls : bytes := replicate 32 1.

Definition id_unsigned : bytes :=
  encode_unsigned CERT_TYPE_IDENTITY_V_SIGNING 500000 KEY_TYPE_ED25519 signing
    [MkExt 200 0 [1; 2; 3]; MkExt EXT_TYPE_SIGNED_WITH_ED25519 1 identity].
Definition tls_unsigned : bytes :=
  encode_unsigned CERT_TYPE_SIGNING_V_TLS 500000 KEY_TYPE_SHA256_OF_X509 tls [].
Definition cell : CertsCell.t :=
  [(CERT_TYPE_IDENTITY_V_SIGNING, id_unsigned ++ sign identity id_unsigned);
   (CERT_TYPE_SIGNING_V_TLS, tls_unsigned ++ sign signing tls_unsigned); (7, [])].

Lemma cell_bytes : Forall (fun e => bytes_ok (snd e)) cell.
Proof. apply (bool_decide_unpack _). by vm_compute. Qed.

Lemma cert_roundtrip_witness :
  Ed25519Cert.parse (id_unsigned ++ sign identity id_unsigned) =
  Ok {| Ed25519Cert.cert_type := 4; Ed25519Cert.expiration_hours := 500000;
        Ed25519Cert.cert_key_type := 1; Ed25519Cert.certified_key := signing;
        Ed25519Cert.signing_key := Some identity;
        Ed25519Cert.signed_portion := id_unsigned;
        Ed25519Cert.signature := sign identity id_unsigned |}.
Proof.
  refine (proj1 (cert_roundtrip 4 500000 1 signing
    [MkExt 200 0 [1; 2; 3]; MkExt EXT_TYPE_SIGNED_WITH_ED25519 1 identity]
    (sign identity id_unsigned) _ _ _ _ _)).
  - done.
  - done.
  - done.
  - apply (bool_decide_unpack _). by vm_compute.
  - by vm_compute.
Defined.

Lemma validate_responder_witness :
  authenticates cell tls (500000 * 3600 - 1) identity /\
  ~ authenticates cell tls (500000 * 3600) identity.
Proof.
  split.
  - apply (validate_responder_iff cell tls (500000 * 3600 - 1) identity cell_bytes).
    by vm_compute.
  - intros A. apply (validate_responder_iff cell tls (500000 * 3600) identity cell_bytes) in A.
    by vm_compute in A.
Defined.

End CertsDemo.
