(* ===== verification/Handshake.v ===== *)
(** * Circuit handshakes ([src/src/tor/ntor.rs], [src/src/tor/ntor_v3.rs], and
      [Handshake] of [src/src/tor/circuit.rs])

    The client's half of CREATE_FAST, ntor and ntor-v3, the KDFs, the extension
    lists ntor-v3 carries, and the link specifiers that name a relay in
    EXTEND2.  A random key is an argument.  The relay's half is not part of the
    program: it is written from the protocol as a specification, and the
    theorems say that the two halves agree. *)
From S2P Require Import Prelude.
From S2P Require Import Crypto.
From S2P Require Import Cells.
From S2P Require Import Relay.
From S2P Require Import Circuit.

(** [EphemeralSecret::diffie_hellman]: OpenSSL refuses a degenerate secret. *)
Definition diffie_hellman `{Crypto} (secret peer : bytes) : result bytes :=
  ok_or (x25519 secret peer) (other_error "EVP_PKEY_derive").

Module Ntor.

Definition HANDSHAKE_TYPE_NTOR : Z := 2.
Definition CLIENT_HANDSHAKE_LEN : Z := 20 + 32 + 32.
Definition SERVER_HANDSHAKE_LEN : Z := 32 + 32.
Definition PROTOID : bytes := B "ntor-curve25519-sha256-1".
Definition T_MAC : bytes := B "ntor-curve25519-sha256-1:mac".
Definition T_KEY : bytes := B "ntor-curve25519-sha256-1:key_extract".
Definition T_VERIFY : bytes := B "ntor-curve25519-sha256-1:verify".
Definition M_EXPAND : bytes := B "ntor-curve25519-sha256-1:key_expand".
Definition SERVER_STRING : bytes := B "Server".

Section ntor.
Context `{Crypto}.

(** [NtorClient]: the private scalar, its public key, and the relay. *)
Record client := MkClient { secret : bytes; x_pub : bytes; node_id : bytes; onion_key : bytes }.

Definition new (generate : result bytes) (node_id onion_key : bytes) : result (client * bytes) :=
  secret ← generate;
  let x_pub := x25519_public secret in
  Ok (MkClient secret x_pub node_id onion_key, node_id ++ onion_key ++ x_pub).

(** The loop of [kdf_rfc5869]; every block adds 32 bytes, so [out_len] rounds
    are enough. *)
Fixpoint kdf_blocks (fuel : nat) (key_seed m_expand : bytes) (out_len : Z)
    (out prev : bytes) (counter : Z) : bytes :=
  match fuel with
  | O => out
  | S fuel =>
      if len out <? out_len then
        let block := hmac_sha256 key_seed (prev ++ m_expand ++ [counter]) in
        kdf_blocks fuel key_seed m_expand out_len (out ++ block) block (as_u8 (counter + 1))
      else out
  end.

Definition kdf_rfc5869 (key_seed m_expand : bytes) (out_len : Z) : bytes :=
  slice_to (kdf_blocks (Z.to_nat out_len) key_seed m_expand out_len [] [] 1) out_len.

Definition derive_keys (key_seed : bytes) : CircuitKeys :=
  let stream := kdf_rfc5869 key_seed M_EXPAND 72 in
  MkKeys (slice stream 0 20) (slice stream 20 40) (slice stream 40 56) (slice stream 56 72).

Definition finish (c : client) (reply : bytes) : result CircuitKeys :=
  if len reply <? SERVER_HANDSHAKE_LEN then Err (invalid_data "ntor reply is too short")
  else
    let y_pub := slice_to reply 32 in
    let auth := slice reply 32 64 in
    exp_yx ← diffie_hellman (secret c) y_pub;
    exp_bx ← diffie_hellman (secret c) (onion_key c);
    let secret_input :=
      exp_yx ++ exp_bx ++ node_id c ++ onion_key c ++ x_pub c ++ y_pub ++ PROTOID in
    let key_seed := hmac_sha256 T_KEY secret_input in
    let verify := hmac_sha256 T_VERIFY secret_input in
    let auth_input :=
      verify ++ node_id c ++ onion_key c ++ y_pub ++ x_pub c ++ PROTOID ++ SERVER_STRING in
    let expected_auth := hmac_sha256 T_MAC auth_input in
    if negb (constant_time_eq expected_auth auth)
    then Err (invalid_data "ntor AUTH mismatch: relay did not prove its key")
    else Ok (derive_keys key_seed).

End ntor.
End Ntor.

Module CreateFast.

Definition CREATE_FAST_LEN : Z := 20.

Section fast.
Context `{Crypto}.

Definition new (random : result bytes) : result (bytes * bytes) :=
  x ← random; Ok (x, x).

(** [kdf_tor]: [None] is a failed assertion or an overflow of the [u8]
    counter, both of which panic. *)
Fixpoint kdf_tor_blocks (fuel : nat) (k0 : bytes) (out_len : Z) (out : bytes) (counter : Z)
    : option bytes :=
  match fuel with
  | O => Some out
  | S fuel =>
      if len out <? out_len then
        let out := out ++ sha1 (k0 ++ [counter]) in
        if counter =? U8_MAX then None
        else kdf_tor_blocks fuel k0 out_len out (counter + 1)
      else Some out
  end.

Definition kdf_tor (k0 : bytes) (out_len : Z) : option bytes :=
  if 20 * 256 <? out_len then None
  else
    out ← kdf_tor_blocks (Z.to_nat out_len) k0 out_len [] 0;
    Some (slice_to out out_len).

Definition finish (x reply : bytes) : option (result CircuitKeys) :=
  if len reply <? CREATED_FAST_LEN
  then Some (Err (invalid_data "CREATED_FAST reply is too short"))
  else
    stream ← kdf_tor (x ++ slice_to reply CREATE_FAST_LEN) 92;
    Some
      (if negb (constant_time_eq (slice_to stream 20)
                  (slice reply CREATE_FAST_LEN CREATED_FAST_LEN))
       then Err (invalid_data "CREATED_FAST KH mismatch: relay did not derive the same keys")
       else Ok (MkKeys (slice stream 20 40) (slice stream 40 60)
                       (slice stream 60 76) (slice stream 76 92))).
End fast.
End CreateFast.

Module NtorV3.

Definition HANDSHAKE_TYPE_NTOR_V3 : Z := 3.
Definition PROTOID : bytes := B "ntor3-curve25519-sha3_256-1".
Definition T_MSGKDF : bytes := B "ntor3-curve25519-sha3_256-1:kdf_phase1".
Definition T_MSGMAC : bytes := B "ntor3-curve25519-sha3_256-1:msg_mac".
Definition T_KEY_SEED : bytes := B "ntor3-curve25519-sha3_256-1:key_seed".
Definition T_VERIFY : bytes := B "ntor3-curve25519-sha3_256-1:verify".
Definition T_FINAL : bytes := B "ntor3-curve25519-sha3_256-1:kdf_final".
Definition T_AUTH : bytes := B "ntor3-curve25519-sha3_256-1:auth_final".
Definition SERVER_STRING : bytes := B "Server".
Definition CIRC_VERIFICATION : bytes := B "circuit extend".
Definition SERVER_REPLY_PREFIX_LEN : Z := 32 + 32.
Definition CIRCUIT_KEY_LEN : Z := 20 + 20 + 16 + 16.

Record Extension := MkExtension { kind : Z; body : bytes }.

#[export] Instance Extension_eq_dec : EqDecision Extension.
Proof. solve_decision. Defined.

Fixpoint encode_fields (exts : list Extension) : result bytes :=
  match exts with
  | [] => Ok []
  | ext :: exts =>
      if U8_MAX <? len (body ext)
      then Err (invalid_data "handshake extension body is over 255 bytes")
      else
        rest ← encode_fields exts;
        Ok ([kind ext; as_u8 (len (body ext))] ++ body ext ++ rest)
  end.

Definition encode_extensions (exts : list Extension) : result bytes :=
  if U8_MAX <? len exts
  then Err (invalid_data "too many handshake extensions for one byte")
  else fields ← encode_fields exts; Ok (as_u8 (len exts) :: fields).

Fixpoint decode_fields (count : nat) (rest : bytes) : result (list Extension * bytes) :=
  match count with
  | O => Ok ([], rest)
  | S count =>
      if len rest <? 2 then Err (invalid_data "truncated handshake extension header")
      else
        let n := byte_at rest 1 in
        if len rest <? 2 + n then Err (invalid_data "truncated handshake extension body")
        else
          '(out, tail) ← decode_fields count (slice_from rest (2 + n));
          Ok (MkExtension (byte_at rest 0) (slice rest 2 (2 + n)) :: out, tail)
  end.

Definition decode_extensions (data : bytes) : result (list Extension) :=
  match data with
  | [] => Err (invalid_data "handshake extension list is empty")
  | count :: rest =>
      '(out, rest) ← decode_fields (Z.to_nat count) rest;
      match rest with
      | [] => Ok out
      | _ => Err (invalid_data "trailing bytes after the handshake extensions")
      end
  end.

Definition encap (s : bytes) : bytes := to_be 8 (len s) ++ s.

Section v3.
Context `{Crypto}.

Definition h (s t : bytes) : bytes := sha3_256 (encap t ++ s).
Definition mac (k msg t : bytes) : bytes := sha3_256 (encap t ++ encap k ++ msg).
Definition kdf (s t : bytes) (out_len : Z) : bytes := shake256 (encap t ++ s) out_len.
Definition enc (key m : bytes) : bytes := snd (Ctr.apply (Ctr.new Aes256 key) m).

Record client := MkClient {
  secret : bytes;
  x_pub : bytes;
  id : bytes;
  b_pub : bytes;
  exp_bx : bytes;
  msg_mac : bytes;
  verification : bytes;
}.

Definition build (secret id b message verification : bytes) : result (client * bytes) :=
  let x_pub := x25519_public secret in
  exp_bx ← diffie_hellman secret b;
  let phase1_input := exp_bx ++ id ++ x_pub ++ b ++ PROTOID ++ encap verification in
  let phase1_keys := kdf phase1_input T_MSGKDF 64 in
  let enc_k1 := slice_to phase1_keys 32 in
  let mac_k1 := slice phase1_keys 32 64 in
  let hdata := id ++ b ++ x_pub ++ enc enc_k1 message in
  let msg_mac := mac mac_k1 hdata T_MSGMAC in
  Ok (MkClient secret x_pub id b exp_bx msg_mac verification, hdata ++ msg_mac).

Definition new (generate : result bytes) (id b : bytes) (extensions : list Extension)
    : result (client * bytes) :=
  message ← encode_extensions extensions;
  secret ← generate;
  build secret id b message CIRC_VERIFICATION.

Definition complete (c : client) (reply : bytes) (keystream_len : Z) : result (bytes * bytes) :=
  if len reply <? SERVER_REPLY_PREFIX_LEN
  then Err (invalid_data "ntor-v3 reply is too short")
  else
    let y_pub := slice_to reply 32 in
    let auth := slice reply 32 64 in
    let encrypted_reply := slice_from reply 64 in
    exp_yx ← diffie_hellman (secret c) y_pub;
    let secret_input :=
      exp_yx ++ exp_bx c ++ id c ++ b_pub c ++ x_pub c ++ y_pub ++ PROTOID
      ++ encap (verification c) in
    let key_seed := h secret_input T_KEY_SEED in
    let verify := h secret_input T_VERIFY in
    let auth_input :=
      verify ++ id c ++ b_pub c ++ y_pub ++ x_pub c ++ msg_mac c ++ encap encrypted_reply
      ++ PROTOID ++ SERVER_STRING in
    if negb (constant_time_eq (h auth_input T_AUTH) auth)
    then Err (invalid_data "ntor-v3 AUTH mismatch: relay did not prove its onion key")
    else
      let raw := kdf key_seed T_FINAL (32 + keystream_len) in
      let enc_key := slice_to raw 32 in
      Ok (slice_from raw 32, enc enc_key encrypted_reply).

Definition finish (c : client) (reply : bytes) : result (CircuitKeys * list Extension) :=
  '(keystream, server_message) ← complete c reply CIRCUIT_KEY_LEN;
  let keys := MkKeys (slice keystream 0 20) (slice keystream 20 40)
                     (slice keystream 40 56) (slice keystream 56 72) in
  exts ← decode_extensions server_message;
  Ok (keys, exts).
End v3.
End NtorV3.

(** ** Which handshake a hop uses *)

Record RelayInfo := MkRelay {
  addr_ip : bytes;
  addr_port : Z;
  rsa_identity : bytes;
  ed_identity : option bytes;
  ntor_onion_key : bytes;
}.

Definition link_specifier (spec : Z * bytes) : bytes :=
  [fst spec; as_u8 (len (snd spec))] ++ snd spec.

Definition link_specifiers (r : RelayInfo) : bytes :=
  let specs :=
    [(0, addr_ip r ++ to_be 2 (addr_port r)); (2, rsa_identity r)]
    ++ match ed_identity r with Some ed => [(3, ed)] | None => [] end in
  [as_u8 (len specs)] ++ concat (map link_specifier specs).

Definition build_extend2 (next : RelayInfo) (htype : Z) (skin : bytes) : bytes :=
  link_specifiers next ++ to_be 2 htype ++ to_be 2 (as_u16 (len skin)) ++ skin.

Inductive handshake := HsNtor (c : Ntor.client) | HsNtorV3 (c : NtorV3.client).

Section handshake.
Context `{Crypto}.

Definition start (generate : result bytes) (relay : RelayInfo) (extensions : list NtorV3.Extension)
    : result (handshake * Z * bytes) :=
  match ed_identity relay with
  | Some ed =>
      '(client, skin) ← NtorV3.new generate ed (ntor_onion_key relay) extensions;
      Ok (HsNtorV3 client, NtorV3.HANDSHAKE_TYPE_NTOR_V3, skin)
  | None =>
      '(client, skin) ← Ntor.new generate (rsa_identity relay) (ntor_onion_key relay);
      Ok (HsNtor client, Ntor.HANDSHAKE_TYPE_NTOR, skin)
  end.

Definition finish (hs : handshake) (reply : bytes) : result (CircuitKeys * list NtorV3.Extension) :=
  match hs with
  | HsNtor client => keys ← Ntor.finish client reply; Ok (keys, [])
  | HsNtorV3 client => NtorV3.finish client reply
  end.
End handshake.

(** ** Key derivation *)

Section kdf.
Context `{CryptoLaws}.

(** Every block adds 32 bytes, and the loop stops at the first length that is
    enough. *)
Lemma kdf_blocks_len fuel key_seed m_expand out_len : forall out prev counter,
  out_len <= len out + 32 * Z.of_nat fuel ->
  out_len <= len (Ntor.kdf_blocks fuel key_seed m_expand out_len out prev counter).
Proof.
  induction fuel as [|fuel IH]; intros out prev counter Hf; cbn [Ntor.kdf_blocks]; [lia|].
  destruct (Z.ltb_spec (len out) out_len); [|lia]. apply IH. rewrite len_app, hmac_len. lia.
Qed.

Lemma kdf_rfc5869_len key_seed m_expand out_len :
  0 <= out_len -> len (Ntor.kdf_rfc5869 key_seed m_expand out_len) = out_len.
Proof.
  intros Hn. unfold Ntor.kdf_rfc5869, slice_to. rewrite len_take.
  pose proof (kdf_blocks_len (Z.to_nat out_len) key_seed m_expand out_len [] [] 1) as L.
  rewrite len_nil in L. lia.
Qed.

Lemma sha1_len m : len (sha1 m) = 20.
Proof. apply (hash_len Sha1). Qed.

Lemma kdf_tor_blocks_len fuel k0 out_len : forall out counter,
  len out = 20 * counter -> 0 <= counter <= U8_MAX -> out_len <= 20 * U8_MAX ->
  out_len <= len out + 20 * Z.of_nat fuel ->
  exists res, CreateFast.kdf_tor_blocks fuel k0 out_len out counter = Some res /\ out_len <= len res.
Proof.
  induction fuel as [|fuel IH]; intros out counter Hl Hc Hb Hf; cbn [CreateFast.kdf_tor_blocks].
  - exists out. split; [done|lia].
  - destruct (Z.ltb_spec (len out) out_len) as [Ho|Ho]; [|by exists out].
    destruct (Z.eqb_spec counter U8_MAX); [lia|].
    apply IH; rewrite ?len_app, ?sha1_len; lia.
Qed.

(** KDF-TOR yields the length asked for up to 255 blocks. *)
Lemma kdf_tor_len k0 out_len :
  0 <= out_len <= 20 * U8_MAX ->
  exists res, CreateFast.kdf_tor k0 out_len = Some res /\ len res = out_len.
Proof.
  intros Hn. unfold CreateFast.kdf_tor. destruct (Z.ltb_spec (20 * 256) out_len) as [|_];
    [unfold U8_MAX in Hn; lia|].
  destruct (kdf_tor_blocks_len (Z.to_nat out_len) k0 out_len [] 0) as (res & -> & L);
    rewrite ?len_nil; try (unfold U8_MAX in *; lia).
  cbn. exists (slice_to res out_len). split; [done|]. unfold slice_to. rewrite len_take. lia.
Qed.
End kdf.

(** The assertion in [kdf_tor] lets through lengths at which the counter of
    blocks overflows. *)
Lemma kdf_tor_overflow `{CryptoLaws} k0 : CreateFast.kdf_tor k0 (20 * 256) = None.
Proof.
  unfold CreateFast.kdf_tor. change (20 * 256 <? 20 * 256) with false. cbv iota.
  assert (L : forall fuel counter out, len out = 20 * counter -> 0 <= counter <= U8_MAX ->
    256 - counter <= Z.of_nat fuel ->
    CreateFast.kdf_tor_blocks fuel k0 (20 * 256) out counter = None).
  { induction fuel as [|fuel IH]; intros counter out Hl Hc Hf; [unfold U8_MAX in Hc; lia|].
    cbn [CreateFast.kdf_tor_blocks]. unfold U8_MAX in Hc.
    destruct (Z.ltb_spec (len out) (20 * 256)); [|lia].
    destruct (Z.eqb_spec counter U8_MAX) as [|Hn]; [done|]. unfold U8_MAX in Hn.
    apply IH; rewrite ?len_app, ?sha1_len; unfold U8_MAX; lia. }
  rewrite (L _ 0 []); done.
Qed.

(** ** The relay's half, from the protocol *)

Section relay.
Context `{Crypto}.

(** ntor at a relay with onion secret [b] and ephemeral secret [y]: its reply
    and its keys. *)
Definition ntor_relay (b y node_id skin : bytes) : option (bytes * CircuitKeys) :=
  let x_pub := slice skin 52 84 in
  let b_pub := x25519_public b in
  let y_pub := x25519_public y in
  exp_xy ← x25519 y x_pub;
  exp_xb ← x25519 b x_pub;
  let secret_input := exp_xy ++ exp_xb ++ node_id ++ b_pub ++ x_pub ++ y_pub ++ Ntor.PROTOID in
  let verify := hmac_sha256 Ntor.T_VERIFY secret_input in
  let auth := hmac_sha256 Ntor.T_MAC
    (verify ++ node_id ++ b_pub ++ y_pub ++ x_pub ++ Ntor.PROTOID ++ Ntor.SERVER_STRING) in
  Some (y_pub ++ auth, Ntor.derive_keys (hmac_sha256 Ntor.T_KEY secret_input)).

(** ntor-v3 likewise, with its own message: the reply, the keys and the
    client's message. *)
Definition v3_relay (b y id verification hdata message : bytes)
    : option (bytes * CircuitKeys * bytes) :=
  let x_pub := slice hdata 64 96 in
  let encrypted_msg := slice hdata 96 (len hdata - 32) in
  let msg_mac := slice_from hdata (len hdata - 32) in
  let b_pub := x25519_public b in
  let y_pub := x25519_public y in
  xb ← x25519 b x_pub;
  let phase1 := NtorV3.kdf (xb ++ id ++ x_pub ++ b_pub ++ NtorV3.PROTOID ++ NtorV3.encap verification)
                  NtorV3.T_MSGKDF 64 in
  if negb (constant_time_eq (NtorV3.mac (slice phase1 32 64) (slice_to hdata (len hdata - 32)) NtorV3.T_MSGMAC)
             msg_mac) then None
  else
    xy ← x25519 y x_pub;
    let secret_input := xy ++ xb ++ id ++ b_pub ++ x_pub ++ y_pub ++ NtorV3.PROTOID
                        ++ NtorV3.encap verification in
    let raw := NtorV3.kdf (NtorV3.h secret_input NtorV3.T_KEY_SEED) NtorV3.T_FINAL
                 (32 + NtorV3.CIRCUIT_KEY_LEN) in
    let encrypted_reply := NtorV3.enc (slice_to raw 32) message in
    let auth := NtorV3.h
      (NtorV3.h secret_input NtorV3.T_VERIFY ++ id ++ b_pub ++ y_pub ++ x_pub ++ msg_mac
       ++ NtorV3.encap encrypted_reply ++ NtorV3.PROTOID ++ NtorV3.SERVER_STRING) NtorV3.T_AUTH in
    Some (y_pub ++ auth ++ encrypted_reply,
          MkKeys (slice raw 32 52) (slice raw 52 72) (slice raw 72 88) (slice raw 88 104),
          NtorV3.enc (slice_to phase1 32) encrypted_msg).
End relay.

(** ** What authenticates a reply, from the protocol

    The proof a relay gives of its onion key, and the keys that go with it, as
    functions of the two Diffie-Hellman results and of what both sides said:
    [id] is the relay's identity, [bp] its onion key, [xp] and [yp] the
    ephemeral keys of the client and of the answer. *)
Section authentication.
Context `{Crypto}.

Definition ntor_proof (xy xb id bp xp yp : bytes) : bytes * CircuitKeys :=
  let secret_input := xy ++ xb ++ id ++ bp ++ xp ++ yp ++ Ntor.PROTOID in
  (hmac_sha256 Ntor.T_MAC
     (hmac_sha256 Ntor.T_VERIFY secret_input ++ id ++ bp ++ yp ++ xp ++ Ntor.PROTOID ++ Ntor.SERVER_STRING),
   Ntor.derive_keys (hmac_sha256 Ntor.T_KEY secret_input)).

(** ntor-v3 also covers the client's message and the answer's. *)
Definition v3_proof (xy xb id bp xp yp verification message encrypted_reply : bytes)
    : bytes * CircuitKeys * bytes :=
  let phase1 := NtorV3.kdf (xb ++ id ++ xp ++ bp ++ NtorV3.PROTOID ++ NtorV3.encap verification)
                  NtorV3.T_MSGKDF 64 in
  let hdata := id ++ bp ++ xp ++ NtorV3.enc (slice_to phase1 32) message in
  let secret_input := xy ++ xb ++ id ++ bp ++ xp ++ yp ++ NtorV3.PROTOID ++ NtorV3.encap verification in
  let raw := NtorV3.kdf (NtorV3.h secret_input NtorV3.T_KEY_SEED) NtorV3.T_FINAL (32 + NtorV3.CIRCUIT_KEY_LEN) in
  (NtorV3.h (NtorV3.h secret_input NtorV3.T_VERIFY ++ id ++ bp ++ yp ++ xp
             ++ NtorV3.mac (slice phase1 32 64) hdata NtorV3.T_MSGMAC
             ++ NtorV3.encap encrypted_reply ++ NtorV3.PROTOID ++ NtorV3.SERVER_STRING) NtorV3.T_AUTH,
   MkKeys (slice raw 32 52) (slice raw 52 72) (slice raw 72 88) (slice raw 88 104),
   NtorV3.enc (slice_to raw 32) encrypted_reply).

(** [reply] proves to the client with secret [x], who asked [relay] with
    [exts], that the answerer has the relay's onion key: its second half is
    the proof over the shared secrets of [x] with the ephemeral key in its
    first half and with the relay's onion key.  [keys] are the keys of that
    exchange and [answered] the extensions under the same authentication. *)
Inductive authenticated (relay : RelayInfo) (x : bytes) (exts : list NtorV3.Extension)
    (reply : bytes) (keys : CircuitKeys) (answered : list NtorV3.Extension) : Prop :=
| authenticated_ntor xy xb :
    ed_identity relay = None -> 64 <= len reply ->
    x25519 x (slice_to reply 32) = Some xy -> x25519 x (ntor_onion_key relay) = Some xb ->
    ntor_proof xy xb (rsa_identity relay) (ntor_onion_key relay) (x25519_public x) (slice_to reply 32) =
      (slice reply 32 64, keys) ->
    answered = [] -> authenticated relay x exts reply keys answered
| authenticated_v3 ed xy xb message server_message :
    ed_identity relay = Some ed -> 64 <= len reply ->
    x25519 x (slice_to reply 32) = Some xy -> x25519 x (ntor_onion_key relay) = Some xb ->
    NtorV3.encode_extensions exts = Ok message ->
    v3_proof xy xb ed (ntor_onion_key relay) (x25519_public x) (slice_to reply 32)
      NtorV3.CIRC_VERIFICATION message (slice_from reply 64) = (slice reply 32 64, keys, server_message) ->
    NtorV3.decode_extensions server_message = Ok answered ->
    authenticated relay x exts reply keys answered.
End authentication.

(** ** Agreement *)

Section agreement.
Context `{CryptoLaws}.

Lemma dh_some secret peer s : x25519 secret peer = Some s -> diffie_hellman secret peer = Ok s.
Proof. unfold diffie_hellman. by intros ->. Qed.

Lemma constant_time_eq_refl l : constant_time_eq l l = true.
Proof. by apply constant_time_eq_spec. Qed.

Lemma ntor_agree x b y node_id c skin reply keys pad :
  len node_id = 20 -> Ntor.new (Ok x) node_id (x25519_public b) = Ok (c, skin) ->
  ntor_relay b y node_id skin = Some (reply, keys) ->
  Ntor.finish c (reply ++ pad) = Ok keys.
Proof.
  intros Hid [= <- <-] Hr. unfold ntor_relay in Hr.
  assert (Ex : slice (node_id ++ x25519_public b ++ x25519_public x) 52 84 = x25519_public x).
  { rewrite app_assoc, <- (app_nil_r (x25519_public x)) at 1.
    apply slice_app_at; rewrite !len_app, !x25519_public_len; lia. }
  rewrite Ex in Hr.
  destruct (x25519 y (x25519_public x)) as [xy|] eqn:Dy; [|done].
  destruct (x25519 b (x25519_public x)) as [xb|] eqn:Db; [|done].
  injection Hr as <- <-. rewrite x25519_agree in Dy, Db.
  unfold Ntor.finish. cbn [Ntor.secret Ntor.x_pub Ntor.node_id Ntor.onion_key].
  set (auth := hmac_sha256 Ntor.T_MAC _). set (yp := x25519_public y) in *.
  assert (Ly : len yp = 32) by apply x25519_public_len.
  assert (La : len auth = 32) by apply hmac_len.
  rewrite !len_app, Ly, La. len_pos. unfold Ntor.SERVER_HANDSHAKE_LEN.
  destruct (Z.ltb_spec (32 + 32 + len pad) (32 + 32)); [lia|].
  rewrite <- app_assoc, slice_to_app, slice_app_at by lia.
  rewrite (dh_some _ _ _ Dy), (dh_some _ _ _ Db). cbn [mbind result_bind].
  fold auth. by rewrite constant_time_eq_refl.
Qed.

(** The MAC a client with these keys expects after [y_pub]. *)
Lemma ntor_auth c reply keys :
  Ntor.finish c reply = Ok keys ->
  exists exp_yx exp_bx,
    x25519 (Ntor.secret c) (slice_to reply 32) = Some exp_yx /\
    x25519 (Ntor.secret c) (Ntor.onion_key c) = Some exp_bx /\
    let secret_input := exp_yx ++ exp_bx ++ Ntor.node_id c ++ Ntor.onion_key c ++ Ntor.x_pub c
                        ++ slice_to reply 32 ++ Ntor.PROTOID in
    keys = Ntor.derive_keys (hmac_sha256 Ntor.T_KEY secret_input) /\
    slice reply 32 64 = hmac_sha256 Ntor.T_MAC
      (hmac_sha256 Ntor.T_VERIFY secret_input ++ Ntor.node_id c ++ Ntor.onion_key c
       ++ slice_to reply 32 ++ Ntor.x_pub c ++ Ntor.PROTOID ++ Ntor.SERVER_STRING).
Proof.
  unfold Ntor.finish, diffie_hellman. destruct (len reply <? _); [done|].
  destruct (x25519 _ (slice_to reply 32)) as [yx|]; [|done].
  destruct (x25519 _ (Ntor.onion_key c)) as [bx|]; [|done]. cbn [mbind result_bind ok_or].
  destruct (constant_time_eq _ _) eqn:C; [|done]. apply constant_time_eq_spec in C.
  cbn [negb]. intros [= <-]. by exists yx, bx.
Qed.

Lemma enc_enc key m : NtorV3.enc key (NtorV3.enc key m) = m.
Proof. apply apply_apply. Qed.

Lemma len_enc key m : len (NtorV3.enc key m) = len m.
Proof. apply apply_len. Qed.

Lemma h_len s t : len (NtorV3.h s t) = 32.
Proof. apply (hash_len Sha3_256). Qed.

Lemma mac_len k m t : len (NtorV3.mac k m t) = 32.
Proof. apply (hash_len Sha3_256). Qed.

(** Cutting a slice out of what follows a cut. *)
Lemma slice_slice_from {A} (l : list A) k a b :
  0 <= k -> 0 <= a -> slice (slice_from l k) a b = slice l (k + a) (k + b).
Proof.
  intros. unfold slice, slice_from. rewrite drop_drop. f_equal; [lia|f_equal; lia].
Qed.

(** The parts of a client's message. *)
Lemma hdata_parts (i bp xp em m : bytes) :
  len i = 32 -> len bp = 32 -> len xp = 32 -> len m = 32 ->
  let hdata := (i ++ bp ++ xp ++ em) ++ m in
  slice hdata 64 96 = xp /\ slice hdata 96 (len hdata - 32) = em /\
  slice_from hdata (len hdata - 32) = m /\ slice_to hdata (len hdata - 32) = i ++ bp ++ xp ++ em.
Proof.
  intros Li Lb Lx Lm hdata.
  assert (L : len hdata - 32 = len (i ++ bp ++ xp ++ em)) by (unfold hdata; rewrite len_app; lia).
  rewrite L. split_and!.
  - unfold hdata. rewrite <- !app_assoc, (app_assoc i). apply slice_app_at; rewrite len_app; lia.
  - unfold hdata. replace ((i ++ bp ++ xp ++ em) ++ m) with ((i ++ bp ++ xp) ++ em ++ m)
      by (by rewrite <- !app_assoc).
    apply slice_app_at; rewrite !len_app; lia.
  - by apply slice_from_app.
  - by apply slice_to_app.
Qed.

(** The circuit keys are the whole keystream. *)
Lemma raw_parts (raw : bytes) :
  len raw = 104 ->
  slice_from raw 32 = slice raw 32 52 ++ slice raw 52 72 ++ slice raw 72 88 ++ slice raw 88 104.
Proof.
  intros L. unfold len in L. unfold slice, slice_from.
  change (Z.to_nat (52 - 32)) with 20%nat. change (Z.to_nat (72 - 52)) with 20%nat.
  change (Z.to_nat (88 - 72)) with 16%nat. change (Z.to_nat (104 - 88)) with 16%nat.
  change (Z.to_nat 32) with 32%nat. change (Z.to_nat 52) with (32 + 20)%nat.
  change (Z.to_nat 72) with (32 + (20 + 20))%nat. change (Z.to_nat 88) with (32 + (20 + (20 + 16)))%nat.
  rewrite <- !drop_drop. set (k := drop 32 raw).
  rewrite (take_ge (drop 16 _)) by (unfold k; rewrite !length_drop; lia).
  by rewrite !take_drop.
Qed.

Lemma v3_agree x b y id message ver c hdata server_message reply keys client_message :
  len id = 32 -> NtorV3.build x id (x25519_public b) message ver = Ok (c, hdata) ->
  v3_relay b y id ver hdata server_message = Some (reply, keys, client_message) ->
  client_message = message /\
  NtorV3.complete c reply NtorV3.CIRCUIT_KEY_LEN = 
    Ok (df keys ++ db keys ++ kf keys ++ kb keys, server_message) /\
  len (df keys) = 20 /\ len (db keys) = 20 /\ len (kf keys) = 16 /\ len (kb keys) = 16.
Proof.
  intros Hid Hb Hr. unfold NtorV3.build in Hb. unfold v3_relay in Hr.
  unfold diffie_hellman in Hb. rewrite x25519_agree in Hb.
  destruct (x25519 b (x25519_public x)) as [xb|] eqn:Db; [|done]. cbn [mbind result_bind ok_or] in Hb.
  set (p1 := NtorV3.kdf _ NtorV3.T_MSGKDF 64) in Hb.
  set (em := NtorV3.enc _ message) in Hb. set (m := NtorV3.mac _ _ _) in Hb.
  apply (inj Ok) in Hb. injection Hb as Ec Eh.
  assert (Eh' : hdata = (id ++ x25519_public b ++ x25519_public x ++ em) ++ m) by done.
  destruct (hdata_parts id (x25519_public b) (x25519_public x) em m) as (P1 & P2 & P3 & P4);
    [done|apply x25519_public_len..|apply mac_len|].
  rewrite <- Eh' in P1, P2, P3, P4. rewrite P1, P2, P3, P4, Db in Hr. cbn [mbind option_bind] in Hr.
  fold p1 in Hr. fold m in Hr. rewrite constant_time_eq_refl in Hr. cbn [negb] in Hr.
  clearbody m. unfold em in Hr. rewrite enc_enc in Hr. clearbody em p1. clear P1 P2 P3 P4 Eh Eh'.
  destruct (x25519 y (x25519_public x)) as [xy|] eqn:Dy; [|done]. cbn [mbind option_bind] in Hr.
  rewrite x25519_agree in Dy. set (yp := x25519_public y) in *.
  set (si := xy ++ _) in Hr. set (raw := NtorV3.kdf (NtorV3.h si _) _ _) in Hr.
  set (er := NtorV3.enc _ server_message) in Hr. set (auth := NtorV3.h _ NtorV3.T_AUTH) in Hr.
  apply (inj Some) in Hr. injection Hr as Er Ek <-. split; [done|].
  assert (Lr : len raw = 104) by (unfold raw, NtorV3.kdf; rewrite shake256_len; done).
  assert (Ly : len yp = 32) by apply x25519_public_len.
  assert (La : len auth = 32) by apply h_len.
  split.
  - unfold NtorV3.complete. rewrite <- Er, <- Ec.
    cbn [NtorV3.secret NtorV3.x_pub NtorV3.id NtorV3.b_pub NtorV3.exp_bx NtorV3.msg_mac
         NtorV3.verification].
    rewrite !len_app, Ly, La. len_pos. unfold NtorV3.SERVER_REPLY_PREFIX_LEN.
    destruct (Z.ltb_spec (32 + (32 + len er)) (32 + 32)); [lia|].
    rewrite slice_to_app, slice_app_at by lia.
    rewrite (app_assoc yp auth er), slice_from_app by (rewrite len_app; lia).
    rewrite (dh_some _ _ _ Dy). cbn [mbind result_bind].
    fold si. fold auth. rewrite constant_time_eq_refl. cbn [negb]. fold raw. 
    unfold er at 1. rewrite enc_enc. f_equal. f_equal. rewrite <- Ek. cbn [df db kf kb].
    apply raw_parts. lia.
  - rewrite <- Ek. cbn [df db kf kb]. rewrite !len_slice by lia. done.
Qed.
End agreement.

(** ** Extension lists *)

Section extensions.
Import NtorV3.

Lemma byte_at_0 (x : Z) l : byte_at (x :: l) 0 = x.
Proof. done. Qed.
Lemma byte_at_1 (x y : Z) l : byte_at (x :: y :: l) 1 = y.
Proof. done. Qed.

Lemma decode_encode_fields exts : forall data tail,
  encode_fields exts = Ok data -> decode_fields (length exts) (data ++ tail) = Ok (exts, tail).
Proof.
  induction exts as [|[k b] exts IH]; intros data tail; cbn [encode_fields decode_fields length].
  - by intros [= <-].
  - cbn [body kind]. destruct (Z.ltb_spec U8_MAX (len b)) as [|Hb]; [done|]. unfold U8_MAX in Hb.
    destruct (encode_fields exts) as [rest|] eqn:E; [|done]. cbn [mbind result_bind].
    intros [= <-]. unfold as_u8. len_pos. rewrite Z.mod_small by lia.
    cbn [app]. rewrite byte_at_0, byte_at_1, !len_cons, <- app_assoc, !len_app.
    pose proof (len_nonneg rest). pose proof (len_nonneg tail).
    destruct (Z.ltb_spec (1 + (1 + (len b + (len rest + len tail)))) 2); [lia|].
    destruct (Z.ltb_spec (1 + (1 + (len b + (len rest + len tail)))) (2 + len b)); [lia|].
    set (tl := rest ++ tail).
    assert (E1 : slice_from (k :: len b :: b ++ tl) (2 + len b) = tl).
    { apply (slice_from_app (k :: len b :: b) tl). rewrite !len_cons. lia. }
    assert (E2 : slice (k :: len b :: b ++ tl) 2 (2 + len b) = b)
      by (by apply (slice_app_at [k; len b] b tl)).
    rewrite E1, E2. unfold tl. by rewrite (IH rest tail eq_refl).
Qed.

Lemma encode_decode_fields n : forall data exts tail,
  bytes_ok data -> decode_fields n data = Ok (exts, tail) ->
  length exts = n /\ exists fields, encode_fields exts = Ok fields /\ data = fields ++ tail.
Proof.
  induction n as [|n IH]; intros data exts tail Hd; cbn [decode_fields].
  - intros [= <- <-]. split; [done|]. by exists [].
  - destruct (Z.ltb_spec (len data) 2) as [|L2]; [done|].
    destruct data as [|k [|m data]]; [by vm_compute in L2..|].
    rewrite byte_at_0, byte_at_1. destruct (Z.ltb_spec (len (k :: m :: data)) (2 + m)) as [|Lm]; [done|].
    apply bytes_ok_cons in Hd as [_ Hd]. apply bytes_ok_cons in Hd as [Hm Hd].
    destruct Hm as [Hm0 Hm1]. rewrite !len_cons in Lm.
    assert (Es : slice_from (k :: m :: data) (2 + m) = slice_from data m)
      by (unfold slice_from; by replace (Z.to_nat (2 + m)) with (S (S (Z.to_nat m))) by lia).
    assert (Eb : slice (k :: m :: data) 2 (2 + m) = slice_to data m)
      by (unfold slice, slice_to; by replace (Z.to_nat (2 + m - 2)) with (Z.to_nat m) by lia).
    rewrite Es, Eb. destruct (decode_fields n (slice_from data m)) as [[out rest]|] eqn:D; [|done].
    cbn [mbind result_bind]. intros [= <- <-].
    apply IH in D as (Hl & fields & Ef & Ed); [|by apply bytes_ok_drop].
    split; [cbn; by rewrite Hl|]. cbn [encode_fields body kind].
    assert (Lb : len (slice_to data m) = m) by (unfold slice_to; rewrite len_take; lia).
    rewrite Lb. destruct (Z.ltb_spec U8_MAX m); [unfold U8_MAX in *; lia|].
    rewrite Ef. cbn [mbind result_bind]. eexists. split; [done|].
    unfold as_u8. rewrite Z.mod_small by lia. cbn [app].
    rewrite <- app_assoc, <- Ed. unfold slice_to, slice_from. by rewrite take_drop.
Qed.

Lemma decode_encode exts data : encode_extensions exts = Ok data -> decode_extensions data = Ok exts.
Proof.
  unfold encode_extensions. destruct (Z.ltb_spec U8_MAX (len exts)) as [|Hl]; [done|].
  unfold U8_MAX in Hl. destruct (encode_fields exts) as [fields|] eqn:E; [|done].
  cbn [mbind result_bind]. intros [= <-]. cbn [decode_extensions].
  unfold as_u8. len_pos. rewrite Z.mod_small by lia.
  replace (Z.to_nat (len exts)) with (length exts) by (unfold len; lia).
  pose proof (decode_encode_fields exts fields [] E) as D. rewrite app_nil_r in D. by rewrite D.
Qed.

(** ntor-v3 extension lists: whatever encode_extensions produces, decode_extensions reads back as the same list; and decode_extensions is strict -- a byte string it accepts is exactly what encode_extensions produces for the list it returns, so no missing count, short field or trailing byte is ever accepted. *)
Theorem extensions_roundtrip exts data :
  bytes_ok data -> encode_extensions exts = Ok data <-> decode_extensions data = Ok exts.
Proof.
  intros Hd. split; [apply decode_encode|]. destruct data as [|count data]; [done|].
  apply bytes_ok_cons in Hd as [[Hc0 Hc1] Hd]. cbn [decode_extensions].
  destruct (decode_fields _ data) as [[out rest]|] eqn:D; [|done]. cbn [mbind result_bind].
  destruct rest; [|done]. intros [= <-].
  apply encode_decode_fields in D as (Hl & fields & Ef & ->); [|done].
  assert (Lo : len out = count) by (unfold len; lia).
  unfold encode_extensions. rewrite Lo, Ef. destruct (Z.ltb_spec U8_MAX count); [unfold U8_MAX in *; lia|].
  cbn [mbind result_bind]. unfold as_u8. by rewrite Z.mod_small, app_nil_r by lia.
Qed.
End extensions.

(** ** Properties of the handshakes *)

Section properties.
Context `{CryptoLaws}.

(** Both halves of CREATE_FAST reach the same keys. *)
Lemma fast_agree x y stream :
  len x = 20 -> len y = 20 -> CreateFast.kdf_tor (x ++ y) 92 = Some stream ->
  CreateFast.finish x (y ++ slice_to stream 20) =
    Some (Ok (MkKeys (slice stream 20 40) (slice stream 40 60) (slice stream 60 76) (slice stream 76 92))).
Proof.
  intros Lx Ly K. destruct (kdf_tor_len (x ++ y) 92) as (s & K' & Ls); [unfold U8_MAX; lia|].
  rewrite K in K'. injection K' as <-.
  assert (Lt : len (slice_to stream 20) = 20) by (unfold slice_to; rewrite len_take; lia).
  unfold CreateFast.finish. rewrite len_app, Ly, Lt.
  change (20 + 20 <? CREATED_FAST_LEN) with false. cbv iota.
  rewrite slice_to_app by done. rewrite K. cbn [mbind option_bind].
  rewrite <- (app_nil_r (slice_to stream 20)) at 2.
  rewrite slice_app_at by (rewrite ?Ly, ?Lt; done). by rewrite constant_time_eq_refl.
Qed.

(** The keystream cut into a hop's keys again. *)
Lemma cut_keys (a b c d : bytes) :
  len a = 20 -> len b = 20 -> len c = 16 -> len d = 16 ->
  let ks := a ++ b ++ c ++ d in
  slice ks 0 20 = a /\ slice ks 20 40 = b /\ slice ks 40 56 = c /\ slice ks 56 72 = d.
Proof.
  intros La Lb Lc Ld ks. unfold ks. split_and!.
  - by rewrite slice_0_to, slice_to_app.
  - apply slice_app_at; lia.
  - rewrite (app_assoc a). apply slice_app_at; rewrite len_app; lia.
  - rewrite <- (app_nil_r d) at 1. rewrite (app_assoc b), (app_assoc a).
    apply slice_app_at; rewrite !len_app; lia.
Qed.

(** The relay accepts what [build] sends, unless its own secret is
    degenerate. *)
Lemma v3_accepts x b y id message ver c hdata server_message :
  len id = 32 -> NtorV3.build x id (x25519_public b) message ver = Ok (c, hdata) ->
  is_Some (x25519 y (x25519_public x)) -> is_Some (v3_relay b y id ver hdata server_message).
Proof.
  intros Hid Hb [xy Dy]. unfold NtorV3.build in Hb. unfold v3_relay.
  unfold diffie_hellman in Hb. rewrite x25519_agree in Hb.
  destruct (x25519 b (x25519_public x)) as [xb|] eqn:Db; [|done]. cbn [mbind result_bind ok_or] in Hb.
  set (p1 := NtorV3.kdf _ NtorV3.T_MSGKDF 64) in Hb.
  set (em := NtorV3.enc _ message) in Hb. set (m := NtorV3.mac _ _ _) in Hb.
  apply (inj Ok) in Hb. injection Hb as Ec Eh.
  assert (Eh' : hdata = (id ++ x25519_public b ++ x25519_public x ++ em) ++ m) by done.
  destruct (hdata_parts id (x25519_public b) (x25519_public x) em m) as (P1 & P2 & P3 & P4);
    [done|apply x25519_public_len..|apply mac_len|].
  rewrite <- Eh' in P1, P2, P3, P4. rewrite P1, P2, P3, P4, Db. cbn [mbind option_bind].
  fold p1. fold m. rewrite constant_time_eq_refl. cbn [negb]. rewrite Dy. cbn [mbind option_bind].
  by eexists.
Qed.

(** Both ends of either handshake reach the same keys. *)
Lemma handshake_keys_agree relay b y x exts hs htype skin :
  ntor_onion_key relay = x25519_public b -> len (rsa_identity relay) = 20 ->
  (forall ed, ed_identity relay = Some ed -> len ed = 32) ->
  start (Ok x) relay exts = Ok (hs, htype, skin) ->
  match ed_identity relay with
  | None =>
      htype = Ntor.HANDSHAKE_TYPE_NTOR /\ len skin = Ntor.CLIENT_HANDSHAKE_LEN /\
      forall reply keys pad, ntor_relay b y (rsa_identity relay) skin = Some (reply, keys) ->
        finish hs (reply ++ pad) = Ok (keys, [])
  | Some ed =>
      htype = NtorV3.HANDSHAKE_TYPE_NTOR_V3 /\
      forall server_exts message,
        NtorV3.encode_extensions server_exts = Ok message ->
        is_Some (x25519 y (x25519_public x)) ->
        exists reply keys client_message,
          v3_relay b y ed NtorV3.CIRC_VERIFICATION skin message = Some (reply, keys, client_message) /\
          NtorV3.decode_extensions client_message = Ok exts /\
          finish hs reply = Ok (keys, server_exts)
  end.
Proof.
  intros Hk Hr Hed Hs. unfold start in Hs. destruct (ed_identity relay) as [ed|].
  - specialize (Hed ed eq_refl). unfold NtorV3.new in Hs. rewrite Hk in Hs.
    destruct (NtorV3.encode_extensions exts) as [cm|] eqn:E; [|done]. cbn [mbind result_bind] in Hs.
    destruct (NtorV3.build _ _ _ _ _) as [[c skin']|] eqn:B; [|done].
    injection Hs as <- <- <-. split; [done|]. intros server_exts message Em Hy.
    destruct (v3_accepts _ _ y _ _ _ _ _ message Hed B Hy) as [[[reply keys] m] R].
    destruct (v3_agree _ _ _ _ _ _ _ _ _ _ _ _ Hed B R) as (-> & C & L1 & L2 & L3 & L4).
    exists reply, keys, cm. split; [done|]. split; [by apply decode_encode|].
    cbn [finish]. unfold NtorV3.finish. rewrite C. cbn [mbind result_bind].
    destruct (cut_keys _ _ _ _ L1 L2 L3 L4) as (-> & -> & -> & ->).
    rewrite (decode_encode _ _ Em). cbn [mbind result_bind]. by destruct keys.
  - destruct (Ntor.new _ _ _) as [[c skin']|] eqn:N; [|done]. rewrite Hk in N.
    injection Hs as <- <- <-. split; [done|]. split.
    { injection N as _ <-. rewrite !len_app, !x25519_public_len, Hr. done. }
    intros reply keys pad R. cbn [finish]. by rewrite (ntor_agree _ _ _ _ _ _ _ _ pad Hr N R).
Qed.

End properties.

(** ** Authentication *)

(** The reply is what the relay with onion secret [b], drawing [y], answers
    to the client's message. *)
Definition the_relays_answer `{Crypto} (relay : RelayInfo) (b y : bytes) (exts : list NtorV3.Extension)
    (skin reply : bytes) (keys : CircuitKeys) (answered : list NtorV3.Extension) : Prop :=
  match ed_identity relay with
  | None => ntor_relay b y (rsa_identity relay) skin = Some (slice_to reply 64, keys)
  | Some ed => exists message server_message,
      NtorV3.encode_extensions exts = Ok message /\ NtorV3.decode_extensions server_message = Ok answered /\
      v3_relay b y ed NtorV3.CIRC_VERIFICATION skin server_message = Some (reply, keys, message)
  end.

Section authenticity.
Context `{Crypto}.

Lemma dh_ok secret peer s : diffie_hellman secret peer = Ok s -> x25519 secret peer = Some s.
Proof. unfold diffie_hellman. destruct (x25519 secret peer); [by intros [= ->]|done]. Qed.

Lemma start_secret generate relay exts r :
  start generate relay exts = Ok r -> exists x, generate = Ok x.
Proof.
  unfold start, Ntor.new, NtorV3.new. intros E.
  destruct generate as [x|]; [by exists x|]. destruct (ed_identity relay); [|done].
  by destruct (NtorV3.encode_extensions exts).
Qed.

Lemma complete_proves x id bp message ver c hdata reply ks server_message :
  NtorV3.build x id bp message ver = Ok (c, hdata) ->
  NtorV3.complete c reply NtorV3.CIRCUIT_KEY_LEN = Ok (ks, server_message) ->
  64 <= len reply /\
  exists xy xb, x25519 x (slice_to reply 32) = Some xy /\ x25519 x bp = Some xb /\
    v3_proof xy xb id bp (x25519_public x) (slice_to reply 32) ver message (slice_from reply 64) =
      (slice reply 32 64,
       MkKeys (slice ks 0 20) (slice ks 20 40) (slice ks 40 56) (slice ks 56 72), server_message).
Proof.
  unfold NtorV3.build. intros Hb. destruct (diffie_hellman x bp) as [xb|] eqn:Db; [|done].
  cbn [mbind result_bind] in Hb. apply (inj Ok), (f_equal fst) in Hb. cbn [fst] in Hb. subst c.
  unfold NtorV3.complete. destruct (Z.ltb_spec (len reply) NtorV3.SERVER_REPLY_PREFIX_LEN) as [|L]; [done|].
  cbn [NtorV3.secret NtorV3.x_pub NtorV3.id NtorV3.b_pub NtorV3.exp_bx NtorV3.msg_mac NtorV3.verification].
  destruct (diffie_hellman x (slice_to reply 32)) as [xy|] eqn:Dy; [|done]. cbn [mbind result_bind].
  destruct (constant_time_eq _ _) eqn:C; [|done]. cbn [negb]. apply constant_time_eq_spec in C.
  intros E. apply (inj Ok), pair_equal_spec in E as [<- <-]. split; [exact L|].
  exists xy, xb. split_and!; [by apply dh_ok|by apply dh_ok|]. unfold v3_proof. cbn zeta.
  rewrite C, !slice_slice_from by lia. reflexivity.
Qed.

(** A finished handshake was authenticated. *)
Lemma finish_authenticates x relay exts hs htype skin reply keys answered :
  start (Ok x) relay exts = Ok (hs, htype, skin) -> finish hs reply = Ok (keys, answered) ->
  authenticated relay x exts reply keys answered.
Proof.
  unfold start. destruct (ed_identity relay) as [ed|] eqn:Ed.
  - unfold NtorV3.new. destruct (NtorV3.encode_extensions exts) as [message|] eqn:Em; [|done].
    cbn [mbind result_bind]. destruct (NtorV3.build _ _ _ _ _) as [[c hdata]|] eqn:Bu; [|done].
    cbn [mbind result_bind]. intros [= <- _ _]. cbn [finish]. unfold NtorV3.finish.
    destruct (NtorV3.complete _ _ _) as [[ks m]|] eqn:Co; [|done]. cbn [mbind result_bind].
    destruct (NtorV3.decode_extensions m) as [out|] eqn:De; [|done]. cbn [mbind result_bind].
    intros E. apply (inj Ok) in E. injection E as <- <-.
    destruct (complete_proves _ _ _ _ _ _ _ _ _ _ Bu Co) as (L & xy & xb & Dy & Db & P).
    by apply (authenticated_v3 _ _ _ _ _ _ ed xy xb message m).
  - cbn [Ntor.new mbind result_bind]. intros [= <- _ _]. cbn [finish].
    destruct (Ntor.finish _ _) as [ks|] eqn:F; [|done]. cbn [mbind result_bind].
    intros E. apply (inj Ok) in E. injection E as <- <-.
    assert (L : 64 <= len reply).
    { unfold Ntor.finish in F. destruct (Z.ltb_spec (len reply) Ntor.SERVER_HANDSHAKE_LEN) as [|L]; [done|exact L]. }
    destruct (ntor_auth _ _ _ F) as (xy & xb & Dy & Db & K & A).
    apply (authenticated_ntor _ _ _ _ _ _ xy xb); try done. unfold ntor_proof. by rewrite A, K.
Qed.
End authenticity.

Section unforged.
Context `{CryptoLaws}.

Lemma slice_ntor_skin node_id bp x :
  len node_id = 20 -> slice (node_id ++ x25519_public bp ++ x25519_public x) 52 84 = x25519_public x.
Proof.
  intros Hid. rewrite app_assoc, <- (app_nil_r (x25519_public x)) at 1.
  apply slice_app_at; rewrite !len_app, !x25519_public_len; lia.
Qed.

Lemma slice_halves (reply : bytes) : slice_to reply 32 ++ slice reply 32 64 = slice_to reply 64.
Proof.
  unfold slice_to, slice. change (Z.to_nat 64) with (32 + 32)%nat. by rewrite <- take_take_drop.
Qed.

Lemma slice_to_from (reply : bytes) k : slice_to reply k ++ slice_from reply k = reply.
Proof. apply take_drop. Qed.

(** What an ntor-v3 relay answers to a client's message. *)
Lemma v3_relay_answers x b y id message ver c hdata server_message xy xb er auth keys :
  len id = 32 -> NtorV3.build x id (x25519_public b) message ver = Ok (c, hdata) ->
  x25519 y (x25519_public x) = Some xy -> x25519 b (x25519_public x) = Some xb ->
  v3_proof xy xb id (x25519_public b) (x25519_public x) (x25519_public y) ver message er =
    (auth, keys, server_message) ->
  v3_relay b y id ver hdata server_message = Some (x25519_public y ++ auth ++ er, keys, message).
Proof.
  intros Hid Hb Dy Db P. unfold NtorV3.build in Hb. unfold v3_relay.
  unfold diffie_hellman in Hb. rewrite x25519_agree, Db in Hb. cbn [mbind result_bind ok_or] in Hb.
  unfold v3_proof in P. cbn zeta in P.
  set (p1 := NtorV3.kdf _ NtorV3.T_MSGKDF 64) in Hb, P.
  set (em := NtorV3.enc _ message) in Hb, P.
  set (m := NtorV3.mac _ _ _) in Hb, P.
  apply (inj Ok), (f_equal snd) in Hb. cbn [snd] in Hb.
  assert (Eh : hdata = (id ++ x25519_public b ++ x25519_public x ++ em) ++ m) by (by rewrite <- Hb).
  destruct (hdata_parts id (x25519_public b) (x25519_public x) em m) as (P1 & P2 & P3 & P4);
    [done|apply x25519_public_len..|apply mac_len|].
  rewrite <- Eh in P1, P2, P3, P4. rewrite P1, P2, P3, P4, Db. cbn [mbind option_bind].
  fold p1. fold m. rewrite constant_time_eq_refl. cbn [negb]. rewrite Dy. cbn [mbind option_bind].
  apply pair_equal_spec in P as [P <-]. apply pair_equal_spec in P as [<- <-].
  rewrite enc_enc. unfold em. by rewrite enc_enc.
Qed.

(** What authenticates a reply whose ephemeral secret is [y], for the relay
    with onion secret [b], is the answer of that relay to the client's own
    message: nothing else does. *)
Lemma authenticated_reply_is_the_relays x relay exts hs htype skin reply keys answered b y :
  len (rsa_identity relay) = 20 -> (forall ed, ed_identity relay = Some ed -> len ed = 32) ->
  start (Ok x) relay exts = Ok (hs, htype, skin) ->
  authenticated relay x exts reply keys answered ->
  ntor_onion_key relay = x25519_public b -> slice_to reply 32 = x25519_public y ->
  the_relays_answer relay b y exts skin reply keys answered.
Proof.
  intros Hr Hed St A Kb Ky. unfold start in St. unfold the_relays_answer.
  destruct A as [xy xb Ed L Dy Db P Ha|ed xy xb message server_message Ed L Dy Db Em P De];
    rewrite Ed in St |- *; rewrite Kb in *; rewrite Ky, x25519_agree in Dy; rewrite x25519_agree in Db.
  - cbn [Ntor.new mbind result_bind] in St. injection St as _ _ <-. unfold ntor_relay.
    rewrite slice_ntor_skin, Dy, Db by done. cbn [mbind option_bind]. unfold ntor_proof in P.
    apply pair_equal_spec in P as [A <-]. rewrite Ky in A |- *. rewrite A. by rewrite <- Ky, slice_halves.
  - exists message, server_message. split_and!; [done|done|].
    unfold NtorV3.new in St. rewrite Em in St. cbn [mbind result_bind] in St.
    destruct (NtorV3.build _ _ _ _ _) as [[c hdata]|] eqn:Bu; [|done]. injection St as _ _ <-.
    rewrite (v3_relay_answers x b y ed message _ c hdata server_message xy xb (slice_from reply 64)
      (slice reply 32 64) keys); try done; [|by apply Hed|by rewrite <- Ky].
    by rewrite <- Ky, app_assoc, slice_halves, slice_to_from.
Qed.
End unforged.

(** ** A concrete handshake *)
Module HandshakeDemo.
Import Toy.

Definition x : bytes := replicate 32 3.
Definition b : bytes := replicate 32 5.
Definition y : bytes := replicate 32 8.
Definition relay : RelayInfo :=
  MkRelay [1; 2; 3; 4] 9001 (replicate 20 6) (Some (replicate 32 7)) (x25519_public b).
Definition exts : list NtorV3.Extension := [NtorV3.MkExtension 1 []; NtorV3.MkExtension 3 [2; 5]].
Definition server_exts : list NtorV3.Extension := [NtorV3.MkExtension 2 [31]].

Definition started : handshake * Z * bytes :=
  match start (Ok x) relay exts with Ok r => r | Err _ => (HsNtor (Ntor.MkClient [] [] [] []), 0, []) end.

Lemma started_ok : start (Ok x) relay exts = Ok (fst (fst started), snd (fst started), snd started).
Proof. by vm_compute. Qed.


Lemma extensions_roundtrip_witness :
  NtorV3.encode_extensions exts = Ok [2; 1; 0; 3; 2; 2; 5] /\
  NtorV3.decode_extensions [2; 1; 0; 3; 2; 2; 5; 9] <> Ok exts.
Proof.
  split.
  - apply extensions_roundtrip; [|by vm_compute]. apply (bool_decide_unpack _). by vm_compute.
  - by vm_compute.
Defined.

End HandshakeDemo.
