(* ===== verification/TorStream.v ===== *)
(** * Movable streams ([TorStream] in [src/src/tor/circuit.rs])

    A [TorStream] is optimistic: it takes bytes before the exit has confirmed
    the stream, keeps them, and when the attempt fails for a reason that is
    about the exit or the circuit, opens the connection again elsewhere and
    sends them again.  This file models that layer over the interface
    [Transport], which states what it needs of the attachment it currently uses
    (a [Live]: a circuit and a stream on it).

    [W] is the state of the world outside this layer, [A] an attachment. *)
From S2P Require Import Prelude.
From S2P Require Import Cells.
From S2P Require Import Crypto.
From S2P Require Import Relay.
From S2P Require Import Circuit.

Definition MAX_REPLAY_BYTES : Z := 16 * 1024.
Definition MAX_REATTACHES : Z := 2.

(** What an attachment offers.  [sent] is what its stream has been given to
    carry so far. *)
Class Transport (W A : Type) := {
  send_stream_data : W -> A -> bytes -> W * result unit;
  read_stream : W -> A -> Z -> W * result bytes;
  release_backpressure : W -> A -> W * result unit;
  connected : W -> A -> bool;
  sent : W -> A -> bytes;
}.

(** A send is all or nothing, and nothing else sends. *)
Class TransportLaws (W A : Type) `{!Transport W A} : Prop := {
  send_ok w a b w' : send_stream_data w a b = (w', Ok tt) -> sent w' a = sent w a ++ b;
  send_err w a b w' e : send_stream_data w a b = (w', Err e) -> sent w' a = sent w a;
  read_sent w a n : sent (fst (read_stream w a n)) a = sent w a;
  release_sent w a : sent (fst (release_backpressure w a)) a = sent w a;
}.

(** ** The stream *)

(** [StreamState] and [Replay]; both halves of a [try_clone] share it. *)
Module Moving.
Record t (W A : Type) := Mk {
  live : A;
  buffered : bytes;
  allowed : bool;
  attempts : Z;
  reattach : option (W -> A -> W * result A);
}.
Arguments Mk {W A} _ _ _ _ _.
Arguments live {W A} _.
Arguments buffered {W A} _.
Arguments allowed {W A} _.
Arguments attempts {W A} _.
Arguments reattach {W A} _.
End Moving.

Section stream.
Context {W A : Type} `{!Transport W A}.
Import Moving.
#[local] Abbreviation stream := (Moving.t W A).

Definition new (a : A) : stream := Mk a [] true 0 None.

(** [OnceLock::set]: only the first counts. *)
Definition set_reattach (open : W -> A -> W * result A) (s : stream) : stream :=
  Mk (live s) (buffered s) (allowed s) (attempts s)
    (match reattach s with None => Some open | r => r end).

Definition retriable (e : io_error) : bool :=
  match payload e with
  | StreamEnd reason =>
      (reason =? END_REASON_EXITPOLICY) || (reason =? END_REASON_RESOLVEFAILED) ||
      (reason =? END_REASON_NOROUTE) || (reason =? END_REASON_TIMEOUT)
  | Message _ =>
      bool_decide (kind e = ConnectionAborted) || bool_decide (kind e = NotConnected)
  end.

Definition may_retry (s : stream) (e : io_error) : bool :=
  match reattach s with
  | None => false
  | Some _ => retriable e && (allowed s && (attempts s <? MAX_REATTACHES))
  end.

(** The loop that sends the kept bytes again. *)
Fixpoint resend (w : W) (a : A) (parts : list bytes) : W * result unit :=
  match parts with
  | [] => (w, Ok tt)
  | part :: parts =>
      match send_stream_data w a part with
      | (w, Ok _) => resend w a parts
      | (w, Err e) => (w, Err e)
      end
  end.

Definition reattach_stream (w : W) (s : stream) : W * stream * result unit :=
  match reattach s with
  | None => (w, s, Err (other_error "this stream cannot be moved"))
  | Some open =>
      let s := Mk (live s) (buffered s) (allowed s) (attempts s + 1) (reattach s) in
      match open w (live s) with
      | (w, Err e) => (w, s, Err e)
      | (w, Ok fresh) =>
          let s := Mk fresh (buffered s) (allowed s) (attempts s) (reattach s) in
          let '(w, r) := resend w fresh (chunks (Z.to_nat RELAY_DATA_MAX) (buffered s)) in
          (w, s, r)
      end
  end.

Definition forget (s : stream) : stream :=
  Mk (live s) [] false (attempts s) (reattach s).

Definition record_written (data : bytes) (s : stream) : stream :=
  if negb (allowed s) then s
  else if MAX_REPLAY_BYTES <? len (buffered s) + len data then forget s
  else Mk (live s) (buffered s ++ data) (allowed s) (attempts s) (reattach s).

Definition note_established (s : stream) : stream :=
  if allowed s then forget s else s.

(** The loop of [read]; [None] when [fuel] rounds were not enough. *)
Fixpoint read_rounds (fuel : nat) (w : W) (s : stream) (want : Z)
    : W * stream * option (result bytes) :=
  match fuel with
  | O => (w, s, None)
  | S fuel =>
      let a := live s in
      match read_stream w a want with
      | (w, Ok out) =>
          let s := note_established s in
          match release_backpressure w a with
          | (w, Ok _) => (w, s, Some (Ok out))
          | (w, Err e) => (w, s, Some (Err e))
          end
      | (w, Err e) =>
          if may_retry s e then
            match reattach_stream w s with
            | (w, s, Ok _) => read_rounds fuel w s want
            | (w, s, Err e) => (w, s, Some (Err e))
            end
          else (w, s, Some (Err e))
      end
  end.

Definition read (fuel : nat) (w : W) (s : stream) (want : Z)
    : W * stream * option (result bytes) :=
  if want =? 0 then (w, s, Some (Ok [])) else read_rounds fuel w s want.

(** The loop of [write] up to the send that succeeds, which is recorded in a
    step of its own. *)
Fixpoint send_rounds (fuel : nat) (w : W) (s : stream) (chunk : bytes)
    : W * stream * option (result unit) :=
  match fuel with
  | O => (w, s, None)
  | S fuel =>
      let a := live s in
      let s := if connected w a then note_established s else s in
      match send_stream_data w a chunk with
      | (w, Ok _) => (w, s, Some (Ok tt))
      | (w, Err e) =>
          if may_retry s e then
            match reattach_stream w s with
            | (w, s, Ok _) => send_rounds fuel w s chunk
            | (w, s, Err e) => (w, s, Some (Err e))
            end
          else (w, s, Some (Err e))
      end
  end.

Definition write_chunk (data : bytes) : bytes :=
  slice_to data (Z.min (len data) RELAY_DATA_MAX).

Definition write (fuel : nat) (w : W) (s : stream) (data : bytes)
    : W * stream * option (result Z) :=
  match data with
  | [] => (w, s, Some (Ok 0))
  | _ =>
      let chunk := write_chunk data in
      match send_rounds fuel w s chunk with
      | (w, s, Some (Ok _)) => (w, record_written chunk s, Some (Ok (len chunk)))
      | (w, s, Some (Err e)) => (w, s, Some (Err e))
      | (w, s, None) => (w, s, None)
      end
  end.

(** Rounds that are always enough: one, and one for each reattachment. *)
Definition ROUNDS : nat := S (Z.to_nat MAX_REATTACHES).

Inductive call := Write (data : bytes) | Read (want : Z).

(** A sequence of calls by a user that stops at the first error: the final
    states, what the calls reported as written, what they returned as read,
    and how the last one ended. *)
Record outcome := Outcome {
  o_world : W;
  o_stream : stream;
  o_written : bytes;
  o_read : bytes;
  o_end : option (result unit);
}.

Fixpoint use (w : W) (s : stream) (calls : list call) (written received : bytes) : outcome :=
  match calls with
  | [] => Outcome w s written received (Some (Ok tt))
  | Write data :: calls =>
      match write ROUNDS w s data with
      | (w, s, Some (Ok n)) => use w s calls (written ++ slice_to data n) received
      | (w, s, Some (Err e)) => Outcome w s written received (Some (Err e))
      | (w, s, None) => Outcome w s written received None
      end
  | Read want :: calls =>
      match read ROUNDS w s want with
      | (w, s, Some (Ok out)) => use w s calls written (received ++ out)
      | (w, s, Some (Err e)) => Outcome w s written received (Some (Err e))
      | (w, s, None) => Outcome w s written received None
      end
  end.
End stream.

(** ** Nothing lost, repeated or reordered *)

Section faithful.
Context {W A : Type} `{TL : TransportLaws W A}.
Import Moving.
#[local] Abbreviation stream := (Moving.t W A).

(** Opening elsewhere starts an empty stream, and leaves the failed one alone. *)
Definition opener_ok (open : W -> A -> W * result A) : Prop :=
  forall w a, match open w a with
              | (w', Ok fresh) => sent w' fresh = []
              | (w', Err _) => sent w' a = sent w a
              end.

(** The current attachment carries exactly what was written, and as long as
    the stream may move, so does the replay buffer. *)
Record faithful (w : W) (s : stream) (written : bytes) : Prop := {
  fa_sent : sent w (live s) = written;
  fa_allowed : allowed s = true -> buffered s = written;
  fa_forgotten : allowed s = false -> buffered s = [];
  fa_bound : len (buffered s) <= MAX_REPLAY_BYTES;
  fa_attempts : 0 <= attempts s <= MAX_REATTACHES;
  fa_open : forall open, reattach s = Some open -> opener_ok open;
}.

(** What is left to say after an error. *)
Record after_error (w : W) (s : stream) (written : bytes) : Prop := {
  ae_sent : sent w (live s) `prefix_of` written;
  ae_bound : len (buffered s) <= MAX_REPLAY_BYTES;
  ae_attempts : 0 <= attempts s <= MAX_REATTACHES;
}.

Lemma faithful_error w s written : faithful w s written -> after_error w s written.
Proof. intros [<- ? ? ? ? ?]. by split. Qed.

Lemma resend_sent parts : forall w a w' r,
  resend w a parts = (w', r) ->
  exists p, p `prefix_of` concat parts /\ sent w' a = sent w a ++ p /\
    (is_ok r = true -> p = concat parts).
Proof.
  induction parts as [|part parts IH]; intros w a w' r; cbn.
  - intros [= <- <-]. exists []. by rewrite app_nil_r.
  - destruct (send_stream_data w a part) as [w1 [[]|e]] eqn:S.
    + intros E. apply IH in E as (p & Hp & Es & Hr). apply send_ok in S.
      exists (part ++ p). rewrite Es, S, <- app_assoc. split_and!; [by apply prefix_app|done|].
      intros H. by rewrite (Hr H).
    + intros [= <- <-]. apply send_err in S. exists []. rewrite app_nil_r, S.
      split_and!; [apply prefix_nil|done|done].
Qed.

Lemma may_retry_spec (s : stream) e :
  may_retry s e = true -> is_Some (reattach s) /\ allowed s = true /\ attempts s < MAX_REATTACHES.
Proof.
  unfold may_retry. destruct (reattach s) as [open|]; [|done]. intros H. b2p.
  split_and!; [by eexists|done..].
Qed.

(** Moving the stream keeps it faithful. *)
Lemma reattach_faithful w s written e w' s' r :
  faithful w s written -> may_retry s e = true -> reattach_stream w s = (w', s', r) ->
  attempts s' = attempts s + 1 /\
  if is_ok r then faithful w' s' written else after_error w' s' written.
Proof.
  intros [F1 F2 F3 F4 F5 F6] ([open Ho] & Ha & Hn)%may_retry_spec.
  unfold reattach_stream. rewrite Ho. cbn [live buffered allowed attempts reattach].
  pose proof (F6 open Ho) as F6'. specialize (F6' w (live s)). specialize (F2 Ha).
  destruct (open w (live s)) as [w1 [fresh|e']].
  - destruct (resend _ _ _) as [w2 r2] eqn:R. intros [= <- <- <-]. split; [done|].
    apply resend_sent in R as (p & Hp & Es & Hr). rewrite F6' in Es. cbn in Es.
    rewrite concat_chunks in Hp, Hr by (by vm_compute; lia). rewrite F2 in *.
    destruct (is_ok r2).
    + rewrite (Hr eq_refl) in Es. split; cbn; try done; [lia|].
      intros o [= <-]. by apply F6.
    + split; cbn; try done; [by rewrite Es|lia].
  - intros [= <- <- <-]. split; [done|]. cbn. split; cbn; [by rewrite F6', F1|done|lia].
Qed.

Lemma forget_faithful w s written : faithful w s written -> faithful w (forget s) written.
Proof. intros [F1 F2 F3 F4 F5 F6]. by split. Qed.

Lemma note_established_faithful w s written :
  faithful w s written -> faithful w (note_established s) written.
Proof. unfold note_established. destruct (allowed s); [apply forget_faithful|done]. Qed.

Lemma faithful_world w w' s written :
  sent w' (live s) = sent w (live s) -> faithful w s written -> faithful w' s written.
Proof. intros E [F1 F2 F3 F4 F5 F6]. split; try done. by rewrite E. Qed.

Lemma live_note_established (s : stream) : live (note_established s) = live s.
Proof. unfold note_established. by destruct (allowed s). Qed.

Lemma attempts_note_established (s : stream) : attempts (note_established s) = attempts s.
Proof. unfold note_established. by destruct (allowed s). Qed.

(** Rounds that are enough for a stream that has used some attempts up. *)
Definition enough (fuel : nat) (s : stream) : Prop :=
  MAX_REATTACHES - attempts s < Z.of_nat fuel.

Lemma send_rounds_faithful fuel : forall w s written chunk w' s' r,
  faithful w s written -> enough fuel s -> send_rounds fuel w s chunk = (w', s', r) ->
  match r with
  | Some (Ok _) =>
      sent w' (live s') = written ++ chunk /\
      exists w0, faithful w0 s' written
  | Some (Err _) => after_error w' s' written
  | None => False
  end.
Proof.
  induction fuel as [|fuel IH]; intros w s written chunk w' s' r Hf He; cbn [send_rounds].
  { pose proof (fa_attempts _ _ _ Hf). unfold enough in He. lia. }
  set (s1 := if connected w (live s) then note_established s else s).
  assert (Hf1 : faithful w s1 written)
    by (unfold s1; destruct (connected _ _); [by apply note_established_faithful|done]).
  assert (Hl : live s1 = live s)
    by (unfold s1; destruct (connected _ _); [apply live_note_established|done]).
  assert (Ha : attempts s1 = attempts s)
    by (unfold s1; destruct (connected _ _); [apply attempts_note_established|done]).
  clearbody s1. rewrite <- Hl.
  destruct (send_stream_data w (live s1) chunk) as [w1 [[]|e]] eqn:S.
  - intros [= <- <- <-]. apply send_ok in S. rewrite S, (fa_sent _ _ _ Hf1).
    split; [done|by exists w].
  - apply send_err in S. apply (faithful_world w w1) in Hf1; [|done].
    destruct (may_retry s1 e) eqn:M.
    + destruct (reattach_stream w1 s1) as [[w2 s2] r2] eqn:R.
      eapply reattach_faithful in R as [Ha2 Hr2]; [|done..]. destruct r2 as [u|e2].
      * intros E. eapply IH; [exact Hr2| |exact E].
        apply may_retry_spec in M as (_ & _ & Hn). unfold enough in *. lia.
      * by intros [= <- <- <-].
    + intros [= <- <- <-]. by apply faithful_error.
Qed.

Lemma read_rounds_faithful fuel : forall w s written want w' s' r,
  faithful w s written -> enough fuel s -> read_rounds fuel w s want = (w', s', r) ->
  match r with
  | Some (Ok _) => faithful w' s' written /\ allowed s' = false
  | Some (Err _) => after_error w' s' written
  | None => False
  end.
Proof.
  induction fuel as [|fuel IH]; intros w s written want w' s' r Hf He; cbn [read_rounds].
  { pose proof (fa_attempts _ _ _ Hf). unfold enough in He. lia. }
  pose proof (read_sent w (live s) want) as S.
  destruct (read_stream w (live s) want) as [w1 [out|e]]; cbn [fst] in S;
    apply (faithful_world w w1) in Hf; try done.
  - apply note_established_faithful in Hf. pose proof (release_sent w1 (live s)) as S2.
    rewrite <- (live_note_established s) in S2 at 1 2.
    assert (Hn : allowed (note_established s) = false)
      by (unfold note_established; by destruct (allowed s) eqn:E).
    rewrite live_note_established in S2.
    destruct (release_backpressure w1 (live s)) as [w2 [[]|e]]; cbn [fst] in S2;
      intros [= <- <- <-];
      apply (faithful_world w1 w2) in Hf; try (by rewrite live_note_established); [done|].
    by apply faithful_error.
  - destruct (may_retry s e) eqn:M.
    + destruct (reattach_stream w1 s) as [[w2 s2] r2] eqn:R.
      eapply reattach_faithful in R as [Ha2 Hr2]; [|done..]. destruct r2 as [u|e2].
      * intros E. eapply IH; [exact Hr2| |exact E].
        apply may_retry_spec in M as (_ & _ & Hn). unfold enough in *. lia.
      * by intros [= <- <- <-].
    + intros [= <- <- <-]. by apply faithful_error.
Qed.

Lemma record_written_faithful w0 w s written chunk :
  faithful w0 s written -> sent w (live s) = written ++ chunk ->
  faithful w (record_written chunk s) (written ++ chunk).
Proof.
  intros [F1 F2 F3 F4 F5 F6] S. unfold record_written. destruct (allowed s) eqn:Ha; cbn [negb].
  - destruct (Z.ltb_spec MAX_REPLAY_BYTES (len (buffered s) + len chunk)); split; cbn; try done.
    + intros _. by rewrite F2.
    + by rewrite len_app.
  - split; try done; by rewrite Ha.
Qed.

Lemma enough_rounds w s written : faithful w s written -> enough ROUNDS s.
Proof.
  intros Hf. pose proof (fa_attempts _ _ _ Hf). unfold enough, ROUNDS, MAX_REATTACHES in *. lia.
Qed.

(** The whole use of a stream. *)
Lemma use_faithful calls : forall w s written received,
  faithful w s written ->
  let o := use w s calls written received in
  match o_end o with
  | Some (Ok _) => faithful (o_world o) (o_stream o) (o_written o)
  | Some (Err _) => after_error (o_world o) (o_stream o) (o_written o)
  | None => False
  end.
Proof.
  induction calls as [|[data|want] calls IH]; intros w s written received Hf; cbn [use].
  - done.
  - destruct data as [|b data]; [cbn; rewrite app_nil_r; by apply IH|].
    unfold write. set (chunk := write_chunk (b :: data)).
    assert (Ec : slice_to (b :: data) (len chunk) = chunk).
    { unfold chunk, write_chunk, slice_to. rewrite len_take. f_equal. lia. }
    destruct (send_rounds ROUNDS w s chunk) as [[w1 s1] r1] eqn:R.
    eapply send_rounds_faithful in R; [|done|by eapply enough_rounds].
    destruct r1 as [[[]|e]|]; [|exact R|done].
    destruct R as [S [w0 Hf0]]. cbv zeta. rewrite Ec. apply IH.
    by eapply record_written_faithful.
  - unfold read. destruct (want =? 0); [rewrite app_nil_r; by apply IH|].
    destruct (read_rounds ROUNDS w s want) as [[w1 s1] r1] eqn:R.
    eapply read_rounds_faithful in R; [|done|by eapply enough_rounds].
    destruct r1 as [[out|e]|]; [destruct R as [R _]; by apply IH|exact R|done].
Qed.

(** C19. A movable stream neither loses, repeats nor reorders what is written to it: over any transport that sends all or nothing and any reattach closure that opens an empty stream, every sequence of reads and writes ends (three rounds of the retry loops always suffice), the attachment in use then carries exactly the bytes reported as written -- whatever the number of failed attempts in between -- and when a call fails it carries a prefix of them; at most MAX_REATTACHES moves are made and at most MAX_REPLAY_BYTES are kept. *)
Theorem replay_faithful w a open calls :
  opener_ok open -> sent w a = [] ->
  let o := use w (set_reattach open (new a)) calls [] [] in
  0 <= attempts (o_stream o) <= MAX_REATTACHES /\ len (buffered (o_stream o)) <= MAX_REPLAY_BYTES /\
  match o_end o with
  | Some (Ok _) => sent (o_world o) (live (o_stream o)) = o_written o
  | Some (Err _) => sent (o_world o) (live (o_stream o)) `prefix_of` o_written o
  | None => False
  end.
Proof.
  intros Ho Hs. assert (Hf : faithful w (set_reattach open (new a)) []).
  { split; cbn; try done. intros o' [= <-]. done. }
  apply (use_faithful calls _ _ _ []) in Hf. cbn zeta in *.
  destruct (o_end _) as [[]|]; [| |done]; by destruct Hf.
Qed.
End faithful.

(** ** When a stream stays where it is *)

Section settled.
Context {W A : Type} `{!Transport W A}.
Import Moving.
#[local] Abbreviation stream := (Moving.t W A).

(** Same attachment, same number of attempts, and not to be moved. *)
Definition settled (s s' : stream) : Prop :=
  live s' = live s /\ attempts s' = attempts s /\ allowed s' = false.

Lemma settled_refl (s : stream) : allowed s = false -> settled s s.
Proof. done. Qed.

Lemma may_retry_settled (s : stream) e : allowed s = false -> may_retry s e = false.
Proof. unfold may_retry. destruct (reattach s); [|done]. intros ->. by rewrite andb_false_r. Qed.

Lemma note_established_id (s : stream) : allowed s = false -> note_established s = s.
Proof. unfold note_established. by intros ->. Qed.

Lemma send_rounds_settled fuel w (s : stream) chunk :
  allowed s = false -> settled s (snd (fst (send_rounds fuel w s chunk))).
Proof.
  intros Hs. destruct fuel as [|fuel]; [done|]. cbn [send_rounds].
  rewrite note_established_id by done.
  replace (if connected w (live s) then s else s) with s by (by destruct (connected _ _)).
  destruct (send_stream_data w (live s) chunk) as [w1 [u|e]]; [done|].
  by rewrite may_retry_settled.
Qed.

Lemma read_rounds_settled fuel w (s : stream) want :
  allowed s = false -> settled s (snd (fst (read_rounds fuel w s want))).
Proof.
  intros Hs. destruct fuel as [|fuel]; [done|]. cbn [read_rounds].
  destruct (read_stream w (live s) want) as [w1 [out|e]].
  - rewrite note_established_id by done. by destruct (release_backpressure w1 (live s)) as [w2 [u|e]].
  - by rewrite may_retry_settled.
Qed.

Lemma record_written_settled data (s : stream) : allowed s = false -> record_written data s = s.
Proof. unfold record_written. by intros ->. Qed.

Lemma use_settled calls : forall w (s : stream) written received,
  allowed s = false -> settled s (o_stream (use w s calls written received)).
Proof.
  induction calls as [|[data|want] calls IH]; intros w s written received Hs; cbn [use]; [done| |].
  - destruct data as [|b data]; [by apply IH|]. unfold write.
    pose proof (send_rounds_settled ROUNDS w s (write_chunk (b :: data)) Hs) as S.
    destruct (send_rounds _ _ _ _) as [[w1 s1] [[u|e]|]]; cbn [fst snd] in S; [|done..].
    destruct S as (S1 & S2 & S3). rewrite record_written_settled by done.
    destruct (IH w1 s1 (written ++ slice_to (b :: data) (len (write_chunk (b :: data)))) received S3)
      as (E1 & E2 & E3).
    split_and!; [by rewrite E1|by rewrite E2|done].
  - unfold read. destruct (want =? 0); [by apply IH|].
    pose proof (read_rounds_settled ROUNDS w s want Hs) as S.
    destruct (read_rounds _ _ _ _) as [[w1 s1] [[out|e]|]]; cbn [fst snd] in S; [|done..].
    destruct S as (S1 & S2 & S3). destruct (IH w1 s1 written (received ++ out) S3) as (E1 & E2 & E3).
    split_and!; [by rewrite E1|by rewrite E2|done].
Qed.

Lemma read_rounds_answered fuel : forall w (s : stream) want w' s' out,
  read_rounds fuel w s want = (w', s', Some (Ok out)) -> allowed s' = false.
Proof.
  induction fuel as [|fuel IH]; intros w s want w' s' out; cbn [read_rounds]; [done|].
  destruct (read_stream w (live s) want) as [w1 [out1|e]].
  - destruct (release_backpressure w1 (live s)) as [w2 [u|e]]; [|done].
    intros [= _ <- _]. unfold note_established. by destruct (allowed s) eqn:E.
  - destruct (may_retry s e); [|done].
    destruct (reattach_stream w1 s) as [[w2 s2] [u|e2]]; [|done]. apply IH.
Qed.

(** Once a read has returned something, the far end has answered and the connection is never opened again: whatever is called afterwards, and however it fails, the stream stays on its attachment and no further attempt is counted. *)
Theorem no_move_after_an_answer w (s : stream) want written received calls :
  let o := use w s [Read want] [] [] in
  want <> 0 -> o_end o = Some (Ok tt) ->
  settled (o_stream o) (o_stream (use (o_world o) (o_stream o) calls written received)).
Proof.
  intros o Hw He. apply use_settled. unfold o in *. clear o. cbn [use] in *. unfold read in *.
  rewrite (proj2 (Z.eqb_neq want 0) Hw) in *.
  destruct (read_rounds _ _ _ _) as [[w1 s1] [[out|e]|]] eqn:R; [|done..].
  by eapply read_rounds_answered.
Qed.
End settled.

(** ** A world to try it in

    An attachment takes [budget] sends and then fails with [err]; it has
    [reply] to give back. *)
Module MovingDemo.
Import Moving.

Record attachment := Att { got : bytes; budget : nat; err : io_error; reply : bytes }.
Abbreviation world := (list attachment).
Definition nowhere : io_error := IoError NotConnected (Message "no such attachment").

#[export] Instance transport : Transport world nat := {|
  send_stream_data := fun w a b =>
    match w !! a with
    | Some (Att g (S n) e r) => (<[a := Att (g ++ b) n e r]> w, Ok tt)
    | Some (Att _ O e _) => (w, Err e)
    | None => (w, Err nowhere)
    end;
  read_stream := fun w a n =>
    match w !! a with
    | Some (Att _ O e _) => (w, Err e)
    | Some (Att _ _ _ r) => (w, Ok (slice_to r n))
    | None => (w, Err nowhere)
    end;
  release_backpressure := fun w _ => (w, Ok tt);
  connected := fun _ _ => false;
  sent := fun w a => match w !! a with Some x => got x | None => [] end;
|}.

#[export] Instance transport_laws : TransportLaws world nat.
Proof.
  split; unfold send_stream_data, read_stream, release_backpressure, sent, transport.
  - intros w a b w'. destruct (w !! a) as [[g [|n] e r]|] eqn:E; [done| |done]. intros [= <-].
    by rewrite list_lookup_insert_eq by (by eapply lookup_lt_Some).
  - intros w a b w' e'. destruct (w !! a) as [[g [|n] e r]|] eqn:E; [|done|]; by intros [= <- _]; rewrite E.
  - intros w a n. destruct (w !! a) as [[g [|k] e r]|] eqn:E; cbn; by rewrite E.
  - done.
Qed.

(** Open a fresh attachment that answers. *)
Definition open (w : world) (_ : nat) : world * result nat :=
  (w ++ [Att [] 100 nowhere [42]], Ok (length w)).

Lemma open_ok : opener_ok open.
Proof. intros w a. cbn. by rewrite list_lookup_middle. Qed.

(** The exit takes one chunk and then says EXITPOLICY. *)
Definition refusing : world := [Att [] 1 (IoError PermissionDenied (StreamEnd END_REASON_EXITPOLICY)) []].
Definition start : Moving.t world nat := set_reattach open (new 0%nat).
Definition calls : list call := [Write [1; 2; 3]; Write [4]; Read 10; Write [5]].

Lemma replay_faithful_witness :
  let o := use refusing start calls [] [] in
  live (o_stream o) = 1%nat /\ o_written o = [1; 2; 3; 4; 5] /\
  sent (o_world o) (live (o_stream o)) = o_written o.
Proof.
  destruct (replay_faithful refusing 0%nat open calls open_ok eq_refl) as (_ & _ & H).
  split; [by vm_compute|]. split; [by vm_compute|]. exact H.
Defined.

(** It answers, takes one chunk, and then fails the same way. *)
Definition answering : world := [Att [] 1 (IoError PermissionDenied (StreamEnd END_REASON_EXITPOLICY)) [9]].

Lemma no_move_witness :
  let o := use answering start [Read 10] [] [] in
  let o' := use (o_world o) (o_stream o) [Write [1]; Write [2]] [] [] in
  settled (o_stream o) (o_stream o') /\ live (o_stream o') = 0%nat /\
  o_end o' = Some (Err (IoError PermissionDenied (StreamEnd END_REASON_EXITPOLICY))).
Proof.
  split; [|by vm_compute].
  apply (no_move_after_an_answer answering start 10 [] [] [Write [1]; Write [2]]).
  - done.
  - by vm_compute.
Defined.

(** A reader and a writer share the stream.  The writer's send succeeds, the
    circuit dies, and the reader moves the stream before the writer has
    recorded what it sent: the write is reported as done, the reader gets an
    answer from the new circuit, and the bytes are on neither the new circuit
    nor in the replay buffer. *)
Lemma replay_race :
  let '(w1, s1, sent_result) := send_rounds ROUNDS refusing start [1; 2; 3] in
  let '(w2, s2, read_result) := read ROUNDS w1 s1 10 in
  let s3 := record_written [1; 2; 3] s2 in
  sent_result = Some (Ok tt) /\ read_result = Some (Ok [42]) /\
  live s3 = 1%nat /\ sent w2 (live s3) = [] /\ buffered s3 = [].
Proof. by vm_compute. Qed.

End MovingDemo.
