(* ===== verification/Channel.v ===== *)
(** * Channels ([src/src/tor/channel.rs])

    One TLS connection to one relay.  The link handshake ([connect] with
    [negotiate_versions], [read_responder_handshake] and [send_netinfo]) runs on
    the byte stream the TLS session delivers; afterwards the I/O thread
    ([run_io]) moves queued bytes to the session and routes the cells it reads
    to the mailboxes of the registered circuits.

    The TLS session is an oracle: a handshake sees the bytes the relay sends,
    and an iteration of the I/O loop is driven by the answers of [tls.write],
    [tls.read] and [poll].  Sockets and threads appear as the interleaving of
    [event]s. *)
From S2P Require Import Prelude.
From S2P Require Import Cells.
From S2P Require Import Crypto.
From S2P Require Import Certs.

Definition SUPPORTED_VERSIONS : list Z := [3; 4].
Definition MAX_OUTBOUND_BYTES : Z := Z.shiftl 1 20.

(** ** The link handshake *)

(** [Iterator::max] on unsigned integers. *)
Definition max_opt (l : list Z) : option Z :=
  match l with [] => None | x :: l => Some (fold_left Z.max l x) end.

(** What a handshake step did: the bytes it wrote, and its result with the
    bytes left unread. *)
Definition versions_cell : result Cell.t :=
  Cell.new 0 CMD_VERSIONS (concat (map (to_be 2) SUPPORTED_VERSIONS)).

Definition negotiate_versions (tls : bytes) : bytes * result (Z * bytes) :=
  match versions_cell with
  | Err e => ([], Err e)
  | Ok versions =>
      (Cell.encode versions CIRC_ID_LEN_V2,
       '(reply, tls) ← Cell.read_from tls CIRC_ID_LEN_V2;
       if negb (Cell.command reply =? CMD_VERSIONS)
       then Err (invalid_data "expected VERSIONS, got {}")
       else if negb (len (Cell.body reply) mod 2 =? 0)
       then Err (invalid_data "VERSIONS cell has an odd body length")
       else
         best ← ok_or (max_opt (filter (fun v => v ∈ SUPPORTED_VERSIONS)
                                  (map from_be (chunks 2 (Cell.body reply)))))
                  (invalid_data "no link protocol version in common");
         Ok (best, tls))
  end.

Section handshake.
Context `{Crypto}.

(** The loop, with [n] cells of patience left. *)
Fixpoint read_responder_cells (n : nat) (tls : bytes) (circ_id_len : Z)
    (tls_cert_sha256 : bytes) (now : Z) (identity : option bytes) : result (bytes * bytes) :=
  match n with
  | O => Err (invalid_data "link handshake did not finish")
  | S n =>
      '(cell, tls) ← Cell.read_from tls circ_id_len;
      let again := read_responder_cells n tls circ_id_len tls_cert_sha256 now in
      if Cell.command cell =? CMD_CERTS then
        certs ← CertsCell.parse (Cell.body cell);
        id ← validate_responder certs tls_cert_sha256 now;
        again (Some id)
      else if Cell.command cell =? CMD_AUTH_CHALLENGE then again identity
      else if (Cell.command cell =? CMD_VPADDING) || (Cell.command cell =? CMD_PADDING)
      then again identity
      else if Cell.command cell =? CMD_NETINFO then
        id ← ok_or identity
               (invalid_data "responder sent NETINFO without a valid CERTS cell");
        Ok (id, tls)
      else Err (invalid_data "unexpected {} cell during link handshake")
  end.

Definition read_responder_handshake (tls : bytes) (circ_id_len : Z)
    (tls_cert_sha256 : bytes) (now : Z) : result (bytes * bytes) :=
  read_responder_cells 16 tls circ_id_len tls_cert_sha256 now None.

Definition send_netinfo (circ_id_len : Z) (peer_ip : bytes) : result bytes :=
  netinfo ← Cell.new 0 CMD_NETINFO (to_be 4 0 ++ [4] ++ [4] ++ peer_ip ++ [0]);
  Ok (Cell.encode netinfo circ_id_len).

(** What [connect] knows when the handshake is over. *)
Record Link := MkLink {
  link_version : Z;
  circ_id_len : Z;
  ed_identity : bytes;
  unread : bytes;
}.

Definition width_of (link_version : Z) : Z :=
  if 4 <=? link_version then CIRC_ID_LEN_V4 else CIRC_ID_LEN_V2.

(** [connect] once a version is agreed: our NETINFO and the link. *)
Definition finish_handshake (version : Z) (tls tls_cert_sha256 : bytes) (now : Z)
    (peer_ip : bytes) (expected_ed_identity : option bytes) : result (bytes * Link) :=
  let w := width_of version in
  '(identity, tls) ← read_responder_handshake tls w tls_cert_sha256 now;
  _ ← match expected_ed_identity with
      | Some expected =>
          check (constant_time_eq identity expected)
            "{peer}: relay identity is {}, expected {}"
      | None => Ok tt
      end;
  netinfo ← send_netinfo w peer_ip;
  Ok (netinfo, MkLink version w identity tls).

(** [Channel::connect], from the established TLS session to the point where
    the I/O thread takes over: what was written, and the link. *)
Definition connect (tls tls_cert_sha256 : bytes) (now : Z) (peer_ip : bytes)
    (expected_ed_identity : option bytes) : bytes * result Link :=
  let '(hello, negotiated) := negotiate_versions tls in
  match
    '(version, tls) ← negotiated;
    finish_handshake version tls tls_cert_sha256 now peer_ip expected_ed_identity
  with
  | Ok (netinfo, link) => (hello ++ netinfo, Ok link)
  | Err e => (hello, Err e)
  end.
End handshake.

(** ** The running channel *)

(** A circuit's [mpsc] queue: what was sent into it, and whether its receiver
    is gone. *)
Record Mailbox := MkMailbox { cells : list Cell.t; dropped : bool }.

Module Shared.
(** [circuits] holds the senders, as handles into the mailboxes. *)
Record t := Mk {
  circ_id_len : Z;
  out : bytes;
  circuits : gmap Z nat;
  mailboxes : list Mailbox;
  closed : bool;
}.
End Shared.

Section shared.
Import Shared.

(** [id], with [i] draws of the random generator used up and [n] tries left. *)
Fixpoint draw_circuit_id (rng : nat -> result Z) (n : nat) (i : nat) (mask msb : Z)
    (circuits : gmap Z nat) : result Z :=
  match n with
  | O => Err (other_error "could not find a free circuit ID")
  | S n =>
      r ← rng i;
      let id := Z.lor (Z.land r mask) msb in
      if (id =? 0) || bool_decide (is_Some (circuits !! id))
      then draw_circuit_id rng n (S i) mask msb circuits
      else Ok id
  end.

Definition register_circuit (rng : nat -> result Z) (sh : t) : t * result (Z * nat) :=
  let '(msb, mask) :=
    if circ_id_len sh =? CIRC_ID_LEN_V4 then (0x80000000, 0xffffffff) else (0x8000, 0xffff) in
  match draw_circuit_id rng 64 0 mask msb (circuits sh) with
  | Err e => (sh, Err e)
  | Ok id =>
      let handle := length (mailboxes sh) in
      (sh{{circuits := <[id := handle]> (circuits sh)}}
         {{mailboxes := mailboxes sh ++ [MkMailbox [] false] }}, Ok (id, handle))
  end.

Definition unregister_circuit (circ_id : Z) (sh : t) : t :=
  sh{{circuits := delete circ_id (circuits sh)}}.

Definition closed_error : io_error := IoError NotConnected (Message "channel to {peer} is closed").

(** [send_cell] up to its next wait: [None] means the sender sleeps until the
    I/O thread makes room, and tries again. *)
Definition send_cell (c : Cell.t) (sh : t) : t * option (result unit) :=
  let b := Cell.encode c (circ_id_len sh) in
  if MAX_OUTBOUND_BYTES <? len (out sh) + len b then
    if closed sh then (sh, Some (Err closed_error)) else (sh, None)
  else if closed sh then (sh, Some (Err closed_error))
  else (sh{{out := out sh ++ b}}, Some (Ok tt)).

Definition close (sh : t) : t := sh{{closed := true}}.

(** The circuit lets go of its receiver. *)
Definition drop_receiver (handle : nat) (sh : t) : t :=
  match mailboxes sh !! handle with
  | Some m => sh{{mailboxes := <[handle := MkMailbox (cells m) true]> (mailboxes sh)}}
  | None => sh
  end.

Definition deliver (c : Cell.t) (sh : t) : t :=
  if Cell.circ_id c =? 0 then sh
  else
    match circuits sh !! Cell.circ_id c with
    | Some tx =>
        match mailboxes sh !! tx with
        | Some m =>
            if dropped m then sh{{circuits := delete (Cell.circ_id c) (circuits sh)}}
            else sh{{mailboxes := <[tx := MkMailbox (cells m ++ [c]) false]> (mailboxes sh)}}
        | None => sh
        end
    | None => sh
    end.

(** The [while let] of [dispatch_cells]; every round consumes a cell, so the
    length of the buffer bounds the rounds. *)
Fixpoint dispatch_loop (fuel : nat) (inbound : bytes) (consumed : Z) (sh : t)
    : t * result Z :=
  match fuel with
  | O => (sh, Ok consumed)
  | S fuel =>
      match Cell.try_parse (slice_from inbound consumed) (circ_id_len sh) with
      | Err e => (sh, Err e)
      | Ok None => (sh, Ok consumed)
      | Ok (Some (c, used)) => dispatch_loop fuel inbound (consumed + used) (deliver c sh)
      end
  end.

Definition dispatch_cells (inbound : bytes) (sh : t) : t * result bytes :=
  match dispatch_loop (S (length inbound)) inbound 0 sh with
  | (sh, Ok consumed) =>
      (sh, Ok (if 0 <? consumed then slice_from inbound consumed else inbound))
  | (sh, Err e) => (sh, Err e)
  end.
End shared.

(** ** The I/O thread *)

(** The TLS session's answer to one [write] and to one [read]. *)
Inductive WriteAnswer := Wrote (n : nat) | WriteWouldBlock | WriteFailed (e : io_error).
Inductive ReadAnswer := ReadBytes (b : bytes) | ReadWouldBlock | ReadFailed (e : io_error).

Module Io.
(** The locals of [run_io]; [wire] is what the TLS session has accepted. *)
Record t := Mk {
  shared : Shared.t;
  inbound : bytes;
  pending : bytes;
  wire : bytes;
  running : bool;
}.
End Io.

Section io.
Import Io.

(** Fill [pending] from the queue senders share. *)
Definition take_pending (io : t) : t :=
  match pending io with
  | [] =>
      match Shared.out (shared io) with
      | [] => io
      | queue => io{{pending := queue}}{{shared := (shared io){{Shared.out := [] }} }}
      end
  | _ => io
  end.

(** The end of [io_loop]: the channel is closed and every sender dropped. *)
Definition finish (io : t) : t :=
  io{{running := false}}
    {{shared := (shared io){{Shared.closed := true}}{{Shared.circuits := ∅}} }}.

(** The write loop; a session that has said nothing more would block. *)
Fixpoint write_loop (answers : list WriteAnswer) (io : t) : t :=
  match pending io, answers with
  | [], _ | _, [] | _, WriteWouldBlock :: _ => io
  | _, WriteFailed _ :: _ | _, Wrote O :: _ => finish io
  | p, Wrote n :: answers =>
      write_loop answers (io{{pending := drop n p}}{{wire := wire io ++ take n p}})
  end.

(** The read loop. *)
Fixpoint read_loop (answers : list ReadAnswer) (io : t) : t :=
  match answers with
  | [] | ReadWouldBlock :: _ => io
  | ReadFailed _ :: _ | ReadBytes [] :: _ => finish io
  | ReadBytes b :: answers =>
      match dispatch_cells (inbound io ++ b) (shared io) with
      | (sh, Ok rest) => read_loop answers (io{{inbound := rest}}{{shared := sh}})
      | (sh, Err _) => finish (io{{shared := sh}})
      end
  end.

(** One round of [run_io]; [gone] is a poll that failed or reported the
    connection hung up with nothing to read. *)
Definition io_round (writes : list WriteAnswer) (reads : list ReadAnswer) (gone : bool)
    (io : t) : t :=
  if negb (running io) then io
  else if Shared.closed (shared io) then finish io
  else
    let io := write_loop writes (take_pending io) in
    if negb (running io) then io
    else
      let io := read_loop reads io in
      if negb (running io) then io
      else if gone then finish io else io.
End io.

(** What can happen to a channel, in any order. *)
Inductive event :=
  | Register (rng : nat -> result Z)
  | Unregister (circ_id : Z)
  | Send (c : Cell.t)
  | Close
  | DropReceiver (handle : nat)
  | Round (writes : list WriteAnswer) (reads : list ReadAnswer) (gone : bool).

(** The channel and the cells [send_cell] has accepted. *)
Definition step (st : Io.t * list Cell.t) (e : event) : Io.t * list Cell.t :=
  let '(io, accepted) := st in
  let on f := (io{{Io.shared := f (Io.shared io)}}, accepted) in
  match e with
  | Register rng => on (fun sh => fst (register_circuit rng sh))
  | Unregister id => on (unregister_circuit id)
  | Close => on close
  | DropReceiver handle => on (drop_receiver handle)
  | Send c =>
      let '(sh, r) := send_cell c (Io.shared io) in
      (io{{Io.shared := sh}},
       match r with Some (Ok _) => accepted ++ [c] | _ => accepted end)
  | Round writes reads gone => (io_round writes reads gone io, accepted)
  end.

Definition start (circ_id_len : Z) : Io.t :=
  Io.Mk (Shared.Mk circ_id_len [] ∅ [] false) [] [] [] true.

Definition run (st : Io.t * list Cell.t) (es : list event) : Io.t * list Cell.t :=
  fold_left step es st.

(** ** Outbound: cells leave whole and in order *)

Definition encode_all (w : Z) (cs : list Cell.t) : bytes :=
  concat (map (fun c => Cell.encode c w) cs).
#[global] Arguments encode_all : simpl never.

Lemma encode_all_app w cs ds : encode_all w (cs ++ ds) = encode_all w cs ++ encode_all w ds.
Proof. unfold encode_all. by rewrite map_app, concat_app. Qed.

Lemma encode_all_cons w c cs : encode_all w (c :: cs) = Cell.encode c w ++ encode_all w cs.
Proof. done. Qed.

(** Everything accepted is on the wire, with the I/O thread or in the queue. *)
Record out_inv (w : Z) (st : Io.t * list Cell.t) : Prop := {
  oi_width : Shared.circ_id_len (Io.shared (fst st)) = w;
  oi_bytes : Io.wire (fst st) ++ Io.pending (fst st) ++ Shared.out (Io.shared (fst st))
             = encode_all w (snd st);
  oi_bound : len (Shared.out (Io.shared (fst st))) <= MAX_OUTBOUND_BYTES;
}.

(** The parts of a channel that [out_inv] looks at. *)
Definition out_view (io : Io.t) : bytes * bytes * Z :=
  (Io.wire io ++ Io.pending io, Shared.out (Io.shared io), Shared.circ_id_len (Io.shared io)).

Lemma out_inv_view w io io' acc :
  out_view io = out_view io' -> out_inv w (io, acc) -> out_inv w (io', acc).
Proof.
  unfold out_view. intros [= V1 V2 V3] [H1 H2 H3]. cbn in *.
  split; cbn; rewrite <- ?V2, <- ?V3; try done. by rewrite app_assoc, <- V1, <- app_assoc.
Qed.

Lemma finish_view io : out_view (finish io) = out_view io.
Proof. by destruct io as [[]]. Qed.

Lemma write_loop_view answers io : out_view (write_loop answers io) = out_view io.
Proof.
  revert io. induction answers as [|[n| |e] answers IH]; intros io; cbn [write_loop].
  - by destruct (Io.pending io).
  - destruct (Io.pending io) as [|b p] eqn:P; [done|]. destruct n as [|n]; [apply finish_view|].
    rewrite IH. destruct io as [sh i pe wi r]. cbn in P |- *. subst pe.
    unfold out_view. cbn. rewrite <- app_assoc. by cbn; rewrite take_drop.
  - by destruct (Io.pending io).
  - destruct (Io.pending io); [done|apply finish_view].
Qed.

Lemma deliver_view c sh :
  Shared.out (deliver c sh) = Shared.out sh /\
  Shared.circ_id_len (deliver c sh) = Shared.circ_id_len sh /\
  Shared.closed (deliver c sh) = Shared.closed sh.
Proof.
  unfold deliver. destruct (_ =? 0); [done|]. destruct (_ !! _); [|done].
  destruct (_ !! _); [|done]. by destruct (dropped _), sh.
Qed.

Lemma dispatch_loop_view fuel inbound consumed sh sh' r :
  dispatch_loop fuel inbound consumed sh = (sh', r) ->
  Shared.out sh' = Shared.out sh /\ Shared.circ_id_len sh' = Shared.circ_id_len sh /\
  Shared.closed sh' = Shared.closed sh.
Proof.
  revert consumed sh. induction fuel as [|fuel IH]; intros consumed sh; cbn; [by intros [= <- _]|].
  destruct (Cell.try_parse _ _) as [[[c used]|]|]; [|by intros [= <- _]..].
  intros E. apply IH in E as (-> & -> & ->). apply deliver_view.
Qed.

Lemma dispatch_cells_view inbound sh sh' r :
  dispatch_cells inbound sh = (sh', r) ->
  Shared.out sh' = Shared.out sh /\ Shared.circ_id_len sh' = Shared.circ_id_len sh /\
  Shared.closed sh' = Shared.closed sh.
Proof.
  unfold dispatch_cells. destruct (dispatch_loop _ _ _ _) as [sh1 r1] eqn:D.
  intros E. apply dispatch_loop_view in D. destruct r1; by injection E as <- _.
Qed.

Lemma read_loop_view answers io : out_view (read_loop answers io) = out_view io.
Proof.
  revert io. induction answers as [|[b| |e] answers IH]; intros io; cbn [read_loop];
    [done| |done|apply finish_view].
  destruct b as [|x b]; [apply finish_view|].
  destruct (dispatch_cells _ _) as [sh [rest|e]] eqn:D; apply dispatch_cells_view in D as (D1 & D2 & _).
  - rewrite IH. unfold out_view. destruct io. cbn in *. by rewrite D1, D2.
  - rewrite finish_view. unfold out_view. destruct io. cbn in *. by rewrite D1, D2.
Qed.

Lemma take_pending_inv w io acc : out_inv w (io, acc) -> out_inv w (take_pending io, acc).
Proof.
  unfold take_pending. destruct (Io.pending io) eqn:P; [|done].
  destruct (Shared.out (Io.shared io)) eqn:O; [done|]. intros [H1 H2 H3]. cbn in *.
  rewrite P, O in *. destruct io as [[]]. cbn in *. subst. split; cbn; try done.
  by rewrite app_nil_r.
Qed.

Lemma io_round_inv w writes reads gone io acc :
  out_inv w (io, acc) -> out_inv w (io_round writes reads gone io, acc).
Proof.
  intros Hi. unfold io_round. destruct (Io.running io); [|done]. cbn [negb].
  destruct (Shared.closed _); [by apply (out_inv_view _ io); [rewrite finish_view|]|].
  apply take_pending_inv in Hi. set (io1 := take_pending io) in *.
  assert (H2 : out_inv w (write_loop writes io1, acc))
    by (by apply (out_inv_view _ io1); [rewrite write_loop_view|]).
  destruct (Io.running (write_loop writes io1)); [|done]. cbn [negb].
  assert (H3 : out_inv w (read_loop reads (write_loop writes io1), acc))
    by (by apply (out_inv_view _ (write_loop writes io1)); [rewrite read_loop_view|]).
  destruct (Io.running (read_loop _ _)); [|done]. cbn [negb]. destruct gone; [|done].
  by eapply out_inv_view; [|exact H3]; rewrite finish_view.
Qed.

Lemma step_inv w st e : out_inv w st -> out_inv w (step st e).
Proof.
  destruct st as [io acc]. intros Hi. destruct e as [rng|id|c| |h|ws rs gone]; cbn [step].
  - apply (out_inv_view _ io); [|done]. unfold out_view, register_circuit.
    destruct (if _ =? _ then _ else _) as [msb mask].
    destruct (draw_circuit_id _ _ _ _ _ _); by destruct io as [[]].
  - by apply (out_inv_view _ io); [destruct io as [[]]|].
  - unfold send_cell. destruct Hi as [H1 H2 H3]. cbn in *.
    destruct (Z.ltb_spec MAX_OUTBOUND_BYTES (len (Shared.out (Io.shared io)) +
      len (Cell.encode c (Shared.circ_id_len (Io.shared io))))) as [Hf|Hf];
      destruct (Shared.closed (Io.shared io)).
    1-3: destruct io; by split.
    destruct io as [[]]. cbn in *. subst. split; cbn; [done| |solve_len].
    rewrite encode_all_app, <- H2, <- !app_assoc, encode_all_cons. by rewrite app_nil_r.
  - by apply (out_inv_view _ io); [destruct io as [[]]|].
  - apply (out_inv_view _ io); [|done]. unfold drop_receiver.
    destruct (_ !! _); by destruct io as [[]].
  - by apply io_round_inv.
Qed.

Lemma run_inv w es st : out_inv w st -> out_inv w (run st es).
Proof.
  revert st. induction es as [|e es IH]; intros st Hi; [done|]. apply IH. by apply step_inv.
Qed.

Lemma start_inv w : out_inv w (start w, []).
Proof. by split. Qed.

(** ** Inbound: cells reach their circuit, however the bytes arrive *)

(** A strict prefix of some cell, possibly empty. *)
Definition incomplete (w : Z) (t : bytes) : Prop :=
  exists c s, cell_ok w c /\ Cell.encode c w = t ++ s /\ s <> [].

Lemma incomplete_nil w : width_ok w -> incomplete w [].
Proof.
  intros Hw. exists (Cell.Mk 0 CMD_VPADDING []), (Cell.encode (Cell.Mk 0 CMD_VPADDING []) w).
  split_and!; [|done|by destruct Hw as [-> | ->]].
  split; cbn; [|by vm_compute|constructor|done]. by destruct Hw as [-> | ->].
Qed.

Section inbound.
Context (w : Z) (Hw : width_ok w).

(** Wherever a stream of cells is cut, it is cut into whole cells and an
    incomplete one. *)
Lemma split_stream cs : forall p q tail,
  Forall (cell_ok w) cs -> incomplete w tail -> p ++ q = encode_all w cs ++ tail ->
  exists cs1 cs2 t, cs = cs1 ++ cs2 /\ p = encode_all w cs1 ++ t /\ incomplete w t /\
    t ++ q = encode_all w cs2 ++ tail.
Proof.
  induction cs as [|c cs IH]; intros p q tail Hc Ht E.
  - exists [], [], p. split_and!; try done. destruct Ht as (c & s & Hok & Es & Hs).
    exists c, (q ++ s). split_and!; [done| |by destruct q].
    rewrite app_assoc, E. by rewrite Es.
  - apply Forall_cons in Hc as [Hc Hcs]. rewrite encode_all_cons, <- app_assoc in E.
    apply app_eq_inv in E as [(k & Hp & Hk)|(k & Hp & Hk)].
    + destruct (IH k q tail Hcs Ht) as (cs1 & cs2 & t & E1 & E2 & E3 & E4); [done|].
      exists (c :: cs1), cs2, t. rewrite encode_all_cons. split_and!; try done.
      { by rewrite E1. } by rewrite Hp, E2, app_assoc.
    + destruct (decide (k = [])) as [->|Hn].
      * rewrite app_nil_r in Hp. destruct (IH [] q tail Hcs Ht) as (cs1 & cs2 & t & E1 & E2 & E3 & E4).
        { by cbn in Hk. }
        symmetry in E2. apply app_eq_nil in E2 as [E2 ->].
        exists (c :: cs1), cs2, []. rewrite encode_all_cons, E2. split_and!; try done.
        { by rewrite E1. } by rewrite !app_nil_r.
      * exists [], (c :: cs), p. split_and!; [done|done| |].
        { exists c, k. by split_and!. }
        rewrite Hk, encode_all_cons, <- !app_assoc. by rewrite app_assoc, <- Hp.
Qed.

Definition deliver_all (cs : list Cell.t) (sh : Shared.t) : Shared.t :=
  fold_left (fun sh c => deliver c sh) cs sh.

Lemma deliver_all_width cs sh :
  Shared.circ_id_len (deliver_all cs sh) = Shared.circ_id_len sh.
Proof.
  revert sh. induction cs as [|c cs IH]; intros sh; [done|]. cbn.
  rewrite IH. apply deliver_view.
Qed.

Lemma dispatch_loop_cells cs : forall fuel pre t sh,
  Forall (cell_ok w) cs -> incomplete w t -> Shared.circ_id_len sh = w ->
  (length (encode_all w cs) < fuel)%nat ->
  dispatch_loop fuel (pre ++ encode_all w cs ++ t) (len pre) sh
  = (deliver_all cs sh, Ok (len pre + len (encode_all w cs))).
Proof.
  induction cs as [|c cs IH]; intros fuel pre t sh Hc Ht Hsh Hf;
    (destruct fuel as [|fuel]; [lia|]); cbn [dispatch_loop].
  - rewrite slice_from_app by done. rewrite Hsh. change (encode_all w []) with (@nil Z). cbn [app].
    destruct Ht as (c & s & Hok & Es & Hs). rewrite (try_parse_prefix_aux _ Hw _ _ _ Hok Es Hs).
    by rewrite Z.add_0_r.
  - apply Forall_cons in Hc as [Hc Hcs]. rewrite encode_all_cons, slice_from_app by done.
    rewrite <- app_assoc, Hsh, try_parse_encode_aux, <- len_encode by done.
    rewrite encode_all_cons in Hf.
    specialize (IH fuel (pre ++ Cell.encode c w) t (deliver c sh) Hcs Ht).
    rewrite len_app, <- app_assoc in IH. rewrite IH.
    + rewrite len_app. cbn [deliver_all fold_left]. do 2 f_equal. lia.
    + by rewrite (proj1 (proj2 (deliver_view c sh))).
    + rewrite length_app in Hf. pose proof (len_encode _ Hw c Hc) as L.
      unfold cell_size, len in L. assert (0 < w) by (destruct Hw as [-> | ->]; done).
      destruct (is_variable_length (Cell.command c)); lia.
Qed.

Lemma dispatch_cells_stream cs t sh :
  Forall (cell_ok w) cs -> incomplete w t -> Shared.circ_id_len sh = w ->
  dispatch_cells (encode_all w cs ++ t) sh = (deliver_all cs sh, Ok t).
Proof.
  intros Hc Ht Hsh. unfold dispatch_cells.
  pose proof (dispatch_loop_cells cs (S (length (encode_all w cs ++ t))) [] t sh Hc Ht Hsh) as D.
  cbn [app] in D. change (len []) with 0 in D.
  rewrite D by (rewrite length_app; lia). rewrite Z.add_0_l.
  destruct (Z.ltb_spec 0 (len (encode_all w cs))) as [L|L]; [by rewrite slice_from_app|].
  pose proof (len_nonneg (encode_all w cs)).
  by rewrite (len_zero_nil (encode_all w cs)) by lia.
Qed.

(** Reads of a stream of cells, cut anywhere, deliver those cells in order. *)
Lemma read_loop_stream chunks : forall io cs tail,
  Shared.circ_id_len (Io.shared io) = w -> Forall (fun b => b <> []) chunks ->
  Forall (cell_ok w) cs -> incomplete w (Io.inbound io) -> incomplete w tail ->
  Io.inbound io ++ concat chunks = encode_all w cs ++ tail ->
  read_loop (map ReadBytes chunks) io =
  Io.Mk (deliver_all cs (Io.shared io)) tail (Io.pending io) (Io.wire io) (Io.running io).
Proof.
  induction chunks as [|b chunks IH]; intros io cs tail Hsh Hb Hc Hi Ht E; cbn [map read_loop].
  - cbn [concat] in E. rewrite app_nil_r in E.
    destruct cs as [|c cs].
    + destruct io. cbn in *. by subst.
    + apply Forall_cons in Hc as [Hc _]. destruct Hi as (d & s & Hd & Es & Hs).
      rewrite encode_all_cons, <- app_assoc in E.
      pose proof (try_parse_prefix_aux _ Hw _ _ _ Hd Es Hs) as P.
      by rewrite E, try_parse_encode_aux in P.
  - apply Forall_cons in Hb as [Hb Hbs]. destruct b as [|x b]; [done|].
    cbn [concat] in E. rewrite app_assoc in E.
    destruct (split_stream cs _ _ _ Hc Ht E) as (cs1 & cs2 & t & -> & Ep & Hti & Eq).
    apply Forall_app in Hc as [Hc1 Hc2].
    rewrite Ep, dispatch_cells_stream by done.
    rewrite (IH _ cs2 tail); try done.
    + destruct io. cbn. unfold deliver_all. by rewrite fold_left_app.
    + destruct io. cbn in *. by rewrite deliver_all_width.
Qed.
End inbound.

(** ** Mailboxes *)

(** Every registered circuit has a mailbox of its own. *)
Record shared_ok (sh : Shared.t) : Prop := {
  so_valid id h : Shared.circuits sh !! id = Some h -> is_Some (Shared.mailboxes sh !! h);
  so_inj i j h : Shared.circuits sh !! i = Some h -> Shared.circuits sh !! j = Some h -> i = j;
}.

(** Fewer registrations over mailboxes that are still there. *)
Lemma shared_ok_shrink sh sh' :
  Shared.circuits sh' ⊆ Shared.circuits sh ->
  (length (Shared.mailboxes sh) <= length (Shared.mailboxes sh'))%nat ->
  shared_ok sh -> shared_ok sh'.
Proof.
  intros Hs Hl [H1 H2]. split.
  - intros id h E. rewrite lookup_lt_is_Some. eapply lookup_weaken in E; [|exact Hs].
    apply H1, lookup_lt_is_Some in E. lia.
  - intros i j h Ei Ej. eapply lookup_weaken in Ei, Ej; [|exact Hs..]. by eapply H2.
Qed.

Lemma deliver_ok c sh : shared_ok sh -> shared_ok (deliver c sh).
Proof.
  intros Hok. unfold deliver. destruct (_ =? 0); [done|]. destruct (_ !! _); [|done].
  destruct (_ !! _); [|done].
  destruct (dropped _); (eapply shared_ok_shrink; [| |exact Hok]); destruct sh; cbn;
    rewrite ?length_insert; try done. apply delete_subseteq.
Qed.

Lemma dispatch_cells_ok inbound sh : shared_ok sh -> shared_ok (fst (dispatch_cells inbound sh)).
Proof.
  intros Hok. unfold dispatch_cells.
  assert (L : forall fuel consumed sh, shared_ok sh ->
    shared_ok (fst (dispatch_loop fuel inbound consumed sh))).
  { induction fuel as [|fuel IH]; intros consumed sh' H'; cbn; [done|].
    destruct (Cell.try_parse _ _) as [[[c used]|]|]; [|done..]. by apply IH, deliver_ok. }
  specialize (L (S (length inbound)) 0 sh Hok).
  by destruct (dispatch_loop _ _ _ _) as [? [?|?]].
Qed.

Lemma finish_ok io : shared_ok (Io.shared io) -> shared_ok (Io.shared (finish io)).
Proof. apply shared_ok_shrink; destruct io as [[]]; cbn; [apply map_empty_subseteq|done]. Qed.

Lemma write_loop_ok answers io :
  shared_ok (Io.shared io) -> shared_ok (Io.shared (write_loop answers io)).
Proof.
  revert io. induction answers as [|[n| |e] answers IH]; intros io Hok; cbn [write_loop];
    destruct (Io.pending io); try done.
  destruct n; [by apply finish_ok|]. apply IH. by destruct io.
Qed.

Lemma read_loop_ok answers io :
  shared_ok (Io.shared io) -> shared_ok (Io.shared (read_loop answers io)).
Proof.
  revert io. induction answers as [|[b| |e] answers IH]; intros io Hok; cbn [read_loop];
    [done| |done|by apply finish_ok].
  destruct b as [|x b]; [by apply finish_ok|].
  pose proof (dispatch_cells_ok (Io.inbound io ++ x :: b) _ Hok) as D.
  destruct (dispatch_cells _ _) as [sh [rest|e]].
  - apply IH. by destruct io.
  - apply finish_ok. by destruct io.
Qed.

Lemma io_round_ok writes reads gone io :
  shared_ok (Io.shared io) -> shared_ok (Io.shared (io_round writes reads gone io)).
Proof.
  intros Hok. unfold io_round. destruct (negb _); [done|].
  destruct (Shared.closed _); [by apply finish_ok|].
  assert (H1 : shared_ok (Io.shared (take_pending io))).
  { unfold take_pending. destruct (Io.pending io); [|done]. destruct (Shared.out _); [done|].
    eapply shared_ok_shrink; [| |exact Hok]; by destruct io as [[]]. }
  apply (write_loop_ok writes) in H1. destruct (negb _); [done|].
  apply (read_loop_ok reads) in H1. destruct (negb _); [done|].
  destruct gone; [by apply finish_ok|done].
Qed.

(** *** Registration *)

(** The IDs the opener of a connection may use. *)
Definition opener_id (w id : Z) : Prop := 0 < id < 256 ^ w /\ Z.testbit id (8 * w - 1) = true.

(** The mask and high bit of a link width. *)
Definition id_bits (w mask msb : Z) : Prop :=
  (w = 4 /\ mask = 0xffffffff /\ msb = 0x80000000) \/ (w = 2 /\ mask = 0xffff /\ msb = 0x8000).

(** The ID of a draw: its low bits under the high one. *)
Lemma masked_id_value w r mask msb :
  id_bits w mask msb -> Z.lor (Z.land r mask) msb = r mod 2 ^ (8 * w - 1) + 2 ^ (8 * w - 1).
Proof.
  intros Hm.
  assert (exists k, mask = Z.ones (k + 1) /\ 0 < k /\ msb = 2 ^ k /\ 8 * w - 1 = k)
    as (k & -> & Hk & -> & ->).
  { destruct Hm as [(-> & -> & ->)|(-> & -> & ->)]; [exists 31|exists 15]; done. }
  assert (D : Z.land (r mod 2 ^ k) (2 ^ k) = 0).
  { apply Z.bits_inj'. intros i Hi. rewrite Z.land_spec, Z.pow2_bits_eqb, Z.bits_0 by lia.
    destruct (Z.eqb_spec k i) as [<-|]; [|by rewrite andb_false_r].
    by rewrite Z.mod_pow2_bits_high by lia. }
  rewrite <- (Z.add_lor_land (r mod 2 ^ k)), D, Z.add_0_r. apply Z.bits_inj'. intros i Hi.
  rewrite !Z.lor_spec, Z.land_spec, Z.pow2_bits_eqb, Z.testbit_ones_nonneg, Z.testbit_mod_pow2
    by lia.
  destruct (Z.eqb_spec k i) as [<-|]; [by rewrite !orb_true_r|]. rewrite !orb_false_r.
  rewrite andb_comm. f_equal. destruct (Z.ltb_spec i (k + 1)), (Z.ltb_spec i k); lia || done.
Qed.

Lemma masked_id w r mask msb :
  id_bits w mask msb -> opener_id w (Z.lor (Z.land r mask) msb).
Proof.
  intros Hm. rewrite (masked_id_value w) by done. unfold opener_id.
  assert (exists k, 8 * w - 1 = k /\ 0 < k /\ 256 ^ w = 2 * 2 ^ k) as (k & -> & Hk & ->).
  { destruct Hm as [(-> & _)|(-> & _)]; [exists 31|exists 15]; done. }
  pose proof (Z.pow_pos_nonneg 2 k ltac:(lia) ltac:(lia)).
  pose proof (Z.mod_pos_bound r (2 ^ k) ltac:(lia)). split; [lia|].
  apply Z.testbit_true; [lia|]. rewrite <- (Z.mul_1_l (2 ^ k)) at 2.
  rewrite Z.div_add, Z.div_small by lia. done.
Qed.

Lemma draw_circuit_id_ok rng n i mask msb circuits id :
  draw_circuit_id rng n i mask msb circuits = Ok id ->
  id <> 0 /\ circuits !! id = None /\
  exists j r, (i <= j < i + n)%nat /\ rng j = Ok r /\ id = Z.lor (Z.land r mask) msb.
Proof.
  revert i. induction n as [|n IH]; intros i; cbn [draw_circuit_id]; [done|].
  destruct (rng i) as [r|e] eqn:R; [|done]. cbn [mbind result_bind].
  destruct (_ || _)%bool eqn:B.
  - intros E. apply IH in E as (? & ? & j & r' & ? & ? & ?). split_and!; [done..|].
    exists j, r'. split; [lia|done].
  - apply orb_false_elim in B as [B1 B2]. b2p. intros [= <-].
    split_and!; [done|by apply eq_None_not_Some|]. exists i, r. split; [lia|done].
Qed.

(** A free ID among the draws is found. *)
Lemma draw_circuit_id_finds rng n i mask msb circuits j :
  (i <= j < i + n)%nat -> (forall k, (i <= k <= j)%nat -> is_ok (rng k) = true) ->
  (forall r, rng j = Ok r -> Z.lor (Z.land r mask) msb <> 0 /\
     circuits !! Z.lor (Z.land r mask) msb = None) ->
  exists id, draw_circuit_id rng n i mask msb circuits = Ok id.
Proof.
  revert i. induction n as [|n IH]; intros i Hj Hr Hf; [lia|]. cbn [draw_circuit_id].
  destruct (rng i) as [r|e] eqn:R; [|specialize (Hr i ltac:(lia)); by rewrite R in Hr].
  cbn [mbind result_bind]. destruct (_ || _)%bool eqn:B; [|by eexists].
  apply IH; [|intros; apply Hr; lia|done]. destruct (decide (i = j)) as [->|]; [|lia].
  exfalso. destruct (Hf r R) as [H1 H2].
  apply orb_prop in B as [B|B]; [by apply Z.eqb_eq in B|]. b2p. rewrite H2 in B. by destruct B.
Qed.

Lemma register_circuit_ok rng sh : shared_ok sh -> shared_ok (fst (register_circuit rng sh)).
Proof.
  intros [H1 H2]. unfold register_circuit. destruct (if _ =? _ then _ else _) as [msb mask].
  destruct (draw_circuit_id _ _ _ _ _ _) as [id|e] eqn:D; [|done].
  destruct sh as [w out cs ms cl]. cbn in *. split; cbn.
  - intros i h. rewrite lookup_lt_is_Some, length_app. cbn.
    destruct (decide (i = id)) as [->|Hn].
    + rewrite lookup_insert_eq. intros [= <-]. lia.
    + rewrite lookup_insert_ne by done. intros E. apply H1, lookup_lt_is_Some in E. lia.
  - intros i j h.
    assert (F : forall i', cs !! i' = Some (length ms) -> False).
    { intros i' E. apply H1, lookup_lt_is_Some in E. lia. }
    destruct (decide (i = id)) as [->|], (decide (j = id)) as [->|];
      rewrite ?lookup_insert_eq, ?lookup_insert_ne by done; [done|..|by apply H2];
      intros E1 E2; exfalso; simplify_eq; by eapply F.
Qed.

Lemma step_ok st e : shared_ok (Io.shared (fst st)) -> shared_ok (Io.shared (fst (step st e))).
Proof.
  destruct st as [io acc]. intros Hok. destruct e as [rng|id|c| |h|ws rs gone]; cbn [step fst].
  - apply (register_circuit_ok rng) in Hok. by destruct io.
  - eapply shared_ok_shrink; [| |exact Hok]; destruct io as [[]]; cbn; [apply delete_subseteq|done].
  - cbn [fst] in Hok. unfold send_cell.
    repeat case_match; simplify_eq; try (by destruct io).
    eapply shared_ok_shrink; [| |exact Hok]; by destruct io as [[]].
  - eapply shared_ok_shrink; [| |exact Hok]; by destruct io as [[]].
  - eapply shared_ok_shrink; [| |exact Hok]; unfold drop_receiver; destruct io as [[]]; cbn;
      case_match; cbn; rewrite ?length_insert; done.
  - by apply io_round_ok.
Qed.

Lemma run_ok es st : shared_ok (Io.shared (fst st)) -> shared_ok (Io.shared (fst (run st es))).
Proof.
  revert st. induction es as [|e es IH]; intros st Hi; [done|]. apply IH. by apply step_ok.
Qed.

Lemma start_ok w : shared_ok (Io.shared (start w)).
Proof. split; cbn; intros *; rewrite lookup_empty; done. Qed.

(** ** What a completed handshake proves *)

(** [v] is the highest version both sides offer. *)
Definition best_common (offered : list Z) (v : Z) : Prop :=
  v ∈ offered /\ v ∈ SUPPORTED_VERSIONS /\
  forall u, u ∈ offered -> u ∈ SUPPORTED_VERSIONS -> u <= v.

Definition versions_offered (c : Cell.t) : list Z := map from_be (chunks 2 (Cell.body c)).

(** A cell the responder may send before its NETINFO, CERTS apart. *)
Definition skippable (c : Cell.t) : Prop :=
  Cell.command c = CMD_AUTH_CHALLENGE \/ Cell.command c = CMD_VPADDING \/
  Cell.command c = CMD_PADDING.

#[export] Instance skippable_dec c : Decision (skippable c).
Proof. unfold skippable. apply _. Defined.

Section handshake_spec.
Context `{Crypto}.
Variables (tls_hash : bytes) (now : Z).

(** A CERTS cell that proves an identity. *)
Definition proves (c : Cell.t) (identity : bytes) : Prop :=
  Cell.command c = CMD_CERTS /\ exists certs,
    CertsCell.parse (Cell.body c) = Ok certs /\ authenticates certs tls_hash now identity.

(** The identity after these cells, started with [before]. *)
Inductive handshake_cells : option bytes -> list Cell.t -> option bytes -> Prop :=
  | Cells_done id : handshake_cells id [] id
  | Cells_skip id c cs id' :
      skippable c -> handshake_cells id cs id' -> handshake_cells id (c :: cs) id'
  | Cells_certs id c cs new id' :
      proves c new -> handshake_cells (Some new) cs id' -> handshake_cells id (c :: cs) id'.

(** The cells that lead to [link], in the bytes the session delivers. *)
Record completes (tls : bytes) (expected : option bytes) (link : Link) : Prop := {
  cp_expected : forall e, expected = Some e -> ed_identity link = e;
  cp_width : circ_id_len link = width_of (link_version link);
  cp_stream : exists versions cs netinfo,
    tls = Cell.encode versions CIRC_ID_LEN_V2 ++ encode_all (circ_id_len link) cs ++
          Cell.encode netinfo (circ_id_len link) ++ unread link /\
    cell_ok CIRC_ID_LEN_V2 versions /\ Forall (cell_ok (circ_id_len link)) cs /\
    cell_ok (circ_id_len link) netinfo /\
    Cell.command versions = CMD_VERSIONS /\ len (Cell.body versions) mod 2 = 0 /\
    best_common (versions_offered versions) (link_version link) /\
    (length cs <= 15)%nat /\ handshake_cells None cs (Some (ed_identity link)) /\
    Cell.command netinfo = CMD_NETINFO;
}.

Lemma fold_max_spec l x :
  fold_left Z.max l x ∈ x :: l /\ forall u, u ∈ x :: l -> u <= fold_left Z.max l x.
Proof.
  revert x. induction l as [|y l IH]; intros x; cbn.
  - split; [set_solver|]. intros u. rewrite list_elem_of_singleton. lia.
  - destruct (IH (Z.max x y)) as [H1 H2]. split.
    + apply elem_of_cons in H1 as [->|H1]; [|set_solver].
      destruct (Z.max_spec x y) as [[_ ->]|[_ ->]]; set_solver.
    + intros u Hu. pose proof (H2 (Z.max x y) ltac:(set_solver)).
      apply elem_of_cons in Hu as [->|Hu]; [lia|]. apply elem_of_cons in Hu as [->|Hu]; [lia|].
      apply H2. set_solver.
Qed.

Lemma max_opt_spec offered v :
  max_opt (filter (fun v => v ∈ SUPPORTED_VERSIONS) offered) = Some v <-> best_common offered v.
Proof.
  unfold best_common. set (l := filter _ offered).
  assert (E : forall u, u ∈ l <-> u ∈ offered /\ u ∈ SUPPORTED_VERSIONS)
    by (intros u; unfold l; rewrite list_elem_of_filter; tauto).
  destruct l as [|x l].
  - split; [done|]. intros (H1 & H2 & _). assert (v ∈ @nil Z) as F by (by apply E). by apply elem_of_nil in F.
  - cbn [max_opt]. destruct (fold_max_spec l x) as [M1 M2].
    set (m := fold_left Z.max l x) in *. split.
    + intros [= <-]. apply E in M1 as [? ?]. split_and!; [done..|]. intros u Hu Hs. apply M2, E. done.
    + intros (H1 & H2 & H3). apply E in M1 as M1'. destruct M1' as [? ?]. f_equal.
      apply Z.le_antisymm; [by apply H3|]. apply M2, E. done.
Qed.

Lemma negotiate_iff tls v rest :
  bytes_ok tls ->
  snd (negotiate_versions tls) = Ok (v, rest) <->
  exists c, tls = Cell.encode c CIRC_ID_LEN_V2 ++ rest /\ cell_ok CIRC_ID_LEN_V2 c /\
    Cell.command c = CMD_VERSIONS /\ len (Cell.body c) mod 2 = 0 /\
    best_common (versions_offered c) v.
Proof.
  intros Hb. assert (W : width_ok CIRC_ID_LEN_V2) by (by left).
  unfold negotiate_versions. destruct versions_cell as [vc|e] eqn:V; [|by vm_compute in V].
  cbn [snd]. split.
  - destruct (Cell.read_from _ _) as [[c r]|] eqn:R; [|done]. cbn [mbind result_bind].
    apply (read_from_inv _ W) in R as [-> Hc]; [|done].
    destruct (Z.eqb_spec (Cell.command c) CMD_VERSIONS) as [Ec|]; [|done]. cbn [negb].
    destruct (Z.eqb_spec (len (Cell.body c) mod 2) 0) as [Em|]; [|done]. cbn [negb].
    destruct (max_opt _) as [m|] eqn:M; [|done]. cbn [mbind result_bind ok_or]. intros [= <- <-].
    apply max_opt_spec in M. by exists c.
  - intros (c & -> & Hc & Ec & Em & Hv). rewrite (read_from_encode_aux _ W _ _ Hc).
    cbn [mbind result_bind]. rewrite Ec, Em. cbn [Z.eqb negb].
    apply max_opt_spec in Hv. unfold versions_offered in Hv. rewrite Z.eqb_refl. cbn [negb].
    by rewrite Hv.
Qed.

Lemma parse_entries_bytes n body pos certs :
  bytes_ok body -> CertsCell.parse_entries n body pos = Ok certs ->
  Forall (fun e => bytes_ok (snd e)) certs.
Proof.
  intros Hb. revert pos certs. induction n as [|n IH]; intros pos certs; cbn; [by intros [= <-]|].
  intros E. res_inv. subst certs. constructor; [by apply bytes_ok_slice|]. by eapply IH.
Qed.

Lemma parse_certs_bytes body certs :
  bytes_ok body -> CertsCell.parse body = Ok certs -> Forall (fun e => bytes_ok (snd e)) certs.
Proof. intros Hb E. destruct body as [|c b]; [done|]. by eapply parse_entries_bytes. Qed.

Lemma certs_cell_iff w c new :
  cell_ok w c ->
  (exists certs, CertsCell.parse (Cell.body c) = Ok certs /\
     validate_responder certs tls_hash now = Ok new) /\ Cell.command c = CMD_CERTS <->
  proves c new.
Proof.
  intros Hc. unfold proves. split.
  - intros [(certs & P & V) Ec]. split; [done|]. exists certs. split; [done|].
    apply validate_iff in V; [done|]. eapply parse_certs_bytes; [|done]. apply Hc.
  - intros [Ec (certs & P & V)]. split; [|done]. exists certs. split; [done|].
    apply validate_iff; [|done]. eapply parse_certs_bytes; [|done]. apply Hc.
Qed.

(** One round of the loop, by the cell it reads. *)
Lemma read_responder_step w n tls id :
  read_responder_cells (S n) tls w tls_hash now id =
  '(cell, tls) ← Cell.read_from tls w;
  if decide (Cell.command cell = CMD_CERTS) then
    certs ← CertsCell.parse (Cell.body cell);
    new ← validate_responder certs tls_hash now;
    read_responder_cells n tls w tls_hash now (Some new)
  else if decide (skippable cell) then read_responder_cells n tls w tls_hash now id
  else if decide (Cell.command cell = CMD_NETINFO) then
    id ← ok_or id (invalid_data "responder sent NETINFO without a valid CERTS cell");
    Ok (id, tls)
  else Err (invalid_data "unexpected {} cell during link handshake").
Proof.
  cbn [read_responder_cells]. destruct (Cell.read_from tls w) as [[c r]|]; [|done].
  cbn [mbind result_bind]. unfold skippable.
  destruct (Z.eqb_spec (Cell.command c) CMD_CERTS); [by rewrite decide_True|].
  rewrite decide_False by done.
  destruct (Z.eqb_spec (Cell.command c) CMD_AUTH_CHALLENGE); [rewrite decide_True; tauto|].
  destruct (Z.eqb_spec (Cell.command c) CMD_VPADDING); [rewrite decide_True; tauto|].
  destruct (Z.eqb_spec (Cell.command c) CMD_PADDING); [rewrite decide_True; tauto|].
  cbn [orb]. rewrite decide_False by tauto.
  destruct (Z.eqb_spec (Cell.command c) CMD_NETINFO); [by rewrite decide_True|].
  by rewrite decide_False.
Qed.

Lemma read_responder_sound w n : width_ok w -> forall tls id res rest,
  bytes_ok tls -> read_responder_cells n tls w tls_hash now id = Ok (res, rest) ->
  exists cs netinfo,
    tls = encode_all w cs ++ Cell.encode netinfo w ++ rest /\ Forall (cell_ok w) cs /\
    cell_ok w netinfo /\ (length cs < n)%nat /\ handshake_cells id cs (Some res) /\
    Cell.command netinfo = CMD_NETINFO.
Proof.
  intros W. induction n as [|n IH]; intros tls id res rest Hb; [done|].
  rewrite read_responder_step. destruct (Cell.read_from tls w) as [[c r]|] eqn:R; [|done].
  cbn [mbind result_bind]. apply (read_from_inv _ W) in R as [-> Hc]; [|done].
  apply bytes_ok_app in Hb as [_ Hb].
  assert (Step : forall id', read_responder_cells n r w tls_hash now id' = Ok (res, rest) ->
    (forall cs, handshake_cells id' cs (Some res) -> handshake_cells id (c :: cs) (Some res)) ->
    exists cs netinfo,
      Cell.encode c w ++ r = encode_all w cs ++ Cell.encode netinfo w ++ rest /\
      Forall (cell_ok w) cs /\ cell_ok w netinfo /\ (length cs < S n)%nat /\
      handshake_cells id cs (Some res) /\ Cell.command netinfo = CMD_NETINFO).
  { intros id' E Hn. apply IH in E as (cs & ni & -> & F & N & L & Hh & C); [|done].
    exists (c :: cs), ni. rewrite encode_all_cons, <- app_assoc.
    split_and!; [done|by constructor|done|cbn; lia|by apply Hn|done]. }
  destruct (decide (Cell.command c = CMD_CERTS)) as [Ec|].
  { destruct (CertsCell.parse _) as [certs|] eqn:P; [|done]. cbn [mbind result_bind].
    destruct (validate_responder _ _ _) as [new|] eqn:V; [|done]. cbn [mbind result_bind].
    intros E. eapply Step; [exact E|]. intros cs. apply Cells_certs.
    apply (certs_cell_iff w); [done|]. split; [by exists certs|done]. }
  destruct (decide (skippable c)); [intros E; eapply Step; [exact E|intros; by apply Cells_skip]|].
  destruct (decide _); [|done]. destruct id as [id|]; [|done]. cbn [mbind result_bind ok_or].
  intros [= <- <-]. exists [], c. split_and!; [done|constructor|done|cbn; lia|constructor|done].
Qed.

Lemma read_responder_complete w n : width_ok w -> forall cs id res netinfo rest,
  Forall (cell_ok w) cs -> cell_ok w netinfo -> (length cs < n)%nat ->
  handshake_cells id cs (Some res) -> Cell.command netinfo = CMD_NETINFO ->
  read_responder_cells n (encode_all w cs ++ Cell.encode netinfo w ++ rest) w tls_hash now id
  = Ok (res, rest).
Proof.
  intros W. induction n as [|n IH]; intros cs id res netinfo rest Hcs Hn L Hh C; [lia|].
  rewrite read_responder_step. destruct cs as [|c cs].
  - inversion Hh; subst. cbn [app]. change (encode_all w []) with (@nil Z). cbn [app].
    rewrite (read_from_encode_aux _ W _ _ Hn). cbn [mbind result_bind]. rewrite C.
    rewrite decide_False by done. rewrite decide_False by (unfold skippable; rewrite C; by intros [|[|]]).
    by rewrite decide_True.
  - apply Forall_cons in Hcs as [Hc Hcs]. cbn [length] in L.
    rewrite encode_all_cons, <- app_assoc, (read_from_encode_aux _ W _ _ Hc). cbn [mbind result_bind].
    inversion Hh as [|? ? ? ? Sk Hh'|? ? ? new ? Pr Hh']; subst.
    + rewrite decide_False by (destruct Sk as [-> |[-> | ->]]; done). rewrite decide_True by done.
      apply IH; [done..|lia|done|done].
    + apply (certs_cell_iff w) in Pr as [(certs & P & V) Ec]; [|done].
      rewrite decide_True, P by done. cbn [mbind result_bind]. rewrite V. cbn [mbind result_bind].
      apply IH; [done..|lia|done|done].
Qed.

Lemma width_of_ok v : width_ok (width_of v).
Proof. unfold width_of. destruct (4 <=? v); [by right|by left]. Qed.

Lemma send_netinfo_ok w ip : len ip = 4 -> exists b, send_netinfo w ip = Ok b.
Proof.
  intros L. unfold send_netinfo, Cell.new. cbn [is_variable_length CMD_NETINFO].
  change (is_variable_length CMD_NETINFO) with false. cbv iota.
  destruct (Z.ltb_spec CELL_BODY_LEN (len (to_be 4 0 ++ [4] ++ [4] ++ ip ++ [0]))) as [F|F].
  - exfalso. autorewrite with len in F. rewrite L in F. by vm_compute in F.
  - by eexists.
Qed.

Lemma read_responder_handshake_iff w tls id rest : width_ok w -> bytes_ok tls ->
  read_responder_handshake tls w tls_hash now = Ok (id, rest) <->
  exists cs netinfo,
    tls = encode_all w cs ++ Cell.encode netinfo w ++ rest /\ Forall (cell_ok w) cs /\
    cell_ok w netinfo /\ (length cs <= 15)%nat /\ handshake_cells None cs (Some id) /\
    Cell.command netinfo = CMD_NETINFO.
Proof.
  intros W Hb. unfold read_responder_handshake. generalize (eq_refl (S 15)).
  generalize 16%nat at 2 3. intros n <-. split.
  - intros R. apply read_responder_sound in R as (cs & ni & E & Hcs & Hni & L & Hh & C); [|done..].
    exists cs, ni. split_and!; [done..|lia|done|done].
  - intros (cs & ni & -> & Hcs & Hni & L & Hh & C). apply read_responder_complete; done || lia.
Qed.

Lemma expected_check expected id u :
  match expected with
  | Some e => check (constant_time_eq id e) "{peer}: relay identity is {}, expected {}"
  | None => Ok tt
  end = Ok u <-> forall e, expected = Some e -> id = e.
Proof.
  destruct u, expected as [e|]; [|by split].
  destruct (constant_time_eq id e) eqn:C; cbn.
  - apply constant_time_eq_spec in C. split; [by intros _ ? [= <-]|done].
  - split; [done|]. intros F. rewrite (proj2 (constant_time_eq_spec _ _) (F e eq_refl)) in C. done.
Qed.

Lemma finish_handshake_iff v tls peer_ip expected link :
  len peer_ip = 4 ->
  (exists netinfo,
     finish_handshake v tls tls_hash now peer_ip expected = Ok (netinfo, link)) <->
  v = link_version link /\ circ_id_len link = width_of v /\
  read_responder_handshake tls (width_of v) tls_hash now = Ok (ed_identity link, unread link) /\
  forall e, expected = Some e -> ed_identity link = e.
Proof.
  intros Hip. unfold finish_handshake.
  destruct (send_netinfo_ok (width_of v) peer_ip Hip) as [b Hn].
  generalize (read_responder_handshake tls (width_of v) tls_hash now) as r. intros r.
  cbn zeta. rewrite Hn. clear Hn. generalize (width_of v) as w. intros w. split.
  - intros [ni E]. destruct r as [[id un]|]; [|done]. cbn [mbind result_bind] in E.
    destruct (match expected with Some _ => _ | None => _ end) as [u|] eqn:X; [|done].
    injection E as _ <-. cbn [link_version circ_id_len ed_identity unread].
    split_and!; [done..|]. by apply (expected_check _ _ u).
  - intros (Ev & Hw & -> & He). exists b. cbn [mbind result_bind].
    apply (expected_check expected (ed_identity link) tt) in He. rewrite He.
    cbn [mbind result_bind]. subst v w. by destruct link.
Qed.

(** The stages of [connect], by their outcome. *)
Lemma connect_ok_iff tls peer_ip expected link :
  snd (connect tls tls_hash now peer_ip expected) = Ok link <->
  exists v rest, snd (negotiate_versions tls) = Ok (v, rest) /\
    exists netinfo, finish_handshake v rest tls_hash now peer_ip expected = Ok (netinfo, link).
Proof.
  unfold connect. generalize (negotiate_versions tls). intros [hello neg]. cbn [snd].
  destruct neg as [[v rest]|e]; cbn [mbind result_bind]; [|split; [done|by intros (? & ? & ? & _)]].
  destruct (finish_handshake v rest tls_hash now peer_ip expected) as [[ni l]|e] eqn:F.
  - split.
    + intros [= <-]. exists v, rest. split; [done|]. by exists ni.
    + intros (v' & r' & [= <- <-] & ni' & E). rewrite E in F. by injection F as _ <-.
  - split; [done|]. intros (v' & r' & [= <- <-] & ni' & E). by rewrite E in F.
Qed.

(** C12. Channel::connect completes exactly when the bytes the relay sends start with a VERSIONS cell of even length sharing a version with us (the link runs at the highest common one, with its circuit-ID width), followed by at most 15 cells that are CERTS, AUTH_CHALLENGE or padding, every CERTS among them valid for the TLS certificate of this session, and a NETINFO; the identity of the link is the one the last CERTS cell proves, it is the expected one when there is one, and the bytes left to the I/O thread are exactly those after the NETINFO. *)
Theorem connect_iff tls peer_ip expected link :
  bytes_ok tls -> len peer_ip = 4 ->
  snd (connect tls tls_hash now peer_ip expected) = Ok link <-> completes tls expected link.
Proof.
  intros Hb Hip. rewrite connect_ok_iff. split.
  - intros (v & rest & N & F). apply finish_handshake_iff in F as (-> & Hw & R & He); [|done].
    apply negotiate_iff in N as (vc & -> & Hvc & Ec & Em & Hv); [|done].
    apply bytes_ok_app in Hb as [_ Hb].
    apply read_responder_handshake_iff in R as (cs & ni & -> & Hcs & Hni & L & Hh & C);
      [|apply width_of_ok|done].
    split; [exact He|exact Hw|]. exists vc, cs, ni. rewrite Hw. by split_and!.
  - intros [Hexp Hw (vc & cs & ni & -> & Hvc & Hcs & Hni & Ec & Em & Hv & L & Hh & C)].
    apply bytes_ok_app in Hb as Hb'. destruct Hb' as [_ Hb']. rewrite Hw in *.
    eexists _, _. split; [apply negotiate_iff; [done|]; by exists vc|].
    apply finish_handshake_iff; [done|]. split_and!; [done|done| |done].
    apply read_responder_handshake_iff; [apply width_of_ok|done|]. by exists cs, ni.
Qed.
End handshake_spec.

(** ** Properties of the running channel *)

(** A round in which the session takes everything offered. *)
Lemma flush_round n io :
  Io.running io = true -> Shared.closed (Io.shared io) = false ->
  (length (Io.pending io) + length (Shared.out (Io.shared io)) < n)%nat ->
  let io' := io_round [Wrote n] [] false io in
  Io.running io' = true /\ Shared.closed (Io.shared io') = false /\ Io.pending io' = [] /\
  (Io.pending io = [] -> Shared.out (Io.shared io') = []) /\
  (length (Shared.out (Io.shared io')) <= length (Shared.out (Io.shared io)))%nat.
Proof.
  destruct io as [[w out cs ms cl] i p wi r]. cbn. intros -> ->. unfold io_round, take_pending. cbn.
  intros Hn. destruct n as [|n]; [lia|].
  destruct p as [|x p]; [destruct out as [|y out]|]; cbn; [done| |].
  - rewrite drop_ge by (cbn in Hn; lia). cbn. split_and!; auto with arith.
  - rewrite drop_ge by (cbn in Hn; lia). cbn. by split_and!.
Qed.

(** Outbound integrity of a channel, after any interleaving of senders, registrations, closes and I/O rounds: the bytes on the wire, those the I/O thread holds and those queued are together the encodings of the accepted cells, whole and in the order send_cell accepted them; the queue never exceeds MAX_OUTBOUND_BYTES; the relay, fed what is on the wire, reads exactly a prefix of the accepted cells; and two rounds of an open channel whose session takes everything put every accepted cell on the wire. *)
Theorem channel_outbound w es :
  width_ok w -> Forall (cell_ok w) (snd (run (start w, []) es)) ->
  let io := fst (run (start w, []) es) in
  let accepted := snd (run (start w, []) es) in
  Io.wire io ++ Io.pending io ++ Shared.out (Io.shared io) = encode_all w accepted /\
  len (Shared.out (Io.shared io)) <= MAX_OUTBOUND_BYTES /\
  (exists sent t, sent `prefix_of` accepted /\ forall peer, Shared.circ_id_len peer = w ->
     dispatch_cells (Io.wire io) peer = (deliver_all sent peer, Ok t)) /\
  (forall n, Io.running io = true -> Shared.closed (Io.shared io) = false ->
     (length (Io.pending io) + length (Shared.out (Io.shared io)) < n)%nat ->
     Io.wire (io_round [Wrote n] [] false (io_round [Wrote n] [] false io))
     = encode_all w accepted).
Proof.
  intros Hw Hc. pose proof (run_inv w es _ (start_inv w)) as Hi. cbn zeta.
  destruct (run (start w, []) es) as [io acc]. cbn [fst snd] in *.
  pose proof Hi as [H1 H2 H3]. cbn [fst snd] in *. split_and!; [done|done| |].
  - rewrite <- (app_nil_r (encode_all w acc)) in H2.
    destruct (split_stream w acc _ _ [] Hc (incomplete_nil w Hw) H2)
      as (sent & rest & t & -> & Ew & Ht & _).
    apply Forall_app in Hc as [Hs _].
    exists sent, t. split; [by exists rest|]. intros peer Hp.
    rewrite Ew. by apply dispatch_cells_stream.
  - intros n Hr Ho Hn. pose proof (flush_round n io Hr Ho Hn) as (R1 & O1 & P1 & _ & L1).
    set (io1 := io_round [Wrote n] [] false io) in *.
    destruct (flush_round n io1 R1 O1) as (_ & _ & P2 & Q2 & _); [rewrite P1; cbn; lia|].
    pose proof (io_round_inv w [Wrote n] [] false _ _ (io_round_inv w [Wrote n] [] false _ _ Hi))
      as [_ F _]. cbn [fst snd] in F. fold io1 in F.
    rewrite P2, (Q2 P1), !app_nil_r in F. done.
Qed.

(** Cells of other circuits leave a mailbox alone; its own are appended. *)
Lemma deliver_mailbox c sh id h m :
  shared_ok sh -> id <> 0 -> Shared.circuits sh !! id = Some h ->
  Shared.mailboxes sh !! h = Some m -> dropped m = false ->
  Shared.circuits (deliver c sh) !! id = Some h /\
  Shared.mailboxes (deliver c sh) !! h =
    Some (if decide (Cell.circ_id c = id) then MkMailbox (cells m ++ [c]) false else m).
Proof.
  intros Hok Hid Hc Hm Hd. unfold deliver. destruct (Z.eqb_spec (Cell.circ_id c) 0) as [E0|E0].
  { rewrite decide_False by lia. done. }
  destruct (decide (Cell.circ_id c = id)) as [->|Hn].
  - rewrite Hc, Hm, Hd. destruct sh. cbn in *. split; [done|]. apply list_lookup_insert_eq.
    by eapply lookup_lt_Some.
  - destruct (Shared.circuits sh !! Cell.circ_id c) as [h'|] eqn:E'; [|done].
    destruct (Shared.mailboxes sh !! h') as [m'|]; [|done].
    assert (h' <> h) by (intros ->; apply Hn; by eapply so_inj).
    destruct (dropped m'); destruct sh; cbn in *.
    + by rewrite lookup_delete_ne.
    + by rewrite list_lookup_insert_ne.
Qed.

Lemma deliver_all_mailbox cs sh id h m :
  shared_ok sh -> id <> 0 -> Shared.circuits sh !! id = Some h ->
  Shared.mailboxes sh !! h = Some m -> dropped m = false ->
  Shared.mailboxes (deliver_all cs sh) !! h =
    Some (MkMailbox (cells m ++ filter (fun c => Cell.circ_id c = id) cs) false).
Proof.
  revert sh m. induction cs as [|c cs IH]; intros sh m Hok Hid Hc Hm Hd.
  - cbn. rewrite app_nil_r, Hm. destruct m; cbn in *. by subst.
  - destruct (deliver_mailbox c sh id h m Hok Hid Hc Hm Hd) as [Hc' Hm'].
    change (deliver_all (c :: cs) sh) with (deliver_all cs (deliver c sh)). rewrite filter_cons.
    rewrite (IH _ _ (deliver_ok c sh Hok) Hid Hc' Hm') by (by destruct (decide _)).
    destruct (decide (Cell.circ_id c = id)); [|done]. cbn. by rewrite <- app_assoc.
Qed.

(** Inbound demultiplexing: in any reachable running channel, however the TLS session cuts the byte stream into reads, the I/O thread delivers to every registered circuit whose receiver is alive exactly the cells with its ID, in order, appended to what it already had; it keeps exactly the bytes of the cell still incomplete and goes on running. *)
Theorem channel_inbound w es chunks cs tail :
  width_ok w -> Forall (fun b => b <> []) chunks -> Forall (cell_ok w) cs -> incomplete w tail ->
  let io := fst (run (start w, []) es) in
  Io.running io = true -> incomplete w (Io.inbound io) ->
  Io.inbound io ++ concat chunks = encode_all w cs ++ tail ->
  let io' := read_loop (map ReadBytes chunks) io in
  Io.inbound io' = tail /\ Io.running io' = true /\
  forall id h m, id <> 0 -> Shared.circuits (Io.shared io) !! id = Some h ->
    Shared.mailboxes (Io.shared io) !! h = Some m -> dropped m = false ->
    Shared.mailboxes (Io.shared io') !! h =
      Some (MkMailbox (cells m ++ filter (fun c => Cell.circ_id c = id) cs) false).
Proof.
  intros Hw Hb Hcs Ht io Hr Hi E io'.
  pose proof (oi_width _ _ (run_inv w es _ (start_inv w))) as Hwidth.
  assert (R : io' = Io.Mk (deliver_all cs (Io.shared io)) tail (Io.pending io) (Io.wire io) (Io.running io))
    by (by apply (read_loop_stream w)).
  rewrite R. cbn. split_and!; [done..|]. intros id h m Hid Hc Hm Hd.
  apply deliver_all_mailbox; try done. apply run_ok, start_ok.
Qed.

(** Registering a circuit on any reachable channel: the ID returned is non-zero, fits the link's circuit-ID width, has the high bit the connection's opener must set, and was not in use; it gets an empty mailbox of its own and no other registration changes; an error changes nothing; and registration succeeds whenever one of the first 64 draws is not in use. *)
Theorem register_circuit_spec w es rng :
  width_ok w ->
  let sh := Io.shared (fst (run (start w, []) es)) in
  let '(sh', r) := register_circuit rng sh in
  match r with
  | Ok (id, h) =>
      opener_id w id /\ Shared.circuits sh !! id = None /\
      Shared.circuits sh' = <[id := h]> (Shared.circuits sh) /\
      Shared.mailboxes sh' !! h = Some (MkMailbox [] false) /\
      (forall i, Shared.circuits sh !! i <> Some h) /\
      (forall i m, Shared.mailboxes sh !! i = Some m -> Shared.mailboxes sh' !! i = Some m)
  | Err _ =>
      sh' = sh /\
      forall j r, (j < 64)%nat -> (forall k, (k <= j)%nat -> is_ok (rng k) = true) ->
        rng j = Ok r ->
        let id := r mod 2 ^ (8 * w - 1) + 2 ^ (8 * w - 1) in is_Some (Shared.circuits sh !! id)
  end.
Proof.
  intros Hw sh. pose proof (oi_width _ _ (run_inv w es _ (start_inv w))) as Hwidth.
  pose proof (run_ok es (start w, []) (start_ok w)) as Hok. fold sh in Hwidth, Hok.
  unfold register_circuit. rewrite Hwidth.
  set (mm := if w =? CIRC_ID_LEN_V4 then _ else _). destruct mm as [msb mask] eqn:Mm.
  assert (M : id_bits w mask msb).
  { unfold mm in Mm. destruct Hw as [-> | ->]; [right|left]; by injection Mm as <- <-. }
  destruct (draw_circuit_id _ _ _ _ _ _) as [id|e] eqn:D.
  - apply draw_circuit_id_ok in D as (Hn & Hf & j & r & _ & Er & ->). split_and!.
    + by apply masked_id.
    + done.
    + by destruct sh.
    + destruct sh. cbn. by apply list_lookup_middle.
    + intros i E. apply (so_valid _ Hok), lookup_lt_is_Some in E. lia.
    + intros i m E. destruct sh. cbn in *. by apply lookup_app_l_Some.
  - split; [done|]. intros j r Hj Hk Er. cbn zeta.
    rewrite <- (masked_id_value w r mask msb M).
    destruct (Shared.circuits sh !! Z.lor (Z.land r mask) msb) eqn:E; [by eexists|]. exfalso.
    destruct (draw_circuit_id_finds rng 64 0 mask msb (Shared.circuits sh) j) as [id' E'].
    + lia.
    + intros k Hk'. apply Hk. lia.
    + intros r' E'. rewrite Er in E'. injection E' as <-. split; [|done].
      destruct (masked_id w r mask msb M) as [Hp _]. lia.
    + by rewrite E' in D.
Qed.

(** ** A concrete channel *)
Module ChannelDemo.
Import Toy.

Definition rng (i : nat) : result Z := Ok (Z.of_nat i + 5).
Definition id5 : Z := 0x80000005.
Definition cell (n : Z) : Cell.t := Cell.Mk n CMD_VPADDING [1; 2; 3].

Lemma cell_is_ok n : 0 <= n < 2 ^ 32 -> cell_ok 4 (cell n).
Proof.
  intros Hn. split; cbn; [exact Hn|done| |done]. apply (bool_decide_unpack _). by vm_compute.
Qed.

(** *** The handshake *)

Definition certs_body : bytes :=
  [len CertsDemo.cell] ++
  concat (map (fun e => [fst e] ++ to_be 2 (len (snd e)) ++ snd e) CertsDemo.cell).

Definition relay_bytes : bytes :=
  Cell.encode (Cell.Mk 0 CMD_VERSIONS [0; 3; 0; 5; 0; 4]) 2 ++
  encode_all 4 [cell 0; Cell.Mk 0 CMD_CERTS certs_body; Cell.Mk 0 CMD_AUTH_CHALLENGE [9]] ++
  Cell.encode (Cell.Mk 0 CMD_NETINFO (zeros 509)) 4 ++ [1; 2; 3].

Lemma relay_bytes_ok : bytes_ok relay_bytes.
Proof. apply (bool_decide_unpack _). by vm_compute. Qed.

Lemma connect_iff_witness :
  completes CertsDemo.tls 1000 relay_bytes (Some CertsDemo.identity)
    (MkLink 4 4 CertsDemo.identity [1; 2; 3]) /\
  forall link, ~ completes CertsDemo.tls 1000 relay_bytes (Some CertsDemo.signing) link.
Proof.
  split.
  - apply (proj1 (connect_iff CertsDemo.tls 1000 relay_bytes [1; 2; 3; 4]
      (Some CertsDemo.identity) (MkLink 4 4 CertsDemo.identity [1; 2; 3]) relay_bytes_ok eq_refl)).
    by vm_compute.
  - intros link C. apply (connect_iff CertsDemo.tls 1000 relay_bytes [1; 2; 3; 4]
      (Some CertsDemo.signing) link relay_bytes_ok eq_refl) in C. by vm_compute in C.
Defined.

(** *** Queued, half written, and queued again *)

Definition sends : list event :=
  [Send (cell 7); Round [Wrote 6] [] false; Send (cell 8)].

Lemma sends_ok : Forall (cell_ok 4) (snd (run (start 4, []) sends)).
Proof.
  replace (snd (run (start 4, []) sends)) with [cell 7; cell 8] by (by vm_compute).
  repeat constructor; by apply cell_is_ok.
Qed.

Lemma channel_outbound_witness :
  let io := fst (run (start 4, []) sends) in
  length (Io.wire io) = 6%nat /\
  Io.wire io ++ Io.pending io ++ Shared.out (Io.shared io)
    = encode_all 4 (snd (run (start 4, []) sends)) /\
  Io.wire (io_round [Wrote 100] [] false (io_round [Wrote 100] [] false io))
    = encode_all 4 (snd (run (start 4, []) sends)).
Proof.
  destruct (channel_outbound 4 sends (or_intror eq_refl) sends_ok) as (H1 & H2 & H3 & H4).
  split; [by vm_compute|]. split; [exact H1|]. apply H4.
  - by vm_compute.
  - by vm_compute.
  - by vm_compute; lia.
Defined.

(** *** A registered circuit among other traffic *)

Definition stream : list Cell.t := [cell id5; cell 0; cell 9; cell id5].
Definition cuts : list bytes :=
  let b := encode_all 4 stream ++ [128; 0] in [take 3 b; take 11 (drop 3 b); drop 14 b].

Lemma stream_ok : Forall (cell_ok 4) stream.
Proof. repeat constructor; by apply cell_is_ok. Qed.

Lemma tail_ok : incomplete 4 [128; 0].
Proof.
  exists (cell id5), (drop 2 (Cell.encode (cell id5) 4)).
  split; [by apply cell_is_ok|]. split; by vm_compute.
Qed.

Lemma channel_inbound_witness :
  let io := fst (run (start 4, []) [Register rng]) in
  let io' := read_loop (map ReadBytes cuts) io in
  Io.inbound io' = [128; 0] /\
  Shared.mailboxes (Io.shared io') !! 0%nat = Some (MkMailbox [cell id5; cell id5] false).
Proof.
  destruct (channel_inbound 4 [Register rng] cuts stream [128; 0] (or_intror eq_refl))
    as (H1 & H2 & H3).
  - by repeat constructor.
  - exact stream_ok.
  - exact tail_ok.
  - by vm_compute.
  - apply incomplete_nil. by right.
  - by vm_compute.
  - split; [exact H1|]. apply (H3 id5 0%nat (MkMailbox [] false)); by vm_compute.
Defined.

(** *** Registration, when the first draw is taken *)

Lemma register_circuit_witness :
  let sh := Io.shared (fst (run (start 4, []) [Register rng])) in
  snd (register_circuit rng sh) = Ok (0x80000006, 1%nat) /\
  Shared.circuits sh !! 0x80000006 = None.
Proof.
  pose proof (register_circuit_spec 4 [Register rng] rng (or_intror eq_refl)) as S.
  cbv zeta in S.
  assert (E : snd (register_circuit rng (Io.shared (fst (run (start 4, []) [Register rng]))))
              = Ok (0x80000006, 1%nat)) by (by vm_compute).
  split; [exact E|].
  destruct (register_circuit _ _) as [sh' r]. cbn [snd] in E. subst r. apply S.
Defined.

End ChannelDemo.
