(* ===== verification/Authority.v ===== *)
(** * Directory authorities and their key certificates
      ([src/src/tor/dir/authority.rs])

    The nine authorities whose signatures count, and the certificates that
    bind their medium-term signing keys to the identities embedded here. *)
From S2P Require Import Prelude.
From S2P Require Import Text.
From S2P Require Import Crypto.
From S2P Require Import Util.
From S2P Require Import Netdoc.

Record Authority := MkAuthority {
  nickname : bytes;
  v3ident : bytes;
  rsa_identity : bytes;
  ipv4 : bytes;
  dir_port : Z;
  or_port : Z;
}.

Definition AUTHORITIES : list Authority := [
  MkAuthority (B "moria1")
    [0xf5; 0x33; 0xc8; 0x1c; 0xef; 0x0b; 0xc0; 0x26; 0x78; 0x57;
     0xc9; 0x9b; 0x2f; 0x47; 0x1a; 0xdf; 0x24; 0x9f; 0xa2; 0x32]
    [0x1a; 0x25; 0xc6; 0x35; 0x8d; 0xb9; 0x13; 0x42; 0xaa; 0x51;
     0x72; 0x0a; 0x50; 0x38; 0xb7; 0x27; 0x42; 0x73; 0x24; 0x98]
    [128; 31; 0; 39] 9231 9201;
  MkAuthority (B "tor26")
    [0x2f; 0x3d; 0xf9; 0xca; 0x0e; 0x5d; 0x36; 0xf2; 0x68; 0x5a;
     0x2d; 0xa6; 0x71; 0x84; 0xeb; 0x8d; 0xcb; 0x8c; 0xba; 0x8c]
    [0xfa; 0xa4; 0xbc; 0xa4; 0xa6; 0xac; 0x0f; 0xb4; 0xca; 0x2f;
     0x8a; 0xd5; 0xa1; 0x1d; 0x9e; 0x12; 0x2b; 0xa8; 0x94; 0xf6]
    [217; 196; 147; 77] 80 443;
  MkAuthority (B "dizum")
    [0xe8; 0xa9; 0xc4; 0x5e; 0xde; 0x6d; 0x71; 0x12; 0x94; 0xfa;
     0xdf; 0x8e; 0x79; 0x51; 0xf4; 0xde; 0x6c; 0xa5; 0x6b; 0x58]
    [0x7e; 0xa6; 0xea; 0xd6; 0xfd; 0x83; 0x08; 0x3c; 0x53; 0x8f;
     0x44; 0x03; 0x8b; 0xbf; 0xa0; 0x77; 0x58; 0x7d; 0xd7; 0x55]
    [45; 66; 35; 11] 80 443;
  MkAuthority (B "gabelmoo")
    [0xed; 0x03; 0xbb; 0x61; 0x6e; 0xb2; 0xf6; 0x0b; 0xec; 0x80;
     0x15; 0x11; 0x14; 0xbb; 0x25; 0xce; 0xf5; 0x15; 0xb2; 0x26]
    [0xf2; 0x04; 0x44; 0x13; 0xda; 0xc2; 0xe0; 0x2e; 0x3d; 0x6b;
     0xcf; 0x47; 0x35; 0xa1; 0x9b; 0xca; 0x1d; 0xe9; 0x72; 0x81]
    [131; 188; 40; 189] 80 443;
  MkAuthority (B "dannenberg")
    [0x02; 0x32; 0xaf; 0x90; 0x1c; 0x31; 0xa0; 0x4e; 0xe9; 0x84;
     0x85; 0x95; 0xaf; 0x9b; 0xb7; 0x62; 0x0d; 0x4c; 0x5b; 0x2e]
    [0x7b; 0xe6; 0x83; 0xe6; 0x5d; 0x48; 0x14; 0x13; 0x21; 0xc5;
     0xed; 0x92; 0xf0; 0x75; 0xc5; 0x53; 0x64; 0xac; 0x71; 0x23]
    [193; 23; 244; 244] 80 443;
  MkAuthority (B "maatuska")
    [0x49; 0x01; 0x5f; 0x78; 0x74; 0x33; 0x10; 0x35; 0x80; 0xe3;
     0xb6; 0x6a; 0x17; 0x07; 0xa0; 0x0e; 0x60; 0xf2; 0xd1; 0x5b]
    [0xbd; 0x6a; 0x82; 0x92; 0x55; 0xcb; 0x08; 0xe6; 0x6f; 0xbe;
     0x7d; 0x37; 0x48; 0x36; 0x35; 0x86; 0xe4; 0x6b; 0x38; 0x10]
    [171; 25; 193; 9] 443 80;
  MkAuthority (B "longclaw")
    [0x23; 0xd1; 0x5d; 0x96; 0x5b; 0xc3; 0x51; 0x14; 0x46; 0x73;
     0x63; 0xc1; 0x65; 0xc4; 0xf7; 0x24; 0xb6; 0x4b; 0x4f; 0x66]
    [0x74; 0xa9; 0x10; 0x64; 0x6b; 0xce; 0xef; 0xbc; 0xd2; 0xe8;
     0x74; 0xfc; 0x1d; 0xc9; 0x97; 0x43; 0x0f; 0x96; 0x81; 0x45]
    [199; 58; 81; 140] 80 443;
  MkAuthority (B "bastet")
    [0x27; 0x10; 0x2b; 0xc1; 0x23; 0xe7; 0xaf; 0x1d; 0x47; 0x41;
     0xae; 0x04; 0x7e; 0x16; 0x0c; 0x91; 0xad; 0xc7; 0x6b; 0x21]
    [0x24; 0xe2; 0xf1; 0x39; 0x12; 0x1d; 0x43; 0x94; 0xc5; 0x4b;
     0x5b; 0xcc; 0x36; 0x8b; 0x3b; 0x41; 0x18; 0x57; 0xc4; 0x13]
    [204; 13; 164; 118] 80 443;
  MkAuthority (B "faravahar")
    [0x70; 0x84; 0x9b; 0x86; 0x8d; 0x60; 0x6b; 0xae; 0xcf; 0xb6;
     0x12; 0x8c; 0x5e; 0x3d; 0x78; 0x20; 0x29; 0xaa; 0x39; 0x4f]
    [0xe3; 0xe4; 0x2d; 0x35; 0xf8; 0x01; 0xc9; 0xd5; 0xab; 0x23;
     0x58; 0x4e; 0x00; 0x25; 0xd5; 0x6f; 0xe2; 0xb3; 0x33; 0x96]
    [216; 218; 219; 41] 80 443].

Definition is_authority (identity : bytes) : bool :=
  existsb (fun a => bytes_eqb (v3ident a) identity) AUTHORITIES.

Definition required_signatures : Z := len AUTHORITIES / 2 + 1.

(** ** Key certificates *)

Module KeyCertificate.

Record t := Mk {
  v3ident : bytes;
  signing_key_digest : bytes;
  signing_key : Rsa.t;
  text : bytes;
}.

Section parse.
Context `{Crypto}.

(** [try_into] a fixed-size array. *)
Definition fixed (n : Z) (b : bytes) (what : string) : result bytes :=
  if len b =? n then Ok b else Err (invalid_data what).

(** The first word of what follows the date in an item's arguments. *)
Definition date_and_time (args : bytes) (what : string) : result (bytes * bytes) :=
  '(date, time) ← ok_or (split_once SP args) (invalid_data what);
  Ok (date, hd time (split SP time)).

Definition key_object (text keyword : bytes) (what : string) : result Rsa.t :=
  start ← ok_or (line_start_of text keyword) (invalid_data what);
  der ← object (slice_from text start) (B "RSA PUBLIC KEY");
  Rsa.from_pkcs1_der der.

Definition parse (text : bytes) (now : Z) : result t :=
  version ← ok_or (item text (B "dir-key-certificate-version"))
              (invalid_data "key certificate has no version");
  if negb (bytes_eqb version (B "3")) then
    Err (invalid_data "unsupported key certificate version {version}")
  else
    args ← ok_or (item text (B "fingerprint")) (invalid_data "key certificate has no fingerprint");
    decoded ← hex_decode args;
    v3ident ← fixed 20 decoded "key certificate fingerprint is not 20 bytes";
    expires_args ← ok_or (item text (B "dir-key-expires"))
                     (invalid_data "key certificate has no dir-key-expires");
    '(date, time) ← date_and_time expires_args "bad dir-key-expires";
    expires ← parse_datetime date time;
    if expires <=? now then
      Err (invalid_data "key certificate expired at {} (local clock says {})")
    else
      identity_key ← key_object text (B "dir-identity-key")
                       "key certificate has no dir-identity-key";
      if negb (bytes_eqb (Rsa.fingerprint identity_key) v3ident) then
        Err (invalid_data "key certificate fingerprint does not match its identity key")
      else
        signing_key ← key_object text (B "dir-signing-key")
                        "key certificate has no dir-signing-key";
        signed_end ← ok_or (line_end_after text (B "dir-key-certification"))
                       (invalid_data "key certificate has no dir-key-certification");
        signature ← object (slice_from text signed_end) (B "SIGNATURE");
        if negb (Rsa.verify_digest identity_key (sha1 (slice_to text signed_end)) signature) then
          Err (invalid_data "key certificate is not signed by its own identity key")
        else Ok (Mk v3ident (Rsa.fingerprint signing_key) signing_key text).
End parse.

(** [KeyCertificate::matches]. *)
Definition matches (c : t) (id digest : bytes) : bool :=
  bytes_eqb (v3ident c) id && bytes_eqb (signing_key_digest c) digest.

End KeyCertificate.

(** [serialize]: each pair of keys once, in order. *)
Fixpoint serialize_from (certs : list KeyCertificate.t) (seen : list (bytes * bytes)) : bytes :=
  match certs with
  | [] => []
  | c :: certs =>
      let key := (KeyCertificate.v3ident c, KeyCertificate.signing_key_digest c) in
      if bool_decide (key ∈ seen) then serialize_from certs seen
      else trim_end (KeyCertificate.text c) ++ [NL] ++ serialize_from certs (seen ++ [key])
  end.
Definition serialize (certs : list KeyCertificate.t) : bytes := serialize_from certs [].

Definition END_SIGNATURE : bytes := B "-----END SIGNATURE-----".

(** The [while let] of [parse_key_certificates]; every round consumes a
    certificate's text. *)
Fixpoint parse_key_certificates_from `{Crypto} (fuel : nat) (rest : bytes) (now : Z)
    : list KeyCertificate.t :=
  match fuel with
  | O => []
  | S fuel =>
      match line_start_of rest (B "dir-key-certificate-version") with
      | None => []
      | Some start =>
          let body := slice_from rest start in
          match find body END_SIGNATURE with
          | None => []
          | Some i =>
              let stop := i + len END_SIGNATURE in
              let others := parse_key_certificates_from fuel (slice_from body stop) now in
              match KeyCertificate.parse (slice_to body stop) now with
              | Ok cert => if is_authority (KeyCertificate.v3ident cert) then cert :: others else others
              | Err _ => others
              end
          end
      end
  end.
Definition parse_key_certificates `{Crypto} (text : bytes) (now : Z) : list KeyCertificate.t :=
  parse_key_certificates_from (S (length text)) text now.

(** ** What a parsed certificate proves

    The certificate's grammar, stated of its text alone. *)

(** The text names an RSA key under a keyword: the first armoured key after
    the keyword's first line. *)
Definition names_key `{Crypto} (text keyword : bytes) (key : Rsa.t) : Prop :=
  exists pre rest der,
    first_at at_line_start text keyword pre rest /\
    armored (keyword ++ rest) (B "RSA PUBLIC KEY") der /\ Rsa.from_pkcs1_der der = Ok key.

(** The text names an instant under a keyword: the date and the time that
    are the first two words of its item. *)
Definition names_instant (text keyword : bytes) (instant : Z) : Prop :=
  exists args date time more,
    has_item text keyword args /\ args = date ++ SP :: time ++ more /\
    SP ∉ date /\ SP ∉ time /\ (more = [] \/ head more = Some SP) /\
    parse_datetime date time = Ok instant.

(** The part of the text a certification covers: everything up to the end of
    the first dir-key-certification line. *)
Definition certified_part (text signed after : bytes) : Prop :=
  exists pre eol,
    first_at at_line_start text (B "dir-key-certification") pre (eol ++ NL :: after) /\
    NL ∉ eol /\ signed = pre ++ B "dir-key-certification" ++ eol ++ [NL].

(** An identity key vouches for a signing key until an instant: the identity
    key is the one the text names under dir-identity-key, and is hashed to
    the identity; the signing key is the one it names under dir-signing-key,
    the instant the one under dir-key-expires; and the identity key signed
    everything up to the certification.  What it signed settles both the
    signing key and the instant: an unsigned remainder that names others
    changes neither. *)
Definition vouches `{Crypto} (c : KeyCertificate.t) (now : Z) : Prop :=
  let text := KeyCertificate.text c in
  exists identity_key signed after signature expires fingerprint,
    text = signed ++ after /\ certified_part text signed after /\
    has_item text (B "dir-key-certificate-version") (B "3") /\
    has_item text (B "fingerprint") fingerprint /\
    hex_decode fingerprint = Ok (KeyCertificate.v3ident c) /\ len (KeyCertificate.v3ident c) = 20 /\
    names_key text (B "dir-identity-key") identity_key /\
    Rsa.fingerprint identity_key = KeyCertificate.v3ident c /\
    names_key text (B "dir-signing-key") (KeyCertificate.signing_key c) /\
    Rsa.fingerprint (KeyCertificate.signing_key c) = KeyCertificate.signing_key_digest c /\
    names_instant text (B "dir-key-expires") expires /\ now < expires /\
    armored after (B "SIGNATURE") signature /\
    Rsa.verify_digest identity_key (sha1 signed) signature = true /\
    (forall key, names_key signed (B "dir-signing-key") key -> key = KeyCertificate.signing_key c) /\
    (forall instant, names_instant signed (B "dir-key-expires") instant -> instant = expires).

Lemma bytes_eqb_true s t : bytes_eqb s t = true <-> s = t.
Proof. apply bool_decide_eq_true. Qed.

Lemma names_key_unique `{Crypto} text keyword a b :
  names_key text keyword a -> names_key text keyword b -> a = b.
Proof.
  intros (? & ? & ? & F & A & D) (? & ? & ? & F' & A' & D').
  destruct (first_at_unique _ _ _ _ _ _ _ F F') as [-> ->].
  rewrite (armored_unique _ _ _ _ A A'), D' in D. by injection D.
Qed.

Lemma names_key_app `{Crypto} text keyword key more :
  names_key text keyword key -> names_key (text ++ more) keyword key.
Proof.
  intros (pre & rest & der & F & A & D). exists pre, (rest ++ more), der.
  split_and!; [by apply first_at_app| |done]. rewrite app_assoc. by apply armored_app.
Qed.

Lemma key_object_names `{Crypto} text keyword what key :
  KeyCertificate.key_object text keyword what = Ok key -> names_key text keyword key.
Proof.
  unfold KeyCertificate.key_object. intros E.
  destruct (line_start_of text keyword) as [i|] eqn:L; [|done]. cbn [ok_or mbind result_bind] in E.
  apply line_start_first in L as (pre & rest & -> & F).
  assert (Sl : slice_from text (len pre) = keyword ++ rest).
  { destruct F as (-> & _). by apply slice_from_app. }
  rewrite Sl in E. destruct (object _ _) as [der|] eqn:O; [|done]. cbn [mbind result_bind] in E.
  exists pre, rest, der. split_and!; [done|by apply object_armored|done].
Qed.

Lemma first_word s : exists more,
  s = hd s (split SP s) ++ more /\ SP ∉ hd s (split SP s) /\ (more = [] \/ head more = Some SP).
Proof.
  assert (G : forall d, exists more,
    s = hd d (split SP s) ++ more /\ SP ∉ hd d (split SP s) /\ (more = [] \/ head more = Some SP)); [|apply G].
  induction s as [|c s IH]; intros d; cbn [split].
  - exists []. split_and!; [done|apply not_elem_of_nil|by left].
  - destruct (Z.eqb_spec c SP) as [->|Hc].
    + exists (SP :: s). split_and!; [done|apply not_elem_of_nil|by right].
    + destruct (IH d) as (more & E & Hn & Hm). destruct (split SP s) as [|w ws] eqn:W.
      { by destruct (split_nonempty SP s). }
      cbn [hd] in *. exists more. split_and!; [by rewrite E at 1|by apply not_elem_of_cons|done].
Qed.

Lemma first_word_of w more :
  SP ∉ w -> (more = [] \/ head more = Some SP) -> forall d, hd d (split SP (w ++ more)) = w.
Proof.
  intros Hw Hm. induction w as [|c w IH]; intros d; cbn [app].
  - destruct Hm as [->|Hm]; [done|]. destruct more as [|b more]; [done|]. by injection Hm as ->.
  - apply not_elem_of_cons in Hw as [Hc Hw]. cbn [split].
    destruct (Z.eqb_spec c SP) as [->|_]; [done|]. specialize (IH Hw d).
    destruct (split SP (w ++ more)) as [|x xs] eqn:W; [by destruct (split_nonempty SP (w ++ more))|].
    cbn [hd] in *. by rewrite IH.
Qed.

(** [split_once], the first word and [parse_datetime] read the instant an
    item names. *)
Lemma names_instant_iff text keyword instant :
  names_instant text keyword instant <->
  exists args date time, item text keyword = Some args /\ split_once SP args = Some (date, time) /\
    parse_datetime date (hd time (split SP time)) = Ok instant.
Proof.
  split.
  - intros (args & date & time & more & I & -> & Hd & Ht & Hm & D). apply item_of_has_item in I.
    exists (date ++ SP :: time ++ more), date, (time ++ more). split_and!; [done| |by rewrite first_word_of].
    apply split_once_app, Forall_forall. by intros x Hx ->.
  - intros (args & date & time & I & E & D). apply item_has_item in I.
    apply split_once_Some in E as [-> Hd]. destruct (first_word time) as (more & Ht & Hn & Hm).
    exists (date ++ SP :: time), date, (hd time (split SP time)), more. split_and!; try done.
    + by rewrite <- Ht.
    + intros Hin. rewrite Forall_forall in Hd. by apply (Hd _ Hin).
Qed.

Lemma names_instant_unique text keyword a b :
  names_instant text keyword a -> names_instant text keyword b -> a = b.
Proof.
  rewrite !names_instant_iff. intros (? & ? & ? & I & E & D) (? & ? & ? & I' & E' & D').
  rewrite I in I'. injection I' as <-. rewrite E in E'. injection E' as <- <-.
  rewrite D in D'. by injection D'.
Qed.

Lemma names_instant_app text keyword instant more :
  at_line_start text -> names_instant text keyword instant -> names_instant (text ++ more) keyword instant.
Proof.
  intros L (args & date & time & m & I & R). exists args, date, time, m. split; [|done].
  by apply has_item_app.
Qed.

Lemma certified text signed_end :
  line_end_after text (B "dir-key-certification") = Some signed_end ->
  let signed := slice_to text signed_end in
  let after := slice_from text signed_end in
  text = signed ++ after /\ certified_part text signed after /\ at_line_start signed.
Proof.
  intros E. apply line_end_splits in E as (pre & eol & after & F & He & S & A).
  2: { by apply (bool_decide_unpack (NL ∉ B "dir-key-certification")). }
  cbn zeta. rewrite S, A. split_and!.
  - destruct F as (-> & _). by rewrite <- !app_assoc.
  - by exists pre, eol.
  - right. by rewrite !app_assoc, last_snoc.
Qed.

Lemma parse_text `{Crypto} text now c : KeyCertificate.parse text now = Ok c -> KeyCertificate.text c = text.
Proof.
  unfold KeyCertificate.parse, KeyCertificate.fixed. intros E. res_inv. b2p.
  repeat match goal with a : _ * _ |- _ => destruct a end. res_inv. by subst c.
Qed.

Lemma parse_vouches `{Crypto} text now c : KeyCertificate.parse text now = Ok c -> vouches c now.
Proof.
  intros P. pose proof (parse_text _ _ _ P) as Ht. revert P.
  unfold KeyCertificate.parse, KeyCertificate.fixed, KeyCertificate.date_and_time. intros E. res_inv.
  repeat match goal with a : _ * _ |- _ => destruct a end. res_inv.
  repeat match goal with H : bytes_eqb _ _ = true |- _ => apply bytes_eqb_true in H end. b2p.
  subst. set (text := KeyCertificate.text c) in *.
  match goal with H : KeyCertificate.Mk _ _ _ _ = c |- _ => rename H into Hc end.
  match goal with H : line_end_after _ _ = Some ?e |- _ =>
    destruct (certified _ _ H) as (Et & Ep & El); set (signed := slice_to text e) in *;
    set (after := slice_from text e) in * end.
  match goal with H : object after _ = Ok ?s |- _ => rename s into signature; apply object_armored in H end.
  match goal with H : parse_datetime ?d (hd ?t _) = Ok ?x |- _ => rename x into expires;
    assert (names_instant text (B "dir-key-expires") expires) end.
  { apply names_instant_iff. do 3 eexists. split_and!; [eassumption| |eassumption]. congruence. }
  repeat match goal with
  | H : KeyCertificate.key_object _ _ _ = Ok _ |- _ => apply key_object_names in H
  | H : item _ _ = Some _ |- _ => apply item_has_item in H end.
  unfold vouches. fold text. rewrite <- Hc. cbn [KeyCertificate.v3ident KeyCertificate.signing_key KeyCertificate.signing_key_digest].
  eexists _, signed, after, signature, expires, _. split_and!; try eassumption; try done.
  - intros key Hk. apply (names_key_app _ _ _ after) in Hk. rewrite <- Et in Hk.
    by apply (names_key_unique text (B "dir-signing-key")).
  - intros x Hx. apply (names_instant_app _ _ _ after) in Hx; [|done]. rewrite <- Et in Hx.
    by apply (names_instant_unique text (B "dir-key-expires")).
Qed.

Lemma certificates_vouch `{Crypto} fuel rest now :
  Forall (fun c => vouches c now /\ is_authority (KeyCertificate.v3ident c) = true)
    (parse_key_certificates_from fuel rest now).
Proof.
  revert rest. induction fuel as [|fuel IH]; intros rest;
    cbn [parse_key_certificates_from]; [constructor|].
  destruct (line_start_of _ _); [|constructor]. destruct (find _ _); [|constructor].
  destruct (KeyCertificate.parse _ _) as [c|] eqn:P; [|apply IH].
  destruct (is_authority _) eqn:A; [|apply IH]. constructor; [|apply IH].
  split; [exact (parse_vouches _ _ _ P)|done].
Qed.

(** ** Certificates through the cache *)

(** The first certificate with each pair of keys, in order. *)
Fixpoint distinct_from (certs : list KeyCertificate.t) (seen : list (bytes * bytes)) : list KeyCertificate.t :=
  match certs with
  | [] => []
  | c :: certs =>
      let key := (KeyCertificate.v3ident c, KeyCertificate.signing_key_digest c) in
      if bool_decide (key ∈ seen) then distinct_from certs seen
      else c :: distinct_from certs (seen ++ [key])
  end.
Definition distinct (certs : list KeyCertificate.t) : list KeyCertificate.t := distinct_from certs [].

Definition VERSION_KEYWORD : bytes := B "dir-key-certificate-version".

(** The text of a certificate as the parser cuts it out: from its first line
    to the first end of a signature. *)
Record text_ok `{Crypto} (now : Z) (c : KeyCertificate.t) : Prop := {
  text_starts : starts_with (KeyCertificate.text c) VERSION_KEYWORD = true;
  text_ends : exists x, KeyCertificate.text c = x ++ END_SIGNATURE /\
    find (KeyCertificate.text c) END_SIGNATURE = Some (len x);
  text_parses : KeyCertificate.parse (KeyCertificate.text c) now = Ok c;
  text_trusted : is_authority (KeyCertificate.v3ident c) = true;
}.

Lemma find_from_app i s p y j : find_from i s p = Some j -> find_from i (s ++ y) p = Some j.
Proof.
  revert i. induction s as [|b s IH]; intros i; cbn [find_from app].
  - destruct (starts_with [] p) eqn:S; [|done]. intros [= <-].
    apply starts_with_iff in S as [r S]. symmetry in S. apply app_eq_nil in S as [-> ->].
    by destruct y.
  - destruct (starts_with (b :: s) p) eqn:S.
    + intros [= <-]. apply starts_with_iff in S as [r S].
      assert (starts_with (b :: s ++ y) p = true) as ->; [|done].
      apply starts_with_iff. exists (r ++ y). by rewrite app_comm_cons, S, <- app_assoc.
    + intros E. destruct (starts_with (b :: s ++ y) p) eqn:S2; [|by apply IH].
      exfalso. pose proof (find_from_range _ _ _ _ E) as R. apply starts_with_iff in S2 as [r S2].
      pose proof (proj1 (starts_with_false _ _) S) as N. rewrite app_comm_cons in S2. pose proof (f_equal (take (length (b :: s))) S2) as T.
      rewrite take_app_length, take_app_ge in T by (unfold len in R; cbn [length]; lia).
      by apply (N (take (length (b :: s) - length p) r)).
Qed.

(** A first occurrence is still the first one when the text is cut after it. *)
Lemma find_from_cut i s p j :
  find_from i s p = Some j -> exists x y, s = x ++ p ++ y /\ j = i + len x /\
    find_from i (x ++ p) p = Some j.
Proof.
  revert i. induction s as [|b s IH]; intros i E; cbn [find_from] in E.
  - destruct (starts_with [] p) eqn:S; [|done]. injection E as <-.
    apply starts_with_iff in S as [r S]. exists [], r. cbn [app]. split_and!; [done|by rewrite Z.add_0_r|].
    pose proof (find_from_here i p []) as F. by rewrite app_nil_r in F.
  - destruct (starts_with (b :: s) p) eqn:S.
    + injection E as <-. apply starts_with_iff in S as [r S]. exists [], r. cbn [app].
      split_and!; [done|by rewrite Z.add_0_r|]. pose proof (find_from_here i p []) as F. by rewrite app_nil_r in F.
    + destruct (IH _ E) as (x & y & -> & -> & F). exists (b :: x), y. split_and!; [done|rewrite len_cons; lia|].
      cbn [app find_from]. assert (starts_with (b :: x ++ p) p = false) as ->; [|done].
      apply starts_with_false. intros r Hr. apply (proj1 (starts_with_false _ _) S (r ++ y)).
      by rewrite (app_assoc x), app_comm_cons, Hr, <- app_assoc.
Qed.

Lemma keyword_has_no_end rest : forall k, (k < length VERSION_KEYWORD)%nat ->
  starts_with (drop k VERSION_KEYWORD ++ rest) END_SIGNATURE = false.
Proof.
  assert (A : Forall (fun k => forall rest, starts_with (drop k VERSION_KEYWORD ++ rest) END_SIGNATURE = false)
                (seq 0 (length VERSION_KEYWORD))) by (repeat constructor).
  intros k Hk. rewrite Forall_forall in A. apply A, elem_of_seq. lia.
Qed.

Lemma line_start_starts s k n : line_start_of s k = Some n -> starts_with (slice_from s n) k = true.
Proof.
  intros E. apply starts_with_iff. unfold line_start_of in E.
  destruct (starts_with s k) eqn:S.
  - injection E as <-. apply starts_with_iff in S. by unfold slice_from.
  - destruct (find s (NL :: k)) as [j|] eqn:F; [|done]. cbn [mbind option_bind] in E. injection E as <-.
    apply find_from_cut in F as (x & y & -> & -> & _). exists y. rewrite Z.add_0_l.
    replace (x ++ (NL :: k) ++ y) with ((x ++ [NL]) ++ k ++ y) by (by rewrite <- app_assoc).
    apply slice_from_app. by rewrite len_app.
Qed.

(** A piece of UTF-8 text between two one-byte characters is UTF-8. *)
Lemma utf8_piece x p b y :
  utf8_valid (x ++ (p ++ [b]) ++ y) = true -> (b <? 128) = true ->
  match p with c :: _ => (c <? 128) = true | [] => True end ->
  utf8_valid (p ++ [b]) = true /\ utf8_valid y = true.
Proof.
  intros V Hb Hp. rewrite <- app_assoc in V. cbn [app] in V. rewrite app_assoc, utf8_split in V by done.
  apply andb_prop in V as [V Hy]. split; [|done]. destruct p as [|c p].
  - cbn [app utf8_valid]. by rewrite Hb.
  - rewrite utf8_split in V by done. apply andb_prop in V as [_ V].
    change ((c :: p) ++ [b]) with ((c :: p) ++ b :: []). rewrite utf8_split by done.
    cbn [utf8_valid]. by rewrite Hp, V.
Qed.

Lemma certificates_text_ok `{Crypto} fuel rest now :
  Forall (fun c => text_ok now c /\ (utf8_valid rest = true -> utf8_valid (KeyCertificate.text c) = true))
    (parse_key_certificates_from fuel rest now).
Proof.
  revert rest. induction fuel as [|fuel IH]; intros rest;
    cbn [parse_key_certificates_from]; [constructor|]. fold VERSION_KEYWORD.
  destruct (line_start_of _ _) as [start|] eqn:L; [|constructor].
  pose proof (line_start_range _ _ _ L) as Rs. apply line_start_starts in L.
  set (body := slice_from rest start) in *. apply starts_with_iff in L as [k L].
  assert (Hr : rest = take (Z.to_nat start) rest ++ body) by (symmetry; apply take_drop).
  destruct (find body END_SIGNATURE) as [i|] eqn:F; [|constructor].
  pose proof F as F'. unfold find in F'. rewrite L, find_from_skip in F' by apply keyword_has_no_end.
  apply find_from_cut in F' as (x & y & -> & -> & Fx). rewrite Z.add_0_l in *.
  assert (Hx : body = (VERSION_KEYWORD ++ x) ++ END_SIGNATURE ++ y).
  { rewrite L. by rewrite <- app_assoc. }
  set (stop := _ + len END_SIGNATURE).
  assert (Hstop : stop = len ((VERSION_KEYWORD ++ x) ++ END_SIGNATURE)) by (unfold stop; rewrite !len_app; lia).
  assert (slice_to body stop = (VERSION_KEYWORD ++ x) ++ END_SIGNATURE) as Ht.
  { rewrite Hx, app_assoc. by apply slice_to_app. }
  assert (slice_from body stop = y) as Hy.
  { rewrite Hx, app_assoc. by apply slice_from_app. }
  assert (Hutf : utf8_valid rest = true ->
            utf8_valid ((VERSION_KEYWORD ++ x) ++ END_SIGNATURE) = true /\ utf8_valid y = true).
  { assert (E : (VERSION_KEYWORD ++ x) ++ END_SIGNATURE =
                ((VERSION_KEYWORD ++ x) ++ B "-----END SIGNATURE----") ++ [45]) by (by rewrite <- (app_assoc (_ ++ x))).
    intros V. rewrite Hr, Hx, (app_assoc (VERSION_KEYWORD ++ x)), E in V. rewrite E.
    eapply utf8_piece; [exact V|done|done]. }
  rewrite Ht, Hy. specialize (IH y).
  assert (IH' : Forall (fun c => text_ok now c /\ (utf8_valid rest = true -> utf8_valid (KeyCertificate.text c) = true))
                  (parse_key_certificates_from fuel y now)).
  { eapply Forall_impl; [exact IH|]. intros c [T U]. split; [done|]. intros V. apply U. by apply Hutf. }
  destruct (KeyCertificate.parse _ _) as [c|] eqn:P; [|done].
  destruct (is_authority _) eqn:A; [|done]. constructor; [|done].
  pose proof (parse_text _ _ _ P) as T. split; [|rewrite T; intros V; by apply Hutf].
  split; [|exists (VERSION_KEYWORD ++ x)|by rewrite T|done]; rewrite T.
  - apply starts_with_iff. exists (x ++ END_SIGNATURE). by rewrite <- app_assoc.
  - split; [done|]. unfold find. rewrite <- app_assoc, find_from_skip by apply keyword_has_no_end.
    rewrite Z.add_0_l, Fx. f_equal. rewrite len_app. lia.
Qed.

(** A certificate is found at the start of a text, and after a newline. *)
Lemma line_start_here p k s : (p = [] \/ p = [NL]) -> starts_with s k = true ->
  match k with b :: _ => b <> NL | [] => False end -> line_start_of (p ++ s) k = Some (len p).
Proof.
  intros [-> | ->] S Hk; unfold line_start_of; cbn [app]; [by rewrite S|].
  assert (starts_with (NL :: s) k = false) as ->.
  { destruct k as [|b k]; [done|]. unfold starts_with. cbn [strip_prefix].
    by rewrite (proj2 (Z.eqb_neq b NL)). }
  apply starts_with_iff in S as [r ->]. unfold find.
  change (NL :: k ++ r) with ((NL :: k) ++ r). by rewrite find_from_here.
Qed.

Lemma serialize_parses `{Crypto} now certs : Forall (text_ok now) certs -> forall p seen fuel,
  (p = [] \/ p = [NL]) -> (length (distinct_from certs seen) < fuel)%nat ->
  parse_key_certificates_from fuel (p ++ serialize_from certs seen) now = distinct_from certs seen.
Proof.
  induction 1 as [|c certs Hc F IH]; intros p seen fuel Hp Hf.
  { destruct fuel; [done|]. cbn [serialize_from distinct_from parse_key_certificates_from].
    by destruct Hp as [-> | ->]. }
  cbn [serialize_from distinct_from] in *. case_bool_decide as Hs; [by apply IH|]. cbn [length] in Hf.
  destruct fuel as [|fuel]; [lia|]. destruct Hc as [Hst (x & Ht & Hx) P A].
  assert (trim_end (KeyCertificate.text c) = KeyCertificate.text c) as ->.
  { rewrite Ht. change END_SIGNATURE with (B "-----END SIGNATURE----" ++ [45]).
    rewrite app_assoc. apply trim_end_plain. unfold plain. lia. }
  cbn [parse_key_certificates_from]. set (more := [NL] ++ _).
  assert (starts_with (KeyCertificate.text c ++ more) VERSION_KEYWORD = true) as S.
  { apply starts_with_iff in Hst as [r ->]. apply starts_with_iff. exists (r ++ more). by rewrite <- app_assoc. }
  fold VERSION_KEYWORD. rewrite (line_start_here p _ _ Hp S) by done. rewrite slice_from_app by done.
  unfold find in *. rewrite (find_from_app _ _ _ more _ Hx).
  assert (len x + len END_SIGNATURE = len (KeyCertificate.text c)) as Hl by (rewrite Ht, len_app; done).
  rewrite Hl, slice_to_app, slice_from_app, P, A by done. f_equal. apply IH; [by right|lia].
Qed.

Lemma serialize_utf8 `{Crypto} now certs : Forall (fun c => utf8_valid (KeyCertificate.text c) = true) certs ->
  Forall (text_ok now) certs -> forall seen, utf8_valid (serialize_from certs seen) = true.
Proof.
  induction 1 as [|c certs V F IH]; intros G seen; [done|]. inversion_clear G as [|? ? T G'].
  cbn [serialize_from]. case_bool_decide; [by apply IH|]. destruct T as [_ (x & Ht & _) _ _].
  assert (trim_end (KeyCertificate.text c) = KeyCertificate.text c) as ->.
  { rewrite Ht. change END_SIGNATURE with (B "-----END SIGNATURE----" ++ [45]).
    rewrite app_assoc. apply trim_end_plain. unfold plain. lia. }
  rewrite utf8_app_ok by done. cbn [app utf8_valid]. by apply IH.
Qed.

Lemma serialize_len certs seen :
  (length (distinct_from certs seen) <= length (serialize_from certs seen))%nat.
Proof.
  revert seen. induction certs as [|c certs IH]; intros seen; [done|].
  cbn [serialize_from distinct_from]. case_bool_decide; [apply IH|]. cbn [length].
  rewrite !length_app. cbn [length]. etrans; [apply le_n_S, IH|]. lia.
Qed.

(** Parsing what [serialize] wrote gives back every certificate, one for each
    pair of keys. *)
Lemma certificates_read_back `{Crypto} text now :
  utf8_valid text = true ->
  let certs := parse_key_certificates text now in
  parse_key_certificates (from_utf8_lossy (serialize certs)) now = distinct certs.
Proof.
  intros V certs. pose proof (certificates_text_ok (S (length text)) text now) as F.
  fold (parse_key_certificates text now) in F. fold certs in F.
  assert (F1 : Forall (text_ok now) certs) by (eapply Forall_impl; [exact F|by intros c [? _]]).
  assert (F2 : Forall (fun c => utf8_valid (KeyCertificate.text c) = true) certs)
    by (eapply Forall_impl; [exact F|intros c [_ U]; by apply U]).
  rewrite lossy_valid by (by eapply serialize_utf8).
  unfold parse_key_certificates. apply (serialize_parses now certs F1 [] []); [by left|].
  unfold serialize. pose proof (serialize_len certs []). lia.
Qed.
