(* ===== verification/Diff.v ===== *)
(** * Consensus diffs ([src/src/tor/dir/diff.rs])

    The limited ed-style diffs a cache may answer with.  A document is its
    list of lines and whether it ended with a newline.  The theorem says that
    [apply], which assembles the result from the back in one pass over the
    base, does what an editor would that ran the commands one after the other
    on the whole document. *)
From S2P Require Import Prelude.
From S2P Require Import Text.
From S2P Require Import Crypto.
From S2P Require Import Util.
From S2P Require Import Netdoc.
From S2P Require Import Consensus.

Definition VERSION_LINE : bytes := B "network-status-diff-version 1".

Definition split_lines (text : bytes) : list bytes * bool :=
  match strip_suffix [NL] text with
  | Some body => (split NL body, true)
  | None => match text with [] => ([], false) | _ => (split NL text, false) end
  end.

Definition join_lines (ls : list bytes) (trailing_newline : bool) : bytes :=
  match ls with
  | [] => []
  | _ => join NL ls ++ (if trailing_newline then [NL] else [])
  end.

Section digests.
Context `{Crypto}.

Definition document_digest (text : bytes) : bytes := hex_encode (sha3_256 text).

Definition signed_part_digest (text : bytes) : bytes :=
  let stop := match signed_length text with Ok n => n | Err _ => len text end in
  hex_encode (sha3_256 (slice_to text stop)).
End digests.

Definition is_digest (s : bytes) : bool :=
  match hex_decode s with Ok b => len b =? 32 | Err _ => false end.

Definition parse_hash_line (line : bytes) : result (bytes * bytes) :=
  let bad := invalid_data "consensus diff has a bad hash line {line:?}" in
  args ← ok_or (item_args line (B "hash")) bad;
  match split SP args with
  | [from; to] => if is_digest from && is_digest to then Ok (from, to) else Err bad
  | _ => Err bad
  end.

Inductive Action := Delete | Change | Append.

(** [stop] is the source's [end], inclusive. *)
Record Command := MkCommand {
  text : bytes; start : Z; stop : Z; action : Action; insert : list bytes }.

(** [usize::from_str] after the checks. *)
Definition parse_address (field : bytes) (last : Z) : option Z :=
  if bytes_eqb field (B "$") then Some last
  else
    match field with
    | [] => None
    | _ => if negb (forallb is_ascii_digit field) then None else parse_uint U64_MAX field
    end.

Definition action_of (text : bytes) : option Action :=
  match rev text with
  | b :: _ => if b =? 100 then Some Delete
              else if b =? 99 then Some Change
              else if b =? 97 then Some Append else None
  | [] => None
  end.

Definition is_append (a : Action) : bool := match a with Append => true | _ => false end.
Definition is_delete (a : Action) : bool := match a with Delete => true | _ => false end.

Definition parse_range (addresses : bytes) (act : Action) (last : Z) : option (Z * Z) :=
  match split_once 44 addresses with
  | Some (first, second) =>
      if is_append act then None
      else start ← parse_address first last; stop ← parse_address second last; Some (start, stop)
  | None => only ← parse_address addresses last; Some (only, only)
  end.

(** The block of an [a] or a [c]: the lines before the terminator, and what
    follows it. *)
Fixpoint parse_block (ls : list bytes) : result (list bytes * list bytes) :=
  match ls with
  | [] => Err (invalid_data "consensus diff block after {text:?} has no (.) terminator")
  | line :: ls =>
      if bytes_eqb line (B ".") then Ok ([], ls)
      else
        let dotted_blank :=
          match strip_prefix (B ".") line with
          | Some (b :: rest) => forallb is_ascii_whitespace (b :: rest)
          | _ => false
          end in
        if dotted_blank then Err (invalid_data "consensus diff inserts a dotted blank line")
        else '(block, rest) ← parse_block ls; Ok (line :: block, rest)
  end.

(** One command and its block; [cursor] is the rest of the diff's lines. *)
Definition parse_command (text : bytes) (cursor : list bytes) (last : Z)
    : result (Command * list bytes) :=
  let bad := invalid_data "unsupported consensus diff command {text:?}" in
  act ← ok_or (action_of text) bad;
  '(start, stop) ← ok_or (parse_range (slice_to text (len text - 1)) act last) bad;
  if (stop <? start) || ((start =? 0) && negb (is_append act)) then Err bad
  else
    '(insert, cursor) ← (if negb (is_delete act) then parse_block cursor else Ok ([], cursor));
    Ok (MkCommand text start stop act insert, cursor).

(** The loop over the commands: [kept] holds the result reversed, and [j] is
    how much of the base is untouched.  Every command takes at least its own
    line, so the diff's length is fuel enough. *)
Fixpoint run_commands (fuel : nat) (cursor : list bytes) (base : list bytes) (j : Z)
    (kept : list bytes) : result (Z * list bytes) :=
  match fuel, cursor with
  | O, _ | _, [] => Ok (j, kept)
  | S fuel, text :: cursor =>
      '(command, cursor) ← parse_command text cursor (len base);
      if len base <? stop command then
        Err (invalid_data "consensus diff command {:?} runs past the end of a {}-line document")
      else if j <? stop command then
        Err (invalid_data "consensus diff command {:?} is not in descending line order")
      else
        let kept := kept ++ rev (slice base (stop command) j) in
        let kept := kept ++ rev (insert command) in
        let j := match action command with
                 | Append => start command
                 | Delete | Change => start command - 1
                 end in
        run_commands fuel cursor base j kept
  end.

Definition apply `{Crypto} (base diff : bytes) : result bytes :=
  let '(diff_lines, _) := split_lines diff in
  match diff_lines with
  | version :: cursor =>
      if negb (bytes_eqb version VERSION_LINE)
      then Err (invalid_data "not a consensus diff: no version 1 header")
      else
        match cursor with
        | [] => Err (invalid_data "consensus diff ends after its header")
        | hash_line :: cursor =>
            '(from, to) ← parse_hash_line hash_line;
            if negb (eq_ignore_ascii_case from (signed_part_digest base))
            then Err (invalid_data "consensus diff is from {from}, but our consensus is {ours}")
            else
              let '(ls, trailing_newline) := split_lines base in
              '(j, kept) ← run_commands (length diff_lines) cursor ls (len ls) [];
              let kept := rev (kept ++ rev (slice_to ls j)) in
              let res := join_lines kept trailing_newline in
              if negb (eq_ignore_ascii_case to (document_digest res))
              then Err (invalid_data "consensus diff promised {to} but produced {digest}")
              else Ok res
        end
  | [] => Err (invalid_data "not a consensus diff: no version 1 header")
  end.

(** ** The editor *)

(** All the commands of a diff. *)
Fixpoint commands (fuel : nat) (cursor : list bytes) (last : Z) : result (list Command) :=
  match fuel, cursor with
  | O, _ | _, [] => Ok []
  | S fuel, text :: cursor =>
      '(command, cursor) ← parse_command text cursor last;
      rest ← commands fuel cursor last;
      Ok (command :: rest)
  end.

(** One command on the document as it stands. *)
Definition edit (doc : list bytes) (c : Command) : list bytes :=
  match action c with
  | Delete => slice_to doc (start c - 1) ++ slice_from doc (stop c)
  | Change => slice_to doc (start c - 1) ++ insert c ++ slice_from doc (stop c)
  | Append => slice_to doc (start c) ++ insert c ++ slice_from doc (start c)
  end.

(** The lines below a command are those later commands may address. *)
Definition below (c : Command) : Z :=
  match action c with Append => start c | Delete | Change => start c - 1 end.

Fixpoint descending (j : Z) (cs : list Command) : Prop :=
  match cs with [] => True | c :: cs => stop c <= j /\ descending (below c) cs end.

(** ** One pass and the editor agree *)

Lemma parse_address_nonneg field last v : 0 <= last -> parse_address field last = Some v -> 0 <= v.
Proof.
  intros Hl. unfold parse_address. destruct (bytes_eqb _ _); [by intros [= <-]|].
  destruct field as [|b field]; [done|]. destruct (negb _); [done|].
  intros E. apply parse_uint_bound in E. lia.
Qed.

(** A command that parses has a proper range. *)
Record command_ok (c : Command) : Prop := {
  co_range : 0 <= start c <= stop c;
  co_zero : start c = 0 -> action c = Append;
  co_append : action c = Append -> start c = stop c;
}.

Lemma parse_command_ok text cursor last c cursor' :
  0 <= last -> parse_command text cursor last = Ok (c, cursor') -> command_ok c.
Proof.
  intros Hl. unfold parse_command. destruct (action_of text) as [act|]; [|done].
  cbn [mbind result_bind ok_or]. destruct (parse_range _ _ _) as [[s e]|] eqn:R; [|done].
  cbn [mbind result_bind ok_or]. destruct (Z.ltb_spec e s); [done|]. cbn [orb].
  destruct ((s =? 0) && negb (is_append act)) eqn:Z0; [done|].
  destruct (if negb (is_delete act) then _ else _) as [[ins cur]|]; [|done].
  intros [= <- <-]. unfold parse_range in R.
  assert (Hs : 0 <= s /\ (is_append act = true -> s = e)).
  { destruct (split_once _ _) as [[first second]|].
    - destruct (is_append act); [done|].
      destruct (parse_address first last) as [a|] eqn:E1; [|done].
      destruct (parse_address second last) as [b|]; [|done]. injection R as <- <-.
      split; [by eapply parse_address_nonneg|done].
    - destruct (parse_address _ last) as [a|] eqn:E1; [|done]. injection R as <- <-.
      split; [by eapply parse_address_nonneg|done]. }
  destruct Hs as [Hs0 Hs1]. split; cbn.
  - lia.
  - intros ->. destruct act; done.
  - intros ->. by apply Hs1.
Qed.

Lemma slice_to_le {A} (l k : list A) a : a <= len l -> slice_to (l ++ k) a = slice_to l a.
Proof. intros H. unfold slice_to, len in *. apply take_app_le. lia. Qed.

Lemma slice_to_slice_to {A} (l : list A) a b : a <= b -> slice_to (slice_to l b) a = slice_to l a.
Proof. intros H. unfold slice_to. rewrite take_take. f_equal. lia. Qed.

Lemma len_slice_to {A} (l : list A) a : 0 <= a <= len l -> len (slice_to l a) = a.
Proof. intros H. unfold slice_to. rewrite len_take. lia. Qed.

(** What an edit sees of a document whose top is still the base's. *)
Lemma edit_prefix (base kept : list bytes) j c :
  0 <= j <= len base -> command_ok c -> stop c <= j ->
  edit (slice_to base j ++ kept) c =
    slice_to base (below c) ++ match action c with Delete => [] | _ => insert c end ++
      slice base (stop c) j ++ kept.
Proof.
  intros Hj [[R1 R2] R3 R4] Hs. pose proof (len_slice_to base j Hj) as L.
  assert (F : slice_from (slice_to base j ++ kept) (stop c) = slice base (stop c) j ++ kept).
  { unfold slice_from, slice_to, slice, len in *. rewrite drop_app_le by lia.
    rewrite skipn_firstn_comm. do 3 f_equal. lia. }
  assert (T : forall a, a <= stop c -> slice_to (slice_to base j ++ kept) a = slice_to base a).
  { intros a Ha. rewrite slice_to_le by lia. by rewrite slice_to_slice_to by lia. }
  unfold edit, below. destruct (action c) eqn:Ac.
  - by rewrite F, T by lia.
  - by rewrite F, T by lia.
  - rewrite (R4 eq_refl) in *. by rewrite F, T by lia.
Qed.

Lemma insert_of_delete text cursor last c cursor' :
  parse_command text cursor last = Ok (c, cursor') -> action c = Delete -> insert c = [].
Proof.
  unfold parse_command. destruct (action_of text) as [act|]; [|done].
  cbn [mbind result_bind ok_or]. destruct (parse_range _ _ _) as [[s e]|]; [|done].
  cbn [mbind result_bind ok_or]. destruct (_ || _)%bool; [done|].
  destruct act; cbn [is_delete negb].
  - by intros [= <- _].
  - destruct (parse_block cursor) as [[ins cur]|]; [|done]. cbn. by intros [= <- _].
  - destruct (parse_block cursor) as [[ins cur]|]; [|done]. cbn. by intros [= <- _].
Qed.

Lemma run_commands_iff fuel : forall cursor base j kept doc,
  0 <= j <= len base ->
  (exists j' kept', run_commands fuel cursor base j kept = Ok (j', kept') /\
     doc = slice_to base j' ++ rev kept') <->
  (exists cs, commands fuel cursor (len base) = Ok cs /\ descending j cs /\
     doc = fold_left edit cs (slice_to base j ++ rev kept)).
Proof.
  induction fuel as [|fuel IH]; intros cursor base j kept doc Hj.
  { cbn. split; [intros (j' & k' & [= <- <-] & ->); by exists []|].
    intros (cs & [= <-] & _ & ->). by exists j, kept. }
  destruct cursor as [|text cursor].
  { cbn. split; [intros (j' & k' & [= <- <-] & ->); by exists []|].
    intros (cs & [= <-] & _ & ->). by exists j, kept. }
  cbn [run_commands commands].
  destruct (parse_command text cursor (len base)) as [[c cursor']|e] eqn:P;
    [|split; [by intros (? & ? & ? & _)|by intros (? & ? & _)]].
  cbn [mbind result_bind]. pose proof (parse_command_ok _ _ _ _ _ (len_nonneg base) P) as Hc.
  assert (Eins : match action c with Delete => [] | _ => insert c end = insert c).
  { destruct (action c) eqn:Ac; [|done..]. symmetry. by eapply insert_of_delete. }
  destruct (Z.ltb_spec (len base) (stop c)) as [Hl|Hl].
  { split; [by intros (? & ? & ? & _)|]. intros (cs & E & D & _).
    destruct (commands fuel cursor' (len base)); [|done]. injection E as <-.
    destruct D as [D _]. lia. }
  destruct (Z.ltb_spec j (stop c)) as [Hjs|Hjs].
  { split; [by intros (? & ? & ? & _)|]. intros (cs & E & D & _).
    destruct (commands fuel cursor' (len base)); [|done]. injection E as <-.
    destruct D as [D _]. lia. }
  pose proof (edit_prefix base (rev kept) j c Hj Hc Hjs) as Ed. rewrite Eins in Ed.
  change (match action c with Append => start c | _ => start c - 1 end) with (below c).
  assert (Hb : 0 <= below c <= len base).
  { destruct Hc as [[R1 R2] R3 R4]. unfold below. destruct (action c) eqn:Ac; [| |lia].
    - assert (start c <> 0) by (intros E; specialize (R3 E); congruence). lia.
    - assert (start c <> 0) by (intros E; specialize (R3 E); congruence). lia. }
  rewrite IH by done. rewrite !rev_app_distr, !rev_involutive. split.
  - intros (cs & -> & D & ->). exists (c :: cs). cbn [mbind result_bind descending fold_left].
    rewrite Ed. by split_and!.
  - intros (cs & E & D & ->). destruct (commands fuel cursor' (len base)) as [cs'|]; [|done].
    injection E as <-. destruct D as [_ D]. exists cs'. cbn [fold_left]. rewrite Ed. by split_and!.
Qed.

Lemma parse_block_shorter ls : forall block rest,
  parse_block ls = Ok (block, rest) -> (length rest < length ls)%nat.
Proof.
  induction ls as [|line ls IH]; intros block rest; cbn [parse_block]; [done|].
  destruct (bytes_eqb line (B ".")); [intros [= _ <-]; cbn; lia|].
  destruct (match strip_prefix _ line with Some _ => _ | None => _ end); [done|].
  destruct (parse_block ls) as [[b r]|]; [|done]. intros [= _ <-].
  specialize (IH b r eq_refl). cbn. lia.
Qed.

Lemma parse_command_shorter text cursor last c cursor' :
  parse_command text cursor last = Ok (c, cursor') -> (length cursor' <= length cursor)%nat.
Proof.
  unfold parse_command. destruct (action_of text) as [act|]; [|done].
  cbn [mbind result_bind ok_or]. destruct (parse_range _ _ _) as [[s e]|]; [|done].
  cbn [mbind result_bind ok_or]. destruct (_ || _)%bool; [done|].
  destruct (negb (is_delete act)); [|by intros [= _ <-]].
  destruct (parse_block cursor) as [[ins cur]|] eqn:Pb; [|done]. cbn [mbind result_bind].
  intros [= _ <-]. apply parse_block_shorter in Pb. lia.
Qed.

(** More fuel than lines changes nothing: no command is left unread. *)
Lemma commands_fuel f : forall g cursor last,
  (length cursor <= f)%nat -> (length cursor <= g)%nat ->
  commands f cursor last = commands g cursor last.
Proof.
  induction f as [|f IH]; intros g cursor last Hf Hg.
  - destruct cursor; [by destruct g|cbn in Hf; lia].
  - destruct cursor as [|text cursor]; [by destruct g|]. destruct g as [|g]; [cbn in Hg; lia|].
    cbn [commands]. destruct (parse_command text cursor last) as [[c cursor']|] eqn:P; [|done].
    cbn [mbind result_bind]. apply parse_command_shorter in P. cbn in Hf, Hg.
    by rewrite (IH g) by lia.
Qed.

(** The script of a diff: its commands, all of them. *)
Definition script (cursor : list bytes) (last : Z) : result (list Command) :=
  commands (length cursor) cursor last.

(** What it means for a diff to turn one document into another. *)
Definition transforms `{Crypto} (base diff res : bytes) : Prop :=
  exists hash_line cursor nl from to cs,
    split_lines diff = (VERSION_LINE :: hash_line :: cursor, nl) /\
    parse_hash_line hash_line = Ok (from, to) /\
    eq_ignore_ascii_case from (signed_part_digest base) = true /\
    script cursor (len (fst (split_lines base))) = Ok cs /\
    descending (len (fst (split_lines base))) cs /\
    res = join_lines (fold_left edit cs (fst (split_lines base))) (snd (split_lines base)) /\
    eq_ignore_ascii_case to (document_digest res) = true.

Lemma slice_to_all {A} (l : list A) : slice_to l (len l) = l.
Proof. unfold slice_to, len. rewrite Nat2Z.id. apply firstn_all. Qed.

(** C21. A consensus diff is applied exactly when, and exactly as, an ed-style editor would: apply succeeds with a result if and only if the diff has the version line, a hash line whose first digest is (in any case) that of the base's signed part, commands of the limited format only, in descending line order and within the document, and the second digest is that of the result; and that result is what running every command in turn on the whole document, at its own addresses, produces. *)
Theorem apply_is_edit `{Crypto} base diff res :
  apply base diff = Ok res <-> transforms base diff res.
Proof.
  unfold apply, transforms. destruct (split_lines diff) as [dl nl].
  destruct dl as [|version cursor]; [by split; [|intros (? & ? & ? & ? & ? & ? & ? & _)]|].
  destruct (bytes_eqb version VERSION_LINE) eqn:V; cbn [negb]; cycle 1.
  { split; [done|]. intros (? & ? & ? & ? & ? & ? & [= -> -> ->] & _).
    by rewrite (proj2 (Authority.bytes_eqb_true _ _) eq_refl) in V. }
  apply Authority.bytes_eqb_true in V as ->.
  destruct cursor as [|hash_line cursor]; [by split; [|intros (? & ? & ? & ? & ? & ? & ? & _)]|].
  destruct (parse_hash_line hash_line) as [[from to]|] eqn:Hp; cbn [mbind result_bind]; cycle 1.
  { split; [done|]. intros (? & ? & ? & ? & ? & ? & [= <- <- <-] & Hp' & _). by rewrite Hp' in Hp. }
  destruct (eq_ignore_ascii_case from _) eqn:Hf; cbn [negb]; cycle 1.
  { split; [done|]. intros (? & ? & ? & ? & ? & ? & [= <- <- <-] & Hp' & Hf' & _).
    rewrite Hp' in Hp. injection Hp as -> ->. by rewrite Hf' in Hf. }
  destruct (split_lines base) as [ls tnl] eqn:Sb. cbn [fst snd].
  set (fuel := length _). unfold script.
  assert (Efuel : commands fuel cursor (len ls) = commands (length cursor) cursor (len ls))
    by (apply commands_fuel; unfold fuel; cbn; lia).
  set (final := fun doc => join_lines doc tnl).
  transitivity (exists doc, (exists j' kept', run_commands fuel cursor ls (len ls) [] = Ok (j', kept') /\
      doc = slice_to ls j' ++ rev kept') /\ res = final doc /\
      eq_ignore_ascii_case to (document_digest res) = true).
  - destruct (run_commands fuel cursor ls (len ls) []) as [[j kept]|]; cbn [mbind result_bind]; cycle 1.
    { split; [done|]. by intros (? & (? & ? & ? & _) & _). }
    rewrite rev_app_distr, rev_involutive. fold (final (slice_to ls j ++ rev kept)).
    destruct (eq_ignore_ascii_case to _) eqn:Ht; cbn [negb].
    + split; [intros [= <-]; eexists; split; [by exists j, kept|by split]|].
      intros (doc & (j' & k' & [= <- <-] & ->) & -> & _). done.
    + split; [done|]. intros (doc & (j' & k' & [= <- <-] & ->) & -> & Ht'). by rewrite Ht' in Ht.
  - split.
    + intros (doc & Hrun & -> & Ht). apply run_commands_iff in Hrun; [|pose proof (len_nonneg ls); lia].
      destruct Hrun as (cs & E & D & ->). cbn [rev] in *. rewrite app_nil_r, slice_to_all in *.
      rewrite Efuel in E. exists hash_line, cursor, nl, from, to, cs. by split_and!.
    + intros (? & ? & ? & ? & ? & cs & [= <- <- <-] & Hp' & Hf' & E & D & -> & Ht).
      rewrite Hp' in Hp. injection Hp as -> ->. eexists. split; [|by split].
      rewrite <- Efuel in E. apply run_commands_iff; [pose proof (len_nonneg ls); lia|].
      exists cs. cbn [rev]. by rewrite app_nil_r, slice_to_all.
Qed.

(** ** Diffs of UTF-8 text *)

Abbreviation utf8_lines := (Forall (fun l => utf8_valid l = true)).

Lemma utf8_join ws : utf8_valid (Text.join NL ws) = true <-> utf8_lines ws.
Proof.
  induction ws as [|w ws IH]; [by split|]. destruct ws as [|v ws].
  - cbn [Text.join]. split; [by intros; repeat constructor|by inversion 1].
  - rewrite join_cons, utf8_split, andb_true_iff, IH, (Forall_cons _ w) by done. done.
Qed.

Lemma utf8_split_lines text : utf8_valid text = true -> utf8_lines (fst (split_lines text)).
Proof.
  intros V. unfold split_lines. destruct (strip_suffix [NL] text) as [body|] eqn:S.
  - cbn [fst]. apply utf8_join. rewrite join_split. unfold strip_suffix in S.
    destruct (strip_prefix _ _) as [r|] eqn:P; [|done]. injection S as <-.
    apply strip_prefix_Some in P. apply (f_equal (@rev Z)) in P. rewrite rev_involutive, rev_app_distr in P.
    cbn in P. rewrite P in V. rewrite utf8_split in V by done. by apply andb_prop in V as [V _].
  - destruct text as [|b text]; [constructor|]. cbn [fst]. apply utf8_join. by rewrite join_split.
Qed.

Lemma utf8_join_lines ls nl : utf8_lines ls -> utf8_valid (join_lines ls nl) = true.
Proof.
  intros F. apply utf8_join in F. unfold join_lines. destruct ls as [|l ls]; [done|].
  rewrite utf8_app_ok by done. by destruct nl.
Qed.

Lemma parse_block_utf8 ls block rest :
  utf8_lines ls -> parse_block ls = Ok (block, rest) -> utf8_lines block /\ utf8_lines rest.
Proof.
  intros F. revert block rest. induction F as [|line ls Hl F IH]; intros block rest; cbn [parse_block]; [done|].
  destruct (bytes_eqb line _); [by intros [= <- <-]|]. case_match; [done|].
  destruct (parse_block ls) as [[b r]|]; [|done]. cbn [mbind result_bind]. intros [= <- <-].
  destruct (IH b r eq_refl). split; [by constructor|done].
Qed.

Lemma parse_command_utf8 text cursor last c rest :
  utf8_lines cursor -> parse_command text cursor last = Ok (c, rest) ->
  utf8_lines (insert c) /\ utf8_lines rest.
Proof.
  intros F E. unfold parse_command in E. destruct (action_of text) as [act|]; [|done].
  cbn [mbind result_bind ok_or] in E. destruct (parse_range _ _ _) as [[first final]|]; [|done].
  cbn [mbind result_bind ok_or] in E. case_match; [done|].
  destruct (if negb (is_delete act) then _ else _) as [[block rest']|] eqn:P; [|done].
  cbn [mbind result_bind] in E. injection E as <- <-. cbn [insert]. revert P.
  destruct (negb (is_delete act)); [by apply parse_block_utf8|by intros [= <- <-]].
Qed.

Lemma run_commands_utf8 fuel : forall cursor base j kept j' kept',
  utf8_lines cursor -> utf8_lines base -> utf8_lines kept ->
  run_commands fuel cursor base j kept = Ok (j', kept') -> utf8_lines kept'.
Proof.
  induction fuel as [|fuel IH]; intros cursor base j kept j' kept' Fc Fb Fk E; cbn [run_commands] in E;
    [by injection E as <- <-|]. destruct cursor as [|text cursor]; [by injection E as <- <-|].
  inversion_clear Fc as [|? ? _ Fc']. destruct (parse_command text cursor _) as [[c rest]|] eqn:P; [|done].
  cbn [mbind result_bind] in E. apply parse_command_utf8 in P as [Fi Fr]; [|done].
  case_match; [done|]. case_match; [done|]. eapply IH; [exact Fr|exact Fb| |exact E].
  rewrite !Forall_app. split_and!; [done| |].
  - apply Forall_rev. unfold slice. by apply Forall_take, Forall_drop.
  - by apply Forall_rev.
Qed.

(** A diff between UTF-8 texts gives UTF-8 text. *)
Lemma apply_utf8 `{Crypto} base diff res :
  utf8_valid base = true -> utf8_valid diff = true -> apply base diff = Ok res -> utf8_valid res = true.
Proof.
  intros Vb Vd E. apply utf8_split_lines in Vb, Vd. unfold apply in E.
  destruct (split_lines diff) as [[|version [|hash_line cursor]] nl]; [done|by destruct (negb _)|].
  destruct (negb _); [done|]. destruct (parse_hash_line hash_line) as [[from to]|]; [|done].
  cbn [mbind result_bind fst] in E, Vd. destruct (negb _); [done|].
  destruct (split_lines base) as [ls tnl]. cbn [fst] in Vb.
  destruct (run_commands _ _ _ _ _) as [[j kept]|] eqn:R; [|done]. cbn [mbind result_bind] in E.
  destruct (negb _); [done|]. injection E as <-. apply utf8_join_lines, Forall_rev, Forall_app.
  inversion_clear Vd as [|? ? _ Vd']. inversion_clear Vd' as [|? ? _ Vc]. split.
  - by eapply run_commands_utf8 in R.
  - apply Forall_rev. unfold slice_to. by apply Forall_take.
Qed.

(** ** A concrete diff *)
Module DiffDemo.
Import Toy.

Definition text (ls : list bytes) : bytes := join_lines ls true.
Definition base : bytes := text [B "line1"; B "line2"; B "line3"; B "line4"; B "line5"].
Definition result_text : bytes := text [B "line1"; B "extra"; B "line2"; B "line4"; B "last"].
Definition diff : bytes :=
  text ([VERSION_LINE; B "hash " ++ signed_part_digest base ++ [SP] ++ document_digest result_text]
        ++ [B "5c"; B "last"; B "."; B "3d"; B "1a"; B "extra"; B "."]).

Lemma apply_witness : apply base diff = Ok result_text /\ transforms base diff result_text.
Proof.
  assert (E : apply base diff = Ok result_text) by (by vm_compute).
  split; [exact E|]. by apply apply_is_edit.
Defined.
End DiffDemo.
