(* ===== verification/Prime25519.v ===== *)
(** * The prime [2^255 - 19]

    Pocklington's criterion over the Standard Library's [Zstar], and the chain
    of certificates that makes [2^255 - 19] a prime for the kernel.  Nothing
    here models the program: it is what [Ed25519Point] needs to speak of
    inverses, square roots and the Edwards addition law. *)
From Stdlib Require Import Zmod Zstar.
From Bignums Require Import BigN.
From S2P Require Import Prelude.

(** [a ^ e mod m] by repeated squaring, on machine words. *)
Fixpoint big_powmod (m a : BigN.t) (e : positive) : BigN.t :=
  match e with
  | xH => BigN.modulo a m
  | xO e => big_powmod m (BigN.modulo (BigN.mul a a) m) e
  | xI e => BigN.modulo (BigN.mul a (big_powmod m (BigN.modulo (BigN.mul a a) m) e)) m
  end.

Definition big (z : Z) : BigN.t := BigN.of_N (Z.to_N z).

Definition powm (m a e : Z) : Z :=
  match e with Z.pos e => BigN.to_Z (big_powmod (big m) (big a) e) | _ => 1 mod m end.

Lemma to_Z_big z : 0 <= z -> BigN.to_Z (big z) = z.
Proof. intros H. unfold big. by rewrite BigN.spec_of_N, Z2N.id. Qed.

Lemma big_powmod_spec m a e :
  0 < BigN.to_Z m ->
  BigN.to_Z (big_powmod m a e) = BigN.to_Z a ^ Z.pos e mod BigN.to_Z m.
Proof.
  intros Hm. revert a. induction e as [e IH|e IH|]; intros a; cbn [big_powmod].
  - rewrite BigN.spec_modulo, BigN.spec_mul, IH, BigN.spec_modulo, BigN.spec_mul.
    rewrite Pos2Z.inj_xI, Z.pow_add_r, Z.pow_mul_r, Z.pow_1_r, Z.pow_2_r by lia.
    rewrite Z.mod_pow_l, Z.mul_mod_idemp_r by lia. f_equal. ring.
  - rewrite IH, BigN.spec_modulo, BigN.spec_mul, Pos2Z.inj_xO, Z.pow_mul_r, Z.pow_2_r by lia.
    by rewrite Z.mod_pow_l.
  - by rewrite BigN.spec_modulo, Z.pow_1_r.
Qed.

Lemma powm_spec m a e : 0 < m -> 0 <= a -> 0 <= e -> powm m a e = a ^ e mod m.
Proof.
  intros Hm Ha He. destruct e as [|e|e]; [done| |lia]. unfold powm.
  rewrite big_powmod_spec, !to_Z_big by (rewrite ?to_Z_big by lia; lia). done.
Qed.

(** ** Prime divisors *)

#[export] Instance divide_dec a b : Decision (a | b).
Proof.
  refine (cast_if (decide (((b =? 0) || negb (a =? 0) && (b mod a =? 0))%bool = true)));
    destruct (Z.BoolSpec_divide a b); done.
Defined.

Lemma prime_divisor n : 1 < n -> exists q, Z.prime q /\ (q | n).
Proof.
  intros Hn. assert (Hn0 : 0 <= n) by lia. revert n Hn0 Hn.
  apply (Z_lt_induction (fun n => 1 < n -> exists q, Z.prime q /\ (q | n))). intros n IH Hn.
  destruct (decide (Forall (fun d => ~ (d | n)) (seqZ 2 (n - 2)))) as [F|F].
  - exists n. split; [|apply Z.divide_refl]. split; [done|]. intros d Hd.
    eapply (proj1 (Forall_forall _ _) F). apply elem_of_seqZ. lia.
  - apply not_Forall_Exists in F; [|intros d; apply _]. apply Exists_exists in F as (d & Hin & D).
    apply elem_of_seqZ in Hin. apply dec_stable in D.
    destruct (IH d) as (q & Hq & Dq); [lia..|]. exists q. split; [done|]. by etransitivity.
Qed.

Definition small_primeb (n : Z) : bool :=
  (1 <? n) && forallb (fun d => negb (n mod d =? 0)) (seqZ 2 (Z.sqrt n - 1)).

Lemma small_prime n : small_primeb n = true -> Z.prime n.
Proof.
  unfold small_primeb. intros H. apply andb_prop in H as [H1 H2]. b2p. split; [done|].
  pose proof (Z.sqrt_spec n ltac:(lia)) as H. cbv zeta in H.
  assert (Hno : forall d, 1 < d <= Z.sqrt n -> ~ (d | n)).
  { intros d Hd D. rewrite forallb_forall in H2. specialize (H2 d).
    rewrite <- list_elem_of_In, elem_of_seqZ in H2. specialize (H2 ltac:(lia)). b2p. apply H2.
    by apply Z.mod_divide; [lia|]. }
  intros d Hd [k Hk]. assert (1 < k) by (clear -Hd Hk; nia). destruct (decide (d <= Z.sqrt n)).
  - apply (Hno d); [lia|]. by exists k.
  - destruct (Z.le_gt_cases k (Z.sqrt n)).
    2: { pose proof (Z.sqrt_nonneg n).
         pose proof (Z.mul_le_mono_nonneg (Z.succ (Z.sqrt n)) k (Z.succ (Z.sqrt n)) d
           ltac:(lia) ltac:(lia) ltac:(lia) ltac:(lia)). lia. }
    apply (Hno k); [by split|]. exists d. rewrite Hk. ring.
Qed.

(** ** Pocklington's criterion *)

Definition prime_power_product (qs : list (Z * Z)) : Z :=
  foldr (fun qe acc => fst qe ^ snd qe * acc) 1 qs.

Lemma prime_divides_product q qs :
  Z.prime q -> Forall (fun qe => Z.prime (fst qe) /\ 0 <= snd qe) qs ->
  (q | prime_power_product qs) -> q ∈ map fst qs.
Proof.
  intros Hq. pose proof (Z.prime_ge_2 _ Hq).
  induction 1 as [|[r e] qs [Hr He] _ IH]; cbn.
  - intros D. apply Z.divide_1_r_nonneg in D; lia.
  - intros D. apply Z.divide_prime_mul in D; [|done]. destruct D as [D|D].
    + apply Z.divide_prime_pp in D; [|done..]. subst. left.
    + right. by apply IH.
Qed.

(** The exponents that take an element to one form an ideal. *)
Lemma pow_gcd_one m (b : Zstar.Zstar m) x y :
  Zstar.pow b x = Zstar.one -> Zstar.pow b y = Zstar.one ->
  Zstar.pow b (Z.gcd x y) = Zstar.one.
Proof.
  intros Hx Hy. destruct (Z.gcd_bezout x y (Z.gcd x y) eq_refl) as (u & v & <-).
  rewrite Zstar.pow_add_r, !(Z.mul_comm _ x), !(Z.mul_comm _ y), !Zstar.pow_mul_r, Hx, Hy.
  rewrite !Zstar.pow_1_l. by rewrite Zstar.mul_1_l.
Qed.

Section pocklington.
Context (n F a : Z) (qs : list (Z * Z)).
Hypothesis n_gt_1 : 1 < n.
Hypothesis F_product : F = prime_power_product qs.
Hypothesis F_pos : 0 < F.
Hypothesis qs_prime : Forall (fun qe => Z.prime (fst qe) /\ 0 <= snd qe) qs.
Hypothesis F_divides : (F | n - 1).
Hypothesis F_large : n < F * F.
Hypothesis a_fermat : a ^ (n - 1) mod n = 1.
Hypothesis a_generates :
  Forall (fun qe => Z.gcd (a ^ ((n - 1) / fst qe) - 1) n = 1) qs.

Lemma a_coprime r : (r | n) -> Z.coprime a r.
Proof.
  intros [k Hk]. apply Z.coprime_Bezout. pose proof (Z.div_mod (a ^ (n - 1)) n ltac:(lia)) as H.
  rewrite a_fermat in H.
  assert (E : a ^ (n - 1) = a ^ (n - 2) * a).
  { replace (n - 1) with (Z.succ (n - 2)) by lia. rewrite Z.pow_succ_r by lia. ring. }
  exists (a ^ (n - 2)), (- (k * (a ^ (n - 1) / n))). rewrite E in H at 1. lia.
Qed.

Lemma divisor_large r : Z.prime r -> (r | n) -> F < r.
Proof.
  intros Hr Hrn. pose proof (Z.prime_ge_2 _ Hr).
  pose (A := Zstar.of_Zmod (Zmod.of_Z r a)).
  assert (HA : Zstar.to_Zmod A = Zmod.of_Z r a).
  { apply Zstar.to_Zmod_of_Zmod. rewrite Zmod.to_Z_of_Z. apply Z.coprime_mod_l_iff.
    by apply a_coprime. }
  assert (Hpow : forall e, 0 <= e -> Zstar.pow A e = Zstar.one <-> a ^ e mod r = 1).
  { intros e He. rewrite <- (Zstar.to_Zmod_inj_iff (Zstar.pow A e)), Zstar.to_Zmod_pow, HA, Zstar.to_Zmod_1.
    rewrite <- Zmod.to_Z_inj_iff, Zmod.to_Z_pow_nonneg_r, Zmod.to_Z_of_Z, Z.mod_pow_l by done.
    by rewrite Zmod.to_Z_1_pos by lia. }
  destruct F_divides as [c Hc].
  assert (Hc0 : 0 <= c) by nia.
  pose (b := Zstar.pow A c).
  assert (HbF : Zstar.pow b F = Zstar.one).
  { unfold b. rewrite <- Zstar.pow_mul_r, <- Hc. apply Hpow; [lia|].
    pose proof (Z.div_mod (a ^ (n - 1)) n ltac:(lia)) as H0. rewrite a_fermat in H0.
    destruct Hrn as [k Hk]. rewrite H0. set (y := _ / n). rewrite Hk.
    replace (k * r * y + 1) with (1 + k * y * r) by ring. rewrite Z.mod_add by lia.
    by apply Z.mod_1_l; lia. }
  pose proof (Zstar.fermat b Hr) as Hbr. rewrite <- Z.sub_1_r in Hbr.
  assert (Hg : (F | r - 1)).
  { pose proof (pow_gcd_one _ b _ _ HbF Hbr) as G.
    pose proof (Z.gcd_nonneg F (r - 1)) as Hg0.
    destruct (Z.gcd_divide_l F (r - 1)) as [k Hk].
    assert (Z.gcd F (r - 1) = F) as <-; [|apply Z.gcd_divide_r].
    remember (Z.gcd F (r - 1)) as g eqn:Eg. clear Eg.
    destruct (decide (k = 1)) as [->|Hk1]; [lia|]. exfalso.
    destruct (prime_divisor k) as (q & Hq & [k' Hk']); [nia|].
    assert (Hin : q ∈ map fst qs).
    { apply prime_divides_product; [done..|]. rewrite <- F_product. exists (k' * g). lia. }
    apply list_elem_of_In, in_map_iff in Hin as ([q' e] & <- & Hin). cbn in *.
    pose proof (proj1 (Forall_forall _ _) a_generates _ (proj2 (list_elem_of_In _ _) Hin)) as Hgcd. cbn in Hgcd.
    pose proof (Z.prime_ge_2 _ Hq).
    assert (Hone : Zstar.pow A ((n - 1) / q') = Zstar.one).
    { assert (E : (n - 1) / q' = c * (g * k')).
      { rewrite Hc, Hk, Hk'. replace (c * (k' * q' * g)) with (c * (g * k') * q') by ring.
        by apply Z.div_mul; lia. }
      rewrite E, Zstar.pow_mul_r. fold b. by rewrite Zstar.pow_mul_r, G, Zstar.pow_1_l. }
    apply Hpow in Hone; [|apply Z.div_pos; lia].
    assert (D : (r | Z.gcd (a ^ ((n - 1) / q') - 1) n)).
    { apply Z.gcd_greatest; [|done]. apply Z.mod_divide; [lia|].
      rewrite Zminus_mod, Hone, Z.mod_1_l, Z.sub_diag by lia. by apply Z.mod_0_l; lia. }
    rewrite Hgcd in D. apply Z.divide_1_r_nonneg in D; lia. }
  apply Z.divide_pos_le in Hg; lia.
Qed.

Lemma pocklington : Z.prime n.
Proof.
  split; [done|]. intros d Hd [k Hk].
  assert (Hk1 : 1 < k) by nia.
  destruct (prime_divisor d) as (r & Hr & Dr); [lia|].
  destruct (prime_divisor k) as (s & Hs & Ds); [lia|].
  assert (F < r) by (apply divisor_large; [done|]; etransitivity; [done|]; by exists k).
  assert (F < s) by (apply divisor_large; [done|]; etransitivity; [done|]; exists d; lia).
  apply Z.divide_pos_le in Dr; [|lia]. apply Z.divide_pos_le in Ds; [|lia]. nia.
Qed.
End pocklington.

(** ** The certificates *)

(** The hypotheses of the criterion that evaluation decides. *)
Definition certificate (n a : Z) (qs : list (Z * Z)) : bool :=
  let F := prime_power_product qs in
  (1 <? n) && (0 <=? a) && (0 <? F) && ((n - 1) mod F =? 0) && (n <? F * F) &&
  forallb (fun qe => (1 <? fst qe) && (0 <=? snd qe)) qs &&
  (powm n a (n - 1) =? 1) &&
  forallb (fun qe => Z.gcd (powm n a ((n - 1) / fst qe) - 1) n =? 1) qs.

Lemma certified_prime n a qs :
  Forall (fun qe => Z.prime (fst qe)) qs -> certificate n a qs = true -> Z.prime n.
Proof.
  unfold certificate. intros Hp H. b2p. rename select (forallb _ qs = true) into Hgcd.
  rename select (forallb (fun _ => (_ && _)%bool) qs = true) into Hpos.
  rewrite forallb_forall in Hgcd, Hpos. apply (pocklington n (prime_power_product qs) a qs); try done.
  - apply Forall_forall. intros qe Hin. split; [exact (proj1 (Forall_forall _ _) Hp _ Hin)|].
    apply list_elem_of_In, Hpos in Hin. b2p. done.
  - apply Z.mod_divide; lia.
  - rewrite <- powm_spec by lia. done.
  - apply Forall_forall. intros qe Hin. apply list_elem_of_In in Hin.
    pose proof (Hpos _ Hin). apply Hgcd in Hin. b2p.
    rewrite powm_spec in Hin by (try apply Z.div_pos; lia).
    rewrite <- Z.gcd_mod_l, Zminus_mod_idemp_l, Z.gcd_mod_l in Hin. done.
Qed.

Ltac small_primes :=
  repeat (apply Forall_cons_2; [apply small_prime; by vm_compute|]); apply Forall_nil_2.

Lemma prime_8574133 : Z.prime 8574133.
Proof. apply (certified_prime _ 2 [(991, 1); (103, 1)]); [small_primes|by vm_compute]. Qed.

Lemma prime_1919519569386763 : Z.prime 1919519569386763.
Proof.
  apply (certified_prime _ 2 [(8574133, 1); (127, 1)]); [|by vm_compute].
  constructor; [apply prime_8574133|]. small_primes.
Qed.

Lemma prime_569003 : Z.prime 569003.
Proof. apply (certified_prime _ 2 [(419, 1); (97, 1)]); [small_primes|by vm_compute]. Qed.

Lemma prime_2773320623 : Z.prime 2773320623.
Proof.
  apply (certified_prime _ 2 [(569003, 1)]); [|by vm_compute].
  constructor; [apply prime_569003|constructor].
Qed.

Lemma prime_72106336199 : Z.prime 72106336199.
Proof.
  apply (certified_prime _ 2 [(2773320623, 1)]); [|by vm_compute].
  constructor; [apply prime_2773320623|constructor].
Qed.

Lemma prime_116_bits : Z.prime 75445702479781427272750846543864801.
Proof.
  apply (certified_prime _ 2 [(1919519569386763, 1); (72106336199, 1)]); [|by vm_compute].
  constructor; [apply prime_1919519569386763|constructor; [apply prime_72106336199|constructor]].
Qed.

Lemma prime_430751 : Z.prime 430751.
Proof. apply (certified_prime _ 2 [(1723, 1)]); [small_primes|by vm_compute]. Qed.

Lemma prime_31757755568855353 : Z.prime 31757755568855353.
Proof.
  apply (certified_prime _ 2 [(430751, 1); (4153, 1)]); [|by vm_compute].
  constructor; [apply prime_430751|]. small_primes.
Qed.

Lemma prime_236_bits :
  Z.prime 74058212732561358302231226437062788676166966415465897661863160754340907.
Proof.
  apply (certified_prime _ 2
    [(75445702479781427272750846543864801, 1); (31757755568855353, 1)]); [|by vm_compute].
  constructor; [apply prime_116_bits|constructor; [apply prime_31757755568855353|constructor]].
Qed.

(** The modulus of the field. *)
Definition p25519 : Z := 2 ^ 255 - 19.

Lemma prime_25519 : Z.prime p25519.
Proof.
  apply (certified_prime _ 2
    [(74058212732561358302231226437062788676166966415465897661863160754340907, 1)]);
    [|by vm_compute].
  constructor; [apply prime_236_bits|constructor].
Qed.
