(* ===== verification/Field25519.v ===== *)
(** * The field [GF(2^255 - 19)] ([src/src/crypto/ed25519_point.rs], [Fe])

    Five limbs of 51 bits.  The operations are the source's, on machine words;
    the theorems relate each to the Standard Library's [Zmod] at the prime
    [p25519], whatever the build does with a word that overflows. *)
From Stdlib Require Import Zmod.
From S2P Require Import Prelude.
From S2P Require Import Prime25519.

(** What the build makes of a result that does not fit a [u64] or a [u128]
    (wrapping in release; a debug build panics).  All that is known is that a
    result in range is itself. *)
Class Machine := {
  u64 : Z -> Z;
  u128 : Z -> Z;
  u64_fits : forall z, 0 <= z < 18446744073709551616 -> u64 z = z;
  u128_fits : forall z, 0 <= z < 340282366920938463463374607431768211456 -> u128 z = z;
}.

(** The release build. *)
#[export] Instance wrapping : Machine := {
  u64 z := z mod 18446744073709551616;
  u128 z := z mod 340282366920938463463374607431768211456;
  u64_fits z := Z.mod_small z _;
  u128_fits z := Z.mod_small z _;
}.

(** [1 << 51] less one, and the shift by 51. *)
Definition MASK : Z := 2251799813685247.
Definition shr51 (z : Z) : Z := Z.shiftr z 51.
Definition mask (z : Z) : Z := Z.land z MASK.

Record Fe := MkFe { l0 : Z; l1 : Z; l2 : Z; l3 : Z; l4 : Z }.

Definition ZERO : Fe := MkFe 0 0 0 0 0.
Definition ONE : Fe := MkFe 1 0 0 0 0.
Definition D : Fe :=
  MkFe 929955233495203 466365720129213 1662059464998953 2033849074728123 1442794654840575.
Definition D2 : Fe :=
  MkFe 1859910466990425 932731440258426 1072319116312658 1815898335770999 633789495995903.
Definition SQRT_M1 : Fe :=
  MkFe 1718705420411056 234908883556509 2233514472574048 2117202627021982 765476049583133.

(** Little-endian integers: [u64::from_le_bytes] and its inverse. *)
Definition from_le (l : bytes) : Z := from_be (rev l).
Definition to_le (n : nat) (v : Z) : bytes := rev (to_be n v).

Definition word (bs : bytes) (at_ : Z) : Z := from_le (slice bs at_ (at_ + 8)).

Definition from_bytes (bs : bytes) : Fe :=
  MkFe (mask (word bs 0))
       (mask (Z.shiftr (word bs 6) 3))
       (mask (Z.shiftr (word bs 12) 6))
       (mask (Z.shiftr (word bs 19) 1))
       (mask (Z.shiftr (word bs 24) 12)).

(** [out[position / 8] |= 1 << (position % 8)]. *)
Definition set_bit (out : bytes) (position : nat) : bytes :=
  alter (fun b => Z.lor b (Z.shiftl 1 (Z.of_nat (position mod 8)))) (position / 8)%nat out.

(** The first [k] bits of one limb; the bits of all five. *)
Definition write_bits (k : nat) (out : bytes) (chunk : nat) (value : Z) : bytes :=
  fold_left (fun out bit =>
    if Z.land (Z.shiftr value (Z.of_nat bit)) 1 =? 1 then set_bit out (chunk + bit)%nat else out)
    (seq 0 k) out.

Definition write_limb : bytes -> nat -> Z -> bytes := write_bits 51.

Definition write_limbs (l : Fe) : bytes :=
  fold_left (fun out cv => write_limb out (fst cv) (snd cv))
    [(0%nat, l0 l); (51%nat, l1 l); (102%nat, l2 l); (153%nat, l3 l); (204%nat, l4 l)]
    (zeros 32).

Section operations.
Context `{M : Machine}.

Definition reduce (l : Fe) : Fe :=
  MkFe (u64 (mask (l0 l) + u64 (shr51 (l4 l) * 19)))
       (u64 (mask (l1 l) + shr51 (l0 l)))
       (u64 (mask (l2 l) + shr51 (l1 l)))
       (u64 (mask (l3 l) + shr51 (l2 l)))
       (u64 (mask (l4 l) + shr51 (l3 l))).

(** The carry out of a limb that takes in another's. *)
Definition carry_out (limb q : Z) : Z := shr51 (u64 (limb + q)).

(** The quotient by [p]. *)
Definition quotient (l : Fe) : Z :=
  carry_out (l4 l) (carry_out (l3 l) (carry_out (l2 l) (carry_out (l1 l) (carry_out (l0 l) 19)))).

(** The limbs once the quotient is taken off. *)
Definition canonical (l : Fe) : Fe :=
  let q := quotient l in
  let a0 := u64 (l0 l + u64 (19 * q)) in
  let a1 := u64 (l1 l + shr51 a0) in
  let a2 := u64 (l2 l + shr51 a1) in
  let a3 := u64 (l3 l + shr51 a2) in
  let a4 := u64 (l4 l + shr51 a3) in
  MkFe (mask a0) (mask a1) (mask a2) (mask a3) (mask a4).

Definition to_bytes (a : Fe) : bytes := write_limbs (canonical (reduce a)).

Definition add (a b : Fe) : Fe :=
  reduce (MkFe (u64 (l0 a + l0 b)) (u64 (l1 a + l1 b)) (u64 (l2 a + l2 b))
               (u64 (l3 a + l3 b)) (u64 (l4 a + l4 b))).

(** [16 * p], limb by limb. *)
Definition P16_0 : Z := Z.shiftl 16 51 - 16 * 19.
Definition P16_i : Z := Z.shiftl 16 51 - 16.

Definition sub (a b : Fe) : Fe :=
  reduce (MkFe (u64 (u64 (l0 a + P16_0) - l0 b)) (u64 (u64 (l1 a + P16_i) - l1 b))
               (u64 (u64 (l2 a + P16_i) - l2 b)) (u64 (u64 (l3 a + P16_i) - l3 b))
               (u64 (u64 (l4 a + P16_i) - l4 b))).

Definition neg (a : Fe) : Fe := sub ZERO a.

(** The sum of five products. *)
Definition dot (x0 y0 x1 y1 x2 y2 x3 y3 x4 y4 : Z) : Z :=
  u128 (u128 (u128 (u128 (u128 (x0 * y0) + u128 (x1 * y1)) + u128 (x2 * y2)) + u128 (x3 * y3))
        + u128 (x4 * y4)).

(** The carry chain over the five columns; [as u64] truncates. *)
Definition columns (c0 c1 c2 c3 c4 : Z) : Fe :=
  let o0 := mask c0 in
  let v1 := u128 (c1 + shr51 c0) in
  let v2 := u128 (c2 + shr51 v1) in
  let v3 := u128 (c3 + shr51 v2) in
  let v4 := u128 (c4 + shr51 v3) in
  let o0 := u64 (o0 + u64 ((shr51 v4) mod 18446744073709551616 * 19)) in
  MkFe (mask o0) (u64 (mask v1 + shr51 o0)) (mask v2) (mask v3) (mask v4).

Definition mul (a b : Fe) : Fe :=
  let b19_0 := u64 (l1 b * 19) in
  let b19_1 := u64 (l2 b * 19) in
  let b19_2 := u64 (l3 b * 19) in
  let b19_3 := u64 (l4 b * 19) in
  columns
    (dot (l0 a) (l0 b) (l4 a) b19_0 (l3 a) b19_1 (l2 a) b19_2 (l1 a) b19_3)
    (dot (l1 a) (l0 b) (l0 a) (l1 b) (l4 a) b19_1 (l3 a) b19_2 (l2 a) b19_3)
    (dot (l2 a) (l0 b) (l1 a) (l1 b) (l0 a) (l2 b) (l4 a) b19_2 (l3 a) b19_3)
    (dot (l3 a) (l0 b) (l2 a) (l1 b) (l1 a) (l2 b) (l0 a) (l3 b) (l4 a) b19_3)
    (dot (l4 a) (l0 b) (l3 a) (l1 b) (l2 a) (l2 b) (l1 a) (l3 b) (l0 a) (l4 b)).

Definition square (a : Fe) : Fe := mul a a.

Fixpoint pow2k (a : Fe) (k : nat) : Fe :=
  match k with O => a | S k => pow2k (square a) k end.

Definition pow22501 (a : Fe) : Fe * Fe :=
  let t0 := square a in
  let t1 := pow2k t0 2 in
  let t2 := mul a t1 in
  let t3 := mul t0 t2 in
  let t4 := square t3 in
  let t5 := mul t2 t4 in
  let t6 := pow2k t5 5 in
  let t7 := mul t6 t5 in
  let t8 := pow2k t7 10 in
  let t9 := mul t8 t7 in
  let t10 := pow2k t9 20 in
  let t11 := mul t10 t9 in
  let t12 := pow2k t11 10 in
  let t13 := mul t12 t7 in
  let t14 := pow2k t13 50 in
  let t15 := mul t14 t13 in
  let t16 := pow2k t15 100 in
  let t17 := mul t16 t15 in
  let t18 := pow2k t17 50 in
  (mul t18 t13, t3).

Definition invert (a : Fe) : Fe := let '(t19, t3) := pow22501 a in mul (pow2k t19 5) t3.

Definition pow_p58 (a : Fe) : Fe := let '(t19, _) := pow22501 a in mul (pow2k t19 2) a.

Definition equals (a b : Fe) : bool := bool_decide (to_bytes a = to_bytes b).
Definition is_zero (a : Fe) : bool := bool_decide (to_bytes a = zeros 32).
Definition is_negative (a : Fe) : bool := Z.land (byte_at (to_bytes a) 0) 1 =? 1.

(** [sqrt_ratio], which the source has beside [Point]. *)
Definition sqrt_ratio (u v : Fe) : option Fe :=
  let v3 := mul (square v) v in
  let v7 := mul (square v3) v in
  let candidate := mul (mul u v3) (pow_p58 (mul u v7)) in
  let check := mul v (square candidate) in
  if equals check u then Some candidate
  else if equals check (neg u) then Some (mul candidate SQRT_M1)
  else None.
End operations.

(** ** Limbs and values *)

Abbreviation F := (Zmod p25519).
Definition B51 : Z := 2251799813685248.
Definition val (a : Fe) : Z :=
  l0 a + B51 * (l1 a + B51 * (l2 a + B51 * (l3 a + B51 * l4 a))).

(** The field element five limbs stand for. *)
Definition eval (a : Fe) : F := Zmod.of_Z p25519 (val a).

(** The invariant of the source's comment: limbs below [2^52]. *)
Definition limb_ok (z : Z) : Prop := 0 <= z < 4503599627370496.
Record bounded (a : Fe) : Prop := MkBounded {
  ok_0 : limb_ok (l0 a); ok_1 : limb_ok (l1 a); ok_2 : limb_ok (l2 a);
  ok_3 : limb_ok (l3 a); ok_4 : limb_ok (l4 a);
}.

Lemma p25519_value :
  p25519 = 57896044618658097711785492504343953926634992332820282019728792003956564819949.
Proof. done. Qed.

Lemma mask_mod z : mask z = z mod B51.
Proof. unfold mask. change MASK with (Z.ones 51). by apply Z.land_ones. Qed.

Lemma shr51_div z : shr51 z = z / B51.
Proof. unfold shr51. by apply Z.shiftr_div_pow2. Qed.

(** A limb splits into its carry and what is left: name both. *)
Ltac split_limb z :=
  let q := fresh "q" in let r := fresh "r" in
  let E := fresh "E" in let Hr := fresh "Hr" in
  rewrite ?mask_mod, ?shr51_div;
  pose proof (Z.div_mod z B51 ltac:(done)) as E;
  pose proof (Z.mod_pos_bound z B51 ltac:(done)) as Hr;
  set (q := z / B51) in *; set (r := z mod B51) in *;
  clearbody q r.

Ltac limbs := unfold limb_ok, B51 in *; cbn [l0 l1 l2 l3 l4] in *.

Lemma eval_cong a b k : val a = val b + k * p25519 -> eval a = eval b.
Proof. intros H. unfold eval. rewrite H. apply Zmod.of_Z_inj. by rewrite Z.mod_add. Qed.

Lemma eval_is a x k : val a = x + k * p25519 -> eval a = Zmod.of_Z p25519 x.
Proof. intros H. unfold eval. rewrite H. apply Zmod.of_Z_inj. by rewrite Z.mod_add. Qed.

Lemma eval_number x y k : x = y + k * p25519 -> Zmod.of_Z p25519 x = Zmod.of_Z p25519 y.
Proof. intros ->. apply Zmod.of_Z_inj. by rewrite Z.mod_add. Qed.

Lemma Z_range_weaken x a b : 0 <= x < a -> a <= b -> 0 <= x < b.
Proof. lia. Qed.

#[export] Instance Zmod_eq_dec m : EqDecision (Zmod m).
Proof.
  intros x y. refine (cast_if (decide (Zmod.eqb x y = true)));
    destruct (Zmod.eqb_spec x y); done.
Defined.

Section words.
Context `{M : Machine}.

Lemma reduce_spec l :
  0 <= l0 l < 72057594037927936 -> 0 <= l1 l < 72057594037927936 -> 0 <= l2 l < 72057594037927936 ->
  0 <= l3 l < 72057594037927936 -> 0 <= l4 l < 72057594037927936 ->
  bounded (reduce l) /\ exists k, 0 <= k <= l4 l / B51 /\ val (reduce l) = val l - k * p25519.
Proof.
  destruct l as [a0 a1 a2 a3 a4]. unfold reduce, val. cbn [l0 l1 l2 l3 l4]. intros H0 H1 H2 H3 H4.
  split_limb a0. split_limb a1. split_limb a2. split_limb a3. split_limb a4. unfold B51 in *.
  rewrite !u64_fits by (rewrite ?u64_fits by lia; lia). split.
  - split; limbs; lia.
  - rewrite p25519_value. exists q3. lia.
Qed.

Lemma reduce_ok l :
  0 <= l0 l < 72057594037927936 -> 0 <= l1 l < 72057594037927936 -> 0 <= l2 l < 72057594037927936 ->
  0 <= l3 l < 72057594037927936 -> 0 <= l4 l < 72057594037927936 ->
  bounded (reduce l) /\ eval (reduce l) = eval l.
Proof.
  intros H0 H1 H2 H3 H4. destruct (reduce_spec l) as (Hb & k & _ & Hk); [done..|].
  split; [done|]. apply (eval_cong _ _ (- k)). lia.
Qed.

Ltac start_op a b :=
  let Ha := fresh "Ha" in let Hb := fresh "Hb" in
  intros Ha Hb; destruct a, b, Ha, Hb; limbs.

Lemma add_ok a b : bounded a -> bounded b ->
  bounded (add a b) /\ eval (add a b) = Zmod.add (eval a) (eval b).
Proof.
  start_op a b. unfold add. cbn [l0 l1 l2 l3 l4]. rewrite !u64_fits by lia.
  destruct (reduce_ok (MkFe (l5 + l10) (l6 + l11) (l7 + l12) (l8 + l13) (l9 + l14))) as [Hb E];
    cbn [l0 l1 l2 l3 l4]; try lia.
  split; [done|]. rewrite E. unfold eval. rewrite <- Zmod.of_Z_add. f_equal.
  unfold val. limbs. ring.
Qed.

Lemma sub_ok a b : bounded a -> bounded b ->
  bounded (sub a b) /\ eval (sub a b) = Zmod.sub (eval a) (eval b).
Proof.
  start_op a b. unfold sub. cbn [l0 l1 l2 l3 l4].
  change P16_0 with 36028797018963664. change P16_i with 36028797018963952.
  rewrite !u64_fits by (rewrite ?u64_fits by lia; lia).
  match goal with |- bounded (reduce ?f) /\ _ => destruct (reduce_ok f) as [Hb E] end;
    cbn [l0 l1 l2 l3 l4]; try lia.
  split; [done|]. rewrite E. unfold eval at 2 3. rewrite <- Zmod.of_Z_sub.
  apply (eval_is _ _ 16). unfold val. rewrite p25519_value. limbs. ring.
Qed.

Lemma mul_range x y X Y : 0 <= x <= X -> 0 <= y <= Y -> 0 <= x * y <= X * Y.
Proof. intros. split; [apply Z.mul_nonneg_nonneg; lia|apply Z.mul_le_mono_nonneg; lia]. Qed.

(** Drop the truncations, innermost first, as their arguments are seen to fit. *)
Ltac fits :=
  repeat match goal with
  | |- context [u128 ?z] =>
      lazymatch z with context [u128 _] => fail | _ => rewrite (u128_fits z) by lia end
  end.

(** Five products of a limb and a limb times nineteen: no [u128] overflows. *)
Lemma dot_ok x0 y0 x1 y1 x2 y2 x3 y3 x4 y4 :
  limb_ok x0 -> limb_ok x1 -> limb_ok x2 -> limb_ok x3 -> limb_ok x4 ->
  0 <= y0 < 85568392920039424 -> 0 <= y1 < 85568392920039424 -> 0 <= y2 < 85568392920039424 ->
  0 <= y3 < 85568392920039424 -> 0 <= y4 < 85568392920039424 ->
  dot x0 y0 x1 y1 x2 y2 x3 y3 x4 y4 = x0 * y0 + x1 * y1 + x2 * y2 + x3 * y3 + x4 * y4.
Proof.
  unfold limb_ok, dot. intros H0 H1 H2 H3 H4 K0 K1 K2 K3 K4.
  pose proof (mul_range x0 y0 4503599627370496 85568392920039424 ltac:(lia) ltac:(lia)).
  pose proof (mul_range x1 y1 4503599627370496 85568392920039424 ltac:(lia) ltac:(lia)).
  pose proof (mul_range x2 y2 4503599627370496 85568392920039424 ltac:(lia) ltac:(lia)).
  pose proof (mul_range x3 y3 4503599627370496 85568392920039424 ltac:(lia) ltac:(lia)).
  pose proof (mul_range x4 y4 4503599627370496 85568392920039424 ltac:(lia) ltac:(lia)).
  generalize dependent (x0 * y0). generalize dependent (x1 * y1). generalize dependent (x2 * y2).
  generalize dependent (x3 * y3). generalize dependent (x4 * y4). intros.
  fits. done.
Qed.

Lemma dot_range Y x0 y0 x1 y1 x2 y2 x3 y3 x4 y4 :
  limb_ok x0 -> limb_ok x1 -> limb_ok x2 -> limb_ok x3 -> limb_ok x4 ->
  0 <= y0 <= Y -> 0 <= y1 <= Y -> 0 <= y2 <= Y -> 0 <= y3 <= Y -> 0 <= y4 <= Y ->
  0 <= x0 * y0 + x1 * y1 + x2 * y2 + x3 * y3 + x4 * y4 < 5 * 4503599627370496 * (Y + 1).
Proof.
  unfold limb_ok. intros H0 H1 H2 H3 H4 K0 K1 K2 K3 K4.
  pose proof (mul_range x0 y0 4503599627370496 Y ltac:(lia) ltac:(lia)).
  pose proof (mul_range x1 y1 4503599627370496 Y ltac:(lia) ltac:(lia)).
  pose proof (mul_range x2 y2 4503599627370496 Y ltac:(lia) ltac:(lia)).
  pose proof (mul_range x3 y3 4503599627370496 Y ltac:(lia) ltac:(lia)).
  pose proof (mul_range x4 y4 4503599627370496 Y ltac:(lia) ltac:(lia)). lia.
Qed.

(** The carry chain keeps the value; the top column has no factor nineteen. *)
Lemma columns_ok c0 c1 c2 c3 c4 :
  0 <= c0 < 2 ^ 111 -> 0 <= c1 < 2 ^ 111 -> 0 <= c2 < 2 ^ 111 -> 0 <= c3 < 2 ^ 111 ->
  0 <= c4 < 2 ^ 107 ->
  bounded (columns c0 c1 c2 c3 c4) /\
  eval (columns c0 c1 c2 c3 c4) =
    Zmod.of_Z p25519 (c0 + B51 * (c1 + B51 * (c2 + B51 * (c3 + B51 * c4)))).
Proof.
  change (2 ^ 111) with 2596148429267413814265248164610048.
  change (2 ^ 107) with 162259276829213363391578010288128.
  unfold columns. intros H0 H1 H2 H3 H4. split_limb c0. rewrite (u128_fits (c1 + _)) by (limbs; lia).
  split_limb (c1 + q). rewrite (u128_fits (c2 + _)) by (limbs; lia).
  split_limb (c2 + q0). rewrite (u128_fits (c3 + _)) by (limbs; lia).
  split_limb (c3 + q1). rewrite (u128_fits (c4 + _)) by (limbs; lia).
  split_limb (c4 + q2).
  rewrite (Z.mod_small q3) by (limbs; lia). rewrite (u64_fits (q3 * 19)) by (limbs; lia).
  rewrite (u64_fits (r + _)) by (limbs; lia). split_limb (r + q3 * 19).
  rewrite u64_fits by (limbs; lia). split; [split; limbs; lia|].
  apply (eval_is _ _ (- q3)). unfold val. rewrite p25519_value. limbs. lia.
Qed.

Lemma mul_ok a b : bounded a -> bounded b ->
  bounded (mul a b) /\ eval (mul a b) = Zmod.mul (eval a) (eval b).
Proof.
  intros Ha Hb. unfold eval at 2 3. rewrite <- Zmod.of_Z_mul. revert Ha Hb.
  start_op a b. unfold mul. cbn [l0 l1 l2 l3 l4].
  rewrite !(u64_fits (_ * 19)) by lia. rewrite !dot_ok by (limbs; lia).
  match goal with |- bounded (columns ?c0 ?c1 ?c2 ?c3 ?c4) /\ _ =>
    destruct (columns_ok c0 c1 c2 c3 c4) as [Hb E] end.
  1-4: eapply Z_range_weaken; [apply (dot_range 85568392920039423); limbs; lia|done].
  1: eapply Z_range_weaken; [apply (dot_range 4503599627370495); limbs; lia|done].
  split; [done|]. rewrite E.
  match goal with |- Zmod.of_Z _ ?x = Zmod.of_Z _ ?y =>
    apply (eval_number x y (- (l6 * l14 + l7 * l13 + l8 * l12 + l9 * l11 + B51 * (l7 * l14 + l8 * l13 + l9 * l12)
      + B51 * B51 * (l8 * l14 + l9 * l13) + B51 * B51 * B51 * (l9 * l14)))) end.
  unfold val. rewrite p25519_value. limbs. ring.
Qed.
End words.

(** ** Little-endian integers *)

Lemma from_le_cons b l : from_le (b :: l) = b + 256 * from_le l.
Proof. unfold from_le. cbn [rev]. rewrite from_be_snoc. lia. Qed.

Lemma bytes_ok_rev l : bytes_ok l -> bytes_ok (rev l).
Proof. apply Forall_rev. Qed.

Lemma from_le_bound l : bytes_ok l -> 0 <= from_le l < 256 ^ len l.
Proof.
  intros H. unfold from_le. rewrite <- len_rev. apply from_be_bound. by apply bytes_ok_rev.
Qed.

Lemma to_le_from_le l : bytes_ok l -> to_le (length l) (from_le l) = l.
Proof.
  intros H. unfold to_le, from_le. rewrite <- length_rev, to_be_from_be; [apply rev_involutive|].
  by apply bytes_ok_rev.
Qed.

Lemma from_le_to_le n v : 0 <= v < 256 ^ Z.of_nat n -> from_le (to_le n v) = v.
Proof. intros H. unfold from_le, to_le. rewrite rev_involutive. by apply from_be_to_be_small. Qed.

Lemma bytes_ok_to_le n v : bytes_ok (to_le n v).
Proof. apply bytes_ok_rev, bytes_ok_to_be. Qed.

Lemma length_to_le n v : length (to_le n v) = n.
Proof. unfold to_le. by rewrite length_rev, length_to_be. Qed.

Lemma to_le_succ n v : to_le (S n) v = v mod 256 :: to_le n (v / 256).
Proof. unfold to_le. cbn [to_be]. by rewrite rev_app_distr. Qed.

Lemma from_le_drop n : forall l, bytes_ok l -> from_le (drop n l) = from_le l / 256 ^ Z.of_nat n.
Proof.
  induction n as [|n IH]; intros l Hl; [by rewrite Z.div_1_r|].
  destruct l as [|b l]; [by rewrite Z.div_0_l by lia|].
  apply Forall_cons in Hl as [Hb Hl]. cbn [drop]. rewrite IH, from_le_cons by done.
  rewrite Nat2Z.inj_succ, Z.pow_succ_r, <- Z.div_div by lia. f_equal. unfold is_u8 in Hb. dlia.
Qed.

Lemma from_le_take n : forall l, bytes_ok l -> from_le (take n l) = from_le l mod 256 ^ Z.of_nat n.
Proof.
  induction n as [|n IH]; intros l Hl; [by rewrite Z.mod_1_r|].
  destruct l as [|b l]; [by rewrite Z.mod_0_l by lia|].
  apply Forall_cons in Hl as [Hb Hl]. cbn [take]. rewrite !from_le_cons, IH by done.
  rewrite Nat2Z.inj_succ, Z.pow_succ_r by lia. unfold is_u8 in Hb.
  rewrite Z.rem_mul_r by lia. replace ((b + 256 * from_le l) / 256) with (from_le l) by dlia.
  replace ((b + 256 * from_le l) mod 256) with b by dlia. done.
Qed.

Lemma from_le_zeros n : from_le (replicate n 0) = 0.
Proof. induction n as [|n IH]; [done|]. cbn [replicate]. rewrite from_le_cons. lia. Qed.

(** Which bits are set, byte by byte. *)
Lemma testbit_from_le l n :
  bytes_ok l -> Z.testbit (from_le l) (Z.of_nat n) = Z.testbit (nth (n / 8) l 0) (Z.of_nat (n mod 8)).
Proof.
  intros Hl. revert n. induction Hl as [|b l Hb Hl IH]; intros n.
  - rewrite Z.testbit_0_l. destruct (n / 8)%nat; cbn; by rewrite Z.testbit_0_l.
  - rewrite from_le_cons. unfold is_u8 in Hb. destruct (decide (n < 8)%nat) as [Hn|Hn].
    + rewrite Nat.div_small, Nat.mod_small by done. cbn [nth].
      rewrite <- (Z.mod_pow2_bits_low (b + _) 8) by lia. change (2 ^ 8) with 256.
      f_equal. dlia.
    + replace n with (8 + (n - 8))%nat at 1 2 by lia. set (m := (n - 8)%nat).
      replace (8 + m)%nat with (m + 1 * 8)%nat by lia. rewrite Nat.div_add by lia.
      replace (Z.of_nat (m + 1 * 8)) with (Z.of_nat m + 8) by lia.
      rewrite <- Z.div_pow2_bits by lia. change (2 ^ 8) with 256.
      replace ((b + 256 * from_le l) / 256) with (from_le l) by dlia.
      rewrite IH, Nat.add_1_r. cbn [nth]. do 2 f_equal.
      unfold m. rewrite <- (Nat.Div0.mod_add (n - 8) 1 8). f_equal. lia.
Qed.

(** ** Writing the limbs out *)

Definition is_byte_string (out : bytes) : Prop := bytes_ok out /\ length out = 32%nat.

Lemma set_bit_ok out n :
  is_byte_string out -> (n < 256)%nat ->
  is_byte_string (set_bit out n) /\
  forall m, Z.testbit (from_le (set_bit out n)) (Z.of_nat m) =
    bool_decide (m = n) || Z.testbit (from_le out) (Z.of_nat m).
Proof.
  intros [Hok Hlen] Hn. unfold set_bit.
  assert (Hd : (n / 8 < length out)%nat).
  { rewrite Hlen. apply Nat.Div0.div_lt_upper_bound. lia. }
  destruct (lookup_lt_is_Some_2 out (n / 8)%nat Hd) as [b Hb].
  pose proof (Forall_lookup_1 _ _ _ _ Hok Hb) as Hbu. unfold is_u8 in Hbu.
  pose proof (Nat.mod_upper_bound n 8 ltac:(lia)) as Hm.
  set (f := fun b => Z.lor b (Z.shiftl 1 (Z.of_nat (n mod 8)))).
  assert (Hf : is_u8 (f b)).
  { unfold is_u8, f. split; [apply Z.lor_nonneg; split; [lia|apply Z.shiftl_nonneg; lia]|].
    change 256 with (2 ^ 8). apply Z.log2_lt_cancel. rewrite Z.log2_lor, Z.log2_pow2 by
      (try apply Z.shiftl_nonneg; lia). apply Z.max_lub_lt.
    - destruct (decide (b = 0)) as [->|]; [done|]. apply Z.log2_lt_pow2; lia.
    - rewrite Z.shiftl_1_l, Z.log2_pow2; lia. }
  assert (Hok' : bytes_ok (alter f (n / 8)%nat out)).
  { apply Forall_alter; [done|]. intros x Hx _. rewrite Hb in Hx. by injection Hx as <-. }
  split; [by split; [|rewrite length_alter]|]. intros m.
  rewrite !testbit_from_le by done. rewrite !nth_lookup.
  destruct (decide (m / 8 = n / 8)%nat) as [E|E].
  - rewrite E, list_lookup_alter, Hb. cbn [fmap option_fmap option_map default]. rewrite decide_True by done.
    unfold f. cbn [default id]. rewrite Z.lor_spec, Z.shiftl_1_l, Z.pow2_bits_eqb by lia. rewrite orb_comm. f_equal.
    pose proof (Nat.div_mod_eq m 8). pose proof (Nat.div_mod_eq n 8).
    destruct (Z.eqb_spec (Z.of_nat (n mod 8)) (Z.of_nat (m mod 8))); case_bool_decide; try done; lia.
  - rewrite list_lookup_alter_ne by done. case_bool_decide; [by subst|done].
Qed.

Lemma land_1_testbit v bit : (Z.land (Z.shiftr v (Z.of_nat bit)) 1 =? 1) = Z.testbit v (Z.of_nat bit).
Proof.
  change 1 with (Z.ones 1) at 1. rewrite Z.land_ones by lia. change (2 ^ 1) with 2.
  rewrite Z.testbit_eqb by lia. by rewrite Z.shiftr_div_pow2 by lia.
Qed.

(** The bits a limb has set so far: those of [value] below [k], moved up. *)
Lemma write_bits_ok value chunk k out :
  (chunk + k <= 256)%nat -> is_byte_string out ->
  is_byte_string (write_bits k out chunk value) /\
  forall m, Z.testbit (from_le (write_bits k out chunk value)) (Z.of_nat m) =
    (bool_decide (chunk <= m < chunk + k)%nat && Z.testbit value (Z.of_nat (m - chunk)))
    || Z.testbit (from_le out) (Z.of_nat m).
Proof.
  unfold write_bits. induction k as [|k IH]; intros Hk Hout.
  { split; [done|]. intros m. rewrite bool_decide_false by lia. done. }
  rewrite seq_S, fold_left_app. cbn [fold_left]. rewrite Nat.add_0_l.
  destruct (IH ltac:(lia) Hout) as [Hok Hbits].
  set (out' := fold_left _ (seq 0 k) out) in *. rewrite land_1_testbit.
  destruct (Z.testbit value (Z.of_nat k)) eqn:T.
  - destruct (set_bit_ok out' (chunk + k) Hok ltac:(lia)) as [Hok2 Hb2]. split; [done|].
    intros m. rewrite Hb2, Hbits. destruct (decide (m = chunk + k)%nat) as [->|Hm].
    + rewrite (bool_decide_true (chunk + k = _)%nat) by done.
      rewrite (bool_decide_true (chunk <= _ < chunk + S k)%nat) by lia.
      replace (chunk + k - chunk)%nat with k by lia. by rewrite T.
    + rewrite (bool_decide_false (m = _)) by done. cbn [orb]. do 2 f_equal.
      apply bool_decide_ext. lia.
  - split; [done|]. intros m. rewrite Hbits. destruct (decide (m = chunk + k)%nat) as [->|Hm].
    + replace (chunk + k - chunk)%nat with k by lia. by rewrite T, !andb_false_r.
    + do 2 f_equal. apply bool_decide_ext. lia.
Qed.

Lemma write_limb_ok out chunk value :
  is_byte_string out -> 0 <= value < B51 -> (chunk + 51 <= 256)%nat -> 
  from_le out < 2 ^ Z.of_nat chunk ->
  is_byte_string (write_limb out chunk value) /\
  from_le (write_limb out chunk value) = from_le out + 2 ^ Z.of_nat chunk * value.
Proof.
  intros Hout Hv Hc Hl. destruct (write_bits_ok value chunk 51 out Hc Hout) as [Hok Hb].
  unfold write_limb. split; [done|].
  pose proof (from_le_bound out (proj1 Hout)) as Hnn.
  apply Z.bits_inj'. intros n Hn. rewrite <- (Z2Nat.id n) by done. rewrite Hb.
  set (m := Z.to_nat n). rewrite Z.add_comm, (Z.mul_comm (2 ^ _)), <- Z.shiftl_mul_pow2 by lia.
  assert (L : Z.land (Z.shiftl value (Z.of_nat chunk)) (from_le out) = 0).
  { apply Z.bits_inj'. intros i Hi. rewrite Z.land_spec, Z.bits_0, Z.shiftl_spec by done.
    destruct (decide (i < Z.of_nat chunk)).
    - by rewrite Z.testbit_neg_r by lia.
    - rewrite <- (Z.mod_small (from_le out) (2 ^ Z.of_nat chunk)) by lia.
      rewrite Z.mod_pow2_bits_high by lia. apply andb_false_r. }
  rewrite Z.add_nocarry_lxor, Z.lxor_lor, Z.lor_spec, Z.shiftl_spec by (done || lia). f_equal.
  case_bool_decide; [by rewrite Nat2Z.inj_sub by lia|]. cbn [andb].
  destruct (decide (m < chunk)%nat); [by rewrite Z.testbit_neg_r by lia|].
  rewrite <- (Z.mod_small value (2 ^ 51)) by done. by rewrite Z.mod_pow2_bits_high by lia.
Qed.

Lemma write_limbs_ok f :
  0 <= l0 f < B51 -> 0 <= l1 f < B51 -> 0 <= l2 f < B51 -> 0 <= l3 f < B51 -> 0 <= l4 f < B51 ->
  write_limbs f = to_le 32 (val f).
Proof.
  intros H0 H1 H2 H3 H4. unfold write_limbs. cbn [fold_left fst snd].
  assert (Z0 : is_byte_string (zeros 32)) by (split; [apply bytes_ok_zeros|done]).
  destruct (write_limb_ok (zeros 32) 0 (l0 f)) as [O0 E0]; [done..|lia|done|].
  set (o0 := write_limb (zeros 32) _ _) in *. change (from_le (zeros 32)) with 0 in E0.
  change (2 ^ Z.of_nat 0) with 1 in E0.
  destruct (write_limb_ok o0 51 (l1 f)) as [O1 E1]; [done..|lia|change (2 ^ Z.of_nat 51) with B51; lia|].
  change (2 ^ Z.of_nat 51) with B51 in E1. set (o1 := write_limb o0 _ _) in *.
  destruct (write_limb_ok o1 102 (l2 f)) as [O2 E2]; [done..|lia|
    change (2 ^ Z.of_nat 102) with (B51 * B51); limbs; lia|].
  change (2 ^ Z.of_nat 102) with (B51 * B51) in E2. set (o2 := write_limb o1 _ _) in *.
  destruct (write_limb_ok o2 153 (l3 f)) as [O3 E3]; [done..|lia|
    change (2 ^ Z.of_nat 153) with (B51 * B51 * B51); limbs; lia|].
  change (2 ^ Z.of_nat 153) with (B51 * B51 * B51) in E3. set (o3 := write_limb o2 _ _) in *.
  destruct (write_limb_ok o3 204 (l4 f)) as [O4 E4]; [done..|lia|
    change (2 ^ Z.of_nat 204) with (B51 * B51 * B51 * B51); limbs; lia|].
  change (2 ^ Z.of_nat 204) with (B51 * B51 * B51 * B51) in E4. set (o4 := write_limb o3 _ _) in *.
  rewrite <- (to_le_from_le o4 (proj1 O4)), (proj2 O4). f_equal. unfold val. lia.
Qed.

Section encoding.
Context `{M : Machine}.

(** After one more carry pass the value is below [2p]. *)
Lemma reduce_small a :
  bounded a ->
  let l := reduce a in
  0 <= l0 l < B51 + 19 /\ 0 <= l1 l <= B51 /\ 0 <= l2 l <= B51 /\ 0 <= l3 l <= B51 /\
  0 <= l4 l <= B51 /\ eval l = eval a.
Proof.
  intros Ha. destruct (reduce_ok a) as [_ E]; try (destruct a, Ha; limbs; lia). revert E.
  destruct a as [a0 a1 a2 a3 a4], Ha as [H0 H1 H2 H3 H4]. unfold reduce. cbn [l0 l1 l2 l3 l4] in *.
  split_limb a0. split_limb a1. split_limb a2. split_limb a3. split_limb a4. unfold limb_ok, B51 in *.
  rewrite !u64_fits by (rewrite ?u64_fits by lia; lia). intros Ev. split_and!; try lia. exact Ev.
Qed.

Lemma canonical_ok l :
  0 <= l0 l < B51 + 19 -> 0 <= l1 l <= B51 -> 0 <= l2 l <= B51 -> 0 <= l3 l <= B51 -> 0 <= l4 l <= B51 ->
  let c := canonical l in
  0 <= l0 c < B51 /\ 0 <= l1 c < B51 /\ 0 <= l2 c < B51 /\ 0 <= l3 c < B51 /\ 0 <= l4 c < B51 /\
  val c = val l mod p25519.
Proof.
  destruct l as [a0 a1 a2 a3 a4]. cbn [l0 l1 l2 l3 l4]. intros H0 H1 H2 H3 H4.
  unfold canonical, quotient, carry_out. cbn [l0 l1 l2 l3 l4].
  rewrite (u64_fits (a0 + 19)) by (limbs; lia). split_limb (a0 + 19).
  rewrite (u64_fits (a1 + q)) by (limbs; lia). split_limb (a1 + q).
  rewrite (u64_fits (a2 + q0)) by (limbs; lia). split_limb (a2 + q0).
  rewrite (u64_fits (a3 + q1)) by (limbs; lia). split_limb (a3 + q1).
  rewrite (u64_fits (a4 + q2)) by (limbs; lia). split_limb (a4 + q2).
  rewrite (u64_fits (19 * q3)) by (limbs; lia).
  rewrite (u64_fits (a0 + 19 * q3)) by (limbs; lia). split_limb (a0 + 19 * q3).
  rewrite (u64_fits (a1 + q4)) by (limbs; lia). split_limb (a1 + q4).
  rewrite (u64_fits (a2 + q5)) by (limbs; lia). split_limb (a2 + q5).
  rewrite (u64_fits (a3 + q6)) by (limbs; lia). split_limb (a3 + q6).
  rewrite (u64_fits (a4 + q7)) by (limbs; lia). split_limb (a4 + q7).
  split_and!; try (cbn [l0 l1 l2 l3 l4]; lia).
  unfold val. cbn [l0 l1 l2 l3 l4]. apply Z.mod_unique_pos with (q := q3).
  - rewrite p25519_value. limbs. lia.
  - rewrite p25519_value. limbs. lia.
Qed.

Lemma unsigned_eval a : Zmod.unsigned (eval a) = val a mod p25519.
Proof. unfold eval. apply Zmod.unsigned_of_Z. Qed.

(** The encoding is that of the least representative. *)
Lemma to_bytes_ok a : bounded a -> to_bytes a = to_le 32 (Zmod.unsigned (eval a)).
Proof.
  intros Ha. destruct (reduce_small a Ha) as (H0 & H1 & H2 & H3 & H4 & E).
  destruct (canonical_ok (reduce a) H0 H1 H2 H3 H4) as (C0 & C1 & C2 & C3 & C4 & V).
  unfold to_bytes. rewrite write_limbs_ok by done. by rewrite V, <- unsigned_eval, E.
Qed.

Lemma word_ok bs at_ :
  bytes_ok bs -> 0 <= at_ ->
  word bs at_ = (from_le bs / 256 ^ at_) mod 2 ^ 64.
Proof.
  intros Hb Ha. unfold word, slice. rewrite from_le_take, from_le_drop by auto with tor.
  rewrite Z2Nat.id by done. replace (at_ + 8 - at_) with 8 by lia. done.
Qed.

(** A 51-bit digit cut out of a 64-bit word of [V]. *)
Lemma word_digit V k j :
  0 <= k -> 0 <= j <= 13 ->
  mask (Z.shiftr (V / 2 ^ k mod 2 ^ 64) j) = V / 2 ^ (k + j) mod B51.
Proof.
  intros Hk Hj. rewrite mask_mod, Z.shiftr_div_pow2 by lia. change B51 with (2 ^ 51).
  apply Z.bits_inj'. intros n Hn. destruct (decide (n < 51)).
  - rewrite !Z.mod_pow2_bits_low, !Z.div_pow2_bits, Z.mod_pow2_bits_low, Z.div_pow2_bits by lia.
    f_equal. lia.
  - by rewrite !Z.mod_pow2_bits_high by lia.
Qed.

(** Decoding takes the low 255 bits as they are, reduced or not. *)
Lemma from_bytes_ok bs :
  bytes_ok bs ->
  bounded (from_bytes bs) /\ val (from_bytes bs) = from_le bs mod 2 ^ 255.
Proof.
  intros Hb. unfold from_bytes. rewrite !word_ok by (done || lia). set (V := from_le bs).
  change (256 ^ 0) with (2 ^ 0). change (256 ^ 6) with (2 ^ 48). change (256 ^ 12) with (2 ^ 96).
  change (256 ^ 19) with (2 ^ 152). change (256 ^ 24) with (2 ^ 192).
  rewrite <- (Z.shiftr_0_r (V / 2 ^ 0 mod _)), !word_digit by lia.
  assert (R : forall x, limb_ok (x mod B51)).
  { intros x. pose proof (Z.mod_pos_bound x B51 ltac:(done)). unfold limb_ok, B51 in *. lia. }
  split; [by split; cbn [l0 l1 l2 l3 l4]|].
  unfold val. cbn [l0 l1 l2 l3 l4]. change (2 ^ 255) with (B51 * (B51 * (B51 * (B51 * B51)))).
  rewrite !Z.rem_mul_r, !Z.div_div by done. rewrite Z.div_1_r. reflexivity.
Qed.
End encoding.

(** ** The operations as field operations *)

Create HintDb fe.
Create Rewrite HintDb fe.

Section field_operations.
Context `{M : Machine}.

Lemma bounded_add a b : bounded a -> bounded b -> bounded (add a b).
Proof. intros Ha Hb. by apply add_ok. Qed.
Lemma bounded_sub a b : bounded a -> bounded b -> bounded (sub a b).
Proof. intros Ha Hb. by apply sub_ok. Qed.
Lemma bounded_mul a b : bounded a -> bounded b -> bounded (mul a b).
Proof. intros Ha Hb. by apply mul_ok. Qed.
Lemma bounded_ZERO : bounded ZERO.
Proof. by split. Qed.
Lemma bounded_ONE : bounded ONE.
Proof. by split. Qed.
Lemma bounded_D : bounded D.
Proof. by split. Qed.
Lemma bounded_D2 : bounded D2.
Proof. by split. Qed.
Lemma bounded_SQRT_M1 : bounded SQRT_M1.
Proof. by split. Qed.
Lemma bounded_neg a : bounded a -> bounded (neg a).
Proof. intros Ha. apply bounded_sub; [apply bounded_ZERO|done]. Qed.
Lemma bounded_square a : bounded a -> bounded (square a).
Proof. intros Ha. by apply bounded_mul. Qed.

Lemma eval_add a b : bounded a -> bounded b -> eval (add a b) = (eval a + eval b)%Zmod.
Proof. intros Ha Hb. by apply add_ok. Qed.
Lemma eval_sub a b : bounded a -> bounded b -> eval (sub a b) = (eval a - eval b)%Zmod.
Proof. intros Ha Hb. by apply sub_ok. Qed.
Lemma eval_mul a b : bounded a -> bounded b -> eval (mul a b) = (eval a * eval b)%Zmod.
Proof. intros Ha Hb. by apply mul_ok. Qed.
Lemma eval_ZERO : eval ZERO = 0%Zmod.
Proof. done. Qed.
Lemma eval_ONE : eval ONE = 1%Zmod.
Proof. done. Qed.
Lemma eval_neg a : bounded a -> eval (neg a) = (- eval a)%Zmod.
Proof.
  intros Ha. unfold neg. rewrite eval_sub, eval_ZERO by (done || apply bounded_ZERO).
  apply Zmod.sub_0_l.
Qed.
Lemma eval_square a : bounded a -> eval (square a) = (eval a * eval a)%Zmod.
Proof. intros Ha. by apply eval_mul. Qed.
End field_operations.

#[export] Hint Resolve bounded_add bounded_sub bounded_mul bounded_neg bounded_square
  bounded_ZERO bounded_ONE bounded_D bounded_D2 bounded_SQRT_M1 : fe.
#[export] Hint Rewrite @eval_add @eval_sub @eval_mul @eval_neg @eval_square @eval_ZERO @eval_ONE
  using (auto 20 with fe) : fe.

(** ** Powers *)

Section powers.
Context `{M : Machine}.

Lemma pow2k_ok k : forall a, bounded a ->
  bounded (pow2k a k) /\ eval (pow2k a k) = (eval a ^ (2 ^ Z.of_nat k))%Zmod.
Proof.
  induction k as [|k IH]; intros a Ha; cbn [pow2k].
  { split; [done|]. symmetry. apply Zmod.pow_1_r. }
  destruct (IH (square a)) as [Hb E]; [auto with fe|]. split; [done|].
  rewrite E, eval_square, <- Zmod.pow_2_r, <- Zmod.pow_mul_r_nonneg by (done || lia).
  by rewrite Nat2Z.inj_succ, Z.pow_succ_r by lia.
Qed.

(** [c] is the power [n] of [x]. *)
Definition is_pow (x : F) (n : Z) (c : Fe) : Prop := bounded c /\ 0 <= n /\ eval c = (x ^ n)%Zmod.

Lemma is_pow_mul x a b n m : is_pow x n a -> is_pow x m b -> is_pow x (n + m) (mul a b).
Proof.
  intros (Ha & Hn & Ea) (Hb & Hm & Eb). split; [auto with fe|]. split; [lia|].
  by rewrite eval_mul, Ea, Eb, Zmod.pow_add_r_nonneg.
Qed.

Lemma is_pow_square x a n : is_pow x n a -> is_pow x (2 * n) (square a).
Proof. intros H. replace (2 * n) with (n + n) by lia. by apply is_pow_mul. Qed.

Lemma is_pow_pow2k x a n k : is_pow x n a -> is_pow x (2 ^ Z.of_nat k * n) (pow2k a k).
Proof.
  intros (Ha & Hn & Ea). destruct (pow2k_ok k a Ha) as [Hb E]. split; [done|].
  split; [lia|]. rewrite E, Ea, <- Zmod.pow_mul_r_nonneg by lia. f_equal. lia.
Qed.

Lemma is_pow_1 a : bounded a -> is_pow (eval a) 1 a.
Proof. intros Ha. split; [done|]. split; [done|]. symmetry. apply Zmod.pow_1_r. Qed.

Lemma pow22501_ok a : bounded a ->
  is_pow (eval a) (2 ^ 250 - 1) (fst (pow22501 a)) /\ is_pow (eval a) 11 (snd (pow22501 a)).
Proof.
  intros Ha. unfold pow22501. cbv zeta. cbn [fst snd]. pose proof (is_pow_1 a Ha) as P1.
  set (x := eval a) in *. clearbody x.
  pose proof (is_pow_square _ _ _ P1) as T0. set (t0 := square a) in *.
  pose proof (is_pow_pow2k _ _ _ 2 T0) as T1. set (t1 := pow2k t0 2) in *.
  pose proof (is_pow_mul _ _ _ _ _ P1 T1) as T2. set (t2 := mul a t1) in *.
  pose proof (is_pow_mul _ _ _ _ _ T0 T2) as T3. set (t3 := mul t0 t2) in *.
  pose proof (is_pow_square _ _ _ T3) as T4. set (t4 := square t3) in *.
  pose proof (is_pow_mul _ _ _ _ _ T2 T4) as T5. set (t5 := mul t2 t4) in *.
  pose proof (is_pow_pow2k _ _ _ 5 T5) as T6. set (t6 := pow2k t5 5) in *.
  pose proof (is_pow_mul _ _ _ _ _ T6 T5) as T7. set (t7 := mul t6 t5) in *.
  pose proof (is_pow_pow2k _ _ _ 10 T7) as T8. set (t8 := pow2k t7 10) in *.
  pose proof (is_pow_mul _ _ _ _ _ T8 T7) as T9. set (t9 := mul t8 t7) in *.
  pose proof (is_pow_pow2k _ _ _ 20 T9) as T10. set (t10 := pow2k t9 20) in *.
  pose proof (is_pow_mul _ _ _ _ _ T10 T9) as T11. set (t11 := mul t10 t9) in *.
  pose proof (is_pow_pow2k _ _ _ 10 T11) as T12. set (t12 := pow2k t11 10) in *.
  pose proof (is_pow_mul _ _ _ _ _ T12 T7) as T13. set (t13 := mul t12 t7) in *.
  pose proof (is_pow_pow2k _ _ _ 50 T13) as T14. set (t14 := pow2k t13 50) in *.
  pose proof (is_pow_mul _ _ _ _ _ T14 T13) as T15. set (t15 := mul t14 t13) in *.
  pose proof (is_pow_pow2k _ _ _ 100 T15) as T16. set (t16 := pow2k t15 100) in *.
  pose proof (is_pow_mul _ _ _ _ _ T16 T15) as T17. set (t17 := mul t16 t15) in *.
  pose proof (is_pow_pow2k _ _ _ 50 T17) as T18. set (t18 := pow2k t17 50) in *.
  pose proof (is_pow_mul _ _ _ _ _ T18 T13) as T19.
  clearbody t0 t1 t2 t3 t4 t5 t6 t7 t8 t9 t10 t11 t12 t13 t14 t15 t16 t17 t18.
  split; [exact T19|exact T3].
Qed.

Lemma invert_ok a : bounded a -> bounded (invert a) /\ eval (invert a) = Zmod.inv (eval a).
Proof.
  intros Ha. destruct (pow22501_ok a Ha) as [P Q]. unfold invert. destruct (pow22501 a) as [t19 t3].
  cbn [fst snd] in *. pose proof (is_pow_mul _ _ _ _ _ (is_pow_pow2k _ _ _ 5 P) Q) as (Hb & _ & E).
  split; [done|]. rewrite E. replace (_ + 11) with (p25519 - 2) by reflexivity.
  destruct (decide (eval a = 0%Zmod)) as [->|Hn].
  - by rewrite Zmod.inv_0, Zmod.pow_0_l.
  - by apply Zmod.fermat_inv, prime_25519.
Qed.

(** The exponent [(p - 5) / 8]. *)
Lemma pow_p58_ok a : bounded a ->
  bounded (pow_p58 a) /\ eval (pow_p58 a) = (eval a ^ ((p25519 - 5) / 8))%Zmod.
Proof.
  intros Ha. destruct (pow22501_ok a Ha) as [P Q]. unfold pow_p58. destruct (pow22501 a) as [t19 t3].
  cbn [fst snd] in *.
  pose proof (is_pow_mul _ _ _ _ _ (is_pow_pow2k _ _ _ 2 P) (is_pow_1 a Ha)) as (Hb & _ & E).
  split; [done|]. rewrite E. reflexivity.
Qed.
End powers.

(** ** Comparisons and square roots *)

Add Field F_field : (Zmod.field_theory p25519 prime_25519).

Lemma F_integral (x y : F) : (x * y)%Zmod = 0%Zmod -> x = 0%Zmod \/ y = 0%Zmod.
Proof. apply Zmod.mul_0_iff_prime, prime_25519. Qed.

Lemma F_square_zero (x : F) : (x * x)%Zmod = 0%Zmod -> x = 0%Zmod.
Proof. intros H. by destruct (F_integral _ _ H). Qed.

(** Equal squares: equal or opposite. *)
Lemma F_equal_squares (x y : F) : (x * x)%Zmod = (y * y)%Zmod -> x = y \/ x = (- y)%Zmod.
Proof.
  intros H. destruct (F_integral (x - y) (x + y)) as [E|E].
  - transitivity (x * x - y * y)%Zmod; [ring|]. rewrite H. ring.
  - left. rewrite <- (Zmod.add_0_r y), <- E. ring.
  - right. rewrite <- (Zmod.add_0_r (- y)%Zmod), <- E. ring.
Qed.

Section roots.
Context `{M : Machine}.

Lemma unsigned_range (x : F) : 0 <= Zmod.unsigned x < p25519.
Proof. apply Zmod.unsigned_pos_bound. done. Qed.

Lemma to_bytes_inj a b : bounded a -> bounded b -> to_bytes a = to_bytes b <-> eval a = eval b.
Proof.
  intros Ha Hb. rewrite !to_bytes_ok by done. split; [|by intros ->]. intros H.
  apply (f_equal from_le) in H. pose proof (unsigned_range (eval a)). pose proof (unsigned_range (eval b)).
  assert (Hp : p25519 < 256 ^ Z.of_nat 32) by done.
  rewrite !from_le_to_le in H by lia. by apply Zmod.unsigned_inj.
Qed.

Lemma equals_ok a b : bounded a -> bounded b -> equals a b = bool_decide (eval a = eval b).
Proof. intros Ha Hb. unfold equals. apply bool_decide_ext. by apply to_bytes_inj. Qed.

Lemma to_bytes_ZERO : to_bytes ZERO = zeros 32.
Proof. by rewrite to_bytes_ok by auto with fe. Qed.

Lemma is_zero_ok a : bounded a -> is_zero a = bool_decide (eval a = 0%Zmod).
Proof.
  intros Ha. rewrite <- eval_ZERO, <- equals_ok by auto with fe. unfold is_zero, equals.
  by rewrite to_bytes_ZERO.
Qed.

(** The sign of an element: the low bit of its canonical value. *)
Definition odd (x : F) : bool := Z.odd (Zmod.unsigned x).

Lemma is_negative_ok a : bounded a -> is_negative a = odd (eval a).
Proof.
  intros Ha. unfold is_negative, odd. rewrite to_bytes_ok by done.
  set (v := Zmod.unsigned (eval a)). rewrite to_le_succ.
  unfold byte_at. change (Z.to_nat 0) with 0%nat. cbn [nth]. rewrite <- Z.bit0_odd. pose proof (land_1_testbit (v mod 256) 0) as E.
  rewrite Z.shiftr_0_r in E. 
  rewrite E. change 256 with (2 ^ 8). by apply Z.mod_pow2_bits_low.
Qed.

Lemma SQRT_M1_ok : (eval SQRT_M1 * eval SQRT_M1)%Zmod = (- (1))%Zmod.
Proof. by vm_compute. Qed.

Lemma pow_m (x : F) n m : 0 <= n -> 0 <= m -> (x ^ (n + m))%Zmod = (x ^ n * x ^ m)%Zmod.
Proof. apply Zmod.pow_add_r_nonneg. Qed.

(** What [check] comes to: [u] times a fourth root of unity when [u v] is not
    zero. *)
Lemma check_value (u v : F) :
  let w := (u * (v * v * v * (v * v * v) * v))%Zmod in
  let c := (u * (v * v * v) * w ^ ((p25519 - 5) / 8))%Zmod in
  (v * (c * c))%Zmod = (u * w ^ ((p25519 - 1) / 4))%Zmod.
Proof.
  intros w c. unfold c. set (n := (p25519 - 5) / 8).
  replace ((p25519 - 1) / 4) with (n + n + 1) by reflexivity.
  assert (Hn : 0 <= n) by (by vm_compute). clearbody n. rewrite !pow_m by lia. rewrite Zmod.pow_1_r. set (z := (w ^ n)%Zmod). unfold w. ring.
Qed.

(** A square to the power [(p - 1) / 4] is one or minus one. *)
Lemma quarter_power (s : F) :
  s <> 0%Zmod ->
  let z := ((s * s) ^ ((p25519 - 1) / 4))%Zmod in z = 1%Zmod \/ z = (- (1))%Zmod.
Proof.
  intros Hs. cbv zeta. set (n := (p25519 - 1) / 4).
  assert (Hn : 0 <= n) by (by vm_compute). assert (E : 2 * (n + n) = Z.pred p25519) by reflexivity.
  clearbody n. set (z := ((s * s) ^ n)%Zmod).
  replace (- (1))%Zmod with (- (1 : F))%Zmod by done. apply F_equal_squares.
  unfold z. rewrite <- Zmod.pow_add_r_nonneg, <- (Zmod.pow_2_r s), <- Zmod.pow_mul_r_nonneg, E by lia.
  rewrite Zmod.fermat_nz by (done || apply prime_25519). by rewrite Zmod.mul_1_l.
Qed.

Lemma sqrt_ratio_ok u v : bounded u -> bounded v ->
  match sqrt_ratio u v with
  | Some r => bounded r /\ (eval v * (eval r * eval r))%Zmod = eval u
  | None => forall r : F, (eval v * (r * r))%Zmod <> eval u
  end.
Proof.
  intros Hu Hv. unfold sqrt_ratio. cbv zeta.
  set (v3 := mul (square v) v). set (v7 := mul (square v3) v).
  assert (B3 : bounded v3) by (unfold v3; auto with fe). assert (B7 : bounded v7) by (unfold v7; auto with fe).
  destruct (pow_p58_ok (mul u v7)) as [Bp Ep]; [auto with fe|].
  set (c := mul (mul u v3) (pow_p58 (mul u v7))). assert (Bc : bounded c) by (unfold c; auto with fe).
  set (check := mul v (square c)). assert (Bk : bounded check) by (unfold check; auto with fe).
  set (w := (eval u * (eval v * eval v * eval v * (eval v * eval v * eval v) * eval v))%Zmod).
  assert (E7 : eval (mul u v7) = w) by (unfold v7, v3, w; autorewrite with fe; done).
  assert (Ek : eval check = (eval u * w ^ ((p25519 - 1) / 4))%Zmod).
  { pose proof (check_value (eval u) (eval v)) as CV. cbv zeta in CV. fold w in CV. rewrite <- CV.
    unfold check, c. autorewrite with fe. rewrite Ep, E7. unfold v3. autorewrite with fe. reflexivity. }
  assert (Ec : eval check = (eval v * (eval c * eval c))%Zmod) by (unfold check; by autorewrite with fe).
  rewrite !equals_ok by auto with fe. rewrite eval_neg by done.
  case_bool_decide as H1; [rewrite <- Ec; by split|]. case_bool_decide as H2.
  - split; [auto with fe|]. rewrite eval_mul by auto with fe.
    transitivity ((eval v * (eval c * eval c)) * (eval SQRT_M1 * eval SQRT_M1))%Zmod; [ring|].
    rewrite <- Ec, SQRT_M1_ok, H2. ring.
  - intros r Hr. assert (Hu0 : eval u <> 0%Zmod).
    { intros E. apply H1. rewrite Ek, E. ring. }
    set (s := (r * (eval v * eval v * eval v * eval v))%Zmod).
    assert (Ew : w = (s * s)%Zmod) by (unfold w, s; rewrite <- Hr; ring).
    destruct (quarter_power s) as [Q|Q].
    + intros Es. apply Hu0. rewrite <- Hr. unfold s in Es. apply F_integral in Es as [->|Es]; [ring|].
      assert (eval v = 0%Zmod) as ->; [|ring].
      apply F_square_zero, F_square_zero. rewrite <- Es. ring.
    + apply H1. rewrite Ek, Ew, Q. ring.
    + apply H2. rewrite Ek, Ew, Q. ring.
Qed.
End roots.

(** ** The theorems *)

Section theorems.
Context `{M : Machine}.

(** C26. The limb arithmetic implements the field GF(2^255 - 19), for the prime the kernel has checked, whatever the build does with a word that overflows, since none does. On elements whose five limbs are below 2^52, addition, subtraction, negation, multiplication and inversion give elements with limbs below 2^52 that stand for the sum, difference, opposite, product and inverse (zero for zero); equality, the zero test and the sign test decide equality of the elements, being zero and oddness of the least representative; to_bytes writes exactly the 32 little-endian bytes of the least representative, and from_bytes reads the low 255 bits of its argument. *)
Theorem fe_refines_field a b :
  bounded a -> bounded b ->
  (bounded (add a b) /\ eval (add a b) = Zmod.add (eval a) (eval b)) /\
  (bounded (sub a b) /\ eval (sub a b) = Zmod.sub (eval a) (eval b)) /\
  (bounded (neg a) /\ eval (neg a) = Zmod.opp (eval a)) /\
  (bounded (mul a b) /\ eval (mul a b) = Zmod.mul (eval a) (eval b)) /\
  (bounded (invert a) /\ eval (invert a) = Zmod.inv (eval a)) /\
  equals a b = bool_decide (eval a = eval b) /\
  is_zero a = bool_decide (eval a = Zmod.zero) /\
  is_negative a = odd (eval a) /\
  to_bytes a = to_le 32 (Zmod.unsigned (eval a)) /\
  (forall bs, bytes_ok bs ->
     bounded (from_bytes bs) /\ eval (from_bytes bs) = Zmod.of_Z p25519 (from_le bs mod 2 ^ 255)).
Proof.
  intros Ha Hb. split_and!; auto using invert_ok, equals_ok, is_zero_ok, is_negative_ok, to_bytes_ok,
    eval_add, eval_sub, eval_neg, eval_mul with fe.
  - by apply invert_ok.
  - by apply invert_ok.
  - intros bs Hbs. destruct (from_bytes_ok bs Hbs) as [Hf E]. split; [done|]. unfold eval. by rewrite E.
Qed.

(** sqrt_ratio decides squares: for u and v with limbs below 2^52 it answers an element r, with limbs below 2^52, such that v * r^2 = u, and answers none only when no element of the field has that property (v = 0 included). *)
Theorem sqrt_ratio_decides u v :
  bounded u -> bounded v ->
  (forall r, sqrt_ratio u v = Some r -> bounded r /\ Zmod.mul (eval v) (Zmod.mul (eval r) (eval r)) = eval u) /\
  (sqrt_ratio u v = None <-> ~ exists x : F, Zmod.mul (eval v) (Zmod.mul x x) = eval u).
Proof.
  intros Hu Hv. pose proof (sqrt_ratio_ok u v Hu Hv) as H. destruct (sqrt_ratio u v) as [r|].
  - split; [by intros ? [= <-]|]. split; [discriminate|]. intros Hno. destruct Hno. exists (eval r). exact (proj2 H).
  - split; [discriminate|]. split; [|reflexivity]. intros _ [x Hx]. exact (H x Hx).
Qed.
End theorems.

Module FieldDemo.
Definition two : Fe := MkFe 2 0 0 0 0.

Lemma two_ok : bounded two.
Proof. by split. Qed.

Lemma fe_refines_field_witness :
  eval (mul (sub two SQRT_M1) D) = Zmod.mul (eval (sub two SQRT_M1)) (eval D).
Proof.
  refine (proj2 (proj1 (proj2 (proj2 (proj2 (fe_refines_field (sub two SQRT_M1) D _ bounded_D)))))).
  exact (proj1 (proj1 (proj2 (fe_refines_field two SQRT_M1 two_ok bounded_SQRT_M1)))).
Defined.

(** Minus one is a square, so its root is found; the criterion for two. *)
Lemma sqrt_ratio_decides_witness :
  sqrt_ratio (neg ONE) ONE <> None /\
  (sqrt_ratio two ONE = None <-> ~ exists x : F, Zmod.mul (eval ONE) (Zmod.mul x x) = eval two).
Proof.
  split; [|exact (proj2 (sqrt_ratio_decides two ONE two_ok bounded_ONE))].
  intros H. refine (proj1 (proj2 (sqrt_ratio_decides (neg ONE) ONE
    (bounded_neg ONE bounded_ONE) bounded_ONE)) H _).
  exists (eval SQRT_M1). rewrite SQRT_M1_ok, eval_neg, eval_ONE by apply bounded_ONE.
  apply Zmod.mul_1_l.
Defined.
End FieldDemo.
