(* ===== verification/Ed25519Point.v ===== *)
(** * Ed25519 points and key blinding ([src/src/crypto/ed25519_point.rs])

    Extended coordinates, compression, the double-and-add ladder and
    [blind_public_key].  The specification is the affine Edwards curve over
    [Zmod p25519]; every operation computes the affine one, whose denominators
    never vanish. *)
From Stdlib Require Import Zmod Field.
From S2P Require Import Prelude.
From S2P Require Import Prime25519.
From S2P Require Import Field25519.

Module Point.
Record t := Mk { x : Fe; y : Fe; z : Fe; t_ : Fe }.

Section operations.
Context `{M : Machine}.

Definition identity : t := Mk ZERO ONE ONE ZERO.

Definition decompress (bs : bytes) : option t :=
  let sign := Z.shiftr (byte_at bs 31) 7 in
  let encoded_y := <[31%nat := Z.land (byte_at bs 31) 127]> bs in
  let y := from_bytes encoded_y in
  let y2 := square y in
  let u := sub y2 ONE in
  let v := Field25519.add (mul y2 D) ONE in
  x ← sqrt_ratio u v;
  if is_zero x && (sign =? 1) then None
  else
    let x := if xorb (is_negative x) (sign =? 1) then neg x else x in
    Some (Mk x y ONE (mul x y)).

Definition compress (p : t) : bytes :=
  let recip := invert (z p) in
  let x := mul (x p) recip in
  let y := mul (y p) recip in
  alter (fun b => Z.lor b (Z.shiftl (if is_negative x then 1 else 0) 7)) 31%nat (to_bytes y).

Definition add (p q : t) : t :=
  let a := mul (sub (y p) (x p)) (sub (y q) (x q)) in
  let b := mul (Field25519.add (y p) (x p)) (Field25519.add (y q) (x q)) in
  let c := mul (mul (t_ p) D2) (t_ q) in
  let d := mul (z p) (z q) in
  let d := Field25519.add d d in
  let e := sub b a in
  let f := sub d c in
  let g := Field25519.add d c in
  let h := Field25519.add b a in
  Mk (mul e f) (mul g h) (mul f g) (mul e h).

Definition double (p : t) : t :=
  let a := square (x p) in
  let b := square (y p) in
  let c := square (z p) in
  let c := Field25519.add c c in
  let d := neg a in
  let e := sub (sub (square (Field25519.add (x p) (y p))) a) b in
  let g := Field25519.add d b in
  let f := sub g c in
  let h := sub d b in
  Mk (mul e f) (mul g h) (mul f g) (mul e h).

(** The bits below [n], from the top. *)
Fixpoint ladder (p : t) (scalar : bytes) (n : nat) (result : t) : t :=
  match n with
  | O => result
  | S bit =>
      let result := double result in
      let result :=
        if Z.land (Z.shiftr (byte_at scalar (Z.of_nat (bit / 8))) (Z.of_nat (bit mod 8))) 1 =? 1
        then add result p else result in
      ladder p scalar bit result
  end.

Definition mul_scalar (p : t) (scalar : bytes) : t := ladder p scalar 256 identity.
End operations.
End Point.

(** [h[0] &= 248; h[31] &= 63; h[31] |= 64]. *)
Definition clamp (param : bytes) : bytes :=
  let h := alter (fun b => Z.land b 248) 0%nat param in
  let h := alter (fun b => Z.land b 63) 31%nat h in
  alter (fun b => Z.lor b 64) 31%nat h.

Definition blind_public_key `{M : Machine} (public_key param : bytes) : result bytes :=
  point ← ok_or (Point.decompress public_key)
            (invalid_data "onion service key is not a point on curve25519");
  Ok (Point.compress (Point.mul_scalar point (clamp param))).

(** ** The curve *)

Local Open Scope Zmod_scope.
Add Field F_field : (Zmod.field_theory p25519 prime_25519).

Module Curve.

(** A point by its affine coordinates. *)
Definition point : Type := F * F.

Definition d : F := eval D.

(** [-x^2 + y^2 = 1 + d x^2 y^2]. *)
Definition on_curve (p : point) : Prop :=
  let '(x, y) := p in y * y - x * x = 1 + d * (x * x) * (y * y).

Definition zero : point := (0, 1).

(** The Edwards addition law. *)
Definition add (p q : point) : point :=
  let '(x1, y1) := p in
  let '(x2, y2) := q in
  let k := d * x1 * x2 * y1 * y2 in
  (Zmod.mdiv (x1 * y2 + x2 * y1) (1 + k), Zmod.mdiv (y1 * y2 + x1 * x2) (1 - k)).

(** [q] is a sum of [n] copies of [p], however it is bracketed. *)
Inductive multiple (p : point) : Z -> point -> Prop :=
  | multiple_zero : multiple p 0%Z zero
  | multiple_one : multiple p 1%Z p
  | multiple_add n m q r :
      multiple p n q -> multiple p m r -> multiple p (n + m)%Z (add q r).

(** The 32-byte encoding: [y], with the parity of [x] in the top bit. *)
Definition encode (p : point) : bytes :=
  let '(x, y) := p in to_le 32 (Zmod.unsigned y + (if odd x then 2 ^ 255 else 0)%Z).

(** What a 32-byte string encodes, [y] reduced or not. *)
Definition encodes (bs : bytes) (p : point) : Prop :=
  let '(x, y) := p in
  on_curve (x, y) /\ y = Zmod.of_Z p25519 (from_le bs mod 2 ^ 255)%Z /\
  odd x = Z.testbit (from_le bs) 255.

Lemma two_nonzero : (1 + 1 : F) <> 0.
Proof. intros E. apply (f_equal Zmod.unsigned) in E. by vm_compute in E. Qed.

Lemma one_nonzero : (1 : F) <> 0.
Proof. intros E. apply (f_equal Zmod.unsigned) in E. by vm_compute in E. Qed.

(** [d] is not a square: its power [(p - 1) / 2] is minus one. *)
Lemma d_not_square (s : F) : s * s <> d.
Proof.
  intros H. assert (Hd : (d ^ ((p25519 - 1) / 2)) = - (1)).
  { apply Zmod.unsigned_inj. rewrite Zmod.to_Z_pow_nonneg_r by (by vm_compute).
    rewrite <- powm_spec by (by vm_compute). by vm_compute. }
  rewrite <- H in Hd. assert (s <> 0).
  { intros ->. rewrite Zmod.mul_0_l in H. apply (f_equal Zmod.unsigned) in H. by vm_compute in H. }
  rewrite <- Zmod.pow_2_r, <- Zmod.pow_mul_r_nonneg in Hd by (by vm_compute).
  replace (2 * ((p25519 - 1) / 2))%Z with (Z.pred p25519) in Hd by reflexivity.
  rewrite Zmod.fermat_nz in Hd by (assumption || apply prime_25519).
  apply (f_equal Zmod.unsigned) in Hd. by vm_compute in Hd.
Qed.

#[local] Opaque d.

(** The denominators of the addition law never vanish: otherwise [d] would be
    a square ([i] is a square root of minus one). *)
Lemma denominators p q :
  on_curve p -> on_curve q ->
  let '(x1, y1) := p in let '(x2, y2) := q in
  let k := d * x1 * x2 * y1 * y2 in 1 + k <> 0 /\ 1 - k <> 0.
Proof.
  destruct p as [x1 y1], q as [x2 y2]. unfold on_curve. intros H1 H2. set (k := d * x1 * x2 * y1 * y2).
  assert (Hk : k * k <> 1).
  { intros Hk. pose proof SQRT_M1_ok as Hi. set (i := eval SQRT_M1) in *. clearbody i.
    assert (Hnz : x1 <> 0 /\ y1 <> 0).
    { split; intros E; apply one_nonzero; rewrite <- Hk; unfold k; rewrite E; ring. }
    assert (Key : forall e : F, e * e = 1 ->
      (i * x1 + e * (k * y1)) * (i * x1 + e * (k * y1)) =
      d * (x1 * y1 * (i * x2 + e * y2)) * (x1 * y1 * (i * x2 + e * y2))).
    { intros e He.
      transitivity (i * i * (x1 * x1) + (e * e) * (k * k) * (y1 * y1) + (1 + 1) * e * i * k * x1 * y1); [ring|].
      rewrite Hi, Hk, He.
      transitivity (y1 * y1 - x1 * x1 + (1 + 1) * e * i * k * x1 * y1); [ring|].
      rewrite H1. transitivity (k * k + d * (x1 * x1) * (y1 * y1) + (1 + 1) * e * i * k * x1 * y1);
        [by rewrite Hk|].
      transitivity (d * (x1 * x1) * (y1 * y1) * (1 + d * (x2 * x2) * (y2 * y2)) +
        (1 + 1) * e * i * k * x1 * y1); [unfold k; ring|]. rewrite <- H2.
      transitivity (d * (x1 * x1) * (y1 * y1) * ((i * i) * (x2 * x2) + (e * e) * (y2 * y2)) +
        (1 + 1) * e * i * k * x1 * y1); [rewrite Hi, He; ring|]. unfold k. ring. }
    assert (Zero : forall e : F, e * e = 1 -> i * x2 + e * y2 = 0).
    { intros e He. destruct (decide (i * x2 + e * y2 = 0)) as [|Hn]; [done|]. exfalso.
      destruct Hnz as [Hx Hy]. apply (d_not_square (Zmod.mdiv (i * x1 + e * (k * y1)) (x1 * y1 * (i * x2 + e * y2)))).
      pose proof (Key e He) as K.
      assert (Hden : x1 * y1 * (i * x2 + e * y2) <> 0).
      { intros E. repeat apply F_integral in E as [E|E]; congruence. }
      set (n := i * x1 + e * (k * y1)) in *. set (m := x1 * y1 * (i * x2 + e * y2)) in *.
      transitivity (Zmod.mdiv (n * n) (m * m)); [by field|]. rewrite K. by field. }
    pose proof (Zero 1 ltac:(ring)) as Z1. pose proof (Zero (- (1)) ltac:(ring)) as Z2.
    assert (Hy2 : y2 = 0).
    { assert ((1 + 1) * y2 = 0) as E.
      { transitivity ((i * x2 + 1 * y2) - (i * x2 + - (1) * y2)); [ring|]. rewrite Z1, Z2. ring. }
      apply F_integral in E as [E|E]; [destruct (two_nonzero E)|exact E]. }
    apply one_nonzero. rewrite <- Hk. unfold k. rewrite Hy2. ring. }
  split; intros E; apply Hk.
  - transitivity ((1 + k) * (k - 1) + 1); [ring|]. rewrite E. ring.
  - transitivity (1 - (1 - k) * (1 + k)); [ring|]. rewrite E. ring.
Qed.

Lemma on_curve_zero : on_curve zero.
Proof. cbn. ring. Qed.

Lemma on_curve_add p q : on_curve p -> on_curve q -> on_curve (add p q).
Proof.
  intros Hp Hq. pose proof (denominators p q Hp Hq) as Hd.
  destruct p as [x1 y1], q as [x2 y2]. unfold on_curve, add in *. cbv zeta in *.
  set (k := d * x1 * x2 * y1 * y2) in *. destruct Hd as [Hn Hm].
  set (A := x1 * y2 + x2 * y1). set (C := y1 * y2 + x1 * x2).
  assert (Main : C * C * ((1 + k) * (1 + k)) - A * A * ((1 - k) * (1 - k)) =
    (1 - k * k) * (1 - k * k) + d * (A * A) * (C * C)).
  { set (m1 := x1 * y1). set (m2 := x2 * y2).
    set (u1 := y1 * y1 - x1 * x1) in *. set (u2 := y2 * y2 - x2 * x2) in *.
    assert (Hk2 : k * k = (u1 - 1) * (u2 - 1)).
    { rewrite Hp, Hq. unfold k. ring. }
    assert (E1 : d * (m1 * m1) = u1 - 1) by (rewrite Hp; unfold m1; ring).
    assert (E2 : d * (m2 * m2) = u2 - 1) by (rewrite Hq; unfold m2; ring).
    transitivity (u1 * u2 * (1 + k * k) + (1 + 1) * k * (A * A + C * C)).
    { unfold u1, u2, A, C. ring. }
    transitivity ((1 - k * k) * (1 - k * k) + (d * (m1 * m1)) * (u2 * u2) + (d * (m2 * m2)) * (u1 * u1) +
      (1 + 1) * k * (A * A + C * C)).
    { rewrite E1, E2, Hk2. ring. }
    unfold u1, u2, A, C, m1, m2, k. ring. }
  assert (Hnm : 1 - k * k <> 0).
  { intros E. assert (E' : (1 - k) * (1 + k) = 0) by (rewrite <- E; ring).
    apply F_integral in E' as [?|?]; contradiction. }
  clearbody k A C.
  transitivity (Zmod.mdiv (C * C * ((1 + k) * (1 + k)) - A * A * ((1 - k) * (1 - k)))
    ((1 - k * k) * (1 - k * k))); [field; split_and!; assumption|].
  rewrite Main. field; split_and!; assumption.
Qed.
End Curve.

(** ** Extended coordinates compute the affine law *)

Lemma F_nonzero_mul (a b : F) : a <> 0 -> b <> 0 -> a * b <> 0.
Proof. intros Ha Hb E. apply F_integral in E as [?|?]; contradiction. Qed.

Section points.
Context `{M : Machine}.

(** [(X, Y, Z, T)] with [x = X/Z], [y = Y/Z] and [T = XY/Z]. *)
Record represents (p : Point.t) (a : Curve.point) : Prop := MkRepresents {
  rep_x_ok : bounded (Point.x p);
  rep_y_ok : bounded (Point.y p);
  rep_z_ok : bounded (Point.z p);
  rep_t_ok : bounded (Point.t_ p);
  rep_z : eval (Point.z p) <> 0;
  rep_x : eval (Point.x p) = fst a * eval (Point.z p);
  rep_y : eval (Point.y p) = snd a * eval (Point.z p);
  rep_t : eval (Point.t_ p) = fst a * snd a * eval (Point.z p);
}.

Lemma represents_identity : represents Point.identity Curve.zero.
Proof.
  split; cbn [Point.identity Point.x Point.y Point.z Point.t_ fst snd Curve.zero];
    [auto with fe..|exact Curve.one_nonzero| | |]; autorewrite with fe; ring.
Qed.

Lemma D2_ok : eval D2 = Curve.d + Curve.d.
Proof. by vm_compute. Qed.

Lemma point_add_ok p q a b :
  represents p a -> represents q b -> Curve.on_curve a -> Curve.on_curve b ->
  represents (Point.add p q) (Curve.add a b).
Proof.
  intros [Px Py Pz Pt Pn Ex Ey Et] [Qx Qy Qz Qt Qn Fx Fy Ft] Ha Hb.
  pose proof (Curve.denominators a b Ha Hb) as Hd. clear Ha Hb.
  destruct a as [x1 y1], b as [x2 y2]. cbn [fst snd] in *. cbv zeta in Hd.
  destruct p as [X1 Y1 Z1 T1], q as [X2 Y2 Z2 T2]. cbn [Point.x Point.y Point.z Point.t_] in *.
  unfold Point.add, Curve.add. cbn [Point.x Point.y Point.z Point.t_ fst snd].
  split; cbn [Point.x Point.y Point.z Point.t_ fst snd]; [auto 20 with fe..| | | |];
    autorewrite with fe; rewrite ?D2_ok, ?Ex, ?Ey, ?Et, ?Fx, ?Fy, ?Ft;
    set (z1 := eval Z1) in *; set (z2 := eval Z2) in *; clearbody z1 z2;
    set (k := Curve.d * x1 * x2 * y1 * y2) in *; destruct Hd as [Hn Hm].
  - intros E. apply (F_nonzero_mul _ _ (F_nonzero_mul _ _ (F_nonzero_mul _ _
      (F_nonzero_mul _ _ Curve.two_nonzero Curve.two_nonzero) (F_nonzero_mul _ _ Pn Pn))
      (F_nonzero_mul _ _ Qn Qn)) (F_nonzero_mul _ _ Hn Hm)).
    rewrite <- E. unfold k. ring.
  - transitivity (Zmod.mdiv (x1 * y2 + x2 * y1) (1 + k) * ((1 + k) * (1 - k)) *
      ((1 + 1) * (1 + 1) * (z1 * z1) * (z2 * z2))); [|unfold k; ring].
    transitivity ((x1 * y2 + x2 * y1) * (1 - k) * ((1 + 1) * (1 + 1) * (z1 * z1) * (z2 * z2)));
      [unfold k; ring|]. clearbody k. field. assumption.
  - transitivity (Zmod.mdiv (y1 * y2 + x1 * x2) (1 - k) * ((1 + k) * (1 - k)) *
      ((1 + 1) * (1 + 1) * (z1 * z1) * (z2 * z2))); [|unfold k; ring].
    transitivity ((y1 * y2 + x1 * x2) * (1 + k) * ((1 + 1) * (1 + 1) * (z1 * z1) * (z2 * z2)));
      [unfold k; ring|]. clearbody k. field. assumption.
  - transitivity (Zmod.mdiv (x1 * y2 + x2 * y1) (1 + k) * Zmod.mdiv (y1 * y2 + x1 * x2) (1 - k) *
      ((1 + k) * (1 - k)) * ((1 + 1) * (1 + 1) * (z1 * z1) * (z2 * z2))); [|unfold k; ring].
    transitivity ((x1 * y2 + x2 * y1) * (y1 * y2 + x1 * x2) * ((1 + 1) * (1 + 1) * (z1 * z1) * (z2 * z2)));
      [ring|]. clearbody k. field. split; assumption.
Qed.

Lemma point_double_ok p a :
  represents p a -> Curve.on_curve a -> represents (Point.double p) (Curve.add a a).
Proof.
  intros [Px Py Pz Pt Pn Ex Ey Et] Ha. pose proof (Curve.denominators a a Ha Ha) as Hd.
  destruct a as [x1 y1]. cbn [fst snd Curve.on_curve] in *. cbv zeta in Hd.
  destruct p as [X1 Y1 Z1 T1]. cbn [Point.x Point.y Point.z Point.t_] in *.
  unfold Point.double, Curve.add. cbn [Point.x Point.y Point.z Point.t_ fst snd].
  set (k := Curve.d * x1 * x1 * y1 * y1) in *. destruct Hd as [Hn Hm].
  assert (Hk : y1 * y1 = 1 + k + x1 * x1).
  { transitivity (y1 * y1 - x1 * x1 + x1 * x1); [ring|]. rewrite Ha. unfold k. ring. }
  split; cbn [Point.x Point.y Point.z Point.t_ fst snd]; [auto 20 with fe..| | | |];
    autorewrite with fe; rewrite ?Ex, ?Ey;
    set (z1 := eval Z1) in *; clearbody z1 k.
  - intros E. apply (F_nonzero_mul _ _ (F_nonzero_mul _ _ Hn Hm)
      (F_nonzero_mul _ _ (F_nonzero_mul _ _ Pn Pn) (F_nonzero_mul _ _ Pn Pn))).
    transitivity ((1 + k) * (1 + 1 - (1 + k)) * (z1 * z1 * (z1 * z1))); [ring|].
    replace (1 + k) with (y1 * y1 - x1 * x1) by (rewrite Hk; ring).
    transitivity (- (0 : F)); [rewrite <- E; ring|ring].
  - transitivity (Zmod.mdiv (x1 * y1 + x1 * y1) (1 + k) * ((1 + k) * ((1 + k) - (1 + 1))) *
      (z1 * z1 * (z1 * z1))).
    + transitivity ((x1 * y1 + x1 * y1) * ((y1 * y1 - x1 * x1) - (1 + 1)) * (z1 * z1 * (z1 * z1))); [ring|].
      rewrite Hk. field. assumption.
    + replace (1 + k) with (y1 * y1 - x1 * x1) at 2 3 by (rewrite Hk; ring). ring.
  - transitivity (Zmod.mdiv (y1 * y1 + x1 * x1) (1 - k) * (- (1 + k) * (1 - k)) *
      (z1 * z1 * (z1 * z1))).
    + transitivity (- (y1 * y1 - x1 * x1) * (y1 * y1 + x1 * x1) * (z1 * z1 * (z1 * z1))); [ring|].
      rewrite Hk. field. assumption.
    + replace (- (1 + k) * (1 - k)) with ((1 + k) * ((1 + k) - (1 + 1))) by ring.
      replace (1 + k) with (y1 * y1 - x1 * x1) by (rewrite Hk; ring). ring.
  - transitivity (Zmod.mdiv (x1 * y1 + x1 * y1) (1 + k) * Zmod.mdiv (y1 * y1 + x1 * x1) (1 - k) *
      (- (1 + k) * (1 - k)) * (z1 * z1 * (z1 * z1))).
    + transitivity (- (x1 * y1 + x1 * y1) * (y1 * y1 + x1 * x1) * (z1 * z1 * (z1 * z1))); [ring|].
      field. split; assumption.
    + replace (- (1 + k) * (1 - k)) with ((1 + k) * ((1 + k) - (1 + 1))) by ring.
      replace (1 + k) with (y1 * y1 - x1 * x1) at 2 3 by (rewrite Hk; ring). ring.
Qed.

(** ** The ladder *)

(** The scalar's bits from [n] up. *)
Definition high_bits (scalar : bytes) (n : nat) : Z := (from_le scalar / 2 ^ Z.of_nat n)%Z.

Lemma scalar_bit scalar bit :
  bytes_ok scalar ->
  (Z.land (Z.shiftr (byte_at scalar (Z.of_nat (bit / 8))) (Z.of_nat (bit mod 8))) 1 =? 1)%Z =
  Z.testbit (from_le scalar) (Z.of_nat bit).
Proof.
  intros H. rewrite land_1_testbit, testbit_from_le by done. unfold byte_at. by rewrite Nat2Z.id.
Qed.

Lemma high_bits_succ scalar n :
  high_bits scalar n =
    (2 * high_bits scalar (S n) + Z.b2z (Z.testbit (from_le scalar) (Z.of_nat n)))%Z.
Proof.
  unfold high_bits. rewrite Z.testbit_spec' by lia. set (v := from_le scalar).
  rewrite Nat2Z.inj_succ, Z.pow_succ_r, (Z.mul_comm 2 (2 ^ _)), <- Z.div_div by lia.
  apply Z.div_mod. lia.
Qed.

Lemma multiple_on_curve a n b : Curve.on_curve a -> Curve.multiple a n b -> Curve.on_curve b.
Proof.
  intros Ha. induction 1; [apply Curve.on_curve_zero|done|by apply Curve.on_curve_add].
Qed.

Lemma ladder_ok p a scalar n : forall result b,
  represents p a -> Curve.on_curve a -> bytes_ok scalar ->
  represents result b -> Curve.multiple a (high_bits scalar n) b ->
  exists c, represents (Point.ladder p scalar n result) c /\ Curve.multiple a (from_le scalar) c.
Proof.
  induction n as [|bit IH]; intros result b Hp Ha Hs Hr Hm.
  { exists b. split; [done|]. unfold high_bits in Hm. by rewrite Z.div_1_r in Hm. }
  cbn [Point.ladder]. rewrite scalar_bit by done.
  pose proof (multiple_on_curve _ _ _ Ha Hm) as Hb.
  pose proof (point_double_ok _ _ Hr Hb) as H2. pose proof (Curve.multiple_add _ _ _ _ _ Hm Hm) as M2.
  pose proof (high_bits_succ scalar bit) as Hbit.
  destruct (Z.testbit (from_le scalar) (Z.of_nat bit)).
  - eapply IH; [done..|apply point_add_ok; [exact H2|exact Hp| |exact Ha]|].
    + by apply Curve.on_curve_add.
    + rewrite Hbit. replace (2 * _ + Z.b2z true)%Z with
        (high_bits scalar (S bit) + high_bits scalar (S bit) + 1)%Z by (cbn [Z.b2z]; lia).
      apply Curve.multiple_add; [exact M2|apply Curve.multiple_one].
  - eapply IH; [done..|exact H2|]. rewrite Hbit.
    replace (2 * _ + Z.b2z false)%Z with
      (high_bits scalar (S bit) + high_bits scalar (S bit))%Z by (cbn [Z.b2z]; lia). exact M2.
Qed.

Lemma mul_scalar_ok p a scalar :
  represents p a -> Curve.on_curve a -> bytes_ok scalar -> length scalar = 32%nat ->
  exists b, represents (Point.mul_scalar p scalar) b /\ Curve.multiple a (from_le scalar) b.
Proof.
  intros Hp Ha Hs Hl. unfold Point.mul_scalar.
  pose proof (from_le_bound scalar Hs) as R. unfold len in R. rewrite Hl in R.
  assert (E : high_bits scalar 256 = 0%Z) by (apply Z.div_small; exact R).
  generalize dependent 256%nat. intros n E.
  apply (ladder_ok p a scalar n Point.identity Curve.zero Hp Ha Hs represents_identity).
  rewrite E. apply Curve.multiple_zero.
Qed.

(** ** Signs *)

Lemma odd_opp (a : F) : a <> 0 -> odd (- a) = negb (odd a).
Proof.
  intros Ha. unfold odd.
  assert (E : Zmod.unsigned (- a) = (p25519 - Zmod.unsigned a)%Z).
  { rewrite Zmod.unsigned_opp. pose proof (unsigned_range a) as R.
    assert (Zmod.unsigned a <> 0%Z).
    { intros E. apply Ha. apply Zmod.unsigned_inj. rewrite E. symmetry. apply Zmod.unsigned_0. }
    symmetry. apply Z.mod_unique_pos with (q := (-1)%Z); lia. }
  rewrite E, Z.odd_sub. by destruct (Z.odd (Zmod.unsigned a)).
Qed.

Lemma odd_zero : odd 0 = false.
Proof. by vm_compute. Qed.

Lemma top_bit bs : bytes_ok bs -> (Z.shiftr (byte_at bs 31) 7 =? 1)%Z = Z.testbit (from_le bs) 255.
Proof.
  intros H. pose proof (byte_at_ok bs 31 H) as R. unfold is_u8 in R.
  change (Z.testbit (from_le bs) 255) with (Z.testbit (from_le bs) (Z.of_nat 255)).
  rewrite testbit_from_le by done. change (nth (255 / 8) bs 0%Z) with (byte_at bs 31).
  change (Z.of_nat (255 mod 8)) with 7%Z. rewrite Z.testbit_eqb, Z.shiftr_div_pow2 by lia.
  set (b := byte_at bs 31) in *. change (2 ^ 7)%Z with 128%Z. f_equal. dlia.
Qed.

(** Clearing the top bit keeps the low 255. *)
Lemma clear_top_bit bs :
  bytes_ok bs -> length bs = 32%nat ->
  let bs' := <[31%nat := Z.land (byte_at bs 31) 127]> bs in
  bytes_ok bs' /\ (from_le bs' mod 2 ^ 255 = from_le bs mod 2 ^ 255)%Z.
Proof.
  intros Hb Hl bs'. pose proof (byte_at_ok bs 31 Hb) as R.
  assert (Hb' : bytes_ok bs').
  { apply Forall_insert; [done|]. change 127%Z with (Z.ones 7). rewrite Z.land_ones by done.
    change (2 ^ 7)%Z with 128%Z. unfold is_u8. dlia. }
  split; [done|]. apply Z.bits_inj'. intros n Hn. destruct (decide (n < 255)%Z) as [Hlt|];
    [|by rewrite !Z.mod_pow2_bits_high by lia].
  rewrite !Z.mod_pow2_bits_low by lia. rewrite <- (Z2Nat.id n) by done. set (m := Z.to_nat n).
  assert (Hm : (m < 255)%nat) by lia. clearbody m. rewrite !testbit_from_le by done.
  rewrite !nth_lookup. unfold bs'. destruct (decide (m / 8 = 31)%nat) as [E|E].
  - rewrite E, list_lookup_insert_eq by lia. cbn [default id]. rewrite Z.land_spec.
    pose proof (Nat.div_mod_eq m 8). change 127%Z with (Z.ones 7).
    rewrite Z.ones_spec_low, andb_true_r by lia. f_equal. unfold byte_at. by rewrite nth_lookup.
  - by rewrite list_lookup_insert_ne.
Qed.

(** [1 + d y^2] is never zero, so the equation for [x] always makes sense. *)
Lemma v_nonzero (y : F) : y * y * Curve.d + 1 <> 0.
Proof.
  intros E. pose proof SQRT_M1_ok as Hi. set (i := eval SQRT_M1) in *. clearbody i.
  assert (Hy : y <> 0).
  { intros ->. apply Curve.one_nonzero. rewrite <- E. ring. }
  apply (Curve.d_not_square (Zmod.mdiv i y)). transitivity (Zmod.mdiv (i * i) (y * y)); [by field|].
  rewrite Hi. transitivity (Zmod.mdiv (y * y * Curve.d + 1 - 1) (y * y)); [rewrite E; field; exact Hy|].
  field. exact Hy.
Qed.

Lemma curve_equation (x y : F) :
  Curve.on_curve (x, y) <-> (y * y * Curve.d + 1) * (x * x) = y * y - 1.
Proof.
  unfold Curve.on_curve. split; intros H.
  - transitivity (1 + Curve.d * (x * x) * (y * y) + x * x - 1); [ring|]. rewrite <- H. ring.
  - transitivity (y * y - 1 - x * x + 1); [ring|]. rewrite <- H. ring.
Qed.

(** Two roots of the same equation: equal or opposite. *)
Lemma same_square (x r y : F) :
  (y * y * Curve.d + 1) * (x * x) = (y * y * Curve.d + 1) * (r * r) -> x = r \/ x = - r.
Proof.
  intros H. apply F_equal_squares. pose proof (v_nonzero y) as V.
  apply (Zmod.mul_cancel_l_prime (y * y * Curve.d + 1) _ _ prime_25519 V H).
Qed.

Lemma decompress_ok bs :
  bytes_ok bs -> length bs = 32%nat ->
  match Point.decompress bs with
  | Some p => exists a, represents p a /\ Curve.encodes bs a
  | None => forall a, ~ Curve.encodes bs a
  end.
Proof.
  intros Hb Hl. unfold Point.decompress. cbv zeta. rewrite top_bit by done.
  set (sign := Z.testbit (from_le bs) 255).
  destruct (clear_top_bit bs Hb Hl) as [Hb' Hv]. set (bs' := <[31%nat := _]> bs) in *.
  destruct (from_bytes_ok bs' Hb') as [By Ey]. rewrite Hv in Ey. set (Y := from_bytes bs') in *.
  clearbody Y bs'.
  assert (Ey' : eval Y = Zmod.of_Z p25519 (from_le bs mod 2 ^ 255)%Z) by (unfold eval; by rewrite Ey).
  set (U := sub (square Y) ONE). set (V := Field25519.add (mul (square Y) D) ONE).
  assert (BU : bounded U) by (unfold U; auto with fe). assert (BV : bounded V) by (unfold V; auto with fe).
  assert (EU : eval U = eval Y * eval Y - 1) by (unfold U; autorewrite with fe; reflexivity).
  assert (EV : eval V = eval Y * eval Y * Curve.d + 1) by (unfold V; autorewrite with fe; reflexivity).
  pose proof (sqrt_ratio_ok U V BU BV) as Hr. rewrite EU, EV in Hr.
  assert (Root : forall a, Curve.encodes bs a ->
    (eval Y * eval Y * Curve.d + 1) * (fst a * fst a) = eval Y * eval Y - 1 /\
    snd a = eval Y /\ odd (fst a) = sign).
  { intros [x y] (Hc & Hy & Hs). cbn [fst snd]. rewrite Ey', <- Hy. split; [|split; [reflexivity|exact Hs]].
    apply curve_equation. exact Hc. }
  destruct (sqrt_ratio U V) as [r|]; cbn [mbind option_bind];
    [|intros a Ha; destruct (Root a Ha) as (E & _); exact (Hr _ E)].
  destruct Hr as [Br Er]. rewrite is_zero_ok, is_negative_ok by done.
  destruct (bool_decide (eval r = 0) && sign)%bool eqn:Z0.
  { apply andb_prop in Z0 as [Hz Hs]. apply bool_decide_eq_true_1 in Hz.
    intros a Ha. destruct (Root a Ha) as (E & _ & Ho). rewrite <- Er in E. apply same_square in E.
    assert (fst a = 0) as Hx by (destruct E as [E|E]; rewrite E, Hz; ring).
    rewrite Hx, odd_zero in Ho. congruence. }
  set (X := if xorb (odd (eval r)) sign then neg r else r).
  assert (HX : bounded X /\ eval X * eval X = eval r * eval r /\ odd (eval X) = sign).
  { unfold X. destruct (odd (eval r)) eqn:O, sign eqn:S; cbn [xorb];
      try (split_and!; [exact Br|reflexivity|exact O]).
    - split_and!; [auto with fe|autorewrite with fe; ring|]. rewrite eval_neg by done.
      rewrite odd_opp, O; [reflexivity|]. intros E. rewrite E, odd_zero in O. discriminate.
    - split_and!; [auto with fe|autorewrite with fe; ring|]. rewrite eval_neg by done.
      rewrite odd_opp, O; [reflexivity|]. intros E. rewrite bool_decide_true in Z0 by exact E. discriminate. }
  clearbody X. destruct HX as (BX & SX & OX). exists (eval X, eval Y). split.
  - split; cbn [Point.x Point.y Point.z Point.t_ fst snd]; [auto with fe..|exact Curve.one_nonzero| | |];
      autorewrite with fe; ring.
  - split_and!; [|exact Ey'|exact OX]. apply curve_equation. rewrite SX. exact Er.
Qed.

(** ** Encodings *)

Lemma add_high_bit v n m : (0 <= v < 2 ^ Z.of_nat n)%Z ->
  (bool_decide (m = n) || Z.testbit v (Z.of_nat m))%bool = Z.testbit (2 ^ Z.of_nat n + v) (Z.of_nat m).
Proof.
  intros H. assert (High : forall i, (Z.of_nat n <= i)%Z -> Z.testbit v i = false).
  { intros i Hi. rewrite <- (Z.mod_small v (2 ^ Z.of_nat n)) by done. apply Z.mod_pow2_bits_high. lia. }
  assert (L : Z.land (2 ^ Z.of_nat n) v = 0%Z).
  { apply Z.bits_inj'. intros i Hi. rewrite Z.land_spec, Z.bits_0, Z.pow2_bits_eqb by lia.
    destruct (Z.eqb_spec (Z.of_nat n) i) as [<-|]; [by rewrite High|done]. }
  rewrite Z.add_nocarry_lxor, Z.lxor_spec, Z.pow2_bits_eqb by (exact L || lia).
  destruct (decide (m = n)) as [->|Hmn].
  - rewrite bool_decide_true, Z.eqb_refl by done. cbn [orb]. by rewrite High.
  - rewrite bool_decide_false by done. destruct (Z.eqb_spec (Z.of_nat n) (Z.of_nat m)); [lia|].
    by rewrite xorb_false_l.
Qed.

Lemma p25519_small : (p25519 < 2 ^ 255)%Z.
Proof. by vm_compute. Qed.

Lemma unsigned_small (y : F) : (0 <= Zmod.unsigned y < 2 ^ 255)%Z.
Proof. pose proof (unsigned_range y). pose proof p25519_small. lia. Qed.

Lemma from_le_encode a :
  from_le (Curve.encode a) =
    (Zmod.unsigned (snd a) + (if odd (fst a) then 2 ^ 255 else 0))%Z.
Proof.
  destruct a as [x y]. cbn [Curve.encode fst snd]. apply from_le_to_le.
  pose proof (unsigned_small y). change (256 ^ Z.of_nat 32)%Z with (2 ^ 255 + 2 ^ 255)%Z.
  destruct (odd x); lia.
Qed.

Lemma bytes_ok_encode a : bytes_ok (Curve.encode a).
Proof. destruct a. apply bytes_ok_to_le. Qed.

Lemma length_encode a : length (Curve.encode a) = 32%nat.
Proof. destruct a. apply length_to_le. Qed.

Lemma bit_255 (v : Z) (c : bool) : (0 <= v < 2 ^ 255)%Z ->
  ((v + (if c then 2 ^ 255 else 0)) mod 2 ^ 255 = v)%Z /\
  Z.testbit (v + (if c then 2 ^ 255 else 0))%Z 255 = c.
Proof.
  intros H. rewrite Z.testbit_eqb by done. destruct c.
  - replace (v + 2 ^ 255)%Z with (v + 1 * 2 ^ 255)%Z by lia. rewrite Z.mod_add, Z.div_add by done.
    by rewrite Z.mod_small, Z.div_small by done.
  - rewrite Z.add_0_r. by rewrite Z.mod_small, Z.div_small by done.
Qed.

(** A point of the curve is encoded by its encoding, *)
Lemma encodes_encode a : Curve.on_curve a -> Curve.encodes (Curve.encode a) a.
Proof.
  intros Ha. destruct a as [x y]. unfold Curve.encodes. rewrite from_le_encode. cbn [fst snd].
  destruct (bit_255 (Zmod.unsigned y) (odd x) (unsigned_small y)) as [-> ->].
  split_and!; [exact Ha| |reflexivity]. symmetry. apply Zmod.of_Z_to_Z.
Qed.

(** and by nothing else than what decodes to it. *)
Lemma encodes_unique bs a b : Curve.encodes bs a -> Curve.encodes bs b -> a = b.
Proof.
  destruct a as [x1 y1], b as [x2 y2]. intros (H1 & -> & O1) (H2 & -> & O2).
  set (y := Zmod.of_Z p25519 _) in *. apply curve_equation in H1, H2. rewrite <- H2 in H1.
  rewrite <- O2 in O1. destruct (same_square x1 x2 y H1) as [->| ->]; [reflexivity|].
  destruct (decide (x2 = 0)) as [->|Hn].
  - by replace (- (0 : F)) with (0 : F) by ring.
  - rewrite odd_opp in O1 by exact Hn. by destruct (odd x2).
Qed.

Lemma compress_ok p a : represents p a -> Point.compress p = Curve.encode a.
Proof.
  intros [Px Py Pz Pt Pn Ex Ey Et]. unfold Point.compress. cbv zeta.
  destruct (invert_ok (Point.z p) Pz) as [Bi Ei]. set (w := invert (Point.z p)) in *.
  assert (Inv : eval (Point.z p) * eval w = 1).
  { rewrite Ei. apply Zmod.mul_inv_same_r_prime; [exact prime_25519|exact Pn]. }
  assert (EX : eval (mul (Point.x p) w) = fst a).
  { rewrite eval_mul, Ex by done. transitivity (fst a * (eval (Point.z p) * eval w)); [ring|].
    rewrite Inv. ring. }
  assert (EY : eval (mul (Point.y p) w) = snd a).
  { rewrite eval_mul, Ey by done. transitivity (snd a * (eval (Point.z p) * eval w)); [ring|].
    rewrite Inv. ring. }
  rewrite is_negative_ok, to_bytes_ok, EX, EY by auto with fe.
  set (out := to_le 32 (Zmod.unsigned (snd a))).
  assert (Hout : is_byte_string out) by (split; [apply bytes_ok_to_le|apply length_to_le]).
  assert (Vout : from_le out = Zmod.unsigned (snd a)).
  { apply from_le_to_le. pose proof (unsigned_small (snd a)).
    change (256 ^ Z.of_nat 32)%Z with (2 ^ 255 + 2 ^ 255)%Z. lia. }
  pose proof (from_le_encode a) as Ve. rewrite <- (to_le_from_le (Curve.encode a) (bytes_ok_encode a)).
  rewrite length_encode, Ve. destruct (odd (fst a)).
  - destruct (set_bit_ok out 255 Hout) as [[Ho Hl] Hb]; [lia|]. change (alter _ _ out) with (set_bit out 255).
    rewrite <- (to_le_from_le (set_bit out 255) Ho), Hl. f_equal. rewrite <- Vout.
    apply Z.bits_inj'. intros n Hn. rewrite <- (Z2Nat.id n), Hb by done. set (m := Z.to_nat n).
    pose proof (unsigned_small (snd a)) as R. rewrite <- Vout in R. rewrite Z.add_comm.
    apply (add_high_bit (from_le out) 255 m R).
  - rewrite Z.add_0_r, <- Vout, <- (proj2 Hout) at 1. rewrite to_le_from_le by apply Hout.
    apply list_alter_id. intros b. apply Z.lor_0_r.
Qed.

(** ** The blinded key *)

(** The scalar the clamped factor is: [2^254], and the factor's bits 3 to 253. *)
Definition clamped (v : Z) : Z := (2 ^ 254 + 8 * ((v mod 2 ^ 254) / 8))%Z.

(** One byte rewritten, bit by bit. *)
Lemma alter_byte_ok f k out :
  is_byte_string out -> (k < 32)%nat -> (forall b, is_u8 b -> is_u8 (f b)) ->
  is_byte_string (alter f k out) /\
  forall m, Z.testbit (from_le (alter f k out)) (Z.of_nat m) =
    if decide (m / 8 = k)%nat then Z.testbit (f (nth k out 0%Z)) (Z.of_nat (m mod 8))
    else Z.testbit (from_le out) (Z.of_nat m).
Proof.
  intros [Hok Hlen] Hk Hf.
  assert (Hok' : bytes_ok (alter f k out)).
  { apply Forall_alter; [done|]. intros b Hb Hu. by apply Hf. }
  split; [by split; [|rewrite length_alter]|]. intros m. rewrite !testbit_from_le by done.
  rewrite !nth_lookup. destruct (decide (m / 8 = k)%nat) as [->|E].
  - rewrite list_lookup_alter, decide_True by done.
    destruct (lookup_lt_is_Some_2 out k) as [b Hb]; [lia|]. rewrite Hb. reflexivity.
  - rewrite list_lookup_alter, decide_False by congruence. reflexivity.
Qed.

Lemma land_u8 b c : is_u8 b -> (0 <= c)%Z -> is_u8 (Z.land b c).
Proof.
  unfold is_u8. intros H Hc. split; [apply Z.land_nonneg; lia|].
  destruct (decide (b = 0%Z)) as [->|]; [done|]. change 256%Z with (2 ^ 8)%Z.
  apply Z.log2_lt_cancel. rewrite Z.log2_pow2 by lia.
  pose proof (Z.log2_land b c ltac:(lia) Hc). pose proof (proj1 (Z.log2_lt_pow2 b 8 ltac:(lia)) ltac:(lia)). lia.
Qed.

Lemma lor_64_u8 b : is_u8 b -> is_u8 (Z.lor b 64).
Proof.
  unfold is_u8. intros H. split; [apply Z.lor_nonneg; lia|].
  destruct (decide (b = 0%Z)) as [->|]; [done|]. change 256%Z with (2 ^ 8)%Z.
  apply Z.log2_lt_cancel. rewrite Z.log2_lor by lia. rewrite Z.log2_pow2 by lia.
  change (Z.log2 64) with 6%Z. pose proof (proj1 (Z.log2_lt_pow2 b 8 ltac:(lia)) ltac:(lia)). lia.
Qed.

(** The bits of the three masks, by evaluation. *)
Lemma mask_bits r : (r < 8)%nat ->
  Z.testbit 248 (Z.of_nat r) = bool_decide (3 <= r)%nat /\
  Z.testbit 63 (Z.of_nat r) = bool_decide (r < 6)%nat /\
  Z.testbit 64 (Z.of_nat r) = bool_decide (r = 6)%nat.
Proof. intros H. do 8 (destruct r as [|r]; [by vm_compute|]). lia. Qed.

Lemma clamped_bits k v m :
  Z.testbit (2 ^ Z.of_nat k + 8 * ((v mod 2 ^ Z.of_nat k) / 8)) (Z.of_nat m) =
  (bool_decide (m = k) || (bool_decide (3 <= m < k)%nat && Z.testbit v (Z.of_nat m)))%bool.
Proof.
  rewrite <- add_high_bit.
  - f_equal. rewrite Z.mul_comm. change 8%Z with (2 ^ 3)%Z. rewrite Z.mul_pow2_bits by done.
    destruct (decide (m < 3)%nat).
    + rewrite Z.testbit_neg_r by lia. by rewrite bool_decide_false by lia.
    + rewrite Z.div_pow2_bits by lia. replace (Z.of_nat m - 3 + 3)%Z with (Z.of_nat m) by lia.
      destruct (decide (m < k)%nat).
      * rewrite Z.mod_pow2_bits_low by lia. by rewrite bool_decide_true by lia.
      * rewrite Z.mod_pow2_bits_high by lia. by rewrite bool_decide_false by lia.
  - pose proof (Z.mod_pos_bound v (2 ^ Z.of_nat k) ltac:(lia)). set (w := (v mod _)%Z) in *. dlia.
Qed.

Lemma clamp_ok param :
  is_byte_string param ->
  is_byte_string (clamp param) /\ from_le (clamp param) = clamped (from_le param).
Proof.
  intros Hp. unfold clamp. cbv zeta.
  destruct (alter_byte_ok (fun b => Z.land b 248) 0 param Hp) as [H0 B0];
    [lia|intros; by apply land_u8|]. set (h0 := alter _ 0%nat param) in *.
  destruct (alter_byte_ok (fun b => Z.land b 63) 31 h0 H0) as [H1 B1];
    [lia|intros; by apply land_u8|]. set (h1 := alter _ 31%nat h0) in *.
  destruct (alter_byte_ok (fun b => Z.lor b 64) 31 h1 H1) as [H2 B2];
    [lia|intros; by apply lor_64_u8|]. set (h2 := alter _ 31%nat h1) in *.
  split; [done|]. clearbody h0 h1 h2. set (v := from_le param) in *.
  apply Z.bits_inj'. intros n Hn. rewrite <- (Z2Nat.id n) by done. set (m := Z.to_nat n). clearbody m.
  pose proof (Nat.div_mod_eq m 8) as Em. pose proof (Nat.mod_upper_bound m 8 ltac:(lia)) as Rm.
  destruct (mask_bits (m mod 8) Rm) as (M1 & M2 & M3).
  pose proof (clamped_bits 254 v m) as Val. change (Z.of_nat 254) with 254%Z in Val.
  change (2 ^ 254 + _)%Z with (clamped v) in Val.
  rewrite Val, B2. pose proof (testbit_from_le h1 m (proj1 H1)) as T1. pose proof (testbit_from_le h0 m (proj1 H0)) as T0.
  pose proof (testbit_from_le param m (proj1 Hp)) as Tp. fold v in Tp.
  destruct (decide (m / 8 = 31)%nat) as [E|E].
  - rewrite E in T1, T0. rewrite Z.lor_spec, M3, <- T1, B1, decide_True, Z.land_spec, M2 by done.
    rewrite <- T0, B0, decide_False by lia.
    destruct (decide (m = 254)%nat) as [Hm|Hm].
    + rewrite (bool_decide_true (m = 254)%nat), (bool_decide_true (m mod 8 = 6)%nat) by lia.
      by rewrite orb_true_r.
    + rewrite (bool_decide_false (m = 254)%nat), (bool_decide_false (m mod 8 = 6)%nat) by lia.
      rewrite orb_false_r. cbn [orb]. rewrite andb_comm. f_equal. apply bool_decide_ext. lia.
  - rewrite B1, decide_False, B0 by done. rewrite (bool_decide_false (m = 254)%nat) by lia. cbn [orb].
    destruct (decide (m / 8 = 0)%nat) as [E0|E0].
    + rewrite E0 in Tp. rewrite Z.land_spec, M1, <- Tp, andb_comm. f_equal. apply bool_decide_ext. lia.
    + destruct (decide (m < 254)%nat).
      * by rewrite bool_decide_true by lia.
      * rewrite bool_decide_false by lia. rewrite Tp, nth_overflow; [apply Z.testbit_0_l|].
        rewrite (proj2 Hp). lia.
Qed.
End points.

(** Zero is all its multiples. *)
Lemma multiple_of_zero n b : Curve.multiple Curve.zero n b -> b = Curve.zero.
Proof.
  induction 1 as [| |n m q r _ IHq _ IHr]; [reflexivity|reflexivity|]. subst q r. by vm_compute.
Qed.

Lemma zero_encoding : Curve.encode Curve.zero = 1%Z :: zeros 31.
Proof. by vm_compute. Qed.

Section theorems.
Context `{M : Machine}.

(** The blinded key of a point is the encoding of a multiple of it. *)
Lemma blinded_multiple key param a :
  is_byte_string key -> is_byte_string param -> Curve.encodes key a ->
  exists b, blind_public_key key param = Ok (Curve.encode b) /\ Curve.on_curve b /\
    Curve.multiple a (clamped (from_le param)) b.
Proof.
  intros [Hk Lk] Hp En'. pose proof (decompress_ok key Hk Lk) as Hd. unfold blind_public_key.
  destruct (clamp_ok param Hp) as [[Hc Lc] Ec].
  destruct (Point.decompress key) as [p|]; cbn [ok_or mbind result_bind]; [|destruct (Hd a En')].
  destruct Hd as (a' & Ha & En). rewrite (encodes_unique key a a' En' En).
  assert (Hcurve : Curve.on_curve a') by (destruct a'; apply En).
  destruct (mul_scalar_ok p a' (clamp param) Ha Hcurve Hc Lc) as (b & Hb & Mb). rewrite Ec in Mb.
  exists b. split_and!; [|exact (multiple_on_curve _ _ _ Hcurve Mb)|exact Mb].
  f_equal. exact (compress_ok _ _ Hb).
Qed.

(** Zero is its own blinded key. *)
Lemma blinded_zero param : is_byte_string param -> blind_public_key (1%Z :: zeros 31) param = Ok (1%Z :: zeros 31).
Proof.
  intros Hp. rewrite <- zero_encoding.
  destruct (blinded_multiple (Curve.encode Curve.zero) param Curve.zero) as (b & E & _ & Mb).
  - split; [apply bytes_ok_encode|apply length_encode].
  - exact Hp.
  - apply encodes_encode, Curve.on_curve_zero.
  - apply multiple_of_zero in Mb. subst b. exact E.
Qed.

(** C27. The blinded key is the clamped multiple of the service's key. Whatever the build does with an overflowing word, if the 32-byte public key encodes a point of the curve (its y in the low 255 bits, reduced or not, and the parity of x in the top bit), blind_public_key answers the canonical encoding of a sum of exactly 2^254 + 8 * ((h mod 2^254) / 8) copies of that point, h being the 32-byte blinding factor, and that sum is again on the curve; if the key encodes no point the answer is the error the source names. *)
Theorem blind_public_key_spec key param :
  is_byte_string key -> is_byte_string param ->
  (forall a, Curve.encodes key a ->
     exists b, blind_public_key key param = Ok (Curve.encode b) /\ Curve.on_curve b /\
       Curve.multiple a (clamped (from_le param)) b) /\
  ((forall a, ~ Curve.encodes key a) ->
     blind_public_key key param =
       Err (invalid_data "onion service key is not a point on curve25519")).
Proof.
  intros Hk Hp. split; [intros a; by apply blinded_multiple|]. intros Hno.
  pose proof (decompress_ok key (proj1 Hk) (proj2 Hk)) as Hd. unfold blind_public_key.
  destruct (Point.decompress key) as [p|]; [|reflexivity]. destruct Hd as (a & _ & En). destruct (Hno a En).
Qed.

(** Points survive compression: for every point of the curve, decompressing its 32-byte encoding succeeds with extended coordinates of that very point, and compressing any extended coordinates of it gives back that encoding; and bytes that decompress encode exactly one point, so that no two points share an encoding. *)
Theorem point_encoding_roundtrip a :
  Curve.on_curve a ->
  (exists p, Point.decompress (Curve.encode a) = Some p /\ represents p a) /\
  (forall p, represents p a -> Point.compress p = Curve.encode a) /\
  (forall b, Curve.on_curve b -> Curve.encode b = Curve.encode a -> b = a).
Proof.
  intros Ha. split_and!.
  - pose proof (decompress_ok _ (bytes_ok_encode a) (length_encode a)) as Hd.
    destruct (Point.decompress _) as [p|]; [|destruct (Hd a (encodes_encode a Ha))].
    destruct Hd as (b & Hb & En). exists p. split; [reflexivity|].
    by rewrite <- (encodes_unique _ b a En (encodes_encode a Ha)).
  - intros p. apply compress_ok.
  - intros b Hb E. apply (encodes_unique (Curve.encode a)); [|by apply encodes_encode].
    rewrite <- E. by apply encodes_encode.
Qed.
End theorems.

(** ** The base point *)
Module PointDemo.

(** [4/5], with the even root. *)
Definition base : Curve.point :=
  (Zmod.of_Z p25519 15112221349535400772501151409588531511454012693041857206046113283949847762202,
   Zmod.of_Z p25519 46316835694926478169428394003475163141307993866256225615783033603165251855960).

Definition base_bytes : bytes := 88%Z :: replicate 31 102%Z.
Definition factor : bytes := zeros 32.

Lemma base_on_curve : Curve.on_curve base.
Proof. by vm_compute. Qed.

Lemma base_encoding : Curve.encode base = base_bytes.
Proof. by vm_compute. Qed.

Lemma blind_public_key_witness :
  exists b, blind_public_key base_bytes factor = Ok (Curve.encode b) /\ Curve.on_curve b /\
    Curve.multiple base (2 ^ 254)%Z b.
Proof.
  apply (proj1 (blind_public_key_spec base_bytes factor
    ltac:(split; [rewrite <- base_encoding; apply bytes_ok_encode|reflexivity])
    ltac:(split; [apply bytes_ok_zeros|reflexivity])) base).
  rewrite <- base_encoding. apply encodes_encode, base_on_curve.
Defined.

Lemma point_encoding_witness :
  exists p, Point.decompress base_bytes = Some p /\ represents p base.
Proof. rewrite <- base_encoding. exact (proj1 (point_encoding_roundtrip base base_on_curve)). Defined.
End PointDemo.
