(* ===== verification/Onion.v ===== *)
(** * Onion addresses, time periods and the hash ring
    ([src/src/crypto/base32.rs], [src/src/tor/hs/{mod,address,blind,hsdir}.rs])

    The base32 of [.onion] names, the address parser and printer, the blinding
    factor of a time period, and the ring of directory nodes that decides where
    a descriptor lives.  A [&str] slice at a byte that is not the start of a
    character panics; such a result is [None]. *)
From stdpp Require Import sorting.
From S2P Require Import Prelude.
From S2P Require Import Text.
From S2P Require Import Crypto.
From S2P Require Import Util.
From S2P Require Import Consensus.
From S2P Require Import Field25519.
From S2P Require Import Ed25519Point.

(** ** Base32 ([crypto/base32.rs]) *)
Module Base32.

Definition ALPHABET : bytes := B "abcdefghijklmnopqrstuvwxyz234567".

Definition value (c : Z) : option Z :=
  if (97 <=? c) && (c <=? 122) then Some (c - 97)
  else if (65 <=? c) && (c <=? 90) then Some (c - 65)
  else if (50 <=? c) && (c <=? 55) then Some (c - 50 + 26)
  else None.

(** The loop over the characters: the accumulator is a [u16] and loses its top
    bits in each shift. *)
Fixpoint decode_loop (input : bytes) (acc bits : Z) (out : bytes) : result (Z * Z * bytes) :=
  match input with
  | [] => Ok (acc, bits, out)
  | c :: input =>
      if c =? 61 then Ok (acc, bits, out)
      else
        v ← ok_or (value c) (invalid_data "invalid base32 character");
        let acc := Z.lor (as_u16 (Z.shiftl acc 5)) v in
        let bits := bits + 5 in
        if 8 <=? bits
        then decode_loop input acc (bits - 8) (out ++ [as_u8 (Z.shiftr acc (bits - 8))])
        else decode_loop input acc bits out
  end.

Definition decode (input : bytes) : result bytes :=
  '(acc, bits, out) ← decode_loop input 0 0 [];
  if (5 <=? bits) || negb (Z.land acc (Z.shiftl 1 bits - 1) =? 0)
  then Err (invalid_data "truncated base32 group")
  else Ok out.

(** The inner [while]: at most twelve bits are waiting, so three rounds do. *)
Fixpoint emit (fuel : nat) (acc bits : Z) (out : bytes) : Z * bytes :=
  match fuel with
  | O => (bits, out)
  | S fuel =>
      if 5 <=? bits
      then emit fuel acc (bits - 5)
             (out ++ [byte_at ALPHABET (Z.land (Z.shiftr acc (bits - 5)) 31)])
      else (bits, out)
  end.

Fixpoint encode_loop (data : bytes) (acc bits : Z) (out : bytes) : Z * Z * bytes :=
  match data with
  | [] => (acc, bits, out)
  | byte :: data =>
      let acc := Z.lor (as_u16 (Z.shiftl acc 8)) byte in
      let '(bits, out) := emit 3 acc (bits + 8) out in
      encode_loop data acc bits out
  end.

Definition encode (data : bytes) : bytes :=
  let '(acc, bits, out) := encode_loop data 0 0 [] in
  if 0 <? bits
  then out ++ [byte_at ALPHABET (Z.land (as_u16 (Z.shiftl acc (5 - bits))) 31)]
  else out.
End Base32.

Example rfc4648_vector : Base32.encode (B "foobar") = B "mzxw6ytboi".
Proof. by vm_compute. Qed.
Example rfc4648_vector_back : Base32.decode (B "MZXW6YTBOI======") = Ok (B "foobar").
Proof. by vm_compute. Qed.

(** ** Slices of a [&str] *)

(** [str::is_char_boundary]: not a continuation byte. *)
Definition is_char_boundary (s : bytes) (i : Z) : bool :=
  (i =? 0) || (i =? len s) ||
  ((0 <? i) && (i <? len s) && negb (Z.land (byte_at s i) 192 =? 128)).

(** [&s[i..]] and [&s[..i]]; [None] is a panic. *)
Definition str_from (s : bytes) (i : Z) : option bytes :=
  if is_char_boundary s i then Some (slice_from s i) else None.

(** ** Addresses ([hs/address.rs]) *)

Definition SUFFIX : bytes := B ".onion".
Definition VERSION : Z := 3.
Definition ADDRESS_CHARS : Z := 56.
Definition V2_ADDRESS_CHARS : Z := 16.

Record OnionAddress := MkOnion { public_key : bytes }.

Definition is_onion (host : bytes) : option bool :=
  if len host <=? len SUFFIX then Some false
  else
    tail ← str_from host (len host - len SUFFIX);
    Some (eq_ignore_ascii_case tail SUFFIX).

Section address.
Context `{Crypto}.

Definition checksum (public_key : bytes) : bytes :=
  slice_to (sha3_256 (B ".onion checksum" ++ public_key ++ [VERSION])) 2.

Definition parse_body (body : bytes) : result OnionAddress :=
  if len body =? V2_ADDRESS_CHARS then
    Err (invalid_data "version 2 onion addresses are no longer part of the Tor network")
  else if negb (len body =? ADDRESS_CHARS) then
    Err (invalid_data "an onion address is {ADDRESS_CHARS} characters, this one is {}")
  else
    raw ← Base32.decode body;
    if negb (len raw =? 35) then Err (invalid_data "onion address does not decode to 35 bytes")
    else
      let public_key := slice_to raw 32 in
      let version := byte_at raw 34 in
      if negb (version =? VERSION) then Err (invalid_data "unsupported onion address version {version}")
      else if negb (bytes_eqb (slice raw 32 34) (checksum public_key))
      then Err (invalid_data "onion address checksum does not match")
      else Ok (MkOnion public_key).

Definition parse (host : bytes) : option (result OnionAddress) :=
  if len host <? len SUFFIX then Some (parse_body host)
  else
    let cut := len host - len SUFFIX in
    tail ← str_from host cut;
    Some (parse_body (if eq_ignore_ascii_case tail SUFFIX then slice_to host cut else host)).

Definition credential (a : OnionAddress) : bytes := sha3_256 (B "credential" ++ public_key a).

Definition subcredential (a : OnionAddress) (blinded_key : bytes) : bytes :=
  sha3_256 (B "subcredential" ++ credential a ++ blinded_key).

(** [Display]. *)
Definition to_string (a : OnionAddress) : bytes :=
  Base32.encode (public_key a ++ checksum (public_key a) ++ [VERSION]) ++ SUFFIX.

(** ** Hashes of the onion-service protocol ([hs/mod.rs]) *)

Definition int8 (value : Z) : bytes := to_be 8 value.

Definition mac (key msg : bytes) : bytes := sha3_256 (int8 (len key) ++ key ++ msg).
End address.

(** ** Time periods ([hs/blind.rs]) *)

Definition ROTATION_OFFSET_MINUTES : Z := 12 * 60.
Definition BLIND_STRING : bytes := B "Derive temporary signing key" ++ [0].
Definition BASEPOINT_STRING : bytes :=
  B "(15112221349535400772501151409588531511454012693041857206046113283949847762202, 46316835694926478169428394003475163141307993866256225615783033603165251855960)".

Module TimePeriod.
Record t := Mk { number : Z; length : Z }.

Definition containing (valid_after_unix length_minutes : Z) : t :=
  let length := Z.max length_minutes 1 in
  let minutes := valid_after_unix / 60 in
  Mk (sat_sub minutes ROTATION_OFFSET_MINUTES / length) length.

Section hashes.
Context `{Crypto}.

Definition blinding_param (p : t) (public_key : bytes) : bytes :=
  sha3_256 (BLIND_STRING ++ public_key ++ BASEPOINT_STRING ++ B "key-blind" ++
            int8 (number p) ++ int8 (length p)).

Definition blinded_key `{Machine} (p : t) (public_key : bytes) : result bytes :=
  blind_public_key public_key (blinding_param p public_key).
End hashes.
End TimePeriod.

(** ** The ring ([hs/hsdir.rs]) *)
Module HsDir.

(** Arrays of bytes compare lexicographically. *)
Fixpoint lex_ltb (a b : bytes) : bool :=
  match a, b with
  | x :: a, y :: b => (x <? y) || ((x =? y) && lex_ltb a b)
  | [], _ :: _ => true
  | _, [] => false
  end.

Definition lex_le (a b : bytes) : Prop := lex_ltb b a = false.

#[export] Instance lex_le_dec a b : Decision (lex_le a b) := decide (lex_ltb b a = false).

Record RingNode := MkNode { identity : bytes; index : bytes }.

Definition node_le (m n : RingNode) : Prop := lex_le (index m) (index n).

#[export] Instance node_le_dec m n : Decision (node_le m n) := lex_le_dec _ _.

(** [partition_point] of a slice that the predicate partitions. *)
Fixpoint partition_point {A} (p : A -> bool) (l : list A) : nat :=
  match l with
  | [] => 0
  | x :: l => if p x then S (partition_point p l) else 0
  end.

Section ring.
Context `{Crypto}.

Definition hs_index (blinded_key : bytes) (replica : Z) (period : TimePeriod.t) : bytes :=
  sha3_256 (B "store-at-idx" ++ blinded_key ++ int8 replica ++
            int8 (TimePeriod.length period) ++ int8 (TimePeriod.number period)).

Definition hsdir_index (node_ed_identity srv : bytes) (period : TimePeriod.t) : bytes :=
  sha3_256 (B "node-idx" ++ node_ed_identity ++ srv ++
            int8 (TimePeriod.number period) ++ int8 (TimePeriod.length period)).

Definition place (srv : bytes) (period : TimePeriod.t) (node : bytes * bytes) : RingNode :=
  MkNode (fst node) (hsdir_index (snd node) srv period).

(** [sort_unstable_by_key] is free to order equal indices as it likes; this is
    one of its results. *)
Definition build_ring (nodes : list (bytes * bytes)) (srv : bytes) (period : TimePeriod.t)
    : list RingNode :=
  merge_sort node_le (map (place srv period) nodes).

(** The steps around the ring from [first]: [taken] counts what this replica
    has claimed. *)
Fixpoint walk (ring : list RingNode) (first : nat) (steps : list nat) (spread_fetch taken : nat)
    (out : list bytes) : list bytes :=
  match steps with
  | [] => out
  | step :: steps =>
      if (taken =? spread_fetch)%nat then out
      else
        match ring !! ((first + step) mod length ring)%nat with
        | None => out
        | Some node =>
            if bool_decide (identity node ∈ out) then walk ring first steps spread_fetch taken out
            else walk ring first steps spread_fetch (S taken) (out ++ [identity node])
        end
  end.

(** The replicas from [replica] on, [n] of them. *)
Fixpoint replicas (ring : list RingNode) (blinded_key : bytes) (period : TimePeriod.t)
    (replica : Z) (n : nat) (spread_fetch : nat) (out : list bytes) : list bytes :=
  match n with
  | O => out
  | S n =>
      let start := hs_index blinded_key replica period in
      let first := partition_point (fun node => lex_ltb (index node) start) ring in
      let out := walk ring first (seq 0 (length ring)) spread_fetch 0 out in
      replicas ring blinded_key period (replica + 1) n spread_fetch out
  end.

Definition responsible (ring : list RingNode) (blinded_key : bytes) (period : TimePeriod.t)
    (n_replicas : nat) (spread_fetch : nat) : list bytes :=
  match ring with
  | [] => []
  | _ => replicas ring blinded_key period 1 n_replicas spread_fetch []
  end.

Definition disaster_srv (period_length period_num : Z) : bytes :=
  sha3_256 (B "shared-random-disaster" ++ int8 period_length ++ int8 period_num).

Definition shared_random_value (consensus : Consensus.t) (period : TimePeriod.t) : bytes :=
  let after_noon := 12 * 3600 <=? Consensus.valid_after consensus mod 86400 in
  let '(published, number) :=
    if after_noon
    then (Consensus.shared_rand_current consensus, TimePeriod.number period)
    else (Consensus.shared_rand_previous consensus,
          (TimePeriod.number period - 1) mod 18446744073709551616) in
  match published with
  | Some srv => srv
  | None => disaster_srv (TimePeriod.length period) number
  end.
End ring.
End HsDir.

(** ** Base32 as base-32 digits *)

Lemma from_be_acc acc l : fold_left (fun acc b => acc * 256 + b) l acc = acc * 256 ^ len l + from_be l.
Proof.
  revert acc. induction l as [|b l IH] using rev_ind; intros acc.
  - unfold from_be. rewrite Z.mul_1_r. cbn. lia.
  - rewrite fold_left_app. cbn [fold_left]. rewrite IH, from_be_snoc, len_app.
    rewrite Z.pow_add_r by solve_len. change (256 ^ len [b]) with 256. lia.
Qed.
Module Base32Facts.
Import Base32.

(** [n] digits of [v], and back. *)
Fixpoint digits (n : nat) (v : Z) : list Z :=
  match n with
  | O => []
  | S m => digits m (v / 32) ++ [v mod 32]
  end.
Definition number (vs : list Z) : Z := fold_left (fun acc v => acc * 32 + v) vs 0.

Definition is_digit (v : Z) : Prop := 0 <= v < 32.

Lemma length_digits n v : length (digits n v) = n.
Proof. revert v. induction n as [|n IH]; intros v; [done|]. cbn. rewrite length_app, IH. cbn. lia. Qed.

Lemma digits_ok n v : Forall is_digit (digits n v).
Proof.
  revert v. induction n as [|n IH]; intros v; cbn; [constructor|]. apply Forall_app. split; [done|].
  constructor; [|constructor]. apply Z.mod_pos_bound. lia.
Qed.

Lemma number_snoc vs v : number (vs ++ [v]) = number vs * 32 + v.
Proof. unfold number. by rewrite fold_left_app. Qed.

Lemma number_app acc vs : fold_left (fun acc v => acc * 32 + v) vs acc = acc * 32 ^ len vs + number vs.
Proof.
  revert acc. induction vs as [|v vs IH] using rev_ind; intros acc.
  - unfold number. rewrite Z.mul_1_r. cbn. lia.
  - rewrite fold_left_app. cbn [fold_left]. rewrite IH, number_snoc, len_app.
    rewrite Z.pow_add_r by solve_len. change (32 ^ len [v]) with 32. lia.
Qed.

Lemma number_bound vs : Forall is_digit vs -> 0 <= number vs < 32 ^ len vs.
Proof.
  unfold is_digit. induction vs as [|v vs IH] using rev_ind; [by vm_compute|].
  intros H. apply Forall_app in H as [Hs Hv]. inversion_clear Hv as [|? ? Hv' _]. specialize (IH Hs).
  rewrite number_snoc, len_app, Z.pow_add_r by solve_len. change (32 ^ len [v]) with 32. lia.
Qed.

Lemma number_digits n v : 0 <= v < 32 ^ Z.of_nat n -> number (digits n v) = v.
Proof.
  revert v. induction n as [|n IH]; intros v H; [cbn in *; lia|].
  rewrite Nat2Z.inj_succ, Z.pow_succ_r in H by lia. cbn [digits]. rewrite number_snoc, IH; [dlia|].
  split; [dlia|]. apply Z.div_lt_upper_bound; lia.
Qed.

Lemma digits_number vs : Forall is_digit vs -> digits (length vs) (number vs) = vs.
Proof.
  unfold is_digit. induction vs as [|v vs IH] using rev_ind; [done|].
  intros H. apply Forall_app in H as [Hs Hv]. inversion_clear Hv as [|? ? Hv' _].
  rewrite length_app, Nat.add_comm. cbn [Nat.add length digits]. rewrite number_snoc. f_equal.
  - replace ((number vs * 32 + v) / 32) with (number vs) by dlia. by apply IH.
  - f_equal. dlia.
Qed.

(** *** Decoding *)

(** The values of the characters before any padding. *)
Fixpoint symbols (s : bytes) : option (list Z) :=
  match s with
  | [] => Some []
  | c :: s => if c =? 61 then Some [] else v ← value c; vs ← symbols s; Some (v :: vs)
  end.

Lemma value_digit c v : value c = Some v -> is_digit v.
Proof. unfold value, is_digit. intros H. res_inv; b2p; lia. Qed.

Lemma symbols_ok s : forall vs, symbols s = Some vs -> Forall is_digit vs.
Proof.
  induction s as [|c s IH]; intros vs H; cbn in H; [injection H as <-; constructor|].
  destruct (c =? 61); [injection H as <-; constructor|].
  destruct (value c) as [v|] eqn:V; [|done]. cbn in H. destruct (symbols s) as [ws|]; [|done].
  injection H as <-. constructor; [by eapply value_digit|by apply IH].
Qed.

(** What the loop holds when it has read the number [V] in [k] symbols. *)
Definition decoded (V k : Z) : Z * Z * bytes :=
  (V mod 65536, 5 * k mod 8, to_be (Z.to_nat (5 * k / 8)) (V / 2 ^ (5 * k mod 8))).

Lemma acc_step V v : 0 <= V -> is_digit v ->
  Z.lor (as_u16 (Z.shiftl (V mod 65536) 5)) v = (V * 32 + v) mod 65536.
Proof.
  unfold is_digit, as_u16. intros HV Hv.
  replace (Z.shiftl (V mod 65536) 5 mod 65536) with (Z.shiftl (V mod 2048) 5)
    by (rewrite !Z.shiftl_mul_pow2 by lia; change (2 ^ 5) with 32; dlia).
  rewrite lor_low by lia. change (2 ^ 5) with 32. dlia.
Qed.

Lemma decode_step V k v :
  0 <= V -> 0 <= k -> is_digit v ->
  let V' := V * 32 + v in
  let '(acc, bits, out) := decoded V k in
  let acc' := Z.lor (as_u16 (Z.shiftl acc 5)) v in
  decoded V' (k + 1) =
    if 8 <=? bits + 5
    then (acc', bits + 5 - 8, out ++ [as_u8 (Z.shiftr acc' (bits + 5 - 8))])
    else (acc', bits + 5, out).
Proof.
  intros HV Hk Hv. cbv zeta. unfold decoded. rewrite acc_step by done. unfold is_digit in Hv.
  set (b := 5 * k mod 8). assert (Hb : 0 <= b < 8) by (unfold b; dlia).
  assert (HV' : V = (V * 32 + v) / 2 ^ 5) by (change (2 ^ 5) with 32; dlia).
  destruct (Z.leb_spec 8 (b + 5)) as [H8|H8].
  - replace (5 * (k + 1) mod 8) with (b + 5 - 8) by (unfold b in *; dlia).
    replace (5 * (k + 1) / 8) with (5 * k / 8 + 1) by (unfold b in *; dlia).
    f_equal. rewrite Z2Nat.inj_add, Nat.add_1_r by dlia. cbn [to_be]. f_equal.
    + f_equal. rewrite HV' at 2. rewrite Z.div_div by lia. change 256 with (2 ^ 8).
      rewrite Z.div_div, <- !Z.pow_add_r by lia. do 2 f_equal. lia.
    + f_equal. unfold as_u8. rewrite Z.shiftr_div_pow2 by lia. change 65536 with (2 ^ 16).
      change 256 with (2 ^ 8). set (W := V * 32 + v). apply Z.bits_inj'. intros n Hn.
      destruct (decide (n < 8)).
      * rewrite !Z.mod_pow2_bits_low, !Z.div_pow2_bits, Z.mod_pow2_bits_low by lia. done.
      * by rewrite !Z.mod_pow2_bits_high by lia.
  - replace (5 * (k + 1) mod 8) with (b + 5) by (unfold b in *; dlia).
    replace (5 * (k + 1) / 8) with (5 * k / 8) by (unfold b in *; dlia).
    f_equal. f_equal. rewrite HV' at 2. rewrite Z.div_div, <- Z.pow_add_r by lia. do 2 f_equal. lia.
Qed.

Lemma decode_loop_eq s : forall V k acc bits out,
  0 <= V -> 0 <= k -> decoded V k = (acc, bits, out) ->
  decode_loop s acc bits out =
    match symbols s with
    | Some vs => Ok (decoded (V * 32 ^ len vs + number vs) (k + len vs))
    | None => Err (invalid_data "invalid base32 character")
    end.
Proof.
  induction s as [|c s IH]; intros V k acc bits out HV Hk E; cbn [decode_loop symbols].
  { change (32 ^ len []) with 1. change (number []) with 0.
    rewrite Z.mul_1_r, !Z.add_0_r, E. done. }
  destruct (c =? 61).
  { change (32 ^ len []) with 1. change (number []) with 0.
    rewrite Z.mul_1_r, !Z.add_0_r, E. done. }
  destruct (value c) as [v|] eqn:Vc; [|done]. apply value_digit in Vc.
  cbn [ok_or mbind result_bind option_bind].
  pose proof (decode_step V k v HV Hk Vc) as St. rewrite E in St. cbv zeta in St. unfold is_digit in Vc.
  set (acc' := Z.lor _ _) in *.
  assert (Hrec : forall b' o', decoded (V * 32 + v) (k + 1) = (acc', b', o') ->
    decode_loop s acc' b' o' =
    match (vs ← symbols s; Some (v :: vs)) with
    | Some vs => Ok (decoded (V * 32 ^ len vs + number vs) (k + len vs))
    | None => Err (invalid_data "invalid base32 character")
    end).
  { intros b' o' E'. rewrite (IH (V * 32 + v) (k + 1) acc' b' o') by (done || lia).
    destruct (symbols s) as [vs|]; [|done]. cbn [mbind option_bind]. do 2 f_equal.
    - rewrite len_cons, Z.pow_add_r by solve_len. change (32 ^ 1) with 32.
      assert (N : number (v :: vs) = v * 32 ^ len vs + number vs).
      { unfold number at 1. cbn [fold_left]. by rewrite number_app. }
      rewrite N. ring.
    - solve_len. }
  destruct (8 <=? bits + 5); by apply Hrec.
Qed.

(** *** Encoding *)

Definition char_of (v : Z) : Z := byte_at ALPHABET v.

(** Every value has a character, whose value it is; letters are lower case. *)
Definition char_ok (v : Z) : bool :=
  bool_decide (value (char_of v) = Some v) && negb (char_of v =? 61) &&
  (to_ascii_lowercase (char_of v) =? char_of v) && (50 <=? char_of v) && (char_of v <=? 122).

Lemma chars_ok v : is_digit v -> char_ok v = true.
Proof.
  intros H. assert (All : forallb char_ok (seqZ 0 32) = true) by (by vm_compute).
  rewrite forallb_forall in All. apply All, list_elem_of_In, elem_of_seqZ. unfold is_digit in H. lia.
Qed.

Lemma value_char v : is_digit v -> value (char_of v) = Some v.
Proof. intros H. apply chars_ok in H. unfold char_ok in H. b2p. done. Qed.

Lemma lower_char c v : value c = Some v -> to_ascii_lowercase c = char_of v.
Proof.
  intros H. pose proof (value_digit _ _ H) as Hv.
  unfold value in H. unfold to_ascii_lowercase, is_ascii_upper, char_of.
  assert (Letters : forall n, 0 <= n < 26 -> byte_at ALPHABET n = n + 97).
  { intros n Hn. assert (All : forallb (fun n => byte_at ALPHABET n =? n + 97) (seqZ 0 26) = true) by (by vm_compute).
    rewrite forallb_forall in All. apply Z.eqb_eq, All, list_elem_of_In, elem_of_seqZ. lia. }
  assert (Numbers : forall n, 26 <= n < 32 -> byte_at ALPHABET n = n + 24).
  { intros n Hn. assert (All : forallb (fun n => byte_at ALPHABET n =? n + 24) (seqZ 26 6) = true) by (by vm_compute).
    rewrite forallb_forall in All. apply Z.eqb_eq, All, list_elem_of_In, elem_of_seqZ. lia. }
  res_inv; b2p; subst.
  - rewrite Letters by lia. zif; cbn [andb]; lia.
  - rewrite Letters by lia. zif; cbn [andb]; lia.
  - rewrite Numbers by lia. zif; cbn [andb]; lia.
Qed.

Lemma symbols_chars vs : Forall is_digit vs -> symbols (map char_of vs) = Some vs.
Proof.
  induction 1 as [|v vs Hv Hvs IH]; [done|]. cbn [map symbols].
  pose proof (chars_ok v Hv) as C. unfold char_ok in C. b2p.
  rewrite (proj2 (Z.eqb_neq (char_of v) 61)) by done. rewrite value_char, IH by done. done.
Qed.

(** The characters before any padding. *)
Fixpoint unpadded (s : bytes) : bytes :=
  match s with
  | [] => []
  | c :: s => if c =? 61 then [] else c :: unpadded s
  end.

Lemma symbols_lower s : forall vs,
  symbols s = Some vs -> map to_ascii_lowercase (unpadded s) = map char_of vs.
Proof.
  induction s as [|c s IH]; intros vs H; cbn [symbols unpadded] in *; [by injection H as <-|].
  destruct (c =? 61); [by injection H as <-|]. destruct (value c) as [v|] eqn:V; [|done].
  cbn [mbind option_bind] in H. destruct (symbols s) as [ws|]; [|done]. injection H as <-.
  cbn [map]. f_equal; [by apply lower_char|by apply IH].
Qed.

Lemma value_lower c : value (to_ascii_lowercase c) = value c.
Proof.
  unfold to_ascii_lowercase, is_ascii_upper. destruct ((65 <=? c) && (c <=? 90)) eqn:E; [|done]. b2p.
  unfold value. zif; cbn [andb]; try done; f_equal; lia.
Qed.

Lemma lower_not_pad c : (to_ascii_lowercase c =? 61) = (c =? 61).
Proof.
  unfold to_ascii_lowercase, is_ascii_upper. destruct ((65 <=? c) && (c <=? 90)) eqn:E; [|done]. b2p.
  zif; done.
Qed.

Lemma symbols_lower_eq s : symbols (map to_ascii_lowercase (unpadded s)) = symbols s.
Proof.
  induction s as [|c s IH]; [done|]. cbn [unpadded symbols]. destruct (c =? 61) eqn:E; [done|].
  cbn [map symbols]. rewrite lower_not_pad, E, value_lower, IH. done.
Qed.

(** What the encoder's loop holds after the number [V] in [m] bytes. *)
Definition encoded (V m : Z) : Z * Z * bytes :=
  (V mod 65536, 8 * m mod 5, map char_of (digits (Z.to_nat (8 * m / 5)) (V / 2 ^ (8 * m mod 5)))).

Lemma land_31 x : Z.land x 31 = x mod 32.
Proof. change 31 with (Z.ones 5). by rewrite Z.land_ones by lia. Qed.

Lemma emit_one V b n :
  0 <= V -> 5 <= b <= 16 ->
  map char_of (digits n (V / 2 ^ b)) ++ [byte_at ALPHABET (Z.land (Z.shiftr (V mod 65536) (b - 5)) 31)] =
  map char_of (digits (S n) (V / 2 ^ (b - 5))).
Proof.
  intros HV Hb. cbn [digits]. rewrite map_app. f_equal.
  - do 2 f_equal. change 32 with (2 ^ 5). rewrite Z.div_div, <- Z.pow_add_r by lia. do 2 f_equal. lia.
  - cbn [map]. f_equal. unfold char_of. f_equal. rewrite land_31, Z.shiftr_div_pow2 by lia.
    change 65536 with (2 ^ 16). change 32 with (2 ^ 5). apply Z.bits_inj'. intros i Hi.
    destruct (decide (i < 5)).
    + rewrite !Z.mod_pow2_bits_low, !Z.div_pow2_bits, Z.mod_pow2_bits_low by lia. done.
    + by rewrite !Z.mod_pow2_bits_high by lia.
Qed.

Lemma emit_ok V b n :
  0 <= V -> 0 <= b <= 12 ->
  emit 3 (V mod 65536) b (map char_of (digits n (V / 2 ^ b))) =
    (b mod 5, map char_of (digits (n + Z.to_nat (b / 5)) (V / 2 ^ (b mod 5)))).
Proof.
  intros HV Hb. cbn [emit]. destruct (Z.leb_spec 5 b) as [H5|H5].
  - rewrite emit_one by lia. destruct (Z.leb_spec 5 (b - 5)) as [H10|H10].
    + rewrite emit_one by lia. rewrite (proj2 (Z.leb_gt 5 (b - 5 - 5))) by lia.
      replace (b mod 5) with (b - 5 - 5) by dlia. replace (b / 5) with 2 by dlia.
      do 3 f_equal. lia.
    + replace (b mod 5) with (b - 5) by dlia. replace (b / 5) with 1 by dlia. do 3 f_equal. lia.
  - replace (b mod 5) with b by dlia. replace (b / 5) with 0 by dlia. do 3 f_equal. lia.
Qed.

Lemma encode_loop_eq data : forall V m acc bits out,
  0 <= V -> 0 <= m -> bytes_ok data -> encoded V m = (acc, bits, out) ->
  encode_loop data acc bits out = encoded (V * 256 ^ len data + from_be data) (m + len data).
Proof.
  induction data as [|b data IH]; intros V m acc bits out HV Hm Hd E; cbn [encode_loop].
  { change (256 ^ len []) with 1. change (from_be []) with 0. by rewrite Z.mul_1_r, !Z.add_0_r, E. }
  apply bytes_ok_cons in Hd as [Hb Hd]. unfold is_u8 in Hb. injection E as <- <- <-.
  assert (Eacc : Z.lor (as_u16 (Z.shiftl (V mod 65536) 8)) b = (V * 256 + b) mod 65536).
  { unfold as_u16. replace (Z.shiftl (V mod 65536) 8 mod 65536) with (Z.shiftl (V mod 256) 8)
      by (rewrite !Z.shiftl_mul_pow2 by lia; change (2 ^ 8) with 256; dlia).
    rewrite lor_low by (change (2 ^ 8) with 256; lia). change (2 ^ 8) with 256. dlia. }
  rewrite Eacc. set (V' := V * 256 + b). set (r := 8 * m mod 5). assert (Hr : 0 <= r < 5) by (unfold r; dlia).
  assert (EV : V / 2 ^ r = V' / 2 ^ (r + 8)).
  { rewrite Z.add_comm, Z.pow_add_r, <- Z.div_div by lia. f_equal. unfold V'. change (2 ^ 8) with 256. dlia. }
  rewrite EV, emit_ok by (unfold V'; lia).
  rewrite (IH V' (m + 1) _ _ _ ltac:(unfold V'; lia) ltac:(lia) Hd).
  - f_equal; [|solve_len]. rewrite len_cons, Z.pow_add_r by solve_len. change (256 ^ 1) with 256.
    unfold from_be at 2. cbn [fold_left]. rewrite from_be_acc. unfold V'. ring.
  - unfold encoded. fold V'. replace (8 * (m + 1) mod 5) with ((r + 8) mod 5) by (unfold r in *; dlia).
    do 3 f_equal. rewrite <- Z2Nat.inj_add by (unfold r in *; dlia). f_equal. unfold r in *. dlia.
Qed.

(** [m] bytes take [chars m] characters, the last padded with [spare m] bits. *)
Definition chars (m : Z) : Z := (8 * m + 4) / 5.
Definition spare (m : Z) : Z := 5 * chars m - 8 * m.

Lemma spare_range m : 0 <= spare m < 5.
Proof. unfold spare, chars. dlia. Qed.

Lemma encode_eq data :
  bytes_ok data ->
  encode data =
    map char_of (digits (Z.to_nat (chars (len data))) (from_be data * 2 ^ spare (len data))).
Proof.
  intros Hd. unfold encode. rewrite (encode_loop_eq data 0 0 0 0 []) by done.
  rewrite Z.mul_0_l, !Z.add_0_l. pose proof (from_be_bound data Hd) as R. pose proof (len_nonneg data) as Hm.
  set (m := len data) in *. set (V := from_be data) in *. unfold encoded.
  destruct (Z.ltb_spec 0 (8 * m mod 5)) as [H0|H0].
  - assert (Es : spare m = 5 - 8 * m mod 5) by (unfold spare, chars; dlia).
    assert (Ec : Z.to_nat (chars m) = S (Z.to_nat (8 * m / 5))) by (unfold chars; dlia).
    rewrite Es, Ec. set (r := 8 * m mod 5) in *. assert (Hr : 0 < r < 5) by (unfold r in *; dlia).
    cbn [digits]. rewrite map_app. cbn [map]. f_equal.
    + do 2 f_equal. change 32 with (2 ^ 5).
      replace 5 with (5 - r + r) at 2 by lia. rewrite (Z.pow_add_r 2 (5 - r) r), <- Z.div_div by lia.
      by rewrite Z.div_mul by lia.
    + f_equal. unfold char_of. f_equal. rewrite land_31. unfold as_u16.
      rewrite <- Z.shiftl_mul_pow2 by lia. change 65536 with (2 ^ 16). change 32 with (2 ^ 5).
      apply Z.bits_inj'. intros i Hi. destruct (decide (i < 5)).
      * rewrite !Z.mod_pow2_bits_low, !Z.shiftl_spec by lia. destruct (decide (i < 5 - r)).
        -- by rewrite !Z.testbit_neg_r by lia.
        -- by rewrite Z.mod_pow2_bits_low by lia.
      * by rewrite !Z.mod_pow2_bits_high by lia.
  - assert (E0 : 8 * m mod 5 = 0) by dlia. assert (Es : spare m = 0) by (unfold spare, chars; dlia).
    assert (Ec : chars m = 8 * m / 5) by (unfold chars; dlia).
    rewrite E0, Es, Ec, Z.mul_1_r. change (2 ^ 0) with 1. by rewrite Z.div_1_r.
Qed.

Lemma padded_bound V m s : 0 <= V < 256 ^ m -> 0 <= m -> 0 <= s -> 0 <= V * 2 ^ s < 2 ^ (8 * m + s).
Proof.
  intros HV Hm Hs. rewrite Z.pow_add_r, Z.pow_mul_r by lia. change (2 ^ 8) with 256.
  split; [lia|]. apply Z.mul_lt_mono_pos_r; lia.
Qed.

Lemma decode_iff s d :
  decode s = Ok d <-> bytes_ok d /\ map to_ascii_lowercase (unpadded s) = encode d.
Proof.
  unfold decode. rewrite (decode_loop_eq s 0 0 0 0 []) by done.
  split.
  - destruct (symbols s) as [vs|] eqn:Sy; [|done]. cbn [mbind result_bind].
    rewrite Z.mul_0_l, !Z.add_0_l. unfold decoded.
    pose proof (symbols_ok _ _ Sy) as Hvs. pose proof (number_bound vs Hvs) as R.
    pose proof (len_nonneg vs) as HK. set (K := len vs) in *. set (V := number vs) in *.
    set (b := 5 * K mod 8). assert (Hb : 0 <= b < 8) by (unfold b; dlia).
    destruct (Z.leb_spec 5 b) as [H5|H5]; [done|]. cbn [orb].
    destruct (Z.eqb_spec (Z.land (V mod 65536) (Z.shiftl 1 b - 1)) 0) as [H0|]; [|done]. cbn [negb].
    intros [= <-]. split; [apply bytes_ok_to_be|].
    assert (Hlow : V mod 2 ^ b = 0).
    { rewrite <- H0, Z.shiftl_1_l, Z.sub_1_r, <- Z.ones_equiv, Z.land_ones by lia.
      change 65536 with (2 ^ 16). apply Z.bits_inj'. intros i Hi. destruct (decide (i < b)).
      - by rewrite !Z.mod_pow2_bits_low by lia.
      - by rewrite !Z.mod_pow2_bits_high by lia. }
    rewrite (symbols_lower _ _ Sy), encode_eq, len_to_be by apply bytes_ok_to_be.
    set (m := 5 * K / 8). assert (Em : 5 * K = 8 * m + b) by (unfold m, b; dlia).
    rewrite Z2Nat.id by (unfold m; dlia).
    assert (Hs : spare m = b) by (unfold spare, chars; dlia).
    assert (Hc : chars m = K) by (unfold chars; dlia). rewrite Hs, Hc.
    assert (HV : V = V / 2 ^ b * 2 ^ b).
    { rewrite (Z.div_mod V (2 ^ b)) at 1 by lia. lia. }
    rewrite from_be_to_be_small.
    + rewrite <- HV. unfold K, len. by rewrite Nat2Z.id, digits_number.
    + rewrite Z2Nat.id by (unfold m; dlia). split; [apply Z.div_pos; lia|].
      apply Z.div_lt_upper_bound; [lia|]. change 256 with (2 ^ 8). rewrite <- Z.pow_mul_r, <- Z.pow_add_r by dlia.
      replace (b + 8 * m) with (5 * K) by lia. change 32 with (2 ^ 5) in R.
      rewrite <- Z.pow_mul_r in R by lia. lia.
  - intros [Hd Hl]. rewrite encode_eq in Hl by done. set (m := len d) in *. pose proof (len_nonneg d) as Hm.
    fold m in Hm. pose proof (from_be_bound d Hd) as R. fold m in R. pose proof (spare_range m) as Hs.
    pose proof (padded_bound _ _ (spare m) R Hm ltac:(lia)) as Hp.
    set (V := from_be d * 2 ^ spare m) in *. set (k := chars m) in *.
    assert (Ek : 5 * k = 8 * m + spare m) by (unfold spare, k; lia).
    assert (Hk : 0 <= k) by lia.
    rewrite <- symbols_lower_eq, Hl, symbols_chars by apply digits_ok. cbn [mbind result_bind].
    assert (Hlen : len (digits (Z.to_nat k) V) = k) by (unfold len; by rewrite length_digits, Z2Nat.id).
    rewrite Hlen, number_digits.
    + rewrite Z.mul_0_l, !Z.add_0_l. unfold decoded.
      replace (5 * k mod 8) with (spare m) by dlia. replace (5 * k / 8) with m by dlia.
      rewrite (proj2 (Z.leb_gt 5 (spare m))) by lia. cbn [orb].
      rewrite Z.shiftl_1_l, Z.sub_1_r, <- Z.ones_equiv, Z.land_ones by lia.
      assert (E0 : (V mod 65536) mod 2 ^ spare m = 0).
      { change 65536 with (2 ^ 16). apply Z.bits_inj'. intros i Hi. rewrite Z.bits_0.
        destruct (decide (i < spare m)).
        - rewrite !Z.mod_pow2_bits_low by lia. unfold V. by rewrite Z.mul_pow2_bits_low by lia.
        - by rewrite Z.mod_pow2_bits_high by lia. }
      rewrite E0. cbn [negb Z.eqb]. unfold V. rewrite Z.div_mul by lia. f_equal.
      unfold m, len. rewrite Nat2Z.id. by apply to_be_from_be.
    + rewrite Z2Nat.id by done. change 32 with (2 ^ 5). rewrite <- Z.pow_mul_r, Ek by lia. exact Hp.
Qed.

Lemma len_base32 d : bytes_ok d -> len (encode d) = chars (len d).
Proof.
  intros H. rewrite encode_eq by done. unfold len. rewrite length_map, length_digits.
  rewrite Z2Nat.id; [done|]. unfold chars. dlia.
Qed.

(** Encodings are lower case, with no padding and no dot. *)
Lemma encode_chars d : bytes_ok d ->
  Forall (fun c => to_ascii_lowercase c = c /\ c <> 61 /\ 50 <= c <= 122) (encode d).
Proof.
  intros H. rewrite encode_eq by done. apply Forall_map. eapply Forall_impl; [apply digits_ok|].
  intros v Hv. apply chars_ok in Hv. unfold char_ok in Hv. b2p. done.
Qed.

Lemma unpadded_all s : Forall (fun c => c <> 61) s -> unpadded s = s.
Proof.
  induction 1 as [|c s Hc Hs IH]; [done|]. cbn [unpadded].
  by rewrite (proj2 (Z.eqb_neq c 61)), IH.
Qed.

Lemma len_unpadded s : len (unpadded s) = len s -> unpadded s = s.
Proof.
  assert (Le : forall s, len (unpadded s) <= len s).
  { clear s. induction s as [|c s IH]; cbn [unpadded]; [lia|]. destruct (c =? 61); solve_len. }
  induction s as [|c s IH]; cbn [unpadded]; [done|]. destruct (c =? 61); intros H; [exfalso; solve_len|].
  f_equal. apply IH. solve_len.
Qed.
End Base32Facts.

(** ** The address, byte for byte *)
Section address_facts.
Context `{CryptoLaws}.

(** What an address encodes. *)
Definition payload (a : OnionAddress) : bytes := public_key a ++ checksum (public_key a) ++ [VERSION].

Definition key_ok (a : OnionAddress) : Prop := bytes_ok (public_key a) /\ len (public_key a) = 32.

Lemma len_checksum k : len (checksum k) = 2.
Proof. unfold checksum, slice_to, sha3_256. rewrite len_take, hash_len. done. Qed.

Lemma payload_ok a : key_ok a -> bytes_ok (payload a) /\ len (payload a) = 35.
Proof.
  intros [Hk Hl]. unfold payload. split.
  - apply bytes_ok_app. split; [done|]. apply bytes_ok_app. split.
    + apply bytes_ok_take, hash_bytes.
    + apply bytes_ok_cons. split; [by vm_compute|constructor].
  - rewrite !len_app, Hl, len_checksum. done.
Qed.

Lemma split_35 (raw : bytes) :
  len raw = 35 -> slice_to raw 32 ++ slice raw 32 34 ++ [byte_at raw 34] = raw.
Proof.
  intros L. rewrite <- (take_drop 32 raw) at 4. f_equal.
  rewrite <- (take_drop 2 (drop 32 raw)). f_equal. rewrite drop_drop.
  assert (Lt : (34 < length raw)%nat) by (unfold len in L; lia).
  apply lookup_lt_is_Some_2 in Lt as [v Hv]. unfold byte_at. rewrite (nth_lookup_Some _ _ _ _ Hv).
  change (32 + 2)%nat with 34%nat. rewrite (drop_S _ _ _ Hv), drop_ge; [done|]. unfold len in L. lia.
Qed.

Lemma parse_body_iff b a :
  parse_body b = Ok a <-> key_ok a /\ map to_ascii_lowercase b = Base32.encode (payload a).
Proof.
  unfold parse_body. split.
  - destruct (len b =? V2_ADDRESS_CHARS); [done|].
    destruct (Z.eqb_spec (len b) ADDRESS_CHARS) as [L|]; [|done]. cbn [negb].
    destruct (Base32.decode b) as [raw|] eqn:D; [|done]. cbn [mbind result_bind].
    destruct (Z.eqb_spec (len raw) 35) as [L'|]; [|done]. cbn [negb].
    destruct (Z.eqb_spec (byte_at raw 34) VERSION) as [Ev|]; [|done]. cbn [negb].
    destruct (bytes_eqb _ _) eqn:Ec; [|done]. cbn [negb]. intros [= <-].
    apply bool_decide_eq_true_1 in Ec. apply Base32Facts.decode_iff in D as [Hraw D].
    assert (Hp : payload (MkOnion (slice_to raw 32)) = raw).
    { unfold payload. cbn [public_key]. rewrite <- Ec, <- Ev. exact (split_35 raw L'). }
    split.
    + split; cbn [public_key]; [by apply bytes_ok_take|]. unfold slice_to. rewrite len_take. lia.
    + rewrite Hp, <- D. f_equal. symmetry. apply Base32Facts.len_unpadded.
      rewrite <- (len_map to_ascii_lowercase), D, Base32Facts.len_base32, L', L by done. done.
  - intros [Ha E]. destruct (payload_ok a Ha) as [Hb Hl]. destruct Ha as [Hk Hk'].
    assert (L : len b = 56).
    { by rewrite <- (len_map to_ascii_lowercase), E, Base32Facts.len_base32, Hl. }
    assert (Hn : Forall (fun c => c <> 61) b).
    { pose proof (Base32Facts.encode_chars _ Hb) as C. rewrite <- E, Forall_map in C.
      eapply Forall_impl; [exact C|]. intros c (_ & Hc & _) ->. by apply Hc. }
    assert (D : Base32.decode b = Ok (payload a)).
    { apply Base32Facts.decode_iff. by rewrite Base32Facts.unpadded_all. }
    rewrite L, D. cbn [mbind result_bind]. rewrite Hl. unfold ADDRESS_CHARS, V2_ADDRESS_CHARS. cbn [negb Z.eqb Pos.eqb].
    assert (Et : slice_to (payload a) 32 = public_key a) by (by apply slice_to_app).
    rewrite Et. unfold payload.
    rewrite (byte_at_app_r (public_key a)) by lia.
    rewrite (byte_at_app_r (checksum _)) by (rewrite len_checksum; lia).
    rewrite len_checksum, Hk'. replace (byte_at [VERSION] (34 - 32 - 2)) with VERSION by done.
    rewrite Z.eqb_refl. cbn [negb].
    rewrite (slice_app_at (public_key a)) by (rewrite ?len_checksum; lia).
    unfold bytes_eqb. rewrite bool_decide_eq_true_2 by done. cbn [negb]. by destruct a.
Qed.

Lemma suffix_eq tail : eq_ignore_ascii_case tail SUFFIX = true <-> map to_ascii_lowercase tail = SUFFIX.
Proof. unfold eq_ignore_ascii_case. rewrite bool_decide_eq_true. done. Qed.

Lemma ascii_boundary s i : 0 < i < len s -> 0 <= byte_at s i < 128 -> is_char_boundary s i = true.
Proof.
  intros Hi Hb. unfold is_char_boundary. rewrite orb_true_iff. right.
  assert (All : forallb (fun b => negb (Z.land b 192 =? 128)) (seqZ 0 128) = true) by (by vm_compute).
  rewrite forallb_forall in All.
  rewrite (All (byte_at s i)) by (apply list_elem_of_In, elem_of_seqZ; lia).
  rewrite !(proj2 (Z.ltb_lt _ _)) by lia. done.
Qed.

Lemma byte_at_lower s i : 0 <= i < len s ->
  byte_at (map to_ascii_lowercase s) i = to_ascii_lowercase (byte_at s i).
Proof.
  intros Hi. unfold byte_at. rewrite (nth_indep _ 0 (to_ascii_lowercase 0)).
  - by rewrite map_nth.
  - rewrite length_map. unfold len in Hi. lia.
Qed.

Lemma lower_ascii c : 0 <= to_ascii_lowercase c < 128 -> to_ascii_lowercase c <> 33 -> 0 <= c < 128.
Proof. unfold to_ascii_lowercase, is_ascii_upper. destruct ((65 <=? c) && (c <=? 90)) eqn:E; b2p; lia. Qed.

Lemma encoded_address a : key_ok a ->
  len (Base32.encode (payload a)) = 56 /\
  Forall (fun c => to_ascii_lowercase c = c /\ c <> 61 /\ 50 <= c <= 122) (Base32.encode (payload a)).
Proof.
  intros K. destruct (payload_ok a K) as [Hb Hl]. split; [|by apply Base32Facts.encode_chars].
  by rewrite Base32Facts.len_base32, Hl.
Qed.

(** C28. An address parses to a key exactly when it is, letter case aside, the
    text [Display] gives that key, with or without its [.onion]; the key is
    then 32 bytes.  So printing and parsing are inverse, the checksum and the
    version byte are enforced, no other text (padding included) names the same
    key, and the slice in [parse] does not panic on any such text. *)
Theorem onion_address_iff host a :
  parse host = Some (Ok a) <->
  key_ok a /\ (map to_ascii_lowercase host = to_string a \/
               map to_ascii_lowercase host ++ SUFFIX = to_string a).
Proof.
  unfold parse. split.
  - destruct (len host <? len SUFFIX).
    { intros [= E]. apply parse_body_iff in E as [K E]. split; [done|]. right. by rewrite E. }
    destruct (str_from _ _) as [tail|] eqn:S; [|done]. cbn [mbind option_bind]. intros [= E].
    apply parse_body_iff in E as [K E]. split; [done|]. unfold str_from in S.
    destruct (is_char_boundary _ _); [|done]. injection S as <-.
    destruct (eq_ignore_ascii_case _ _) eqn:Q; [left|right; by rewrite E].
    apply suffix_eq in Q. unfold to_string, slice_from, slice_to in *.
    by rewrite <- (take_drop (Z.to_nat (len host - len SUFFIX)) host), map_app, Q, E.
  - intros [K D]. destruct (encoded_address a K) as (L & Hc).
    change (len SUFFIX) with 6. destruct D as [D|D]; unfold to_string in D; fold (payload a) in D.
    + assert (Lh : len host = 62).
      { rewrite <- (len_map to_ascii_lowercase), D, len_app, L. done. }
      rewrite Lh. cbn [Z.ltb Z.compare Pos.compare Pos.compare_cont]. change (62 - 6) with 56.
      assert (Es : map to_ascii_lowercase (slice_to host 56) = Base32.encode (payload a) /\
                   map to_ascii_lowercase (slice_from host 56) = SUFFIX).
      { unfold slice_to, slice_from. rewrite <- (take_drop (Z.to_nat 56) host), map_app in D.
        apply app_inj_1 in D; [exact D|]. unfold len in *. rewrite length_map, length_take. lia. }
      destruct Es as [Ea Es]. unfold str_from. rewrite ascii_boundary.
      * cbn [mbind option_bind]. rewrite (proj2 (suffix_eq _) Es). f_equal. by apply parse_body_iff.
      * lia.
      * apply lower_ascii; rewrite <- byte_at_lower by lia; rewrite D, byte_at_app_r by lia; rewrite L; done.
    + apply app_inv_tail in D.
      assert (Lh : len host = 56) by (by rewrite <- (len_map to_ascii_lowercase), D).
      rewrite Lh. cbn [Z.ltb Z.compare Pos.compare Pos.compare_cont]. change (56 - 6) with 50.
      unfold str_from. rewrite ascii_boundary.
      * cbn [mbind option_bind]. destruct (eq_ignore_ascii_case _ _) eqn:Q.
        -- exfalso. apply suffix_eq in Q.
           assert (I : 46 ∈ Base32.encode (payload a)).
           { rewrite <- D, <- (take_drop (Z.to_nat 50) host), map_app. apply elem_of_app. right.
             unfold slice_from in Q. rewrite Q. by constructor. }
           rewrite Forall_forall in Hc. destruct (Hc _ I) as (_ & _ & Hx). lia.
        -- f_equal. by apply parse_body_iff.
      * lia.
      * assert (R : 50 <= to_ascii_lowercase (byte_at host 50) <= 122).
        { rewrite <- byte_at_lower by lia. rewrite D. rewrite Forall_forall in Hc. apply Hc.
          unfold byte_at. apply list_elem_of_lookup_2 with (Z.to_nat 50).
          destruct (lookup_lt_is_Some_2 (Base32.encode (payload a)) (Z.to_nat 50)) as [v Hv]; [unfold len in L; lia|].
          by rewrite (nth_lookup_Some _ _ _ _ Hv). }
        apply lower_ascii; lia.
Qed.
End address_facts.


(** ** The ring is a set of places *)
Module HsDirFacts.
Import HsDir.

Lemma lex_irrefl a : lex_ltb a a = false.
Proof. induction a as [|x a IH]; [done|]. cbn. by rewrite Z.ltb_irrefl, Z.eqb_refl, IH. Qed.

Lemma lex_total a b : lex_ltb a b = true \/ a = b \/ lex_ltb b a = true.
Proof.
  revert b. induction a as [|x a IH]; intros [|y b]; cbn; [by auto..|].
  destruct (Z.lt_trichotomy x y) as [L|[->|L]].
  - left. by rewrite (proj2 (Z.ltb_lt x y) L).
  - rewrite Z.ltb_irrefl, Z.eqb_refl. cbn. destruct (IH b) as [E|[->|E]]; [rewrite E| |rewrite E]; auto.
  - right; right. by rewrite (proj2 (Z.ltb_lt y x) L).
Qed.

Lemma lex_trans a b c : lex_ltb a b = true -> lex_ltb b c = true -> lex_ltb a c = true.
Proof.
  revert b c. induction a as [|x a IH]; intros [|y b] [|z c]; cbn; try done.
  rewrite !orb_true_iff, !andb_true_iff, !Z.ltb_lt, !Z.eqb_eq.
  intros [H1|[-> H1]] [H2|[-> H2]]; [left; lia|by left|by left|right].
  split; [done|]. by eapply IH.
Qed.

Lemma lex_asym a b : lex_ltb a b = true -> lex_ltb b a = false.
Proof.
  intros H. destruct (lex_ltb b a) eqn:E; [|done]. pose proof (lex_trans _ _ _ H E) as C.
  by rewrite lex_irrefl in C.
Qed.

Lemma lex_le_cases a b : lex_le a b <-> a = b \/ lex_ltb a b = true.
Proof.
  unfold lex_le. destruct (lex_total a b) as [L|[->|L]].
  - rewrite (lex_asym _ _ L). tauto.
  - rewrite lex_irrefl. tauto.
  - rewrite L. split; [done|]. intros [->|C]; [by rewrite lex_irrefl in L|].
    by rewrite (lex_asym _ _ C) in L.
Qed.

#[export] Instance node_le_total : Total node_le.
Proof. intros m n. unfold node_le. rewrite !lex_le_cases. destruct (lex_total (index m) (index n)) as [?|[?|?]]; auto. Qed.

#[export] Instance node_le_trans : Transitive node_le.
Proof.
  intros m n p. unfold node_le. rewrite !lex_le_cases.
  intros [E|A] [E'|C]; [left; congruence|right; by rewrite E|right; by rewrite <- E'|right].
  by eapply lex_trans.
Qed.

Lemma node_le_antisym m n : node_le m n -> node_le n m -> index m = index n.
Proof.
  unfold node_le. rewrite !lex_le_cases. intros [E|A] [E'|C]; auto.
  pose proof (lex_asym _ _ A) as X. by rewrite C in X.
Qed.

(** Sorting leaves no choice when no two nodes share an index. *)
Lemma sorted_unique ring ring' :
  Sorted node_le ring -> Sorted node_le ring' -> NoDup (map index ring) -> ring ≡ₚ ring' -> ring = ring'.
Proof.
  intros S%Sorted_StronglySorted S'%Sorted_StronglySorted N P; [|exact node_le_trans..].
  apply (StronglySorted_unique_strong node_le); [|done..].
  intros m n Hm Hn A C. rewrite <- P in Hn. pose proof (node_le_antisym _ _ A C) as E.
  apply list_elem_of_lookup in Hm as [i Hi]. apply list_elem_of_lookup in Hn as [j Hj].
  assert (i = j) as ->; [|congruence].
  eapply (NoDup_lookup _ i j (index m)); [exact N|by rewrite list_lookup_fmap, Hi|].
  by rewrite list_lookup_fmap, Hj, E.
Qed.

(** On a sorted ring [partition_point] separates the nodes before a place from
    those at it or after it. *)
Definition before (start : bytes) (n : RingNode) : bool := lex_ltb (index n) start.

Lemma partition_filter ring start :
  Sorted node_le ring ->
  let k := partition_point (before start) ring in
  (k <= length ring)%nat /\
  take k ring = filter (fun n => before start n = true) ring /\
  drop k ring = filter (fun n => before start n = false) ring.
Proof.
  intros S%Sorted_StronglySorted; [|exact node_le_trans]. cbv zeta.
  induction S as [|n ring S IH Hn]; [done|]. cbn [partition_point].
  destruct (before start n) eqn:E; cbn [take drop length].
  - destruct IH as (L & T & D). split; [lia|].
    rewrite filter_cons_True, filter_cons_False by congruence. by rewrite T, D.
  - split; [lia|]. rewrite filter_cons_False, filter_cons_True by congruence.
    assert (All : Forall (fun m => before start m = false) ring).
    { eapply Forall_impl; [exact Hn|]. intros m Hm. unfold before, node_le in *.
      destruct (lex_ltb (index m) start) eqn:F; [|done]. apply lex_le_cases in Hm as [Q|Q].
      - by rewrite Q, F in E.
      - by rewrite (lex_trans _ _ _ Q F) in E. }
    split.
    + symmetry. apply filter_none. eapply Forall_impl; [exact All|]. intros m Hm. by rewrite Hm.
    + f_equal. symmetry. by apply filter_all.
Qed.

(** *** The walk *)

(** From [start], clockwise and once around. *)
Definition clockwise (ring : list RingNode) (start : bytes) : list bytes :=
  map identity (filter (fun n => before start n = false) ring ++
                filter (fun n => before start n = true) ring).

(** A replica claims the first [spread] nodes nobody has claimed yet. *)
Definition claim (ring : list RingNode) (spread : nat) (out : list bytes) (start : bytes) : list bytes :=
  out ++ take spread (filter (fun id => id ∉ out) (clockwise ring start)).

Lemma filter_fresh (id : bytes) (out ids : list bytes) :
  id ∉ ids -> filter (fun x => x ∉ out ++ [id]) ids = filter (fun x => x ∉ out) ids.
Proof.
  induction ids as [|x ids IH]; [done|]. rewrite not_elem_of_cons. intros [Hx H].
  rewrite !filter_cons, IH by done.
  destruct (decide (x ∉ out)), (decide (x ∉ out ++ [id])); set_solver.
Qed.

Lemma walk_claims ring first spread steps : forall ids taken out,
  Forall2 (fun step id => identity <$> ring !! ((first + step) mod length ring)%nat = Some id) steps ids ->
  NoDup ids -> (taken <= spread)%nat ->
  walk ring first steps spread taken out =
    out ++ take (spread - taken) (filter (fun id => id ∉ out) ids).
Proof.
  intros ids taken out F. revert taken out.
  induction F as [|step id steps ids Hs F IH]; intros taken out N L.
  { cbn. by rewrite take_nil, app_nil_r. }
  apply NoDup_cons in N as [Hid N]. cbn [walk]. destruct (Nat.eqb_spec taken spread) as [->|Ne].
  { by rewrite Nat.sub_diag, app_nil_r. }
  destruct (ring !! _) as [node|]; [|done]. injection Hs as Hs. rewrite Hs. case_bool_decide as Ho.
  - rewrite IH by done. rewrite filter_cons_False by tauto. done.
  - rewrite IH by (done || lia). rewrite filter_cons_True by done.
    replace (spread - taken)%nat with (S (spread - S taken)) by lia.
    cbn [take]. by rewrite <- app_assoc, filter_fresh.
Qed.

Lemma rotate_steps ring first :
  (first <= length ring)%nat ->
  Forall2 (fun step id => identity <$> ring !! ((first + step) mod length ring)%nat = Some id)
    (seq 0 (length ring)) (map identity (drop first ring ++ take first ring)).
Proof.
  intros L. apply Forall2_same_length_lookup. split.
  { rewrite length_seq, length_map, length_app, length_drop, length_take. lia. }
  intros i x y Hx Hy. apply lookup_seq in Hx as [-> Hi]. rewrite <- Hy, list_lookup_fmap. f_equal.
  rewrite Nat.add_0_l. destruct (decide (first + i < length ring)%nat) as [Lt|Ge].
  - rewrite Nat.mod_small, lookup_app_l, lookup_drop by (rewrite ?length_drop; lia). done.
  - rewrite lookup_app_r, length_drop by (rewrite length_drop; lia).
    assert (E : ((first + i) mod length ring = i - (length ring - first))%nat).
    { rewrite (Nat.mod_eq _ (length ring)) by lia.
      replace ((first + i) / length ring)%nat with 1%nat; [lia|].
      apply (Nat.div_unique _ _ _ (first + i - length ring)); lia. }
    rewrite E, lookup_take_lt; [done|lia].
Qed.

Lemma clockwise_perm ring start : clockwise ring start ≡ₚ map identity ring.
Proof.
  unfold clockwise. rewrite Permutation_app_comm. apply Permutation_map.
  induction ring as [|n ring IH]; [done|]. destruct (before start n) eqn:E.
  - rewrite filter_cons_True, filter_cons_False by congruence. cbn. by rewrite IH.
  - rewrite filter_cons_False, filter_cons_True by congruence. by rewrite <- Permutation_middle, IH.
Qed.

Lemma replica_claims ring start spread out :
  Sorted node_le ring -> NoDup (map identity ring) ->
  walk ring (partition_point (before start) ring) (seq 0 (length ring)) spread 0 out =
    claim ring spread out start.
Proof.
  intros S N. destruct (partition_filter ring start S) as (L & T & D).
  rewrite (walk_claims _ _ _ _ (clockwise ring start)).
  - by rewrite Nat.sub_0_r.
  - unfold clockwise. rewrite <- T, <- D. by apply rotate_steps.
  - by rewrite clockwise_perm.
  - lia.
Qed.

Lemma replicas_claim `{Crypto} ring key period spread n : forall replica out,
  Sorted node_le ring -> NoDup (map identity ring) ->
  replicas ring key period replica n spread out =
    fold_left (claim ring spread)
      (map (fun r => hs_index key r period) (seqZ replica (Z.of_nat n))) out.
Proof.
  induction n as [|n IH]; intros replica out S N; [done|].
  rewrite Nat2Z.inj_succ, seqZ_cons by lia. cbn [map fold_left replicas].
  rewrite <- replica_claims by done. rewrite IH by done.
  unfold Z.succ. do 3 f_equal. lia.
Qed.

(** A claim keeps the list free of repeats and grows it by [spread] nodes, or
    by every node that is left. *)
Lemma claim_ok ring spread out start :
  NoDup (map identity ring) -> NoDup out -> out ⊆ map identity ring ->
  let out' := claim ring spread out start in
  NoDup out' /\ out' ⊆ map identity ring /\
  length out' = Nat.min (length out + spread) (length ring).
Proof.
  intros N No Sub. cbv zeta. unfold claim. set (l := filter _ _).
  assert (Nc : NoDup (clockwise ring start)) by (by rewrite clockwise_perm).
  assert (Nl : NoDup l) by (by apply NoDup_filter).
  assert (Hl : forall x : bytes, x ∈ l -> (x ∉ out) /\ x ∈ map identity ring).
  { intros x Hx. apply list_elem_of_filter in Hx. by rewrite clockwise_perm in Hx. }
  assert (P : out ++ l ≡ₚ map identity ring).
  { apply NoDup_Permutation; [apply NoDup_app; split_and!; [done| |done]|done|].
    - intros x Ho Hx. by apply Hl in Hx as [].
    - intros x. rewrite elem_of_app. split; [intros [Hx|Hx]; [by apply Sub|by apply Hl]|].
      intros Hx. destruct (decide (x ∈ out)); [by left|right].
      apply list_elem_of_filter. by rewrite clockwise_perm. }
  assert (T : forall x : bytes, x ∈ take spread l -> x ∈ l) by (intros x Hx; by apply elem_of_take in Hx as (?&?&?); eapply list_elem_of_lookup_2).
  split_and!.
  - apply NoDup_app. split_and!; [done| |].
    + intros x Ho Hx. apply T, Hl in Hx as []. done.
    + rewrite <- (take_drop spread l) in Nl. by apply NoDup_app in Nl as [].
  - intros x. rewrite elem_of_app. intros [Hx|Hx]; [by apply Sub|]. apply T, Hl in Hx. tauto.
  - apply Permutation_length in P. rewrite length_map, length_app in P.
    rewrite length_app, length_take. lia.
Qed.

Lemma claims_ok ring spread starts : forall out,
  NoDup (map identity ring) -> NoDup out -> out ⊆ map identity ring ->
  let out' := fold_left (claim ring spread) starts out in
  NoDup out' /\ out' ⊆ map identity ring /\
  length out' = Nat.min (length out + length starts * spread) (length ring).
Proof.
  induction starts as [|s starts IH]; intros out N No Sub; cbv zeta; cbn [fold_left].
  - split_and!; try done. cbn. rewrite Nat.add_0_r.
    assert (length out <= length (map identity ring))%nat by (by apply submseteq_length, NoDup_submseteq).
    rewrite length_map in *. lia.
  - destruct (claim_ok ring spread out s N No Sub) as (N' & Sub' & L).
    destruct (IH _ N N' Sub') as (A & B & C). split_and!; try done. rewrite C, L. cbn [length]. lia.
Qed.

(** C29. Which directories hold a descriptor.  From the nodes of a consensus
    (distinct identities, distinct places), every ordering the unstable sort
    or another consensus order could give is the same ring; and the nodes a
    client asks are, replica after replica, the [spread] nodes clockwise of
    the replica's index that no lower replica claimed.  They are distinct, all
    on the ring, and as many as asked for while the ring has them. *)
Theorem hsdir_responsible `{Crypto} nodes ring srv period key n spread :
  NoDup (map fst nodes) ->
  NoDup (map (fun node => hsdir_index (snd node) srv period) nodes) ->
  ring ≡ₚ map (place srv period) nodes -> Sorted node_le ring ->
  ring = build_ring nodes srv period /\
  let out := responsible ring key period n spread in
  out = fold_left (claim ring spread)
          (map (fun r => hs_index key r period) (seqZ 1 (Z.of_nat n))) [] /\
  NoDup out /\ out ⊆ map fst nodes /\
  length out = Nat.min (n * spread) (length nodes).
Proof.
  intros Ni Nx P S. assert (Pi : map identity ring ≡ₚ map fst nodes) by (rewrite P, map_map; done).
  assert (N : NoDup (map identity ring)) by (by rewrite Pi). split.
  - apply sorted_unique; [done|apply Sorted_merge_sort, _| |].
    + rewrite P, map_map. exact Nx.
    + unfold build_ring. by rewrite merge_sort_Permutation.
  - cbv zeta. assert (E : responsible ring key period n spread = replicas ring key period 1 n spread []
                       \/ ring = []) by (destruct ring; auto).
    set (starts := map _ (seqZ 1 _)).
    assert (Er : responsible ring key period n spread = fold_left (claim ring spread) starts []).
    { destruct E as [->| ->]; [by apply replicas_claim|]. cbn [responsible].
      generalize starts. intros l. induction l as [|x l IH]; [done|]. cbn. by rewrite take_nil. }
    rewrite Er. destruct (claims_ok ring spread starts [] N) as (A & C & D); [apply NoDup_nil_2|by intros x []%not_elem_of_nil|].
    split_and!; try done.
    + intros x Hx. rewrite <- Pi. by apply C.
    + rewrite D. unfold starts. rewrite length_map, length_seqZ, Nat2Z.id. cbn [length Nat.add].
      apply Permutation_length in P. rewrite length_map in P. by rewrite P.
Qed.
End HsDirFacts.

Module OnionDemo.
Import Toy HsDir HsDirFacts.

Definition key : bytes := map Z.of_nat (seq 1 32).
Definition address : OnionAddress := MkOnion key.
Definition shouted : bytes :=
  map (fun c => if (97 <=? c) && (c <=? 122) then c - 32 else c) (slice_to (to_string address) 56).

Lemma onion_address_witness : parse shouted = Some (Ok address).
Proof.
  apply (onion_address_iff shouted address). split; [|right; by vm_compute].
  split; [|by vm_compute]. apply Forall_forall. intros x Hx.
  apply list_elem_of_In, in_map_iff in Hx as (n & <- & Hn). apply in_seq in Hn. unfold is_u8. lia.
Defined.

(** A name with a multibyte character astride the sixth byte from its end:
    three bytes of "€", then five more. *)
Example is_onion_panics :
  is_onion ([226; 130; 172] ++ B "aaaaa") = None /\ parse ([226; 130; 172] ++ B "aaaaa") = None.
Proof. by vm_compute. Qed.

Definition nodes : list (bytes * bytes) := map (fun i => (zeros 19 ++ [i], zeros 31 ++ [i])) (seqZ 1 5).
Definition noon : TimePeriod.t := TimePeriod.Mk 19000 1440.

Lemma hsdir_responsible_witness :
  let ring := rev (rev (build_ring nodes (zeros 32) noon)) in
  ring = build_ring nodes (zeros 32) noon /\
  length (responsible ring key noon 2 2) = 4%nat.
Proof.
  destruct (hsdir_responsible nodes (rev (rev (build_ring nodes (zeros 32) noon))) (zeros 32) noon key 2 2)
    as (E & _ & _ & _ & L).
  - apply (bool_decide_unpack _). by vm_compute.
  - apply (bool_decide_unpack _). by vm_compute.
  - rewrite rev_involutive. unfold build_ring. by rewrite merge_sort_Permutation.
  - rewrite rev_involutive. apply Sorted_merge_sort, _.
  - split; [exact E|]. rewrite L. by vm_compute.
Defined.

Definition summary : Z * Z * Z :=
  (len (responsible (build_ring nodes (zeros 32) noon) key noon 2 4), len (to_string address),
   TimePeriod.number (TimePeriod.containing 1700000000 1440)).
Example onion_demo : summary = (5, 62, 19675).
Proof. by vm_compute. Qed.
End OnionDemo.
