(* ===== verification/Microdesc.v ===== *)
(** * Microdescriptors ([src/src/tor/dir/microdesc.rs])

    Exit policy summaries, one microdescriptor, and the splitting of a batch. *)
From S2P Require Import Prelude.
From S2P Require Import Text.
From S2P Require Import Crypto.
From S2P Require Import Util.
From S2P Require Import Netdoc.

Module PortPolicy.
Record t := Mk { is_accept : bool; ranges : list (Z * Z) }.

Definition reject_all : t := Mk false [(1, 65535)].

Definition parse_range (entry : bytes) : result (Z * Z) :=
  let '(low, high) := match split_once 45 entry with Some p => p | None => (entry, entry) end in
  low ← ok_or (parse_uint U16_MAX low) (invalid_data "bad port {low:?}");
  high ← ok_or (parse_uint U16_MAX high) (invalid_data "bad port {high:?}");
  if high <? low then Err (invalid_data "exit policy range is inverted") else Ok (low, high).

Fixpoint parse_ranges (entries : list bytes) : result (list (Z * Z)) :=
  match entries with
  | [] => Ok []
  | entry :: entries => range ← parse_range entry; rest ← parse_ranges entries; Ok (range :: rest)
  end.

Definition parse (args : bytes) : result t :=
  '(verb, list) ← ok_or (split_once SP args) (invalid_data "malformed exit policy summary");
  is_accept ← (if bytes_eqb verb (B "accept") then Ok true
               else if bytes_eqb verb (B "reject") then Ok false
               else Err (invalid_data "unknown exit policy verb {other:?}"));
  ranges ← parse_ranges (split 44 list);
  Ok (Mk is_accept ranges).

Definition in_range (port : Z) (range : Z * Z) : bool := (fst range <=? port) && (port <=? snd range).

Definition allows (p : t) (port : Z) : bool :=
  Bool.eqb (existsb (in_range port) (ranges p)) (is_accept p).

Definition is_empty (p : t) : bool := negb (is_accept p) && bool_decide ((1, 65535) ∈ ranges p).
End PortPolicy.

Module Microdesc.
Record t := Mk {
  digest : bytes;
  ntor_onion_key : bytes;
  ed_identity : option bytes;
  exit_policy : PortPolicy.t;
  family : list bytes;
}.

(** [split(['=', '~']).next()]: everything before the first of them. *)
Fixpoint before_nickname (s : bytes) : bytes :=
  match s with
  | [] => []
  | c :: s => if (c =? 61) || (c =? 126) then [] else c :: before_nickname s
  end.

Definition family_entry (entry : bytes) : option bytes :=
  hex ← strip_prefix (B "$") entry;
  id ← to_option (hex_decode (before_nickname hex));
  if len id =? 20 then Some id else None.

Definition parse_family (args : bytes) : list bytes := omap family_entry (split_whitespace args).

Definition parse_ed_identity (args : bytes) : option bytes :=
  '(kind, value) ← split_once SP args;
  if negb (bytes_eqb kind (B "ed25519")) then None else to_option (base64_fixed 32 (trim value)).

Definition parse `{Crypto} (text : bytes) : result t :=
  if negb (starts_with text (B "onion-key"))
  then Err (invalid_data "microdescriptor does not start with onion-key")
  else
    ntor ← ok_or (item text (B "ntor-onion-key")) (invalid_data "microdescriptor has no ntor-onion-key");
    ntor_onion_key ← base64_fixed 32 (trim ntor);
    let ed_identity := args ← item text (B "id"); parse_ed_identity args in
    exit_policy ← match item text (B "p") with
                  | Some args => PortPolicy.parse args
                  | None => Ok PortPolicy.reject_all
                  end;
    let family := match item text (B "family") with Some args => parse_family args | None => [] end in
    Ok (Mk (sha256 text) ntor_onion_key ed_identity exit_policy family).

Definition shares_family_with (m : t) (identity : bytes) : bool := bool_decide (identity ∈ family m).
End Microdesc.

(** ** A batch *)

Definition ONION_KEY : bytes := B "onion-key".

(** The offsets of the lines that open an entry, from [offset] on; each round
    moves past a line, so the length of the text is fuel enough. *)
Fixpoint entry_starts (fuel : nat) (text : bytes) (offset : Z) : list Z :=
  match fuel with
  | O => []
  | S fuel =>
      match line_start_of (slice_from text offset) ONION_KEY with
      | None => []
      | Some relative =>
          let absolute := offset + relative in
          let offset :=
            absolute + match find (slice_from text absolute) [NL] with
                       | Some i => i + 1
                       | None => len text - absolute
                       end in
          absolute :: (if len text <=? offset then [] else entry_starts fuel text offset)
      end
  end.

(** Each entry runs to the start of the next one. *)
Fixpoint entry_bodies (text : bytes) (starts : list Z) : list bytes :=
  match starts with
  | [] => []
  | start :: starts =>
      slice text start (match starts with stop :: _ => stop | [] => len text end)
      :: entry_bodies text starts
  end.

Definition parse_batch `{Crypto} (text : bytes) : list (bytes * Microdesc.t) :=
  omap (fun body => md ← to_option (Microdesc.parse body); Some (body, md))
    (entry_bodies text (entry_starts (S (length text)) text 0)).

(** ** Splitting a batch *)
Section batch.

(** What a directory sends for one entry. *)
Definition entry_ok : bytes -> Prop := block_ok ONION_KEY.

Lemma onion_key_line : keyword_ok ONION_KEY.
Proof. split; [by vm_compute|]. apply (bool_decide_unpack _). by vm_compute. Qed.

Lemma entry_starts_ok ts : forall fuel text o r,
  Forall entry_ok ts -> remainder ONION_KEY r -> 0 <= o -> slice_from text o = r ++ concat ts ->
  (length ts < fuel)%nat ->
  entry_starts fuel text o = offsets (o + len r) ts.
Proof.
  induction ts as [|t ts IH]; intros [|fuel] text o r F R Ho E Hf; try (cbn in Hf; lia).
  - cbn [entry_starts]. by rewrite E, (remainder_next _ onion_key_line).
  - destruct (next_block _ onion_key_line text o r t ts F R Ho E)
      as (n & r' & E1 & E2 & Hn & R' & E3 & L & End).
    cbn [entry_starts offsets]. change ((length (t :: ts) < S fuel)%nat) with (S (length ts) < S fuel)%nat in Hf.
    rewrite E1, E2. f_equal. rewrite L.
    destruct (Z.leb_spec (len text) (o + len r + (n + 1))) as [Hle|_]; [by rewrite (End Hle)|].
    inversion_clear F. apply IH; try done; [pose proof (len_nonneg r); lia|lia].
Qed.

Lemma entry_bodies_ok ts : forall text o,
  0 <= o -> slice_from text o = concat ts -> entry_bodies text (offsets o ts) = ts.
Proof.
  induction ts as [|t ts IH]; intros text o Ho E; [done|]. cbn [offsets entry_bodies].
  pose proof (len_nonneg t) as Ht.
  assert (E' : slice_from text (o + len t) = concat ts).
  { unfold slice_from in *. replace (Z.to_nat (o + len t)) with (Z.to_nat o + length t)%nat
      by (unfold len; lia). rewrite <- drop_drop, E. cbn [concat]. by rewrite drop_app_length. }
  rewrite IH by (done || lia). f_equal.
  assert (Lt : len text = o + len (concat (t :: ts)) \/ concat (t :: ts) = []).
  { destruct (decide (concat (t :: ts) = [])) as [|N]; [by right|left]. rewrite <- E in N |- *.
    unfold slice_from in *. rewrite len_drop. destruct (decide (len text <= o)).
    - destruct N. apply drop_ge. unfold len in *. lia.
    - unfold len in *. lia. }
  unfold slice. unfold slice_from in E. rewrite E. cbn [concat].
  destruct ts as [|t' ts]; cbn [offsets].
  - cbn [concat] in *. rewrite app_nil_r in *. apply take_ge. destruct Lt as [Lt| ->]; [|cbn; lia].
    rewrite Lt. unfold len. lia.
  - replace (Z.to_nat (o + len t - o)) with (length t) by (unfold len; lia).
    by rewrite take_app_length.
Qed.

(** A batch is taken apart exactly where it was put together: from any
    sequence of entries (each opening with its [onion-key] line, ending with a
    newline and holding no second such line) [parse_batch] gives, in order,
    the entries that parse, each with its own text; and in any text at all the
    digest of what comes out is the hash of precisely the text beside it. *)
Theorem parse_batch_splits `{Crypto} ts :
  Forall entry_ok ts ->
  parse_batch (concat ts) =
    omap (fun t => md ← to_option (Microdesc.parse t); Some (t, md)) ts /\
  forall text body md, (body, md) ∈ parse_batch text ->
    Microdesc.parse body = Ok md /\ Microdesc.digest md = sha256 body.
Proof.
  intros F. split.
  - unfold parse_batch. f_equal. rewrite (entry_starts_ok ts _ _ 0 []); try done.
    + by apply entry_bodies_ok.
    + apply remainder_nil, onion_key_line.
    + assert (L : forall ts, Forall entry_ok ts -> (length ts <= length (concat ts))%nat).
      { clear ts F. induction 1 as [|t ts (St & _) F IH]; [done|]. cbn [concat length].
        rewrite length_app. destruct t; [by vm_compute in St|]. cbn [length]. lia. }
      pose proof (L ts F). lia.
  - intros text body md I. unfold parse_batch in I. apply list_elem_of_omap in I as (b & _ & E).
    destruct (Microdesc.parse b) as [m|] eqn:P; [|done]. cbn in E. injection E as <- <-. split; [done|].
    unfold Microdesc.parse in P. res_inv; subst m; done.
Qed.
End batch.

Module MicrodescDemo.
Import Toy.

Definition line (s : bytes) : bytes := s ++ [NL].
Definition one (key : Z) (policy : bytes) : bytes :=
  line (B "onion-key") ++
  line (B "ntor-onion-key " ++ base64_encode_unpadded (replicate 32 key)) ++
  line (B "id ed25519 " ++ base64_encode_unpadded (replicate 32 119)) ++
  line (B "family $AABBCCDDEEFF00112233445566778899AABBCCDD=nick Nickname") ++ line policy.

Definition entries : list bytes := [one 66 (B "p accept 80,443,8000-8100"); one 1 (B "p maybe"); one 2 (B "p reject 25")].

Definition view (md : Microdesc.t) : bool * bool * Z * Z :=
  (PortPolicy.allows (Microdesc.exit_policy md) 8050, PortPolicy.allows (Microdesc.exit_policy md) 25,
   len (Microdesc.family md), hd 0 (Microdesc.ntor_onion_key md)).

Lemma parse_batch_witness :
  map (fun p => view (snd p)) (parse_batch (concat entries)) =
    [(true, false, 1, 66); (true, false, 1, 2)] /\
  Forall entry_ok entries.
Proof.
  assert (F : Forall entry_ok entries).
  { repeat constructor; by vm_compute. }
  split; [|exact F]. destruct (parse_batch_splits entries F) as [E _]. rewrite E. by vm_compute.
Defined.

(** The policy of a relay with no [p] line still allows port 0. *)
Example reject_all_allows_port_zero :
  PortPolicy.allows PortPolicy.reject_all 0 = true /\
  forall port, 1 <= port <= 65535 -> PortPolicy.allows PortPolicy.reject_all port = false.
Proof.
  split; [done|]. intros port Hp. unfold PortPolicy.allows, PortPolicy.in_range. cbn.
  rewrite !(proj2 (Z.leb_le _ _)) by lia. done.
Qed.
End MicrodescDemo.
