(* ===== verification/Path.v ===== *)
(** * Path selection ([src/src/tor/path.rs], [src/src/ffi/rand.rs])

    The constraints a path keeps, the draws in proportion to weighted
    bandwidth, and the uniform draws underneath.  The random source is the list
    of the eight-byte words it will give, each an [io::Result]. *)
From S2P Require Import Prelude.
From S2P Require Import Text.
From S2P Require Import Cc.
From S2P Require Import Consensus.
From S2P Require Import Microdesc.

(** ** Uniform draws ([ffi/rand.rs]) *)
Module Rand.
Definition draws := list (result Z).

(** [Waiting]: the loop is still running when the words given run out. *)
Inductive outcome (A : Type) :=
  | Done (r : result A) (rest : draws)
  | Waiting
  | Panicked.
Arguments Done {A} r rest.
Arguments Waiting {A}.
Arguments Panicked {A}.

Definition bind {A C} (o : outcome A) (f : A -> draws -> outcome C) : outcome C :=
  match o with
  | Done (Ok a) rest => f a rest
  | Done (Err e) rest => Done (Err e) rest
  | Waiting => Waiting
  | Panicked => Panicked
  end.

Fixpoint below_loop (n limit : Z) (ds : draws) : outcome Z :=
  match ds with
  | [] => Waiting
  | Err e :: ds => Done (Err e) ds
  | Ok v :: ds => if v <? limit then Done (Ok (v mod n)) ds else below_loop n limit ds
  end.

Definition limit_of (n : Z) : Z := U64_MAX - U64_MAX mod n.

Definition below (n : Z) (ds : draws) : outcome Z :=
  if 0 <? n then below_loop n (limit_of n) ds else Panicked.

Definition swap {A} (items : list A) (i j : nat) : list A :=
  match items !! i, items !! j with
  | Some x, Some y => <[i := y]> (<[j := x]> items)
  | _, _ => items
  end.

(** The loop for [i] down to one. *)
Fixpoint shuffle_from {A} (i : nat) (items : list A) (ds : draws) : outcome (list A) :=
  match i with
  | O => Done (Ok items) ds
  | S j => bind (below (Z.of_nat i + 1) ds) (fun k ds => shuffle_from j (swap items i (Z.to_nat k)) ds)
  end.

Definition shuffle {A} (items : list A) (ds : draws) : outcome (list A) :=
  shuffle_from (length items - 1) items ds.
End Rand.

(** A shuffled list is the list in another order. *)
Lemma swap_permutation {A} (items : list A) i j : Rand.swap items i j ≡ₚ items.
Proof.
  unfold Rand.swap. destruct (items !! i) as [x|] eqn:Ei; [|done].
  destruct (items !! j) as [y|] eqn:Ej; [|done]. by apply Permutation_insert_swap.
Qed.

Lemma shuffle_permutation {A} (items : list A) ds l rest :
  Rand.shuffle items ds = Rand.Done (Ok l) rest -> l ≡ₚ items.
Proof.
  unfold Rand.shuffle. generalize (length items - 1)%nat. intros i. revert items ds.
  induction i as [|i IH]; intros items ds E; cbn [Rand.shuffle_from] in E; [by injection E as <- _|].
  destruct (Rand.below _ ds) as [[k|e] rest'| |]; cbn [Rand.bind] in E; try done.
  apply IH in E. by rewrite E, swap_permutation.
Qed.

(** ** Constraints *)
Definition USABLE : Z := Z.lor FLAG_RUNNING FLAG_VALID.
Definition GUARD_FLAGS : Z := Z.lor (Z.lor (Z.lor USABLE FLAG_GUARD) FLAG_STABLE) FLAG_FAST.

Module PathConstraints.
Record t := Mk {
  identities : list bytes;
  subnets : list bytes;
  families : list (list bytes);
}.

Definition default : t := Mk [] [] [].

Definition add_relay (c : t) (identity subnet16 : bytes) (family : list bytes) : t :=
  Mk (identities c ++ [identity]) (subnets c ++ [subnet16]) (families c ++ [family]).

Definition add (c : t) (router : RouterStatus.t) (microdesc : option Microdesc.t) : t :=
  add_relay c (RouterStatus.identity router) (RouterStatus.subnet16 router)
    (match microdesc with Some m => Microdesc.family m | None => [] end).

Definition accepts_relay (c : t) (identity subnet16 : bytes) (family : list bytes) : bool :=
  negb (bool_decide (identity ∈ identities c)) &&
  negb (bool_decide (subnet16 ∈ subnets c)) &&
  negb (existsb (fun f => bool_decide (identity ∈ f)) (families c)) &&
  negb (existsb (fun id => bool_decide (id ∈ identities c)) family).

Definition accepts (c : t) (router : RouterStatus.t) (microdesc : option Microdesc.t) : bool :=
  if bool_decide (RouterStatus.identity router ∈ identities c) then false
  else if bool_decide (RouterStatus.subnet16 router ∈ subnets c) then false
  else if existsb (fun family => bool_decide (RouterStatus.identity router ∈ family)) (families c) then false
  else match microdesc with
       | Some md => negb (existsb (Microdesc.shares_family_with md) (identities c))
       | None => true
       end.
End PathConstraints.

(** ** Weights *)
Inductive Position := Guard | Middle | Exit.

#[export] Instance Position_eq_dec : EqDecision Position.
Proof. solve_decision. Defined.

Definition weight (p : Position) (router : RouterStatus.t) (w : BandwidthWeights.t) : Z :=
  let guard := RouterStatus.has router FLAG_GUARD in
  let exit := RouterStatus.has router FLAG_EXIT in
  match p, guard, exit with
  | Guard, true, true => BandwidthWeights.wgd w
  | Guard, true, false => BandwidthWeights.wgg w
  | Guard, false, _ => BandwidthWeights.wgm w
  | Middle, true, true => BandwidthWeights.wmd w
  | Middle, true, false => BandwidthWeights.wmg w
  | Middle, false, true => BandwidthWeights.wme w
  | Middle, false, false => BandwidthWeights.wmm w
  | Exit, true, true => BandwidthWeights.wed w
  | Exit, true, false => BandwidthWeights.weg w
  | Exit, false, true => BandwidthWeights.wee w
  | Exit, false, false => BandwidthWeights.wem w
  end.

Definition as_u64 (z : Z) : Z := z mod (U64_MAX + 1).

Definition bandwidth_share (router : RouterStatus.t) : Z := Z.max (RouterStatus.bandwidth router) 1.

Definition weighted_bandwidth (router : RouterStatus.t) (p : Position) (w : BandwidthWeights.t) : Z :=
  let scaled := as_u64 (bandwidth_share router * weight p router w) in
  Z.max (scaled / WEIGHT_SCALE) 1.

(** ** Draws in proportion *)
Import Rand.

(** The relay whose share [pick] falls in. *)
Fixpoint pick_from (candidates : list RouterStatus.t) (share : RouterStatus.t -> Z) (pick : Z)
    : option RouterStatus.t :=
  match candidates with
  | [] => None
  | router :: candidates =>
      let w := share router in
      if pick <? w then Some router else pick_from candidates share (pick - w)
  end.

Definition total (candidates : list RouterStatus.t) (share : RouterStatus.t -> Z) : Z :=
  fold_left (fun sum router => as_u64 (sum + share router)) candidates 0.

Definition choose (candidates : list RouterStatus.t) (share : RouterStatus.t -> Z) (ds : draws)
    : outcome RouterStatus.t :=
  match last candidates with
  | None => Done (Err (invalid_data "no relay matches the required flags")) ds
  | Some final =>
      bind (below (total candidates share) ds)
        (fun pick ds => Done (Ok (default final (pick_from candidates share pick))) ds)
  end.

Definition weighted_choice (candidates : list RouterStatus.t) (ds : draws) : outcome RouterStatus.t :=
  choose candidates bandwidth_share ds.

Definition weighted_choice_at (candidates : list RouterStatus.t) (p : Position)
    (w : BandwidthWeights.t) (ds : draws) : outcome RouterStatus.t :=
  choose candidates (fun r => weighted_bandwidth r p w) ds.

Definition guard_candidates (c : Consensus.t) : list RouterStatus.t :=
  filter (fun r => RouterStatus.has r GUARD_FLAGS && negb (RouterStatus.has r FLAG_MIDDLE_ONLY) = true)
    (Consensus.routers c).

Definition exit_candidates (c : Consensus.t) (constraints : PathConstraints.t) : list RouterStatus.t :=
  filter (fun r => RouterStatus.has r (Z.lor (Z.lor USABLE FLAG_EXIT) FLAG_FAST) &&
                   negb (RouterStatus.has r FLAG_BAD_EXIT) &&
                   negb (RouterStatus.has r FLAG_MIDDLE_ONLY) &&
                   PathConstraints.accepts constraints r None = true)
    (Consensus.routers c).

Definition rendezvous_candidates (c : Consensus.t) (constraints : PathConstraints.t) : list RouterStatus.t :=
  filter (fun r => RouterStatus.has r (Z.lor (Z.lor USABLE FLAG_FAST) FLAG_STABLE) &&
                   PathConstraints.accepts constraints r None = true)
    (Consensus.routers c).

Definition middle_candidates (c : Consensus.t) (constraints : PathConstraints.t) : list RouterStatus.t :=
  filter (fun r => RouterStatus.has r (Z.lor USABLE FLAG_FAST) &&
                   PathConstraints.accepts constraints r None = true)
    (Consensus.routers c).

(** Each round drops at least the relay it drew: the length of the pool is
    rounds enough. *)
Fixpoint sample_loop (fuel : nat) (pool : list RouterStatus.t) (count : nat)
    (share : RouterStatus.t -> Z) (out : list RouterStatus.t) (ds : draws)
    : outcome (list RouterStatus.t) :=
  match fuel with
  | O => Done (Ok out) ds
  | S fuel =>
      if (length out <? count)%nat && negb (length pool =? 0)%nat then
        bind (choose pool share ds) (fun chosen ds =>
          let identity := RouterStatus.identity chosen in
          sample_loop fuel (filter (fun r => RouterStatus.identity r <> identity) pool) count share
            (out ++ [chosen]) ds)
      else Done (Ok out) ds
  end.

Definition sample_with (candidates : list RouterStatus.t) (count : nat)
    (share : RouterStatus.t -> Z) (ds : draws) : outcome (list RouterStatus.t) :=
  sample_loop (S (length candidates)) candidates count share [] ds.

Definition sample (candidates : list RouterStatus.t) (count : nat) (ds : draws)
    : outcome (list RouterStatus.t) :=
  sample_with candidates count bandwidth_share ds.

Definition sample_at (candidates : list RouterStatus.t) (count : nat) (p : Position)
    (w : BandwidthWeights.t) (ds : draws) : outcome (list RouterStatus.t) :=
  sample_with candidates count (fun r => weighted_bandwidth r p w) ds.

(** ** A draw is in proportion *)
Section proportion.

Definition bandwidth_ok (r : RouterStatus.t) : Prop := 0 <= RouterStatus.bandwidth r <= U32_MAX.

Definition scaled (v : Z) : Prop := 0 <= v <= WEIGHT_SCALE.
Definition weights_ok (w : BandwidthWeights.t) : Prop :=
  Forall scaled [BandwidthWeights.wgg w; BandwidthWeights.wgm w; BandwidthWeights.wgd w;
                 BandwidthWeights.wmg w; BandwidthWeights.wmm w; BandwidthWeights.wme w;
                 BandwidthWeights.wmd w; BandwidthWeights.weg w; BandwidthWeights.wem w;
                 BandwidthWeights.wee w; BandwidthWeights.wed w].

Lemma weight_scaled p r w : weights_ok w -> scaled (weight p r w).
Proof.
  unfold weights_ok. rewrite !Forall_cons. intros (?&?&?&?&?&?&?&?&?&?&?&_). unfold weight.
  destruct p, (RouterStatus.has r FLAG_GUARD), (RouterStatus.has r FLAG_EXIT); done.
Qed.

(** Shares fit 32 bits and are never zero; the product never wraps. *)
Lemma weighted_bandwidth_eq r p w :
  bandwidth_ok r -> weights_ok w ->
  weighted_bandwidth r p w = Z.max (bandwidth_share r * weight p r w / WEIGHT_SCALE) 1 /\
  1 <= weighted_bandwidth r p w <= U32_MAX.
Proof.
  intros Hb Hw. pose proof (weight_scaled p r w Hw) as Hs. unfold bandwidth_ok, scaled, U32_MAX, WEIGHT_SCALE in *.
  unfold weighted_bandwidth, as_u64, bandwidth_share, U64_MAX, WEIGHT_SCALE.
  set (b := Z.max (RouterStatus.bandwidth r) 1). set (v := weight p r w) in *.
  assert (Hb1 : 1 <= b <= 4294967295) by lia. clearbody b.
  assert (0 <= b * v <= 4294967295 * 10000) by nia.
  rewrite Z.mod_small by lia. split; [done|]. dlia.
Qed.

Fixpoint sum_of (share : RouterStatus.t -> Z) (l : list RouterStatus.t) : Z :=
  match l with [] => 0 | r :: l => share r + sum_of share l end.

Lemma sum_of_app share l k : sum_of share (l ++ k) = sum_of share l + sum_of share k.
Proof. induction l as [|r l IH]; [done|]. cbn [app sum_of]. rewrite IH. lia. Qed.

Context (share : RouterStatus.t -> Z).
Definition share_ok (r : RouterStatus.t) : Prop := 1 <= share r <= U32_MAX.

Lemma sum_of_bound l : Forall share_ok l -> len l <= sum_of share l <= len l * U32_MAX.
Proof.
  unfold share_ok, U32_MAX. induction 1 as [|r l Hr Hl IH]; [done|]. rewrite len_cons. cbn [sum_of]. lia.
Qed.

Lemma total_sum l : Forall share_ok l -> len l <= 2 ^ 31 -> total l share = sum_of share l.
Proof.
  intros F L. unfold total.
  assert (G : forall l s, Forall share_ok l -> 0 <= s -> s + sum_of share l <= U64_MAX ->
            fold_left (fun sum r => as_u64 (sum + share r)) l s = s + sum_of share l).
  { clear. induction l as [|r l IH]; intros s F Hs B; [cbn; lia|].
    inversion_clear F as [|? ? Hr Hl]. pose proof (sum_of_bound l Hl) as Bl. pose proof (len_nonneg l).
    cbn [fold_left sum_of] in *. unfold share_ok in Hr.
    unfold as_u64 at 2. rewrite Z.mod_small by lia. rewrite IH by (done || lia). lia. }
  pose proof (sum_of_bound l F) as B. unfold U32_MAX in B. rewrite G; [lia|done|lia|]. unfold U64_MAX. lia.
Qed.

Lemma pick_from_hit pre r post pick :
  Forall share_ok (pre ++ r :: post) -> sum_of share pre <= pick < sum_of share pre + share r ->
  pick_from (pre ++ r :: post) share pick = Some r.
Proof.
  revert pick. induction pre as [|x pre IH]; intros pick F H; cbn [app pick_from].
  - cbn in H. by rewrite (proj2 (Z.ltb_lt _ _)) by lia.
  - inversion_clear F as [|? ? Hx F']. pose proof F' as F''. apply Forall_app in F'' as [Fp _].
    pose proof (sum_of_bound pre Fp). pose proof (len_nonneg pre).
    cbn [sum_of] in H. unfold share_ok in Hx.
    rewrite (proj2 (Z.ltb_ge _ _)) by lia. apply IH; [done|lia].
Qed.

Lemma pick_from_split l : forall pick,
  0 <= pick < sum_of share l ->
  exists pre r post, l = pre ++ r :: post /\ sum_of share pre <= pick < sum_of share pre + share r /\
                     pick_from l share pick = Some r.
Proof.
  induction l as [|x l IH]; intros pick H; cbn [sum_of] in H; [lia|].
  cbn [pick_from]. destruct (Z.ltb_spec pick (share x)) as [L|L].
  - exists [], x, l. cbn. split_and!; [done|lia|lia|done].
  - destruct (IH (pick - share x) ltac:(lia)) as (pre & r & post & -> & R & E).
    exists (x :: pre), r, post. cbn [sum_of]. split_and!; [done|lia|lia|done].
Qed.

Lemma nodup_split {A} (a a' : list A) x c c' :
  NoDup (a ++ x :: c) -> a ++ x :: c = a' ++ x :: c' -> a = a'.
Proof.
  revert a'. induction a as [|y a IH]; intros [|y' a'] N E; [done|..]; cbn in *; injection E as E1 E2.
  - subst. apply NoDup_cons in N as [N _]. set_solver.
  - subst. apply NoDup_cons in N as [N _]. set_solver.
  - subst. f_equal. apply NoDup_cons in N as [_ N]. by eapply IH.
Qed.

Lemma pick_from_iff pre r post pick :
  NoDup (pre ++ r :: post) -> Forall share_ok (pre ++ r :: post) ->
  0 <= pick < sum_of share (pre ++ r :: post) ->
  pick_from (pre ++ r :: post) share pick = Some r <->
  sum_of share pre <= pick < sum_of share pre + share r.
Proof.
  intros N F R. split; [|by apply pick_from_hit].
  destruct (pick_from_split _ _ R) as (pre' & r' & post' & E & H & P). rewrite P. intros [= ->].
  by rewrite (nodup_split pre pre' r post post' N E).
Qed.

(** At least half of the words end the loop of [below]. *)
Lemma limit_of_spec n : 0 < n <= U64_MAX -> limit_of n mod n = 0 /\ 2 ^ 63 <= limit_of n <= U64_MAX.
Proof.
  intros Hn. unfold limit_of. pose proof (Z.div_mod U64_MAX n ltac:(lia)) as E.
  pose proof (Z.mod_pos_bound U64_MAX n ltac:(lia)) as R. split.
  - replace (U64_MAX - U64_MAX mod n) with (U64_MAX / n * n) by lia. apply Z.mod_mul. lia.
  - assert (1 <= U64_MAX / n) by (apply Z.div_le_lower_bound; lia). unfold U64_MAX in *. nia.
Qed.

Lemma choose_total l ds :
  l <> [] -> Forall share_ok l -> len l <= 2 ^ 31 ->
  exists final, choose l share ds =
    bind (below_loop (sum_of share l) (limit_of (sum_of share l)) ds)
      (fun pick ds => Done (Ok (default final (pick_from l share pick))) ds).
Proof.
  intros Hl F L. unfold choose. destruct (last l) as [final|] eqn:E; [|by apply last_None in E].
  exists final. rewrite total_sum by done. unfold below.
  pose proof (sum_of_bound l F). assert (0 < len l) by (destruct l; [done|rewrite len_cons; pose proof (len_nonneg l); lia]).
  by rewrite (proj2 (Z.ltb_lt 0 _)) by lia.
Qed.
End proportion.

(** C22. A relay is drawn with exactly its share of the words the random source
    can give: the words below a limit that is a whole multiple of the sum of
    the shares, and at least half of all words, decide; a relay is chosen for
    precisely those whose remainder lies in its own interval, as long as its
    share; any other word is thrown away.  The shares are the bandwidths as
    the consensus weights them for the position, never zero, never wrapping,
    and with no weights published they are the bandwidths. *)
Theorem choice_in_proportion pre r post p w :
  NoDup (pre ++ r :: post) -> Forall bandwidth_ok (pre ++ r :: post) -> weights_ok w ->
  len (pre ++ r :: post) <= 2 ^ 31 ->
  let candidates := pre ++ r :: post in
  let share := fun r => weighted_bandwidth r p w in
  let sum := sum_of share candidates in
  share r = Z.max (bandwidth_share r * weight p r w / WEIGHT_SCALE) 1 /\
  (w = BandwidthWeights.default -> share r = bandwidth_share r) /\
  limit_of sum mod sum = 0 /\ 2 ^ 63 <= limit_of sum <= U64_MAX /\
  (forall v rest, 0 <= v < limit_of sum ->
     weighted_choice_at candidates p w (Ok v :: rest) = Done (Ok r) rest <->
     sum_of share pre <= v mod sum < sum_of share pre + share r) /\
  (forall v rest, limit_of sum <= v ->
     weighted_choice_at candidates p w (Ok v :: rest) = weighted_choice_at candidates p w rest).
Proof.
  intros N F W L candidates share sum.
  assert (Fs : Forall (share_ok share) candidates).
  { eapply Forall_impl; [exact F|]. intros x Hx. by apply weighted_bandwidth_eq. }
  assert (Br : bandwidth_ok r) by (by apply Forall_app in F as [_ F]; apply Forall_cons in F as [F _]).
  pose proof (sum_of_bound share candidates Fs) as B.
  assert (Ne : candidates <> []) by (by destruct pre).
  assert (Lp : 0 < len candidates) by (unfold candidates; solve_len).
  assert (Hsum : 0 < sum <= U64_MAX) by (fold sum in B; unfold U32_MAX, U64_MAX in *; fold candidates in L; lia).
  destruct (limit_of_spec sum Hsum) as [Lm Lr].
  split_and!; try done; try lia.
  - by apply weighted_bandwidth_eq.
  - intros ->. unfold share. destruct (weighted_bandwidth_eq r p BandwidthWeights.default Br W) as [-> _].
    replace (weight p r BandwidthWeights.default) with WEIGHT_SCALE
      by (unfold weight; destruct p, (RouterStatus.has r FLAG_GUARD), (RouterStatus.has r FLAG_EXIT); done).
    unfold bandwidth_share, WEIGHT_SCALE. rewrite Z.div_mul by lia. lia.
  - intros v rest Hv. change (weighted_choice_at candidates p w (Ok v :: rest)) with (choose candidates share (Ok v :: rest)).
    destruct (choose_total share candidates (Ok v :: rest) Ne Fs L) as [final ->].
    cbn [below_loop]. fold sum. rewrite (proj2 (Z.ltb_lt v _)) by lia. cbn [bind].
    pose proof (Z.mod_pos_bound v sum ltac:(lia)) as R.
    destruct (pick_from_split share candidates _ R) as (pre' & r' & post' & E & H & P).
    rewrite <- (pick_from_iff share pre r post (v mod sum) N Fs R). fold candidates. rewrite P. cbn [default].
    split; [by intros [= ->]|by intros [= ->]].
  - intros v rest Hv. change (weighted_choice_at candidates p w) with (choose candidates share).
    unfold choose. destruct (last candidates) eqn:El; [|by apply last_None in El].
    rewrite total_sum by done. fold sum. unfold below. destruct (0 <? sum); [|done].
    cbn [below_loop]. by rewrite (proj2 (Z.ltb_ge v _)) by lia.
Qed.

(** ** A sample *)
Section sampling.

(** A word below half the range ends the loop of [below], whatever the bound. *)
Definition is_low (d : result Z) : bool := match d with Ok v => v <? 2 ^ 63 | Err _ => false end.
Fixpoint good (ds : draws) : nat :=
  match ds with [] => 0 | d :: ds => (if is_low d then 1 else 0) + good ds end.

(** The random source does not fail. *)
Definition word (d : result Z) : Prop := match d with Ok v => 0 <= v <= U64_MAX | Err _ => False end.

Lemma below_ok n ds :
  0 < n <= U64_MAX -> Forall word ds -> (1 <= good ds)%nat ->
  exists x rest, below_loop n (limit_of n) ds = Done (Ok x) rest /\
    0 <= x < n /\ Forall word rest /\ (good ds <= S (good rest))%nat.
Proof.
  intros Hn. destruct (limit_of_spec n Hn) as [_ Hl].
  induction 1 as [|d ds Hd Hds IH]; intros G; [cbn in G; lia|].
  destruct d as [v|]; [|done]. cbn [below_loop good is_low] in *. destruct (Z.ltb_spec v (limit_of n)) as [L|L].
  - exists (v mod n), ds. split_and!; try done; [apply Z.mod_pos_bound; lia..|]. destruct (v <? 2 ^ 63); lia.
  - destruct (Z.ltb_spec v (2 ^ 63)); [lia|]. apply IH in G as (x & rest & E & R & W & G).
    exists x, rest. split_and!; [done|lia|lia|done|lia].
Qed.

Definition ids (l : list RouterStatus.t) : gset bytes := list_to_set (map RouterStatus.identity l).

Lemma ids_elem l x : x ∈ ids l <-> exists r, r ∈ l /\ RouterStatus.identity r = x.
Proof.
  unfold ids. rewrite elem_of_list_to_set, list_elem_of_fmap. naive_solver.
Qed.

Lemma ids_drop l r : ids (filter (fun r' => RouterStatus.identity r' <> RouterStatus.identity r) l)
  = ids l ∖ {[RouterStatus.identity r]}.
Proof.
  apply set_eq. intros x. rewrite elem_of_difference, !ids_elem, elem_of_singleton.
  setoid_rewrite list_elem_of_filter. naive_solver.
Qed.

Context (share : RouterStatus.t -> Z).

Lemma choose_ok l ds :
  l <> [] -> Forall (share_ok share) l -> len l <= 2 ^ 31 -> Forall word ds -> (1 <= good ds)%nat ->
  exists r rest, choose l share ds = Done (Ok r) rest /\
    r ∈ l /\ Forall word rest /\ (good ds <= S (good rest))%nat.
Proof.
  intros Ne F L W G. destruct (choose_total share l ds Ne F L) as [final ->].
  pose proof (sum_of_bound share l F) as B.
  assert (0 < len l) by (destruct l; [done|solve_len]).
  assert (Hs : 0 < sum_of share l <= U64_MAX) by (unfold U32_MAX, U64_MAX in *; lia).
  destruct (below_ok _ ds Hs W G) as (x & rest & -> & R & W' & G'). cbn [bind].
  destruct (pick_from_split share l x R) as (pre & r & post & -> & _ & ->).
  exists r, rest. split_and!; try done. set_solver.
Qed.

Lemma sample_loop_ok count fuel : forall pool out ds,
  (length pool < fuel)%nat -> Forall (share_ok share) pool -> len pool <= 2 ^ 31 -> Forall word ds ->
  (length out <= count)%nat -> (count <= good ds + length out)%nat ->
  exists more rest, sample_loop fuel pool count share out ds = Done (Ok (out ++ more)) rest /\
    NoDup (map RouterStatus.identity more) /\ more ⊆ pool /\
    length (out ++ more) = Nat.min count (length out + size (ids pool)).
Proof.
  induction fuel as [|fuel IH]; intros pool out ds Hf F L W Ho G; [lia|]. cbn [sample_loop].
  destruct (Nat.ltb_spec (length out) count) as [Lt|Ge]; cbn [andb].
  2: { exists [], ds. rewrite app_nil_r. split_and!; [done|constructor|set_solver|lia]. }
  destruct (Nat.eqb_spec (length pool) 0) as [E|Ne]; cbn [negb].
  { apply nil_length_inv in E as ->. exists [], ds. rewrite app_nil_r.
    split_and!; [done|constructor|set_solver|]. change (ids []) with (∅ : gset bytes). rewrite size_empty. lia. }
  destruct (choose_ok pool ds) as (r & rest & -> & Hr & W' & G'); [by intros ->|done..|lia|]. cbn [bind].
  set (id := RouterStatus.identity r). set (pool' := filter _ pool).
  assert (Sub : pool' ⊆ pool) by (intros x Hx; by apply list_elem_of_filter in Hx as []).
  assert (Lp : (length pool' < length pool)%nat).
  { unfold pool', id. clear -Hr. apply list_elem_of_split in Hr as (a & c & ->).
    rewrite filter_app, filter_cons_False by tauto. rewrite !length_app. cbn.
    pose proof (length_filter (fun r' => RouterStatus.identity r' <> RouterStatus.identity r) a).
    pose proof (length_filter (fun r' => RouterStatus.identity r' <> RouterStatus.identity r) c). lia. }
  assert (Hs : S (size (ids pool')) = size (ids pool)).
  { unfold pool', id. rewrite ids_drop.
    assert (I : {[RouterStatus.identity r]} ⊆ ids pool).
    { intros x Hx. apply elem_of_singleton in Hx as ->. apply ids_elem. by exists r. }
    pose proof (size_union_alt {[RouterStatus.identity r]} (ids pool)) as U.
    rewrite size_singleton in U. rewrite subseteq_union_1_L in U by done. lia. }
  destruct (IH pool' (out ++ [r]) rest) as (more & rest' & -> & N & M & Lm); rewrite ?length_app; cbn [length].
  - lia.
  - apply Forall_forall. intros x Hx. apply Sub in Hx. rewrite Forall_forall in F. by apply F.
  - unfold len in *. lia.
  - done.
  - lia.
  - lia.
  - exists (r :: more), rest'. rewrite <- app_assoc. cbn [app map]. split_and!.
    + done.
    + apply NoDup_cons. split; [|done]. intros I. apply list_elem_of_fmap in I as (x & Ex & Hx).
      apply M, list_elem_of_filter in Hx as [Hx _]. by apply Hx.
    + set_solver.
    + rewrite <- app_assoc in Lm. cbn [app] in Lm. rewrite Lm, length_app. cbn [length]. lia.
Qed.
End sampling.

(** Sampling ends: whatever the random source gives, as long as it gives
    enough words of the half that ends every draw, the loop stops with as many
    relays as asked for or as there are distinct identities, all of them
    candidates and no two of one identity. *)
Theorem sample_terminates candidates count p w ds :
  Forall bandwidth_ok candidates -> weights_ok w -> len candidates <= 2 ^ 31 ->
  Forall word ds -> (count <= good ds)%nat ->
  exists out rest, sample_at candidates count p w ds = Done (Ok out) rest /\
    NoDup (map RouterStatus.identity out) /\ out ⊆ candidates /\
    length out = Nat.min count (size (ids candidates)).
Proof.
  intros F W L D G. unfold sample_at, sample_with.
  destruct (sample_loop_ok (fun r => weighted_bandwidth r p w) count (S (length candidates)) candidates [] ds)
    as (more & rest & E & N & S & Lm); cbn [length]; try done; try lia.
  - eapply Forall_impl; [exact F|]. intros x Hx. by apply weighted_bandwidth_eq.
  - exists more, rest. by split_and!.
Qed.

(** ** A path *)
Section path.
Import PathConstraints.

(** What the constraints keep of a hop. *)
Record Hop := MkHop { hop_identity : bytes; hop_subnet : bytes; hop_family : list bytes }.

Definition hop_of (r : RouterStatus.t) (md : option Microdesc.t) : Hop :=
  MkHop (RouterStatus.identity r) (RouterStatus.subnet16 r)
    (match md with Some m => Microdesc.family m | None => [] end).

Definition joins (c : t) (h : Hop) : bool := accepts_relay c (hop_identity h) (hop_subnet h) (hop_family h).
Definition join (c : t) (h : Hop) : t := add_relay c (hop_identity h) (hop_subnet h) (hop_family h).

(** Every hop was accepted when it was added. *)
Fixpoint all_join (c : t) (hops : list Hop) : bool :=
  match hops with
  | [] => true
  | h :: hops => joins c h && all_join (join c h) hops
  end.

Definition compatible (a b : Hop) : Prop :=
  hop_identity a <> hop_identity b /\ hop_subnet a <> hop_subnet b /\
  (hop_identity b ∉ hop_family a) /\ (hop_identity a ∉ hop_family b).

(** The constraints a list of hops leaves. *)
Definition of_hops (hops : list Hop) : t :=
  Mk (map hop_identity hops) (map hop_subnet hops) (map hop_family hops).

Lemma of_hops_snoc hops h : join (of_hops hops) h = of_hops (hops ++ [h]).
Proof. unfold join, add_relay, of_hops. cbn. by rewrite !map_app. Qed.

Lemma existsb_elem {A} (f : A -> bool) l : existsb f l = false <-> forall x, x ∈ l -> f x = false.
Proof.
  induction l as [|x l IH]; cbn; [set_solver|]. rewrite orb_false_iff, IH. set_solver.
Qed.

Lemma joins_iff hops h : joins (of_hops hops) h = true <-> forall a, a ∈ hops -> compatible a h.
Proof.
  unfold joins, accepts_relay. rewrite !andb_true_iff, !negb_true_iff, !bool_decide_eq_false, !existsb_elem.
  setoid_rewrite bool_decide_eq_false. unfold of_hops, compatible. cbn. split.
  - intros (((H1 & H2) & H3) & H4) a Ha. split_and!.
    + intros E. apply H1. rewrite <- E. apply list_elem_of_fmap. by exists a.
    + intros E. apply H2. rewrite <- E. apply list_elem_of_fmap. by exists a.
    + apply H3, list_elem_of_fmap. by exists a.
    + intros I. apply (H4 _ I), list_elem_of_fmap. by exists a.
  - intros H. split_and!.
    + intros I. apply list_elem_of_fmap in I as (a & E & Ha). by destruct (H a Ha).
    + intros I. apply list_elem_of_fmap in I as (a & E & Ha). by destruct (H a Ha) as (_ & ? & _).
    + intros f I. apply list_elem_of_fmap in I as (a & -> & Ha). by destruct (H a Ha) as (_ & _ & ? & _).
    + intros x Hx I. apply list_elem_of_fmap in I as (a & -> & Ha). by destruct (H a Ha) as (_ & _ & _ & ?).
Qed.

Lemma accepts_joins c r md : accepts c r md = joins c (hop_of r md).
Proof.
  unfold accepts, joins, accepts_relay, hop_of. cbn.
  destruct (bool_decide (_ ∈ identities c)); [done|]. destruct (bool_decide (_ ∈ subnets c)); [done|].
  destruct (existsb _ (families c)); [done|]. cbn [andb negb]. destruct md as [md|]; [|done].
  f_equal. unfold Microdesc.shares_family_with.
  apply eq_bool_prop_intro. rewrite !Is_true_true, !existsb_exists.
  setoid_rewrite <- list_elem_of_In. setoid_rewrite bool_decide_eq_true. naive_solver.
Qed.

Lemma all_join_iff hops : forall before,
  all_join (of_hops before) hops = true <->
  ForallOrdPairs compatible hops /\ forall a b, a ∈ before -> b ∈ hops -> compatible a b.
Proof.
  induction hops as [|h hops IH]; intros before; cbn [all_join].
  - split; [|done]. intros _. split; [constructor|set_solver].
  - rewrite andb_true_iff, joins_iff, of_hops_snoc, IH. split.
    + intros (H & P & Q). split; [constructor; [|done]|set_solver].
      apply Forall_forall. intros b Hb. apply Q; set_solver.
    + intros (P & Q). inversion_clear P as [|? ? Hh P']. rewrite Forall_forall in Hh. split_and!.
      * set_solver.
      * done.
      * intros a b. rewrite elem_of_app, list_elem_of_singleton. intros [Ha| ->] Hb; [set_solver|]. by apply Hh.
Qed.
End path.

(** ** On three relays *)
Module PathDemo.

#[local] Existing Instance RouterStatus.eq_dec.

Definition router (n bandwidth flags : Z) : RouterStatus.t :=
  RouterStatus.Mk (replicate 20 n) (replicate 32 n) [10; n; 0; 1] 9001 flags bandwidth.
Definition a : RouterStatus.t := router 1 100 GUARD_FLAGS.
Definition b : RouterStatus.t := router 2 300 (Z.lor GUARD_FLAGS FLAG_EXIT).
Definition c : RouterStatus.t := router 3 0 USABLE.

Definition weights : BandwidthWeights.t := BandwidthWeights.default{{BandwidthWeights.wmd := 5000}}.

Lemma weights_are_ok : weights_ok weights.
Proof. unfold weights_ok, scaled, WEIGHT_SCALE. repeat (constructor; [cbn; unfold WEIGHT_SCALE; lia|]). constructor. Qed.

Lemma routers_ok : Forall bandwidth_ok [a; b; c].
Proof. repeat (constructor; [unfold bandwidth_ok, U32_MAX; cbn; lia|]). constructor. Qed.

(** The shares in the middle are 100, 150 and 1. *)
Lemma choice_witness :
  weighted_choice_at [a; b; c] Middle weights [Ok 351] = Done (Ok b) [] /\
  map (fun r => weighted_bandwidth r Middle weights) [a; b; c] = [100; 150; 1].
Proof.
  split; [|by vm_compute].
  assert (N : NoDup ([a] ++ b :: [c])) by (by apply (bool_decide_unpack _); vm_compute).
  destruct (choice_in_proportion [a] b [c] Middle weights N routers_ok weights_are_ok ltac:(by vm_compute))
    as (_ & _ & _ & R & H & _).
  apply H.
  - split; [clear; lia|]. eapply Z.lt_le_trans; [|exact (proj1 R)]. clear. lia.
  - vm_compute. split; [discriminate|reflexivity].
Defined.

Lemma sample_witness :
  exists out rest, sample_at [a; b; c] 2 Middle weights [Ok 5; Ok 18446744073709551615; Ok 7] = Done (Ok out) rest /\
    length out = 2%nat.
Proof.
  destruct (sample_terminates [a; b; c] 2 Middle weights [Ok 5; Ok 18446744073709551615; Ok 7] routers_ok weights_are_ok)
    as (out & rest & E & _ & _ & L).
  - by vm_compute.
  - repeat (constructor; [unfold word, U64_MAX; lia|]). constructor.
  - vm_compute. lia.
  - exists out, rest. split; [exact E|]. rewrite L. by vm_compute.
Defined.

Definition summary : bool * bool * bool :=
  let cs := PathConstraints.add PathConstraints.default a None in
  (PathConstraints.accepts cs a None, PathConstraints.accepts cs b None,
   match shuffle [1; 2; 3] [Ok 0; Ok 1] with Done (Ok l) [] => bool_decide (l = [3; 2; 1]) | _ => false end).
Example path_demo : summary = (false, true, true).
Proof. by vm_compute. Qed.
End PathDemo.
