(* ===== verification/Pool.v ===== *)
(** * The circuit pool ([src/src/tor/pool.rs], the meter of [circuit.rs])

    Stubs, finished circuits, the predicted ports, and the builder's choice of
    work.  A circuit handle is an identity of its own ([uid]: which [Circuit]
    it is) and a circuit ID, which is only unique on one channel; the pool
    compares circuit IDs.  What the pool reads without owning it (the clock,
    whether a circuit is closed, its streams and its meter) may change between
    two reads, so an operation takes a sequence of looks and uses a new one for
    every pass.  Every operation also gives the circuits it closes.  Instants
    are nanoseconds. *)
From S2P Require Import Prelude.
From S2P Require Import Microdesc.
From S2P Require Import Path.

Definition secs (n : Z) : Z := n * 1000000000.

(** ** What a circuit has delivered ([circuit.rs]) *)
Module Delivery.
Record t := Mk { bytes : Z; active_ms : Z }.

Definition kbps (d : t) (min_bytes min_active_ms : Z) : option Z :=
  if (active_ms d =? 0) || (bytes d <? min_bytes) || (active_ms d <? min_active_ms) then None
  else Some (bytes d / active_ms d).
End Delivery.

Module Meter.
Definition ACTIVE_GAP_MS : Z := 500.

Record t := Mk { rx_bytes : Z; active_ms : Z; last_data_ms : Z; wants_probe : bool }.

Definition new : t := Mk 0 0 0 false.

(** [elapsed_ms]: since the circuit was created. *)
Definition note_data (m : t) (elapsed_ms len : Z) : t :=
  let now := Z.max elapsed_ms 1 in
  let previous := last_data_ms m in
  let gap := sat_sub now previous in
  Mk (as_u64 (rx_bytes m + len))
     (if negb (previous =? 0) && (gap <=? ACTIVE_GAP_MS) then as_u64 (active_ms m + gap) else active_ms m)
     now false.

Definition delivery (m : t) : Delivery.t := Delivery.Mk (rx_bytes m) (active_ms m).
End Meter.

(** ** Constants *)
Definition STUB_TARGET : nat := 3.
Definition BUILD_PARALLEL : nat := 3.
Definition MAX_CIRCUITS : nat := 16.
Definition SPREAD_CIRCUITS : nat := 4.
Definition CLEAN_TARGET : nat := 6.
Definition MEASURE_MIN_BYTES : Z := Z.shiftl 1 20.
Definition MEASURE_MIN_ACTIVE_MS : Z := 2000.
Definition FLOOR_KBPS : Z := 150.
Definition STREAMS_PER_CIRCUIT : nat := 4.
Definition MAX_DIRTY_AGE : Z := secs 600.
Definition MAX_IDLE_AGE : Z := secs 1800.
Definition STUB_MAX_AGE : Z := secs 300.
Definition PREDICTION_WINDOW : Z := secs 3600.
Definition DEFAULT_PORTS : list Z := [80; 443].
Definition BUILDER_TICK : Z := secs 30.
Definition BUILD_RETRY_MIN : Z := secs 2.
Definition BUILD_RETRY_MAX : Z := secs 120.
Definition MAX_PENDING_BLAME : nat := 64.

(** ** State *)
Record handle := MkHandle { uid : nat; circ_id : Z }.

#[export] Instance handle_eq_dec : EqDecision handle.
Proof. solve_decision. Defined.

Record View := MkView { closed : bool; open_streams : nat; delivered : Delivery.t; wants_probe : bool }.
Record Look := MkLook { now : Z; view : nat -> View }.

Module Stub.
Record t := Mk { circuit : handle; constraints : PathConstraints.t; guard : bytes; built : Z }.
End Stub.

Inductive Verdict := Keep | Expired | TooSlow (kbps : Z) | Unresponsive.

#[export] Instance Verdict_eq_dec : EqDecision Verdict.
Proof. solve_decision. Defined.

Definition blames_the_path (v : Verdict) : bool :=
  match v with TooSlow _ | Unresponsive => true | _ => false end.

Module Pooled.
Record t := Mk {
  circuit : handle;
  exit : Microdesc.t;
  guard : bytes;
  blamed : bool;
  built : Z;
  first_used : option Z;
}.
End Pooled.

Record Prediction := MkPrediction { port : Z; last : Z }.

Module State.
Record t := Mk {
  stubs : list Stub.t;
  circuits : list Pooled.t;
  predicted : list Prediction;
  onion_in_use : nat;
  blamed : list (bytes * Verdict);
}.
Definition default : t := Mk [] [] [] 0 [].
End State.

Section pool.
Context (look : nat -> Look).

Definition of_circuit (i : nat) (h : handle) : View := view (look i) (uid h).
Definition elapsed (i : nat) (at_ : Z) : Z := now (look i) - at_.

Definition stub_usable (i : nat) (s : Stub.t) : bool :=
  negb (closed (of_circuit i (Stub.circuit s))) && (elapsed i (Stub.built s) <? STUB_MAX_AGE).

Definition judge (d : Delivery.t) : Verdict :=
  match Delivery.kbps d MEASURE_MIN_BYTES MEASURE_MIN_ACTIVE_MS with
  | Some kbps => if kbps <? FLOOR_KBPS then TooSlow kbps else Keep
  | None => Keep
  end.

Definition verdict (i : nat) (c : Pooled.t) : Verdict :=
  let v := of_circuit i (Pooled.circuit c) in
  if closed v || (MAX_IDLE_AGE <=? elapsed i (Pooled.built c)) then Expired
  else if match Pooled.first_used c with
          | Some at_ => MAX_DIRTY_AGE <=? elapsed i at_
          | None => false
          end then Expired
  else judge (delivered v).

Definition usable (i : nat) (c : Pooled.t) : bool := bool_decide (verdict i c = Keep).
Definition streams (i : nat) (c : Pooled.t) : nat := open_streams (of_circuit i (Pooled.circuit c)).

(** The pass over the circuits: what stays, what is to be closed, and the
    blame. *)
Fixpoint retire_circuits (i : nat) (cs : list Pooled.t) (blamed : list (bytes * Verdict))
    : list Pooled.t * list handle * list (bytes * Verdict) :=
  match cs with
  | [] => ([], [], blamed)
  | c :: cs =>
      let v := verdict i c in
      if bool_decide (v = Keep) then
        let '(kept, closing, blamed) := retire_circuits i cs blamed in (c :: kept, closing, blamed)
      else
        let blamed :=
          if blames_the_path v && negb (Pooled.blamed c) && (length blamed <? MAX_PENDING_BLAME)%nat
          then blamed ++ [(Pooled.guard c, v)] else blamed in
        let '(kept, closing, blamed) := retire_circuits i cs blamed in
        if (streams i c =? 0)%nat then (kept, Pooled.circuit c :: closing, blamed)
        else (c :: kept, closing, blamed)
  end.

Definition mark_blamed (i : nat) (c : Pooled.t) : Pooled.t :=
  if blames_the_path (verdict i c) then c{{Pooled.blamed := true}} else c.

Definition retire (i : nat) (s : State.t) : State.t * list handle :=
  let dead_stubs := filter (fun st => stub_usable i st = false) (State.stubs s) in
  let '(kept, closing, blame) := retire_circuits i (State.circuits s) (State.blamed s) in
  (State.Mk (filter (fun st => stub_usable i st = true) (State.stubs s))
     (map (mark_blamed (S i)) kept)
     (filter (fun p => elapsed (S i) (last p) < PREDICTION_WINDOW) (State.predicted s))
     (State.onion_in_use s) blame,
   map Stub.circuit dead_stubs ++ closing).

Definition total (s : State.t) : nat :=
  length (State.stubs s) + length (State.circuits s) + State.onion_in_use s.

(** ** Operations *)

Fixpoint touch (ps : list Prediction) (p : Z) (at_ : Z) : option (list Prediction) :=
  match ps with
  | [] => None
  | q :: ps =>
      if port q =? p then Some (MkPrediction p at_ :: ps)
      else ps' ← touch ps p at_; Some (q :: ps')
  end.

Definition note_port (s : State.t) (p : Z) : State.t :=
  s{{State.predicted :=
    match touch (State.predicted s) p (now (look 0)) with
    | Some ps => ps
    | None => State.predicted s ++ [MkPrediction p (now (look 0))]
    end}}.

Definition predicted_ports (s : State.t) : State.t * list handle * list Z :=
  let '(s, closing) := retire 0 s in
  (s, closing,
   match State.predicted s with [] => DEFAULT_PORTS | ps => map port ps end).

Definition stream_limit (allowing : nat) : nat :=
  if (allowing <? SPREAD_CIRCUITS)%nat then 1 else STREAMS_PER_CIRCUIT.

(** The candidates with their load, by index. *)
Fixpoint candidates_from (i index : nat) (cs : list Pooled.t) (p : Z) : list (nat * nat) :=
  match cs with
  | [] => []
  | c :: cs =>
      let rest := candidates_from i (S index) cs p in
      if usable i c && PortPolicy.allows (Microdesc.exit_policy (Pooled.exit c)) p
      then (index, streams i c) :: rest else rest
  end.

Definition min_nat (l : list nat) : option nat :=
  match l with [] => None | x :: l => Some (fold_left Nat.min l x) end.

(** [first_used.get_or_insert_with(Instant::now)] *)
Definition use_now (i : nat) (c : Pooled.t) : Pooled.t :=
  match Pooled.first_used c with
  | Some _ => c
  | None => c{{Pooled.first_used := Some (now (look i))}}
  end.

(** [draw n] is [rand::below(n)]. *)
Definition circuit_for (draw : nat -> result nat) (s : State.t) (p : Z)
    : State.t * list handle * option handle :=
  let '(s, closing) := retire 0 s in
  let room := (total s <? MAX_CIRCUITS)%nat in
  let usable := candidates_from 2 0 (State.circuits s) p in
  match min_nat (map snd usable) with
  | None => (s, closing, None)
  | Some fewest =>
      if (stream_limit (length usable) <=? fewest)%nat && room then (s, closing, None)
      else
        let candidates := map fst (filter (fun c => snd c = fewest) usable) in
        let pick := match draw (length candidates) with
                    | Ok n => nth n candidates 0%nat
                    | Err _ => nth 0 candidates 0%nat
                    end in
        match State.circuits s !! pick with
        | Some chosen =>
            (s{{State.circuits := <[pick := use_now 3 chosen]> (State.circuits s)}}, closing,
             Some (Pooled.circuit chosen))
        | None => (s, closing, None)
        end
  end.

Definition wanting_probe (s : State.t) : list handle :=
  map Pooled.circuit
    (filter (fun c => wants_probe (of_circuit 0 (Pooled.circuit c)) = true) (State.circuits s)).

(** The first with the circuit ID, and the rest. *)
Fixpoint remove_first {A} (p : A -> bool) (l : list A) : option (A * list A) :=
  match l with
  | [] => None
  | x :: l => if p x then Some (x, l) else '(y, l') ← remove_first p l; Some (y, x :: l')
  end.

Definition same_id (h : handle) (c : Pooled.t) : bool := circ_id (Pooled.circuit c) =? circ_id h.

Definition condemn (s : State.t) (h : handle) : State.t * list handle :=
  (match remove_first (same_id h) (State.circuits s) with
   | Some (dead, rest) =>
       let s := s{{State.circuits := rest}} in
       if negb (Pooled.blamed dead) && (length (State.blamed s) <? MAX_PENDING_BLAME)%nat
       then s{{State.blamed := State.blamed s ++ [(Pooled.guard dead, Unresponsive)] }} else s
   | None => s
   end, [h]).

Definition take_blame (s : State.t) : State.t * list (bytes * Verdict) :=
  (s{{State.blamed := [] }}, State.blamed s).

Definition take_stub (fits : PathConstraints.t -> bool) (s : State.t)
    : State.t * list handle * option Stub.t :=
  let '(s, closing) := retire 0 s in
  match remove_first (fun st => fits (Stub.constraints st)) (State.stubs s) with
  | Some (stub, rest) => (s{{State.stubs := rest}}, closing, Some stub)
  | None => (s, closing, None)
  end.

Definition add_stub (s : State.t) (stub : Stub.t) : State.t * list handle :=
  if (MAX_CIRCUITS <=? total s)%nat then (s, [Stub.circuit stub])
  else (s{{State.stubs := State.stubs s ++ [stub] }}, []).

(** The oldest circuit without streams, by index: the first of the oldest. *)
Fixpoint oldest_idle (i index : nat) (cs : list Pooled.t) : option (nat * Z) :=
  match cs with
  | [] => None
  | c :: cs =>
      let rest := oldest_idle i (S index) cs in
      if (streams i c =? 0)%nat then
        match rest with
        | Some (j, b) => if b <? Pooled.built c then Some (j, b) else Some (index, Pooled.built c)
        | None => Some (index, Pooled.built c)
        end
      else rest
  end.

(** Each round takes something out: the number of circuits and stubs is rounds
    enough. *)
Fixpoint make_room (fuel i : nat) (s : State.t) (closing : list handle) : State.t * list handle :=
  match fuel with
  | O => (s, closing)
  | S fuel =>
      if (total s <? MAX_CIRCUITS)%nat then (s, closing)
      else
        match oldest_idle i 0 (State.circuits s) with
        | Some (index, _) =>
            match State.circuits s !! index with
            | Some c => make_room fuel (S i) (s{{State.circuits := delete index (State.circuits s)}})
                          (closing ++ [Pooled.circuit c])
            | None => (s, closing)
            end
        | None =>
            match State.stubs s with
            | st :: stubs => make_room fuel (S i) (s{{State.stubs := stubs}}) (closing ++ [Stub.circuit st])
            | [] => (s, closing)
            end
        end
  end.

Definition insert (s : State.t) (h : handle) (exit : Microdesc.t) (guard : bytes) (used : bool)
    : State.t * list handle :=
  let '(s, closing) := retire 0 s in
  let fuel := (length (State.stubs s) + length (State.circuits s))%nat in
  let '(s, closing) := make_room (S fuel) 2 s closing in
  let at_ := now (look (3 + fuel)) in
  (s{{State.circuits := State.circuits s ++
       [Pooled.Mk h exit guard false at_ (if used then Some at_ else None)] }}, closing).

Definition discard (s : State.t) (h : handle) : State.t * list handle :=
  (s{{State.circuits := filter (fun c => same_id h c = false) (State.circuits s)}}
     {{State.stubs := filter (fun st => circ_id (Stub.circuit st) <> circ_id h) (State.stubs s)}}, [h]).

Definition set_onion_in_use (s : State.t) (count : nat) : State.t := s{{State.onion_in_use := count}}.

(** The idle circuits leave the list without being closed. *)
Definition clear (s : State.t) : State.t * list handle :=
  (s{{State.stubs := [] }}
    {{State.circuits := filter (fun c => (0 < streams 0 c)%nat) (State.circuits s)}},
   map Stub.circuit (State.stubs s)).

Definition counts (s : State.t) : State.t * list handle * (nat * nat) :=
  let '(s, closing) := retire 0 s in (s, closing, (length (State.stubs s), length (State.circuits s))).

(** ** The builder's work *)
Inductive Job := JobStub | JobClean.

Definition clean_count (i : nat) (s : State.t) (ports : list Z) : nat :=
  length (filter (fun c => usable i c && match Pooled.first_used c with None => true | _ => false end &&
                    forallb (PortPolicy.allows (Microdesc.exit_policy (Pooled.exit c))) ports = true)
            (State.circuits s)).

Definition next_job (s : State.t) (ports : list Z) : State.t * list handle * option Job :=
  let '(s, closing) := retire 0 s in
  (s, closing,
   if (MAX_CIRCUITS <=? total s)%nat then None
   else
     let clean := clean_count 2 s ports in
     if (clean =? 0)%nat then Some JobClean
     else match State.stubs s with
          | [] => Some JobStub
          | stubs =>
              if (clean <? CLEAN_TARGET)%nat then Some JobClean
              else if (length stubs <? STUB_TARGET)%nat then Some JobStub
              else None
          end).

(** The loop of [next_jobs] after the first job; each round adds one. *)
Fixpoint more_jobs (fuel : nat) (jobs : list Job) (budget limit room clean_short stubs_short : nat)
    : list Job :=
  match fuel with
  | O => jobs
  | S fuel =>
      if (budget <? limit)%nat && (length jobs <? room + 1)%nat &&
         ((0 <? clean_short) || (0 <? stubs_short))%nat then
        if (0 <? stubs_short)%nat
        then more_jobs fuel (jobs ++ [JobStub]) (S budget) limit room clean_short (stubs_short - 1)
        else more_jobs fuel (jobs ++ [JobClean]) (S budget) limit room (clean_short - 1) stubs_short
      else jobs
  end.

Definition next_jobs (s : State.t) (ports : list Z) (limit : nat) : State.t * list handle * list Job :=
  let '(s, closing, first) := next_job s ports in
  (s, closing,
   match first with
   | None => []
   | Some first =>
       let clean := clean_count 3 s ports in
       more_jobs limit [first] 1 limit (MAX_CIRCUITS - (total s + 1))
         (CLEAN_TARGET - (clean + 1)) (STUB_TARGET - length (State.stubs s))
   end).

(** How long the builder waits after a round, and the next back-off:
    [results] are the outcomes of the jobs it ran. *)
Definition after_round (results : list bool) (backoff : Z) : Z * Z :=
  match results with
  | [] => (BUILDER_TICK, backoff)
  | _ => if existsb id results then (50 * 1000000, BUILD_RETRY_MIN)
         else (backoff, Z.min (backoff * 2) BUILD_RETRY_MAX)
  end.
End pool.

(** ** Every circuit is accounted for *)
Section accounts.

(** The circuits the pool holds. *)
Definition handles (s : State.t) : list handle :=
  map Stub.circuit (State.stubs s) ++ map Pooled.circuit (State.circuits s).

Lemma filter_split {A} (P : A -> bool) (l : list A) :
  l ≡ₚ filter (fun x => P x = true) l ++ filter (fun x => P x = false) l.
Proof.
  induction l as [|x l IH]; [done|]. destruct (P x) eqn:E.
  - rewrite filter_cons_True, filter_cons_False by congruence. cbn. by rewrite <- IH.
  - rewrite filter_cons_False, filter_cons_True by congruence. by rewrite <- Permutation_middle, <- IH.
Qed.

Context (look : nat -> Look).

Lemma retire_circuits_handles i cs : forall blamed kept closing blamed',
  retire_circuits look i cs blamed = (kept, closing, blamed') ->
  map Pooled.circuit cs ≡ₚ map Pooled.circuit kept ++ closing.
Proof.
  induction cs as [|c cs IH]; intros blamed kept closing blamed' E; cbn [retire_circuits] in E.
  { by injection E as <- <- <-. }
  destruct (bool_decide _).
  - destruct (retire_circuits look i cs blamed) as [[k cl] b] eqn:R. injection E as <- <- <-.
    cbn. by rewrite (IH _ _ _ _ R).
  - set (bl := if _ && _ && _ then _ else _) in E.
    destruct (retire_circuits look i cs bl) as [[k cl] b] eqn:R. apply IH in R.
    destruct (streams look i c =? 0)%nat; injection E as <- <- <-; cbn; rewrite R; [|done].
    by rewrite Permutation_middle.
Qed.

Lemma retire_handles i s s' closing :
  retire look i s = (s', closing) -> handles s ≡ₚ handles s' ++ closing.
Proof.
  unfold retire, handles. destruct (retire_circuits _ _ _ _) as [[kept cl] blame] eqn:R.
  apply retire_circuits_handles in R. intros [= <- <-]. cbn.
  rewrite R, (filter_split (stub_usable look i) (State.stubs s)) at 1.
  rewrite !map_app, map_map.
  replace (map (fun c => Pooled.circuit (mark_blamed look (S i) c)) kept) with (map Pooled.circuit kept).
  - rewrite <- !app_assoc. apply Permutation_app_head. rewrite !app_assoc. apply Permutation_app_tail.
    apply Permutation_app_comm.
  - apply map_ext. intros c. unfold mark_blamed. by destruct (blames_the_path _).
Qed.

Lemma remove_first_perm {A} (p : A -> bool) l x rest :
  remove_first p l = Some (x, rest) -> l ≡ₚ x :: rest /\ p x = true.
Proof.
  revert rest. induction l as [|y l IH]; intros rest E; [done|]. cbn in E.
  destruct (p y) eqn:P; [by injection E as <- <-|].
  destruct (remove_first p l) as [[z r]|]; [|done]. cbn in E. injection E as <- <-.
  destruct (IH r eq_refl) as [-> ?]. split; [apply perm_swap|done].
Qed.

Lemma remove_first_none {A} (p : A -> bool) l : remove_first p l = None -> Forall (fun x => p x = false) l.
Proof.
  induction l as [|y l IH]; [constructor|]. cbn. destruct (p y) eqn:P; [done|].
  destruct (remove_first p l) as [[? ?]|]; [done|]. intros _. constructor; [done|by apply IH].
Qed.

Lemma make_room_handles fuel : forall i s closing s' closing',
  make_room look fuel i s closing = (s', closing') ->
  handles s ++ closing ≡ₚ handles s' ++ closing'.
Proof.
  induction fuel as [|fuel IH]; intros i s closing s' closing' E; cbn [make_room] in E;
    [by injection E as <- <-|].
  destruct (_ <? _)%nat; [by injection E as <- <-|].
  destruct (oldest_idle look i 0 (State.circuits s)) as [[index b]|].
  - destruct (State.circuits s !! index) as [c|] eqn:Hc; [|by injection E as <- <-].
    apply IH in E. rewrite <- E. unfold handles. cbn.
    rewrite (delete_Permutation _ _ _ Hc) at 1. cbn. rewrite <- !app_assoc. apply Permutation_app_head.
    rewrite app_assoc. by rewrite <- Permutation_cons_append.
  - destruct (State.stubs s) as [|st stubs] eqn:Hs; [by injection E as <- <-|].
    apply IH in E. rewrite <- E. unfold handles. cbn. rewrite Hs. cbn.
    rewrite <- !app_assoc, !app_assoc. by rewrite <- Permutation_cons_append.
Qed.

Lemma oldest_idle_range i cs : forall k j b, oldest_idle look i k cs = Some (j, b) -> (k <= j < k + length cs)%nat.
Proof.
  induction cs as [|c cs IH]; intros k j b E; [done|]. cbn [oldest_idle length] in *.
  destruct (oldest_idle look i (S k) cs) as [[j' b']|] eqn:R; [apply IH in R|];
    destruct (streams look i c =? 0)%nat; try done.
  - destruct (b' <? Pooled.built c); injection E as <- <-; lia.
  - injection E as <- <-. lia.
  - injection E as <- <-. lia.
Qed.

Lemma oldest_idle_none i cs : forall k, oldest_idle look i k cs = None ->
  Forall (fun c => (0 < streams look i c)%nat) cs.
Proof.
  induction cs as [|c cs IH]; intros k E; [constructor|]. cbn [oldest_idle] in E.
  destruct (Nat.eqb_spec (streams look i c) 0).
  - by destruct (oldest_idle look i (S k) cs) as [[j' b']|]; [destruct (b' <? _)|].
  - constructor; [lia|]. by eapply IH.
Qed.

Lemma make_room_total fuel : forall i s closing s' closing',
  (length (State.stubs s) + length (State.circuits s) < fuel)%nat ->
  make_room look fuel i s closing = (s', closing') ->
  (total s' < MAX_CIRCUITS)%nat \/
  State.stubs s' = [] /\ exists j, Forall (fun c => (0 < streams look j c)%nat) (State.circuits s').
Proof.
  induction fuel as [|fuel IH]; intros i s closing s' closing' Hf E; cbn [make_room] in E; [lia|].
  destruct (Nat.ltb_spec (total s) MAX_CIRCUITS) as [L|L]; [injection E as <- <-; by left|].
  destruct (oldest_idle look i 0 (State.circuits s)) as [[index b]|] eqn:O.
  - destruct (State.circuits s !! index) as [c|] eqn:Hc.
    + eapply IH; [|exact E]. destruct s as [st cs ps n bl]. cbn in *. pose proof (length_delete _ _ (mk_is_Some _ _ Hc)).
      apply lookup_lt_Some in Hc. lia.
    + exfalso. clear -O Hc. apply oldest_idle_range in O. rewrite Nat.add_0_l in O.
      apply lookup_ge_None in Hc. lia.
  - destruct (State.stubs s) as [|st stubs] eqn:Hs.
    + injection E as <- <-. right. split; [done|]. exists i. by eapply oldest_idle_none.
    + eapply IH; [|exact E]. destruct s as [ss cs ps n bl]. cbn in *. subst ss. cbn in Hf. lia.
Qed.
End accounts.

(** ** The operations as steps *)
Inductive op :=
  | NotePort (p : Z)
  | PredictedPorts
  | CircuitFor (p : Z)
  | Condemn (h : handle)
  | TakeBlame
  | TakeStub (fits : PathConstraints.t -> bool)
  | AddStub (stub : Stub.t)
  | Insert (h : handle) (exit : Microdesc.t) (guard : bytes) (used : bool)
  | Discard (h : handle)
  | SetOnionInUse (count : nat)
  | Clear
  | Counts
  | NextJobs (ports : list Z) (limit : nat).

(** The state after it, the circuits it closed, and the stub it handed over. *)
Definition step (look : nat -> Look) (draw : nat -> result nat) (o : op) (s : State.t)
    : State.t * list handle * list handle :=
  match o with
  | NotePort p => (note_port look s p, [], [])
  | PredictedPorts => ((predicted_ports look s).1, [])
  | CircuitFor p => ((circuit_for look draw s p).1, [])
  | Condemn h => (condemn s h, [])
  | TakeBlame => ((take_blame s).1, [], [])
  | TakeStub fits =>
      let '(s, closing, stub) := take_stub look fits s in
      (s, closing, match stub with Some st => [Stub.circuit st] | None => [] end)
  | AddStub stub => (add_stub s stub, [])
  | Insert h exit guard used => (insert look s h exit guard used, [])
  | Discard h => (discard s h, [])
  | SetOnionInUse count => (set_onion_in_use s count, [], [])
  | Clear => (clear look s, [])
  | Counts => ((counts look s).1, [])
  | NextJobs ports limit => ((next_jobs look s ports limit).1, [])
  end.

(** Two circuits with one ID do not meet in the pool: they are on one channel. *)
Definition ids_unique (l : list handle) : Prop :=
  forall a b, a ∈ l -> b ∈ l -> circ_id a = circ_id b -> a = b.

Definition named (o : op) : list handle :=
  match o with Condemn h | Discard h => [h] | _ => [] end.

(** The circuits an operation is given that the pool did not hold. *)
Definition brought (o : op) (s : State.t) : list handle :=
  match o with
  | AddStub stub => [Stub.circuit stub]
  | Insert h _ _ _ => [h]
  | Condemn h | Discard h => if decide (h ∈ handles s) then [] else [h]
  | _ => []
  end.

(** What a change of consensus or guard forgets. *)
Definition forgotten (look : nat -> Look) (o : op) (s : State.t) : list handle :=
  match o with
  | Clear => map Pooled.circuit (filter (fun c => streams look 0 c = 0%nat) (State.circuits s))
  | _ => []
  end.

Section conservation.
Context (look : nat -> Look) (draw : nat -> result nat).

Lemma insert_handles s h exit guard used s' closing :
  insert look s h exit guard used = (s', closing) -> handles s ++ [h] ≡ₚ handles s' ++ closing.
Proof.
  unfold insert. destruct (retire look 0 s) as [s1 c1] eqn:R. apply retire_handles in R.
  destruct (make_room look _ 2 s1 c1) as [s2 c2] eqn:M. apply make_room_handles in M.
  intros [= <- <-]. rewrite R, M. unfold handles. cbn. rewrite map_app. cbn.
  rewrite <- !app_assoc. do 2 apply Permutation_app_head. apply Permutation_app_comm.
Qed.

(** Taking one circuit out by its ID, where IDs are unique. *)
Lemma remove_by_id (l : list handle) h :
  NoDup l -> (forall a, a ∈ l -> circ_id a = circ_id h -> a = h) ->
  (if decide (h ∈ l) then [] else [h]) ++ l ≡ₚ filter (fun a => circ_id a <> circ_id h) l ++ [h].
Proof.
  intros N U. induction l as [|a l IH]; [done|]. apply NoDup_cons in N as [Na N].
  assert (U' : forall b, b ∈ l -> circ_id b = circ_id h -> b = h) by (intros b Hb; apply U; by right).
  specialize (IH N U'). destruct (decide (circ_id a = circ_id h)) as [E|E].
  - assert (a = h) as -> by (apply U; [by left|done]). rewrite decide_True by by left.
    rewrite filter_cons_False by tauto. rewrite decide_False in IH by done. cbn [app] in *. by rewrite IH.
  - rewrite filter_cons_True by done. cbn [app].
    assert (D : (if decide (h ∈ a :: l) then [] else [h]) = (if decide (h ∈ l) then [] else [h])).
    { destruct (decide (h ∈ l)), (decide (h ∈ a :: l)); try done; [set_solver|].
      exfalso. assert (h = a) by set_solver. by subst. }
    rewrite D, <- IH. by rewrite Permutation_middle.
Qed.

Lemma map_filter_id {A} (f : A -> handle) h (l : list A) :
  map f (filter (fun x => circ_id (f x) <> circ_id h) l) = filter (fun a => circ_id a <> circ_id h) (map f l).
Proof.
  induction l as [|x l IH]; [done|]. cbn [map]. rewrite !filter_cons.
  destruct (decide _); cbn [map]; by rewrite IH.
Qed.

Lemma discard_handles s h s' closing :
  NoDup (handles s) -> ids_unique (handles s ++ [h]) -> discard s h = (s', closing) ->
  (if decide (h ∈ handles s) then [] else [h]) ++ handles s ≡ₚ handles s' ++ closing.
Proof.
  intros N U [= <- <-]. rewrite remove_by_id; [|done|].
  - unfold handles. cbn. rewrite filter_app, <- !map_filter_id. do 2 f_equiv.
    assert (E : filter (fun c => circ_id (Pooled.circuit c) <> circ_id h) (State.circuits s) =
                filter (fun c => same_id h c = false) (State.circuits s)).
    { apply list_filter_iff. intros c. unfold same_id. by rewrite Z.eqb_neq. }
    by rewrite E.
  - intros a Ha E. apply U; [set_solver..|done].
Qed.

Lemma condemn_handles s h s' closing :
  NoDup (handles s) -> ids_unique (handles s ++ [h]) -> (h ∉ map Stub.circuit (State.stubs s)) ->
  condemn s h = (s', closing) ->
  (if decide (h ∈ handles s) then [] else [h]) ++ handles s ≡ₚ handles s' ++ closing.
Proof.
  intros N U Hst E. unfold condemn in E. destruct (remove_first (same_id h) (State.circuits s)) as [[dead rest]|] eqn:R.
  - apply remove_first_perm in R as [P Q]. unfold same_id in Q. apply Z.eqb_eq in Q.
    assert (Hd : Pooled.circuit dead = h).
    { apply U; [|set_solver|done]. apply elem_of_app. left. unfold handles. apply elem_of_app. right.
      rewrite P. by left. }
    assert (Hh : handles s' = map Stub.circuit (State.stubs s) ++ map Pooled.circuit rest /\ closing = [h]).
    { injection E as <- <-. split; [|done]. by destruct (_ && _). }
    destruct Hh as [-> ->]. rewrite decide_True.
    + unfold handles. cbn [app]. rewrite P. cbn. rewrite Hd, <- Permutation_middle. by rewrite <- Permutation_cons_append.
    + unfold handles. rewrite P. cbn. rewrite Hd. set_solver.
  - injection E as <- <-. apply remove_first_none in R. rewrite decide_False.
    + apply Permutation_app_comm.
    + unfold handles. rewrite elem_of_app. intros [I|I]; [done|]. apply list_elem_of_fmap in I as (c & -> & Hc).
      rewrite Forall_forall in R. specialize (R c Hc). unfold same_id in R. by rewrite Z.eqb_refl in R.
Qed.

Lemma take_stub_handles fits s s' closing stub :
  take_stub look fits s = (s', closing, stub) ->
  handles s ≡ₚ handles s' ++ closing ++ match stub with Some st => [Stub.circuit st] | None => [] end.
Proof.
  unfold take_stub. destruct (retire look 0 s) as [s1 c1] eqn:R. apply retire_handles in R.
  destruct (remove_first _ (State.stubs s1)) as [[st rest]|] eqn:F; intros [= <- <- <-].
  - apply remove_first_perm in F as [P _]. rewrite R. unfold handles. cbn. rewrite P. cbn.
    rewrite !app_assoc. by rewrite <- Permutation_cons_append.
  - by rewrite app_nil_r.
Qed.

Lemma circuit_for_handles s p s' closing r :
  circuit_for look draw s p = (s', closing, r) -> handles s ≡ₚ handles s' ++ closing.
Proof.
  unfold circuit_for. destruct (retire look 0 s) as [s1 c1] eqn:R. apply retire_handles in R.
  destruct (min_nat _) as [fewest|]; [|by intros [= <- <- <-]].
  destruct (_ && _); [by intros [= <- <- <-]|].
  match goal with |- context [State.circuits s1 !! ?i] => generalize i; intros pick end.
  destruct (State.circuits s1 !! pick) as [c|] eqn:Hc; intros [= <- <- <-]; [|done]. rewrite R.
  assert (E : map Pooled.circuit (<[pick := use_now look 3 c]> (State.circuits s1)) =
              map Pooled.circuit (State.circuits s1)); [|unfold handles; cbn; by rewrite E].
  rewrite list_fmap_insert. apply list_insert_id. rewrite list_lookup_fmap, Hc. cbn. f_equal.
  unfold use_now. by destruct (Pooled.first_used c).
Qed.

Lemma clear_handles s s' closing :
  clear look s = (s', closing) -> handles s ≡ₚ handles s' ++ closing ++ forgotten look Clear s.
Proof.
  intros [= <- <-]. unfold handles, forgotten. cbn [State.stubs State.circuits map app].
  assert (P : State.circuits s ≡ₚ filter (fun c => (0 < streams look 0 c)%nat) (State.circuits s) ++
                                 filter (fun c => streams look 0 c = 0%nat) (State.circuits s)).
  { induction (State.circuits s) as [|c cs IH]; [done|]. destruct (decide (streams look 0 c = 0%nat)).
    - rewrite filter_cons_False, filter_cons_True by lia. by rewrite <- Permutation_middle, <- IH.
    - rewrite filter_cons_True, filter_cons_False by lia. cbn. by rewrite <- IH. }
  rewrite P at 1. rewrite map_app, !app_assoc. apply Permutation_app_tail, Permutation_app_comm.
Qed.

(** C18. No circuit is lost: after any operation every circuit the pool held or
    was given is, exactly once, still in the pool, closed, or handed over --
    except that [clear] forgets the circuits without a stream, which it takes
    out without closing. *)
Theorem pool_conservation o s s' closing taken :
  NoDup (handles s) -> ids_unique (handles s ++ named o) ->
  (forall h, o = Condemn h -> h ∉ map Stub.circuit (State.stubs s)) ->
  step look draw o s = (s', closing, taken) ->
  brought o s ++ handles s ≡ₚ handles s' ++ closing ++ taken ++ forgotten look o s.
Proof.
  intros N U C E.
  destruct o; cbn [step brought forgotten named] in *; rewrite ?app_nil_r in *.
  - injection E as <- <- <-. by rewrite ?app_nil_r.
  - unfold predicted_ports in E. destruct (retire look 0 s) as [s1 c1] eqn:R.
    injection E as <- <- <-. rewrite ?app_nil_r. by apply retire_handles in R.
  - destruct (circuit_for look draw s p) as [[s1 c1] r] eqn:R. injection E as <- <- <-.
    rewrite ?app_nil_r. by apply circuit_for_handles in R.
  - destruct (condemn s h) as [s1 c1] eqn:R. injection E as <- <- <-. rewrite ?app_nil_r.
    apply condemn_handles; [done|done|by apply C|done].
  - injection E as <- <- <-. by rewrite ?app_nil_r.
  - destruct (take_stub look fits s) as [[s1 c1] r] eqn:R. injection E as <- <- <-. by apply take_stub_handles in R.
  - unfold add_stub in E. destruct (_ <=? _)%nat; injection E as <- <- <-; rewrite ?app_nil_r.
    + apply Permutation_app_comm.
    + unfold handles. cbn. rewrite map_app, <- app_assoc. cbn [app map]. by rewrite <- Permutation_middle.
  - destruct (insert look s h exit guard used) as [s1 c1] eqn:R. injection E as <- <- <-.
    rewrite ?app_nil_r, Permutation_app_comm. by apply insert_handles in R.
  - destruct (discard s h) as [s1 c1] eqn:R. injection E as <- <- <-. rewrite ?app_nil_r. by apply discard_handles.
  - injection E as <- <- <-. by rewrite ?app_nil_r.
  - destruct (clear look s) as [s1 c1] eqn:R. injection E as <- <- <-. cbn [app]. by apply clear_handles in R.
  - unfold counts in E. destruct (retire look 0 s) as [s1 c1] eqn:R. injection E as <- <- <-.
    rewrite ?app_nil_r. by apply retire_handles in R.
  - unfold next_jobs, next_job in E. destruct (retire look 0 s) as [s1 c1] eqn:R. injection E as <- <- <-.
    rewrite ?app_nil_r. by apply retire_handles in R.
Qed.
End conservation.

(** ** The choice of a circuit *)
Section choice.
Context (look : nat -> Look).

(** Not proved bad, and its exit allows the port. *)
Definition fits (i : nat) (p : Z) (c : Pooled.t) : bool :=
  usable look i c && PortPolicy.allows (Microdesc.exit_policy (Pooled.exit c)) p.

Definition fitting (i : nat) (p : Z) (cs : list Pooled.t) : list Pooled.t := filter (fun c => fits i p c = true) cs.

Lemma candidates_elem i p cs : forall k j n,
  (j, n) ∈ candidates_from look i k cs p <->
  exists m c, cs !! m = Some c /\ j = (k + m)%nat /\ fits i p c = true /\ n = streams look i c.
Proof.
  induction cs as [|c cs IH]; intros k j n; cbn [candidates_from].
  { split; [set_solver|]. intros (m & c & Hm & _). by rewrite lookup_nil in Hm. }
  assert (Rest : (j, n) ∈ candidates_from look i (S k) cs p <->
    exists m c', (c :: cs) !! S m = Some c' /\ j = (k + S m)%nat /\ fits i p c' = true /\ n = streams look i c').
  { rewrite IH. cbn. setoid_rewrite Nat.add_succ_r. done. }
  fold (fits i p c). destruct (fits i p c) eqn:F.
  - rewrite elem_of_cons, Rest. split.
    + intros [[= -> ->]|(m & c' & H)]; [|by exists (S m), c']. exists 0%nat, c. rewrite Nat.add_0_r. done.
    + intros ([|m] & c' & Hm & -> & Hf & ->); [|right; by exists m, c'].
      cbn in Hm. injection Hm as <-. left. f_equal. lia.
  - rewrite Rest. split; [intros (m & c' & H); by exists (S m), c'|].
    intros ([|m] & c' & Hm & H); [|by exists m, c']. cbn in Hm. injection Hm as <-. destruct H as (_ & Hf & _). congruence.
Qed.

Lemma candidates_loads i p cs : forall k,
  map snd (candidates_from look i k cs p) = map (streams look i) (fitting i p cs).
Proof.
  unfold fitting. induction cs as [|c cs IH]; intros k; [done|]. cbn [candidates_from].
  fold (fits i p c). destruct (fits i p c) eqn:F.
  - rewrite filter_cons_True by done. cbn. by rewrite IH.
  - rewrite filter_cons_False by congruence. apply IH.
Qed.

Lemma fold_min l : forall x, (fold_left Nat.min l x <= x)%nat /\ (forall y, y ∈ l -> fold_left Nat.min l x <= y)%nat /\
  (fold_left Nat.min l x = x \/ fold_left Nat.min l x ∈ l).
Proof.
  induction l as [|y l IH]; intros x; cbn [fold_left].
  - split_and!; [lia|set_solver|by left].
  - destruct (IH (Nat.min x y)) as (A & C & D). split_and!.
    + lia.
    + intros z Hz. apply elem_of_cons in Hz as [->|Hz]; [lia|by apply C].
    + destruct D as [D|D]; [|right; by right]. rewrite D. destruct (Nat.min_spec x y) as [[_ ->]|[_ ->]]; [by left|].
      right. by left.
Qed.

Lemma min_nat_spec l m : min_nat l = Some m -> m ∈ l /\ Forall (fun y => m <= y)%nat l.
Proof.
  destruct l as [|x l]; [done|]. intros [= <-]. destruct (fold_min l x) as (A & C & D). split.
  - destruct D as [->|D]; [by left|by right].
  - constructor; [lia|]. apply Forall_forall. intros y Hy. apply C in Hy. lia.
Qed.

(** [below(n)] answers below [n]. *)
Definition draw_ok (draw : nat -> result nat) : Prop :=
  forall n k, (0 < n)%nat -> draw n = Ok k -> (k < n)%nat.

Lemma draw_elem draw (l : list nat) :
  draw_ok draw -> l <> [] ->
  match draw (length l) with Ok n => nth n l 0%nat | Err _ => nth 0 l 0%nat end ∈ l.
Proof.
  intros D N. assert (L : (0 < length l)%nat) by (destruct l; [done|cbn; lia]).
  apply list_elem_of_In. destruct (draw (length l)) as [k|] eqn:E; apply nth_In; [by apply D in E|done].
Qed.

(** The circuit given for a port is one the pool still wants whose exit
    allows the port, with the fewest streams of all such; it is marked used.
    None is given exactly when there is none, or when all of them carry their
    share of streams and there is room to build another. *)
Theorem circuit_for_spec draw s p s' closing r :
  draw_ok draw -> circuit_for look draw s p = (s', closing, r) ->
  let s1 := (retire look 0 s).1 in
  let all := fitting 2 p (State.circuits s1) in
  let limit := stream_limit (length all) in
  match r with
  | None =>
      s' = s1 /\ (all = [] \/ (total s1 < MAX_CIRCUITS)%nat /\ Forall (fun c => limit <= streams look 2 c)%nat all)
  | Some h =>
      exists i c, State.circuits s1 !! i = Some c /\ Pooled.circuit c = h /\ fits 2 p c = true /\
        Forall (fun c' => streams look 2 c <= streams look 2 c')%nat all /\
        ((streams look 2 c < limit)%nat \/ (MAX_CIRCUITS <= total s1)%nat) /\
        s' = s1{{State.circuits := <[i := use_now look 3 c]> (State.circuits s1)}}
  end.
Proof.
  intros D E. unfold circuit_for in E. destruct (retire look 0 s) as [s1 c1]. cbn [fst].
  set (all := fitting 2 p (State.circuits s1)).
  pose proof (candidates_loads 2 p (State.circuits s1) 0) as Loads. fold all in Loads.
  pose proof (candidates_elem 2 p (State.circuits s1) 0) as Elem.
  set (cands := candidates_from look 2 0 (State.circuits s1) p) in *.
  assert (Len : length cands = length all).
  { apply (f_equal length) in Loads. by rewrite !length_map in Loads. }
  rewrite Loads, Len in E. cbv zeta.
  destruct (min_nat (map (streams look 2) all)) as [fewest|] eqn:M.
  2: { injection E as <- <- <-. split; [done|]. left. by destruct all. }
  apply min_nat_spec in M as [Hf Hmin]. rewrite Forall_map in Hmin.
  destruct (Nat.leb_spec (stream_limit (length all)) fewest) as [Le|Gt]; cbn [andb] in E.
  1: destruct (Nat.ltb_spec (total s1) MAX_CIRCUITS) as [Lt|Ge].
  1: { injection E as <- <- <-. split; [done|]. right. split; [done|].
       eapply Forall_impl; [exact Hmin|]. cbn. lia. }
  all: rewrite <- Loads in Hf; apply list_elem_of_fmap in Hf as ([j n] & Hn & Hj); cbn in Hn; subst n.
  all: set (picks := map fst (filter (fun c => snd c = fewest) cands)) in E.
  all: assert (Np : picks <> []) by (intros Np; assert (I : j ∈ picks) by
         (apply list_elem_of_fmap; exists (j, fewest); split; [done|by apply list_elem_of_filter]);
         rewrite Np in I; set_solver).
  all: pose proof (draw_elem draw picks D Np) as Hp.
  all: set (pick := match draw _ with Ok _ => _ | Err _ => _ end) in *; clearbody pick.
  all: apply list_elem_of_fmap in Hp as ([k n] & -> & Hk); apply list_elem_of_filter in Hk as [Hn Hk]; cbn in Hn; subst n.
  all: apply Elem in Hk as (m & c & Hm & -> & Fc & Ec); cbn [fst Nat.add] in E; rewrite Hm in E; injection E as <- <- <-.
  all: exists m, c; rewrite <- Ec; split_and!; first [done | lia].
Qed.
End choice.

(** ** The budget *)
Section budget.
Context (look : nat -> Look).

Lemma total_handles s : total s = (length (handles s) + State.onion_in_use s)%nat.
Proof. unfold total, handles. by rewrite length_app, !length_map. Qed.

Lemma retire_total i s s' closing :
  retire look i s = (s', closing) -> (total s' <= total s)%nat /\ State.onion_in_use s' = State.onion_in_use s.
Proof.
  intros E. assert (O : State.onion_in_use s' = State.onion_in_use s).
  { unfold retire in E. destruct (retire_circuits _ _ _ _) as [[? ?] ?]. by injection E as <- <-. }
  split; [|done]. apply retire_handles, Permutation_length in E. rewrite length_app in E.
  rewrite !total_handles, O. lia.
Qed.

Lemma retire_circuits_blame i cs : forall blamed kept closing blamed',
  retire_circuits look i cs blamed = (kept, closing, blamed') ->
  (length blamed <= MAX_PENDING_BLAME)%nat -> (length blamed' <= MAX_PENDING_BLAME)%nat.
Proof.
  induction cs as [|c cs IH]; intros blamed kept closing blamed' E L; cbn [retire_circuits] in E.
  { by injection E as <- <- <-. }
  destruct (bool_decide _).
  - destruct (retire_circuits look i cs blamed) as [[k cl] b] eqn:R. injection E as <- <- <-. by eapply IH.
  - set (bl := if _ && _ && _ then _ else _) in E.
    assert (Lb : (length bl <= MAX_PENDING_BLAME)%nat).
    { unfold bl. destruct (_ && _ && _) eqn:C; [|done]. b2p.
      match goal with H : (_ <? _)%nat = true |- _ => apply Nat.ltb_lt in H end.
      rewrite length_app. cbn [length]. lia. }
    destruct (retire_circuits look i cs bl) as [[k cl] b] eqn:R. pose proof (IH _ _ _ _ R Lb).
    by destruct (streams look i c =? 0)%nat; injection E as <- <- <-.
Qed.

Lemma retire_blame i s s' closing :
  retire look i s = (s', closing) ->
  (length (State.blamed s) <= MAX_PENDING_BLAME)%nat -> (length (State.blamed s') <= MAX_PENDING_BLAME)%nat.
Proof.
  unfold retire. destruct (retire_circuits _ _ _ _) as [[kept cl] blame] eqn:R. intros [= <- <-] L.
  by eapply retire_circuits_blame.
Qed.

Lemma make_room_rest fuel : forall i s closing s' closing',
  make_room look fuel i s closing = (s', closing') ->
  State.blamed s' = State.blamed s /\ State.onion_in_use s' = State.onion_in_use s.
Proof.
  induction fuel as [|fuel IH]; intros i s closing s' closing' E; cbn [make_room] in E; [by injection E as <- <-|].
  destruct (_ <? _)%nat; [by injection E as <- <-|].
  destruct (oldest_idle look i 0 (State.circuits s)) as [[index b]|].
  - destruct (State.circuits s !! index); [|by injection E as <- <-]. by apply IH in E.
  - destruct (State.stubs s); [by injection E as <- <-|]. by apply IH in E.
Qed.

(** The state is no larger, and its blame list still bounded. *)
Definition no_larger (s s' : State.t) : Prop :=
  (total s' <= total s)%nat /\
  ((length (State.blamed s) <= MAX_PENDING_BLAME)%nat -> (length (State.blamed s') <= MAX_PENDING_BLAME)%nat).

Lemma retire_no_larger i s s' closing : retire look i s = (s', closing) -> no_larger s s'.
Proof. intros E. split; [by eapply retire_total|by eapply retire_blame]. Qed.

(** All but the newest circuit were carrying streams when they were looked at. *)
Definition busy (s : State.t) : Prop :=
  State.stubs s = [] /\
  exists others c j, State.circuits s = others ++ [c] /\ Forall (fun c => (0 < streams look j c)%nat) others.

Lemma insert_budget s h exit guard used s' closing :
  insert look s h exit guard used = (s', closing) ->
  ((total s' <= MAX_CIRCUITS)%nat \/ busy s') /\
  ((length (State.blamed s) <= MAX_PENDING_BLAME)%nat -> (length (State.blamed s') <= MAX_PENDING_BLAME)%nat).
Proof.
  unfold insert. destruct (retire look 0 s) as [s1 c1] eqn:R. pose proof (retire_blame _ _ _ _ R) as Rb.
  destruct (make_room look _ 2 s1 c1) as [s2 c2] eqn:M. pose proof (make_room_rest _ _ _ _ _ _ M) as [Eb _].
  apply make_room_total in M; [|lia]. intros [= <- <-]. split.
  - destruct M as [L|(Hs & j & F)]; [left|right].
    + destruct s2 as [ss cs ps n bl]. unfold total in *. cbn in *. rewrite length_app. cbn [length]. lia.
    + split; [exact Hs|]. eexists _, _, j. split; [reflexivity|exact F].
  - intros L. apply Rb in L. rewrite <- Eb in L. destruct s2 as [ss cs ps n bl]. exact L.
Qed.

Lemma condemn_no_larger s h s' closing : condemn s h = (s', closing) -> no_larger s s'.
Proof.
  unfold condemn. destruct (remove_first _ _) as [[dead rest]|] eqn:F.
  - apply remove_first_perm in F as [P _]. apply Permutation_length in P. cbn in P.
    destruct s as [ss cs ps n bl]. cbn [State.circuits State.blamed] in *. intros [= <- <-]. unfold no_larger, total.
    destruct (negb (Pooled.blamed dead)); cbn [andb]; [|cbn [State.stubs State.circuits State.onion_in_use State.blamed]; lia].
    destruct (Nat.ltb_spec (length bl) MAX_PENDING_BLAME);
      cbn [State.stubs State.circuits State.onion_in_use State.blamed]; [|lia].
    rewrite length_app. cbn [length]. lia.
  - intros [= <- <-]. by split.
Qed.

Lemma more_jobs_bound fuel : forall jobs budget limit room cs ss,
  (length jobs = budget)%nat -> (1 <= limit)%nat ->
  (length jobs <= limit)%nat -> (length jobs <= room + 1)%nat ->
  let out := more_jobs fuel jobs budget limit room cs ss in
  (length out <= limit)%nat /\ (length out <= room + 1)%nat.
Proof.
  induction fuel as [|fuel IH]; intros jobs budget limit room cs ss B L1 L2 L3; cbv zeta; cbn [more_jobs]; [done|].
  destruct (Nat.ltb_spec budget limit); cbn [andb]; [|done].
  destruct (Nat.ltb_spec (length jobs) (room + 1)); cbn [andb]; [|done].
  destruct (_ || _); [|done].
  destruct (0 <? ss)%nat; apply IH; rewrite ?length_app; cbn [length]; lia.
Qed.

Lemma next_jobs_bound s ports limit :
  (1 <= limit)%nat ->
  let '(s1, _, jobs) := next_jobs look s ports limit in
  (length jobs <= limit)%nat /\ (jobs <> [] -> length jobs + total s1 <= MAX_CIRCUITS)%nat.
Proof.
  intros L. unfold next_jobs, next_job. destruct (retire look 0 s) as [s1 c1].
  destruct (Nat.leb_spec MAX_CIRCUITS (total s1)) as [Le|Gt]; [split; [cbn; lia|done]|].
  match goal with |- context [match ?j with Some _ => _ | None => [] end] => destruct j as [first|] end; [|split; [cbn; lia|done]].
  destruct (more_jobs_bound limit [first] 1 limit (MAX_CIRCUITS - (total s1 + 1))
              (CLEAN_TARGET - (clean_count look 3 s1 ports + 1)) (STUB_TARGET - length (State.stubs s1)))
    as [A C]; cbn [length]; [done|lia..|]. split; [exact A|]. intros _. lia.
Qed.

(** The budget.  No operation but the client's own count of onion circuits
    takes the pool past sixteen, except [insert] when nothing is left to drop:
    no stub, and every other circuit with a stream.  The blame list never
    exceeds its cap, and the builder is never given more jobs than it asked
    for, nor more than there is room for. *)
Theorem pool_budget draw o s s' closing taken :
  step look draw o s = (s', closing, taken) -> (forall n, o <> SetOnionInUse n) ->
  ((total s' <= Nat.max (total s) MAX_CIRCUITS)%nat \/ busy s') /\
  ((length (State.blamed s) <= MAX_PENDING_BLAME)%nat -> (length (State.blamed s') <= MAX_PENDING_BLAME)%nat) /\
  forall ports limit, (1 <= limit)%nat ->
    let '(s1, _, jobs) := next_jobs look s ports limit in
    (length jobs <= limit)%nat /\ (jobs <> [] -> length jobs + total s1 <= MAX_CIRCUITS)%nat.
Proof.
  intros E O. apply Logic.and_assoc. split; [|intros ports limit; apply next_jobs_bound].
  assert (Small : no_larger s s' ->
    ((total s' <= Nat.max (total s) MAX_CIRCUITS)%nat \/ busy s') /\
    ((length (State.blamed s) <= MAX_PENDING_BLAME)%nat -> (length (State.blamed s') <= MAX_PENDING_BLAME)%nat)).
  { intros [T Bl]. split; [left; lia|done]. }
  destruct o; cbn [step] in E.
  - injection E as <- <- <-. by apply Small.
  - unfold predicted_ports in E. destruct (retire look 0 s) as [s1 c1] eqn:R.
    injection E as <- <- <-. by eapply Small, retire_no_larger.
  - unfold circuit_for in E. destruct (retire look 0 s) as [s1 c1] eqn:R. apply retire_no_larger in R as [T Bl].
    destruct (min_nat _); [|injection E as <- <- <-; by apply Small].
    destruct (_ && _); [injection E as <- <- <-; by apply Small|].
    destruct (State.circuits s1 !! _); injection E as <- <- <-; apply Small; [|done].
    split; [|done]. destruct s1 as [ss cs ps onion bl]. unfold total in *. cbn in *. by rewrite length_insert.
  - destruct (condemn s h) as [s1 c1] eqn:R. injection E as <- <- <-. by eapply Small, condemn_no_larger.
  - injection E as <- <- <-. apply Small. split; [done|]. cbn. unfold MAX_PENDING_BLAME. lia.
  - unfold take_stub in E. destruct (retire look 0 s) as [s1 c1] eqn:R. apply retire_no_larger in R as [T Bl].
    destruct (remove_first _ (State.stubs s1)) as [[st rest]|] eqn:F; injection E as <- <- <-; apply Small; [|done].
    apply remove_first_perm in F as [P _]. apply Permutation_length in P. cbn in P.
    split; [|done]. destruct s1 as [ss cs ps onion bl]. unfold total in *. cbn in *. lia.
  - unfold add_stub in E. destruct (Nat.leb_spec MAX_CIRCUITS (total s)); injection E as <- <- <-; [by apply Small|].
    split; [left|done]. destruct s as [ss cs ps onion bl]. unfold total in *. cbn in *. rewrite length_app. cbn [length]. lia.
  - destruct (insert look s h exit guard used) as [s1 c1] eqn:R. injection E as <- <- <-.
    apply insert_budget in R as [[T|T] Bl]; (split; [|exact Bl]); [left; lia|by right].
  - injection E as <- <- <-. apply Small. split; [|done]. destruct s as [ss cs ps onion bl]. unfold discard, total. cbn [State.stubs State.circuits State.onion_in_use].
    pose proof (length_filter (fun c => same_id h c = false) cs).
    pose proof (length_filter (fun st => circ_id (Stub.circuit st) <> circ_id h) ss). cbn [length]. lia.
  - by destruct (O count).
  - injection E as <- <- <-. apply Small. split; [|done]. destruct s as [ss cs ps onion bl]. unfold clear, total. cbn [State.stubs State.circuits State.onion_in_use].
    pose proof (length_filter (fun c => (0 < streams look 0 c)%nat) cs). cbn [length]. lia.
  - unfold counts in E. destruct (retire look 0 s) as [s1 c1] eqn:R. injection E as <- <- <-.
    by eapply Small, retire_no_larger.
  - unfold next_jobs, next_job in E. destruct (retire look 0 s) as [s1 c1] eqn:R. injection E as <- <- <-.
    by eapply Small, retire_no_larger.
Qed.
End budget.

(** ** On a small pool *)
Module PoolDemo.

Definition exit : Microdesc.t :=
  Microdesc.Mk (zeros 32) (zeros 32) None (PortPolicy.Mk true [(80, 80); (443, 443)]) [].
Definition idle : View := MkView false 0 (Delivery.Mk 0 0) false.
Definition loaded : View := MkView false 1 (Delivery.Mk 2000000 3000) false.
Definition slow : View := MkView false 2 (Delivery.Mk 2000000 20000) false.

(** Circuit 1 is idle, circuit 2 carries a stream, circuit 3 is slow. *)
Definition look (i : nat) : Look :=
  MkLook (secs (100 + Z.of_nat i)) (fun u => match u with 2%nat => loaded | 3%nat => slow | _ => idle end).
Definition draw (n : nat) : result nat := Ok 0%nat.

Definition circuit (u : nat) : handle := MkHandle u (Z.of_nat u + 2147483648).
Definition pooled (u : nat) : Pooled.t := Pooled.Mk (circuit u) exit (zeros 20) false (secs 90) None.
Definition stub : Stub.t := Stub.Mk (circuit 9) PathConstraints.default (zeros 20) (secs 95).
Definition state : State.t := State.Mk [stub] (map pooled [1%nat; 2%nat; 3%nat]) [] 0 [].

Lemma unique : NoDup (handles state) /\ ids_unique (handles state).
Proof.
  split; [by apply (bool_decide_unpack _); vm_compute|]. intros a b Ha Hb E.
  assert (H : Forall (fun h => circ_id h = Z.of_nat (uid h) + 2147483648) (handles state)) by (repeat constructor).
  rewrite Forall_forall in H. pose proof (H a Ha). pose proof (H b Hb). destruct a as [u i], b as [v j]. cbn in *.
  subst. f_equal; lia.
Qed.

(** Clearing closes the stub, keeps the circuits with streams and forgets the
    idle one without closing it. *)
Lemma pool_conservation_witness :
  clear look state = (State.Mk [] (map pooled [2%nat; 3%nat]) [] 0 [], [circuit 9]) /\
  handles state ≡ₚ map circuit [2%nat; 3%nat] ++ [circuit 9] ++ [circuit 1].
Proof.
  split; [by vm_compute|]. destruct unique as [N U].
  exact (pool_conservation look draw Clear state (clear look state).1 (clear look state).2 [] N
    ltac:(by rewrite app_nil_r) ltac:(done) eq_refl).
Defined.

(** A circuit that [clear] keeps is given out again for a new stream (here the
    budget is used up by onion circuits). *)
Example cleared_circuits_are_reused :
  (circuit_for look draw (clear look (set_onion_in_use state 14)).1 443).2 = Some (circuit 2).
Proof. by vm_compute. Qed.

Lemma circuit_for_spec_witness :
  (circuit_for look draw state 443).2 = Some (circuit 1) /\
  Forall (fun c' => 0 <= streams look 2 c')%nat (fitting look 2 443 (State.circuits (retire look 0 state).1)).
Proof.
  split; [by vm_compute|].
  assert (D : draw_ok draw) by (intros n k Hn [= <-]; lia).
  destruct (circuit_for_spec look draw state 443 (circuit_for look draw state 443).1.1
    (circuit_for look draw state 443).1.2 (Some (circuit 1)) D ltac:(by vm_compute)) as (i & c & Hc & Ec & _ & F & _).
  eapply Forall_impl; [exact F|]. cbn. lia.
Defined.

Lemma pool_budget_witness :
  let '(s', _, jobs) := next_jobs look state [80; 443] BUILD_PARALLEL in
  jobs = [JobClean; JobStub; JobStub] /\ (length jobs + total s' <= MAX_CIRCUITS)%nat.
Proof.
  destruct (pool_budget look draw TakeBlame state (take_blame state).1 [] [] eq_refl ltac:(done)) as (_ & _ & J).
  specialize (J [80; 443] BUILD_PARALLEL ltac:(unfold BUILD_PARALLEL; lia)).
  destruct (next_jobs look state [80; 443] BUILD_PARALLEL) as [[s1 c1] jobs] eqn:E.
  assert (Ej : jobs = [JobClean; JobStub; JobStub]) by (assert (X : jobs = (next_jobs look state [80; 443] BUILD_PARALLEL).2)
    by (by rewrite E); rewrite X; by vm_compute).
  split; [exact Ej|]. apply J. by rewrite Ej.
Defined.

Definition summary : list (nat * Z) * Z * (Z * Z) :=
  let '(s, closing) := retire look 0 state in
  (map (fun c => (uid (Pooled.circuit c), if Pooled.blamed c then 1 else 0)) (State.circuits s),
   Z.of_nat (length (State.blamed s)), after_round [false; false] BUILD_RETRY_MIN).
Example pool_demo : summary = ([(1%nat, 0); (2%nat, 0); (3%nat, 1)], 1, (secs 2, secs 4)).
Proof. by vm_compute. Qed.
End PoolDemo.
