(* ===== verification/Guards.v ===== *)
(** * Guards ([src/src/tor/client.rs])

    The list of entry guards: the choice of one, failures and strikes, the
    demotion of a guard whose circuits keep measuring badly, the channel that
    is open to one, and the file the list is kept in.  A channel is a number;
    what the program asks of it and of the network is an argument.  Instants
    ([Instant]) are nanoseconds, [now_unix] is seconds. *)
From S2P Require Import Prelude.
From S2P Require Import Text.
From S2P Require Import Cc.
From S2P Require Import Util.
From S2P Require Import Consensus.
From S2P Require Import Handshake.
From S2P Require Import Microdesc.
From S2P Require Import Path.
From S2P Require Import Pool.

Definition MAX_GUARDS : nat := 3.
Definition GUARD_ATTEMPTS : nat := 5.
Definition GUARD_STRIKES : nat := 3.
Definition GUARD_STRIKE_WINDOW : Z := 1800.
Definition MAX_SLOW_GUARD_CHANGES : nat := 2.
Definition GUARD_RETRY_INTERVAL : Z := secs 600.

Record GuardContact := MkContact { addr_ip : bytes; addr_port : Z; ed_identity : bytes }.

Module GuardEntry.
Record t := Mk {
  identity : bytes;
  strikes : list Z;
  demoted_unix : option Z;
  contact : option GuardContact;
  failed_at : option Z;
}.
End GuardEntry.

Module OpenGuard.
Record t := Mk { identity : bytes; relay : option RelayInfo; channel : nat }.
End OpenGuard.

Module Guards.
Record t := Mk { entries : list GuardEntry.t; open : option OpenGuard.t }.
End Guards.

(** What is read while an operation runs. *)
Record Moment := MkMoment { instant : Z; now_unix : Z }.

Definition is_demoted (m : Moment) (e : GuardEntry.t) : bool :=
  match GuardEntry.demoted_unix e with
  | Some at_ => (at_ <=? now_unix m) && (now_unix m - at_ <? GUARD_STRIKE_WINDOW)
  | None => false
  end.

(** Whether its cool-off has run out. *)
Definition cooled (m : Moment) (e : GuardEntry.t) : bool :=
  match GuardEntry.failed_at e with
  | Some at_ => GUARD_RETRY_INTERVAL <=? instant m - at_
  | None => false
  end.

Definition unfailed (e : GuardEntry.t) : bool :=
  match GuardEntry.failed_at e with None => true | Some _ => false end.

Fixpoint find_entry (p : GuardEntry.t -> bool) (es : list GuardEntry.t) : option GuardEntry.t :=
  match es with [] => None | e :: es => if p e then Some e else find_entry p es end.

Definition next_candidate (m : Moment) (g : Guards.t) : option bytes :=
  match find_entry (fun e => unfailed e && negb (is_demoted m e)) (Guards.entries g) with
  | Some e => Some (GuardEntry.identity e)
  | None =>
      e ← find_entry (fun e => negb (is_demoted m e) && cooled m e) (Guards.entries g);
      Some (GuardEntry.identity e)
  end.

(** The first entry with the identity is changed. *)
Fixpoint alter_entry (identity : bytes) (f : GuardEntry.t -> GuardEntry.t) (es : list GuardEntry.t)
    : list GuardEntry.t :=
  match es with
  | [] => []
  | e :: es =>
      if bytes_eqb (GuardEntry.identity e) identity then f e :: es else e :: alter_entry identity f es
  end.

Definition on_entry (identity : bytes) (f : GuardEntry.t -> GuardEntry.t) (g : Guards.t) : Guards.t :=
  g{{Guards.entries := alter_entry identity f (Guards.entries g)}}.

Definition open_is (identity : bytes) (g : Guards.t) : bool :=
  match Guards.open g with Some o => bytes_eqb (OpenGuard.identity o) identity | None => false end.

Definition stop_using (m : Moment) (identity : bytes) (g : Guards.t) : Guards.t :=
  let g := on_entry identity (fun e => e{{GuardEntry.failed_at := Some (instant m)}}) g in
  if open_is identity g then g{{Guards.open := None}} else g.

(** The second part is the channel that is closed.  [stop_using] has already
    forgotten the open channel when it was to this guard. *)
Definition mark_failed (m : Moment) (identity : bytes) (g : Guards.t) : Guards.t * option nat :=
  let g := stop_using m identity g in
  match Guards.open g with
  | Some o =>
      if bytes_eqb (OpenGuard.identity o) identity
      then (g{{Guards.open := None}}, Some (OpenGuard.channel o)) else (g, None)
  | None => (g, None)
  end.

Definition mark_working (identity : bytes) (g : Guards.t) : Guards.t :=
  on_entry identity (fun e => e{{GuardEntry.failed_at := None}}) g.

(** [peer_of] is the address and the Ed25519 identity of a channel's peer. *)
Definition record_contact (peer_of : nat -> GuardContact) (identity : bytes) (g : Guards.t) : Guards.t :=
  match Guards.open g with
  | Some o =>
      if bytes_eqb (OpenGuard.identity o) identity
      then on_entry identity (fun e => e{{GuardEntry.contact := Some (peer_of (OpenGuard.channel o))}}) g
      else g
  | None => g
  end.

(** ** Choosing a guard *)

(** [min_by_key(|e| e.failed_at)]: the first of the least, [None] before any
    instant. *)
Definition failed_leb (a b : option Z) : bool :=
  match a, b with
  | None, _ => true
  | Some _, None => false
  | Some x, Some y => x <=? y
  end.

Fixpoint least_failed (es : list GuardEntry.t) : option GuardEntry.t :=
  match es with
  | [] => None
  | e :: es =>
      match least_failed es with
      | Some e' => if failed_leb (GuardEntry.failed_at e) (GuardEntry.failed_at e') then Some e else Some e'
      | None => Some e
      end
  end.

(** The part of [ensure_guard] under its second lock: a guard to use, and
    whether it is new. *)
Definition pick_guard (m : Moment) (c : Consensus.t) (g : Guards.t) (ds : Rand.draws)
    : Rand.outcome (bytes * bool) :=
  match next_candidate m g with
  | Some guard => Rand.Done (Ok (guard, false)) ds
  | None =>
      if (MAX_GUARDS <=? length (Guards.entries g))%nat then
        Rand.Done (e ← ok_or (least_failed (Guards.entries g)) (other_error "no guard to try");
                   Ok (GuardEntry.identity e, false)) ds
      else
        let taken := map GuardEntry.identity (Guards.entries g) in
        let candidates := filter (fun r => RouterStatus.identity r ∉ taken) (guard_candidates c) in
        Rand.bind (weighted_choice_at candidates Guard (Consensus.weights c) ds)
          (fun r ds => Rand.Done (Ok (RouterStatus.identity r, true)) ds)
  end.

(** The part under its third lock; the list is then written out. *)
Definition add_guard (chosen : bytes) (g : Guards.t) : Guards.t :=
  if existsb (fun e => bytes_eqb (GuardEntry.identity e) chosen) (Guards.entries g) then g
  else g{{Guards.entries := Guards.entries g ++ [GuardEntry.Mk chosen [] None None None] }}.

(** All of it, when no other thread comes between the locks. *)
Definition ensure_guard (m : Moment) (c : Consensus.t) (g : Guards.t) (ds : Rand.draws)
    : Rand.outcome (bytes * Guards.t) :=
  match next_candidate m g with
  | Some guard => Rand.Done (Ok (guard, g)) ds
  | None =>
      Rand.bind (pick_guard m c g ds) (fun '(chosen, fresh) ds =>
        Rand.Done (Ok (chosen, if fresh : bool then add_guard chosen g else g)) ds)
  end.

Definition reconcile_guards (c : Consensus.t) (g : Guards.t) : Guards.t :=
  g{{Guards.entries :=
    filter (fun e => existsb (fun r => bytes_eqb (RouterStatus.identity r) (GuardEntry.identity e))
                       (Consensus.routers c) = true) (Guards.entries g)}}.

(** ** Strikes and demotion *)

Definition strike (strikes : list Z) (now : Z) : list Z * bool :=
  let kept := filter (fun at_ => now - at_ < secs GUARD_STRIKE_WINDOW) strikes ++ [now] in
  (kept, (GUARD_STRIKES <=? length kept)%nat).

(** One strike per guard and sweep. *)
Fixpoint distinct (blamed : list (bytes * Verdict)) (seen : list bytes) : list bytes :=
  match blamed with
  | [] => seen
  | (guard, _) :: blamed =>
      distinct blamed (if bool_decide (guard ∈ seen) then seen else seen ++ [guard])
  end.

(** The last guard with strikes enough is the one given up on. *)
Fixpoint strike_all (m : nat -> Moment) (i : nat) (ids : list bytes) (es : list GuardEntry.t)
    (give_up_on : option bytes) : list GuardEntry.t * option bytes :=
  match ids with
  | [] => (es, give_up_on)
  | guard :: ids =>
      match find_entry (fun e => bytes_eqb (GuardEntry.identity e) guard) es with
      | None => strike_all m (S i) ids es give_up_on
      | Some e =>
          let '(strikes, enough) := strike (GuardEntry.strikes e) (instant (m i)) in
          strike_all m (S i) ids (alter_entry guard (fun e => e{{GuardEntry.strikes := strikes}}) es)
            (if enough then Some guard else give_up_on)
      end
  end.

(** [remove] and [push] at the first position. *)
Definition to_back (identity : bytes) (es : list GuardEntry.t) : list GuardEntry.t :=
  match remove_first (fun e => bytes_eqb (GuardEntry.identity e) identity) es with
  | Some (e, rest) => rest ++ [e]
  | None => es
  end.

(** [note_bad_circuits] on the blame it took from the pool: the guards, the
    count of changes, and whether the pool is cleared. *)
Definition note_bad_circuits (m : nat -> Moment) (blamed : list (bytes * Verdict)) (g : Guards.t)
    (slow_changes : nat) : Guards.t * nat * bool :=
  match blamed with
  | [] => (g, slow_changes, false)
  | _ =>
      let ids := distinct blamed [] in
      let '(es, give_up_on) := strike_all m 0 ids (Guards.entries g) None in
      let g := g{{Guards.entries := es}} in
      let last := m (length ids) in
      match give_up_on with
      | None => (g, slow_changes, false)
      | Some guard =>
          if (MAX_SLOW_GUARD_CHANGES <=? slow_changes)%nat then (g, slow_changes, false)
          else
            let g := on_entry guard
                       (fun e => e{{GuardEntry.strikes := [] }}{{GuardEntry.demoted_unix := Some (now_unix last)}}) g in
            let g := stop_using last guard g in
            (g{{Guards.entries := to_back guard (Guards.entries g)}}, S slow_changes, true)
      end
  end.

(** ** The open channel *)
Section channels.
Context (peer_of : nat -> GuardContact) (is_closed : nat -> bool).

(** The channel to use, and the one that is closed because another thread had
    stored its own first. *)
Definition store_guard_channel (identity : bytes) (channel : nat) (relay : RelayInfo) (g : Guards.t)
    : Guards.t * (nat * RelayInfo) * option nat :=
  let g := mark_working identity g in
  let fresh :=
    (record_contact peer_of identity (g{{Guards.open := Some (OpenGuard.Mk identity (Some relay) channel)}}),
     (channel, relay), None) in
  match Guards.open g with
  | Some o =>
      if is_closed (OpenGuard.channel o) then fresh
      else match OpenGuard.relay o with
           | Some r => (g, (OpenGuard.channel o, r), Some channel)
           | None => fresh
           end
  | None => fresh
  end.

(** The lock scopes of [open_guard_channel]: what it finds, and what it writes
    back when the relay had to be looked up. *)
Definition open_channel (g : Guards.t) : option OpenGuard.t :=
  o ← Guards.open g; if is_closed (OpenGuard.channel o) then None else Some o.

Definition fill_relay (identity : bytes) (relay : RelayInfo) (g : Guards.t) : Guards.t :=
  let g := match Guards.open g with
           | Some o => if bytes_eqb (OpenGuard.identity o) identity
                       then g{{Guards.open := Some (o{{OpenGuard.relay := Some relay}})}} else g
           | None => g
           end in
  record_contact peer_of identity g.

(** Whether [retry_primary_guard] tries the first entry. *)
Definition primary_to_retry (m : Moment) (g : Guards.t) : option bytes :=
  match Guards.entries g with
  | [] => None
  | e :: _ =>
      if is_demoted m e then None
      else if unfailed e && open_is (GuardEntry.identity e) g then None
      else if negb (unfailed e) && negb (cooled m e) then None
      else Some (GuardEntry.identity e)
  end.

(** Its other lock scope, once a channel to the primary is up. *)
Definition adopt_primary (primary : bytes) (channel : nat) (relay : RelayInfo) (g : Guards.t) : Guards.t :=
  let g := mark_working primary g in
  record_contact peer_of primary (g{{Guards.open := Some (OpenGuard.Mk primary (Some relay) channel)}}).

(** [guard_channel]: at most five attempts.  [resolve] is [guard_relay],
    [connect] is [Channel::connect], [reachable] is [network_reachable]; each
    may answer differently in each attempt. *)
Record World := MkWorld {
  moment : Moment;
  resolve : bytes -> result RelayInfo;
  connect : RelayInfo -> result nat;
  reachable : bool;
}.

Definition open_guard_channel (w : World) (g : Guards.t) : Guards.t * result (option (nat * RelayInfo)) :=
  match open_channel g with
  | None => (g, Ok None)
  | Some o =>
      match OpenGuard.relay o with
      | Some relay => (g, Ok (Some (OpenGuard.channel o, relay)))
      | None =>
          match resolve w (OpenGuard.identity o) with
          | Err e => (g, Err e)
          | Ok relay => (fill_relay (OpenGuard.identity o) relay g, Ok (Some (OpenGuard.channel o, relay)))
          end
      end
  end.

Fixpoint guard_channel_loop (n : nat) (ws : nat -> World) (c : Consensus.t) (g : Guards.t)
    (last : option io_error) (ds : Rand.draws) : Guards.t * Rand.outcome (nat * RelayInfo) :=
  match n with
  | O => (g, Rand.Done (Err (default (other_error "no guard would accept a connection") last)) ds)
  | S n =>
      let w := ws n in
      let '(g, open) := open_guard_channel w g in
      match open with
      | Ok (Some found) => (g, Rand.Done (Ok found) ds)
      | _ =>
          match ensure_guard (moment w) c g ds with
          | Rand.Done (Err e) ds => (g, Rand.Done (Err e) ds)
          | Rand.Waiting => (g, Rand.Waiting)
          | Rand.Panicked => (g, Rand.Panicked)
          | Rand.Done (Ok (guard, g)) ds =>
              match resolve w guard with
              | Err e => guard_channel_loop n ws c (fst (mark_failed (moment w) guard g)) (Some e) ds
              | Ok relay =>
                  match connect w relay with
                  | Ok channel =>
                      let '(g, found, _) := store_guard_channel guard channel relay g in
                      (g, Rand.Done (Ok found) ds)
                  | Err e =>
                      if negb (reachable w)
                      then (g, Rand.Done (Err (IoError NotConnected (Message "the network is unreachable ({e})"))) ds)
                      else guard_channel_loop n ws c (fst (mark_failed (moment w) guard g)) (Some e) ds
                  end
              end
          end
      end
  end.

Definition guard_channel (ws : nat -> World) (c : Consensus.t) (g : Guards.t) (ds : Rand.draws)
    : Guards.t * Rand.outcome (nat * RelayInfo) :=
  guard_channel_loop GUARD_ATTEMPTS ws c g None ds.
End channels.

(** [GuardEntry::reconnect], and what [bootstrap] opens first. *)
Definition reconnect (connect_to : GuardContact -> result nat) (e : GuardEntry.t) : option OpenGuard.t :=
  contact ← GuardEntry.contact e;
  channel ← to_option (connect_to contact);
  Some (OpenGuard.Mk (GuardEntry.identity e) None channel).

Fixpoint bootstrap_open (connect_to : GuardContact -> result nat) (es : list GuardEntry.t)
    : option OpenGuard.t :=
  match es with
  | [] => None
  | e :: es => match reconnect connect_to e with Some o => Some o | None => bootstrap_open connect_to es end
  end.

(** ** The file *)

(** [SocketAddrV4] as text. *)
Definition show_addr (ip : bytes) (port : Z) : bytes :=
  Text.join 46 (map show_uint ip) ++ [58] ++ show_uint port.

Definition parse_octet (s : bytes) : option Z :=
  match s with
  | [] => None
  | d :: more =>
      if (3 <? len s) || ((d =? 48) && (0 <? len more)) then None
      else v ← parse_digits 0 s; if v <=? U8_MAX then Some v else None
  end.

Definition parse_port (s : bytes) : option Z :=
  match s with
  | [] => None
  | _ => v ← parse_digits 0 s; if v <=? U16_MAX then Some v else None
  end.

Definition parse_addr (s : bytes) : option (bytes * Z) :=
  '(ip, port) ← split_once 58 s;
  octets ← mapM parse_octet (split 46 ip);
  port ← parse_port port;
  if len octets =? 4 then Some (octets, port) else None.

Definition serialize_entry (e : GuardEntry.t) : bytes :=
  hex_encode (GuardEntry.identity e) ++
  match GuardEntry.contact e with
  | Some contact =>
      [SP] ++ show_addr (addr_ip contact) (addr_port contact) ++ [SP] ++ hex_encode (ed_identity contact) ++
      match GuardEntry.demoted_unix e with
      | Some at_ => B " demoted " ++ show_uint at_
      | None => []
      end
  | None => []
  end ++ [NL].

Definition serialize_guards (es : list GuardEntry.t) : bytes :=
  concat (map serialize_entry (take MAX_GUARDS es)).

(** The closure that reads the contact: a field it has taken is gone. *)
Definition read_contact (fields : list bytes) : option GuardContact * list bytes :=
  match fields with
  | [] => (None, [])
  | addr :: fields =>
      match parse_addr addr with
      | None => (None, fields)
      | Some (ip, port) =>
          match fields with
          | [] => (None, [])
          | ed :: fields =>
              match hex_fixed 32 ed with
              | Some ed => (Some (MkContact ip port ed), fields)
              | None => (None, fields)
              end
          end
      end
  end.

Definition read_demotion (fields : list bytes) : option Z :=
  match fields with
  | word :: at_ :: _ => if bytes_eqb word (B "demoted") then parse_uint U64_MAX at_ else None
  | _ => None
  end.

Definition read_entry (line : bytes) : option GuardEntry.t :=
  match split_whitespace line with
  | [] => None
  | hex :: fields =>
      identity ← hex_fixed 20 hex;
      let '(contact, fields) := read_contact fields in
      Some (GuardEntry.Mk identity [] (read_demotion fields) contact None)
  end.

Fixpoint load_lines (ls : list bytes) (entries : list GuardEntry.t) : list GuardEntry.t :=
  match ls with
  | [] => entries
  | line :: ls =>
      match read_entry line with
      | None => load_lines ls entries
      | Some e =>
          if existsb (fun e' => bytes_eqb (GuardEntry.identity e') (GuardEntry.identity e)) entries
          then load_lines ls entries
          else
            let entries := entries ++ [e] in
            if (length entries =? MAX_GUARDS)%nat then entries else load_lines ls entries
      end
  end.

(** [guards] and [legacy] are the two files, empty when they cannot be read. *)
Definition load_guards (guards legacy : bytes) : list GuardEntry.t :=
  let text := if bool_decide (trim guards = []) then legacy else guards in
  load_lines (lines text) [].

(** ** The list and its file *)
Section file.

(** An address prints and parses. *)
Definition addr_ok (ip : bytes) (port : Z) : Prop := bytes_ok ip /\ len ip = 4 /\ 0 <= port <= U16_MAX.

Definition octet_ok (v : Z) : bool :=
  bool_decide (parse_octet (show_uint v) = Some v) && forallb is_ascii_digit (show_uint v).

Lemma octets_ok v : is_u8 v -> octet_ok v = true.
Proof.
  intros H. assert (All : forallb octet_ok (seqZ 0 256) = true) by (by vm_compute).
  rewrite forallb_forall in All. apply All, list_elem_of_In, elem_of_seqZ. unfold is_u8 in H. lia.
Qed.

Lemma no_sep_digits c s : is_ascii_digit c = false -> Forall (fun b => is_ascii_digit b = true) s ->
  Forall (fun b => b <> c) s.
Proof. intros Hc F. eapply Forall_impl; [exact F|]. intros b Hb ->. by rewrite Hc in Hb. Qed.

Lemma parse_show_addr ip port : addr_ok ip port -> parse_addr (show_addr ip port) = Some (ip, port).
Proof.
  intros (Hip & L & Hp). unfold parse_addr, show_addr. cbn [app].
  assert (Dig : Forall (fun w => Forall (fun b => is_ascii_digit b = true) w) (map show_uint ip)).
  { apply Forall_map. eapply Forall_impl; [exact Hip|]. intros v Hv. apply show_uint_digits. unfold is_u8 in Hv. lia. }
  assert (Ns : Forall (fun b => b <> 58) (Text.join 46 (map show_uint ip))).
  { clear -Dig. induction Dig as [|w ws Hw F IH]; [constructor|]. destruct ws as [|w' ws].
    - cbn [Text.join]. by apply no_sep_digits.
    - rewrite join_cons by done. apply Forall_app. split; [by apply no_sep_digits|].
      constructor; [done|exact IH]. }
  rewrite split_once_app by done. cbn [mbind option_bind].
  rewrite split_join.
  - assert (M : mapM parse_octet (map show_uint ip) = Some ip).
    { apply mapM_Some. clear -Hip. induction Hip as [|v ip Hv F IH]; constructor; [|done].
      pose proof (octets_ok v Hv) as O. unfold octet_ok in O. by b2p. }
    rewrite M. cbn [mbind option_bind]. unfold parse_port.
    assert (P : parse_digits 0 (show_uint port) = Some port).
    { apply parse_show_fuel. unfold U16_MAX in Hp. split; [lia|]. change (Z.of_nat 20) with 20. lia. }
    pose proof (show_fuel_nonempty 19 port) as Ne. fold (show_uint port) in Ne.
    destruct (show_uint port) as [|b s] eqn:E; [done|]. rewrite P. cbn [mbind option_bind].
    rewrite (proj2 (Z.leb_le port U16_MAX)) by lia. rewrite L. done.
  - by destruct ip.
  - eapply Forall_impl; [exact Dig|]. intros w Hw. by apply no_sep_digits.
Qed.

(** A line of the file without its newline, as words. *)
Definition words_of (e : GuardEntry.t) : list bytes :=
  hex_encode (GuardEntry.identity e) ::
  match GuardEntry.contact e with
  | Some c => show_addr (addr_ip c) (addr_port c) :: hex_encode (ed_identity c) ::
      match GuardEntry.demoted_unix e with Some at_ => [B "demoted"; show_uint at_] | None => [] end
  | None => []
  end.

Lemma serialize_words e : serialize_entry e = Text.join SP (words_of e) ++ [NL].
Proof.
  unfold serialize_entry, words_of. destruct (GuardEntry.contact e) as [c|]; [|done].
  by destruct (GuardEntry.demoted_unix e) as [a|]; cbn [Text.join]; repeat rewrite <- app_assoc.
Qed.

Definition entry_ok (e : GuardEntry.t) : Prop :=
  bytes_ok (GuardEntry.identity e) /\ len (GuardEntry.identity e) = 20 /\
  match GuardEntry.contact e with
  | Some c => addr_ok (addr_ip c) (addr_port c) /\ bytes_ok (ed_identity c) /\ len (ed_identity c) = 32
  | None => True
  end /\
  match GuardEntry.demoted_unix e with Some at_ => 0 <= at_ <= U64_MAX | None => True end.

(** What a restart keeps. *)
Definition saved (e : GuardEntry.t) : GuardEntry.t :=
  GuardEntry.Mk (GuardEntry.identity e) []
    (match GuardEntry.contact e with Some _ => GuardEntry.demoted_unix e | None => None end)
    (GuardEntry.contact e) None.

Lemma hex_plain data : bytes_ok data -> Forall plain (hex_encode data).
Proof.
  assert (All : forallb (fun b => forallb (fun c => (33 <=? c) && (c <=? 126)) (hex_encode [b])) (seqZ 0 256) = true)
    by (by vm_compute).
  rewrite forallb_forall in All. unfold bytes_ok. induction 1 as [|b data Hb F IH]; [constructor|].
  assert (E : hex_encode (b :: data) = hex_encode [b] ++ hex_encode data)
    by (unfold hex_encode; cbn [map concat]; by rewrite app_nil_r).
  rewrite E. apply Forall_app. split; [|done].
  assert (I : In b (seqZ 0 256)) by (apply list_elem_of_In, elem_of_seqZ; unfold is_u8 in Hb; lia).
  apply All in I. rewrite forallb_forall in I. apply Forall_forall. intros c Hc.
  apply list_elem_of_In, I in Hc. unfold plain. b2p. lia.
Qed.

Lemma addr_plain ip port : addr_ok ip port -> Forall plain (show_addr ip port).
Proof.
  intros (Hip & _ & Hp). unfold show_addr. apply Forall_app. split.
  - clear Hp. induction Hip as [|v ip Hv F IH]; [constructor|]. cbn [map].
    assert (Hd : Forall plain (show_uint v)) by (apply digits_plain, show_uint_digits; unfold is_u8 in Hv; lia).
    destruct (map show_uint ip) as [|w ws] eqn:M; [exact Hd|]. rewrite join_cons by done.
    apply Forall_app. split; [exact Hd|]. constructor; [by unfold plain|exact IH].
  - constructor; [by unfold plain|]. apply digits_plain, show_uint_digits. lia.
Qed.

Lemma hex_fixed_round n data : bytes_ok data -> len data = n -> hex_fixed n (hex_encode data) = Some data.
Proof. intros H L. unfold hex_fixed. rewrite hex_round by done. cbn. by rewrite (proj2 (Z.eqb_eq _ _)). Qed.

Lemma words_plain e : entry_ok e -> Forall (fun w => w <> [] /\ Forall plain w) (words_of e).
Proof.
  intros (Hi & Li & Hc & Hd). unfold words_of.
  assert (Ne : forall data, 0 < len data -> hex_encode data <> []).
  { intros data L E. pose proof (len_hex_encode data) as H. rewrite E, len_nil in H. lia. }
  constructor; [split; [apply Ne; lia|by apply hex_plain]|].
  destruct (GuardEntry.contact e) as [c|]; [|constructor]. destruct Hc as (Ha & He & Le).
  constructor; [split; [|by apply addr_plain]|constructor; [split; [apply Ne; lia|by apply hex_plain]|]].
  - unfold show_addr. by destruct (Text.join 46 _).
  - destruct (GuardEntry.demoted_unix e) as [a|]; [|constructor].
    constructor; [split; [done|]|constructor; [split; [apply show_uint_nonempty|apply digits_plain, show_uint_digits; lia]|constructor]].
    assert (P : forallb (fun c => (33 <=? c) && (c <=? 126)) (B "demoted") = true) by (by vm_compute).
    rewrite forallb_forall in P. apply Forall_forall. intros c' Hc'. apply list_elem_of_In, P in Hc'. unfold plain. b2p. lia.
Qed.

Lemma read_entry_round e : entry_ok e -> read_entry (Text.join SP (words_of e)) = Some (saved e).
Proof.
  intros O. unfold read_entry. rewrite split_ws_join by by apply words_plain.
  destruct O as (Hi & Li & Hc & Hd). unfold words_of, saved. rewrite hex_fixed_round by done.
  cbn [mbind option_bind]. destruct (GuardEntry.contact e) as [c|]; cbn [read_contact]; [|done].
  destruct Hc as (Ha & He & Le). rewrite parse_show_addr, hex_fixed_round by done.
  destruct c as [ip port ed]. cbn [addr_ip addr_port ed_identity].
  destruct (GuardEntry.demoted_unix e) as [a|]; [|done]. cbn [read_demotion].
  change (bytes_eqb (B "demoted") (B "demoted")) with true. unfold U64_MAX in *.
  rewrite parse_show_uint; [done|lia|lia].
Qed.

Lemma line_no_nl e : entry_ok e -> Forall (fun b => b <> NL) (Text.join SP (words_of e)).
Proof.
  intros O. apply words_plain in O. induction O as [|w ws [_ Hw] F IH]; [constructor|].
  assert (Hn : Forall (fun b => b <> NL) w) by (eapply Forall_impl; [exact Hw|]; unfold plain, NL; intros; lia).
  destruct ws as [|w' ws]; [exact Hn|]. rewrite join_cons by done. apply Forall_app. split; [exact Hn|].
  constructor; [done|exact IH].
Qed.

Lemma strip_cr_plain l : list.last l <> Some CR -> strip_cr l = l.
Proof.
  unfold strip_cr, strip_suffix. destruct (strip_prefix (rev [CR]) (rev l)) as [r|] eqn:E; [|done].
  apply strip_prefix_Some in E. intros N. exfalso. apply N.
  assert (El : l = rev r ++ [CR]) by (rewrite <- (rev_involutive l), E, rev_app_distr; done).
  by rewrite El, last_snoc.
Qed.

Lemma last_plain e : entry_ok e -> list.last (Text.join SP (words_of e)) <> Some CR.
Proof.
  intros O. apply words_plain in O.
  assert (G : forall ws, Forall (fun w => w <> [] /\ Forall plain w) ws -> ws <> [] ->
    exists b, list.last (Text.join SP ws) = Some b /\ plain b).
  { clear. induction 1 as [|w ws [Hn Hw] F IH]; [done|]. intros _. destruct ws as [|w' ws].
    - cbn [Text.join]. destruct (list.last w) as [b|] eqn:L; [|by apply last_None in L].
      exists b. split; [done|]. apply last_Some_elem_of in L. rewrite Forall_forall in Hw. by apply Hw.
    - rewrite join_cons by done. destruct (IH ltac:(done)) as (b & L & P). exists b. split; [|done].
      change (w ++ SP :: Text.join SP (w' :: ws)) with (w ++ [SP] ++ Text.join SP (w' :: ws)).
      by rewrite app_assoc, last_app, L. }
  destruct (G _ O ltac:(done)) as (b & -> & P). intros [= ->]. unfold plain, CR in P. lia.
Qed.

Lemma lines_serialized es :
  Forall entry_ok es -> lines (concat (map serialize_entry es)) = map (fun e => Text.join SP (words_of e)) es.
Proof.
  unfold lines. induction 1 as [|e es He F IH]; [done|]. cbn [map concat].
  rewrite serialize_words, <- app_assoc. cbn [app]. rewrite split_app_sep by by apply line_no_nl.
  pose proof (split_nonempty NL (concat (map serialize_entry es))) as Ne.
  destruct (split NL (concat (map serialize_entry es))) as [|p ps]; [done|].
  cbn [lines_of]. rewrite strip_cr_plain by by apply last_plain. f_equal. exact IH.
Qed.

Lemma load_lines_round es : forall before,
  Forall entry_ok es -> NoDup (map GuardEntry.identity (before ++ es)) ->
  (length (before ++ es) <= MAX_GUARDS)%nat ->
  load_lines (map (fun e => Text.join SP (words_of e)) es) (map saved before) = map saved (before ++ es).
Proof.
  induction es as [|e es IH]; intros before F N L; [by rewrite app_nil_r|].
  inversion_clear F as [|? ? He F']. cbn [map load_lines]. rewrite read_entry_round by done.
  assert (X : existsb (fun e' => bytes_eqb (GuardEntry.identity e') (GuardEntry.identity (saved e))) (map saved before) = false).
  { apply existsb_elem. intros x Hx. apply list_elem_of_fmap in Hx as (y & -> & Hy). apply bool_decide_eq_false.
    cbn [saved GuardEntry.identity]. intros E. rewrite map_app, NoDup_app in N. destruct N as (_ & N & _).
    apply (N (GuardEntry.identity y)); [apply list_elem_of_fmap; by exists y|]. rewrite E. cbn. by left. }
  rewrite X. replace (map saved before ++ [saved e]) with (map saved (before ++ [e])) by (by rewrite map_app).
  replace (before ++ e :: es) with ((before ++ [e]) ++ es) in * by (by rewrite <- app_assoc).
  rewrite length_map. destruct (Nat.eqb_spec (length (before ++ [e])) MAX_GUARDS) as [E|Ne].
  - rewrite length_app in L. destruct es; [by rewrite app_nil_r|cbn in L; lia].
  - by apply IH.
Qed.
Lemma trim_plain s : (exists b s', s = b :: s' /\ plain b) ->
  bool_decide (trim s = []) = false.
Proof.
  intros (b & s' & -> & P). unfold trim. cbn [length trim_start_fuel]. rewrite ws_len_plain by done.
  unfold trim_end. cbn [length trim_end_fuel]. by rewrite ws_len_plain.
Qed.
End file.

(** What is written to the guard file is read back: the first three guards
    in their order, with their contacts and demotions; a demotion without a
    contact is the one thing that is lost.  Strikes and failures are not kept. *)
Theorem guard_file_roundtrip es legacy :
  Forall entry_ok es -> NoDup (map GuardEntry.identity es) -> es <> [] ->
  load_guards (serialize_guards es) legacy = map saved (take MAX_GUARDS es).
Proof.
  intros F N Ne. unfold load_guards, serialize_guards.
  assert (F3 : Forall entry_ok (take MAX_GUARDS es)) by by apply Forall_take.
  rewrite trim_plain.
  - rewrite lines_serialized by done. apply (load_lines_round (take MAX_GUARDS es) []); [done| |].
    + cbn [app]. rewrite <- (take_drop MAX_GUARDS es), map_app in N. by apply NoDup_app in N as [].
    + cbn [app]. rewrite length_take. lia.
  - destruct es as [|e es]; [done|]. cbn [take MAX_GUARDS map concat]. inversion_clear F as [|? ? (Hi & Li & _) _].
    unfold serialize_entry. destruct (GuardEntry.identity e) as [|b i]; [done|].
    pose proof (hex_plain (b :: i) Hi) as P. unfold hex_encode in *. cbn [map concat app] in *.
    inversion_clear P. eexists _, _. by split.
Qed.

(** ** Demotion *)
Section demotion.

Definition ids_of (es : list GuardEntry.t) : list bytes := map GuardEntry.identity es.

Lemma find_entry_Some p es e : find_entry p es = Some e -> e ∈ es /\ p e = true.
Proof.
  induction es as [|x es IH]; [done|]. cbn. destruct (p x) eqn:P; [intros [= <-]; split; [by left|done]|].
  intros E. destruct (IH E). split; [by right|done].
Qed.

Lemma alter_entry_ids i f es :
  (forall e, GuardEntry.identity (f e) = GuardEntry.identity e) -> ids_of (alter_entry i f es) = ids_of es.
Proof.
  intros Hf. unfold ids_of. induction es as [|e es IH]; [done|]. cbn [alter_entry].
  destruct (bytes_eqb _ _); cbn [map]; [by rewrite Hf|by rewrite IH].
Qed.

Lemma bytes_eqb_iff a b : bytes_eqb a b = true <-> a = b.
Proof. apply bool_decide_eq_true. Qed.

(** What is at an identity, where identities are distinct. *)
Lemma alter_entry_elem i f es e :
  NoDup (ids_of es) -> (forall e, GuardEntry.identity (f e) = GuardEntry.identity e) ->
  e ∈ alter_entry i f es <->
  exists e0, e0 ∈ es /\ e = (if bytes_eqb (GuardEntry.identity e0) i then f e0 else e0).
Proof.
  intros N Hf. induction es as [|x es IH]; cbn [alter_entry].
  { split; [set_solver|]. intros (e0 & H & _). set_solver. }
  cbn [ids_of map] in N. apply NoDup_cons in N as [Nx N].
  destruct (bytes_eqb (GuardEntry.identity x) i) eqn:B.
  - apply bytes_eqb_iff in B. split.
    + intros [->|H]%elem_of_cons.
      * exists x. split; [by left|]. by rewrite (proj2 (bytes_eqb_iff _ _) B).
      * exists e. split; [by right|]. destruct (bytes_eqb (GuardEntry.identity e) i) eqn:B'; [|done].
        apply bytes_eqb_iff in B'. exfalso. apply Nx. rewrite B, <- B'. apply list_elem_of_fmap. by exists e.
    + intros (e0 & [->|H]%elem_of_cons & ->).
      * rewrite (proj2 (bytes_eqb_iff _ _) B). by left.
      * destruct (bytes_eqb (GuardEntry.identity e0) i) eqn:B'; [|by right].
        apply bytes_eqb_iff in B'. exfalso. apply Nx. rewrite B, <- B'. apply list_elem_of_fmap. by exists e0.
  - rewrite elem_of_cons, IH by done. split.
    + intros [->|(e0 & H & E)]; [exists x; rewrite B; split; [by left|done]|exists e0; split; [by right|done]].
    + intros (e0 & [->|H]%elem_of_cons & E); [rewrite B in E; by left|right; by exists e0].
Qed.

Lemma find_entry_by_id i es e :
  NoDup (ids_of es) -> e ∈ es -> GuardEntry.identity e = i ->
  find_entry (fun e => bytes_eqb (GuardEntry.identity e) i) es = Some e.
Proof.
  intros N He Hi. induction es as [|x es IH]; [set_solver|]. cbn. cbn in N. apply NoDup_cons in N as [Nx N].
  destruct (bytes_eqb (GuardEntry.identity x) i) eqn:B.
  - apply bytes_eqb_iff in B. apply elem_of_cons in He as [->|He]; [done|].
    exfalso. apply Nx. rewrite B, <- Hi. apply list_elem_of_fmap. by exists e.
  - apply elem_of_cons in He as [->|He]; [|by apply IH].
    by rewrite (proj2 (bytes_eqb_iff _ _) Hi) in B.
Qed.

Lemma distinct_nodup blamed : forall seen, NoDup seen -> NoDup (distinct blamed seen).
Proof.
  induction blamed as [|[g v] blamed IH]; intros seen N; [done|]. cbn. apply IH. case_bool_decide; [done|].
  apply NoDup_app. split_and!; [done|set_solver|apply NoDup_singleton].
Qed.

Lemma distinct_elem blamed x : forall seen,
  x ∈ distinct blamed seen -> x ∈ seen \/ x ∈ map fst blamed.
Proof.
  induction blamed as [|[g v] blamed IH]; intros seen H; [by left|]. cbn in H. apply IH in H as [H|H]; [|right; by right].
  case_bool_decide; [by left|]. apply elem_of_app in H as [H|H]; [by left|]. apply list_elem_of_singleton in H as ->.
  right. cbn. by left.
Qed.

(** Up to strikes. *)
Definition same_but_strikes (e e' : GuardEntry.t) : Prop :=
  GuardEntry.identity e' = GuardEntry.identity e /\ GuardEntry.demoted_unix e' = GuardEntry.demoted_unix e /\
  GuardEntry.contact e' = GuardEntry.contact e /\ GuardEntry.failed_at e' = GuardEntry.failed_at e.

(** Enough strikes, the newest at [now], all inside the window. *)
Definition recent (strikes : list Z) (now : Z) : list Z :=
  filter (fun at_ => now - at_ < secs GUARD_STRIKE_WINDOW) strikes.
Definition struck_out (e : GuardEntry.t) (now : Z) : Prop :=
  (GUARD_STRIKES <= S (length (recent (GuardEntry.strikes e) now)))%nat.

Lemma strike_enough l now : snd (strike l now) = true -> (GUARD_STRIKES <= S (length (recent l now)))%nat.
Proof. unfold strike. cbn [snd]. rewrite Nat.leb_le, length_app, Nat.add_1_r. done. Qed.

Lemma same_but_strikes_trans e1 e2 e3 : same_but_strikes e1 e2 -> same_but_strikes e2 e3 -> same_but_strikes e1 e3.
Proof. unfold same_but_strikes. intros (?&?&?&?) (?&?&?&?). split_and!; congruence. Qed.

Lemma same_all_trans l1 : forall l2 l3,
  Forall2 same_but_strikes l1 l2 -> Forall2 same_but_strikes l2 l3 -> Forall2 same_but_strikes l1 l3.
Proof.
  induction l1 as [|e l1 IH]; intros l2 l3 F G; inversion F; subst; inversion G; subst; constructor.
  - by eapply same_but_strikes_trans.
  - by eapply IH.
Qed.

Lemma alter_strikes_same i s es :
  Forall2 same_but_strikes es (alter_entry i (fun e => e{{GuardEntry.strikes := s}}) es).
Proof.
  assert (R : forall l, Forall2 same_but_strikes l l).
  { induction l; constructor; [by unfold same_but_strikes|done]. }
  induction es as [|e es IH]; [constructor|]. cbn. destruct (bytes_eqb _ _).
  - constructor; [by unfold same_but_strikes|apply R].
  - constructor; [by unfold same_but_strikes|done].
Qed.

Lemma strike_all_spec m ids : forall i es acc es' r,
  NoDup ids -> NoDup (ids_of es) -> strike_all m i ids es acc = (es', r) ->
  Forall2 same_but_strikes es es' /\
  (r = acc \/ exists a e j, r = Some a /\ a ∈ ids /\ e ∈ es /\ GuardEntry.identity e = a /\
                            struck_out e (instant (m j))).
Proof.
  induction ids as [|a ids IH]; intros i es acc es' r Ni N E; cbn [strike_all] in E.
  { injection E as <- <-. split; [|by left]. clear. induction es; constructor; [by unfold same_but_strikes|done]. }
  apply NoDup_cons in Ni as [Na Ni].
  destruct (find_entry _ es) as [e|] eqn:F.
  - apply find_entry_Some in F as [He Hi]. apply bytes_eqb_iff in Hi.
    destruct (strike (GuardEntry.strikes e) (instant (m i))) as [st enough] eqn:S.
    set (f := fun e0 : GuardEntry.t => e0{{GuardEntry.strikes := st}}) in E.
    assert (N' : NoDup (ids_of (alter_entry a f es))) by (by rewrite alter_entry_ids).
    destruct (IH _ _ _ _ _ Ni N' E) as [Sm R]. split.
    + eapply same_all_trans; [apply alter_strikes_same|exact Sm].
    + destruct R as [->|(b & e' & j & -> & Hb & He' & Ei & So)].
      * destruct enough; [right|by left]. exists a, e, i. split_and!; [done|by left|done|done|].
        apply strike_enough. by rewrite S.
      * right. exists b, e', j. apply alter_entry_elem in He' as (e0 & He0 & ->); [|done|done].
        destruct (bytes_eqb (GuardEntry.identity e0) a) eqn:B; [|split_and!; [done|by right|done|done|done]].
        exfalso. apply bytes_eqb_iff in B. apply Na. rewrite <- B.
        assert (Eb : GuardEntry.identity e0 = b) by exact Ei. by rewrite Eb.
  - destruct (IH _ _ _ _ _ Ni N E) as [Sm R]. split; [done|].
    destruct R as [->|(b & e' & j & -> & Hb & He' & Ei & So)]; [by left|right].
    exists b, e', j. split_and!; [done|by right|done|done|done].
Qed.

Lemma same_ids es es' : Forall2 same_but_strikes es es' -> ids_of es' = ids_of es.
Proof. unfold ids_of. induction 1 as [|e e' es es' (H & _) F IH]; [done|]. cbn [map]. by rewrite H, IH. Qed.

Lemma next_candidate_Some m g a :
  next_candidate m g = Some a -> exists e, e ∈ Guards.entries g /\ GuardEntry.identity e = a /\ is_demoted m e = false.
Proof.
  unfold next_candidate. destruct (find_entry _ (Guards.entries g)) as [e|] eqn:F.
  - apply find_entry_Some in F as [He P]. intros [= <-]. exists e. split_and!; [done|done|]. by b2p.
  - destruct (find_entry (fun e => negb _ && cooled m e) _) as [e|] eqn:F'; [|done]. cbn. intros [= <-].
    apply find_entry_Some in F' as [He P]. exists e. split_and!; [done|done|]. by b2p.
Qed.

Lemma same_original es es' e' :
  Forall2 same_but_strikes es es' -> e' ∈ es' -> exists e, e ∈ es /\ same_but_strikes e e'.
Proof.
  induction 1 as [|x x' es es' Hx F IH]; [set_solver|]. intros [->|H]%elem_of_cons.
  - exists x. split; [by left|done].
  - destruct (IH H) as (e & He & Se). exists e. split; [by right|done].
Qed.

Lemma nodup_id es e e' : NoDup (ids_of es) -> e ∈ es -> e' ∈ es ->
  GuardEntry.identity e = GuardEntry.identity e' -> e = e'.
Proof.
  intros N He He' E. pose proof (find_entry_by_id _ es e N He E) as F.
  pose proof (find_entry_by_id _ es e' N He' eq_refl) as F'. congruence.
Qed.

Lemma alter_alter i f h es : (forall e, GuardEntry.identity (f e) = GuardEntry.identity e) ->
  alter_entry i h (alter_entry i f es) = alter_entry i (fun e => h (f e)) es.
Proof.
  intros Hf. induction es as [|e es IH]; [done|]. cbn [alter_entry].
  destruct (bytes_eqb (GuardEntry.identity e) i) eqn:B; cbn [alter_entry].
  - by rewrite Hf, B.
  - by rewrite B, IH.
Qed.

Lemma stop_using_spec m i g :
  Guards.entries (stop_using m i g) =
    alter_entry i (fun e => e{{GuardEntry.failed_at := Some (instant m)}}) (Guards.entries g) /\
  open_is i (stop_using m i g) = false.
Proof.
  unfold stop_using. set (g1 := on_entry i _ g).
  assert (E : Guards.entries g1 = alter_entry i (fun e => e{{GuardEntry.failed_at := Some (instant m)}}) (Guards.entries g))
    by done.
  clearbody g1. destruct (open_is i g1) eqn:O; split; done.
Qed.

(** The guard at the back after a change. *)
Lemma to_back_alter a h es before :
  (forall e, GuardEntry.identity (h e) = GuardEntry.identity e) ->
  NoDup (ids_of es) -> before ∈ es -> GuardEntry.identity before = a ->
  exists rest, to_back a (alter_entry a h es) = rest ++ [h before] /\
    ids_of (rest ++ [h before]) ≡ₚ ids_of es.
Proof.
  intros Hh N Hb Ei. unfold to_back.
  assert (Na : NoDup (ids_of (alter_entry a h es))) by (by rewrite alter_entry_ids).
  assert (Hx : h before ∈ alter_entry a h es).
  { apply alter_entry_elem; [done|done|]. exists before. split; [done|]. by rewrite (proj2 (bytes_eqb_iff _ _) Ei). }
  destruct (remove_first _ (alter_entry a h es)) as [[x rest]|] eqn:R.
  - apply remove_first_perm in R as [P Q]. apply bytes_eqb_iff in Q.
    assert (x = h before) as ->.
    { eapply nodup_id; [exact Na|rewrite P; by left|exact Hx|]. by rewrite Q, Hh. }
    exists rest. split; [done|]. rewrite <- (alter_entry_ids a h es Hh). unfold ids_of. rewrite P.
    rewrite map_app. cbn. by rewrite <- Permutation_cons_append.
  - apply remove_first_none in R. rewrite Forall_forall in R. specialize (R _ Hx). cbn in R.
    rewrite Hh in R. by rewrite (proj2 (bytes_eqb_iff _ _) Ei) in R.
Qed.
End demotion.

(** Moving off a guard.  One sweep strikes each blamed guard at most once
    and gives up on at most one of them, and only on one that then has three
    strikes within half an hour; at most two guards are ever given up on; no
    guard is forgotten.  The one given up on goes to the back of the list, its
    strikes cleared, is no longer the default, and for half an hour is no
    candidate, whatever the instant.  Otherwise nothing but strikes changed. *)
Theorem demotion_spec m blamed g n g' n' clear :
  NoDup (ids_of (Guards.entries g)) -> note_bad_circuits m blamed g n = (g', n', clear) ->
  ids_of (Guards.entries g') ≡ₚ ids_of (Guards.entries g) /\
  ((n <= MAX_SLOW_GUARD_CHANGES)%nat -> (n' <= MAX_SLOW_GUARD_CHANGES)%nat) /\
  if clear then
    n' = S n /\ (n < MAX_SLOW_GUARD_CHANGES)%nat /\
    exists before e rest j,
      before ∈ Guards.entries g /\ GuardEntry.identity before ∈ map fst blamed /\
      struck_out before (instant (m j)) /\
      Guards.entries g' = rest ++ [e] /\ GuardEntry.identity e = GuardEntry.identity before /\
      GuardEntry.strikes e = [] /\ GuardEntry.contact e = GuardEntry.contact before /\
      open_is (GuardEntry.identity e) g' = false /\
      exists since, GuardEntry.demoted_unix e = Some since /\
        forall m', since <= now_unix m' < since + GUARD_STRIKE_WINDOW ->
          next_candidate m' g' <> Some (GuardEntry.identity e)
  else n' = n /\ Guards.open g' = Guards.open g /\
       Forall2 same_but_strikes (Guards.entries g) (Guards.entries g').
Proof.
  intros N E. unfold note_bad_circuits in E.
  assert (Quiet : forall es, Forall2 same_but_strikes (Guards.entries g) es ->
    (g{{Guards.entries := es}}, n, false) = (g', n', clear) ->
    ids_of (Guards.entries g') ≡ₚ ids_of (Guards.entries g) /\
    ((n <= MAX_SLOW_GUARD_CHANGES)%nat -> (n' <= MAX_SLOW_GUARD_CHANGES)%nat) /\ clear = false /\
    n' = n /\ Guards.open g' = Guards.open g /\ Forall2 same_but_strikes (Guards.entries g) (Guards.entries g')).
  { intros es Sm [= <- <- <-]. cbn [Guards.entries Guards.open]. rewrite (same_ids _ _ Sm). by destruct g. }
  assert (Refl : Forall2 same_but_strikes (Guards.entries g) (Guards.entries g)).
  { clear. induction (Guards.entries g); constructor; [by unfold same_but_strikes|done]. }
  destruct blamed as [|bl blamed].
  { destruct (Quiet (Guards.entries g) Refl) as (A & C & -> & D); [by destruct g|]. done. }
  revert E. generalize (bl :: blamed). clear bl blamed. intros blamed E.
  pose proof (distinct_nodup blamed [] (NoDup_nil_2)) as Nd.
  destruct (strike_all m 0 (distinct blamed []) (Guards.entries g) None) as [es r] eqn:Sa.
  pose proof (strike_all_spec _ _ _ _ _ _ _ Nd N Sa) as [Sm R].
  destruct r as [a|]; [|destruct (Quiet es Sm E) as (A & C & -> & D); done].
  destruct (Nat.leb_spec MAX_SLOW_GUARD_CHANGES n) as [Le|Gt]; [destruct (Quiet es Sm E) as (A & C & -> & D); done|].
  destruct R as [R|(a' & before & j & [= <-] & Ha & Hb & Ei & So)]; [done|].
  assert (Nes : NoDup (ids_of es)) by (by rewrite (same_ids _ _ Sm)).
  set (t := m (length (distinct blamed []))) in E.
  assert (Hes : exists e0, e0 ∈ es /\ GuardEntry.identity e0 = a).
  { assert (I : a ∈ ids_of es) by (rewrite (same_ids _ _ Sm); apply list_elem_of_fmap; by exists before).
    apply list_elem_of_fmap in I as (e0 & -> & I). by exists e0. }
  destruct Hes as (e0 & He0 & Ei0).
  destruct (same_original _ _ _ Sm He0) as (e1 & He1 & Se1).
  assert (e1 = before) as -> by (eapply nodup_id; [exact N|done|done|]; destruct Se1; congruence).
  set (h := fun e : GuardEntry.t => (e{{GuardEntry.strikes := [] }}{{GuardEntry.demoted_unix := Some (now_unix t)}})
                                      {{GuardEntry.failed_at := Some (instant t)}}).
  destruct (to_back_alter a h es e0 ltac:(done) Nes He0 Ei0) as (rest & Tb & Pm).
  assert (Ent : Guards.entries g' = rest ++ [h e0] /\ n' = S n /\ clear = true /\ open_is a g' = false).
  { set (g1 := on_entry a _ _) in E. pose proof (stop_using_spec t a g1) as [E2 O2].
    change (Guards.entries g1) with (alter_entry a (fun e => e{{GuardEntry.strikes := [] }}{{GuardEntry.demoted_unix := Some (now_unix t)}}) es) in E2.
    rewrite alter_alter in E2 by done. fold h in E2. clearbody g1.
    set (g2 := stop_using t a g1) in *. clearbody g2. rewrite E2, Tb in E. injection E as <- <- <-.
    split_and!; [done|done|done|]. by destruct g2. }
  destruct Ent as (Eg & -> & -> & Op). rewrite Eg. split_and!; [by rewrite Pm, (same_ids _ _ Sm)|lia|done|done|].
  exists before, (h e0), rest, j. destruct Se1 as (Si & _ & Sc & _).
  split_and!; [done|rewrite Ei|done|done|exact Si|done|exact Sc| |].
  - apply distinct_elem in Ha as [Ha|Ha]; [by apply not_elem_of_nil in Ha|done].
  - change (GuardEntry.identity (h e0)) with (GuardEntry.identity e0). by rewrite Ei0.
  - exists (now_unix t). split; [done|]. intros m' Hm Hn.
    apply next_candidate_Some in Hn as (e & He & Ee & D). rewrite Eg in He.
    assert (Ng : NoDup (ids_of (rest ++ [h e0]))) by (by rewrite Pm).
    assert (e = h e0) as -> by (eapply nodup_id; [exact Ng|exact He|apply elem_of_app; right; by left|exact Ee]).
    change (is_demoted m' (h e0)) with ((now_unix t <=? now_unix m') && (now_unix m' - now_unix t <? GUARD_STRIKE_WINDOW)) in D.
    rewrite (proj2 (Z.leb_le _ _)), (proj2 (Z.ltb_lt _ _)) in D by lia. done.
Qed.

(** ** A channel to a guard *)
Section channel_facts.
Context (peer_of : nat -> GuardContact) (is_closed : nat -> bool).
(** Which relay details belong to an identity. *)
Context (keys_of : bytes -> RelayInfo -> Prop).

Definition guards_ok (g : Guards.t) : Prop :=
  NoDup (ids_of (Guards.entries g)) /\ (length (Guards.entries g) <= MAX_GUARDS)%nat /\
  forall o r, Guards.open g = Some o -> OpenGuard.relay o = Some r -> keys_of (OpenGuard.identity o) r.

(** No guard is dropped or reordered. *)
Definition kept (g g' : Guards.t) : Prop := exists more, ids_of (Guards.entries g') = ids_of (Guards.entries g) ++ more.

(** Only guards of [P] are newly marked as failed. *)
Definition blames_only (P : bytes -> Prop) (g g' : Guards.t) : Prop :=
  forall e', e' ∈ Guards.entries g' ->
    GuardEntry.failed_at e' = None \/ P (GuardEntry.identity e') \/
    exists e, e ∈ Guards.entries g /\ GuardEntry.identity e = GuardEntry.identity e' /\
      GuardEntry.failed_at e = GuardEntry.failed_at e'.

(** No guard has failed that had not. *)
Definition blameless (g g' : Guards.t) : Prop :=
  blames_only (fun _ => False) g g' /\
  forall e, e ∈ Guards.entries g ->
    exists e', e' ∈ Guards.entries g' /\ GuardEntry.identity e' = GuardEntry.identity e /\
      (GuardEntry.failed_at e' = GuardEntry.failed_at e \/ GuardEntry.failed_at e' = None).

Lemma blames_only_trans P g1 g2 g3 : blames_only P g1 g2 -> blames_only P g2 g3 -> blames_only P g1 g3.
Proof.
  intros B1 B2 e3 H3. destruct (B2 e3 H3) as [F|[F|(e2 & H2 & I2 & F2)]]; [by left|by right; left|].
  rewrite <- I2, <- F2. exact (B1 e2 H2).
Qed.

Lemma blames_only_weaken (P Q : bytes -> Prop) g g' :
  (forall i, P i -> Q i) -> blames_only P g g' -> blames_only Q g g'.
Proof. intros H B e He. destruct (B e He) as [F|[F|F]]; auto. Qed.

Lemma kept_trans g1 g2 g3 : kept g1 g2 -> kept g2 g3 -> kept g1 g3.
Proof. intros [m1 E1] [m2 E2]. exists (m1 ++ m2). by rewrite E2, E1, app_assoc. Qed.

Lemma blameless_trans g1 g2 g3 : blameless g1 g2 -> blameless g2 g3 -> blameless g1 g3.
Proof.
  intros [R1 B1] [R2 B2]. split; [by eapply blames_only_trans|]. intros e He. destruct (B1 e He) as (e2 & He2 & I2 & F2). destruct (B2 e2 He2) as (e3 & He3 & I3 & F3).
  exists e3. split_and!; [done|congruence|]. destruct F3 as [F3|F3]; [|by right]. rewrite F3. exact F2.
Qed.

Lemma kept_refl g : kept g g.
Proof. exists []. by rewrite app_nil_r. Qed.
Lemma blameless_refl g : blameless g g.
Proof. split; intros e He; [right; right|]; exists e; auto. Qed.

Lemma blameless_blames P g g' : blameless g g' -> blames_only P g g'.
Proof. intros [B _]. by eapply blames_only_weaken; [|exact B]. Qed.

Lemma on_entry_kept i f g :
  (forall e, GuardEntry.identity (f e) = GuardEntry.identity e) ->
  ids_of (Guards.entries (on_entry i f g)) = ids_of (Guards.entries g) /\ Guards.open (on_entry i f g) = Guards.open g.
Proof. intros Hf. unfold on_entry. destruct g. split; [by apply alter_entry_ids|done]. Qed.

Lemma alter_entry_from i f es e' :
  e' ∈ alter_entry i f es -> e' ∈ es \/ exists e, e ∈ es /\ GuardEntry.identity e = i /\ e' = f e.
Proof.
  induction es as [|x es IH]; [by left|]. cbn [alter_entry]. destruct (bytes_eqb _ _) eqn:B.
  - apply bytes_eqb_iff in B. intros [->|He]%elem_of_cons; [right; exists x; split_and!; [by left|done|done]|left; by right].
  - intros [->|He]%elem_of_cons; [left; by left|]. destruct (IH He) as [H|(e & H & R)]; [left; by right|right].
    exists e. split; [by right|done].
Qed.

Lemma on_entry_blameless i f g :
  (forall e, GuardEntry.identity (f e) = GuardEntry.identity e) ->
  (forall e, GuardEntry.failed_at (f e) = GuardEntry.failed_at e \/ GuardEntry.failed_at (f e) = None) ->
  blameless g (on_entry i f g).
Proof.
  intros Hf Ha. split.
  { intros e' He. apply alter_entry_from in He as [He|(e & He & _ & ->)]; [right; right; by exists e'|].
    destruct (Ha e) as [F|F]; [right; right; exists e; by rewrite Hf, F|by left]. }
  intros e He. change (Guards.entries (on_entry i f g)) with (alter_entry i f (Guards.entries g)).
  revert He. generalize (Guards.entries g). intros es He.
  induction es as [|x es IH]; [set_solver|]. cbn [alter_entry]. destruct (bytes_eqb _ _).
  - apply elem_of_cons in He as [->|He]; [exists (f x)|exists e]; split_and!; auto; [by left|by right].
  - apply elem_of_cons in He as [->|He]; [exists x; split_and!; auto; by left|].
    destruct (IH He) as (e' & ? & ? & ?). exists e'. split_and!; auto. by right.
Qed.

(** The entries stay, whoever they are, and the open channel is as given. *)
Lemma guards_ok_from g g' :
  guards_ok g -> ids_of (Guards.entries g') = ids_of (Guards.entries g) ->
  (forall o r, Guards.open g' = Some o -> OpenGuard.relay o = Some r -> keys_of (OpenGuard.identity o) r) ->
  guards_ok g'.
Proof.
  intros (N & L & _) E K. split_and!; [by rewrite E| |done].
  apply (f_equal length) in E. unfold ids_of in E. rewrite !length_map in E. lia.
Qed.

Lemma record_contact_effect i g :
  ids_of (Guards.entries (record_contact peer_of i g)) = ids_of (Guards.entries g) /\
  Guards.open (record_contact peer_of i g) = Guards.open g /\ blameless g (record_contact peer_of i g).
Proof.
  unfold record_contact. destruct (Guards.open g) as [o|] eqn:O; [|by split_and!; [..|apply blameless_refl]].
  destruct (bytes_eqb _ _); [|by split_and!; [..|apply blameless_refl]].
  match goal with |- context [on_entry i ?f g] => destruct (on_entry_kept i f g ltac:(done)) as [-> ->];
    pose proof (on_entry_blameless i f g ltac:(done) ltac:(by left)) end. done.
Qed.

Lemma mark_working_effect i g :
  ids_of (Guards.entries (mark_working i g)) = ids_of (Guards.entries g) /\
  Guards.open (mark_working i g) = Guards.open g /\ blameless g (mark_working i g).
Proof.
  unfold mark_working.
  match goal with |- context [on_entry i ?f g] => destruct (on_entry_kept i f g ltac:(done)) as [-> ->];
    pose proof (on_entry_blameless i f g ltac:(done) ltac:(by right)) end. done.
Qed.

Lemma mark_failed_effect m i g :
  ids_of (Guards.entries (mark_failed m i g).1) = ids_of (Guards.entries g) /\
  (Guards.open (mark_failed m i g).1 = Guards.open g \/ Guards.open (mark_failed m i g).1 = None) /\
  (mark_failed m i g).2 = None.
Proof.
  unfold mark_failed. destruct (stop_using_spec m i g) as [E O].
  assert (Op : Guards.open (stop_using m i g) = Guards.open g \/ Guards.open (stop_using m i g) = None).
  { unfold stop_using. cbv zeta. match goal with |- context [open_is i ?x] => destruct (open_is i x) end; [by right|left].
    by destruct g. }
  set (g2 := stop_using m i g) in *. clearbody g2.
  unfold open_is in O. destruct (Guards.open g2) as [o|] eqn:Og; [rewrite O|];
    cbn [fst snd]; rewrite E, alter_entry_ids by done; rewrite Og; done.
Qed.

Lemma mark_failed_blames m i g : blames_only (fun j => j = i) g (mark_failed m i g).1.
Proof.
  assert (Eq : Guards.entries (mark_failed m i g).1 = Guards.entries (stop_using m i g)).
  { unfold mark_failed. destruct (Guards.open _); [|done]. by destruct (bytes_eqb _ _). }
  intros e' He. rewrite Eq in He. rewrite (proj1 (stop_using_spec m i g)) in He.
  apply alter_entry_from in He as [He|(e & He & Hi & ->)]; [right; right; by exists e'|right; by left].
Qed.

Lemma store_effect i ch relay g :
  guards_ok g -> keys_of i relay ->
  let '(g', found, _) := store_guard_channel peer_of is_closed i ch relay g in
  guards_ok g' /\ ids_of (Guards.entries g') = ids_of (Guards.entries g) /\ blameless g g' /\
  exists o, Guards.open g' = Some o /\ OpenGuard.channel o = found.1 /\ OpenGuard.relay o = Some found.2 /\
            keys_of (OpenGuard.identity o) found.2.
Proof.
  intros G K. unfold store_guard_channel. destruct (mark_working_effect i g) as (Ei & Eo & Bl).
  set (g1 := mark_working i g) in *. clearbody g1.
  assert (Fresh : let g' := record_contact peer_of i (g1{{Guards.open := Some (OpenGuard.Mk i (Some relay) ch)}}) in
    guards_ok g' /\ ids_of (Guards.entries g') = ids_of (Guards.entries g) /\ blameless g g' /\
    exists o, Guards.open g' = Some o /\ OpenGuard.channel o = ch /\ OpenGuard.relay o = Some relay /\
              keys_of (OpenGuard.identity o) relay).
  { cbv zeta. set (g2 := g1{{Guards.open := _}}).
    assert (E2 : ids_of (Guards.entries g2) = ids_of (Guards.entries g)) by (by destruct g1).
    assert (B2 : blameless g g2) by (by destruct g1).
    assert (O2 : Guards.open g2 = Some (OpenGuard.Mk i (Some relay) ch)) by (by destruct g1).
    clearbody g2. destruct (record_contact_effect i g2) as (E3 & O3 & B3).
    split_and!; [|by rewrite E3|by eapply blameless_trans|].
    - apply (guards_ok_from g); [done|by rewrite E3|]. intros o r Ho Hr. rewrite O3, O2 in Ho.
      injection Ho as <-. cbn in *. by injection Hr as <-.
    - eexists. rewrite O3, O2. by split_and!. }
  destruct (Guards.open g1) as [o|] eqn:O1; [|exact Fresh]. destruct (is_closed _); [exact Fresh|].
  destruct (OpenGuard.relay o) as [r|] eqn:R; [|exact Fresh]. symmetry in Eo.
  split_and!; [|done|done|].
  - apply (guards_ok_from g); [done|done|]. rewrite O1, <- Eo. apply G.
  - exists o. split_and!; [done|done|done|]. by apply (proj2 (proj2 G)).
Qed.

Lemma ensure_effect m c g ds i g' ds' :
  guards_ok g -> ensure_guard m c g ds = Rand.Done (Ok (i, g')) ds' ->
  guards_ok g' /\ kept g g' /\ blameless g g' /\ Guards.open g' = Guards.open g.
Proof.
  intros G E. assert (Same : guards_ok g /\ kept g g /\ blameless g g /\ Guards.open g = Guards.open g)
    by (split_and!; [done|apply kept_refl|apply blameless_refl|done]).
  unfold ensure_guard in E. destruct (next_candidate m g) as [a|] eqn:Nc; [by injection E as <- <- <-|].
  unfold pick_guard in E. rewrite Nc in E. destruct (Nat.leb_spec MAX_GUARDS (length (Guards.entries g))) as [L|L].
  { destruct (least_failed _); cbn in E; [by injection E as <- <- <-|done]. }
  destruct (weighted_choice_at _ _ _ _) as [[r|]| |]; cbn in E; try done. injection E as <- <- <-.
  unfold add_guard. destruct (existsb _ _) eqn:X; [done|].
  destruct g as [es op]. cbn [Guards.entries Guards.open] in *. split_and!; [|by eexists; apply map_app| |done].
  - destruct G as (N & Le & K). split_and!; [|cbn; rewrite length_app; cbn [length] in *; lia|exact K].
    cbn. unfold ids_of. rewrite map_app. apply NoDup_app. split_and!; [exact N| |apply NoDup_singleton].
    intros x Hx Hs. cbn in Hs. apply list_elem_of_singleton in Hs as ->.
    apply list_elem_of_fmap in Hx as (e & Ee & He). rewrite existsb_elem in X. specialize (X e He).
    cbn in X. by rewrite (proj2 (bytes_eqb_iff _ _)) in X.
  - split.
    + intros e He. apply elem_of_app in He as [He|He]; [right; right; by exists e|].
      apply list_elem_of_singleton in He as ->. by left.
    + intros e He. exists e. split_and!; auto. cbn. apply elem_of_app. by left.
Qed.

Lemma open_effect w g g' r :
  guards_ok g -> (forall id r, resolve w id = Ok r -> keys_of id r) ->
  open_guard_channel peer_of is_closed w g = (g', r) ->
  guards_ok g' /\ kept g g' /\ blameless g g' /\
  forall ch relay, r = Ok (Some (ch, relay)) ->
    exists o, Guards.open g' = Some o /\ OpenGuard.channel o = ch /\ OpenGuard.relay o = Some relay /\
              keys_of (OpenGuard.identity o) relay.
Proof.
  intros G K. unfold open_guard_channel, open_channel.
  assert (Same : guards_ok g /\ kept g g /\ blameless g g) by (split_and!; [done|apply kept_refl|apply blameless_refl]).
  destruct Same as (S1 & S2 & S3).
  destruct (Guards.open g) as [o|] eqn:O; cbn [mbind option_bind]; [|intros [= <- <-]; by split_and!].
  destruct (is_closed _); [intros [= <- <-]; by split_and!|].
  destruct (OpenGuard.relay o) as [rel|] eqn:R.
  { intros [= <- <-]. split_and!; [done..|]. intros ch relay [= <- <-]. exists o. split_and!; try done.
    by apply (proj2 (proj2 G)). }
  destruct (resolve w (OpenGuard.identity o)) as [rel|] eqn:Rs; [|intros [= <- <-]; by split_and!].
  intros [= <- <-]. unfold fill_relay. rewrite O, (proj2 (bytes_eqb_iff _ _) eq_refl).
  set (g1 := g{{Guards.open := _}}).
  assert (E1 : Guards.entries g1 = Guards.entries g /\ Guards.open g1 = Some (o{{OpenGuard.relay := Some rel}})) by done.
  clearbody g1. destruct E1 as [E1 O1]. destruct (record_contact_effect (OpenGuard.identity o) g1) as (E2 & O2 & B2).
  split_and!.
  - apply (guards_ok_from g); [done|by rewrite E2, E1|]. intros o' r' Ho Hr. rewrite O2, O1 in Ho. injection Ho as <-.
    cbn in *. injection Hr as <-. by apply K.
  - exists []. by rewrite E2, E1, app_nil_r.
  - unfold blameless, blames_only in *. by rewrite <- E1.
  - intros ch relay [= <- <-]. rewrite O2, O1. eexists. split_and!; try done. by apply K.
Qed.

(** A reason to blame a guard: in one of the first [n] attempts it could not
    be resolved, or it refused a connection while something else was
    reachable. *)
Definition at_fault (ws : nat -> World) (n : nat) (guard : bytes) : Prop :=
  exists k, (k < n)%nat /\
    ((exists e, resolve (ws k) guard = Err e) \/
     (exists relay e, resolve (ws k) guard = Ok relay /\ connect (ws k) relay = Err e /\ reachable (ws k) = true)).

Lemma at_fault_S ws n guard : at_fault ws n guard -> at_fault ws (S n) guard.
Proof. intros (k & L & F). exists k. split; [lia|done]. Qed.

Lemma guard_channel_loop_spec ws c n : forall g last ds g' out,
  guards_ok g -> (forall i id r, resolve (ws i) id = Ok r -> keys_of id r) ->
  guard_channel_loop peer_of is_closed n ws c g last ds = (g', out) ->
  guards_ok g' /\ kept g g' /\ blames_only (at_fault ws n) g g' /\
  ((forall i, reachable (ws i) = false /\ forall id, is_ok (resolve (ws i) id) = true) -> blameless g g') /\
  match out with
  | Rand.Done (Ok (ch, relay)) _ =>
      exists o, Guards.open g' = Some o /\ OpenGuard.channel o = ch /\ OpenGuard.relay o = Some relay /\
                keys_of (OpenGuard.identity o) relay
  | _ => True
  end.
Proof.
  induction n as [|n IH]; intros g last ds g' out G K E; cbn [guard_channel_loop] in E.
  { injection E as <- <-. split_and!; [done|apply kept_refl|apply blameless_blames, blameless_refl|intros _; apply blameless_refl|done]. }
  destruct (open_guard_channel _ _ (ws n) g) as [g1 open] eqn:Og.
  destruct (open_effect _ _ _ _ G (K n) Og) as (G1 & K1 & B1 & F1).
  destruct (match open with Ok (Some _) => true | _ => false end) eqn:Opened.
  { destruct open as [[[ch relay]|]|]; try done. injection E as <- <-. split_and!; try done; [by apply blameless_blames|by apply F1]. }
  assert (E' : match ensure_guard (moment (ws n)) c g1 ds with
          | Rand.Done (Err e) ds => (g1, Rand.Done (Err e) ds)
          | Rand.Waiting => (g1, Rand.Waiting)
          | Rand.Panicked => (g1, Rand.Panicked)
          | Rand.Done (Ok (guard, g)) ds =>
              match resolve (ws n) guard with
              | Err e => guard_channel_loop peer_of is_closed n ws c (fst (mark_failed (moment (ws n)) guard g)) (Some e) ds
              | Ok relay =>
                  match connect (ws n) relay with
                  | Ok channel =>
                      let '(g, found, _) := store_guard_channel peer_of is_closed guard channel relay g in
                      (g, Rand.Done (Ok found) ds)
                  | Err e =>
                      if negb (reachable (ws n))
                      then (g, Rand.Done (Err (IoError NotConnected (Message "the network is unreachable ({e})"))) ds)
                      else guard_channel_loop peer_of is_closed n ws c (fst (mark_failed (moment (ws n)) guard g)) (Some e) ds
                  end
              end
          end = (g', out)) by (by destruct open as [[?|]|]).
  clear E. rename E' into E.
  assert (Stop : guards_ok g1 /\ kept g g1 /\ blames_only (at_fault ws (S n)) g g1 /\
    ((forall i, reachable (ws i) = false /\ forall id, is_ok (resolve (ws i) id) = true) -> blameless g g1)) by (split_and!; try done; by apply blameless_blames).
  destruct (ensure_guard _ c g1 ds) as [[[guard g2]|e] ds2| |] eqn:En; [|injection E as <- <-; destruct Stop as (? & ? & ? & ?); by split_and!..].
  destruct (ensure_effect _ _ _ _ _ _ _ G1 En) as (G2 & K2 & B2 & O2).
  assert (Again : forall e, guard_channel_loop peer_of is_closed n ws c (fst (mark_failed (moment (ws n)) guard g2)) e ds2 = (g', out) ->
    ((forall i, reachable (ws i) = false /\ forall id, is_ok (resolve (ws i) id) = true) -> False) ->
    at_fault ws (S n) guard ->
    guards_ok g' /\ kept g g' /\ blames_only (at_fault ws (S n)) g g' /\
    ((forall i, reachable (ws i) = false /\ forall id, is_ok (resolve (ws i) id) = true) -> blameless g g') /\
    match out with
    | Rand.Done (Ok (ch, relay)) _ =>
        exists o, Guards.open g' = Some o /\ OpenGuard.channel o = ch /\ OpenGuard.relay o = Some relay /\
                  keys_of (OpenGuard.identity o) relay
    | _ => True
    end).
  { intros e L Bad At. pose proof (mark_failed_blames (moment (ws n)) guard g2) as Bm. destruct (mark_failed_effect (moment (ws n)) guard g2) as (E3 & O3 & _).
    set (g3 := (mark_failed (moment (ws n)) guard g2).1) in *. clearbody g3.
    assert (G3 : guards_ok g3).
    { apply (guards_ok_from g2); [done|done|]. intros o r Ho Hr. destruct O3 as [O3|O3]; rewrite O3 in Ho; [|done].
      by apply (proj2 (proj2 G2)). }
    destruct (IH _ _ _ _ _ G3 K L) as (G4 & K4 & M4 & _ & F4). split_and!; [done| | |tauto|done].
    - eapply kept_trans; [exact K1|]. eapply kept_trans; [exact K2|]. destruct K4 as [more K4]. exists more. by rewrite K4, E3.
    - apply (blames_only_trans _ _ g1); [by apply blameless_blames|].
      apply (blames_only_trans _ _ g2); [by apply blameless_blames|].
      apply (blames_only_trans _ _ g3); [|by eapply blames_only_weaken; [apply at_fault_S|]].
      eapply blames_only_weaken; [|exact Bm]. by intros ? ->. }
  destruct (resolve (ws n) guard) as [relay|e] eqn:Rs.
  2: { apply (Again (Some e) E); [intros H; destruct (H n) as [_ Hr]; specialize (Hr guard); by rewrite Rs in Hr|].
       exists n. split; [lia|]. left. by exists e. }
  destruct (connect (ws n) relay) as [ch|e] eqn:Cn.
  - pose proof (store_effect guard ch relay g2 G2 (K _ _ _ Rs)) as St.
    destruct (store_guard_channel peer_of is_closed guard ch relay g2) as [[g3 found] cl]. injection E as <- <-.
    destruct St as (G3 & E3 & B3 & o & Ho). split_and!; [done| | | |by destruct found; exists o].
    + eapply kept_trans; [exact K1|]. eapply kept_trans; [exact K2|]. exists []. by rewrite E3, app_nil_r.
    + apply blameless_blames. eapply blameless_trans; [exact B1|]. by eapply blameless_trans.
    + intros _. eapply blameless_trans; [exact B1|]. by eapply blameless_trans.
  - destruct (reachable (ws n)) eqn:Re; cbn [negb] in E.
    + apply (Again (Some e) E); [intros H; destruct (H n) as [Hr _]; by rewrite Re in Hr|].
      exists n. split; [lia|]. right. by exists relay, e.
    + injection E as <- <-. split_and!; [done|by eapply kept_trans| |intros _; by eapply blameless_trans|done].
      apply blameless_blames. by eapply blameless_trans.
Qed.
End channel_facts.

(** C17. [guard_channel], run by one thread at a time: no other thread comes
    between its locks.  Whatever fails: guards stay distinct, at most three,
    and none is dropped or moved.  A guard is newly marked as failed only when
    in one of the five attempts it could not be resolved -- whether or not the
    network is up: that branch does not ask -- or it refused a connection while
    something else was reachable.  So with nothing reachable and every guard
    resolvable, from the cache, none is blamed.  A channel is given only
    together with the keys of the guard it goes to, both as they are then
    recorded. *)
Theorem guard_channel_spec peer_of is_closed keys_of ws c g ds g' out :
  guards_ok keys_of g -> (forall i id r, resolve (ws i) id = Ok r -> keys_of id r) ->
  guard_channel peer_of is_closed ws c g ds = (g', out) ->
  guards_ok keys_of g' /\ kept g g' /\ blames_only (at_fault ws GUARD_ATTEMPTS) g g' /\
  ((forall i, reachable (ws i) = false /\ forall id, is_ok (resolve (ws i) id) = true) -> blameless g g') /\
  match out with
  | Rand.Done (Ok (ch, relay)) _ =>
      exists o, Guards.open g' = Some o /\ OpenGuard.channel o = ch /\ OpenGuard.relay o = Some relay /\
                keys_of (OpenGuard.identity o) relay
  | _ => True
  end.
Proof. intros G K E. by eapply guard_channel_loop_spec. Qed.

(** ** Runs *)
Module GuardsDemo.

Definition id (n : Z) : bytes := replicate 20 n.
Definition contact (n : Z) : GuardContact := MkContact [192; 0; 2; n] 9001 (replicate 32 n).
Definition entry (n : Z) (demoted : option Z) (failed : option Z) : GuardEntry.t :=
  GuardEntry.Mk (id n) [] demoted (Some (contact n)) failed.
Definition contact_of (n : nat) : GuardContact := contact (Z.of_nat n).
Definition relay_of (i : bytes) : RelayInfo := MkRelay [192; 0; 2; hd 0 i] 9001 i None (zeros 32).
Definition router (n : Z) : RouterStatus.t :=
  RouterStatus.Mk (id n) (replicate 32 n) [192; n; 2; 1] 9001 GUARD_FLAGS 100.
Definition consensus : Consensus.t := Consensus.Mk 0 0 0 (map router [1; 2; 3; 4]) Params.default None None.
Definition at_ (s : Z) : Moment := MkMoment (secs s) (1788352000 + s).

Lemma entry_is_ok n d : is_u8 n -> match d with Some a => 0 <= a <= U64_MAX | None => True end -> entry_ok (entry n d None).
Proof.
  intros Hn Hd. assert (R : forall k, bytes_ok (replicate k n)).
  { intros k. apply Forall_replicate. exact Hn. }
  unfold entry_ok, entry, contact. cbn [GuardEntry.identity GuardEntry.contact GuardEntry.demoted_unix addr_ip addr_port ed_identity].
  split_and!; [apply R|done| |apply R|done|done]. split_and!; [|done|unfold U16_MAX; lia..].
  rewrite !bytes_ok_cons. unfold is_u8 in *. split_and!; try lia. exact bytes_ok_nil.
Qed.

Definition saved_guards : list GuardEntry.t := [entry 1 (Some 1788352000) None; entry 2 None None].

Lemma guard_file_witness :
  load_guards (serialize_guards saved_guards) [] = saved_guards /\
  (0 < len (serialize_guards saved_guards)).
Proof.
  split; [|by vm_compute]. apply (guard_file_roundtrip saved_guards []).
  - constructor; [|constructor; [|constructor]]; apply entry_is_ok; unfold is_u8, U64_MAX; done || lia.
  - by apply (bool_decide_unpack _); vm_compute.
  - done.
Defined.

(** A guard with two fresh strikes is given up on at the third. *)
Definition struck : Guards.t :=
  Guards.Mk [GuardEntry.Mk (id 1) [secs 100; secs 200] None (Some (contact 1)) None] (Some (OpenGuard.Mk (id 1) None 7)).
Definition blame : list (bytes * Verdict) := [(id 1, TooSlow 20); (id 1, Unresponsive)].

Definition last_demotion (g : Guards.t) : option Z :=
  match rev (Guards.entries g) with e :: _ => GuardEntry.demoted_unix e | [] => None end.

Lemma demotion_witness :
  let '(g', n', clear) := note_bad_circuits (fun _ => at_ 300) blame struck 0 in
  clear = true /\ n' = 1%nat /\ next_candidate (at_ 2000) g' <> Some (id 1).
Proof.
  destruct (note_bad_circuits (fun _ => at_ 300) blame struck 0) as [[g' n'] clear] eqn:E.
  assert (N : NoDup (ids_of (Guards.entries struck))) by (by apply (bool_decide_unpack _); vm_compute).
  destruct (demotion_spec _ _ _ _ _ _ _ N E) as (_ & _ & H).
  assert (C : clear = true) by (assert (X : clear = (note_bad_circuits (fun _ => at_ 300) blame struck 0).2) by (by rewrite E);
    rewrite X; by vm_compute).
  rewrite C in H. destruct H as (Hn & _ & b & e & rest & j & Hb & _ & _ & Eg & Ei & _ & _ & _ & since & Hd & Hc).
  split_and!; [exact C|exact Hn|]. cbn in Hb. apply list_elem_of_singleton in Hb as ->.
  assert (Ie : GuardEntry.identity e = id 1) by exact Ei. rewrite <- Ie. apply Hc.
  assert (X : g' = (note_bad_circuits (fun _ => at_ 300) blame struck 0).1.1) by (by rewrite E).
  assert (Y : last_demotion g' = Some 1788352300) by (rewrite X; by vm_compute).
  unfold last_demotion in Y. rewrite Eg, rev_app_distr in Y. cbn in Y. rewrite Hd in Y. injection Y as ->. unfold at_, GUARD_STRIKE_WINDOW. cbn [now_unix]. lia.
Defined.

(** The first attempt fails, the second finds the next guard. *)
Definition world (n : nat) : World :=
  MkWorld (at_ (100 - Z.of_nat n)) (fun i => Ok (relay_of i))
    (fun r => if bytes_eqb (rsa_identity r) (id 1) then Err (other_error "refused") else Ok 9%nat) true.
Definition two : Guards.t := Guards.Mk [entry 1 None None; entry 2 None None] None.

Lemma guard_channel_witness :
  let '(g', out) := guard_channel contact_of (fun _ => false) world consensus two [] in
  out = Rand.Done (Ok (9%nat, relay_of (id 2))) [] /\ exists o, Guards.open g' = Some o /\ OpenGuard.channel o = 9%nat.
Proof.
  destruct (guard_channel contact_of (fun _ => false) world consensus two []) as [g' out] eqn:E.
  assert (G : guards_ok (fun i r => r = relay_of i) two).
  { split_and!; [by apply (bool_decide_unpack _); vm_compute|by vm_compute; lia|done]. }
  destruct (guard_channel_spec _ _ (fun i r => r = relay_of i) world _ _ _ _ _ G ltac:(by intros ? ? ? [= <-]) E)
    as (_ & _ & _ & _ & F).
  assert (Eo : out = Rand.Done (Ok (9%nat, relay_of (id 2))) []).
  { assert (X : out = (guard_channel contact_of (fun _ => false) world consensus two []).2) by (by rewrite E).
    rewrite X. by vm_compute. }
  rewrite Eo in F. destruct F as (o & Ho & Hc & _). split; [exact Eo|]. by exists o.
Defined.

(** Two threads that both find every guard cooling off each choose one, and
    each adds its own: four guards, where three is the limit. *)
Definition cooling : Guards.t := Guards.Mk [entry 1 None (Some (secs 99)); entry 2 None (Some (secs 99))] None.
Definition picked (draw : Z) : bytes :=
  match pick_guard (at_ 100) consensus cooling [Ok draw] with Rand.Done (Ok (i, _)) _ => i | _ => [] end.
Example racing_threads_exceed_the_limit :
  length (Guards.entries (add_guard (picked 150) (add_guard (picked 50) cooling))) = 4%nat.
Proof. by vm_compute. Qed.

(** With the network gone and the guards' microdescriptors not in the cache,
    looking a guard up fails like everything else; yet the guards are marked
    as failed, one after the other, and a third one is added and marked too. *)
Definition cut_off (n : nat) : World :=
  MkWorld (at_ (100 - Z.of_nat n)) (fun _ => Err (other_error "no directory can be reached"))
    (fun _ => Err (other_error "unreachable")) false.
Example a_guard_is_blamed_without_network :
  let '(g', out) := guard_channel contact_of (fun _ => false) cut_off consensus two [Ok 150] in
  map GuardEntry.failed_at (Guards.entries two) = [None; None] /\
  map GuardEntry.failed_at (Guards.entries g') = [Some (secs 99); Some (secs 100); Some (secs 98)] /\
  out = Rand.Done (Err (other_error "no directory can be reached")) [].
Proof. by vm_compute. Qed.

(** [mark_failed] never closes the channel: [stop_using] has forgotten it. *)
Lemma mark_failed_never_closes m i g : snd (mark_failed m i g) = None.
Proof. apply mark_failed_effect. Qed.

(** After a demotion the list is empty of candidates, a second guard is added
    behind the demoted one, and a restart goes back to the demoted guard. *)
Definition after_demotion : Guards.t := fst (fst (note_bad_circuits (fun _ => at_ 300) blame struck 0)).
Definition with_second : Guards.t :=
  match ensure_guard (at_ 301) consensus after_demotion [Ok 150] with
  | Rand.Done (Ok (_, g)) _ => g | _ => after_demotion end.
Example restart_returns_to_the_demoted_guard :
  let es := load_guards (serialize_guards (Guards.entries with_second)) [] in
  bootstrap_open (fun _ => Ok 1%nat) es = Some (OpenGuard.Mk (id 1) None 1) /\
  length es = 2%nat /\ option_map (is_demoted (at_ 400)) (hd_error es) = Some true.
Proof. by vm_compute. Qed.

(** With three guards, two of them cooling off and the third demoted before
    the restart, the demoted one is chosen. *)
Example a_demoted_guard_is_retried :
  let g := Guards.Mk [entry 2 None (Some (secs 99)); entry 3 None (Some (secs 98)); entry 1 (Some (1788352000)) None] None in
  next_candidate (at_ 100) g = None /\
  match ensure_guard (at_ 100) consensus g [] with
  | Rand.Done (Ok (i, _)) _ => i = id 1
  | _ => False
  end.
Proof. split; by vm_compute. Qed.
End GuardsDemo.
