(* ===== verification/Descriptor.v ===== *)
(** * Onion service descriptors ([src/src/tor/hs/descriptor.rs])

    The signed outer document, the two encryption layers, and the list of
    introduction points inside.  The theorems say which layers are accepted
    (exactly the sealed ones), which descriptors are (exactly those whose
    chain of certificates leads to the blinded key), and that link specifiers
    are read back as they were written. *)
From S2P Require Import Prelude.
From S2P Require Import Text.
From S2P Require Import Crypto.
From S2P Require Import Util.
From S2P Require Import Netdoc.
From S2P Require Import Certs.
From S2P Require Import Handshake.
From S2P Require Import Onion.

Definition SIGNATURE_PREFIX : bytes := B "Tor onion service descriptor sig v3".
Definition SALT_LEN : Z := 16.
Definition MAC_LEN : Z := 32.
Definition SECRET_KEY_LEN : Z := 32.
Definition SECRET_IV_LEN : Z := 16.
Definition MAC_KEY_LEN : Z := 32.
Definition MAX_INTRO_POINTS : nat := 20.

Module IntroPoint.
Record t := Mk { relay : RelayInfo; auth_key : bytes; enc_key : bytes }.
End IntroPoint.

Module FlowControl.
Record t := Mk { max_version : Z; sendme_inc : Z }.

(** [Iterator::max]: [None] of nothing. *)
Definition max_of (vs : list Z) : option Z :=
  match vs with [] => None | v :: vs => Some (fold_left Z.max vs v) end.

Definition parse (args : bytes) : option t :=
  match split_whitespace args with
  | range :: field :: _ =>
      sendme_inc ← parse_uint U8_MAX field;
      max_version ← max_of (omap (parse_uint U8_MAX) (split 45 range));
      Some (Mk max_version sendme_inc)
  | _ => None
  end.
End FlowControl.

Module Descriptor.
Record t := Mk {
  lifetime_minutes : Z;
  revision_counter : Z;
  intro_points : list IntroPoint.t;
  flow_control : option FlowControl.t;
}.
End Descriptor.

Section descriptor.
Context `{Crypto}.

Definition certified_key (cert : Ed25519Cert.t) (cert_type : Z) (expected_signer : bytes) (now : Z)
    : result bytes :=
  if negb (Ed25519Cert.cert_type cert =? cert_type)
  then Err (invalid_data "expected certificate type {cert_type:#04x}, found {:#04x}")
  else
    signer ← ok_or (Ed25519Cert.signing_key cert)
               (invalid_data "certificate has no signed-with-ed25519-key extension");
    if negb (bytes_eqb signer expected_signer)
    then Err (invalid_data "certificate is signed by an unexpected key")
    else if negb (Ed25519Cert.check_signature cert signer)
    then Err (invalid_data "certificate signature does not verify")
    else if Ed25519Cert.is_expired cert now
    then Err (invalid_data "certificate expired at unix time {}, local clock says {now}")
    else Ok (Ed25519Cert.certified_key cert).

Definition check_signature (text signing_key : bytes) : result unit :=
  signed_len ← ok_or (line_start_of text (B "signature "))
                 (invalid_data "descriptor has no signature line");
  args ← ok_or (item text (B "signature")) (invalid_data "descriptor has no signature line");
  signature ← base64_decode (trim args);
  let message := SIGNATURE_PREFIX ++ slice_to text signed_len in
  if negb (ed25519_verify signing_key message signature)
  then Err (invalid_data "descriptor signature does not verify")
  else Ok tt.

(** The loop that pops NUL bytes off the end. *)
Fixpoint skip_nuls (l : bytes) : bytes :=
  match l with
  | b :: l' => if b =? 0 then skip_nuls l' else l
  | [] => []
  end.
Definition strip_nuls (plaintext : bytes) : bytes := rev (skip_nuls (rev plaintext)).

(** The keys of a layer: cipher key, initial counter, MAC key. *)
Definition layer_keys (secret_data subcredential : bytes) (revision_counter : Z)
    (salt string_constant : bytes) : bytes * bytes * bytes :=
  let secret_input := secret_data ++ subcredential ++ int8 revision_counter in
  let kdf_input := secret_input ++ salt ++ string_constant in
  let keys := shake256 kdf_input (SECRET_KEY_LEN + SECRET_IV_LEN + MAC_KEY_LEN) in
  (slice_to keys SECRET_KEY_LEN, slice keys SECRET_KEY_LEN (SECRET_KEY_LEN + SECRET_IV_LEN),
   slice_from keys (SECRET_KEY_LEN + SECRET_IV_LEN)).

Definition layer_mac (mac_key salt ciphertext : bytes) : bytes :=
  sha3_256 (int8 (len mac_key) ++ mac_key ++ int8 (len salt) ++ salt ++ ciphertext).

Definition decrypt_layer (blob secret_data subcredential : bytes) (revision_counter : Z)
    (string_constant : bytes) : result bytes :=
  if len blob <=? SALT_LEN + MAC_LEN
  then Err (invalid_data "encrypted descriptor layer is too short")
  else
    let salt := slice_to blob SALT_LEN in
    let ciphertext := slice blob SALT_LEN (len blob - MAC_LEN) in
    let mac := slice_from blob (len blob - MAC_LEN) in
    let '(secret_key, secret_iv, mac_key) :=
      layer_keys secret_data subcredential revision_counter salt string_constant in
    if negb (constant_time_eq (layer_mac mac_key salt ciphertext) mac)
    then Err (invalid_data "descriptor layer MAC does not match: wrong key or a tampered document")
    else
      let plaintext :=
        strip_nuls (snd (Ctr.apply (Ctr.with_counter Aes256 secret_key secret_iv) ciphertext)) in
      if utf8_valid plaintext then Ok plaintext
      else Err (invalid_data "decrypted descriptor is not UTF-8").

(** How a service seals a layer; the tests of the file have it. *)
Definition encrypt_layer (plaintext secret_data subcredential : bytes) (revision_counter : Z)
    (string_constant salt : bytes) : bytes :=
  let '(key, iv, mac_key) :=
    layer_keys secret_data subcredential revision_counter salt string_constant in
  let ciphertext := snd (Ctr.apply (Ctr.with_counter Aes256 key iv) plaintext) in
  salt ++ ciphertext ++ layer_mac mac_key salt ciphertext.

(** ** Introduction points *)

Definition INTRODUCTION_POINT : bytes := B "introduction-point ".

(** The offsets of the [introduction-point] lines, from [offset] on; each
    round moves past a line, so the length of the text is fuel enough. *)
Fixpoint intro_starts (fuel : nat) (text : bytes) (offset : Z) : list Z :=
  match fuel with
  | O => []
  | S fuel =>
      match line_start_of (slice_from text offset) INTRODUCTION_POINT with
      | None => []
      | Some relative =>
          let absolute := offset + relative in
          absolute ::
            match find (slice_from text absolute) [NL] with
            | Some newline =>
                let offset := absolute + newline + 1 in
                if len text <=? offset then [] else intro_starts fuel text offset
            | None => []
            end
      end
  end.

Fixpoint intro_blocks (text : bytes) (starts : list Z) : list bytes :=
  match starts with
  | [] => []
  | start :: starts =>
      slice text start (match starts with stop :: _ => stop | [] => len text end)
      :: intro_blocks text starts
  end.

Definition split_intro_points (text : bytes) : list bytes :=
  intro_blocks text (intro_starts (S (length text)) text 0).

(** One line of [keyed_value]. *)
Definition keyed_line (keyword kind line : bytes) : option bytes :=
  args ← item_args line keyword;
  '(found, value) ← split_once SP args;
  if negb (bytes_eqb found kind) then None
  else to_option (base64_fixed 32 (trim value)).

(** [find_map]. *)
Fixpoint find_map {A C} (f : A -> option C) (l : list A) : option C :=
  match l with
  | [] => None
  | a :: l => match f a with Some c => Some c | None => find_map f l end
  end.

Definition keyed_value (block keyword kind : bytes) : option bytes :=
  find_map (keyed_line keyword kind) (lines block).

(** What link specifiers may give: an address, and the two identities. *)
Record Specifiers := MkSpecifiers {
  sp_addr : option (bytes * Z);
  sp_rsa : option bytes;
  sp_ed : option bytes;
}.

Definition take_specifier (kind : Z) (body : bytes) (s : Specifiers) : Specifiers :=
  if (kind =? 0) && (len body =? 6) then
    s{{sp_addr := Some (slice body 0 4, from_be (slice body 4 6))}}
  else if (kind =? 2) && (len body =? 20) then s{{sp_rsa := Some body}}
  else if (kind =? 3) && (len body =? 32) then s{{sp_ed := Some body}}
  else s.

Fixpoint specifier_loop (count : nat) (data : bytes) (pos : Z) (s : Specifiers) : result Specifiers :=
  match count with
  | O => Ok s
  | S count =>
      if len data <? pos + 2 then Err (invalid_data "truncated link specifier header")
      else
        let kind := byte_at data pos in
        let start := pos + 2 in
        let stop := start + byte_at data (pos + 1) in
        if len data <? stop then Err (invalid_data "link specifier runs past the end")
        else specifier_loop count data stop (take_specifier kind (slice data start stop) s)
  end.

Definition parse_link_specifiers (data : bytes) : result Specifiers :=
  match data with
  | [] => Err (invalid_data "empty link specifier list")
  | count :: _ => specifier_loop (Z.to_nat count) data 1 (MkSpecifiers None None None)
  end.

(** [map_err(|e| invalid_data(..))]. *)
Definition map_err {A} (r : result A) (e : io_error) : result A :=
  match r with Ok a => Ok a | Err _ => Err e end.

Definition parse_intro_point (block signing_key : bytes) (now : Z) : result IntroPoint.t :=
  specs ← ok_or (item block (B "introduction-point"))
            (invalid_data "introduction point has no link specifiers");
  raw ← base64_decode (trim specs);
  relay_addr ← parse_link_specifiers raw;
  ntor_onion_key ← ok_or (keyed_value block (B "onion-key") (B "ntor"))
                     (invalid_data "introduction point has no ntor onion-key");
  auth_data ← item_object block (B "auth-key") (B "ED25519 CERT");
  auth_cert ← Ed25519Cert.parse auth_data;
  auth_key ← map_err (certified_key auth_cert CERT_TYPE_HS_INTRO_AUTH signing_key now)
               (invalid_data "auth-key: {e}");
  enc_key ← ok_or (keyed_value block (B "enc-key") (B "ntor"))
              (invalid_data "introduction point has no ntor enc-key");
  enc_data ← item_object block (B "enc-key-cert") (B "ED25519 CERT");
  enc_cert ← Ed25519Cert.parse enc_data;
  _ ← map_err (certified_key enc_cert CERT_TYPE_HS_INTRO_ENC signing_key now)
        (invalid_data "enc-key-cert: {e}");
  addr ← ok_or (sp_addr relay_addr) (invalid_data "introduction point has no IPv4 address");
  rsa_identity ← ok_or (sp_rsa relay_addr) (invalid_data "introduction point has no legacy identity");
  Ok (IntroPoint.Mk (MkRelay (fst addr) (snd addr) rsa_identity (sp_ed relay_addr) ntor_onion_key)
        auth_key enc_key).

(** The loop over the blocks: it stops at twenty usable ones. *)
Fixpoint collect_points (blocks : list bytes) (signing_key : bytes) (now : Z)
    (points : list IntroPoint.t) : list IntroPoint.t :=
  match blocks with
  | [] => points
  | block :: blocks =>
      let points := match parse_intro_point block signing_key now with
                    | Ok point => points ++ [point]
                    | Err _ => points
                    end in
      if (length points =? MAX_INTRO_POINTS)%nat then points
      else collect_points blocks signing_key now points
  end.

Definition parse_inner (text signing_key : bytes) (now : Z) : result (list IntroPoint.t) :=
  formats ← ok_or (item text (B "create2-formats"))
              (invalid_data "descriptor has no create2-formats");
  if negb (existsb (fun f => bytes_eqb f (B "2")) (split_whitespace formats))
  then Err (invalid_data "service does not offer the ntor handshake (create2-formats has no 2)")
  else
    match item text (B "intro-auth-required") with
    | Some _ =>
        Err (IoError PermissionDenied
               (Message "service requires client authorization ({types}), which is not supported"))
    | None =>
        let intro_points := collect_points (split_intro_points text) signing_key now [] in
        match intro_points with
        | [] => Err (invalid_data "descriptor lists no usable introduction points")
        | _ => Ok intro_points
        end
    end.

Definition SUPERENCRYPTED : bytes := B "hsdir-superencrypted-data".
Definition ENCRYPTED : bytes := B "hsdir-encrypted-data".

Definition parse (text blinded_key subcredential : bytes) (now : Z) : result Descriptor.t :=
  version ← ok_or (item text (B "hs-descriptor")) (invalid_data "not an onion service descriptor");
  if negb (bytes_eqb (trim version) (B "3"))
  then Err (invalid_data "unsupported descriptor version {version:?}")
  else
    lifetime_minutes ← ok_or (v ← item text (B "descriptor-lifetime"); parse_uint U64_MAX (trim v))
      (invalid_data "descriptor has no usable descriptor-lifetime");
    revision_counter ← ok_or (v ← item text (B "revision-counter"); parse_uint U64_MAX (trim v))
      (invalid_data "descriptor has no usable revision-counter");
    cert_data ← item_object text (B "descriptor-signing-key-cert") (B "ED25519 CERT");
    cert ← Ed25519Cert.parse cert_data;
    signing_key ← map_err (certified_key cert CERT_TYPE_HS_DESC_SIGN blinded_key now)
      (invalid_data "descriptor-signing-key-cert: {e}");
    _ ← check_signature text signing_key;
    superencrypted ← item_object text (B "superencrypted") (B "MESSAGE");
    middle ← decrypt_layer superencrypted blinded_key subcredential revision_counter SUPERENCRYPTED;
    encrypted ← item_object middle (B "encrypted") (B "MESSAGE");
    inner ← decrypt_layer encrypted blinded_key subcredential revision_counter ENCRYPTED;
    intro_points ← parse_inner inner signing_key now;
    let flow_control := args ← item inner (B "flow-control"); FlowControl.parse args in
    Ok (Descriptor.Mk lifetime_minutes revision_counter intro_points flow_control).
End descriptor.

(** ** The layers *)
Section layers.
Context `{CryptoLaws}.

(** A plaintext without a final NUL survives padding with them. *)
Lemma skip_nuls_replicate n l : skip_nuls (replicate n 0 ++ l) = skip_nuls l.
Proof. induction n as [|n IH]; [done|]. cbn. apply IH. Qed.

Lemma skip_nuls_head l : head (skip_nuls l) <> Some 0.
Proof.
  induction l as [|b l IH]; [done|]. cbn [skip_nuls]. destruct (Z.eqb_spec b 0); [done|].
  cbn. by intros [= ->].
Qed.

Lemma skip_nuls_id l : head l <> Some 0 -> skip_nuls l = l.
Proof. destruct l as [|b l]; [done|]. cbn. destruct (Z.eqb_spec b 0) as [->|]; [by intros []|done]. Qed.

Lemma skip_nuls_split l : exists n, l = replicate n 0 ++ skip_nuls l.
Proof.
  induction l as [|b l [n IH]]; [by exists 0%nat|]. cbn [skip_nuls].
  destruct (Z.eqb_spec b 0) as [->|]; [exists (S n); by rewrite IH at 1|by exists 0%nat].
Qed.

Lemma head_rev (l : bytes) : head (rev l) = last l.
Proof.
  destruct l as [|x l _] using rev_ind; [done|].
  by rewrite rev_app_distr, last_snoc.
Qed.

Lemma strip_nuls_spec padded p :
  strip_nuls padded = p <-> last p <> Some 0 /\ exists n, padded = p ++ replicate n 0.
Proof.
  unfold strip_nuls. split.
  - intros <-. rewrite <- head_rev, rev_involutive. split; [apply skip_nuls_head|].
    destruct (skip_nuls_split (rev padded)) as [n E]. exists n.
    rewrite <- (rev_involutive padded) at 1. rewrite E at 1. rewrite rev_app_distr. f_equal.
    clear. induction n as [|n IH]; [done|]. cbn. rewrite IH. symmetry. apply replicate_cons_app.
  - intros [L [n ->]]. rewrite rev_app_distr.
    assert (R : rev (replicate n 0) = replicate n 0).
    { clear. induction n as [|n IH]; [done|]. cbn. rewrite IH. symmetry. apply replicate_cons_app. }
    rewrite R, skip_nuls_replicate, skip_nuls_id by (by rewrite head_rev). apply rev_involutive.
Qed.

Lemma len_layer_mac k s c : len (layer_mac k s c) = 32.
Proof. unfold layer_mac, sha3_256. by rewrite hash_len. Qed.

(** What is taken as a layer is what a service seals, padding included. *)
Lemma decrypt_layer_iff blob secret_data subcredential rev string_constant p :
  decrypt_layer blob secret_data subcredential rev string_constant = Ok p <->
  exists salt n,
    len salt = 16 /\ (0 < length p + n)%nat /\ last p <> Some 0 /\ utf8_valid p = true /\
    blob = encrypt_layer (p ++ replicate n 0) secret_data subcredential rev string_constant salt.
Proof.
  unfold decrypt_layer, encrypt_layer, SALT_LEN, MAC_LEN. split.
  - destruct (Z.leb_spec (len blob) (16 + 32)) as [|Hl]; [done|].
    set (salt := slice_to blob 16). set (ct := slice blob 16 (len blob - 32)).
    destruct (layer_keys secret_data subcredential rev salt string_constant) as [[key iv] mk] eqn:K.
    destruct (constant_time_eq _ _) eqn:M; [|done]. cbn [negb]. apply constant_time_eq_spec in M.
    destruct (utf8_valid _) eqn:U; [|done]. intros E%(inj Ok). rewrite E in U.
    apply strip_nuls_spec in E as [L [n E]]. exists salt, n.
    assert (Ls : len salt = 16) by (unfold salt, slice_to; rewrite len_take; lia).
    assert (Lc : len ct = len blob - 48) by (unfold ct; rewrite len_slice by lia; lia).
    assert (Es : blob = salt ++ ct ++ slice_from blob (len blob - 32)).
    { unfold salt, ct, slice_to, slice_from, slice. rewrite <- (take_drop (Z.to_nat 16) blob) at 1. f_equal.
      rewrite <- (take_drop (Z.to_nat (len blob - 32 - 16)) (drop (Z.to_nat 16) blob)) at 1. f_equal.
      rewrite drop_drop. f_equal. lia. }
    split_and!; try done.
    + apply (f_equal length) in E. rewrite apply_length, length_app, length_replicate in E.
      unfold len in Lc, Hl. lia.
    + rewrite K, <- E, apply_apply, M. exact Es.
  - intros (salt & n & Ls & Hn & L & U & ->).
    destruct (layer_keys secret_data subcredential rev salt string_constant) as [[key iv] mk] eqn:K.
    set (ct := snd (Ctr.apply _ (p ++ _))).
    assert (Lc : len ct = len p + Z.of_nat n)
      by (unfold ct; rewrite apply_len; unfold len; rewrite length_app, length_replicate; lia).
    pose proof (len_layer_mac mk salt ct) as Lm. set (mac := layer_mac mk salt ct) in *.
    assert (Lb : len (salt ++ ct ++ mac) = 48 + len ct) by solve_len.
    rewrite Lb. destruct (Z.leb_spec (48 + len ct) (16 + 32)); [unfold len in *; lia|].
    rewrite (slice_to_app salt) by lia. rewrite K.
    rewrite (slice_app_at salt ct mac) by lia.
    rewrite (app_assoc salt), (slice_from_app (salt ++ ct)) by solve_len.
    fold mac. rewrite (proj2 (constant_time_eq_spec mac mac)) by done. cbn [negb].
    unfold ct. rewrite apply_apply.
    rewrite (proj2 (strip_nuls_spec (p ++ replicate n 0) p)) by (split; [done|by exists n]).
    by rewrite U.
Qed.
End layers.

(** ** Link specifiers *)
Section specifiers.

Definition spec_ok (e : Z * bytes) : Prop := is_u8 (fst e) /\ len (snd e) < 256.

(** A list of link specifiers on the wire. *)
Definition encode_specifiers (specs : list (Z * bytes)) : bytes :=
  [len specs] ++ concat (map link_specifier specs).

(** The body of the last specifier of a kind that has the length of the kind. *)
Definition last_of (kind n : Z) (specs : list (Z * bytes)) : option bytes :=
  snd <$> last (filter (fun e => fst e = kind /\ len (snd e) = n) specs).

Definition picked (specs : list (Z * bytes)) : Specifiers :=
  MkSpecifiers ((fun b => (slice b 0 4, from_be (slice b 4 6))) <$> last_of 0 6 specs)
    (last_of 2 20 specs) (last_of 3 32 specs).

Lemma last_of_snoc kind n specs e :
  last_of kind n (specs ++ [e]) =
  if (fst e =? kind) && (len (snd e) =? n) then Some (snd e) else last_of kind n specs.
Proof.
  unfold last_of. rewrite filter_app, filter_cons, filter_nil.
  case_decide as D.
  - destruct D as [-> ->]. rewrite !Z.eqb_refl. by rewrite last_snoc.
  - rewrite app_nil_r. destruct (Z.eqb_spec (fst e) kind), (Z.eqb_spec (len (snd e)) n); try done.
    by destruct D.
Qed.

Lemma picked_snoc specs e : picked (specs ++ [e]) = take_specifier (fst e) (snd e) (picked specs).
Proof.
  unfold picked. rewrite !last_of_snoc. unfold take_specifier. destruct e as [k b]. cbn [fst snd].
  destruct (Z.eqb_spec k 0) as [->|]; [by destruct (len b =? 6)|].
  destruct (Z.eqb_spec k 2) as [->|]; [by destruct (len b =? 20)|].
  destruct (Z.eqb_spec k 3) as [->|]; [by destruct (len b =? 32)|]. done.
Qed.

Lemma len_link_specifier e : len (link_specifier e) = 2 + len (snd e).
Proof. unfold link_specifier. solve_len. Qed.

Lemma specifier_loop_encode specs : forall pre done rest,
  Forall spec_ok specs ->
  specifier_loop (length specs) (pre ++ concat (map link_specifier specs) ++ rest) (len pre)
    (picked done) = Ok (picked (done ++ specs)).
Proof.
  induction specs as [|e specs IH]; intros pre dn rest F; [by rewrite app_nil_r|].
  inversion_clear F as [|? ? [Hk Hb] F']. cbn [map concat length specifier_loop].
  pose proof (len_link_specifier e) as Le. pose proof (len_nonneg (snd e)).
  set (tl := concat (map link_specifier specs)) in *. rewrite <- app_assoc.
  set (data := pre ++ link_specifier e ++ tl ++ rest).
  assert (Ld : len data = len pre + 2 + len (snd e) + len (tl ++ rest)).
  { unfold data. rewrite !len_app, Le. lia. }
  pose proof (len_nonneg (tl ++ rest)). pose proof (len_nonneg pre).
  assert (B0 : byte_at data (len pre) = fst e).
  { unfold data. rewrite byte_at_app_r, Z.sub_diag by lia. done. }
  assert (B1 : byte_at data (len pre + 1) = len (snd e)).
  { unfold data. rewrite byte_at_app_r by lia. replace (len pre + 1 - len pre) with 1 by lia.
    change (as_u8 (len (snd e)) = len (snd e)). unfold as_u8. apply Z.mod_small. lia. }
  rewrite B0, B1. destruct (Z.ltb_spec (len data) (len pre + 2)); [lia|].
  destruct (Z.ltb_spec (len data) (len pre + 2 + len (snd e))); [lia|].
  assert (S0 : slice data (len pre + 2) (len pre + 2 + len (snd e)) = snd e).
  { unfold data, link_specifier. rewrite <- app_assoc, (app_assoc pre). apply slice_app_at; solve_len. }
  rewrite S0, <- picked_snoc. specialize (IH (pre ++ link_specifier e) (dn ++ [e]) rest F').
  rewrite <- !app_assoc in IH. fold tl in IH. rewrite len_app, Le in IH.
  etrans; [|exact IH]. unfold data. f_equal. lia.
Qed.

(** Whatever the loop accepts has that form. *)
Lemma specifier_loop_inv count : forall data pos dn s,
  bytes_ok data -> 0 <= pos <= len data ->
  specifier_loop count data pos (picked dn) = Ok s ->
  exists specs rest, slice_from data pos = concat (map link_specifier specs) ++ rest /\
    length specs = count /\ Forall spec_ok specs /\ s = picked (dn ++ specs).
Proof.
  induction count as [|count IH]; intros data pos dn s Hd Hp E; cbn [specifier_loop] in E.
  - injection E as <-. exists [], (slice_from data pos). by rewrite app_nil_r.
  - destruct (Z.ltb_spec (len data) (pos + 2)); [done|].
    pose proof (byte_at_ok data (pos + 1) Hd) as Hn. unfold is_u8 in Hn.
    set (n := byte_at data (pos + 1)) in *. set (k := byte_at data pos) in *.
    destruct (Z.ltb_spec (len data) (pos + 2 + n)); [done|].
    set (b := slice data (pos + 2) (pos + 2 + n)) in *.
    assert (Lb : len b = n) by (unfold b; rewrite len_slice by lia; lia).
    change k with (fst (k, b)) in E. change b with (snd (k, b)) in E at 2.
    rewrite <- picked_snoc in E. apply IH in E as (specs & rest & E & L & F & ->); [|done|lia].
    exists ((k, b) :: specs), rest. split_and!.
    + cbn [map concat]. rewrite <- app_assoc, <- E. unfold link_specifier. cbn [fst snd].
      assert (A : as_u8 (len b) = n) by (rewrite Lb; unfold as_u8; apply Z.mod_small; lia).
      rewrite A. unfold slice_from, b, slice.
      rewrite <- (take_drop (Z.to_nat 2) (drop (Z.to_nat pos) data)) at 1. rewrite <- app_assoc. f_equal.
      * unfold k, n, byte_at. apply list_eq. intros [|[|i]].
        -- cbn. rewrite lookup_take_lt, lookup_drop, Nat.add_0_r by (cbn; lia).
           rewrite nth_lookup. unfold len in *. destruct (lookup_lt_is_Some_2 data (Z.to_nat pos)) as [x ->]; [lia|done].
        -- cbn. rewrite lookup_take_lt, lookup_drop by (cbn; lia).
           rewrite nth_lookup. unfold len in *. replace (Z.to_nat pos + 1)%nat with (Z.to_nat (pos + 1)) by lia.
           destruct (lookup_lt_is_Some_2 data (Z.to_nat (pos + 1))) as [x ->]; [lia|done].
        -- cbn. apply lookup_take_ge. cbn. lia.
      * rewrite drop_drop. replace (Z.to_nat pos + Z.to_nat 2)%nat with (Z.to_nat (pos + 2)) by lia.
        rewrite <- (take_drop (Z.to_nat (pos + 2 + n - (pos + 2))) (drop (Z.to_nat (pos + 2)) data)) at 1.
        f_equal. rewrite drop_drop. f_equal. lia.
    + cbn. by rewrite L.
    + constructor; [|done]. split; cbn [fst snd]; [unfold k; by apply byte_at_ok|lia].
    + by rewrite <- app_assoc.
Qed.

(** A list of link specifiers is accepted exactly when it is the encoding of
    as many specifiers as its first byte says, followed by anything, and what
    comes out is the last specifier of each kind. *)
Lemma parse_link_specifiers_iff data s :
  bytes_ok data ->
  parse_link_specifiers data = Ok s <->
  exists specs rest, data = encode_specifiers specs ++ rest /\ len specs < 256 /\
    Forall spec_ok specs /\ s = picked specs.
Proof.
  intros Hd. unfold parse_link_specifiers, encode_specifiers. split.
  - destruct data as [|count data]; [done|]. pose proof (proj1 (bytes_ok_cons _ _) Hd) as [Hc _].
    unfold is_u8 in Hc. change (MkSpecifiers None None None) with (picked []). intros E.
    pose proof (len_nonneg data).
    apply specifier_loop_inv in E as (specs & rest & E & L & F & ->); [|done|rewrite len_cons; lia].
    assert (Ec : count = len specs) by (unfold len; lia).
    exists specs, rest. split_and!; [|lia|done|done]. cbn [app]. rewrite Ec. f_equal. exact E.
  - intros (specs & rest & -> & L & F & ->). change ([len specs] ++ ?x) with (len specs :: x).
    cbn [app]. replace (Z.to_nat (len specs)) with (length specs) by (unfold len; lia).
    exact (specifier_loop_encode specs [len specs] [] rest F).
Qed.

(** A relay this client can name in EXTEND2. *)
Definition relay_ok (r : RelayInfo) : Prop :=
  len (addr_ip r) = 4 /\ 0 <= addr_port r < 65536 /\ len (rsa_identity r) = 20 /\
  match ed_identity r with Some ed => len ed = 32 | None => True end.

Lemma link_specifiers_read_back r rest :
  relay_ok r ->
  parse_link_specifiers (link_specifiers r ++ rest) =
    Ok (MkSpecifiers (Some (addr_ip r, addr_port r)) (Some (rsa_identity r)) (ed_identity r)).
Proof.
  intros (Li & Hp & Lr & Le). unfold link_specifiers.
  set (specs := [_; _] ++ _).
  assert (Ls : len specs = 2 \/ len specs = 3).
  { unfold specs. destruct (ed_identity r); [by right|by left]. }
  assert (L6 : len (addr_ip r ++ to_be 2 (addr_port r)) = 6) by solve_len.
  assert (A : as_u8 (len specs) = len specs) by (unfold as_u8; apply Z.mod_small; lia).
  rewrite A. unfold parse_link_specifiers. cbn [app].
  replace (Z.to_nat (len specs)) with (length specs) by (unfold len; lia).
  assert (F : Forall spec_ok specs).
  { unfold specs, spec_ok, is_u8. destruct (ed_identity r); repeat constructor; cbn [fst snd]; lia. }
  pose proof (specifier_loop_encode specs [len specs] [] rest F) as E. cbn [app] in E.
  change (picked []) with (MkSpecifiers None None None) in E. change (len [len specs]) with 1 in E.
  rewrite E. f_equal. unfold picked. f_equal; unfold last_of, specs.
  all: destruct (ed_identity r) as [ed|]; cbn [app]; rewrite ?filter_cons, ?filter_nil; cbn [fst snd].
  all: repeat (case_decide as D; try (exfalso; lia); clear D).
  all: cbn [last fmap option_fmap option_map snd]; try done.
  all: do 2 f_equal; [rewrite slice_0_to; apply slice_to_app; lia|].
  all: replace 6 with (len (addr_ip r ++ to_be 2 (addr_port r))) by done.
  all: rewrite <- (app_nil_r (to_be 2 (addr_port r))) at 1.
  all: rewrite (slice_app_at (addr_ip r) (to_be 2 (addr_port r)) []) by solve_len.
  all: apply from_be_to_be_small; change (256 ^ Z.of_nat 2) with 65536; lia.
Qed.
End specifiers.

(** ** Introduction points, cut and collected *)
Section points.

Lemma introduction_point_line : keyword_ok INTRODUCTION_POINT.
Proof. split; [by vm_compute|]. apply (bool_decide_unpack _). by vm_compute. Qed.

Lemma intro_starts_ok ts : forall fuel text o r,
  Forall (block_ok INTRODUCTION_POINT) ts -> remainder INTRODUCTION_POINT r -> 0 <= o ->
  slice_from text o = r ++ concat ts -> (length ts < fuel)%nat ->
  intro_starts fuel text o = offsets (o + len r) ts.
Proof.
  induction ts as [|t ts IH]; intros [|fuel] text o r F R Ho E Hf; try (cbn in Hf; lia).
  - cbn [intro_starts]. by rewrite E, (remainder_next _ introduction_point_line).
  - destruct (next_block _ introduction_point_line text o r t ts F R Ho E)
      as (n & r' & E1 & E2 & Hn & R' & E3 & L & End).
    cbn [intro_starts offsets]. change ((length (t :: ts) < S fuel)%nat) with (S (length ts) < S fuel)%nat in Hf.
    rewrite E1, E2. f_equal. rewrite L.
    replace (o + len r + n + 1) with (o + len r + (n + 1)) by lia.
    destruct (Z.leb_spec (len text) (o + len r + (n + 1))) as [Hle|_]; [by rewrite (End Hle)|].
    inversion_clear F. apply IH; try done; [pose proof (len_nonneg r); lia|lia].
Qed.

(** The inner document is cut exactly at its introduction points, whatever
    lines stand before them. *)
Lemma split_intro_points_ok r ts :
  remainder INTRODUCTION_POINT r -> Forall (block_ok INTRODUCTION_POINT) ts ->
  split_intro_points (r ++ concat ts) = ts.
Proof.
  intros R F. unfold split_intro_points. rewrite (intro_starts_ok ts _ _ 0 r); try done.
  - rewrite Z.add_0_l. pose proof (len_nonneg r) as Hr.
    assert (E : slice_from (r ++ concat ts) (len r) = concat ts) by (by apply slice_from_app).
    revert Hr E. generalize (len r) (r ++ concat ts). clear. intros o text Ho E. revert o Ho E.
    induction ts as [|t ts IH]; intros o Ho E; [done|]. cbn [offsets intro_blocks].
    pose proof (len_nonneg t) as Ht.
    assert (E' : slice_from text (o + len t) = concat ts).
    { unfold slice_from in *. replace (Z.to_nat (o + len t)) with (Z.to_nat o + length t)%nat
        by (unfold len; lia). rewrite <- drop_drop, E. cbn [concat]. by rewrite drop_app_length. }
    rewrite IH by (done || lia). f_equal. unfold slice. unfold slice_from in E. rewrite E. cbn [concat].
    destruct ts as [|t' ts]; cbn [offsets].
    + cbn [concat] in *. rewrite app_nil_r in *. apply take_ge.
      apply (f_equal length) in E. rewrite length_drop in E. unfold len. lia.
    + replace (Z.to_nat (o + len t - o)) with (length t) by (unfold len; lia). by rewrite take_app_length.
  - assert (L : (length ts <= length (concat ts))%nat).
    { clear R. induction F as [|t ts (St & _) F IH]; [done|]. cbn [concat length].
      rewrite length_app. destruct t; [by vm_compute in St|]. cbn [length]. lia. }
    rewrite length_app. lia.
Qed.

Section collect.
Context `{Crypto} (signing_key : bytes) (now : Z).

Definition usable_points (blocks : list bytes) : list IntroPoint.t :=
  omap (fun b => to_option (parse_intro_point b signing_key now)) blocks.

(** An unusable introduction point is skipped, and the twenty-first and later
    ones are not looked at. *)
Lemma collect_points_spec blocks points :
  (length points < MAX_INTRO_POINTS)%nat ->
  collect_points blocks signing_key now points = take MAX_INTRO_POINTS (points ++ usable_points blocks).
Proof.
  revert points. induction blocks as [|b blocks IH]; intros points L.
  - change (points = take MAX_INTRO_POINTS (points ++ [])). rewrite app_nil_r, take_ge by lia. done.
  - assert (U : usable_points (b :: blocks) =
      match to_option (parse_intro_point b signing_key now) with
      | Some p => [p] ++ usable_points blocks | None => usable_points blocks end) by done.
    rewrite U. cbn [collect_points].
    destruct (parse_intro_point b signing_key now) as [p|e]; cbn [to_option].
    + rewrite app_assoc. destruct (Nat.eqb_spec (length (points ++ [p])) MAX_INTRO_POINTS) as [E|N].
      * symmetry. by apply take_app_length'.
      * apply IH. rewrite length_app in *. cbn [length] in *. lia.
    + destruct (Nat.eqb_spec (length points) MAX_INTRO_POINTS); [lia|]. by apply IH.
Qed.

End collect.
End points.

(** ** Which descriptors are accepted *)
Section authentic.
Context `{CryptoLaws}.

(** [data] is a certificate of this kind for [subject], in force, which names
    [signer] and carries its signature over everything before it. *)
Definition vouched (signer data : bytes) (kind : Z) (subject : bytes) (now : Z) : Prop :=
  exists c, certifies signer data kind (Ed25519Cert.cert_key_type c) subject now c /\
    Ed25519Cert.signing_key c = Some signer.

Lemma certified_key_iff data kind signer now subject :
  bytes_ok data ->
  (exists c, Ed25519Cert.parse data = Ok c /\ certified_key c kind signer now = Ok subject) <->
  vouched signer data kind subject now.
Proof.
  intros Hd. unfold vouched, certified_key, bytes_eqb. split.
  - intros (c & P & E). exists c. res_inv. b2p. subst. split; [|done].
    apply certifies_iff; [done|done|]. by rewrite !Z.eqb_refl.
  - intros (c & C & Es). pose proof (ct_parse _ _ _ _ _ _ _ C) as P. exists c. split; [done|].
    apply certifies_iff in C as (E1 & _ & E2 & E3 & E4); [|done|done].
    rewrite E1, Es. cbn [negb ok_or mbind result_bind]. rewrite bool_decide_eq_true_2 by done.
    by rewrite E2, E3, E4.
Qed.

Lemma map_err_ok {A} (r : result A) e a : map_err r e = Ok a <-> r = Ok a.
Proof. by destruct r. Qed.

(** An introduction point that may be used: its link specifiers name a relay
    by address and identity, its keys are there, and both certificates are the
    descriptor's signing key's. *)
Record point_of (signing_key : bytes) (now : Z) (block : bytes) (p : IntroPoint.t) : Prop := {
  pt_specs : exists args raw specs rest,
    item block (B "introduction-point") = Some args /\ base64_decode (trim args) = Ok raw /\
    raw = encode_specifiers specs ++ rest /\ len specs < 256 /\ Forall spec_ok specs /\
    sp_addr (picked specs) = Some (addr_ip (IntroPoint.relay p), addr_port (IntroPoint.relay p)) /\
    sp_rsa (picked specs) = Some (rsa_identity (IntroPoint.relay p)) /\
    sp_ed (picked specs) = ed_identity (IntroPoint.relay p);
  pt_onion : keyed_value block (B "onion-key") (B "ntor") = Some (ntor_onion_key (IntroPoint.relay p));
  pt_enc : keyed_value block (B "enc-key") (B "ntor") = Some (IntroPoint.enc_key p);
  pt_auth : exists data, item_object block (B "auth-key") (B "ED25519 CERT") = Ok data /\
    vouched signing_key data CERT_TYPE_HS_INTRO_AUTH (IntroPoint.auth_key p) now;
  pt_cross : exists data subject, item_object block (B "enc-key-cert") (B "ED25519 CERT") = Ok data /\
    vouched signing_key data CERT_TYPE_HS_INTRO_ENC subject now;
}.

Lemma item_object_bytes text keyword label data :
  item_object text keyword label = Ok data -> bytes_ok data.
Proof.
  unfold item_object, object. intros E. res_inv. by eapply base64_decode_bytes.
Qed.

Lemma parse_intro_point_iff block signing_key now p :
  parse_intro_point block signing_key now = Ok p <-> point_of signing_key now block p.
Proof.
  unfold parse_intro_point. split.
  - intros E. res_inv.
    repeat match goal with HH : map_err _ _ = Ok _ |- _ => apply map_err_ok in HH end.
    subst p. match goal with HH : base64_decode _ = Ok _ |- _ => pose proof (base64_decode_bytes _ _ HH) as Hb end.
    match goal with HH : parse_link_specifiers _ = Ok _ |- _ =>
      apply parse_link_specifiers_iff in HH as (specs & rest & ? & ? & ? & ->); [|done] end.
    destruct p0 as [ip port]. subst.
    split; cbn [IntroPoint.relay IntroPoint.enc_key IntroPoint.auth_key addr_ip addr_port rsa_identity
                ed_identity ntor_onion_key fst snd]; try done.
    + by eexists _, _, specs, rest.
    + eexists. split; [done|]. apply certified_key_iff; [by eapply item_object_bytes|by eexists].
    + eexists _, _. split; [done|]. apply certified_key_iff; [by eapply item_object_bytes|by eexists].
  - intros [(args & raw & specs & rest & E1 & E2 & E3 & E4 & E5 & E6 & E7 & E8) Eo Ee
            (ad & A1 & A2) (cd & cs & C1 & C2)].
    apply certified_key_iff in A2 as (ac & A2 & A3); [|by eapply item_object_bytes].
    apply certified_key_iff in C2 as (cc & C2 & C3); [|by eapply item_object_bytes].
    assert (P : parse_link_specifiers raw = Ok (picked specs)).
    { apply parse_link_specifiers_iff; [by eapply base64_decode_bytes|]. by exists specs, rest. }
    rewrite E1. cbn [ok_or mbind result_bind]. rewrite E2. cbn [mbind result_bind]. rewrite P.
    cbn [mbind result_bind]. rewrite Eo. cbn [ok_or mbind result_bind].
    rewrite A1. cbn [mbind result_bind]. rewrite A2. cbn [mbind result_bind]. rewrite A3.
    cbn [map_err mbind result_bind]. rewrite Ee. cbn [ok_or mbind result_bind].
    rewrite C1. cbn [mbind result_bind]. rewrite C2. cbn [mbind result_bind]. rewrite C3.
    cbn [map_err mbind result_bind]. rewrite E6, E7. cbn [ok_or mbind result_bind fst snd]. rewrite E8.
    by destruct p as [[ip port rsa ed onion] auth enc].
Qed.
(** A layer of the document, sealed under keys only those derive who know the
    blinded key and the subcredential. *)
Definition sealed_layer (blinded_key subcredential : bytes) (revision_counter : Z)
    (string_constant blob plain : bytes) : Prop :=
  exists salt n,
    len salt = 16 /\ (0 < length plain + n)%nat /\ last plain <> Some 0 /\ utf8_valid plain = true /\
    blob = encrypt_layer (plain ++ replicate n 0) blinded_key subcredential revision_counter
             string_constant salt.

Record authentic (text blinded_key subcredential : bytes) (now : Z) (d : Descriptor.t) : Prop := {
  au_version : exists v, item text (B "hs-descriptor") = Some v /\ trim v = B "3";
  au_lifetime : exists v, item text (B "descriptor-lifetime") = Some v /\
    parse_uint U64_MAX (trim v) = Some (Descriptor.lifetime_minutes d);
  au_revision : exists v, item text (B "revision-counter") = Some v /\
    parse_uint U64_MAX (trim v) = Some (Descriptor.revision_counter d);
  (** the blinded key certifies a signing key, *)
  au_chain : exists cert signing outer middle enc inner,
    item_object text (B "descriptor-signing-key-cert") (B "ED25519 CERT") = Ok cert /\
    vouched blinded_key cert CERT_TYPE_HS_DESC_SIGN signing now /\
    (** which signed everything before the line with the signature; *)
    (exists n args sig, line_start_of text (B "signature ") = Some n /\
       item text (B "signature") = Some args /\ base64_decode (trim args) = Ok sig /\
       ed25519_verify signing (SIGNATURE_PREFIX ++ slice_to text n) sig = true) /\
    (** the two layers inside each other open; *)
    item_object text (B "superencrypted") (B "MESSAGE") = Ok outer /\
    sealed_layer blinded_key subcredential (Descriptor.revision_counter d) SUPERENCRYPTED outer middle /\
    item_object middle (B "encrypted") (B "MESSAGE") = Ok enc /\
    sealed_layer blinded_key subcredential (Descriptor.revision_counter d) ENCRYPTED enc inner /\
    (** ntor is offered and no client authorisation asked for; *)
    (exists formats, item inner (B "create2-formats") = Some formats /\
       B "2" ∈ split_whitespace formats) /\
    item inner (B "intro-auth-required") = None /\
    (** and there are introduction points under the signing key's certificates. *)
    Descriptor.intro_points d =
      take MAX_INTRO_POINTS (usable_points signing now (split_intro_points inner)) /\
    Descriptor.intro_points d <> [] /\
    Forall (fun p => exists block, block ∈ split_intro_points inner /\ point_of signing now block p)
      (Descriptor.intro_points d) /\
    Descriptor.flow_control d = (args ← item inner (B "flow-control"); FlowControl.parse args);
}.

Lemma usable_points_of signing now blocks :
  Forall (fun p => exists block, block ∈ blocks /\ point_of signing now block p)
    (take MAX_INTRO_POINTS (usable_points signing now blocks)).
Proof.
  apply Forall_take, Forall_forall. intros p I. apply list_elem_of_omap in I as (b & Hb & E).
  exists b. split; [done|]. apply parse_intro_point_iff.
  destruct (parse_intro_point b signing now); [by injection E as ->|done].
Qed.

Lemma parse_inner_iff inner signing now points :
  parse_inner inner signing now = Ok points <->
  (exists formats, item inner (B "create2-formats") = Some formats /\
     B "2" ∈ split_whitespace formats) /\
  item inner (B "intro-auth-required") = None /\
  points = take MAX_INTRO_POINTS (usable_points signing now (split_intro_points inner)) /\
  points <> [].
Proof.
  unfold parse_inner. rewrite collect_points_spec by (unfold MAX_INTRO_POINTS; cbn [length]; lia). cbn [app].
  set (ps := take _ _).
  assert (X : forall fs, existsb (fun f => bytes_eqb f (B "2")) fs = true <-> B "2" ∈ fs).
  { intros fs. rewrite existsb_exists. unfold bytes_eqb. split.
    - intros (f & I & E). b2p. subst f. by apply list_elem_of_In.
    - intros I. exists (B "2"). split; [by apply list_elem_of_In|by apply bool_decide_eq_true_2]. }
  split.
  - intros E. destruct (item inner (B "create2-formats")) as [formats|] eqn:F; [|done].
    cbn [ok_or mbind result_bind] in E. destruct (existsb _ _) eqn:Ex; [|done]. cbn [negb] in E.
    apply X in Ex. destruct (item inner (B "intro-auth-required")) eqn:A; [done|].
    destruct ps eqn:Eps; [done|]. injection E as <-. split_and!; [by exists formats|done|done|done].
  - intros ((formats & F & I) & A & -> & N). rewrite F. cbn [ok_or mbind result_bind].
    apply X in I. rewrite I. cbn [negb]. rewrite A. by destruct ps.
Qed.

Lemma check_signature_iff text signing u :
  check_signature text signing = Ok u <->
  exists n args sig, line_start_of text (B "signature ") = Some n /\
    item text (B "signature") = Some args /\ base64_decode (trim args) = Ok sig /\
    ed25519_verify signing (SIGNATURE_PREFIX ++ slice_to text n) sig = true.
Proof.
  unfold check_signature. split.
  - intros E. res_inv. subst. by eexists _, _, _.
  - intros (n & args & sig & E1 & E2 & E3 & E4). rewrite E1, E2. cbn [ok_or mbind result_bind].
    rewrite E3. cbn [mbind result_bind]. rewrite E4. by destruct u.
Qed.

(** C14. A descriptor is accepted exactly when it is authentic: the blinded key certifies (by an unexpired certificate of the right type that names it) the key whose signature covers everything before the signature line; the two encryption layers are exactly what a service seals under that blinded key, the subcredential and the revision counter, padding included; and the introduction points are the first twenty usable ones, at least one, each with both its certificates from that signing key.  An unusable introduction point never costs the others, and nothing else is accepted. *)
Theorem descriptor_authentic_iff text blinded_key subcredential now d :
  parse text blinded_key subcredential now = Ok d <->
  authentic text blinded_key subcredential now d.
Proof.
  unfold parse, bytes_eqb. split.
  - intros E. res_inv. repeat match goal with HH : map_err _ _ = Ok _ |- _ => apply map_err_ok in HH end. b2p.
    subst. repeat match goal with
      | HH : check_signature _ _ = Ok _ |- _ => apply check_signature_iff in HH
      | HH : decrypt_layer _ _ _ _ _ = Ok _ |- _ => apply decrypt_layer_iff in HH
      | HH : parse_inner _ _ _ = Ok _ |- _ => apply parse_inner_iff in HH as (? & ? & ? & ?) end.
    split; cbn [Descriptor.lifetime_minutes Descriptor.revision_counter Descriptor.intro_points
                Descriptor.flow_control]; [eauto..|].
    eexists _, _, _, _, _, _. split_and!; try done.
    + apply certified_key_iff; [by eapply item_object_bytes|by eexists].
    + subst. apply usable_points_of.
  - intros [(v & V1 & V2) (l & L1 & L2) (r & R1 & R2)
            (cert & signing & outer & middle & enc & inner & C1 & C2 & S & O1 & O2 & M1 & M2 & F & A & P & N & _ & Fl)].
    apply certified_key_iff in C2 as (c & C2 & C3); [|by eapply item_object_bytes].
    apply (check_signature_iff _ _ tt) in S. apply decrypt_layer_iff in O2, M2.
    assert (I : parse_inner inner signing now = Ok (Descriptor.intro_points d))
      by (by apply parse_inner_iff).
    rewrite V1. cbn [ok_or mbind result_bind]. rewrite bool_decide_eq_true_2 by done. cbn [negb].
    rewrite L1, R1. cbn [mbind option_bind]. rewrite L2, R2. cbn [ok_or mbind result_bind].
    rewrite C1. cbn [mbind result_bind]. rewrite C2. cbn [mbind result_bind]. rewrite C3.
    cbn [map_err mbind result_bind]. rewrite S. cbn [mbind result_bind]. rewrite O1. cbn [mbind result_bind].
    rewrite O2. cbn [mbind result_bind]. rewrite M1. cbn [mbind result_bind]. rewrite M2. cbn [mbind result_bind].
    rewrite I. cbn [mbind result_bind]. rewrite <- Fl. by destruct d.
Qed.
End authentic.

(** ** A concrete descriptor *)
Module DescriptorDemo.
Import Toy.

Definition line (s : bytes) : bytes := s ++ [NL].
Definition pem (label data : bytes) : bytes :=
  line (begin_of label) ++ line (base64_encode_unpadded data) ++ line (end_of label).

(** A certificate of this kind for [subject], signed by [signer]. *)
Definition cert (kind : Z) (signer subject : bytes) : bytes :=
  let body := encode_unsigned kind 500000 1 subject [MkExt EXT_TYPE_SIGNED_WITH_ED25519 0 signer] in
  body ++ sign signer body.

Definition blinded : bytes := replicate 32 11.
Definition signing : bytes := replicate 32 22.
Definition subcred : bytes := replicate 32 33.
Definition introduction_relay (n : Z) : RelayInfo :=
  MkRelay [10; 0; 0; n] 9001 (replicate 20 n) (Some (replicate 32 (n + 1))) (replicate 32 (n + 2)).

Definition block (n : Z) (auth_signer : bytes) : bytes :=
  let r := introduction_relay n in
  line (B "introduction-point " ++ base64_encode_unpadded (link_specifiers r)) ++
  line (B "onion-key legacy AAAA") ++
  line (B "onion-key ntor " ++ base64_encode_unpadded (ntor_onion_key r)) ++
  line (B "auth-key") ++ pem (B "ED25519 CERT") (cert CERT_TYPE_HS_INTRO_AUTH auth_signer (replicate 32 (n + 3))) ++
  line (B "enc-key ntor " ++ base64_encode_unpadded (replicate 32 (n + 4))) ++
  line (B "enc-key-cert") ++ pem (B "ED25519 CERT") (cert CERT_TYPE_HS_INTRO_ENC signing (replicate 32 (n + 5))).

Definition inner_lines : bytes := line (B "create2-formats 2") ++ line (B "flow-control 1-2 31").
Definition inner : bytes := inner_lines ++ block 1 signing.
Definition point (n : Z) : IntroPoint.t := IntroPoint.Mk (introduction_relay n) (replicate 32 (n + 3)) (replicate 32 (n + 4)).

(** Of three introduction points, the second's certificate is somebody
    else's. *)
Example foreign_point_is_skipped :
  parse_inner (inner_lines ++ block 1 signing ++ block 50 blinded ++ block 100 signing) signing 1000 = Ok [point 1; point 100].
Proof. by vm_compute. Qed.

Definition salt (n : Z) : bytes := replicate 16 n.
Definition middle (blinded subcred : bytes) : bytes :=
  line (B "desc-auth-type x25519") ++ line (B "encrypted") ++
  pem (B "MESSAGE") (encrypt_layer (inner ++ replicate 7 0) blinded subcred 42 ENCRYPTED (salt 5)).

Definition unsigned (blinded subcred : bytes) : bytes :=
  line (B "hs-descriptor 3") ++ line (B "descriptor-lifetime 180") ++
  line (B "descriptor-signing-key-cert") ++ pem (B "ED25519 CERT") (cert CERT_TYPE_HS_DESC_SIGN blinded signing) ++
  line (B "revision-counter 42") ++ line (B "superencrypted") ++
  pem (B "MESSAGE") (encrypt_layer (middle blinded subcred ++ replicate 3 0) blinded subcred 42 SUPERENCRYPTED (salt 6)).
Definition document (blinded subcred : bytes) : bytes :=
  let unsigned := unsigned blinded subcred in
  unsigned ++ line (B "signature " ++ base64_encode_unpadded (sign signing (SIGNATURE_PREFIX ++ unsigned))).
Definition text : bytes := document blinded subcred.

Definition expected : Descriptor.t :=
  Descriptor.Mk 180 42
    [point 1] (Some (FlowControl.Mk 2 31)).

Lemma descriptor_witness :
  parse text blinded subcred 1000 = Ok expected /\ authentic text blinded subcred 1000 expected.
Proof.
  assert (E : parse text blinded subcred 1000 = Ok expected) by (by vm_compute).
  split; [exact E|]. by apply (descriptor_authentic_iff text blinded subcred 1000 expected).
Defined.

(** Another revision counter, another subcredential or an expired certificate
    and nothing is accepted. *)
Example refused :
  is_ok (parse text blinded signing 1000) = false /\
  is_ok (parse text signing subcred 1000) = false /\
  is_ok (parse text blinded subcred (500000 * 3600)) = false.
Proof. by vm_compute. Qed.

(** The flow-control line. *)
Example flow_control_line :
  FlowControl.parse (B "2-5 50 extra") = Some (FlowControl.Mk 5 50) /\
  FlowControl.parse (B "1-2") = None /\ FlowControl.parse (B "x-y 31") = None.
Proof. by vm_compute. Qed.
End DescriptorDemo.
