(* ===== verification/HsNtor.v ===== *)
(** * hs-ntor ([src/src/tor/hs/ntor.rs])

    The client's half of the introduction and rendezvous handshake.  The
    service's half is not part of the program: it is written from the protocol
    as a specification, and the theorems say that the two agree. *)
From S2P Require Import Prelude.
From S2P Require Import Crypto.
From S2P Require Import Relay.
From S2P Require Import Handshake.
From S2P Require Import Onion.

Definition PROTOID : bytes := B "tor-hs-ntor-curve25519-sha3-256-1".
Definition T_HSENC : bytes := B "tor-hs-ntor-curve25519-sha3-256-1:hs_key_extract".
Definition T_HSVERIFY : bytes := B "tor-hs-ntor-curve25519-sha3-256-1:hs_verify".
Definition T_HSMAC : bytes := B "tor-hs-ntor-curve25519-sha3-256-1:hs_mac".
Definition M_HSEXPAND : bytes := B "tor-hs-ntor-curve25519-sha3-256-1:hs_key_expand".
Definition SERVER_STRING : bytes := B "Server".
Definition SERVER_HANDSHAKE_LEN : Z := 32 + 32.

Record IntroduceKeys := MkIntroduceKeys { enc_key_of : bytes; mac_key_of : bytes }.

Module HsNtorClient.
Record t := Mk {
  secret : bytes;
  x_pub : bytes;
  auth_key : bytes;
  enc_key : bytes;
  exp_bx : bytes;
}.
End HsNtorClient.

Section hs_ntor.
Context `{Crypto}.
Import HsNtorClient.

Definition with_secret (secret auth_key enc_key : bytes) : result HsNtorClient.t :=
  let x_pub := x25519_public secret in
  exp_bx ← diffie_hellman secret enc_key;
  Ok (Mk secret x_pub auth_key enc_key exp_bx).

Definition new (generate : result bytes) (auth_key enc_key : bytes) : result HsNtorClient.t :=
  secret ← generate;
  with_secret secret auth_key enc_key.

Definition client_public (c : HsNtorClient.t) : bytes := x_pub c.

Definition introduce_keys (c : HsNtorClient.t) (subcredential : bytes) : IntroduceKeys :=
  let input :=
    exp_bx c ++ auth_key c ++ x_pub c ++ enc_key c ++ PROTOID ++ T_HSENC ++ M_HSEXPAND
      ++ subcredential in
  let keys := shake256 input 64 in
  MkIntroduceKeys (slice_to keys 32) (slice_from keys 32).

Definition derive_keys (key_seed : bytes) : CircuitKeys :=
  let stream := shake256 (key_seed ++ M_HSEXPAND) 128 in
  MkKeys (slice stream 0 32) (slice stream 32 64) (slice stream 64 96) (slice stream 96 128).

Definition finish (c : HsNtorClient.t) (reply : bytes) : result CircuitKeys :=
  if len reply <? SERVER_HANDSHAKE_LEN then Err (invalid_data "hs-ntor reply is too short")
  else
    let y_pub := slice_to reply 32 in
    let auth := slice reply 32 64 in
    exp_yx ← diffie_hellman (secret c) y_pub;
    let rend_secret :=
      exp_yx ++ exp_bx c ++ auth_key c ++ enc_key c ++ x_pub c ++ y_pub ++ PROTOID in
    let key_seed := mac rend_secret T_HSENC in
    let verify := mac rend_secret T_HSVERIFY in
    let auth_input :=
      verify ++ auth_key c ++ enc_key c ++ y_pub ++ x_pub c ++ PROTOID ++ SERVER_STRING in
    if negb (constant_time_eq (mac auth_input T_HSMAC) auth)
    then Err (invalid_data "hs-ntor AUTH mismatch: the far end is not the onion service we asked for")
    else Ok (derive_keys key_seed).

(** ** The service's half, from the protocol

    The service knows the secret [b] of the encryption key it published, the
    authentication key of the introduction point, and its subcredential. *)

Definition service_introduce_keys (b auth_key subcredential x_pub : bytes) : option IntroduceKeys :=
  exp_xb ← x25519 b x_pub;
  let keys := shake256 (exp_xb ++ auth_key ++ x_pub ++ x25519_public b ++ PROTOID ++ T_HSENC
                          ++ M_HSEXPAND ++ subcredential) 64 in
  Some (MkIntroduceKeys (slice_to keys 32) (slice_from keys 32)).

(** What it sends back to the rendezvous point, and the keys it uses. *)
Definition service_reply (b y auth_key x_pub : bytes) : option (bytes * CircuitKeys) :=
  exp_xy ← x25519 y x_pub;
  exp_xb ← x25519 b x_pub;
  let y_pub := x25519_public y in
  let b_pub := x25519_public b in
  let rend_secret := exp_xy ++ exp_xb ++ auth_key ++ b_pub ++ x_pub ++ y_pub ++ PROTOID in
  let verify := mac rend_secret T_HSVERIFY in
  let auth :=
    mac (verify ++ auth_key ++ b_pub ++ y_pub ++ x_pub ++ PROTOID ++ SERVER_STRING) T_HSMAC in
  Some (y_pub ++ auth, derive_keys (mac rend_secret T_HSENC)).
End hs_ntor.

(** ** Agreement *)
Section agreement.
Context `{CryptoLaws}.
Import HsNtorClient.

Lemma with_secret_ok x auth_key b c :
  with_secret x auth_key (x25519_public b) = Ok c ->
  exists s, x25519 b (x25519_public x) = Some s /\
    c = Mk x (x25519_public x) auth_key (x25519_public b) s.
Proof.
  unfold with_secret, diffie_hellman. rewrite x25519_agree.
  destruct (x25519 b _) as [s|]; [|done]. intros [= <-]. by exists s.
Qed.

(** Both sides derive the same keys for INTRODUCE1, *)
Lemma introduce_keys_agree x auth_key b c subcredential :
  with_secret x auth_key (x25519_public b) = Ok c ->
  service_introduce_keys b auth_key subcredential (client_public c) =
    Some (introduce_keys c subcredential).
Proof.
  intros (s & E & ->)%with_secret_ok. unfold service_introduce_keys, introduce_keys, client_public.
  cbn [HsNtorClient.x_pub HsNtorClient.auth_key HsNtorClient.enc_key HsNtorClient.exp_bx].
  by rewrite E.
Qed.

Lemma hs_mac_len key msg : len (mac key msg) = 32.
Proof. unfold mac, sha3_256. by rewrite hash_len. Qed.

(** and the same keys for the virtual hop, whatever follows the reply. *)
Lemma finish_agrees x auth_key b y c reply keys pad :
  with_secret x auth_key (x25519_public b) = Ok c ->
  service_reply b y auth_key (client_public c) = Some (reply, keys) ->
  len reply = SERVER_HANDSHAKE_LEN /\ finish c (reply ++ pad) = Ok keys.
Proof.
  intros (s & E & ->)%with_secret_ok. unfold service_reply, finish, client_public, diffie_hellman.
  cbn [HsNtorClient.secret HsNtorClient.x_pub HsNtorClient.auth_key HsNtorClient.enc_key
       HsNtorClient.exp_bx].
  destruct (x25519 y (x25519_public x)) as [xy|] eqn:Ey; [|done]. rewrite E. cbn [mbind option_bind].
  set (auth := mac _ T_HSMAC). intros [= <- <-].
  pose proof (x25519_public_len y) as Ly. pose proof (hs_mac_len _ _ : len auth = 32) as La.
  split; [rewrite len_app; unfold SERVER_HANDSHAKE_LEN; lia|].
  rewrite (proj2 (Z.ltb_ge _ _)) by (rewrite !len_app; unfold SERVER_HANDSHAKE_LEN; len_pos; lia).
  rewrite <- app_assoc, (slice_to_app (x25519_public y)) by done.
  rewrite (slice_app_at (x25519_public y) auth pad) by lia.
  rewrite x25519_agree, Ey. cbn [ok_or mbind result_bind]. fold auth.
  by rewrite (proj2 (constant_time_eq_spec auth auth)).
Qed.

(** A reply is taken only when its second half is the authenticator of its
    first for this handshake. *)
Lemma finish_iff c reply keys :
  finish c reply = Ok keys <->
  exists y_pub exp_yx rest,
    len y_pub = 32 /\ x25519 (secret c) y_pub = Some exp_yx /\
    let rend_secret := exp_yx ++ exp_bx c ++ auth_key c ++ enc_key c ++ x_pub c ++ y_pub ++ PROTOID in
    reply = y_pub ++ mac (mac rend_secret T_HSVERIFY ++ auth_key c ++ enc_key c ++ y_pub ++ x_pub c
                            ++ PROTOID ++ SERVER_STRING) T_HSMAC ++ rest /\
    keys = derive_keys (mac rend_secret T_HSENC).
Proof.
  unfold finish, diffie_hellman, SERVER_HANDSHAKE_LEN. split.
  - intros E. res_inv. b2p. subst.
    match goal with Ha : constant_time_eq _ _ = true |- _ => apply constant_time_eq_spec in Ha; rename Ha into Ea end.
    eexists (slice_to reply 32), _, (slice_from reply 64).
    split; [unfold slice_to; rewrite len_take; lia|]. split; [done|]. cbn zeta. rewrite Ea.
    split; [|done]. unfold slice_to, slice_from, slice.
    rewrite <- (take_drop (Z.to_nat 32) reply) at 1. f_equal.
    rewrite <- (take_drop (Z.to_nat (64 - 32)) (drop (Z.to_nat 32) reply)) at 1. f_equal.
    by rewrite drop_drop.
  - intros (y_pub & s & rest & Ly & Es & Er & ->). cbn zeta in Er.
    set (auth := mac (_ ++ _) T_HSMAC) in Er. pose proof (hs_mac_len _ _ : len auth = 32) as La. subst reply.
    rewrite (proj2 (Z.ltb_ge _ _)) by (rewrite !len_app; len_pos; lia).
    rewrite (slice_to_app y_pub) by done. rewrite (slice_app_at y_pub auth rest) by lia.
    rewrite Es. cbn [ok_or mbind result_bind]. fold auth.
    by rewrite (proj2 (constant_time_eq_spec auth auth)).
Qed.
End agreement.
