(* ===== verification/Rendezvous.v ===== *)
(** * Meeting an onion service ([src/src/tor/hs/rendezvous.rs])

    The INTRODUCE1 message, the terms of congestion control, and the dance
    that leaves a circuit whose last hop is the service.  What the network
    answers is the record [World]; what the dance does to circuits is the
    record [Dance].  The theorems say that the service reads exactly what was
    written and ends with the same keys, and that no circuit is left open. *)
From S2P Require Import Prelude.
From S2P Require Import Text.
From S2P Require Import Cc.
From S2P Require Import Crypto.
From S2P Require Import Relay.
From S2P Require Import Handshake.
From S2P Require Import Onion.
From S2P Require Import Path.
From S2P Require Import Descriptor.
From S2P Require Import HsNtor.

Definition EXT_CC_REQUEST : Z := 1.
Definition FLOW_CONTROL_VERSION : Z := 2.
Definition AUTH_KEY_TYPE_ED25519 : Z := 2.
Definition ONION_KEY_TYPE_NTOR : Z := 1.
Definition MAX_INTRODUCE1_LEN : Z := 490.
Definition INTRODUCE_PLAINTEXT_LEN : Z := 246.
Definition INTRO_ACK_SUCCESS : Z := 0.
Definition INTRO_ACK_NOT_RECOGNIZED : Z := 1.
Definition INTRO_ATTEMPTS : nat := 3.

(** ** The INTRODUCE1 message *)

Definition introduce_plaintext (cookie : bytes) (rendezvous_point : RelayInfo)
    (request_congestion : bool) : bytes :=
  let out :=
    cookie ++ (if request_congestion then [1; EXT_CC_REQUEST; 0] else [0]) ++
    [ONION_KEY_TYPE_NTOR] ++ to_be 2 (as_u16 (len (ntor_onion_key rendezvous_point))) ++
    ntor_onion_key rendezvous_point ++ link_specifiers rendezvous_point in
  if len out <? INTRODUCE_PLAINTEXT_LEN then resize0 out INTRODUCE_PLAINTEXT_LEN else out.

Definition assemble_introduce1 `{Crypto} (auth_key client_public plaintext : bytes)
    (keys : IntroduceKeys) : result bytes :=
  let message :=
    zeros 20 ++ [AUTH_KEY_TYPE_ED25519] ++ to_be 2 (as_u16 (len auth_key)) ++ auth_key ++ [0]
    ++ client_public in
  let encrypted := snd (Ctr.apply (Ctr.new Aes256 (enc_key_of keys)) plaintext) in
  let message := message ++ encrypted in
  let tag := mac (mac_key_of keys) message in
  let message := message ++ tag in
  if MAX_INTRODUCE1_LEN <? len message
  then Err (invalid_data "INTRODUCE1 message would be over-long") else Ok message.

Definition check_introduce_ack (body : bytes) : result unit :=
  if len body <? 2 then Err (invalid_data "INTRODUCE_ACK is too short")
  else
    let status := from_be (slice body 0 2) in
    if status =? INTRO_ACK_SUCCESS then Ok tt
    else if status =? INTRO_ACK_NOT_RECOGNIZED then
      Err (IoError InvalidInput (Message "introduction point does not know that authentication key"))
    else Err (invalid_data "introduction point refused the request, status {status}").

Definition is_unrecognized_key (e : io_error) : bool := bool_decide (kind e = InvalidInput).

(** ** Congestion control *)

Definition congestion_from (advertised : option FlowControl.t) (params : CcParams.t)
    : option (CcParams.t * Z) :=
  advertised ← advertised;
  if (FlowControl.max_version advertised <? FLOW_CONTROL_VERSION) || (CcParams.alg params =? 0) then None
  else
    let expected := CcParams.p_sendme_inc params in
    let offered := FlowControl.sendme_inc advertised in
    if (offered =? 0) || (offered * 2 <? expected) || (expected * 2 <? offered) then None
    else Some (params, FlowControl.sendme_inc advertised).

(** ** The dance *)

Record Failure := MkFailure { error : io_error; descriptor_is_stale : bool }.
Definition failure_new (e : io_error) : Failure := MkFailure e false.

(** What the rest of the client and the network answer.  A circuit is named by
    the number of the call that built it; attempts are numbered from zero. *)
Record World := MkWorld {
  w_point : result RelayInfo;                          (* choose_rendezvous_point *)
  w_build : nat -> RelayInfo -> result unit;           (* build_circuit_to *)
  w_cookie : result bytes;                             (* rand::bytes *)
  w_control : nat -> Z -> bytes -> Z -> result bytes;  (* send_control, then wait_for_control *)
  w_wait : nat -> nat -> result bytes;                 (* RENDEZVOUS2, at an attempt *)
  w_secret : nat -> result bytes;                      (* EphemeralSecret::generate *)
  w_late : nat -> bool;                                (* the deadline is past *)
}.

(** What has been done to circuits. *)
Module Dance.
Record t := Mk {
  calls : nat;
  opened : list nat;
  closed : list nat;
  hops : list (nat * CircuitKeys);
  congestion : list (nat * (CcParams.t * Z));
}.
Definition start : t := Mk 0 [] [] [] [].
End Dance.

Definition close (circuit : nat) (s : Dance.t) : Dance.t := s{{Dance.closed := Dance.closed s ++ [circuit] }}.

Definition build_circuit_to (w : World) (relay : RelayInfo) (s : Dance.t) : Dance.t * result nat :=
  let circuit := Dance.calls s in
  let s := s{{Dance.calls := S circuit}} in
  match w_build w circuit relay with
  | Ok _ => (s{{Dance.opened := Dance.opened s ++ [circuit] }}, Ok circuit)
  | Err e => (s, Err e)
  end.

Record Rendezvous := MkRendezvous { rv_circuit : nat; rv_point : RelayInfo; rv_cookie : bytes }.

Definition open_rendezvous (w : World) (s : Dance.t) : Dance.t * result Rendezvous :=
  match w_point w with
  | Err e => (s, Err e)
  | Ok point =>
      let '(s, built) := build_circuit_to w point s in
      match built with
      | Err e => (s, Err e)
      | Ok circuit =>
          match w_cookie w with
          | Err e => (close circuit s, Err e)
          | Ok cookie =>
              match w_control w circuit RELAY_ESTABLISH_RENDEZVOUS cookie RELAY_RENDEZVOUS_ESTABLISHED with
              | Err e => (close circuit s, Err e)
              | Ok _ => (s, Ok (MkRendezvous circuit point cookie))
              end
          end
      end
  end.

Section dance.
Context `{Crypto} (w : World).

(** The message of one attempt, and the handshake it starts. *)
Definition prepare_introduction (rendezvous : Rendezvous) (intro : IntroPoint.t)
    (subcredential : bytes) (congestion : option (CcParams.t * Z)) (attempt : nat)
    : result (HsNtorClient.t * bytes) :=
  handshake ← HsNtor.new (w_secret w attempt) (IntroPoint.auth_key intro) (IntroPoint.enc_key intro);
  let keys := introduce_keys handshake subcredential in
  let plaintext :=
    introduce_plaintext (rv_cookie rendezvous) (rv_point rendezvous)
      (match congestion with Some _ => true | None => false end) in
  message ← assemble_introduce1 (IntroPoint.auth_key intro) (client_public handshake) plaintext keys;
  Ok (handshake, message).

(** What follows once the introduction circuit is closed. *)
Definition complete_introduction (rendezvous : Rendezvous) (handshake : HsNtorClient.t)
    (ack : result bytes) (attempt : nat) : result CircuitKeys :=
  body ← ack;
  _ ← check_introduce_ack body;
  reply ← w_wait w (rv_circuit rendezvous) attempt;
  if len reply <? SERVER_HANDSHAKE_LEN
  then Err (invalid_data "RENDEZVOUS2 is too short to be a handshake")
  else HsNtor.finish handshake reply.

Definition introduce (rendezvous : Rendezvous) (intro : IntroPoint.t) (subcredential : bytes)
    (ready : option nat) (congestion : option (CcParams.t * Z)) (attempt : nat) (s : Dance.t)
    : Dance.t * result unit :=
  match prepare_introduction rendezvous intro subcredential congestion attempt with
  | Err e => (s, Err e)
  | Ok (handshake, message) =>
      let '(s, intro_circuit) :=
        match ready with
        | Some circuit => (s, Ok circuit)
        | None => build_circuit_to w (IntroPoint.relay intro) s
        end in
      match intro_circuit with
      | Err e => (s, Err e)
      | Ok intro_circuit =>
          let ack := w_control w intro_circuit RELAY_INTRODUCE1 message RELAY_INTRODUCE_ACK in
          let s := close intro_circuit s in
          match complete_introduction rendezvous handshake ack attempt with
          | Err e => (s, Err e)
          | Ok circuit_keys =>
              let s := s{{Dance.hops := Dance.hops s ++ [(rv_circuit rendezvous, circuit_keys)] }} in
              (match congestion with
               | Some terms =>
                   s{{Dance.congestion := Dance.congestion s ++ [(rv_circuit rendezvous, terms)] }}
               | None => s
               end, Ok tt)
          end
      end
  end.

(** The indices of [order] are those of [points]. *)
Definition no_point : IntroPoint.t := IntroPoint.Mk (MkRelay [] 0 [] None []) [] [].

Definition out_of_time : io_error :=
  IoError TimedOut (Message "ran out of time reaching the onion service").

(** The failure after the last attempt. *)
Definition last_failure (last : option io_error) (all_unrecognized : bool) (attempts : nat) : Failure :=
  MkFailure
    (match last with
     | Some e => e
     | None => invalid_data "the descriptor named no introduction points"
     end) ((0 <? attempts)%nat && all_unrecognized).

(** The loop, with the prepared circuit that is left when it ends. *)
Fixpoint introduce_until_met (rendezvous : Rendezvous) (points : list IntroPoint.t)
    (subcredential : bytes) (congestion : option (CcParams.t * Z)) (order : list nat)
    (prepared : option (nat * nat)) (last : option io_error) (all_unrecognized : bool)
    (attempts : nat) (s : Dance.t) : Dance.t * option (nat * nat) * option Failure :=
  match order with
  | [] => (s, prepared, Some (last_failure last all_unrecognized attempts))
  | index :: order =>
      if w_late w attempts then
        (s, prepared, Some (last_failure (Some out_of_time) all_unrecognized attempts))
      else
        let '(ready, prepared) :=
          match prepared with
          | Some (prepared_index, circuit) =>
              if (prepared_index =? index)%nat then (Some circuit, None) else (None, prepared)
          | None => (None, None)
          end in
        let intro := nth index points no_point in
        let '(s, outcome) := introduce rendezvous intro subcredential ready congestion attempts s in
        match outcome with
        | Ok _ => (s, prepared, None)
        | Err e =>
            introduce_until_met rendezvous points subcredential congestion order prepared (Some e)
              (all_unrecognized && is_unrecognized_key e) (S attempts) s
        end
  end.

Definition close_prepared (prepared : option (nat * nat)) (s : Dance.t) : Dance.t :=
  match prepared with Some (_, circuit) => close circuit s | None => s end.

(** The rendezvous thread and the first introduction circuit do not touch each
    other's circuits; here the thread runs first.  [None] while the shuffle is
    still drawing. *)
Definition establish (cc_onion : CcParams.t) (descriptor : Descriptor.t) (subcredential : bytes)
    (ds : Rand.draws) (s : Dance.t) : option (Dance.t * (nat + Failure)) :=
  let points := Descriptor.intro_points descriptor in
  let '(s, rendezvous) := open_rendezvous w s in
  match Rand.shuffle (seq 0 (length points)) ds with
  | Rand.Waiting | Rand.Panicked => None
  | Rand.Done (Err e) _ => Some (s, inr (failure_new e))
  | Rand.Done (Ok order) _ =>
      let order := take INTRO_ATTEMPTS order in
      let '(s, prepared) :=
        match order with
        | [] => (s, None)
        | index :: _ =>
            let '(s, built) := build_circuit_to w (IntroPoint.relay (nth index points no_point)) s in
            (s, match built with Ok circuit => Some (index, circuit) | Err _ => None end)
        end in
      match rendezvous with
      | Err e => Some (close_prepared prepared s, inr (failure_new e))
      | Ok rendezvous =>
          let congestion := congestion_from (Descriptor.flow_control descriptor) cc_onion in
          let '(s, prepared, failure) :=
            introduce_until_met rendezvous points subcredential congestion order prepared None true 0 s in
          match failure with
          | None => Some (s, inl (rv_circuit rendezvous))
          | Some failure =>
              Some (close_prepared prepared (close (rv_circuit rendezvous) s), inr failure)
          end
      end
  end.
End dance.

(** ** The service's reading of INTRODUCE1, from the protocol *)
Section service.
Context `{Crypto}.

(** The service finds the message meant for one of its introduction points,
    checks the MAC over all of it, and decrypts. *)
Definition service_open (b auth_key subcredential message : bytes) : option (bytes * bytes) :=
  let body := slice_to message (len message - 32) in
  let tag := slice_from message (len message - 32) in
  if negb (bytes_eqb (slice_to message 56) (zeros 20 ++ [2; 0; 32] ++ auth_key ++ [0])) then None
  else
    let x_pub := slice message 56 88 in
    keys ← service_introduce_keys b auth_key subcredential x_pub;
    if bytes_eqb (mac (mac_key_of keys) body) tag
    then Some (x_pub, snd (Ctr.apply (Ctr.new Aes256 (enc_key_of keys)) (slice_from body 88)))
    else None.

Fixpoint read_extensions (n : nat) (data : bytes) (types : list Z) : option (list Z * bytes) :=
  match n with
  | O => Some (types, data)
  | S n =>
      match data with
      | kind :: size :: data => read_extensions n (slice_from data size) (types ++ [kind])
      | _ => None
      end
  end.

(** Cookie, extension types, onion key and link specifiers. *)
Definition service_read (plaintext : bytes) : option (bytes * list Z * bytes * Specifiers) :=
  '(types, rest) ← read_extensions (Z.to_nat (byte_at plaintext 20)) (slice_from plaintext 21) [];
  if negb (byte_at rest 0 =? ONION_KEY_TYPE_NTOR) then None
  else
    let key_len := from_be (slice rest 1 3) in
    specs ← to_option (parse_link_specifiers (slice_from rest (3 + key_len)));
    Some (slice_to plaintext 20, types, slice rest 3 (3 + key_len), specs).
End service.

Section agreement.
Context `{CryptoLaws}.

(** A rendezvous point with every key it needs. *)
Definition point_ok (r : RelayInfo) : Prop := relay_ok r /\ len (ntor_onion_key r) = 32.

Lemma len_link_specifiers r : relay_ok r -> len (link_specifiers r) <= 65.
Proof.
  intros (Li & Hp & Lr & Le). unfold link_specifiers, link_specifier.
  destruct (ed_identity r); cbn [map concat fst snd app]; solve_len.
Qed.

(** The plaintext always has the same length, whatever it says. *)
Lemma introduce_plaintext_spec cookie point cc :
  len cookie = 20 -> point_ok point ->
  len (introduce_plaintext cookie point cc) = INTRODUCE_PLAINTEXT_LEN /\
  service_read (introduce_plaintext cookie point cc) =
    Some (cookie, if cc then [EXT_CC_REQUEST] else [], ntor_onion_key point,
          MkSpecifiers (Some (addr_ip point, addr_port point)) (Some (rsa_identity point))
            (ed_identity point)).
Proof.
  intros Lc [Hr Lk]. unfold introduce_plaintext, INTRODUCE_PLAINTEXT_LEN.
  pose proof (len_link_specifiers point Hr) as Ls.
  set (ext := if cc then [1; EXT_CC_REQUEST; 0] else [0]).
  assert (Le : len ext <= 3) by (unfold ext; destruct cc; by vm_compute).
  assert (K : to_be 2 (as_u16 (len (ntor_onion_key point))) = [0; 32]) by (by rewrite Lk).
  rewrite K. set (out := cookie ++ ext ++ [ONION_KEY_TYPE_NTOR] ++ [0; 32] ++ _).
  assert (Lo : len out <= 123).
  { unfold out. rewrite !len_app. cbn [len length]. change (len [ONION_KEY_TYPE_NTOR]) with 1.
    change (len [0; 32]) with 2. lia. }
  rewrite (proj2 (Z.ltb_lt _ _)) by lia. unfold resize0.
  rewrite take_ge by (unfold len in Lo; lia). split; [rewrite len_app, len_replicate; unfold len in *; lia|].
  set (pad := replicate _ 0). unfold service_read, out. rewrite <- !app_assoc.
  rewrite byte_at_app_r, Lc by lia. rewrite (slice_to_app cookie) by lia.
  assert (F : forall rest, slice_from (cookie ++ ext ++ rest) 21 = tail ext ++ rest).
  { intros rest. unfold slice_from. rewrite drop_app_ge by (unfold len in Lc; lia).
    replace (Z.to_nat 21 - length cookie)%nat with 1%nat by (unfold len in Lc; lia).
    unfold ext. by destruct cc. }
  rewrite F. set (tl := [ONION_KEY_TYPE_NTOR] ++ _).
  assert (R : read_extensions (Z.to_nat (byte_at (ext ++ tl) (20 - 20))) (tail ext ++ tl) [] =
              Some (if cc then [EXT_CC_REQUEST] else [], tl)).
  { unfold ext. by destruct cc. }
  rewrite R. cbn [mbind option_bind]. unfold tl. cbn [app].
  change (byte_at (ONION_KEY_TYPE_NTOR :: _) 0 =? ONION_KEY_TYPE_NTOR) with true. cbn [negb].
  change (from_be (slice (ONION_KEY_TYPE_NTOR :: 0 :: 32 :: _) 1 3)) with 32.
  change (ONION_KEY_TYPE_NTOR :: 0 :: 32 :: ?r) with ([ONION_KEY_TYPE_NTOR; 0; 32] ++ r).
  rewrite (slice_app_at [ONION_KEY_TYPE_NTOR; 0; 32] (ntor_onion_key point)) by (rewrite ?Lk; done).
  rewrite app_assoc, (slice_from_app (_ ++ ntor_onion_key point)) by (rewrite len_app, Lk; done).
  by rewrite link_specifiers_read_back.
Qed.

Lemma prepare_ok w rendezvous intro subcredential congestion attempt x b :
  w_secret w attempt = Ok x -> len (IntroPoint.auth_key intro) = 32 ->
  len (rv_cookie rendezvous) = 20 -> point_ok (rv_point rendezvous) ->
  IntroPoint.enc_key intro = x25519_public b ->
  match with_secret x (IntroPoint.auth_key intro) (x25519_public b) with
  | Err _ => is_ok (prepare_introduction w rendezvous intro subcredential congestion attempt) = false
  | Ok handshake => exists message plaintext,
      prepare_introduction w rendezvous intro subcredential congestion attempt = Ok (handshake, message) /\
      len message = 366 /\
      plaintext = introduce_plaintext (rv_cookie rendezvous) (rv_point rendezvous)
        (match congestion with Some _ => true | None => false end) /\
      service_open b (IntroPoint.auth_key intro) subcredential message =
        Some (client_public handshake, plaintext)
  end.
Proof.
  intros Ex La Lc Hp Eb. unfold prepare_introduction, HsNtor.new. rewrite Ex, Eb. cbn [mbind result_bind].
  destruct (with_secret x (IntroPoint.auth_key intro) (x25519_public b)) as [c|e] eqn:W; [|done].
  cbn [mbind result_bind]. set (cc := match congestion with Some _ => true | None => false end).
  destruct (introduce_plaintext_spec (rv_cookie rendezvous) (rv_point rendezvous) cc Lc Hp) as [Lp _].
  set (plaintext := introduce_plaintext _ _ _) in *. unfold INTRODUCE_PLAINTEXT_LEN in Lp.
  pose proof (introduce_keys_agree _ _ _ _ subcredential W) as K.
  set (keys := introduce_keys c subcredential) in *.
  assert (Lx : len (client_public c) = 32).
  { apply with_secret_ok in W as (s & _ & ->). apply x25519_public_len. }
  unfold assemble_introduce1, AUTH_KEY_TYPE_ED25519.
  assert (T : to_be 2 (as_u16 (len (IntroPoint.auth_key intro))) = [0; 32]) by (by rewrite La).
  rewrite T. set (enc := snd (Ctr.apply _ plaintext)).
  assert (Len : len enc = 246) by (unfold enc; rewrite apply_len; lia).
  set (header := zeros 20 ++ [2; 0; 32] ++ IntroPoint.auth_key intro ++ [0]).
  replace (zeros 20 ++ [2] ++ [0; 32] ++ IntroPoint.auth_key intro ++ [0] ++ client_public c)
    with (header ++ client_public c) by (unfold header; by rewrite <- !app_assoc).
  assert (Lh : len header = 56) by (unfold header; rewrite !len_app, La; done).
  set (body := (header ++ client_public c) ++ enc).
  assert (Lb : len body = 334) by (unfold body; rewrite !len_app; lia).
  set (tag := mac (mac_key_of keys) body). pose proof (hs_mac_len _ _ : len tag = 32) as Lt.
  assert (Lm : len (body ++ tag) = 366) by (rewrite len_app; lia).
  rewrite Lm. cbn [Z.ltb]. change (MAX_INTRODUCE1_LEN <? 366) with false. cbn [mbind result_bind].
  exists (body ++ tag), plaintext. split_and!; try done.
  unfold service_open, bytes_eqb. rewrite Lm. change (366 - 32) with 334.
  rewrite (slice_to_app body tag 334), (slice_from_app body tag 334) by lia.
  assert (S1 : slice_to (body ++ tag) 56 = header)
    by (unfold body; rewrite <- !app_assoc; apply slice_to_app; lia).
  assert (S2 : slice (body ++ tag) 56 88 = client_public c)
    by (unfold body; rewrite <- !app_assoc; apply slice_app_at; lia).
  assert (S3 : slice_from body 88 = enc) by (unfold body; apply slice_from_app; rewrite len_app; lia).
  rewrite S1, S2, S3. rewrite bool_decide_eq_true_2 by done. cbn [negb]. rewrite K. cbn [mbind option_bind].
  rewrite bool_decide_eq_true_2 by done. unfold enc. by rewrite apply_apply.
Qed.
End agreement.

Section agreement_theorem.
Context `{CryptoLaws}.

(** C15. An introduction reaches exactly the service whose keys the descriptor gave.  Whatever the rendezvous point and the terms, the INTRODUCE1 message has 366 bytes; the service, from the protocol's description, accepts it, reads back the client's public key, the cookie, whether congestion control is asked for, the rendezvous point's onion key and its link specifiers; and whatever it answers, the client derives exactly the service's keys, whatever follows the answer in the cell.  No message is prepared only when the Diffie-Hellman result is degenerate. *)
Theorem introduction_reaches_the_service w rendezvous intro subcredential congestion attempt x b :
  w_secret w attempt = Ok x -> IntroPoint.enc_key intro = x25519_public b ->
  len (IntroPoint.auth_key intro) = 32 -> len (rv_cookie rendezvous) = 20 ->
  point_ok (rv_point rendezvous) ->
  match prepare_introduction w rendezvous intro subcredential congestion attempt with
  | Err _ => x25519 x (x25519_public b) = None
  | Ok (handshake, message) =>
      len message = 366 /\
      (exists plaintext,
        service_open b (IntroPoint.auth_key intro) subcredential message =
          Some (client_public handshake, plaintext) /\
        service_read plaintext =
          Some (rv_cookie rendezvous,
                match congestion with Some _ => [EXT_CC_REQUEST] | None => [] end,
                ntor_onion_key (rv_point rendezvous),
                MkSpecifiers
                  (Some (addr_ip (rv_point rendezvous), addr_port (rv_point rendezvous)))
                  (Some (rsa_identity (rv_point rendezvous))) (ed_identity (rv_point rendezvous)))) /\
      forall y reply keys pad,
        service_reply b y (IntroPoint.auth_key intro) (client_public handshake) = Some (reply, keys) ->
        HsNtor.finish handshake (reply ++ pad) = Ok keys
  end.
Proof.
  intros Ex Eb La Lc Hp.
  pose proof (prepare_ok w rendezvous intro subcredential congestion attempt x b Ex La Lc Hp Eb) as P.
  destruct (with_secret x (IntroPoint.auth_key intro) (x25519_public b)) as [c|e] eqn:W.
  - destruct P as (message & plaintext & -> & L & -> & O). split; [done|]. split.
    + eexists. split; [exact O|].
      destruct (introduce_plaintext_spec (rv_cookie rendezvous) (rv_point rendezvous)
        (match congestion with Some _ => true | None => false end) Lc Hp) as [_ ->].
      by destruct congestion.
    + intros y reply keys pad R. by eapply finish_agrees.
  - destruct (prepare_introduction _ _ _ _ _ _); [done|].
    unfold with_secret, diffie_hellman in W. by destruct (x25519 x (x25519_public b)).
Qed.
End agreement_theorem.

(** ** What becomes of the circuits *)
Section circuits.
Context `{CryptoLaws} (w : World).

Lemma prepare_is_ok rendezvous intro subcredential congestion attempt x s :
  w_secret w attempt = Ok x -> x25519 x (IntroPoint.enc_key intro) = Some s ->
  len (IntroPoint.auth_key intro) = 32 -> len (rv_cookie rendezvous) = 20 ->
  point_ok (rv_point rendezvous) ->
  is_ok (prepare_introduction w rendezvous intro subcredential congestion attempt) = true.
Proof.
  intros Ex Es La Lc Hp. unfold prepare_introduction, HsNtor.new, with_secret, diffie_hellman.
  rewrite Ex. cbn [mbind result_bind]. rewrite Es. cbn [ok_or mbind result_bind].
  unfold assemble_introduce1, client_public. cbn [HsNtorClient.x_pub].
  rewrite (proj2 (Z.ltb_ge _ _)); [done|]. unfold MAX_INTRODUCE1_LEN, introduce_keys.
  rewrite !len_app, hs_mac_len, apply_len, len_to_be, La, x25519_public_len.
  rewrite (proj1 (introduce_plaintext_spec _ _ _ Lc Hp)). done.
Qed.

(** Circuits that are open besides [extra] ones: none. *)
Definition balanced (s : Dance.t) (extra : list nat) : Prop :=
  Dance.opened s ≡ₚ Dance.closed s ++ extra /\
  NoDup (Dance.opened s) /\ Forall (fun c => (c < Dance.calls s)%nat) (Dance.opened s).

Lemma balanced_perm s extra extra' : extra ≡ₚ extra' -> balanced s extra -> balanced s extra'.
Proof. intros E (P & N & F). split_and!; try done. by rewrite P, E. Qed.

Lemma balanced_close c s extra : balanced s (c :: extra) -> balanced (close c s) extra.
Proof.
  intros (P & N & F). unfold close, balanced. cbn. split_and!; try done.
  by rewrite P, <- app_assoc.
Qed.

(** Only the two lists and the counter matter. *)
Lemma balanced_eq s s' extra :
  Dance.opened s' = Dance.opened s -> Dance.closed s' = Dance.closed s ->
  Dance.calls s' = Dance.calls s -> balanced s extra -> balanced s' extra.
Proof. unfold balanced. by intros -> -> ->. Qed.

Lemma build_balanced relay s s' r extra :
  build_circuit_to w relay s = (s', r) -> balanced s extra ->
  balanced s' (match r with Ok c => c :: extra | Err _ => extra end) /\
  Dance.hops s' = Dance.hops s /\ Dance.congestion s' = Dance.congestion s.
Proof.
  unfold build_circuit_to. intros E (P & N & F). destruct s as [calls op cl hops cong]. cbn in *.
  assert (F' : Forall (fun c => (c < S calls)%nat) op)
    by (apply (Forall_impl _ _ _ F); intros; lia).
  destruct (w_build w calls relay); injection E as <- <-; (split; [|done]); split_and!; cbn; try done.
  - rewrite P, <- app_assoc. f_equiv. by rewrite Permutation_app_comm.
  - apply NoDup_app. split_and!; [done| |by apply NoDup_singleton].
    intros c Hc ->%list_elem_of_singleton. rewrite Forall_forall in F. apply F in Hc. lia.
  - apply Forall_app. split; [done|]. repeat constructor.
Qed.

(** One attempt closes the circuit it was given or built. *)
Lemma introduce_balanced rendezvous intro subcredential ready congestion attempt s s' r extra :
  is_ok (prepare_introduction w rendezvous intro subcredential congestion attempt) = true ->
  introduce w rendezvous intro subcredential ready congestion attempt s = (s', r) ->
  balanced s (option_list ready ++ extra) ->
  balanced s' extra /\
  match r with
  | Err _ => Dance.hops s' = Dance.hops s /\ Dance.congestion s' = Dance.congestion s
  | Ok _ => exists keys,
      Dance.hops s' = Dance.hops s ++ [(rv_circuit rendezvous, keys)] /\
      Dance.congestion s' = Dance.congestion s ++
        (match congestion with Some terms => [(rv_circuit rendezvous, terms)] | None => [] end)
  end.
Proof.
  intros P E B. unfold introduce in E.
  destruct (prepare_introduction _ _ _ _ _ _) as [[handshake message]|]; [clear P|done].
  destruct (match ready with Some _ => _ | None => _ end) as [s1 built] eqn:Eb.
  assert (B1 : balanced s1 (match built with Ok c => c :: extra | Err _ => extra end) /\
    Dance.hops s1 = Dance.hops s /\ Dance.congestion s1 = Dance.congestion s).
  { destruct ready as [c|]; [by injection Eb as <- <-|]. by eapply build_balanced. }
  destruct B1 as (B1 & Eh & Ec). destruct built as [c|e].
  2:{ injection E as <- <-. done. }
  apply balanced_close in B1.
  destruct (complete_introduction _ _ _ _ _) as [keys|e]; injection E as <- <-.
  - split.
    + destruct congestion; (eapply balanced_eq; [..|exact B1]; done).
    + exists keys. rewrite <- Eh, <- Ec. destruct congestion; cbn; [done|]. by rewrite app_nil_r.
  - split; [done|]. by rewrite <- Eh, <- Ec.
Qed.
(** The errors of the attempts a run of the loop made, oldest first: each is
    the outcome of the attempt at the next introduction point in order. *)
Inductive attempts_from (rendezvous : Rendezvous) (points : list IntroPoint.t) (subcredential : bytes)
    (congestion : option (CcParams.t * Z)) : nat -> list nat -> list io_error -> Prop :=
  | no_attempt n order : attempts_from rendezvous points subcredential congestion n order []
  | one_attempt n index order ready s s' e errors :
      w_late w n = false ->
      introduce w rendezvous (nth index points no_point) subcredential ready congestion n s = (s', Err e) ->
      attempts_from rendezvous points subcredential congestion (S n) order errors ->
      attempts_from rendezvous points subcredential congestion n (index :: order) (e :: errors).

Definition prepared_list (prepared : option (nat * nat)) : list nat :=
  match prepared with Some (_, c) => [c] | None => [] end.

(** The circuit that was prepared is for the first introduction point to come. *)
Definition prepared_first (prepared : option (nat * nat)) (order : list nat) : Prop :=
  match prepared with Some (index, _) => head order = Some index | None => True end.

(** Every attempt can be started. *)
Definition startable (rendezvous : Rendezvous) (points : list IntroPoint.t) (subcredential : bytes)
    (congestion : option (CcParams.t * Z)) (order : list nat) : Prop :=
  Forall (fun index => forall attempt,
    is_ok (prepare_introduction w rendezvous (nth index points no_point) subcredential congestion attempt)
    = true) order.

Lemma introduce_until_met_spec rendezvous points subcredential congestion order :
  forall prepared last all attempts s s' prepared' failure extra,
  startable rendezvous points subcredential congestion order ->
  prepared_first prepared order ->
  introduce_until_met w rendezvous points subcredential congestion order prepared last all attempts s
    = (s', prepared', failure) ->
  balanced s (prepared_list prepared ++ extra) ->
  balanced s' (prepared_list prepared' ++ extra) /\
  match failure with
  | None =>
      prepared' = None /\
      exists keys, Dance.hops s' = Dance.hops s ++ [(rv_circuit rendezvous, keys)] /\
        Dance.congestion s' = Dance.congestion s ++
          (match congestion with Some terms => [(rv_circuit rendezvous, terms)] | None => [] end)
  | Some f =>
      Dance.hops s' = Dance.hops s /\ Dance.congestion s' = Dance.congestion s /\
      exists errors, attempts_from rendezvous points subcredential congestion attempts order errors /\
        descriptor_is_stale f =
          (0 <? attempts + length errors)%nat && all && forallb is_unrecognized_key errors
  end.
Proof.
  induction order as [|index order IH]; intros prepared last all attempts s s' prepared' failure extra
    St Pf E B; cbn [introduce_until_met] in E.
  - injection E as <- <- <-. split; [done|]. split_and!; try done. exists [].
    split; [constructor|]. cbn. by rewrite Nat.add_0_r, andb_true_r.
  - destruct (w_late w attempts) eqn:Lt.
    { injection E as <- <- <-. split; [done|]. split_and!; try done. exists [].
      split; [constructor|]. cbn. by rewrite Nat.add_0_r, andb_true_r. }
    inversion_clear St as [|? ? S1 St'].
    destruct (match prepared with Some _ => _ | None => _ end) as [ready prepared1] eqn:Er.
    assert (B1 : prepared1 = None /\ balanced s (option_list ready ++ extra)).
    { destruct prepared as [[j c]|]; cbn in Pf.
      - injection Pf as ->. rewrite Nat.eqb_refl in Er. by injection Er as <- <-.
      - by injection Er as <- <-. }
    destruct B1 as [-> B1].
    destruct (introduce w rendezvous _ subcredential ready congestion attempts s) as [s1 r] eqn:I.
    pose proof I as I0. eapply introduce_balanced in I as [B2 R]; [|apply S1|exact B1].
    destruct r as [u|e].
    + injection E as <- <- <-. by split.
    + apply (IH None _ _ _ _ _ _ _ extra) in E as [B3 R3]; [|done|done|exact B2].
      split; [done|]. destruct R as [Eh Ec]. rewrite <- Eh, <- Ec. destruct failure as [f|]; [|done].
      destruct R3 as (-> & -> & errors & A & ->). split_and!; try done.
      exists (e :: errors). split; [by econstructor|]. cbn [forallb length].
      rewrite Nat.add_succ_r. cbn [Nat.add]. by rewrite !andb_assoc.
Qed.

Lemma open_rendezvous_spec s s' r extra :
  open_rendezvous w s = (s', r) -> balanced s extra ->
  balanced s' (match r with Ok rv => rv_circuit rv :: extra | Err _ => extra end) /\
  Dance.hops s' = Dance.hops s /\ Dance.congestion s' = Dance.congestion s /\
  match r with Ok rv => w_point w = Ok (rv_point rv) /\ w_cookie w = Ok (rv_cookie rv) | Err _ => True end.
Proof.
  unfold open_rendezvous. intros E B. destruct (w_point w) as [point|]; [|by injection E as <- <-].
  destruct (build_circuit_to w point s) as [s1 [c|e]] eqn:Eb;
    apply build_balanced with (extra := extra) in Eb as (B1 & Eh & Ec); try done.
  2:{ by injection E as <- <-. }
  destruct (w_cookie w) as [cookie|].
  2:{ injection E as <- <-. split; [by apply balanced_close|done]. }
  destruct (w_control w c _ cookie _); injection E as <- <-; [done|].
  split; [by apply balanced_close|done].
Qed.

Lemma close_prepared_balanced prepared s extra :
  balanced s (prepared_list prepared ++ extra) -> balanced (close_prepared prepared s) extra.
Proof. destruct prepared as [[j c]|]; [apply balanced_close|done]. Qed.
(** Closing both circuits after a failure. *)
Lemma close_both prepared c s :
  balanced s (prepared_list prepared ++ [c]) ->
  balanced (close_prepared prepared (close c s)) [] /\
  Dance.hops (close_prepared prepared (close c s)) = Dance.hops s /\
  Dance.congestion (close_prepared prepared (close c s)) = Dance.congestion s.
Proof.
  intros B. apply (balanced_perm _ _ (c :: prepared_list prepared ++ [])) in B.
  2:{ rewrite app_nil_r. by rewrite Permutation_app_comm. }
  split; [by apply balanced_close, close_prepared_balanced in B|]. by destruct prepared as [[]|].
Qed.

(** The first introduction circuit, built while the rendezvous point is set up. *)
Lemma prepare_first_spec points todo s s' prepared extra :
  match todo with
  | [] => (s, None)
  | index :: _ =>
      let '(s, built) := build_circuit_to w (IntroPoint.relay (nth index points no_point)) s in
      (s, match built with Ok circuit => Some (index, circuit) | Err _ => None end)
  end = (s', prepared) ->
  balanced s extra ->
  balanced s' (prepared_list prepared ++ extra) /\ prepared_first prepared todo /\
  Dance.hops s' = Dance.hops s /\ Dance.congestion s' = Dance.congestion s.
Proof.
  intros E B. destruct todo as [|i todo]; [by injection E as <- <-|].
  destruct (build_circuit_to w _ s) as [s3 built] eqn:Eb. injection E as <- <-.
  eapply build_balanced in Eb as (B' & Eh & Ec); [|exact B].
  by destruct built.
Qed.

(** What the descriptor, the keys and the point must be for every attempt to
    be startable. *)
Definition all_startable (descriptor : Descriptor.t) : Prop :=
  (forall point, w_point w = Ok point -> point_ok point) /\
  (forall cookie, w_cookie w = Ok cookie -> len cookie = 20) /\
  forall attempt, exists x, w_secret w attempt = Ok x /\
    Forall (fun p => is_Some (x25519 x (IntroPoint.enc_key p)) /\ len (IntroPoint.auth_key p) = 32)
      (Descriptor.intro_points descriptor).

Lemma startable_points descriptor rv subcredential congestion order :
  all_startable descriptor -> w_point w = Ok (rv_point rv) -> w_cookie w = Ok (rv_cookie rv) ->
  Forall (fun i => i < length (Descriptor.intro_points descriptor))%nat order ->
  startable rv (Descriptor.intro_points descriptor) subcredential congestion order.
Proof.
  intros (Hp & Hc & Hs) Ep Ec F. apply (Forall_impl _ _ _ F). intros i Hi attempt.
  destruct (Hs attempt) as (x & Ex & Fp).
  rewrite Forall_forall in Fp. destruct (Fp (nth i (Descriptor.intro_points descriptor) no_point)) as [[z Ez] La].
  { apply list_elem_of_In, nth_In, Hi. }
  eapply prepare_is_ok; eauto.
Qed.

(** Reaching an onion service leaves no circuit behind.  Whatever the network answers and however far it gets, every circuit that was built is closed exactly once, except the one that is returned; that one has gained exactly one hop, with the keys of the handshake that succeeded, and congestion control exactly on the terms the descriptor and the consensus agree on.  After a failure no hop was added, and the descriptor is called stale only when at least one introduction point was tried and every one that was said it does not know the key. *)
Theorem establish_leaves_nothing_open cc_onion descriptor subcredential ds order rest s out :
  all_startable descriptor ->
  Rand.shuffle (seq 0 (length (Descriptor.intro_points descriptor))) ds = Rand.Done (Ok order) rest ->
  establish w cc_onion descriptor subcredential ds Dance.start = Some (s, out) ->
  NoDup (Dance.opened s) /\
  Dance.opened s ≡ₚ Dance.closed s ++ (match out with inl c => [c] | inr _ => [] end) /\
  match out with
  | inl c =>
      (exists keys, Dance.hops s = [(c, keys)]) /\
      Dance.congestion s =
        (match congestion_from (Descriptor.flow_control descriptor) cc_onion with
         | Some terms => [(c, terms)] | None => [] end)
  | inr f =>
      Dance.hops s = [] /\ Dance.congestion s = [] /\
      (descriptor_is_stale f = true -> exists rv points errors,
        (forall p, p ∈ points -> (p < length (Descriptor.intro_points descriptor))%nat) /\
        attempts_from rv (Descriptor.intro_points descriptor) subcredential
          (congestion_from (Descriptor.flow_control descriptor) cc_onion) 0 points errors /\
        errors <> [] /\ Forall (fun e => kind e = InvalidInput) errors)
  end.
Proof.
  intros St Sh. unfold establish. rewrite Sh. set (points := Descriptor.intro_points descriptor) in *.
  assert (Fo : Forall (fun i => i < length points)%nat (take INTRO_ATTEMPTS order)).
  { apply Forall_take. apply shuffle_permutation in Sh. rewrite Sh.
    apply Forall_forall. intros i Hi. apply elem_of_seq in Hi. lia. }
  set (todo := take INTRO_ATTEMPTS order) in *. clearbody todo.
  assert (B0 : balanced Dance.start []) by (split_and!; [done|constructor|constructor]).
  destruct (open_rendezvous w Dance.start) as [s1 rv] eqn:Ev.
  apply open_rendezvous_spec with (extra := []) in Ev as (B1 & Eh & Ec & Ew); [|done]. intros E.
  destruct (match todo with [] => _ | _ => _ end) as [s2 prepared] eqn:Ep.
  eapply prepare_first_spec in Ep as (B2 & Pf & Eh2 & Ec2); [|exact B1].
  rewrite Eh in Eh2. rewrite Ec in Ec2. clear B1 Eh Ec.
  destruct rv as [rv|e].
  2:{ injection E as <- <-. apply close_prepared_balanced in B2 as (P & N & _).
      destruct prepared as [[]|]; (split_and!; [exact N|exact P|exact Eh2|exact Ec2|done]). }
  destruct (introduce_until_met w rv points _ _ todo prepared None true 0 s2) as [[s3 prepared'] failure] eqn:Ei.
  apply introduce_until_met_spec with (extra := [rv_circuit rv]) in Ei as [B3 R]; [| |done|done].
  2:{ destruct Ew. by apply startable_points. }
  destruct failure as [f|]; injection E as <- <-.
  - destruct R as (Eh3 & Ec3 & errors & A & Es).
    apply close_both in B3 as ((P & N & _) & Eh4 & Ec4).
    split_and!; [exact N|exact P| | |].
    + by rewrite Eh4, Eh3.
    + by rewrite Ec4, Ec3.
    + intros T. rewrite Es in T. apply andb_prop in T as [T1 T2]. apply andb_prop in T1 as [T1 _].
      exists rv, todo, errors. split_and!; try done.
      * by apply Forall_forall.
      * by destruct errors.
      * apply Forall_forall. intros x Hx. rewrite forallb_forall in T2.
        apply list_elem_of_In, T2 in Hx. unfold is_unrecognized_key in Hx. by b2p.
  - destruct R as (-> & keys & Eh3 & Ec3). destruct B3 as (P & N & _). cbn in P.
    split_and!; [exact N|exact P| |].
    + exists keys. by rewrite Eh3, Eh2.
    + by rewrite Ec3, Ec2.
Qed.
End circuits.

(** ** A concrete meeting *)
Module RendezvousDemo.
Import Toy.

Definition point : RelayInfo := MkRelay [192; 0; 2; 1] 443 (replicate 20 8) None (replicate 32 9).
Definition cookie : bytes := replicate 20 77.
Definition b : bytes := replicate 32 3.
Definition intro (n : Z) : IntroPoint.t :=
  IntroPoint.Mk (DescriptorDemo.introduction_relay n) (replicate 32 n) (x25519_public b).
Definition descriptor : Descriptor.t :=
  Descriptor.Mk 180 42 (map intro [1; 2; 3; 4]) (Some (FlowControl.Mk 2 31)).
Definition secret (n : nat) : bytes := to_be 32 (1000 + Z.of_nat n).

(** The first introduction point tried does not know the key, the second one
    takes the message, and the service answers. *)
Definition world : World := MkWorld (Ok point) (fun _ _ => Ok tt) (Ok cookie)
  (fun c command _ _ => if (c =? 1)%nat then Ok [0; 1] else Ok [0; 0])
  (fun _ attempt =>
    match service_reply b (replicate 32 5) (replicate 32 2) (x25519_public (secret attempt)) with
    | Some (reply, _) => Ok reply | None => Err (invalid_data "") end)
  (fun n => Ok (secret n)) (fun _ => false).

(** Every draw takes the last element, which keeps the order. *)
Definition draws : Rand.draws := [Ok 3; Ok 2; Ok 1].

Lemma startable_demo : all_startable world descriptor.
Proof.
  split_and!.
  - intros p [= <-]. split; [split_and!|]; by vm_compute.
  - by intros c [= <-].
  - intros attempt. exists (secret attempt). split; [done|].
    repeat (constructor; [split; [by eexists|by vm_compute]|]). constructor.
Qed.

Definition final : Dance.t :=
  match establish world (CcParams.defaults Cc.Onion) descriptor (replicate 32 6) draws Dance.start
  with Some (s, _) => s | None => Dance.start end.

Lemma run_final :
  establish world (CcParams.defaults Cc.Onion) descriptor (replicate 32 6) draws Dance.start
  = Some (final, inl 0%nat).
Proof. by vm_compute. Qed.

Lemma shuffle_drawn : Rand.shuffle (seq 0 (length (Descriptor.intro_points descriptor))) draws = Rand.Done (Ok [0%nat; 1%nat; 2%nat; 3%nat]) [].
Proof. by vm_compute. Qed.

Lemma final_opened : Dance.opened final = [0%nat; 1%nat; 2%nat].
Proof. by vm_compute. Qed.

Lemma establish_witness :
  Dance.opened final = [0%nat; 1%nat; 2%nat] /\ Dance.opened final ≡ₚ Dance.closed final ++ [0%nat] /\
  exists keys, Dance.hops final = [(0%nat, keys)].
Proof.
  destruct (establish_leaves_nothing_open world (CcParams.defaults Cc.Onion) descriptor (replicate 32 6)
    draws _ _ final (inl 0%nat) startable_demo shuffle_drawn run_final) as (_ & P & H & _).
  split; [exact final_opened|]. split; [exact P|exact H].
Defined.

Lemma introduction_witness :
  match prepare_introduction world (MkRendezvous 0 point cookie) (intro 2) (replicate 32 6) None 7 with
  | Err _ => False
  | Ok (_, message) => len message = 366
  end.
Proof.
  pose proof (introduction_reaches_the_service world (MkRendezvous 0 point cookie) (intro 2) (replicate 32 6)
    None 7 (secret 7) b eq_refl eq_refl eq_refl eq_refl) as P.
  assert (Hp : point_ok point) by (split; [split_and!|]; by vm_compute).
  specialize (P Hp). destruct (prepare_introduction _ _ _ _ _ _) as [[c m]|e].
  - exact (proj1 P).
  - by vm_compute in P.
Defined.

(** The same functions, but with X25519 refusing the zero key as OpenSSL does. *)
#[local] Instance refusing : Crypto := {|
  keystream := @keystream Toy.crypto; hash := @hash Toy.crypto; shake256 := @shake256 Toy.crypto;
  hmac_sha256 := @hmac_sha256 Toy.crypto;
  x25519 := fun a p => if bool_decide (p = zeros 32) then None else @x25519 Toy.crypto a p;
  x25519_public := @x25519_public Toy.crypto; ed25519_verify := @ed25519_verify Toy.crypto;
  rsa_parse := @rsa_parse Toy.crypto; rsa_verify_recover := @rsa_verify_recover Toy.crypto;
|}.

(** A descriptor whose first introduction point names a degenerate key: the
    circuit prepared for it is dropped without being closed. *)
Example degenerate_key_leaks_the_prepared_circuit :
  let bad := IntroPoint.Mk (DescriptorDemo.introduction_relay 9) (replicate 32 9) (zeros 32) in
  let out := @establish refusing world (CcParams.defaults Cc.Onion) (Descriptor.Mk 180 42 [bad] None)
               (replicate 32 6) [] Dance.start in
  match out with
  | Some (s, inr _) => Dance.opened s = [0%nat; 1%nat] /\ Dance.closed s = [0%nat]
  | _ => False
  end.
Proof. by vm_compute. Qed.

(** When the shuffle has no randomness the rendezvous circuit is left to a
    thread nobody waits for, and is not closed. *)
Example failed_shuffle_leaks_the_rendezvous_circuit :
  let out := @establish Toy.crypto world (CcParams.defaults Cc.Onion) descriptor (replicate 32 6)
               [Err (other_error "RAND_bytes")] Dance.start in
  match out with
  | Some (s, inr _) => Dance.opened s = [0%nat] /\ Dance.closed s = []
  | _ => False
  end.
Proof. by vm_compute. Qed.
End RendezvousDemo.
