(* ===== verification/Socks5.v ===== *)
(** * The proxy front end ([src/src/socks5.rs], the counters of [src/src/status.rs])

    SOCKS5, SOCKS4a and HTTP CONNECT on one port.  A connection is the bytes
    that arrive before it ends ([stop] says how) and the bytes written to it;
    a handler is a function on it that returns a result.  The theorems say that
    a request in any of the three protocols is read exactly, without taking a
    byte of what follows; what is accepted; and what the client is told. *)
From S2P Require Import Prelude.
From S2P Require Import Text.
From S2P Require Import Crypto.
From S2P Require Import Relay.
From S2P Require Import Circuit.
From S2P Require Import Onion.
From S2P Require Import Netdoc.

Definition VERSION : Z := 5.
Definition SOCKS4_VERSION : Z := 4.
Definition METHOD_NO_AUTH : Z := 0.
Definition METHOD_USER_PASS : Z := 2.
Definition METHOD_NONE_ACCEPTABLE : Z := 255.
Definition SOCKS4_GRANTED : Z := 90.
Definition SOCKS4_REJECTED : Z := 91.
Definition MAX_HTTP_HEADER_BYTES : Z := 8 * 1024.
Definition CMD_CONNECT : Z := 1.
Definition ATYP_IPV4 : Z := 1.
Definition ATYP_DOMAIN : Z := 3.
Definition ATYP_IPV6 : Z := 4.
Definition REP_SUCCEEDED : Z := 0.
Definition REP_GENERAL_FAILURE : Z := 1.
Definition REP_NOT_ALLOWED : Z := 2.
Definition REP_HOST_UNREACHABLE : Z := 4.
Definition REP_CONNECTION_REFUSED : Z := 5.
Definition REP_TTL_EXPIRED : Z := 6.
Definition REP_COMMAND_NOT_SUPPORTED : Z := 7.
Definition REP_ADDRESS_TYPE_NOT_SUPPORTED : Z := 8.

Inductive Protocol := Socks5 | Socks4 | Http.

#[export] Instance Protocol_eq_dec : EqDecision Protocol.
Proof. solve_decision. Defined.

Record Request := MkRequest { host : bytes; port : Z; protocol : Protocol }.
Inductive Asked := AskedConnect (r : Request) | AskedStatus.

(** ** A connection *)
Module Sock.
Record t := Mk { input : bytes; output : bytes }.
End Sock.

Definition Io (A : Type) : Type := Sock.t -> result A * Sock.t.

#[export] Instance io_ret : MRet Io := fun A a s => (Ok a, s).
#[export] Instance io_bind : MBind Io := fun A C f m s =>
  let '(r, s) := m s in
  match r with Ok a => f a s | Err e => (Err e, s) end.

Definition fail {A} (e : io_error) : Io A := fun s => (Err e, s).
Definition lift {A} (r : result A) : Io A := fun s => (r, s).

(** ** String functions only this file uses *)

Definition ends_with (s p : bytes) : bool :=
  match strip_suffix p s with Some _ => true | None => false end.

(** The first piece of [split] with a string pattern. *)
Definition before (s p : bytes) : bytes :=
  match find s p with Some i => slice_to s i | None => s end.

Definition rsplit_once (c : Z) (s : bytes) : option (bytes * bytes) :=
  match split_once c (rev s) with Some (x, y) => Some (rev y, rev x) | None => None end.

(** [trim_matches] with a set of one-byte characters. *)
Fixpoint skip_any (cs : list Z) (s : bytes) : bytes :=
  match s with
  | b :: s' => if existsb (Z.eqb b) cs then skip_any cs s' else s
  | [] => []
  end.
Definition trim_matches (cs : list Z) (s : bytes) : bytes := rev (skip_any cs (rev (skip_any cs s))).

(** [Ipv4Addr]'s [Display]. *)
Definition show_ip (ip : bytes) : bytes := Text.join 46 (map show_uint ip).

Definition CRLF : bytes := [CR; NL].

(** ** The handshakes *)
Section negotiate.
Context (stop : io_error) (can_write : bytes -> result unit).

Definition read_exact (n : Z) : Io bytes := fun s =>
  if n <=? len (Sock.input s)
  then (Ok (slice_to (Sock.input s) n), s{{Sock.input := slice_from (Sock.input s) n}})
  else (Err stop, s{{Sock.input := [] }}).

(** Whether a write works may depend on all that was written before. *)
Definition write_all (data : bytes) : Io unit := fun s =>
  match can_write (Sock.output s) with
  | Ok _ => (Ok tt, s{{Sock.output := Sock.output s ++ data}})
  | Err e => (Err e, s)
  end.

Definition read_byte : Io Z := b ← read_exact 1; mret (byte_at b 0).

Definition http_status (code : Z) : bytes :=
  if code =? REP_SUCCEEDED then B "200 Connection established"
  else if code =? REP_NOT_ALLOWED then B "403 Forbidden"
  else if code =? REP_HOST_UNREACHABLE then B "404 Not Found"
  else if code =? REP_CONNECTION_REFUSED then B "502 Bad Gateway"
  else if code =? REP_TTL_EXPIRED then B "504 Gateway Timeout"
  else B "502 Bad Gateway".

Definition reply_bytes (protocol : Protocol) (code : Z) : bytes :=
  match protocol with
  | Socks5 => [VERSION; code; 0; ATYP_IPV4; 0; 0; 0; 0; 0; 0]
  | Socks4 =>
      let status := if code =? REP_SUCCEEDED then SOCKS4_GRANTED else SOCKS4_REJECTED in
      [0; status; 0; 0; 0; 0; 0; 0]
  | Http =>
      let closing := if code =? REP_SUCCEEDED then [] else B "Connection: close" ++ CRLF in
      B "HTTP/1.1 " ++ http_status code ++ CRLF ++ closing ++ CRLF
  end.

Definition send_reply (protocol : Protocol) (code : Z) : Io unit := write_all (reply_bytes protocol code).

(** [send_reply(..)?] and then the error. *)
Definition refuse {A} (protocol : Protocol) (code : Z) (e : io_error) : Io A :=
  _ ← send_reply protocol code; fail e.

(** One length-prefixed field, thrown away. *)
Definition skip_field : Io unit := n ← read_byte; _ ← read_exact n; mret tt.

Definition read_username_password : Io unit :=
  version ← read_byte;
  if negb (version =? 1) then fail (invalid_data "unsupported username/password version {}")
  else _ ← skip_field; skip_field.

Definition choose_method (methods : bytes) : Io unit :=
  if existsb (Z.eqb METHOD_NO_AUTH) methods then write_all [VERSION; METHOD_NO_AUTH]
  else if existsb (Z.eqb METHOD_USER_PASS) methods then
    _ ← write_all [VERSION; METHOD_USER_PASS];
    _ ← read_username_password;
    write_all [1; 0]
  else
    _ ← write_all [VERSION; METHOD_NONE_ACCEPTABLE];
    fail (invalid_data "client offered no acceptable auth method").

Definition read_host (atyp : Z) : Io bytes :=
  if atyp =? ATYP_IPV4 then addr ← read_exact 4; mret (show_ip addr)
  else if atyp =? ATYP_DOMAIN then
    n ← read_byte;
    name ← read_exact n;
    if utf8_valid name then mret name else fail (invalid_data "host name is not UTF-8")
  else if atyp =? ATYP_IPV6 then
    _ ← read_exact 16;
    _ ← read_exact 2;
    refuse Socks5 REP_ADDRESS_TYPE_NOT_SUPPORTED (invalid_data "IPv6 destinations are not supported")
  else refuse Socks5 REP_ADDRESS_TYPE_NOT_SUPPORTED (invalid_data "unknown address type {other}").

(** The check all three protocols end with. *)
Definition accept (host : bytes) (port : Z) (protocol : Protocol) : Io Request :=
  if (port =? 0) || bytes_eqb host []
  then refuse protocol REP_GENERAL_FAILURE (invalid_data "empty host or port")
  else mret (MkRequest host port protocol).

Definition negotiate_socks5 : Io Request :=
  count ← read_byte;
  methods ← read_exact count;
  _ ← choose_method methods;
  header ← read_exact 4;
  if negb (byte_at header 0 =? VERSION) then fail (invalid_data "bad SOCKS version in request")
  else if negb (byte_at header 1 =? CMD_CONNECT) then
    refuse Socks5 REP_COMMAND_NOT_SUPPORTED (invalid_data "unsupported command {}")
  else
    host ← read_host (byte_at header 3);
    port ← read_exact 2;
    accept host (from_be port) Socks5.

(** One byte at a time, so the recursion is on the bytes that arrive. *)
Fixpoint until_nul (input : bytes) (limit : Z) (out : bytes) : result bytes * bytes :=
  match input with
  | [] => (Err stop, [])
  | b :: input =>
      if b =? 0 then (Ok out, input)
      else if limit <=? len out then (Err (invalid_data "SOCKS4 field is too long"), input)
      else until_nul input limit (out ++ [b])
  end.

Definition read_until_nul (limit : Z) : Io bytes := fun s =>
  let '(r, rest) := until_nul (Sock.input s) limit [] in (r, s{{Sock.input := rest}}).

Definition negotiate_socks4 : Io Request :=
  header ← read_exact 7;
  let command := byte_at header 0 in
  let port := from_be (slice header 1 3) in
  let addr := slice header 3 7 in
  if negb (command =? CMD_CONNECT) then
    refuse Socks4 REP_COMMAND_NOT_SUPPORTED (invalid_data "unsupported SOCKS4 command {command}")
  else
    _ ← read_until_nul 256;
    let is_4a := (byte_at addr 0 =? 0) && (byte_at addr 1 =? 0) && (byte_at addr 2 =? 0)
                 && negb (byte_at addr 3 =? 0) in
    host ← (if is_4a then
              name ← read_until_nul 256;
              if utf8_valid name then mret name
              else fail (invalid_data "SOCKS4a host name is not UTF-8")
            else mret (show_ip addr));
    accept host port Socks4.

Fixpoint http_head (input head : bytes) : result bytes * bytes :=
  if ends_with head (CRLF ++ CRLF) then (Ok head, input)
  else if MAX_HTTP_HEADER_BYTES <=? len head
  then (Err (invalid_data "HTTP request headers are too long"), input)
  else
    match input with
    | [] => (Err stop, [])
    | b :: input =>
        let head := head ++ [b] in
        if ends_with head [NL; NL] then (Ok head, input) else http_head input head
    end.

Definition read_http_head (first : Z) : Io bytes := fun s =>
  let '(r, rest) := http_head (Sock.input s) [first] in
  (match r with
   | Ok head => if utf8_valid head then Ok head else Err (invalid_data "HTTP request is not UTF-8")
   | Err e => Err e
   end, s{{Sock.input := rest}}).

Definition NOT_CONNECT : bytes :=
  B "This is a Tor proxy. Use CONNECT, or point a SOCKS client at this port (socks5h://). The status page is at /status."
    ++ [NL].

Definition not_implemented : bytes :=
  B "HTTP/1.1 501 Not Implemented" ++ CRLF ++ B "Content-Type: text/plain" ++ CRLF ++
  B "Content-Length: " ++ show_uint (len NOT_CONNECT) ++ CRLF ++ B "Connection: close" ++ CRLF ++
  CRLF ++ NOT_CONNECT.

(** Where a CONNECT goes. *)
Definition connect_target (target : bytes) : result (bytes * Z) :=
  match rsplit_once 58 target with
  | Some (host, port) =>
      port ← ok_or (parse_uint U16_MAX port) (invalid_data "bad CONNECT port in {target:?}");
      Ok (trim_matches [91; 93] host, port)
  | None => Ok (target, 443)
  end.

Definition negotiate_http (first : Z) : Io Asked :=
  head ← read_http_head first;
  let fields := split_whitespace (before head CRLF) in
  let method := hd [] fields in
  let target := hd [] (tail fields) in
  if bytes_eqb method (B "GET") && (bytes_eqb target (B "/status") || starts_with target (B "/status?"))
  then mret AskedStatus
  else if negb (eq_ignore_ascii_case method (B "CONNECT")) then
    _ ← write_all not_implemented;
    fail (invalid_data "HTTP method {method:?} is not supported; only CONNECT is")
  else
    '(host, port) ← lift (connect_target target);
    r ← accept host port Http;
    mret (AskedConnect r).

Definition negotiate : Io Asked :=
  first ← read_byte;
  if first =? VERSION then r ← negotiate_socks5; mret (AskedConnect r)
  else if first =? SOCKS4_VERSION then r ← negotiate_socks4; mret (AskedConnect r)
  else if (65 <=? first) && (first <=? 90) then negotiate_http first
  else fail (invalid_data "connection starts with {other:#04x}, which is no protocol we speak").
End negotiate.

(** ** Where a request goes, and what a failure is called *)

Inductive Destination := ToExit | ToOnion (a : OnionAddress).

(** [None] where slicing the host name panics. *)
Definition classify `{Crypto} (host : bytes) : option (result Destination) :=
  onion ← is_onion host;
  if negb onion then Some (Ok ToExit)
  else
    parsed ← Onion.parse host;
    Some (match parsed with
          | Ok a => Ok (ToOnion a)
          | Err e => Err (IoError NotFound (Prelude.payload e))
          end).

Definition reply_code (e : io_error) : Z :=
  match Prelude.payload e with
  | StreamEnd reason =>
      if reason =? END_REASON_EXITPOLICY then REP_NOT_ALLOWED
      else if (reason =? END_REASON_RESOLVEFAILED) || (reason =? END_REASON_NOROUTE)
      then REP_HOST_UNREACHABLE
      else if reason =? END_REASON_CONNECTREFUSED then REP_CONNECTION_REFUSED
      else if reason =? END_REASON_TIMEOUT then REP_TTL_EXPIRED
      else REP_GENERAL_FAILURE
  | Message _ =>
      match kind e with
      | ConnectionRefused => REP_CONNECTION_REFUSED
      | TimedOut => REP_TTL_EXPIRED
      | NotFound => REP_HOST_UNREACHABLE
      | PermissionDenied => REP_NOT_ALLOWED
      | _ => REP_GENERAL_FAILURE
      end
  end.

(** ** The counters of the status page *)
Module Counters.
Record t := Mk {
  accepted : Z; handshake_failed : Z; status_requests : Z; socks5 : Z; socks4 : Z;
  http_connect : Z; onion : Z; succeeded : Z; active : Z; bytes_up : Z; bytes_down : Z;
  failed : list Z;
}.
Definition new : t := Mk 0 0 0 0 0 0 0 0 0 0 0 (replicate 9 0).
End Counters.

(** [fetch_add] and [fetch_sub] wrap. *)
Definition u64 (z : Z) : Z := z mod 2 ^ 64.

Definition failed (code : Z) (c : Counters.t) : Counters.t :=
  let i := Z.to_nat (Z.min code (len (Counters.failed c) - 1)) in
  c{{Counters.failed := alter (fun n => u64 (n + 1)) i (Counters.failed c)}}.

Definition count_protocol (p : Protocol) (c : Counters.t) : Counters.t :=
  match p with
  | Socks5 => c{{Counters.socks5 := u64 (Counters.socks5 c + 1)}}
  | Socks4 => c{{Counters.socks4 := u64 (Counters.socks4 c + 1)}}
  | Http => c{{Counters.http_connect := u64 (Counters.http_connect c + 1)}}
  end.

(** ** The whole handler *)

(** What the operating system, the Tor client and the copying threads answer.
    [t_client] is [None] for a client that never becomes ready. *)
Record Tor := MkTor {
  t_timeout : result unit;                                (* set_read_timeout *)
  t_page : bool -> bytes;                                 (* status::render, by whether it is ready *)
  t_ready : bool;                                         (* set_ready has been called *)
  t_ever_ready : bool;                                    (* it is called some time *)
  t_exit : bytes -> Z -> result nat;                      (* TorClient::connect *)
  t_onion : OnionAddress -> Z -> result nat;              (* TorClient::connect_onion *)
  t_relay : nat -> Z * Z * result unit;                   (* bytes up, bytes down, and how it ended *)
}.

Module World.
Record t := Mk {
  sock : Sock.t;
  counters : Counters.t;
  streams : list nat;   (* opened and not yet closed *)
}.
End World.

Inductive outcome := Finished (w : World.t) | Waiting (w : World.t) | Panicked (w : World.t).

Definition outcome_world (o : outcome) : World.t :=
  match o with Finished w | Waiting w | Panicked w => w end.

Section handle.
Context `{Crypto} (stop : io_error) (can_write : bytes -> result unit) (tor : Tor).

Definition serve_status (w : World.t) : World.t :=
  let body := t_page tor (t_ready tor) in
  let response :=
    B "HTTP/1.1 200 OK" ++ CRLF ++ B "Content-Type: application/json" ++ CRLF ++
    B "Cache-Control: no-store" ++ CRLF ++ B "Content-Length: " ++ show_uint (len body) ++ CRLF ++
    B "Connection: close" ++ CRLF ++ CRLF ++ body in
  w{{World.sock := snd (write_all can_write response (World.sock w))}}.

(** [connect], where [None] is the panic of [classify]. *)
Definition connect (r : Request) : option (result nat) :=
  destination ← classify (host r);
  Some (d ← destination;
        match d with
        | ToExit => t_exit tor (host r) (port r)
        | ToOnion a => t_onion tor a (port r)
        end).

Definition bump (f : Counters.t -> Counters.t) (w : World.t) : World.t :=
  w{{World.counters := f (World.counters w)}}.

Definition reply (p : Protocol) (code : Z) (w : World.t) : World.t * result unit :=
  let '(r, s) := send_reply can_write p code (World.sock w) in (w{{World.sock := s}}, r).

Definition close_stream (n : nat) (w : World.t) : World.t :=
  w{{World.streams := filter (fun m => m <> n) (World.streams w)}}.

(** The part between the success reply and the end. *)
Definition tunnel (stream : nat) (w : World.t) : World.t :=
  let w := bump (fun c => c{{Counters.succeeded := u64 (Counters.succeeded c + 1)}}) w in
  let w := bump (fun c => c{{Counters.active := u64 (Counters.active c + 1)}}) w in
  let '(up, down, _) := t_relay tor stream in
  let w := bump (fun c => c{{Counters.bytes_up := u64 (Counters.bytes_up c + up)}}) w in
  let w := bump (fun c => c{{Counters.bytes_down := u64 (Counters.bytes_down c + down)}}) w in
  let w := bump (fun c => c{{Counters.active := u64 (Counters.active c - 1)}}) w in
  close_stream stream w.

Definition serve (request : Request) (w : World.t) : outcome :=
  let w := bump (count_protocol (protocol request)) w in
  match is_onion (host request) with
  | None => Panicked w
  | Some onion =>
      let w := if onion then bump (fun c => c{{Counters.onion := u64 (Counters.onion c + 1)}}) w else w in
      if negb (t_ready tor || t_ever_ready tor) then Waiting w
      else
        match connect request with
        | None => Panicked w
        | Some (Err e) =>
            let w := bump (failed (reply_code e)) w in
            Finished (fst (reply (protocol request) (reply_code e) w))
        | Some (Ok stream) =>
            let w := w{{World.streams := stream :: World.streams w}} in
            let '(w, sent) := reply (protocol request) REP_SUCCEEDED w in
            match sent with
            | Err _ => Finished (close_stream stream w)
            | Ok _ => Finished (tunnel stream w)
            end
        end
  end.

Definition handle (w : World.t) : outcome :=
  let w := bump (fun c => c{{Counters.accepted := u64 (Counters.accepted c + 1)}}) w in
  match t_timeout tor with
  | Err _ => Finished w
  | Ok _ =>
      let '(asked, s) := negotiate stop can_write (World.sock w) in
      let w := w{{World.sock := s}} in
      match asked with
      | Ok (AskedConnect request) => serve request w
      | Ok AskedStatus =>
          Finished (serve_status
            (bump (fun c => c{{Counters.status_requests := u64 (Counters.status_requests c + 1)}}) w))
      | Err _ =>
          Finished (bump (fun c => c{{Counters.handshake_failed := u64 (Counters.handshake_failed c + 1)}}) w)
      end
  end.
End handle.

(** ** Reading exactly the request *)
Section reading.
Context (stop : io_error) (can_write : bytes -> result unit).

Lemma read_exact_front n p rest out :
  len p = n -> read_exact stop n (Sock.Mk (p ++ rest) out) = (Ok p, Sock.Mk rest out).
Proof.
  intros <-. unfold read_exact. cbn [Sock.input].
  rewrite (proj2 (Z.leb_le _ _)) by (rewrite len_app; pose proof (len_nonneg rest); lia).
  by rewrite slice_to_app, slice_from_app by done.
Qed.

Lemma read_byte_cons b rest out : read_byte stop (Sock.Mk (b :: rest) out) = (Ok b, Sock.Mk rest out).
Proof.
  unfold read_byte, mbind, io_bind. change (b :: rest) with ([b] ++ rest).
  by rewrite read_exact_front.
Qed.

Lemma parse_bind_ok {A C} (m : Io A) (f : A -> Io C) s a s' : m s = (Ok a, s') -> (m ≫= f) s = f a s'.
Proof. unfold mbind, io_bind. by intros ->. Qed.

Lemma skip_field_app f rest out :
  len f < 256 -> skip_field stop (Sock.Mk (len f :: f ++ rest) out) = (Ok tt, Sock.Mk rest out).
Proof.
  intros _. unfold skip_field. rewrite (parse_bind_ok _ _ _ _ _ (read_byte_cons _ _ _)).
  by rewrite (parse_bind_ok _ _ _ _ _ (read_exact_front _ f rest out eq_refl)).
Qed.

Lemma until_nul_app name limit rest out :
  Forall (fun b => b <> 0) name -> len out + len name <= limit ->
  until_nul stop (name ++ 0 :: rest) limit out = (Ok (out ++ name), rest).
Proof.
  revert out. induction name as [|b name IH]; intros out F L; cbn [app until_nul].
  - by rewrite app_nil_r.
  - inversion_clear F as [|? ? Hb F']. rewrite len_cons in L. pose proof (len_nonneg name).
    destruct (Z.eqb_spec b 0); [done|]. rewrite (proj2 (Z.leb_gt _ _)) by lia.
    rewrite IH; [by rewrite <- app_assoc|done|]. rewrite len_app. change (len [b]) with 1. lia.
Qed.

Lemma read_until_nul_app name limit rest out :
  Forall (fun b => b <> 0) name -> len name <= limit ->
  read_until_nul stop limit (Sock.Mk (name ++ 0 :: rest) out) = (Ok name, Sock.Mk rest out).
Proof.
  intros F L. unfold read_until_nul. cbn [Sock.input]. rewrite until_nul_app by (done || (cbn; lia)). done.
Qed.

(** *** The head of an HTTP request *)

Lemma ends_with_snoc s b p c : ends_with (s ++ [b]) (p ++ [c]) = (c =? b) && ends_with s p.
Proof.
  unfold ends_with, strip_suffix. rewrite !rev_app_distr. cbn [rev app strip_prefix].
  by destruct (c =? b).
Qed.

Lemma ends_with_nil s : ends_with s [] = true.
Proof. done. Qed.

Lemma ends_with_crlfcrlf s : ends_with s (CRLF ++ CRLF) = ends_with s [CR; NL; CR; NL].
Proof. done. Qed.

(** A line: at least one character, and neither a return nor a newline. *)
Definition line_ok (l : bytes) : Prop := l <> [] /\ Forall (fun b => b <> CR /\ b <> NL) l.

Lemma not_crlfcrlf s b : b <> NL -> ends_with (s ++ [b]) (CRLF ++ CRLF) = false.
Proof.
  intros N. change (CRLF ++ CRLF) with ([CR; NL; CR] ++ [NL]). rewrite ends_with_snoc.
  by destruct (Z.eqb_spec NL b).
Qed.

Lemma not_nlnl s b : b <> NL -> ends_with (s ++ [b]) [NL; NL] = false.
Proof.
  intros N. change [NL; NL] with ([NL] ++ [NL]). rewrite ends_with_snoc. by destruct (Z.eqb_spec NL b).
Qed.

(** Characters inside a line are read one after the other. *)
Lemma http_head_chars l : forall rest head,
  Forall (fun b => b <> NL) l -> ends_with head (CRLF ++ CRLF) = false ->
  len head + len l <= MAX_HTTP_HEADER_BYTES -> l <> [] ->
  http_head stop (l ++ rest) head = http_head stop rest (head ++ l) /\
  ends_with (head ++ l) (CRLF ++ CRLF) = false.
Proof.
  induction l as [|b l IH]; intros rest head F E L N; [done|].
  inversion_clear F as [|? ? Hb F']. rewrite len_cons in L. pose proof (len_nonneg l).
  cbn [app http_head]. rewrite E, (proj2 (Z.leb_gt _ _)) by lia. cbn zeta. rewrite not_nlnl by done.
  pose proof (not_crlfcrlf head b Hb) as E'. destruct (decide (l = [])) as [->|Nl]; [done|].
  specialize (IH rest (head ++ [b]) F' E'). rewrite <- app_assoc in IH. apply IH; [|done].
  rewrite len_app. change (len [b]) with 1. lia.
Qed.

(** The end of a line, and the empty line that ends the head. *)
Lemma http_head_crlf rest head :
  ends_with head (CRLF ++ CRLF) = false -> len head + 2 <= MAX_HTTP_HEADER_BYTES ->
  http_head stop (CRLF ++ rest) head = http_head stop rest (head ++ CRLF).
Proof.
  intros E L. change (CRLF ++ rest) with (CR :: NL :: rest). cbn [http_head].
  rewrite E, (proj2 (Z.leb_gt _ _)) by lia. cbn zeta. rewrite not_nlnl by done.
  rewrite not_crlfcrlf by done.
  rewrite (proj2 (Z.leb_gt _ _)) by (rewrite len_app; change (len [CR]) with 1; lia).
  rewrite <- app_assoc. change ([CR] ++ [NL]) with CRLF.
  assert (E2 : ends_with (head ++ CRLF) [NL; NL] = false).
  { change CRLF with ([CR] ++ [NL]). change [NL; NL] with (([] ++ [NL]) ++ [NL]).
    rewrite app_assoc, !ends_with_snoc. done. }
  by rewrite E2.
Qed.

Lemma line_end head l : line_ok l -> ends_with ((head ++ l) ++ CRLF) (CRLF ++ CRLF) = false.
Proof.
  intros [N F]. destruct l as [|b l _] using rev_ind; [done|]. apply Forall_app in F as [_ F].
  inversion_clear F as [|? ? [_ Hb] _]. change CRLF with ([CR] ++ [NL]) at 1.
  change (CRLF ++ CRLF) with ((([CR] ++ [NL]) ++ [CR]) ++ [NL]).
  rewrite !app_assoc, !ends_with_snoc. by destruct (Z.eqb_spec NL b).
Qed.

Definition http_lines (ls : list bytes) : bytes := concat (map (fun l => l ++ CRLF) ls).

Lemma http_head_lines ls : forall rest head,
  Forall line_ok ls -> ends_with head (CRLF ++ CRLF) = false ->
  len head + len (http_lines ls) <= MAX_HTTP_HEADER_BYTES ->
  http_head stop (http_lines ls ++ rest) head = http_head stop rest (head ++ http_lines ls) /\
  (ls <> [] -> ends_with (head ++ http_lines ls) (CRLF ++ CRLF) = false).
Proof.
  induction ls as [|l ls IH]; intros rest head F E L.
  - cbn [http_lines map concat app]. by rewrite app_nil_r.
  - inversion_clear F as [|? ? Hl F']. unfold http_lines in *. cbn [map concat] in *.
    set (tl := concat (map _ ls)) in *. rewrite !len_app in L. change (len CRLF) with 2 in L.
    pose proof (len_nonneg tl). rewrite <- !app_assoc.
    destruct (http_head_chars l (CRLF ++ tl ++ rest) head) as [E1 E2].
    { destruct Hl as [_ Fl]. eapply Forall_impl; [exact Fl|]. by intros ? []. }
    { done. } { lia. } { by destruct Hl. }
    rewrite E1, http_head_crlf by (done || (rewrite len_app; lia)).
    pose proof (line_end head l Hl) as E3.
    destruct (IH rest ((head ++ l) ++ CRLF) F' E3) as [E4 E5].
    { rewrite !len_app. change (len CRLF) with 2. lia. }
    assert (A : forall t, ((head ++ l) ++ CRLF) ++ t = head ++ l ++ CRLF ++ t)
      by (intros; by rewrite <- !app_assoc).
    rewrite A in E4, E5. rewrite <- app_assoc in E3. split; [rewrite <- E4; by rewrite <- app_assoc|]. intros _.
    destruct (decide (ls = [])) as [->|N]; [|by apply E5].
    unfold tl. cbn [map concat]. rewrite app_nil_r. exact E3.
Qed.

Lemma double_crlf s : ends_with (s ++ CRLF ++ CRLF) (CRLF ++ CRLF) = true.
Proof.
  unfold ends_with, strip_suffix. rewrite (rev_app_distr s). by rewrite strip_prefix_app.
Qed.

(** Behind its first character a head is read to its empty line and no further. *)
Lemma http_head_exact c l ls rest :
  line_ok (c :: l) -> Forall line_ok ls ->
  len (http_lines ((c :: l) :: ls)) + 2 <= MAX_HTTP_HEADER_BYTES ->
  http_head stop (tail (http_lines ((c :: l) :: ls) ++ CRLF) ++ rest) [c] =
    (Ok (http_lines ((c :: l) :: ls) ++ CRLF), rest).
Proof.
  intros Hl F L.
  assert (Nc : c <> NL) by (destruct Hl as [_ Fl]; by inversion_clear Fl as [|? ? []]).
  assert (E0 : forall i, http_head stop (c :: i) [] = http_head stop i [c]).
  { intros i. cbn [http_head]. change (MAX_HTTP_HEADER_BYTES <=? len []) with false. cbn zeta. cbn [app].
    change [c] with ([] ++ [c]). by rewrite not_nlnl. }
  destruct (http_head_lines ((c :: l) :: ls) (CRLF ++ rest) []) as [E1 E2]; [by constructor|done|rewrite len_nil; lia|].
  unfold http_lines in *. cbn [map concat] in *. rewrite <- app_comm_cons in *. cbn [tail app] in *.
  rewrite E0 in E1. rewrite <- !app_assoc in *. rewrite E1. rewrite http_head_crlf; [|by apply E2|].
  - cbn [app]. rewrite <- !app_assoc. set (tl := concat _) in *.
    assert (D : ends_with (c :: l ++ CRLF ++ tl ++ CRLF) (CRLF ++ CRLF) = true).
    { destruct ls as [|l' ls _] using rev_ind.
      - exact (double_crlf (c :: l)).
      - unfold tl. rewrite map_app, concat_app. cbn [map concat]. rewrite app_nil_r.
        set (u := concat _). replace (c :: l ++ CRLF ++ (u ++ l' ++ CRLF) ++ CRLF)
          with ((c :: l ++ CRLF ++ u ++ l') ++ CRLF ++ CRLF); [apply double_crlf|].
        rewrite <- app_comm_cons. f_equal. by rewrite <- !app_assoc. }
    destruct rest; cbn [http_head]; by rewrite D.
  - rewrite len_cons, !len_app in *. cbn [app] in *. len_pos. lia.
Qed.
End reading.

(** ** What a client sends *)
Inductive Dest := DestIp (ip : bytes) | DestName (name : bytes).

Inductive ClientRequest :=
  | CSocks5 (methods user pass : bytes) (d : Dest) (port : Z)
  | CSocks4 (user : bytes) (d : Dest) (port : Z)
  | CHttp (host : bytes) (port : Z) (version : bytes) (headers : list bytes).

Definition dest_host (d : Dest) : bytes := match d with DestIp ip => show_ip ip | DestName name => name end.

(** RFC 1928 with RFC 1929, SOCKS4 with its 4a extension, and CONNECT. *)
Definition encode_request (r : ClientRequest) : bytes :=
  match r with
  | CSocks5 methods user pass d port =>
      [VERSION; len methods] ++ methods ++
      (if existsb (Z.eqb METHOD_NO_AUTH) methods then []
       else [1; len user] ++ user ++ len pass :: pass) ++
      [VERSION; CMD_CONNECT; 0] ++
      match d with
      | DestIp ip => ATYP_IPV4 :: ip
      | DestName name => [ATYP_DOMAIN; len name] ++ name
      end ++ to_be 2 port
  | CSocks4 user d port =>
      [SOCKS4_VERSION; CMD_CONNECT] ++ to_be 2 port ++
      match d with
      | DestIp ip => ip ++ user ++ [0]
      | DestName name => [0; 0; 0; 1] ++ user ++ [0] ++ name ++ [0]
      end
  | CHttp host port version headers =>
      http_lines (Text.join SP [B "CONNECT"; host ++ [58] ++ show_uint port; version] :: headers) ++ CRLF
  end.

Definition asked_for (r : ClientRequest) : Request :=
  match r with
  | CSocks5 _ _ _ d port => MkRequest (dest_host d) port Socks5
  | CSocks4 _ d port => MkRequest (dest_host d) port Socks4
  | CHttp host port _ _ => MkRequest host port Http
  end.

(** What is written before the request has been acted on. *)
Definition answered (r : ClientRequest) : bytes :=
  match r with
  | CSocks5 methods _ _ _ _ =>
      if existsb (Z.eqb METHOD_NO_AUTH) methods then [VERSION; METHOD_NO_AUTH]
      else [VERSION; METHOD_USER_PASS; 1; 0]
  | _ => []
  end.

Definition name_ok (name : bytes) : Prop := utf8_valid name = true /\ 0 < len name < 256.

Definition well_formed (r : ClientRequest) : Prop :=
  match r with
  | CSocks5 methods user pass d port =>
      1 <= port < 65536 /\ len methods < 256 /\ len user < 256 /\ len pass < 256 /\
      (METHOD_NO_AUTH ∈ methods \/ METHOD_USER_PASS ∈ methods) /\
      match d with DestIp ip => bytes_ok ip /\ len ip = 4 | DestName name => name_ok name end
  | CSocks4 user d port =>
      1 <= port < 65536 /\ len user <= 256 /\ Forall (fun b => b <> 0) user /\
      match d with
      | DestIp ip => bytes_ok ip /\ len ip = 4 /\ (slice_to ip 3 <> [0; 0; 0])
      | DestName name => name_ok name /\ Forall (fun b => b <> 0) name
      end
  | CHttp host port version headers =>
      1 <= port < 65536 /\ host <> [] /\ Forall plain host /\
      Forall (fun b => b <> 91 /\ b <> 93) host /\ version <> [] /\ Forall plain version /\
      Forall (fun l => line_ok l /\ Forall (fun b => 0 <= b < 128) l) headers /\
      len (encode_request r) <= MAX_HTTP_HEADER_BYTES
  end.

Section exact.
Context (stop : io_error) (can_write : bytes -> result unit).
Context (writes : forall w, can_write w = Ok tt).

Lemma write_all_ok data i out :
  write_all can_write data (Sock.Mk i out) = (Ok tt, Sock.Mk i (out ++ data)).
Proof using writes. unfold write_all. cbn [Sock.output]. by rewrite writes. Qed.

Lemma show_ip_nonempty ip : len ip = 4 -> show_ip ip <> [].
Proof using.
  intros L. destruct ip as [|x [|y ip]]; [done|done|]. unfold show_ip. cbn [map].
  rewrite join_cons by done. pose proof (show_uint_nonempty x). by destruct (show_uint x).
Qed.

Lemma accept_ok host port protocol s :
  1 <= port -> host <> [] -> accept can_write host port protocol s = (Ok (MkRequest host port protocol), s).
Proof using.
  intros Hp Hh. unfold accept, bytes_eqb. rewrite bool_decide_eq_false_2 by done.
  destruct (Z.eqb_spec port 0); [lia|]. done.
Qed.

Lemma from_be_port port : 1 <= port < 65536 -> from_be (to_be 2 port) = port.
Proof using. intros H. apply from_be_to_be_small. change (256 ^ Z.of_nat 2) with 65536. lia. Qed.

(** *** SOCKS5 *)

Lemma choose_method_ok methods user pass rest out :
  len user < 256 -> len pass < 256 ->
  METHOD_NO_AUTH ∈ methods \/ METHOD_USER_PASS ∈ methods ->
  choose_method stop can_write methods
    (Sock.Mk ((if existsb (Z.eqb METHOD_NO_AUTH) methods then []
               else [1; len user] ++ user ++ len pass :: pass) ++ rest) out) =
  (Ok tt, Sock.Mk rest (out ++ if existsb (Z.eqb METHOD_NO_AUTH) methods then [VERSION; METHOD_NO_AUTH]
                               else [VERSION; METHOD_USER_PASS; 1; 0])).
Proof using writes.
  intros Hu Hp Hm. unfold choose_method. destruct (existsb (Z.eqb METHOD_NO_AUTH) methods) eqn:N.
  - apply write_all_ok.
  - assert (U : existsb (Z.eqb METHOD_USER_PASS) methods = true).
    { apply existsb_exists. exists METHOD_USER_PASS. split; [|apply Z.eqb_refl].
      apply list_elem_of_In. destruct Hm as [Hm|Hm]; [|done]. exfalso.
      apply Bool.not_true_iff_false in N. apply N. apply existsb_exists. exists METHOD_NO_AUTH.
      split; [by apply list_elem_of_In|apply Z.eqb_refl]. }
    rewrite U, (parse_bind_ok _ _ _ _ _ (write_all_ok _ _ _)). cbn [app].
    assert (R : read_username_password stop
        (Sock.Mk (1 :: len user :: (user ++ len pass :: pass) ++ rest) (out ++ [VERSION; METHOD_USER_PASS]))
      = (Ok tt, Sock.Mk rest (out ++ [VERSION; METHOD_USER_PASS]))).
    { unfold read_username_password. rewrite (parse_bind_ok _ _ _ _ _ (read_byte_cons _ _ _ _)).
      change (negb (1 =? 1)) with false. cbv iota. rewrite <- app_assoc, <- app_comm_cons.
      rewrite (parse_bind_ok _ _ _ _ _ (skip_field_app _ user _ _ Hu)). by apply skip_field_app. }
    rewrite (parse_bind_ok _ _ _ _ _ R), write_all_ok. by rewrite <- app_assoc.
Qed.

Lemma read_host_ok d rest out :
  match d with DestIp ip => bytes_ok ip /\ len ip = 4 | DestName name => name_ok name end ->
  read_host stop can_write (match d with DestIp _ => ATYP_IPV4 | DestName _ => ATYP_DOMAIN end)
    (Sock.Mk (match d with DestIp ip => ip | DestName name => len name :: name end ++ rest) out) =
  (Ok (dest_host d), Sock.Mk rest out) /\ dest_host d <> [].
Proof using.
  intros Hd. destruct d as [ip|name]; unfold read_host; cbn [dest_host].
  - change (ATYP_IPV4 =? ATYP_IPV4) with true. cbv iota.
    destruct Hd as [_ L]. split; [|by apply show_ip_nonempty].
    by rewrite (parse_bind_ok _ _ _ _ _ (read_exact_front _ _ ip rest out L)).
  - change (ATYP_DOMAIN =? ATYP_IPV4) with false. change (ATYP_DOMAIN =? ATYP_DOMAIN) with true. cbv iota.
    destruct Hd as [U [L _]]. split; [|by intros ->].
    rewrite <- app_comm_cons, (parse_bind_ok _ _ _ _ _ (read_byte_cons _ _ _ _)).
    rewrite (parse_bind_ok _ _ _ _ _ (read_exact_front _ _ name rest out eq_refl)). by rewrite U.
Qed.

Lemma negotiate_socks5_ok methods user pass d port rest out :
  well_formed (CSocks5 methods user pass d port) ->
  negotiate_socks5 stop can_write
    (Sock.Mk (tail (encode_request (CSocks5 methods user pass d port)) ++ rest) out) =
  (Ok (asked_for (CSocks5 methods user pass d port)),
   Sock.Mk rest (out ++ answered (CSocks5 methods user pass d port))).
Proof using writes.
  intros (Hport & Hm & Hu & Hp & Hmethod & Hd). unfold negotiate_socks5. cbn [encode_request tail app].
  rewrite (parse_bind_ok _ _ _ _ _ (read_byte_cons _ _ _ _)). rewrite <- !app_assoc.
  rewrite (parse_bind_ok _ _ _ _ _ (read_exact_front _ _ methods _ out eq_refl)).
  rewrite (parse_bind_ok _ _ _ _ _ (choose_method_ok methods user pass _ out Hu Hp Hmethod)).
  destruct (read_host_ok d (to_be 2 port ++ rest) (out ++ answered (CSocks5 methods user pass d port)) Hd)
    as [R N].
  set (atyp := match d with DestIp _ => ATYP_IPV4 | DestName _ => ATYP_DOMAIN end) in *.
  set (rest' := match d with DestIp ip => ip | DestName name => len name :: name end ++ to_be 2 port ++ rest) in *.
  assert (E : (VERSION :: CMD_CONNECT :: 0 ::
      match d with DestIp ip => ATYP_IPV4 :: ip | DestName name => ATYP_DOMAIN :: len name :: name end
        ++ to_be 2 port) ++ rest = VERSION :: CMD_CONNECT :: 0 :: atyp :: rest').
  { unfold atyp, rest'. destruct d; cbn [app]; by rewrite <- !app_assoc. }
  cbn [app] in E |- *. rewrite E.
  change (VERSION :: CMD_CONNECT :: 0 :: atyp :: rest') with ([VERSION; CMD_CONNECT; 0; atyp] ++ rest').
  rewrite (parse_bind_ok _ _ _ _ _ (read_exact_front _ 4 [VERSION; CMD_CONNECT; 0; atyp] _ _ eq_refl)).
  change (byte_at [VERSION; CMD_CONNECT; 0; atyp] 3) with atyp.
  change (negb (byte_at [VERSION; CMD_CONNECT; 0; atyp] 0 =? VERSION)) with false.
  change (negb (byte_at [VERSION; CMD_CONNECT; 0; atyp] 1 =? CMD_CONNECT)) with false. cbv iota.
  rewrite (parse_bind_ok _ _ _ _ _ R).
  rewrite (parse_bind_ok _ _ _ _ _ (read_exact_front _ 2 (to_be 2 port) rest _ (len_to_be 2 port))).
  rewrite from_be_port by done. apply accept_ok; [lia|exact N].
Qed.

(** *** SOCKS4 and 4a *)

Lemma negotiate_socks4_ok user d port rest out :
  well_formed (CSocks4 user d port) ->
  negotiate_socks4 stop can_write (Sock.Mk (tail (encode_request (CSocks4 user d port)) ++ rest) out) =
  (Ok (asked_for (CSocks4 user d port)), Sock.Mk rest out).
Proof using writes.
  intros (Hport & Hu & Fu & Hd). unfold negotiate_socks4. cbn [encode_request tail app].
  set (addr := match d with DestIp ip => ip | DestName _ => [0; 0; 0; 1] end).
  set (after := match d with DestIp _ => [] | DestName name => name ++ [0] end).
  assert (E : CMD_CONNECT :: (to_be 2 port ++ match d with
      | DestIp ip => ip ++ user ++ [0] | DestName name => 0 :: 0 :: 0 :: 1 :: user ++ 0 :: name ++ [0] end) ++ rest
    = ([CMD_CONNECT] ++ to_be 2 port ++ addr) ++ user ++ 0 :: after ++ rest).
  { unfold addr, after. destruct d; cbn [app]; repeat (rewrite <- !app_assoc; cbn [app]); done. }
  rewrite E. assert (La : len addr = 4) by (unfold addr; destruct d; [apply Hd|done]).
  rewrite (parse_bind_ok _ _ _ _ _ (read_exact_front _ 7 ([CMD_CONNECT] ++ to_be 2 port ++ addr) _ out
    ltac:(rewrite !len_app, len_to_be, La; done))).
  change (byte_at ([CMD_CONNECT] ++ to_be 2 port ++ addr) 0) with CMD_CONNECT.
  rewrite (slice_app_at [CMD_CONNECT] (to_be 2 port) addr) by (rewrite ?len_to_be; done).
  rewrite (app_assoc [CMD_CONNECT]), <- (app_nil_r addr), (slice_app_at ([CMD_CONNECT] ++ to_be 2 port) addr [])
    by (rewrite len_app, len_to_be, ?La; done).
  rewrite from_be_port by done. change (negb (CMD_CONNECT =? CMD_CONNECT)) with false. cbv iota.
  rewrite (parse_bind_ok _ _ _ _ _ (read_until_nul_app _ user 256 _ out Fu Hu)).
  destruct d as [ip|name]; unfold addr, after; cbn [asked_for dest_host].
  - destruct Hd as (Hb & L & N).
    assert (X : (byte_at ip 0 =? 0) && (byte_at ip 1 =? 0) && (byte_at ip 2 =? 0) && negb (byte_at ip 3 =? 0) = false).
    { destruct ip as [|x [|y [|z [|t ip]]]]; try discriminate L.
      change ((x =? 0) && (y =? 0) && (z =? 0) && negb (t =? 0) = false).
      change (slice_to (x :: y :: z :: t :: ip) 3) with [x; y; z] in N.
      destruct (Z.eqb_spec x 0) as [->|], (Z.eqb_spec y 0) as [->|], (Z.eqb_spec z 0) as [->|]; try done. }
    rewrite X. cbn [app]. unfold mbind at 1, io_bind at 1, mret, io_ret.
    apply accept_ok; [lia|by apply show_ip_nonempty].
  - destruct Hd as ((U & L) & F).
    change ((byte_at [0; 0; 0; 1] 0 =? 0) && (byte_at [0; 0; 0; 1] 1 =? 0) && (byte_at [0; 0; 0; 1] 2 =? 0)
      && negb (byte_at [0; 0; 0; 1] 3 =? 0)) with true. cbv iota.
    assert (R : (name ← read_until_nul stop 256;
        if utf8_valid name then mret name else fail (invalid_data "SOCKS4a host name is not UTF-8"))
        (Sock.Mk ((name ++ [0]) ++ rest) out) = (Ok name, Sock.Mk rest out)).
    { rewrite <- app_assoc. cbn [app].
      rewrite (parse_bind_ok _ _ _ _ _ (read_until_nul_app _ name 256 rest out F ltac:(lia))). by rewrite U. }
    rewrite (parse_bind_ok _ _ _ _ _ R). apply accept_ok; [lia|]. intros ->. by destruct L.
Qed.

(** *** CONNECT *)

Lemma crlf_ascii : Forall (fun b => 0 <= b < 128) CRLF.
Proof using. unfold CRLF, CR, NL. repeat constructor; lia. Qed.

Lemma before_crlf l rest : Forall (fun b => b <> CR) l -> before (l ++ CRLF ++ rest) CRLF = l.
Proof using can_write writes.
  intros F. unfold before, find. rewrite find_from_skip.
  - rewrite find_from_here, Z.add_0_l. by apply slice_to_app.
  - intros k Hk. apply starts_with_false. intros b E.
    destruct (drop k l) as [|c r] eqn:D.
    { apply (f_equal length) in D. rewrite length_drop in D. cbn in D. lia. }
    injection E as -> E. rewrite Forall_forall in F. apply (F CR); [|done].
    rewrite <- (take_drop k l), D. set_solver.
Qed.

Lemma skip_any_id cs s : Forall (fun b => existsb (Z.eqb b) cs = false) s -> skip_any cs s = s.
Proof using. destruct 1 as [|b s Hb _]; [done|]. cbn [skip_any]. by rewrite Hb. Qed.

Lemma trim_matches_id cs s : Forall (fun b => existsb (Z.eqb b) cs = false) s -> trim_matches cs s = s.
Proof using.
  intros F. unfold trim_matches. rewrite (skip_any_id cs s F), skip_any_id, rev_involutive; [done|].
  apply Forall_rev in F. exact F.
Qed.

Lemma connect_target_ok host port :
  1 <= port < 65536 -> Forall (fun b => b <> 91 /\ b <> 93) host ->
  connect_target (host ++ [58] ++ show_uint port) = Ok (host, port).
Proof using.
  intros Hp F. unfold connect_target, rsplit_once.
  rewrite !rev_app_distr. cbn [rev app]. rewrite <- app_assoc. cbn [app].
  rewrite split_once_app.
  2:{ apply Forall_rev. eapply Forall_impl; [apply show_uint_digits; lia|].
      cbn. intros b Hb ->. by vm_compute in Hb. }
  rewrite !rev_involutive, parse_show_uint by (unfold U16_MAX; change (10 ^ 20) with 100000000000000000000; lia).
  cbn [ok_or mbind result_bind]. rewrite trim_matches_id; [done|].
  eapply Forall_impl; [exact F|]. cbn. intros b [N1 N2].
  destruct (Z.eqb_spec b 91), (Z.eqb_spec b 93); done.
Qed.

Lemma plain_word b : plain b -> b <> CR /\ b <> NL.
Proof using. unfold plain, CR, NL. lia. Qed.

Definition connect_line (host : bytes) (port : Z) (version : bytes) : bytes :=
  Text.join SP [B "CONNECT"; host ++ [58] ++ show_uint port; version].

Lemma connect_line_facts host port version :
  1 <= port < 65536 -> host <> [] -> Forall plain host -> version <> [] -> Forall plain version ->
  Forall (fun b => (plain b \/ b = SP) /\ 0 <= b < 128) (connect_line host port version) /\
  split_whitespace (connect_line host port version) = [B "CONNECT"; host ++ [58] ++ show_uint port; version].
Proof using.
  intros Hp Nh Fh Nv Fv. set (target := host ++ [58] ++ show_uint port).
  assert (Ft : Forall plain target).
  { unfold target. apply Forall_app. split; [done|]. constructor; [unfold plain; lia|].
    apply digits_plain, show_uint_digits. lia. }
  assert (Fc : Forall plain (B "CONNECT")) by (unfold plain; repeat constructor; vm_compute; done).
  assert (W : forall w, Forall plain w -> Forall (fun b => (plain b \/ b = SP) /\ 0 <= b < 128) w).
  { intros w F. eapply Forall_impl; [exact F|]. cbn. unfold plain. intros b Hb. split; [by left|lia]. }
  assert (S1 : (plain SP \/ SP = SP) /\ 0 <= SP < 128) by (split; [by right|unfold SP; lia]).
  split.
  - unfold connect_line. fold target. cbn [Text.join].
    rewrite !Forall_app. split; [by apply W|split; [by constructor|split; [by apply W|split; [by constructor|by apply W]]]].
  - apply split_ws_join. constructor; [done|]. constructor; [split; [|done]|by constructor].
    unfold target. by destruct host.
Qed.

Lemma negotiate_http_ok host port version headers rest out :
  well_formed (CHttp host port version headers) ->
  negotiate_http stop can_write 67
    (Sock.Mk (tail (encode_request (CHttp host port version headers)) ++ rest) out) =
  (Ok (AskedConnect (MkRequest host port Http)), Sock.Mk rest out).
Proof using writes.
  intros (Hp & Nh & Fh & Fb & Nv & Fv & Fhd & L).
  destruct (connect_line_facts host port version Hp Nh Fh Nv Fv) as [Fl Ws].
  cbn [encode_request] in *. fold (connect_line host port version) in *.
  assert (Hc : exists l, connect_line host port version = 67 :: l) by (by eexists).
  set (line := connect_line host port version) in *. clearbody line. destruct Hc as [l ->].
  assert (Ok1 : line_ok (67 :: l)).
  { split; [done|]. eapply Forall_impl; [exact Fl|]. cbn. intros b [[Hb|Hb] _]; [by apply plain_word|by subst]. }
  assert (Ok2 : Forall line_ok headers) by (eapply Forall_impl; [exact Fhd|]; by intros ? []).
  assert (L2 : len (http_lines ((67 :: l) :: headers)) + 2 <= MAX_HTTP_HEADER_BYTES).
  { rewrite len_app in L. exact L. }
  set (head := http_lines ((67 :: l) :: headers) ++ CRLF) in *.
  assert (R : read_http_head stop 67 (Sock.Mk (tail head ++ rest) out) = (Ok head, Sock.Mk rest out)).
  { unfold read_http_head. cbn [Sock.input]. unfold head at 1. rewrite http_head_exact by done. fold head.
    assert (U : utf8_valid head = true).
    { apply utf8_valid_ascii. unfold head. apply Forall_app. split; [|exact crlf_ascii].
      apply Forall_concat, Forall_map. constructor.
      - apply Forall_app. split; [|exact crlf_ascii]. eapply Forall_impl; [exact Fl|]. by intros ? [].
      - eapply Forall_impl; [exact Fhd|]. intros h [_ Fa]. apply Forall_app. split; [done|exact crlf_ascii]. }
    by rewrite U. }
  unfold negotiate_http. rewrite (parse_bind_ok _ _ _ _ _ R).
  assert (Bf : before head CRLF = 67 :: l).
  { unfold head, http_lines. cbn [map concat]. rewrite <- !app_assoc. apply before_crlf.
    destruct Ok1 as [_ F]. eapply Forall_impl; [exact F|]. by intros ? []. }
  rewrite Bf, Ws. cbn [hd tail].
  change (bytes_eqb (B "CONNECT") (B "GET")) with false. cbn [andb].
  change (negb (eq_ignore_ascii_case (B "CONNECT") (B "CONNECT"))) with false. cbv iota.
  rewrite connect_target_ok by done. unfold lift.
  unfold mbind at 1, io_bind at 1. rewrite (parse_bind_ok _ _ _ _ _ (accept_ok host port Http _ ltac:(lia) Nh)).
  done.
Qed.

(** C16. A request is read exactly.  What a client sends to ask for a connection in SOCKS5 (with or without a user name and password), SOCKS4, SOCKS4a or HTTP CONNECT gives precisely the host and port it named, the method answers written before it is acted on are the ones its protocol expects, and not one byte behind the request is taken from the connection, so the tunnel that follows loses nothing. *)
Theorem request_read_exactly r rest out :
  well_formed r ->
  negotiate stop can_write (Sock.Mk (encode_request r ++ rest) out) =
    (Ok (AskedConnect (asked_for r)), Sock.Mk rest (out ++ answered r)).
Proof using writes.
  intros W. unfold negotiate. destruct r as [methods user pass d port|user d port|host port version headers].
  - pose proof (negotiate_socks5_ok methods user pass d port rest out W) as N.
    cbn [encode_request tail app] in *. rewrite (parse_bind_ok _ _ _ _ _ (read_byte_cons _ _ _ _)).
    change (VERSION =? VERSION) with true. cbv iota. by rewrite (parse_bind_ok _ _ _ _ _ N).
  - pose proof (negotiate_socks4_ok user d port rest out W) as N.
    cbn [encode_request tail app] in *. rewrite (parse_bind_ok _ _ _ _ _ (read_byte_cons _ _ _ _)).
    change (SOCKS4_VERSION =? VERSION) with false. change (SOCKS4_VERSION =? SOCKS4_VERSION) with true.
    cbv iota. rewrite (parse_bind_ok _ _ _ _ _ N). cbn [answered]. by rewrite app_nil_r.
  - pose proof (negotiate_http_ok host port version headers rest out W) as N.
    assert (E : encode_request (CHttp host port version headers) =
      67 :: tail (encode_request (CHttp host port version headers))) by done.
    rewrite E. cbn [app]. rewrite (parse_bind_ok _ _ _ _ _ (read_byte_cons _ _ _ _)).
    change (67 =? VERSION) with false. change (67 =? SOCKS4_VERSION) with false.
    change ((65 <=? 67) && (67 <=? 90)) with true. cbv iota. rewrite N.
    cbn [answered]. by rewrite app_nil_r.
Qed.
End exact.

(** ** What is accepted

    A Hoare logic of one triple: [yields m P] says that when [m] succeeds, its
    result satisfies [P] and it has taken some bytes off the front of what
    arrived, and changed nothing else of it. *)
Definition yields {A} (m : Io A) (P : A -> Prop) : Prop := forall s a s',
  bytes_ok (Sock.input s) -> m s = (Ok a, s') ->
  P a /\ exists p, Sock.input s = p ++ Sock.input s'.

Section accepted.
Context (stop : io_error) (can_write : bytes -> result unit).

Lemma yields_bind {A C} (m : Io A) (f : A -> Io C) P Q :
  yields m P -> (forall a, P a -> yields (f a) Q) -> yields (m ≫= f) Q.
Proof.
  intros Hm Hf s c s2 F E. unfold mbind, io_bind in E. destruct (m s) as [[a|e] s1] eqn:E1; [|done].
  destruct (Hm s a s1 F E1) as [Pa [p Ep]]. rewrite Ep in F. apply bytes_ok_app in F as [_ F].
  destruct (Hf a Pa s1 c s2 F E) as [Qc [q Eq]]. split; [done|]. exists (p ++ q). by rewrite <- app_assoc, <- Eq.
Qed.

Lemma yields_weaken {A} (m : Io A) (P Q : A -> Prop) : yields m P -> (forall a, P a -> Q a) -> yields m Q.
Proof. intros Hm W s a s' F E. destruct (Hm s a s' F E). split; [by apply W|done]. Qed.

Lemma yields_ret {A} (a : A) (P : A -> Prop) : P a -> yields (mret a) P.
Proof. intros Pa s a' s' _ [= <- <-]. split; [done|]. by exists []. Qed.

Lemma yields_fail {A} e (P : A -> Prop) : yields (fail e) P.
Proof. by intros s a s' _ E. Qed.

Lemma yields_write d : yields (write_all can_write d) (fun _ => True).
Proof.
  intros s a s' _ E. unfold write_all in E. destruct (can_write _); [|done]. injection E as _ <-.
  split; [done|]. by exists [].
Qed.

Lemma yields_refuse {A} p c e (P : A -> Prop) : yields (refuse can_write p c e) P.
Proof. eapply yields_bind; [apply yields_write|]. intros _ _. apply yields_fail. Qed.

Lemma yields_read_exact n : yields (read_exact stop n) (fun b => bytes_ok b /\ (0 <= n -> len b = n)).
Proof.
  intros s a s' F E. unfold read_exact in E. destruct (n <=? len (Sock.input s)) eqn:L; [|done].
  injection E as <- <-. split.
  - split; [by apply bytes_ok_take|]. intros N. unfold slice_to. rewrite len_take. lia.
  - exists (slice_to (Sock.input s) n). cbn. symmetry. apply take_drop.
Qed.

Lemma yields_read_byte : yields (read_byte stop) is_u8.
Proof.
  eapply yields_bind; [apply yields_read_exact|]. intros b [F _]. by apply yields_ret, byte_at_ok.
Qed.

Lemma until_nul_yields input : forall limit out name rest,
  bytes_ok out -> bytes_ok input -> len out <= limit ->
  until_nul stop input limit out = (Ok name, rest) ->
  (bytes_ok name /\ len name <= limit) /\ exists p, input = p ++ rest.
Proof.
  induction input as [|b input IH]; intros limit out name rest Fo F L E; [done|]. cbn [until_nul] in E.
  apply bytes_ok_cons in F as [Fb F]. destruct (b =? 0).
  - injection E as <- <-. split; [done|]. by exists [b].
  - destruct (Z.leb_spec limit (len out)); [done|].
    apply IH in E as [Hn [p ->]].
    + split; [done|]. by exists (b :: p).
    + apply bytes_ok_app. split; [done|]. by constructor.
    + done.
    + rewrite len_app. change (len [b]) with 1. lia.
Qed.

Lemma yields_until_nul limit :
  0 <= limit -> yields (read_until_nul stop limit) (fun n => bytes_ok n /\ len n <= limit).
Proof.
  intros L s a s' F E. unfold read_until_nul in E. destruct (until_nul _ _ _ _) as [r rest] eqn:U.
  injection E as -> <-. eapply until_nul_yields in U; [exact U|by constructor|done|by rewrite len_nil].
Qed.

Lemma http_head_yields input : forall head out rest,
  bytes_ok head -> bytes_ok input -> len head <= MAX_HTTP_HEADER_BYTES ->
  http_head stop input head = (Ok out, rest) ->
  (bytes_ok out /\ len out <= MAX_HTTP_HEADER_BYTES) /\ exists p, input = p ++ rest.
Proof.
  induction input as [|b input IH]; intros head out rest Fh F L E; cbn [http_head] in E;
    destruct (ends_with head (CRLF ++ CRLF));
    [injection E as <- <-; split; [done|by exists []] | by destruct (_ <=? _)
    |injection E as <- <-; split; [done|by exists []] |].
  destruct (Z.leb_spec MAX_HTTP_HEADER_BYTES (len head)); [done|]. cbn zeta in E.
  apply bytes_ok_cons in F as [Fb F].
  assert (Fh' : bytes_ok (head ++ [b])) by (apply bytes_ok_app; split; [done|by apply Forall_singleton]).
  assert (L' : len (head ++ [b]) <= MAX_HTTP_HEADER_BYTES)
    by (rewrite len_app; change (len [b]) with 1; lia).
  destruct (ends_with (head ++ [b]) [NL; NL]).
  - injection E as <- <-. split; [done|]. by exists [b].
  - apply IH in E as [Ho [p ->]]; [|done..]. split; [done|]. by exists (b :: p).
Qed.

Lemma yields_http_head first :
  is_u8 first ->
  yields (read_http_head stop first) (fun h => bytes_ok h /\ len h <= MAX_HTTP_HEADER_BYTES).
Proof.
  intros F s a s' Fi E. unfold read_http_head in E. destruct (http_head _ _ _) as [r rest] eqn:U.
  injection E as E <-. destruct r as [head|e]; [|done].
  apply http_head_yields in U as [U P]; [|by apply Forall_singleton|done|by vm_compute].
  destruct (utf8_valid head); [|done]. by injection E as <-.
Qed.

(** *** The lengths of what is read *)

Lemma split_ws_len w : forall fuel cur s, w ∈ split_ws_fuel fuel cur s -> len w <= len cur + len s.
Proof.
  assert (Fl : forall (cur : bytes) s, w ∈ (match cur with [] => [] | _ => [rev cur] end) -> len w <= len cur + len (A:=Z) s).
  { intros cur s Hw. assert (w = rev cur) as -> by (destruct cur; set_solver).
    unfold len. rewrite length_rev. lia. }
  induction fuel as [|fuel IH]; intros cur s Hw; [by apply Fl|]. destruct s as [|b s]; [by apply Fl|].
  cbn [split_ws_fuel] in Hw. destruct (ws_len (b :: s)) as [|n] eqn:W.
  - apply IH in Hw. rewrite !len_cons in *. lia.
  - apply elem_of_app in Hw as [Hw|Hw]; [by apply Fl|]. apply IH in Hw.
    rewrite len_nil, len_drop in Hw. rewrite ?len_cons in *. len_pos. lia.
Qed.

Lemma split_whitespace_len w s : w ∈ split_whitespace s -> len w <= len s.
Proof. intros H. apply split_ws_len in H. by rewrite len_nil in H. Qed.

Lemma skip_any_len cs s : len (skip_any cs s) <= len s.
Proof.
  induction s as [|b s IH]; cbn [skip_any]; [done|]. destruct (existsb _ _); rewrite !len_cons; lia.
Qed.

Lemma trim_matches_len cs s : len (trim_matches cs s) <= len s.
Proof.
  unfold trim_matches. rewrite len_rev. etrans; [apply skip_any_len|]. rewrite len_rev. apply skip_any_len.
Qed.

Lemma before_len s p : len (before s p) <= len s.
Proof.
  unfold before. destruct (find s p); [|done]. unfold slice_to. rewrite len_take. lia.
Qed.

Lemma connect_target_typed target host port :
  connect_target target = Ok (host, port) -> len host <= len target /\ 0 <= port < 65536.
Proof.
  unfold connect_target, rsplit_once. destruct (split_once 58 (rev target)) as [[x y]|] eqn:E.
  - intros H. destruct (parse_uint U16_MAX (rev x)) as [n|] eqn:P; [|done]. injection H as <- <-.
    apply parse_uint_bound in P.
    apply split_once_Some in E as [E _]. apply (f_equal len) in E. rewrite len_app, len_cons, len_rev in E.
    split; [etrans; [apply trim_matches_len|]; rewrite len_rev; pose proof (len_nonneg x); lia|].
    unfold U16_MAX in *. lia.
  - intros [= <- <-]. lia.
Qed.

(** Digits and dots. *)
Lemma len_show_ip ip : bytes_ok ip -> len ip = 4 -> len (show_ip ip) <= 15.
Proof.
  intros F L. destruct ip as [|x [|y [|z [|t [|? ?]]]]]; try done; [|rewrite !len_cons in L; len_pos; lia].
  assert (D : forall b, is_u8 b -> len (show_uint b) <= 3).
  { intros b Hb. unfold is_u8 in Hb.
    assert (A : forallb (fun b => len (show_uint b) <=? 3) (seqZ 0 256) = true) by (by vm_compute).
    rewrite forallb_forall in A. specialize (A b). rewrite Z.leb_le in A. apply A.
    apply list_elem_of_In, elem_of_seqZ. lia. }
  repeat match goal with F : bytes_ok (_ :: _) |- _ => apply bytes_ok_cons in F as [? F] end.
  unfold show_ip. cbn [map Text.join]. rewrite !len_app. change (len [46]) with 1.
  pose proof (D x ltac:(done)). pose proof (D y ltac:(done)). pose proof (D z ltac:(done)).
  pose proof (D t ltac:(done)). lia.
Qed.

(** *** The three protocols *)

(** What each protocol lets a host name be. *)
Definition host_limit (p : Protocol) : Z :=
  match p with Socks5 => 255 | Socks4 => 256 | Http => MAX_HTTP_HEADER_BYTES end.

Definition request_ok (r : Request) : Prop :=
  1 <= port r < 65536 /\ host r <> [] /\ len (host r) <= host_limit (protocol r).

Lemma yields_accept h n p :
  0 <= n < 65536 -> len h <= host_limit p -> yields (accept can_write h n p) request_ok.
Proof.
  intros Hn Hl. unfold accept, bytes_eqb. destruct (Z.eqb_spec n 0); [apply yields_refuse|].
  case_bool_decide as N; [apply yields_refuse|]. apply yields_ret. split; cbn; [lia|done].
Qed.

Lemma yields_choose_method methods : yields (choose_method stop can_write methods) (fun _ => True).
Proof.
  unfold choose_method. destruct (existsb _ _); [apply yields_write|]. destruct (existsb _ _).
  - eapply yields_bind; [apply yields_write|intros _ _].
    eapply yields_bind with (P := fun _ => True); [|intros; apply yields_write].
    eapply yields_bind; [apply yields_read_byte|intros v _]. destruct (negb _); [apply yields_fail|].
    assert (K : yields (skip_field stop) (fun _ => True)).
    { eapply yields_bind; [apply yields_read_byte|intros n _].
      eapply yields_bind; [apply yields_read_exact|intros; by apply yields_ret]. }
    by eapply yields_bind.
  - eapply yields_bind; [apply yields_write|intros; apply yields_fail].
Qed.

Lemma yields_read_host atyp : yields (read_host stop can_write atyp) (fun h => len h <= 255).
Proof.
  unfold read_host. destruct (_ =? _); [|destruct (_ =? _); [|destruct (_ =? _)]].
  - eapply yields_bind; [apply yields_read_exact|]. intros ip [F L]. apply yields_ret.
    pose proof (len_show_ip ip F ltac:(by apply L)). lia.
  - eapply yields_bind; [apply yields_read_byte|]. intros n Hn. unfold is_u8 in Hn.
    eapply yields_bind; [apply yields_read_exact|]. intros name [_ L]. specialize (L ltac:(lia)).
    destruct (utf8_valid name); [apply yields_ret; lia|apply yields_fail].
  - eapply yields_bind; [apply yields_read_exact|intros _ _].
    eapply yields_bind; [apply yields_read_exact|intros _ _]. apply yields_refuse.
  - apply yields_refuse.
Qed.

Lemma port_bound b : bytes_ok b -> len b = 2 -> 0 <= from_be b < 65536.
Proof. intros F L. pose proof (from_be_bound b F) as H. by rewrite L in H. Qed.

Lemma yields_socks5 : yields (negotiate_socks5 stop can_write) request_ok.
Proof.
  unfold negotiate_socks5. eapply yields_bind; [apply yields_read_byte|intros n _].
  eapply yields_bind; [apply yields_read_exact|intros methods _].
  eapply yields_bind; [apply yields_choose_method|intros _ _].
  eapply yields_bind; [apply yields_read_exact|intros header _].
  destruct (negb _); [apply yields_fail|]. destruct (negb _); [apply yields_refuse|].
  eapply yields_bind; [apply yields_read_host|intros h Hh].
  eapply yields_bind; [apply yields_read_exact|intros b [F L]].
  apply yields_accept; [|done]. by apply port_bound, L.
Qed.

Lemma yields_socks4 : yields (negotiate_socks4 stop can_write) request_ok.
Proof.
  unfold negotiate_socks4. eapply yields_bind; [apply yields_read_exact|intros header [F L]].
  specialize (L ltac:(done)). cbn zeta. destruct (negb _); [apply yields_refuse|].
  eapply yields_bind; [by apply yields_until_nul|intros _ _].
  apply yields_bind with (P := fun h => len h <= 256).
  - destruct (_ && _).
    + eapply yields_bind; [by apply yields_until_nul|]. intros name [_ Ln].
      destruct (utf8_valid name); [by apply yields_ret|apply yields_fail].
    + apply yields_ret. rewrite len_show_ip; [done|by apply bytes_ok_slice|].
      rewrite len_slice; lia.
  - intros h Hh. apply yields_accept; [|done].
    apply port_bound; [by apply bytes_ok_slice|]. rewrite len_slice; lia.
Qed.

Lemma hd_tail_len (ws : list bytes) (n : Z) :
  0 <= n -> (forall w, w ∈ ws -> len w <= n) -> len (hd [] (tail ws)) <= n.
Proof. intros Hn H. destruct ws as [|w [|v ws]]; [done|done|]. apply H. set_solver. Qed.

Definition asked_ok (a : Asked) : Prop := match a with AskedConnect r => request_ok r | AskedStatus => True end.

Lemma yields_http first : is_u8 first -> yields (negotiate_http stop can_write first) asked_ok.
Proof.
  intros Hf. unfold negotiate_http. eapply yields_bind; [by apply yields_http_head|].
  intros head [_ L]. cbn zeta. set (ws := split_whitespace (before head CRLF)).
  assert (T : len (hd [] (tail ws)) <= MAX_HTTP_HEADER_BYTES).
  { apply hd_tail_len; [by vm_compute|]. intros w Hw. apply split_whitespace_len in Hw.
    pose proof (before_len head CRLF). lia. }
  destruct (_ && _); [by apply yields_ret|]. destruct (negb _).
  - eapply yields_bind; [apply yields_write|intros; apply yields_fail].
  - apply yields_bind with (P := fun d => len (fst d) <= MAX_HTTP_HEADER_BYTES /\ 0 <= snd d < 65536).
    + intros s [h n] s' _ E. injection E as E <-. apply connect_target_typed in E. cbn [fst snd].
      split; [lia|]. by exists [].
    + intros [h n] [Hh Hn]. cbn [fst snd] in *. eapply yields_bind; [by apply yields_accept|].
      intros r Hr. by apply yields_ret.
Qed.

(** C30. The values a handshake hands on are of the types the rest of the proxy relies on, whatever bytes arrive: an accepted request has a port from 1 to 65535 and a host name that is not empty and at most as long as its protocol allows (255 bytes in SOCKS5, 256 in SOCKS4, the size of the request head in HTTP), and what is left of the connection is a suffix of what arrived, so nothing is lost, duplicated or reordered in front of the tunnel. *)
Theorem accepted_request_is_well_typed s a s' :
  bytes_ok (Sock.input s) -> negotiate stop can_write s = (Ok a, s') ->
  asked_ok a /\ exists p, Sock.input s = p ++ Sock.input s'.
Proof.
  intros F E. revert s a s' F E. change (yields (negotiate stop can_write) asked_ok).
  unfold negotiate. eapply yields_bind; [apply yields_read_byte|]. intros b Hb.
  destruct (_ =? _); [eapply yields_bind; [apply yields_socks5|intros r Hr; by apply yields_ret]|].
  destruct (_ =? _); [eapply yields_bind; [apply yields_socks4|intros r Hr; by apply yields_ret]|].
  destruct (_ && _); [by apply yields_http|apply yields_fail].
Qed.
End accepted.

(** ** What a connection leaves behind *)

(** Below the point where a counter wraps, with the nine classes of failure. *)
Definition counters_ok (c : Counters.t) : Prop :=
  len (Counters.failed c) = 9 /\
  Forall (fun n => 0 <= n < 2 ^ 64 - 1) (Counters.failed c) /\
  Forall (fun n => 0 <= n < 2 ^ 64 - 1)
    [Counters.handshake_failed c; Counters.status_requests c; Counters.socks5 c;
     Counters.socks4 c; Counters.http_connect c; Counters.onion c; Counters.succeeded c; Counters.active c].

(** The connections whose opening was read, by what they asked in; and those
    that have been answered for. *)
Definition spoken (c : Counters.t) : Z :=
  Counters.handshake_failed c + Counters.status_requests c +
  Counters.socks5 c + Counters.socks4 c + Counters.http_connect c.
Definition sum (l : list Z) : Z := foldr Z.add 0 l.
Definition answered_for (c : Counters.t) : Z :=
  Counters.handshake_failed c + Counters.status_requests c + Counters.succeeded c + sum (Counters.failed c).

Lemma u64_small n : 0 <= n < 2 ^ 64 -> u64 n = n.
Proof. apply Z.mod_small. Qed.

Lemma reply_code_cases e : In (reply_code e) [1; 2; 4; 5; 6].
Proof.
  unfold reply_code. destruct (Prelude.payload e) as [m|reason].
  - destruct (kind e); cbn; tauto.
  - repeat destruct (_ =? _); cbn; tauto.
Qed.

Lemma reply_code_not_success p e : reply_bytes p (reply_code e) <> reply_bytes p REP_SUCCEEDED.
Proof.
  pose proof (reply_code_cases e) as H. cbn in H.
  destruct H as [<-|[<-|[<-|[<-|[<-|[]]]]]], p; by vm_compute.
Qed.

Lemma sum_alter i l :
  Forall (fun n => 0 <= n < 2 ^ 64 - 1) l -> (i < length l)%nat ->
  sum (alter (fun n => u64 (n + 1)) i l) = sum l + 1.
Proof.
  revert i. induction l as [|x l IH]; intros i F L; [cbn in L; lia|]. inversion_clear F as [|? ? Hx F'].
  destruct i as [|i]; unfold alter in *; cbn [list_alter sum foldr].
  - rewrite u64_small by lia. lia.
  - unfold sum in IH. rewrite IH; [lia|done|cbn in L; lia].
Qed.

Lemma sum_failed e c :
  counters_ok c -> sum (Counters.failed (failed (reply_code e) c)) = sum (Counters.failed c) + 1.
Proof.
  intros (L & F & _). unfold failed. cbn. apply sum_alter; [done|]. rewrite L.
  pose proof (reply_code_cases e) as H. unfold len in L. cbn in H. destruct H as [<-|[<-|[<-|[<-|[<-|[]]]]]]; lia.
Qed.

#[local] Arguments sum : simpl never.

Section outcome.
Context `{Crypto} (stop : io_error) (can_write : bytes -> result unit) (tor : Tor).

(** What [serve] may do to the counters, whichever way it ends. *)
Definition counted (p : Protocol) (w w' : World.t) : Prop :=
  let c := World.counters w in let c' := World.counters w' in
  Counters.accepted c' = Counters.accepted c /\ spoken c' = spoken c + 1 /\
  Counters.handshake_failed c' = Counters.handshake_failed c /\
  Counters.status_requests c' = Counters.status_requests c /\
  Counters.active c' = Counters.active c /\ World.streams w' = World.streams w.

Lemma filter_out (n : nat) l : n ∉ l -> filter (fun m => m <> n) (n :: l) = l.
Proof.
  intros N. rewrite filter_cons_False by (intros K; by apply K).
  induction l as [|m l IH]; [done|]. rewrite filter_cons_True by set_solver. f_equal. set_solver.
Qed.

(** Projections of an explicit record of counters, below the point where they wrap. *)
Ltac books := repeat split; cbn; repeat rewrite (u64_small (_ + 1)) by lia; rewrite ?u64_small by lia; try done; lia.

(** Everything [handle] does after the handshake keeps the books: the request
    is counted under its protocol, and it ends either answered, with the stream
    it opened closed, or not answered because the answer could not be written. *)
Lemma serve_counted r w w' :
  counters_ok (World.counters w) ->
  (forall n, connect tor r = Some (Ok n) -> n ∉ World.streams w) ->
  serve can_write tor r w = Finished w' ->
  counted (protocol r) w w' /\
  exists res sent, connect tor r = Some res /\
    World.sock w' = snd (send_reply can_write (protocol r)
      (match res with Ok _ => REP_SUCCEEDED | Err e => reply_code e end) (World.sock w)) /\
    sent = can_write (Sock.output (World.sock w)) /\
    match res with
    | Err e =>
        Counters.failed (World.counters w') = Counters.failed (failed (reply_code e) (World.counters w)) /\
        Counters.succeeded (World.counters w') = Counters.succeeded (World.counters w)
    | Ok _ =>
        Counters.failed (World.counters w') = Counters.failed (World.counters w) /\
        Counters.succeeded (World.counters w') =
          Counters.succeeded (World.counters w) + match sent with Ok _ => 1 | Err _ => 0 end
    end.
Proof.
  intros (L & F & B) Hs E. unfold serve in E. 
  destruct w as [s c ss]. destruct c. cbn [World.counters World.streams World.sock] in *. cbn in B.
  repeat match goal with F : Forall _ (_ :: _) |- _ => apply Forall_cons in F as [? F] end.
  destruct (is_onion (host r)) as [named|]; [|done]. destruct (negb _); [by destruct named|].
  destruct (connect tor r) as [[n|e]|] eqn:C; [|..|by destruct named].
  - unfold tunnel, reply, send_reply, write_all in E. destruct (t_relay tor n) as [[up down] how].
    destruct s as [i o]. unfold send_reply, write_all, counted, spoken.
    cbn [World.sock World.counters World.streams Sock.output Sock.input bump close_stream] in *.
    assert (D : filter (fun m => m <> n) (n :: ss) = ss) by (by apply filter_out, Hs).
    destruct named; cbn in E; destruct (can_write o) eqn:W; injection E as <-; cbn.
    all: split; [|exists (Ok n), (can_write o); rewrite W]; destruct (protocol r); cbn; rewrite ?D; books.
  - unfold reply, send_reply, write_all in E. destruct s as [i o].
    unfold send_reply, write_all, counted, spoken.
    destruct named; cbn in E; destruct (can_write o) eqn:W; injection E as <-; cbn.
    all: split; [|exists (Err e), (can_write o); rewrite W]; destruct (protocol r); books.
Qed.

(** The status page adds up.  Every connection that is handled to its end is counted exactly once by how it opened (a failed handshake, the status page, or one of the three protocols), and if its answer can be written also exactly once by how it was answered (a failed handshake, the status page, a tunnel, or one of the nine classes of failure); the number of active tunnels is back where it was, and every stream it opened is closed. *)
Theorem status_page_adds_up w w' :
  counters_ok (World.counters w) -> 0 <= Counters.accepted (World.counters w) < 2 ^ 64 - 1 ->
  t_timeout tor = Ok tt ->
  (forall r n, connect tor r = Some (Ok n) -> n ∉ World.streams w) ->
  handle stop can_write tor w = Finished w' ->
  let c := World.counters w in let c' := World.counters w' in
  Counters.accepted c' = Counters.accepted c + 1 /\ spoken c' = spoken c + 1 /\
  Counters.active c' = Counters.active c /\ World.streams w' = World.streams w /\
  ((forall o, can_write o = Ok tt) -> answered_for c' = answered_for c + 1).
Proof.
  intros Hc Ha Ht Hf E. unfold handle in E. rewrite Ht in E.
  destruct (negotiate _ _ _) as [[[r|]|e] s1].
  - apply serve_counted in E; [|exact Hc|by apply Hf].
    destruct E as [(A & B & C & D & F & G) (res & sent & _ & _ & -> & L)].
    destruct w as [sk c ss]. pose proof (fun e => sum_failed e _ Hc) as S. destruct c.
    cbn in A, B, C, D, F, G, L, Ha, S |- *. rewrite u64_small in A by lia.
    repeat (split; [done|]). intros W. unfold answered_for. cbn. rewrite C, D. rewrite W in L. cbn in L.
    destruct res as [n|e]; destruct L as [-> ->]; [lia|]. rewrite (S e). lia.
  - destruct w as [sk c ss], c, Hc as (_ & _ & B). cbn in B, Ha.
    apply Forall_cons in B as [? B]. apply Forall_cons in B as [? _].
    injection E as <-. unfold spoken, answered_for, serve_status. books.
  - destruct w as [sk c ss], c, Hc as (_ & _ & B). cbn in B, Ha. apply Forall_cons in B as [? _].
    injection E as <-. unfold spoken, answered_for. books.
Qed.

(** The client is told what happened, in its own protocol.  Once a request has been read, a connection that is handled to its end has been answered with exactly one reply, written behind the handshake: the success reply of its protocol if the stream to the destination was opened, and otherwise the reply for the class of the failure, which is never the success reply and which is the class the status page counts it under. *)
Theorem client_is_told_the_outcome w w' r s :
  counters_ok (World.counters w) -> t_timeout tor = Ok tt ->
  (forall r n, connect tor r = Some (Ok n) -> n ∉ World.streams w) ->
  negotiate stop can_write (World.sock w) = (Ok (AskedConnect r), s) ->
  can_write (Sock.output s) = Ok tt ->
  handle stop can_write tor w = Finished w' ->
  exists res, connect tor r = Some res /\
    Sock.output (World.sock w') = Sock.output s ++ reply_bytes (protocol r)
      (match res with Ok _ => REP_SUCCEEDED | Err e => reply_code e end) /\
    match res with
    | Ok _ => Counters.succeeded (World.counters w') = Counters.succeeded (World.counters w) + 1
    | Err e =>
        reply_bytes (protocol r) (reply_code e) <> reply_bytes (protocol r) REP_SUCCEEDED /\
        Counters.failed (World.counters w') = Counters.failed (failed (reply_code e) (World.counters w))
    end.
Proof.
  intros Hc Ht Hf N W E. unfold handle in E. rewrite Ht in E. cbn [bump] in E.
  change (World.sock (bump _ w)) with (World.sock w) in E. rewrite N in E.
  apply serve_counted in E; [|exact Hc|by apply Hf].
  destruct E as [_ (res & sent & K & So & -> & L)]. exists res. split; [done|]. rewrite So. cbn.
  unfold send_reply, write_all. rewrite W. split; [done|]. cbn in L. rewrite W in L.
  destruct res as [n|e]; destruct L as [L1 L2]; [exact L2|]. split; [apply reply_code_not_success|exact L1].
Qed.
End outcome.

(** ** Concrete runs *)
Module SocksDemo.
Import Toy.

Definition eof : io_error := IoError UnexpectedEof (Message "").
Definition open (_ : bytes) : result unit := Ok tt.

Definition socks5_request : ClientRequest :=
  CSocks5 [METHOD_USER_PASS] (B "alice") (B "") (DestName (B "example.com")) 443.
Definition socks4a_request : ClientRequest := CSocks4 (B "me") (DestName (B "example.org")) 80.
Definition socks4_request : ClientRequest := CSocks4 [] (DestIp [192; 0; 2; 7]) 80.
Definition http_request : ClientRequest :=
  CHttp (B "example.net") 8443 (B "HTTP/1.1") [B "Host: example.net:8443"; B "User-Agent: x"].

Example socks5_bytes :
  encode_request socks5_request =
  [5; 1; 2; 1; 5] ++ B "alice" ++ [0; 5; 1; 0; 3; 11] ++ B "example.com" ++ [1; 187].
Proof. by vm_compute. Qed.

Lemma requests_well_formed :
  well_formed socks5_request /\ well_formed socks4a_request /\ well_formed http_request.
Proof.
  split; [|split]; cbn [well_formed socks5_request socks4a_request http_request].
  - repeat split; try (by vm_compute). right. by constructor.
  - repeat split; try (by vm_compute); apply Forall_forall; intros b Hb -> ; vm_compute in Hb; set_solver.
  - assert (P : forall s, forallb (fun b => (33 <=? b) && (b <? 127) && negb (b =? 91) && negb (b =? 93)) s = true ->
      Forall plain s /\ Forall (fun b => b <> 91 /\ b <> 93) s).
    { intros s Hs. rewrite forallb_forall in Hs. rewrite !Forall_forall. unfold plain.
      split; intros b Hb; apply list_elem_of_In, Hs in Hb; lia. }
    assert (Q : forall s, s <> [] -> forallb (fun b => (32 <=? b) && (b <? 127)) s = true ->
      line_ok s /\ Forall (fun b => 0 <= b < 128) s).
    { intros s Ns Hs. rewrite forallb_forall in Hs. unfold line_ok, CR, NL. rewrite !Forall_forall.
      split; [split; [done|]|]; intros b Hb; apply list_elem_of_In, Hs in Hb; lia. }
    destruct (P (B "example.net") ltac:(by vm_compute)) as [? ?].
    destruct (P (B "HTTP/1.1") ltac:(by vm_compute)) as [? _].
    repeat (split; [done|]). split; [|by vm_compute].
    constructor; [apply Q; by vm_compute|]. constructor; [apply Q; by vm_compute|]. by constructor.
Qed.

Lemma read_exactly_witness :
  exists rest,
  negotiate eof open (Sock.Mk (encode_request socks5_request ++ rest) []) =
    (Ok (AskedConnect (MkRequest (B "example.com") 443 Socks5)), Sock.Mk rest [5; 2; 1; 0]) /\
  negotiate eof open (Sock.Mk (encode_request socks4a_request ++ rest) []) =
    (Ok (AskedConnect (MkRequest (B "example.org") 80 Socks4)), Sock.Mk rest []) /\
  negotiate eof open (Sock.Mk (encode_request http_request ++ rest) []) =
    (Ok (AskedConnect (MkRequest (B "example.net") 8443 Http)), Sock.Mk rest []).
Proof.
  exists (B "hello"). destruct requests_well_formed as (W5 & W4 & Wh). split; [|split].
  - exact (request_read_exactly eof open (fun _ => eq_refl) socks5_request (B "hello") [] W5).
  - exact (request_read_exactly eof open (fun _ => eq_refl) socks4a_request (B "hello") [] W4).
  - exact (request_read_exactly eof open (fun _ => eq_refl) http_request (B "hello") [] Wh).
Defined.

Lemma well_typed_witness :
  exists s', bytes_ok (encode_request http_request ++ B "hello") /\
  asked_ok (AskedConnect (MkRequest (B "example.net") 8443 Http)) /\
  exists p, encode_request http_request ++ B "hello" = p ++ Sock.input s'.
Proof.
  exists (Sock.Mk (B "hello") []).
  assert (F : bytes_ok (encode_request http_request ++ B "hello")) by (apply (bool_decide_eq_true_1 (bytes_ok _)); by vm_compute).
  split; [exact F|].
  apply (accepted_request_is_well_typed eof open
    (Sock.Mk (encode_request http_request ++ B "hello") []) _ (Sock.Mk (B "hello") []) F).
  by vm_compute.
Defined.

(** One destination answers, every other one refuses. *)
Definition tor : Tor := {|
  t_timeout := Ok tt;
  t_page := fun ready => if ready then B "{}" else B "[]";
  t_ready := true;
  t_ever_ready := true;
  t_exit := fun host _ =>
    if bytes_eqb host (B "example.com") then Ok 7%nat
    else Err (IoError OtherError (StreamEnd END_REASON_CONNECTREFUSED));
  t_onion := fun _ _ => Err (IoError TimedOut (Message ""));
  t_relay := fun _ => (5, 1000, Ok tt);
|}.

Definition arriving (r : ClientRequest) : World.t :=
  World.Mk (Sock.Mk (encode_request r ++ B "hello") []) Counters.new [].
Definition final (r : ClientRequest) : World.t := outcome_world (handle eof open tor (arriving r)).

Lemma finishes :
  handle eof open tor (arriving socks5_request) = Finished (final socks5_request) /\
  handle eof open tor (arriving http_request) = Finished (final http_request).
Proof. split; by vm_compute. Qed.

Lemma new_ok : counters_ok Counters.new.
Proof. split; [done|]. split; repeat (apply Forall_cons; split; [cbn; lia|]); apply Forall_nil_2. Qed.

Lemma adds_up_witness :
  Counters.accepted (World.counters (final socks5_request)) = 1 /\
  answered_for (World.counters (final socks5_request)) = 1.
Proof.
  destruct (status_page_adds_up eof open tor (arriving socks5_request) (final socks5_request)
    new_ok ltac:(cbn; lia) eq_refl ltac:(intros; apply not_elem_of_nil) (proj1 finishes)) as (A & _ & _ & _ & E).
  split; [exact A|]. exact (E (fun _ => eq_refl)).
Defined.

Lemma told_witness :
  exists res, connect tor (MkRequest (B "example.net") 8443 Http) = Some res /\
    Sock.output (World.sock (final http_request)) =
      [] ++ reply_bytes Http (match res with Ok _ => REP_SUCCEEDED | Err e => reply_code e end).
Proof.
  destruct (client_is_told_the_outcome eof open tor (arriving http_request) (final http_request)
    (MkRequest (B "example.net") 8443 Http) (Sock.Mk (B "hello") [])
    new_ok eq_refl ltac:(intros; apply not_elem_of_nil) ltac:(by vm_compute) eq_refl (proj2 finishes))
    as (res & C & O & _).
  exists res. split; [exact C|exact O].
Defined.

(** The bytes of the two answers, and what the page counts. *)
Example told_success :
  Sock.output (World.sock (final socks5_request)) = [5; 2; 1; 0; 5; 0; 0; 1; 0; 0; 0; 0; 0; 0].
Proof. by vm_compute. Qed.
Example told_refusal :
  Sock.output (World.sock (final http_request)) =
  B "HTTP/1.1 502 Bad Gateway" ++ CRLF ++ B "Connection: close" ++ CRLF ++ CRLF.
Proof. by vm_compute. Qed.
Example counted_refusal :
  Counters.failed (World.counters (final http_request)) = [0; 0; 0; 0; 0; 1; 0; 0; 0].
Proof. by vm_compute. Qed.

(** The status page, a head without carriage returns, an address in brackets
    (which SOCKS5 would refuse as IPv6), and a connection that is no protocol. *)
Example status_request :
  negotiate eof open (Sock.Mk (B "GET /status HTTP/1.1" ++ CRLF ++ CRLF) []) = (Ok AskedStatus, Sock.Mk [] []).
Proof. by vm_compute. Qed.
Example bare_newlines :
  fst (negotiate eof open (Sock.Mk (B "CONNECT a.b:80 HTTP/1.1" ++ [NL; NL]) [])) =
  Ok (AskedConnect (MkRequest (B "a.b") 80 Http)).
Proof. by vm_compute. Qed.
Example bracketed_address :
  fst (negotiate eof open (Sock.Mk (B "CONNECT [::1]:80 HTTP/1.1" ++ CRLF ++ CRLF) [])) =
  Ok (AskedConnect (MkRequest (B "::1") 80 Http)).
Proof. by vm_compute. Qed.
Example ipv6_refused :
  Sock.output (snd (negotiate eof open (Sock.Mk ([5; 1; 0; 5; 1; 0; 4] ++ replicate 18 0) []))) =
  [5; 0; 5; 8; 0; 1; 0; 0; 0; 0; 0; 0].
Proof. by vm_compute. Qed.
Example tls_hello_is_no_protocol :
  match fst (negotiate eof open (Sock.Mk [22; 3; 1] [])) with Err e => kind e = InvalidData | Ok _ => False end.
Proof. by vm_compute. Qed.
End SocksDemo.
