(* ===== verification/Computation.v ===== *)
(** * Computations of the client: state, failure and waiting

    A computation threads a state and ends in a value or an error; it is
    [None] while an answer it needs has not come (the random words given have
    run out).  The state after a failure is kept, as it is in the program.
    [triple] is the Hoare logic the files on the client prove with. *)
From S2P Require Import Prelude.

Definition Comp (St A : Type) : Type := St -> option (St * result A).

#[export] Instance comp_ret {St} : MRet (Comp St) := fun A a s => Some (s, Ok a).
#[export] Instance comp_bind {St} : MBind (Comp St) := fun A C f m s =>
  match m s with
  | Some (s, Ok a) => f a s
  | Some (s, Err e) => Some (s, Err e)
  | None => None
  end.

Section operations.
Context {St : Type}.

Definition fail {A} (e : io_error) : Comp St A := fun s => Some (s, Err e).
Definition lift {A} (r : result A) : Comp St A := fun s => Some (s, r).
Definition attempt {A} (m : Comp St A) : Comp St (result A) := fun s =>
  match m s with Some (s, r) => Some (s, Ok r) | None => None end.
Definition get : Comp St St := fun s => Some (s, Ok s).
Definition put (f : St -> St) : Comp St unit := fun s => Some (f s, Ok tt).
End operations.

(** A step that succeeds. *)
Lemma bind_ok {St A C} (m : Comp St A) (f : A -> Comp St C) s s1 a :
  m s = Some (s1, Ok a) -> (m ≫= f) s = f a s1.
Proof. intros E. unfold mbind, comp_bind. by rewrite E. Qed.

Lemma bind_err {St A C} (m : Comp St A) (f : A -> Comp St C) s s1 e :
  m s = Some (s1, Err e) -> (m ≫= f) s = Some (s1, Err e).
Proof. intros E. unfold mbind, comp_bind. by rewrite E. Qed.

Lemma bind_inv {St A C} (m : Comp St A) (f : A -> Comp St C) s s' c :
  (m ≫= f) s = Some (s', Ok c) -> exists s1 a, m s = Some (s1, Ok a) /\ f a s1 = Some (s', Ok c).
Proof.
  unfold mbind, comp_bind. destruct (m s) as [[s1 [a|e]]|]; [|done|done]. intros E. by exists s1, a.
Qed.

Lemma bind_lift {St A C} (a : A) (f : A -> Comp St C) s : (lift (Ok a) ≫= f) s = f a s.
Proof. done. Qed.
Lemma bind_get {St C} (f : St -> Comp St C) s : (get ≫= f) s = f s s.
Proof. done. Qed.

(** ** A logic

    [triple P m Q E]: run in a state with [P], [m] ends in a state with [Q] of
    its result, or fails in one with [E]. *)
Definition triple {St A} (P : St -> Prop) (m : Comp St A) (Q : A -> St -> Prop) (E : St -> Prop) : Prop :=
  forall s s' r, P s -> m s = Some (s', r) -> match r with Ok a => Q a s' | Err _ => E s' end.

Section triples.
Context {St A : Type}.
Implicit Types (P E : St -> Prop) (Q : A -> St -> Prop) (m : Comp St A).

Lemma triple_conseq P P' m Q Q' E E' :
  triple P' m Q' E' -> (forall s, P s -> P' s) -> (forall a s, Q' a s -> Q a s) -> (forall s, E' s -> E s) ->
  triple P m Q E.
Proof. intros T H1 H2 H3 s s' r Hs R. specialize (T s s' r (H1 s Hs) R). destruct r; auto. Qed.

Lemma triple_ret P Q E (a : A) : (forall s, P s -> Q a s) -> triple P (mret a) Q E.
Proof. intros H s s' r Hs [= <- <-]. auto. Qed.

Lemma triple_fail P Q E e : (forall s, P s -> E s) -> triple P (fail e) Q E.
Proof. intros H s s' r Hs [= <- <-]. auto. Qed.

Lemma triple_lift P Q E (r : result A) :
  (forall a s, r = Ok a -> P s -> Q a s) -> (forall s, P s -> E s) -> triple P (lift r) Q E.
Proof. intros H1 H2 s s' r' Hs [= <- <-]. destruct r; auto. Qed.

Lemma triple_bind {C} P m Q E (f : A -> Comp St C) R :
  triple P m Q E -> (forall a, triple (Q a) (f a) R E) -> triple P (m ≫= f) R E.
Proof.
  intros Tm Tf s s' r Hs B. unfold mbind, comp_bind in B. destruct (m s) as [[s1 [a|e]]|] eqn:Em; [|..|done].
  - exact (Tf a s1 s' r (Tm s s1 (Ok a) Hs Em) B).
  - injection B as <- <-. exact (Tm s s1 (Err e) Hs Em).
Qed.

(** An attempt never fails. *)
Lemma triple_attempt P m Q E :
  triple P m Q E ->
  triple P (attempt m) (fun r s => match r with Ok a => Q a s | Err _ => E s end) (fun _ => False).
Proof.
  intros T s s' r Hs B. unfold attempt in B. destruct (m s) as [[s1 r1]|] eqn:Em; [|done].
  injection B as <- <-. exact (T s s1 r1 Hs Em).
Qed.

Lemma triple_pre P (F : Prop) m Q E : (F -> triple P m Q E) -> triple (fun s => F /\ P s) m Q E.
Proof. intros H s s' r [HF Hs] B. by apply (H HF s s' r). Qed.
End triples.

Lemma triple_put {St} (P : St -> Prop) (f : St -> St) (Q : unit -> St -> Prop) E :
  (forall s, P s -> Q tt (f s)) -> triple P (put f) Q E.
Proof. intros H s s' r Hs [= <- <-]. auto. Qed.

Lemma triple_get {St} (P E : St -> Prop) : triple P get (fun a s => P s /\ a = s) E.
Proof. by intros s s' r Hs [= <- <-]. Qed.

Lemma triple_get_bind {St C} (P : St -> Prop) (f : St -> Comp St C) Q E :
  (forall s0, triple (fun s => P s /\ s = s0) (f s0) Q E) -> triple P (s ← get; f s) Q E.
Proof.
  intros H. eapply triple_bind; [apply triple_get with (E := E)|]. intros s0.
  eapply triple_conseq; [apply (H s0)|by intros s [? ->]|done|done].
Qed.

(** An attempt whose success and failure both end well. *)
Lemma triple_tried {St A C} (P : St -> Prop) (m : Comp St A) Q1 E1 (f : result A -> Comp St C) Q E :
  triple P m Q1 E1 ->
  (forall a, triple (Q1 a) (f (Ok a)) Q E) -> (forall e, triple E1 (f (Err e)) Q E) ->
  triple P (r ← attempt m; f r) Q E.
Proof.
  intros T HQ HE.
  apply triple_bind with (Q := fun r s => match r with Ok a => Q1 a s | Err _ => E1 s end).
  - eapply triple_conseq; [by apply triple_attempt|done|intros a s Hs; exact Hs|done].
  - intros [a|e]; [apply HQ|apply HE].
Qed.
