(* ===== verification/Telescope.v ===== *)
(** * Opening circuits ([src/src/tor/circuit.rs], [create] to [extend_with])

    A circuit is opened by a handshake with the first relay and extended by
    handshakes that travel through it.  What is at the other end of the
    channel is an interface ([Peer]): a hostile one says whatever it likes,
    and the honest one of [Honest] runs the relays' side of the protocol.
    The theorems join the handshakes of [Handshake], the layers of [Relay] and
    the pump of [Circuit]. *)
From S2P Require Import Prelude.
From S2P Require Import Text.
From S2P Require Import Cells.
From S2P Require Import Cc.
From S2P Require Import Crypto.
From S2P Require Import Relay.
From S2P Require Import Circuit.
From S2P Require Import Handshake.
From S2P Require Import Computation.

(** ** The other end of the channel *)

(** It reacts to each cell of the circuit with cells of its own, each with the
    time of its arrival. *)
Class Peer (End_ : Type) := { react : End_ -> Cell.t -> End_ * list (Z * Cell.t) }.

Module Wire.
Record t (End_ : Type) := Mk { inner : Inner.t; peer : End_; arriving : list (Z * Cell.t) }.
Arguments Mk {End_} _ _ _.
Arguments inner {End_} _.
Arguments peer {End_} _.
Arguments arriving {End_} _.
End Wire.

Section opening.
Context `{Crypto} {End_ : Type} `{Peer End_}.
Context (rng : Z -> result bytes).
(** The secret drawn for the hop of each number. *)
Context (generate : nat -> result bytes).
Abbreviation M := (Comp (Wire.t End_)).

Fixpoint reactions (p : End_) (cells : list Cell.t) : End_ * list (Z * Cell.t) :=
  match cells with
  | [] => (p, [])
  | c :: cells =>
      let '(p, a) := react p c in
      let '(p, b) := reactions p cells in (p, a ++ b)
  end.

(** An operation of the circuit; the other end reacts to what it sends. *)
Definition operate {A} (f : Inner.t -> Inner.t * result A) : M A := fun w =>
  let '(i, r) := f (Wire.inner w) in
  let '(p, arrivals) := reactions (Wire.peer w) (drop (length (Inner.sent (Wire.inner w))) (Inner.sent i)) in
  Some (Wire.Mk i p (Wire.arriving w ++ arrivals), r).

(** The pump, on the cells that have come while somebody waits. *)
Fixpoint deliver (cells : list (Z * Cell.t)) (i : Inner.t) : Inner.t :=
  match cells with
  | [] => i
  | (now, cell) :: cells =>
      if Inner.closed i then pump_end i
      else
        match handle_cell rng now i cell with
        | (i, Ok _) => deliver cells i
        | (i, Err _) => pump_end i
        end
  end.

(** [wait_for_handshake]: what the other end has sent arrives; if that is no
    answer, the thirty seconds run out. *)
Definition await : M bytes := fun w =>
  match wait_for_handshake (deliver (Wire.arriving w) (Wire.inner w)) true with
  | (i, Done r) => Some (Wire.Mk i (Wire.peer w) [], r)
  | (_, Wait) => None
  end.

Definition hop_count (w : Wire.t End_) : nat := length (State.hops (Inner.state (Wire.inner w))).
Definition secret (w : Wire.t End_) : result bytes := generate (hop_count w).

(** A cell of the circuit, handed to the channel. *)
Definition send (command : Z) (body : bytes) : M unit :=
  operate (fun i => match Cell.new (Inner.circ_id i) command body with
                    | Ok cell => send_cell i cell
                    | Err e => (i, Err e)
                    end).

Definition establish (keys : CircuitKeys) : M unit :=
  operate (fun i => (push_hop i (Hop.new keys), Ok tt)).

Definition do_create_fast : M unit :=
  w ← get;
  '(client, x) ← lift (CreateFast.new (secret w));
  _ ← send CMD_CREATE_FAST x;
  reply ← await;
  match CreateFast.finish client reply with
  | Some finished => keys ← lift finished; establish keys
  | None => fun _ => None
  end.

Definition create2_body (htype : Z) (skin : bytes) : bytes := to_be 2 htype ++ to_be 2 (as_u16 (len skin)) ++ skin.

Definition do_create (first : RelayInfo) : M unit :=
  w ← get;
  '(handshake, htype, skin) ← lift (start (secret w) first []);
  _ ← send CMD_CREATE2 (create2_body htype skin);
  reply ← await;
  '(keys, _) ← lift (finish handshake reply);
  establish keys.

Definition shut : M unit := operate (fun i => (close i, Ok tt)).

(** [create] and [create_fast], once the circuit is registered. *)
Definition closing_on_error (m : M unit) : M unit :=
  r ← attempt m;
  match r with
  | Ok _ => mret tt
  | Err e => _ ← shut; fail e
  end.
Definition create (first : RelayInfo) : M unit := closing_on_error (do_create first).
Definition create_fast : M unit := closing_on_error do_create_fast.

Definition asking (next : RelayInfo) (congestion : option CcParams.t) : option CcParams.t :=
  p ← congestion;
  if (CcParams.alg p =? 2) && bool_decide (is_Some (ed_identity next)) then Some p else None.

Definition extend_with (next : RelayInfo) (congestion : option CcParams.t) : M unit :=
  let asking := asking next congestion in
  let extensions := match asking with Some _ => [NtorV3.MkExtension EXT_CC_REQUEST []] | None => [] end in
  w ← get;
  '(handshake, htype, skin) ← lift (start (secret w) next extensions);
  let payload := build_extend2 next htype skin in
  last_hop ← lift (last_hop (Wire.inner w));
  _ ← operate (fun i => send_relay rng i last_hop RELAY_EXTEND2 0 payload true);
  reply ← await;
  '(keys, answered) ← lift (finish handshake reply);
  _ ← establish keys;
  match asking with
  | Some params =>
      operate (fun i => adopt_congestion_control i
        (map (fun e => (NtorV3.kind e, NtorV3.body e)) answered) params)
  | None => mret tt
  end.
Definition extend (next : RelayInfo) : M unit := extend_with next None.

Fixpoint extend_all (path : list RelayInfo) : M unit :=
  match path with
  | [] => mret tt
  | next :: path => _ ← extend next; extend_all path
  end.

(** [extend_path] of [client.rs], for a path of any length. *)
Definition open_path (first : RelayInfo) (path : list RelayInfo) : M unit :=
  _ ← create first; closing_on_error (extend_all path).

(** What has come is handled while somebody waits for a stream. *)
Definition arrive : M unit := fun w =>
  Some (Wire.Mk (deliver (Wire.arriving w) (Wire.inner w)) (Wire.peer w) [], Ok tt).

Definition answered_on (i : Inner.t) (r : nat) : bool :=
  match Inner.objects i !! r with
  | Some s => Stream.connected s || bool_decide (is_Some (Stream.ended s))
  | None => false
  end.

(** [probe], with [r] the name of the stream it opens. *)
Definition probe (r : nat) : M unit :=
  r ← operate (fun i => begin_dir_stream rng i r);
  _ ← arrive;
  w ← get;
  _ ← operate (fun i => (close_stream rng i r, Ok tt));
  if answered_on (Wire.inner w) r then
    operate (fun i => (i{{Inner.meter := (Inner.meter i){{Meter.wants_probe := false}} }}, Ok tt))
  else fail (IoError TimedOut (Message "the circuit did not answer a directory request")).
End opening.

(** *** What the log and the errors say *)
Definition end_reason_name (reason : Z) : string :=
  if reason <? 1 then "UNKNOWN"
  else default "UNKNOWN" (["MISC"; "RESOLVEFAILED"; "CONNECTREFUSED"; "EXITPOLICY"; "DESTROY"; "DONE"; "TIMEOUT"; "NOROUTE";
    "HIBERNATING"; "INTERNAL"; "RESOURCELIMIT"; "CONNRESET"; "TORPROTOCOL"; "NOTDIRECTORY"]%string
    !! Z.to_nat (reason - 1)).
Definition handshake_name (htype : Z) : string :=
  if htype =? Ntor.HANDSHAKE_TYPE_NTOR then "ntor"
  else if htype =? NtorV3.HANDSHAKE_TYPE_NTOR_V3 then "ntor-v3" else "an unknown handshake".
(** The round trip is in microseconds. *)
Definition window_ceiling_kbps (round_trip : Z) : Z :=
  CIRCUIT_WINDOW_START * RELAY_DATA_MAX * 1000 / Z.max 1 round_trip.

(** ** The relays' side *)

(** A relay: what the directory says of it, its onion secret and the ephemeral
    one it draws, and the extensions it answers with. *)
Record Party := MkParty {
  info : RelayInfo; onion_secret : bytes; ephemeral : bytes; answers : list NtorV3.Extension }.

Module Honest.
(** The relays of the circuit so far, with their cipher states; those it can
    be extended to; and whether a relay has ever taken another's cell for its
    own, a coincidence of four digest bytes. *)
Record t := Mk {
  hops : list Hop.t;
  members : list RelayInfo;
  first : Party;
  others : list Party;
  confused : bool;
}.
End Honest.

Section relays.
Context `{Crypto}.

Definition party_answers (p : Party) (htype : Z) (skin : bytes) : option (bytes * CircuitKeys) :=
  if htype =? Ntor.HANDSHAKE_TYPE_NTOR then
    ntor_relay (onion_secret p) (ephemeral p) (rsa_identity (info p)) skin
  else if htype =? NtorV3.HANDSHAKE_TYPE_NTOR_V3 then
    ed ← ed_identity (info p);
    match NtorV3.encode_extensions (answers p) with
    | Ok message =>
        '(reply, keys, _) ← v3_relay (onion_secret p) (ephemeral p) ed NtorV3.CIRC_VERIFICATION skin message;
        Some (reply, keys)
    | Err _ => None
    end
  else None.

(** The link specifiers at the head of an EXTEND2, and what follows. *)
Fixpoint skip_specifiers (n : nat) (payload : bytes) : bytes :=
  match n with
  | O => payload
  | S n => skip_specifiers n (slice_from payload (2 + byte_at payload 1))
  end.
Definition read_extend2 (payload : bytes) : bytes * Z * bytes :=
  let rest := skip_specifiers (Z.to_nat (byte_at payload 0)) (slice_from payload 1) in
  let specifiers := slice_to payload (len payload - len rest) in
  (specifiers, from_be (slice rest 0 2), slice rest 4 (4 + from_be (slice rest 2 4))).

Definition reply_body (reply : bytes) : bytes := to_be 2 (len reply) ++ reply.

(** CREATE2 at the first relay. *)
Definition answer_create (n : Honest.t) (c : Cell.t) : option (Honest.t * list (Z * Cell.t)) :=
  let body := Cell.body c in
  let skin := slice body 4 (4 + from_be (slice body 2 4)) in
  '(reply, keys) ← party_answers (Honest.first n) (from_be (slice body 0 2)) skin;
  match Honest.hops n, Cell.new (Cell.circ_id c) CMD_CREATED2 (reply_body reply) with
  | [], Ok cell =>
      Some (n{{Honest.hops := [Hop.new keys]; Honest.members := [info (Honest.first n)] }}, [(0, cell)])
  | _, _ => None
  end.

(** RELAY_EARLY EXTEND2 at the last relay, which asks the next one. *)
Definition answer_extend (n : Honest.t) (c : Cell.t) : option (Honest.t * list (Z * Cell.t)) :=
  match relays_receive (Honest.hops n) (Cell.body c) with
  | (hops, body, Some (k, _)) =>
      if bool_decide (S k = length hops) then
        match relay_message body with
        | Ok (command, _, payload) =>
            if command =? RELAY_EXTEND2 then
              let '(specifiers, htype, skin) := read_extend2 payload in
              '(_, next) ← list_find (fun p => link_specifiers (info p) = specifiers) (Honest.others n);
              '(reply, keys) ← party_answers next htype skin;
              '(after, out) ← relays_send hops k (relay_body RELAY_EXTENDED2 0 (reply_body reply));
              Some (n{{Honest.hops := after ++ [Hop.new keys];
                       Honest.members := Honest.members n ++ [info next];
                       Honest.confused := Honest.confused n || mistaken Bwd hops k out }},
                    [(0, Cell.Mk (Cell.circ_id c) CMD_RELAY out)])
            else None
        | Err _ => None
        end
      else Some (n{{Honest.hops := hops; Honest.confused := true }}, [])
  | (hops, _, None) => Some (n{{Honest.hops := hops}}, [])
  end.

Definition honest_react (n : Honest.t) (c : Cell.t) : Honest.t * list (Z * Cell.t) :=
  match (if Cell.command c =? CMD_CREATE2 then answer_create n c
         else if Cell.command c =? CMD_RELAY_EARLY then answer_extend n c
         else None) with
  | Some answer => answer
  | None => (n, [])
  end.
#[export] Instance honest : Peer Honest.t := { react := honest_react }.
End relays.

(** ** Agreement on keys *)

Section agreement.
Context `{CryptoLaws}.

Record info_ok (r : RelayInfo) : Prop := {
  ip_len : len (addr_ip r) = 4;
  rsa_len : len (rsa_identity r) = 20;
  ed_len : forall ed, ed_identity r = Some ed -> len ed = 32;
}.

(** An honest relay: the directory has its onion key, and its answers fit. *)
Record sound (p : Party) : Prop := {
  its_info : info_ok (info p);
  its_key : ntor_onion_key (info p) = x25519_public (onion_secret p);
  its_answers : exists message, NtorV3.encode_extensions (answers p) = Ok message /\ len message <= 200;
}.

(** No shared secret of [x] with the relay is degenerate. *)
Definition meets (p : Party) (x : bytes) : Prop :=
  is_Some (x25519 (onion_secret p) (x25519_public x)) /\ is_Some (x25519 (ephemeral p) (x25519_public x)).

Lemma ntor_answers (p : Party) x skin :
  meets p x -> slice skin 52 84 = x25519_public x ->
  exists reply keys, ntor_relay (onion_secret p) (ephemeral p) (rsa_identity (info p)) skin = Some (reply, keys) /\
    len reply = 64.
Proof.
  intros [[xb Db] [xy Dy]] E. unfold ntor_relay. rewrite E, Db, Dy. cbn [mbind option_bind].
  eexists _, _. split; [reflexivity|]. by rewrite len_app, x25519_public_len, hmac_len.
Qed.

Lemma v3_reply_len b y id ver skin message reply keys m :
  v3_relay b y id ver skin message = Some (reply, keys, m) -> len reply = 64 + len message.
Proof.
  unfold v3_relay. destruct (x25519 b _); [cbn [mbind option_bind]|done].
  destruct (negb _); [done|]. destruct (x25519 y _); [cbn [mbind option_bind]|done].
  intros [= <- _ _]. rewrite !len_app, x25519_public_len, h_len, len_enc. lia.
Qed.

Lemma v3_skin_len x id b message ver c skin :
  len id = 32 -> len b = 32 -> NtorV3.build x id b message ver = Ok (c, skin) -> len skin = 128 + len message.
Proof.
  unfold NtorV3.build. intros Hi Hb. destruct (diffie_hellman x b); [cbn [mbind result_bind]|done].
  intros [= _ <-]. rewrite !len_app, Hi, Hb, x25519_public_len, len_enc, mac_len. lia.
Qed.

(** The handshake with an honest relay, from the client's first message to the
    same keys on both sides. *)
Lemma party_agrees p x exts message :
  sound p -> meets p x -> NtorV3.encode_extensions exts = Ok message -> len message <= 100 ->
  exists hs htype skin reply keys answered,
    start (Ok x) (info p) exts = Ok (hs, htype, skin) /\ party_answers p htype skin = Some (reply, keys) /\
    finish hs reply = Ok (keys, answered) /\
    (htype = Ntor.HANDSHAKE_TYPE_NTOR \/ htype = NtorV3.HANDSHAKE_TYPE_NTOR_V3) /\
    len skin <= 228 /\ len reply <= 264 /\
    (answered = answers p \/ answered = []).
Proof.
  intros [I K (sm & Es & Ls)] Mt Em Lm.
  pose proof (handshake_keys_agree (info p) (onion_secret p) (ephemeral p) x exts) as A.
  assert (exists hs htype skin, start (Ok x) (info p) exts = Ok (hs, htype, skin)) as (hs & htype & skin & S).
  { unfold start. destruct (ed_identity (info p)) as [ed|]; [|by eexists _, _, _].
    unfold NtorV3.new, NtorV3.build, diffie_hellman. rewrite Em, K. cbn [mbind result_bind].
    rewrite x25519_agree. destruct (proj1 Mt) as [s ->]. by eexists _, _, _. }
  specialize (A hs htype skin K (rsa_len _ I) (ed_len _ I) S).
  assert (X : len (x25519_public x) = 32) by apply x25519_public_len.
  pose proof S as S0. unfold start in S. destruct (ed_identity (info p)) as [ed|] eqn:Ed.
  - destruct A as [-> A]. destruct (A (answers p) sm Es (proj2 Mt)) as (reply & keys & m & R & _ & F).
    exists hs, NtorV3.HANDSHAKE_TYPE_NTOR_V3, skin, reply, keys, (answers p).
    unfold NtorV3.new in S. rewrite Em in S. cbn [mbind result_bind] in S.
    destruct (NtorV3.build _ _ _ _ _) as [[c sk]|] eqn:B; [|done]. injection S as _ <-.
    apply v3_skin_len in B; [|by apply (ed_len _ I)|rewrite K; apply x25519_public_len].
    split_and!; [exact S0| |exact F|by right|lia|apply v3_reply_len in R; lia|by left].
    unfold party_answers. change (NtorV3.HANDSHAKE_TYPE_NTOR_V3 =? Ntor.HANDSHAKE_TYPE_NTOR) with false.
    change (NtorV3.HANDSHAKE_TYPE_NTOR_V3 =? NtorV3.HANDSHAKE_TYPE_NTOR_V3) with true. cbn iota.
    rewrite Ed. cbn [mbind option_bind]. by rewrite Es, R.
  - destruct A as (-> & Lk & A).
    destruct (Ntor.new _ _ _) as [[c sk]|] eqn:B; [|done]. injection S as <- <-.
    destruct (ntor_answers p x sk Mt) as (reply & keys & R & L).
    { injection B as _ <-. rewrite app_assoc. rewrite <- (app_nil_r (x25519_public x)) at 1.
      apply slice_app_at; rewrite !len_app, (rsa_len _ I), K, ?x25519_public_len; done. }
    exists (HsNtor c), Ntor.HANDSHAKE_TYPE_NTOR, sk, reply, keys, [].
    split_and!; [exact S0|exact R| |by left|unfold Ntor.CLIENT_HANDSHAKE_LEN in Lk; lia|lia|by right].
    specialize (A reply keys [] R). by rewrite app_nil_r in A.
Qed.
End agreement.

(** ** What the messages carry *)

Lemma resize0_app l n : len l <= n -> exists z, resize0 l n = l ++ z.
Proof. intros Hl. unfold resize0. rewrite take_ge by (unfold len in Hl; lia). by eexists. Qed.

(** The two-byte length before a reply, with anything after it. *)
Lemma handshake_reply_body reply z what :
  len reply < 65536 -> handshake_reply (reply_body reply ++ z) what = Ok reply.
Proof.
  intros Hr. pose proof (len_nonneg z). pose proof (len_nonneg reply). unfold handshake_reply, be_u16, reply_body. rewrite <- app_assoc, !len_app, len_to_be.
  destruct (Z.ltb_spec (Z.of_nat 2 + (len reply + len z)) (0 + 2)); [lia|]. rewrite slice_0_to, slice_to_app by (by rewrite len_to_be).
  rewrite from_be_to_be_small by (change (256 ^ Z.of_nat 2) with 65536; lia). cbn [mbind result_bind].
  destruct (Z.ltb_spec (Z.of_nat 2 + (len reply + len z)) (2 + len reply)); [lia|].
  f_equal. apply slice_app_at; rewrite len_to_be; lia.
Qed.

Lemma create2_read htype skin z :
  0 <= htype < 65536 -> len skin < 65536 ->
  let body := create2_body htype skin ++ z in
  from_be (slice body 0 2) = htype /\ slice body 4 (4 + from_be (slice body 2 4)) = skin.
Proof.
  intros Hh Hs body. pose proof (len_nonneg skin). unfold body, create2_body. rewrite <- !app_assoc.
  assert (E : as_u16 (len skin) = len skin) by (unfold as_u16; apply Z.mod_small; lia). rewrite E. split.
  - rewrite slice_0_to, slice_to_app by (by rewrite len_to_be). apply from_be_to_be_small.
    change (256 ^ Z.of_nat 2) with 65536. lia.
  - assert (L : slice (to_be 2 htype ++ to_be 2 (len skin) ++ skin ++ z) 2 4 = to_be 2 (len skin))
      by (apply slice_app_at; rewrite ?len_to_be; lia).
    rewrite L, from_be_to_be_small by (change (256 ^ Z.of_nat 2) with 65536; lia).
    rewrite (app_assoc (to_be 2 htype)). apply slice_app_at; rewrite !len_app, !len_to_be; lia.
Qed.

Lemma skip_specifiers_app specs : forall rest,
  Forall (fun s => len (snd s) < 256) specs ->
  skip_specifiers (length specs) (concat (map link_specifier specs) ++ rest) = rest.
Proof.
  induction specs as [|[k d] specs IH]; intros rest F; [done|]. apply Forall_cons in F as [Hd F]. cbn [snd] in Hd.
  cbn [length skip_specifiers map concat]. change (link_specifier (k, d)) with ([k; as_u8 (len d)] ++ d).
  pose proof (len_nonneg d).
  assert (E : as_u8 (len d) = len d) by (unfold as_u8; apply Z.mod_small; lia). rewrite E, <- !app_assoc.
  assert (S' : slice_from ([k; len d] ++ d ++ concat (map link_specifier specs) ++ rest)
      (2 + byte_at ([k; len d] ++ d ++ concat (map link_specifier specs) ++ rest) 1) =
    concat (map link_specifier specs) ++ rest).
  { rewrite (app_assoc [k; len d]). apply slice_from_app. by rewrite len_app. }
  rewrite S'. by apply IH.
Qed.

Lemma read_built_extend2 `{CryptoLaws} r htype skin :
  info_ok r -> 0 <= htype < 65536 -> len skin < 65536 ->
  read_extend2 (build_extend2 r htype skin) = (link_specifiers r, htype, skin).
Proof.
  intros [I R D] Hh Hs. pose proof (len_nonneg skin). unfold build_extend2.
  set (tail := to_be 2 htype ++ _).
  set (specs := [(0, addr_ip r ++ to_be 2 (addr_port r)); (2, rsa_identity r)]
    ++ match ed_identity r with Some ed => [(3, ed)] | None => [] end).
  assert (F : Forall (fun s => len (snd s) < 256) specs).
  { unfold specs. apply Forall_app. split.
    - repeat constructor; cbn [snd]; rewrite ?len_app, ?len_to_be, ?I, ?R; lia.
    - destruct (ed_identity r) as [ed|]; repeat constructor. cbn [snd]. rewrite (D ed eq_refl). lia. }
  assert (N : as_u8 (len specs) = len specs /\ 0 <= len specs < 4).
  { unfold specs. rewrite len_app. destruct (ed_identity r); by split. }
  assert (E : link_specifiers r = [len specs] ++ concat (map link_specifier specs)) by (unfold link_specifiers; fold specs; by rewrite (proj1 N)).
  rewrite E. unfold read_extend2. rewrite <- !app_assoc.
  assert (Sk : skip_specifiers (Z.to_nat (byte_at ([len specs] ++ concat (map link_specifier specs) ++ tail) 0))
    (slice_from ([len specs] ++ concat (map link_specifier specs) ++ tail) 1) = tail).
  { rewrite slice_from_app by done. change (byte_at _ 0) with (len specs).
    unfold len at 1. rewrite Nat2Z.id. by apply skip_specifiers_app. }
  rewrite Sk. rewrite app_assoc, slice_to_app by (rewrite len_app; lia).
  destruct (create2_read htype skin [] Hh Hs) as [T1 T2]. rewrite app_nil_r in T1, T2.
  change (create2_body htype skin) with tail in T1, T2. by rewrite T1, T2.
Qed.

Lemma build_extend2_len r htype skin : info_ok r -> len (build_extend2 r htype skin) <= 69 + len skin.
Proof.
  intros [I R D]. unfold build_extend2, link_specifiers. rewrite !len_app, !len_to_be. 
  destruct (ed_identity r) as [ed|]; cbn [map concat app]; unfold link_specifier; cbn [fst snd];
    rewrite ?len_app, ?len_to_be, ?I, ?R, ?(D _ eq_refl), ?len_cons; rewrite ?(@len_nil Z); lia.
Qed.

(** ** Whatever is at the other end *)

(** The number of hops, and whether the circuit is closed and registered. *)
Definition shape (i : Inner.t) : nat * bool * bool :=
  (length (State.hops (Inner.state i)), Inner.closed i, Inner.registered i).

Lemma shape_parts i j :
  shape i = shape j ->
  length (State.hops (Inner.state i)) = length (State.hops (Inner.state j)) /\
  Inner.closed i = Inner.closed j /\ Inner.registered i = Inner.registered j.
Proof. by intros [= A B C]. Qed.

(** A closed circuit is off the channel and has no stream left. *)
Definition shut_down (i : Inner.t) : Prop :=
  Inner.closed i = true -> Inner.registered i = false /\ Inner.streams i = empty.

Lemma seal_hops `{Crypto}d hops k body hops' out : seal d hops k body = Some (hops', out) -> length hops' = length hops.
Proof.
  unfold seal. destruct (hops !! k) as [target|]; [|done]. intros S%(inj Some).
  apply (f_equal (fun p => length (fst p))) in S. rewrite wrap_layers_hops, length_insert in S. exact (eq_sym S).
Qed.

Section shapes.
Context `{Crypto} (rng : Z -> result bytes).

Lemma send_cell_shape i c : shape (fst (send_cell i c)) = shape i.
Proof. unfold send_cell. by case_match. Qed.

Lemma peel_layers_hops d hops : forall body, length (fst (fst (peel_layers d hops body))) = length hops.
Proof.
  induction hops as [|h hops IH]; intros body; [done|]. cbn [peel_layers].
  destruct (Ctr.apply (cipher d h) body) as [c out]. destruct (recognise _ _ _) as [[[trial full] b]|]; [done|].
  specialize (IH out). destruct (peel_layers d hops out) as [[rest b] r]. cbn in *. by rewrite IH.
Qed.

Lemma build_relay_cell_hops st id hop cmd sid data early :
  length (State.hops (fst (build_relay_cell rng st id hop cmd sid data early))) = length (State.hops st).
Proof.
  unfold build_relay_cell. case_match; [done|]. case_match; [done|]. case_match; [done|].
  assert (L : length (State.hops (if early then st{{State.relay_early_left := State.relay_early_left st - 1}} else st)) =
              length (State.hops st)) by (by destruct early).
  cbv zeta. destruct (pad_body _ _ _) as [body|]; [|exact L].
  destruct (seal Fwd _ hop body) as [[hops out]|] eqn:S; [|exact L]. apply seal_hops in S. by rewrite L in S.
Qed.

Lemma send_relay_shape i hop cmd sid data early : shape (fst (send_relay rng i hop cmd sid data early)) = shape i.
Proof.
  unfold send_relay. pose proof (build_relay_cell_hops (Inner.state i) (Inner.circ_id i) hop cmd sid data early) as B.
  destruct (build_relay_cell _ _ _ _ _ _ _ _) as [st [c|e]]; cbn [fst] in B |- *.
  - rewrite send_cell_shape. unfold shape. cbn. by rewrite B.
  - unfold shape. cbn. by rewrite B.
Qed.

Lemma deliver_data_shape now i hop sid data : shape (fst (deliver_data rng now i hop sid data)) = shape i.
Proof.
  unfold deliver_data. destruct (lookup i sid); [|done]. cbv zeta. case_match; [|done]. by rewrite send_relay_shape.
Qed.

Lemma handle_data_shape now i hop sid data : shape (fst (handle_data rng now i hop sid data)) = shape i.
Proof.
  unfold handle_data. destruct (FlowControl.note_received _) as [flow [[|]|e]]; [|by rewrite deliver_data_shape|done].
  cbv zeta. match goal with |- context [build_relay_cell rng ?st ?id ?h ?c ?s ?d ?e] =>
    pose proof (build_relay_cell_hops st id h c s d e) as B end.
  destruct (build_relay_cell _ _ _ _ _ _ _ _) as [st [c|e]]; cbn [fst] in B; [|unfold shape; cbn; by rewrite B].
  destruct (send_cell _ c) as [j [u|e]] eqn:S; apply (f_equal fst) in S; cbn [fst] in S; subst j;
    rewrite ?deliver_data_shape; cbn [fst]; rewrite send_cell_shape; unfold shape; cbn; by rewrite B.
Qed.

Lemma on_stream_shape i sid f : shape (on_stream i sid f) = shape i.
Proof. unfold on_stream. by case_match. Qed.

Lemma dispatch_relay_shape now i hop cmd sid data : shape (fst (dispatch_relay rng now i hop cmd sid data)) = shape i.
Proof.
  unfold dispatch_relay. cbv zeta.
  case_match; [by destruct (handshake_reply _ _)|].
  case_match; [case_match; [by destruct (FlowControl.note_sendme _ _)|exact (on_stream_shape _ _ _)]|].
  case_match; [exact (handle_data_shape _ _ _ _ _)|]. case_match; [exact (on_stream_shape _ _ _)|].
  case_match; [exact (on_stream_shape _ _ _)|]. case_match; [done|].
  case_match; [case_match; [done|exact (on_stream_shape _ _ _)]|]. case_match; [|done].
  unfold State.push_control. by case_match.
Qed.

Lemma handle_cell_shape now i c : shape (fst (handle_cell rng now i c)) = shape i.
Proof.
  unfold handle_cell. cbv zeta. case_match; [by destruct (_ <? _)|].
  case_match; [by destruct (handshake_reply _ _)|]. case_match; [done|]. case_match; [|done]. unfold handle_relay.
  cbv zeta. case_match; [done|]. unfold decrypt_inbound.
  pose proof (peel_layers_hops Bwd (State.hops (Inner.state i)) (Cell.body c)) as P.
  destruct (peel_layers Bwd _ _) as [[hops body] [[k full]|]]; cbn [fst] in P; [|unfold shape; cbn; by rewrite P].
  destruct (relay_message body) as [[[cmd sid] data]|]; [rewrite dispatch_relay_shape|]; unfold shape; cbn; by rewrite P.
Qed.

Lemma fail_all_shape i reason : shape (fail_all i reason) = shape i /\ Inner.streams (fail_all i reason) = empty.
Proof.
  unfold fail_all. generalize (map snd (map_to_list (Inner.streams i))). intros refs.
  assert (G : forall j, shape (fold_left (fun i r => with_stream i r (fail_stream reason)) refs j) = shape j /\
    Inner.streams (fold_left (fun i r => with_stream i r (fail_stream reason)) refs j) = Inner.streams j).
  { induction refs as [|r refs IH]; intros j; [done|]. cbn [fold_left]. destruct (IH (with_stream j r (fail_stream reason))) as [A B].
    by rewrite A, B. }
  destruct (G (i{{Inner.streams := empty}})) as [A B]. by rewrite A, B.
Qed.
End shapes.

(** *** Where a handshake's reply comes from *)

(** The reply a message carries behind its length. *)
Definition carries_reply (data reply : bytes) : Prop :=
  2 <= len data /\ 2 + from_be (slice data 0 2) <= len data /\ reply = slice data 2 (2 + from_be (slice data 0 2)).

(** A cell of the other end gives the client, in state [i], a reply: it is a
    CREATED_FAST, a CREATED2, or a relay cell whose layers peel off to an
    EXTENDED2. *)
Inductive gives `{Crypto} (i : Inner.t) (c : Cell.t) (reply : bytes) : Prop :=
| gives_created_fast :
    Cell.command c = CMD_CREATED_FAST -> CREATED_FAST_LEN <= len (Cell.body c) ->
    reply = slice_to (Cell.body c) CREATED_FAST_LEN -> gives i c reply
| gives_created2 :
    Cell.command c = CMD_CREATED2 -> carries_reply (Cell.body c) reply -> gives i c reply
| gives_extended2 st clear hop sid data :
    Cell.command c = CMD_RELAY \/ Cell.command c = CMD_RELAY_EARLY ->
    decrypt_inbound (Inner.state i) (Cell.body c) = (st, clear, Some hop) ->
    relay_message clear = Ok (RELAY_EXTENDED2, sid, data) -> carries_reply data reply ->
    gives i c reply.

(** One of the cells the pump handled, still running, gave the reply. *)
Definition received `{Crypto} (rng : Z -> result bytes) (cells : list (Z * Cell.t)) (i : Inner.t) (reply : bytes) : Prop :=
  exists before now c after,
    cells = before ++ (now, c) :: after /\ Inner.closed (deliver rng before i) = false /\
    gives (deliver rng before i) c reply.

Section replies.
Context `{Crypto} (rng : Z -> result bytes).

Definition reply_of (i : Inner.t) : option (bytes + string) := State.handshake (Inner.state i).

Lemma handshake_reply_carries data what reply : handshake_reply data what = Ok reply -> carries_reply data reply.
Proof.
  unfold handshake_reply, be_u16, carries_reply. destruct (Z.ltb_spec (len data) (0 + 2)); [done|].
  cbn [mbind result_bind]. change (0 + 2) with 2 in *. destruct (Z.ltb_spec (len data) (2 + from_be (slice data 0 2))); [done|].
  by intros [= <-].
Qed.

Lemma send_cell_reply i c : reply_of (fst (send_cell i c)) = reply_of i.
Proof. unfold send_cell. by case_match. Qed.

Lemma build_relay_cell_reply st id hop cmd sid data early :
  State.handshake (fst (build_relay_cell rng st id hop cmd sid data early)) = State.handshake st.
Proof.
  unfold build_relay_cell. case_match; [done|]. case_match; [done|]. case_match; [done|]. cbv zeta.
  destruct early; (destruct (pad_body _ _ _) as [body|]; [|done]); by destruct (seal _ _ _ _) as [[hops out]|].
Qed.

Lemma send_relay_reply i hop cmd sid data early :
  reply_of (fst (send_relay rng i hop cmd sid data early)) = reply_of i.
Proof.
  unfold send_relay. pose proof (build_relay_cell_reply (Inner.state i) (Inner.circ_id i) hop cmd sid data early) as B.
  destruct (build_relay_cell _ _ _ _ _ _ _ _) as [st [c|e]]; cbn [fst] in B |- *; [rewrite send_cell_reply|]; exact B.
Qed.

Lemma deliver_data_reply now i hop sid data : reply_of (fst (deliver_data rng now i hop sid data)) = reply_of i.
Proof.
  unfold deliver_data. destruct (lookup i sid); [|done]. cbv zeta. case_match; [|done]. by rewrite send_relay_reply.
Qed.

Lemma handle_data_reply now i hop sid data : reply_of (fst (handle_data rng now i hop sid data)) = reply_of i.
Proof.
  unfold handle_data. destruct (FlowControl.note_received _) as [flow [[|]|e]]; [|by rewrite deliver_data_reply|done].
  cbv zeta. match goal with |- context [build_relay_cell rng ?st ?id ?h ?c ?s ?d ?e] =>
    pose proof (build_relay_cell_reply st id h c s d e) as B end.
  destruct (build_relay_cell _ _ _ _ _ _ _ _) as [st [c|e]]; cbn [fst] in B; [|exact B].
  destruct (send_cell _ c) as [j [u|e]] eqn:S; apply (f_equal fst) in S; cbn [fst] in S; subst j;
    rewrite ?deliver_data_reply; cbn [fst]; rewrite send_cell_reply; exact B.
Qed.

Lemma on_stream_reply i sid f : reply_of (on_stream i sid f) = reply_of i.
Proof. unfold on_stream. by case_match. Qed.

Lemma dispatch_relay_reply now i hop cmd sid data :
  reply_of (fst (dispatch_relay rng now i hop cmd sid data)) = reply_of i \/
  (cmd = RELAY_EXTENDED2 /\ exists reply, carries_reply data reply /\
     reply_of (fst (dispatch_relay rng now i hop cmd sid data)) = Some (inl reply)).
Proof.
  unfold dispatch_relay. cbv zeta. destruct (Z.eqb_spec cmd RELAY_EXTENDED2) as [->|_].
  { destruct (handshake_reply _ _) as [reply|] eqn:R; [right|by left].
    split; [done|]. exists reply. split; [by apply handshake_reply_carries in R|done]. }
  left. case_match; [case_match; [by destruct (FlowControl.note_sendme _ _)|exact (on_stream_reply _ _ _)]|].
  case_match; [exact (handle_data_reply _ _ _ _ _)|]. case_match; [exact (on_stream_reply _ _ _)|].
  case_match; [exact (on_stream_reply _ _ _)|]. case_match; [done|].
  case_match; [case_match; [done|exact (on_stream_reply _ _ _)]|]. case_match; [|done].
  unfold State.push_control. by case_match.
Qed.

Lemma handle_cell_reply now i c :
  reply_of (fst (handle_cell rng now i c)) = reply_of i \/
  exists reply, gives i c reply /\ reply_of (fst (handle_cell rng now i c)) = Some (inl reply).
Proof.
  unfold handle_cell. cbv zeta. destruct (Z.eqb_spec (Cell.command c) CMD_CREATED_FAST) as [C|_].
  { destruct (Z.ltb_spec (len (Cell.body c)) CREATED_FAST_LEN) as [|L]; [by left|right].
    eexists. split; [by apply gives_created_fast|done]. }
  destruct (Z.eqb_spec (Cell.command c) CMD_CREATED2) as [C|_].
  { destruct (handshake_reply _ _) as [reply|] eqn:R; [right|by left]. apply handshake_reply_carries in R.
    exists reply. split; [by apply gives_created2|done]. }
  case_match; [by left|].
  destruct ((Cell.command c =? CMD_RELAY) || (Cell.command c =? CMD_RELAY_EARLY)) eqn:C; [|by left].
  assert (Ok_c : Cell.command c = CMD_RELAY \/ Cell.command c = CMD_RELAY_EARLY)
    by (apply orb_true_iff in C as [C|C]; apply Z.eqb_eq in C; auto).
  unfold handle_relay. cbv zeta. case_match; [by left|].
  assert (D : State.handshake (fst (fst (decrypt_inbound (Inner.state i) (Cell.body c)))) = reply_of i)
    by (unfold decrypt_inbound; by repeat case_match).
  destruct (decrypt_inbound (Inner.state i) (Cell.body c)) as [[st clear] [hop|]] eqn:P; cbn [fst] in D; [|by left].
  destruct (relay_message clear) as [[[cmd sid] data]|] eqn:M; [|by left].
  destruct (dispatch_relay_reply now (set_state i st) hop cmd sid data) as [E|(-> & reply & R & E)].
  - left. by rewrite E.
  - right. exists reply. split; [|exact E]. by apply (gives_extended2 _ _ _ st clear hop sid data).
Qed.

Lemma pump_end_reply i : reply_of (pump_end i) = reply_of i.
Proof.
  unfold pump_end, fail_all. generalize (map snd (map_to_list (Inner.streams (i{{Inner.closed := true}}{{Inner.registered := false}})))).
  intros refs. assert (G : forall j, reply_of (fold_left (fun i r => with_stream i r (fail_stream "circuit closed")) refs j) = reply_of j).
  { induction refs as [|r refs IH]; intros j; [done|]. cbn [fold_left]. by rewrite IH. }
  by rewrite G.
Qed.

(** The reply a waiting operation finds was given by a cell, or was there
    before. *)
Lemma deliver_reply cells : forall i,
  reply_of (deliver rng cells i) = reply_of i \/
  exists reply, received rng cells i reply /\ reply_of (deliver rng cells i) = Some (inl reply).
Proof.
  induction cells as [|[now c] cells IH]; intros i; [by left|]. cbn [deliver].
  destruct (Inner.closed i) eqn:C; [left; apply pump_end_reply|].
  destruct (handle_cell rng now i c) as [j r] eqn:Hc.
  assert (G : reply_of j = reply_of i \/ exists reply, gives i c reply /\ reply_of j = Some (inl reply)).
  { pose proof (handle_cell_reply now i c) as G. by rewrite Hc in G. }
  assert (Here : forall reply, gives i c reply -> received rng ((now, c) :: cells) i reply)
    by (intros reply R; by exists [], now, c, cells).
  destruct r as [u|e].
  - destruct (IH j) as [E|(reply & (before & t & c' & after & -> & O & R) & E)].
    + rewrite E. destruct G as [G|(reply & R & G)]; [by left|right]. exists reply. auto.
    + right. exists reply. split; [|done]. exists ((now, c) :: before), t, c', after. cbn [deliver]. by rewrite C, Hc.
  - rewrite pump_end_reply. destruct G as [G|(reply & R & G)]; [by left|right]. exists reply. auto.
Qed.
End replies.

(** Congestion control changes the flow control and nothing else. *)
Lemma adopt_only_flow i answered params :
  exists flow, fst (adopt_congestion_control i answered params) = set_state i ((Inner.state i){{State.flow := flow}}).
Proof.
  assert (Same : i = set_state i ((Inner.state i){{State.flow := State.flow (Inner.state i)}})) by (by destruct i as [? ? ? ? []]).
  unfold adopt_congestion_control. repeat case_match; eexists; first [exact Same|reflexivity].
Qed.

(** *** Opening always ends

    [I] is any property of the other end that it keeps as it reacts. *)
Section any_end.
Context `{Crypto} {End_ : Type} `{Peer End_} (rng : Z -> result bytes) (generate : nat -> result bytes).
Context (I : End_ -> Prop) (I_react : forall p c, I p -> I (fst (react p c))).

Record kept (w w' : Wire.t End_) : Prop := {
  kept_shut : shut_down (Wire.inner w) -> shut_down (Wire.inner w');
  kept_end : I (Wire.peer w) -> I (Wire.peer w');
}.

#[local] Instance kept_trans : Transitive kept.
Proof. intros w1 w2 w3 [A B] [C D]. split; auto. Qed.

(** [m] comes to an end, and if it succeeds the circuit has [n] more hops. *)
Definition ends {A} (m : Comp (Wire.t End_) A) (n : nat) : Prop :=
  forall w, exists w' r, m w = Some (w', r) /\ kept w w' /\ (is_ok r = true -> hop_count w' = (hop_count w + n)%nat).

Lemma ends_bind {A C} (m : Comp (Wire.t End_) A) (f : A -> Comp (Wire.t End_) C) a b :
  ends m a -> (forall x, ends (f x) b) -> ends (m ≫= f) (a + b).
Proof.
  intros Em Ef w. destruct (Em w) as (w1 & [x|e] & R & K & N).
  - destruct (Ef x w1) as (w2 & r & R2 & K2 & N2). exists w2, r. rewrite (bind_ok _ _ _ _ _ R). split; [exact R2|].
    split; [by etrans|]. intros Hr. rewrite N2, N by done. lia.
  - exists w1, (Err e). by rewrite (bind_err _ _ _ _ _ R).
Qed.

Lemma ends_count {A} (m : Comp (Wire.t End_) A) n w w' a :
  ends m n -> m w = Some (w', Ok a) -> hop_count w' = (hop_count w + n)%nat.
Proof. intros E R. destruct (E w) as (w1 & r & R1 & _ & N). rewrite R in R1. injection R1 as <- <-. by apply N. Qed.

Lemma ends_lift {A} (r : result A) : ends (lift r) 0.
Proof. intros w. exists w, r. split; [done|]. split; [done|]. lia. Qed.

Lemma ends_get : ends get 0.
Proof. intros w. exists w, (Ok w). split; [done|]. split; [done|]. lia. Qed.

Lemma ends_ret : ends (mret tt) 0.
Proof. exact (ends_lift (Ok tt)). Qed.

Lemma reactions_keep cells : forall p, I p -> I (fst (reactions p cells)).
Proof using I_react.
  induction cells as [|c cells IH]; intros p Hp; [done|]. cbn [reactions].
  pose proof (I_react p c Hp) as R. destruct (react p c) as [q a]. specialize (IH q R).
  by destruct (reactions q cells).
Qed.

Lemma ends_operate {A} (f : Inner.t -> Inner.t * result A) n :
  (forall i, (shut_down i -> shut_down (fst (f i))) /\
    length (State.hops (Inner.state (fst (f i)))) = (length (State.hops (Inner.state i)) + n)%nat) ->
  ends (operate f) n.
Proof using I_react.
  intros Hf w. destruct (Hf (Wire.inner w)) as [S L]. unfold operate. destruct (f (Wire.inner w)) as [i r].
  pose proof (reactions_keep (drop (length (Inner.sent (Wire.inner w))) (Inner.sent i)) (Wire.peer w)) as K.
  destruct (reactions _ _) as [p a]. eexists _, r. split; [reflexivity|]. split; [by split|]. intros _. exact L.
Qed.

(** Operations that touch neither the hops nor the streams. *)
Lemma ends_plain {A} (f : Inner.t -> Inner.t * result A) :
  (forall i, shape (fst (f i)) = shape i /\ Inner.streams (fst (f i)) = Inner.streams i) -> ends (operate f) 0.
Proof using I_react.
  intros Hf. apply ends_operate. intros i. destruct (Hf i) as [S T]. unfold shape in S. injection S as S1 S2 S3.
  unfold shut_down. rewrite S1, S2, S3, T. split; [done|lia].
Qed.

Lemma pump_end_shuts i :
  shut_down (pump_end i) /\ length (State.hops (Inner.state (pump_end i))) = length (State.hops (Inner.state i)).
Proof.
  assert (F : shape (pump_end i) = (length (State.hops (Inner.state i)), true, false) /\ Inner.streams (pump_end i) = empty)
    by exact (fail_all_shape (i{{Inner.closed := true}}{{Inner.registered := false}}) "circuit closed").
  destruct F as [S T]. injection S as S1 S2 S3. unfold shut_down. by rewrite S1, S2, S3, T.
Qed.

Lemma deliver_ends cells : forall i,
  (shut_down i -> shut_down (deliver rng cells i)) /\
  length (State.hops (Inner.state (deliver rng cells i))) = length (State.hops (Inner.state i)).
Proof.
  pose proof pump_end_shuts as P.
  induction cells as [|[now c] cells IH]; intros i; [done|]. cbn [deliver].
  destruct (Inner.closed i) eqn:C; [destruct (P i) as [P1 P2]; by rewrite P2|].
  pose proof (handle_cell_shape rng now i c) as S. destruct (handle_cell rng now i c) as [j [u|e]]; cbn [fst] in S;
    unfold shape in S; injection S as S1 S2 S3.
  - destruct (IH j) as [A B]. rewrite B, S1. split; [|done]. intros _. apply A. unfold shut_down. by rewrite S2, C.
  - destruct (P j) as [P1 P2]. by rewrite P2.
Qed.

Lemma ends_await : ends (await rng) 0.
Proof.
  intros w. destruct (deliver_ends (Wire.arriving w) (Wire.inner w)) as [S L]. unfold await.
  set (i := deliver rng (Wire.arriving w) (Wire.inner w)) in *. unfold wait_for_handshake.
  destruct (State.handshake (Inner.state i)) as [r|]; [|destruct (is_closed i)];
    eexists _, _; (split; [reflexivity|]); (split; [split; [exact S|done]|]);
    intros _; change (length (State.hops (Inner.state i)) = (length (State.hops (Inner.state (Wire.inner w))) + 0)%nat);
    rewrite L; lia.
Qed.

Lemma send_ends command body : ends (send command body) 0.
Proof using I_react.
  apply ends_plain. intros i. destruct (Cell.new _ _ _) as [c|e]; [|done]. rewrite send_cell_shape. split; [done|].
  unfold send_cell. by case_match.
Qed.

Lemma send_relay_ends k cmd sid data early : ends (operate (fun i => send_relay rng i k cmd sid data early)) 0.
Proof using I_react.
  apply ends_plain. intros i. rewrite send_relay_shape. destruct (send_relay_objects rng i k cmd sid data early) as (_ & S & _).
  by split.
Qed.

Lemma establish_ends keys : ends (establish keys) 1.
Proof using I_react. apply ends_operate. intros i. split; [done|]. cbn. by rewrite length_app. Qed.

Lemma do_create_ends first : ends (do_create rng generate first) 1.
Proof using I_react.
  change 1%nat with (0 + (0 + (0 + (0 + (0 + 1)))))%nat. apply ends_bind; [exact ends_get|]. intros w.
  apply ends_bind; [apply ends_lift|]. intros [[hs htype] skin]. apply ends_bind; [apply send_ends|]. intros _.
  apply ends_bind; [exact ends_await|]. intros reply. apply ends_bind; [apply ends_lift|]. intros [keys answered].
  apply establish_ends.
Qed.

Lemma extend_with_ends next congestion : ends (extend_with rng generate next congestion) 1.
Proof using I_react.
  change 1%nat with (0 + (0 + (0 + (0 + (0 + (0 + (1 + 0)))))))%nat. apply ends_bind; [exact ends_get|]. intros w.
  apply ends_bind; [apply ends_lift|]. intros [[hs htype] skin]. apply ends_bind; [apply ends_lift|]. intros last_hop.
  apply ends_bind; [apply send_relay_ends|]. intros _. apply ends_bind; [exact ends_await|]. intros reply. apply ends_bind; [apply ends_lift|]. intros [keys answered].
  apply ends_bind; [apply establish_ends|]. intros _. destruct (asking next congestion) as [params|]; [|exact ends_ret].
  apply ends_plain. intros i. destruct (adopt_only_flow i (map (fun e => (NtorV3.kind e, NtorV3.body e)) answered) params) as [flow ->].
  done.
Qed.

Lemma extend_all_ends path : ends (extend_all rng generate path) (length path).
Proof using I_react.
  induction path as [|next path IH]; [exact ends_ret|]. cbn [extend_all length].
  change (S (length path)) with (1 + length path)%nat. apply ends_bind; [apply extend_with_ends|]. by intros _.
Qed.

Lemma close_closes i : shut_down i -> shut_down (close i) /\ Inner.closed (close i) = true.
Proof.
  unfold close. destruct (Inner.closed i) eqn:C; [by split|]. cbv zeta. intros _.
  match goal with |- context [fail_all ?j ?s] => destruct (fail_all_shape j s) as [S T]; set (k := j) in * end.
  apply shape_parts in S as (_ & S2 & S3). unfold shut_down. rewrite S2, S3, T. split; [done|].
  subst k. destruct (Cell.new _ _ _); [unfold send_cell; by destruct (Inner.chan_closed _)|done].
Qed.

(** What an error leaves behind. *)
Lemma closing_after m w w1 r :
  m w = Some (w1, r) ->
  exists w2, closing_on_error m w = Some (w2, r) /\ (I (Wire.peer w1) -> I (Wire.peer w2)) /\
    match r with Ok _ => w2 = w1 | Err _ => Wire.inner w2 = close (Wire.inner w1) end.
Proof using I_react.
  intros R. unfold closing_on_error. rewrite (bind_ok _ _ w w1 r) by (unfold attempt; by rewrite R).
  destruct r as [[]|e]; [by exists w1|].
  assert (Es : exists w2, shut w1 = Some (w2, Ok tt) /\ Wire.inner w2 = close (Wire.inner w1) /\
    (I (Wire.peer w1) -> I (Wire.peer w2))).
  { unfold shut, operate. cbn [fst].
    pose proof (reactions_keep (drop (length (Inner.sent (Wire.inner w1))) (Inner.sent (close (Wire.inner w1)))) (Wire.peer w1)) as Kp.
    destruct (reactions _ _) as [p a]. by eexists. }
  destruct Es as (w2 & Es & E2 & K2). exists w2. by rewrite (bind_ok _ _ _ _ _ Es).
Qed.

Lemma closing_on_error_ends m n :
  ends m n ->
  forall w, exists w' r, closing_on_error m w = Some (w', r) /\ kept w w' /\
    match r with
    | Ok _ => hop_count w' = (hop_count w + n)%nat
    | Err _ => shut_down (Wire.inner w) -> Inner.closed (Wire.inner w') = true
    end.
Proof using I_react.
  intros Em w. destruct (Em w) as (w1 & r & R & [K1 Ke] & N).
  destruct (closing_after m w w1 r R) as (w2 & R2 & K2 & C). exists w2, r. split; [exact R2|]. destruct r as [u|e].
  - subst w2. split; [by split|]. by apply N.
  - split; [split; [|auto]|]; rewrite C; intros S; by apply close_closes, K1.
Qed.
End any_end.

(** ** Circuits whose relays keep up *)

Section telescope.
Context `{Laws : CryptoLaws} (rng : Z -> result bytes) (generate : nat -> result bytes).
Abbreviation Net := (Wire.t Honest.t).

(** Both ends hold the same cipher states, and nothing is under way. *)
Record in_step (w : Net) : Prop := {
  same_hops : State.hops (Inner.state (Wire.inner w)) = Honest.hops (Wire.peer w);
  quiet : Wire.arriving w = [];
  no_reply : State.handshake (Inner.state (Wire.inner w)) = None;
  still_open : Inner.closed (Wire.inner w) = false;
  channel_open : Inner.chan_closed (Wire.inner w) = false;
}.

(** Sending one cell, and what it provokes. *)
Lemma operate_sends {End_} `{Peer End_} (w : Wire.t End_) (f : Inner.t -> Inner.t * result unit) i c p a :
  f (Wire.inner w) = (i, Ok tt) -> Inner.sent i = Inner.sent (Wire.inner w) ++ [c] ->
  react (Wire.peer w) c = (p, a) ->
  operate f w = Some (Wire.Mk i p (Wire.arriving w ++ a), Ok tt).
Proof.
  intros F S R. unfold operate. rewrite F, S, drop_app_length. cbn [reactions]. rewrite R. by rewrite app_nil_r.
Qed.

(** An operation that sends nothing. *)
Lemma operate_silent {End_ A} `{Peer End_} (w : Wire.t End_) (f : Inner.t -> Inner.t * result A) i r :
  f (Wire.inner w) = (i, r) -> Inner.sent i = Inner.sent (Wire.inner w) ->
  operate f w = Some (Wire.Mk i (Wire.peer w) (Wire.arriving w), r).
Proof. intros F S. unfold operate. rewrite F, S, drop_all. cbn [reactions]. by rewrite app_nil_r. Qed.

Lemma establish_adds {End_} `{Peer End_} (w : Wire.t End_) keys :
  establish keys w = Some (Wire.Mk (push_hop (Wire.inner w) (Hop.new keys)) (Wire.peer w) (Wire.arriving w), Ok tt).
Proof. by apply operate_silent. Qed.

(** CREATED2 comes, and the wait ends with what it carries. *)
Lemma await_created (w : Net) now id reply z :
  Wire.arriving w = [(now, Cell.Mk id CMD_CREATED2 (reply_body reply ++ z))] -> len reply < 65536 ->
  Inner.closed (Wire.inner w) = false ->
  await rng w = Some (Wire.Mk (set_state (Wire.inner w) ((Inner.state (Wire.inner w)){{State.handshake := None}}))
                              (Wire.peer w) [], Ok reply).
Proof.
  intros Ar L C. unfold await. rewrite Ar. cbn [deliver]. rewrite C. unfold handle_cell. cbn [Cell.command Cell.body].
  change (CMD_CREATED2 =? CMD_CREATED_FAST) with false. change (CMD_CREATED2 =? CMD_CREATED2) with true. cbn iota.
  rewrite handshake_reply_body by done. by destruct w as [[] ? ?].
Qed.

Lemma do_create_in_step (w : Net) x :
  in_step w -> Honest.hops (Wire.peer w) = [] -> sound (Honest.first (Wire.peer w)) ->
  generate 0 = Ok x -> meets (Honest.first (Wire.peer w)) x ->
  exists w', do_create rng generate (info (Honest.first (Wire.peer w))) w = Some (w', Ok tt) /\ in_step w' /\
    Honest.members (Wire.peer w') = [info (Honest.first (Wire.peer w))] /\
    hop_count w' = 1%nat /\ Honest.others (Wire.peer w') = Honest.others (Wire.peer w) /\
    Honest.confused (Wire.peer w') = Honest.confused (Wire.peer w) /\
    State.relay_early_left (Inner.state (Wire.inner w')) = State.relay_early_left (Inner.state (Wire.inner w)).
Proof.
  intros S0 Hh Sp G Mt. destruct w as [i n a]. destruct S0 as [Sh Q Nr So Co]. cbn [Wire.inner Wire.peer Wire.arriving] in *. subst a.
  set (p := Honest.first n) in *.
  destruct (party_agrees p x [] [0] Sp Mt eq_refl ltac:(done)) as
    (hs & htype & skin & reply & keys & answered & St & An & Fi & Ht & Ls & Lr & _).
  assert (Hh2 : 0 <= htype < 65536) by (destruct Ht as [->| ->]; done).
  assert (Sec : secret generate (Wire.Mk i n []) = Ok x) by (unfold secret, hop_count; cbn; by rewrite Sh, Hh).
  pose proof (len_nonneg skin). pose proof (len_nonneg reply).
  assert (Lb : len (create2_body htype skin) <= CELL_BODY_LEN)
    by (unfold create2_body; rewrite !len_app, !len_to_be; unfold CELL_BODY_LEN; lia).
  destruct (resize0_app _ _ Lb) as [z Z]. destruct (resize0_app (reply_body reply) CELL_BODY_LEN) as [z' Z'];
    [unfold reply_body; rewrite len_app, len_to_be; unfold CELL_BODY_LEN; lia|].
  set (c := Cell.Mk (Inner.circ_id i) CMD_CREATE2 (create2_body htype skin ++ z)).
  assert (New : Cell.new (Inner.circ_id i) CMD_CREATE2 (create2_body htype skin) = Ok c).
  { unfold Cell.new. change (is_variable_length CMD_CREATE2) with false. cbn iota. 
    destruct (Z.ltb_spec CELL_BODY_LEN (len (create2_body htype skin))); [lia|]. by rewrite Z. }
  set (n' := n{{Honest.hops := [Hop.new keys]; Honest.members := [info p] }}).
  assert (Re : react n c = (n', [(0, Cell.Mk (Inner.circ_id i) CMD_CREATED2 (reply_body reply ++ z'))])).
  { destruct (create2_read htype skin z Hh2 ltac:(lia)) as [R1 R2].
    change (react n c) with (honest_react n c). unfold honest_react. change (Cell.command c) with CMD_CREATE2. change (CMD_CREATE2 =? CMD_CREATE2) with true.
    cbn iota. unfold answer_create. change (Cell.body c) with (create2_body htype skin ++ z). rewrite R1, R2.
    fold p. rewrite An. cbn [mbind option_bind]. rewrite Hh. unfold Cell.new.
    change (is_variable_length CMD_CREATED2) with false. cbn iota.
    destruct (Z.ltb_spec CELL_BODY_LEN (len (reply_body reply))) as [Hl|_].
    { unfold reply_body in Hl. rewrite len_app, len_to_be in Hl. unfold CELL_BODY_LEN in Hl. lia. }
    by rewrite Z'. }
  unfold do_create. erewrite bind_ok by reflexivity. rewrite Sec, St.
  erewrite bind_ok by reflexivity. unfold send.
  erewrite bind_ok.
  2: { apply (operate_sends _ _ (i{{Inner.sent := Inner.sent i ++ [c] }}) c); [|done|exact Re].
       cbn [Wire.inner]. rewrite New. unfold send_cell. by rewrite Co. }
  erewrite bind_ok by (eapply await_created; [done|lia|exact So]). rewrite Fi.
  erewrite bind_ok by reflexivity. cbn beta iota. rewrite establish_adds.
  rewrite Hh in Sh. eexists. split; [reflexivity|]. split; [split|split_and!]; try done.
  - change (State.hops (Inner.state i) ++ [Hop.new keys] = [Hop.new keys]). by rewrite Sh.
  - change (length (State.hops (Inner.state i) ++ [Hop.new keys]) = 1%nat). by rewrite Sh.
Qed.

(** *** Extending *)

(** Whatever happens, the wait is over after thirty seconds. *)
Lemma await_ends {End_} (w : Wire.t End_) :
  exists i r, await rng w = Some (Wire.Mk i (Wire.peer w) [], r).
Proof.
  unfold await, wait_for_handshake. destruct (State.handshake _); [by eexists _, _|].
  destruct (is_closed _); by eexists _, _.
Qed.

Lemma await_silence {End_} (i : Inner.t) (n : End_) :
  State.handshake (Inner.state i) = None -> Inner.closed i = false -> Inner.chan_closed i = false ->
  await rng (Wire.Mk i n []) = Some (Wire.Mk i n [],
    Err (IoError TimedOut (Message "timed out waiting for CREATED2/EXTENDED2"))).
Proof. intros Nr So Co. unfold await. cbn [Wire.arriving Wire.inner deliver]. unfold wait_for_handshake. rewrite Nr.
  unfold is_closed. by rewrite So, Co.
Qed.

Lemma handle_relay_cell i now id body :
  handle_cell rng now i (Cell.Mk id CMD_RELAY body) = handle_relay rng now i (Cell.Mk id CMD_RELAY body).
Proof. done. Qed.

(** EXTENDED2 comes from the last relay, and the wait ends with what it
    carries. *)
Lemma await_extended (w : Net) now id out k hops reply pad :
  let body := ([RELAY_EXTENDED2; 0; 0] ++ to_be 2 0) ++ [0; 0; 0; 0] ++
    to_be 2 (len (reply_body reply)) ++ reply_body reply ++ pad in
  Wire.arriving w = [(now, Cell.Mk id CMD_RELAY out)] -> Inner.closed (Wire.inner w) = false ->
  len (reply_body reply) + len pad = RELAY_DATA_MAX ->
  relays_send (State.hops (Inner.state (Wire.inner w))) k body = Some (hops, out) ->
  mistaken Bwd (State.hops (Inner.state (Wire.inner w))) k out = false ->
  exists i, await rng w = Some (Wire.Mk i (Wire.peer w) [], Ok reply) /\
    State.hops (Inner.state i) = hops /\ State.handshake (Inner.state i) = None /\
    Inner.closed i = false /\ Inner.chan_closed i = Inner.chan_closed (Wire.inner w) /\
    Inner.circ_id i = Inner.circ_id (Wire.inner w) /\ Inner.sent i = Inner.sent (Wire.inner w) /\
    State.relay_early_left (Inner.state i) = State.relay_early_left (Inner.state (Wire.inner w)).
Proof.
  intros body Ar C Lp Sd Mk. pose proof (body_blank RELAY_EXTENDED2 0 (reply_body reply) pad Lp) as Bl. fold body in Bl.
  pose proof (body_message RELAY_EXTENDED2 0 (reply_body reply) pad Lp ltac:(lia)) as Ms. fold body in Ms.
  pose proof (seal_len _ _ _ _ _ _ Bl Sd) as Lo.
  destruct (sent_cell_decrypted _ _ _ _ _ Bl Sd Mk) as (target & _ & De).
  unfold await. rewrite Ar. cbn [deliver]. rewrite C, handle_relay_cell. unfold handle_relay. cbn [Cell.body].
  rewrite Lo, Z.eqb_refl. cbn [negb]. rewrite De, Ms.
  change (RELAY_EXTENDED2 =? RELAY_EXTENDED2) with true. unfold dispatch_relay.
  change (RELAY_EXTENDED2 =? RELAY_EXTENDED2) with true. cbn iota.
  rewrite <- (app_nil_r (reply_body reply)), handshake_reply_body.
  - destruct w as [i n a]. destruct i. eexists. split; [reflexivity|]. by cbn.
  - unfold reply_body, RELAY_DATA_MAX, CELL_BODY_LEN, RELAY_HEADER_LEN in Lp. rewrite len_app, len_to_be in Lp.
    pose proof (len_nonneg pad). lia.
Qed.

(** The relays with room for one more, the generators and the secrets. *)
Context (rng_fills : fills rng) (rng_works : forall n, is_ok (rng n) = true).

(** EXTEND2 goes out, wrapped for the last relay. *)
Lemma send_extend2 (w : Net) payload h rest :
  in_step w -> State.hops (Inner.state (Wire.inner w)) = h :: rest -> len payload <= RELAY_DATA_MAX ->
  State.relay_early_left (Inner.state (Wire.inner w)) <> 0 ->
  exists i c pad hops,
    let body := ([RELAY_EXTEND2; 0; 0] ++ to_be 2 0) ++ [0; 0; 0; 0] ++ to_be 2 (len payload) ++ payload ++ pad in
    send_relay rng (Wire.inner w) (length rest) RELAY_EXTEND2 0 payload true = (i, Ok tt) /\
    Inner.sent i = Inner.sent (Wire.inner w) ++ [c] /\
    Cell.command c = CMD_RELAY_EARLY /\ Cell.circ_id c = Inner.circ_id (Wire.inner w) /\
    State.hops (Inner.state i) = hops /\
    (mistaken Fwd (Honest.hops (Wire.peer w)) (length rest) (Cell.body c) = false ->
     exists body full, relays_receive (Honest.hops (Wire.peer w)) (Cell.body c) = (hops, body, Some (length rest, full)) /\
       relay_message body = Ok (RELAY_EXTEND2, 0, payload)) /\
    length hops = S (length rest) /\
    State.handshake (Inner.state i) = None /\ Inner.closed i = false /\ Inner.chan_closed i = false /\
    Inner.circ_id i = Inner.circ_id (Wire.inner w) /\
    State.relay_early_left (Inner.state i) = State.relay_early_left (Inner.state (Wire.inner w)) - 1.
Proof using Laws rng_fills rng_works.
  intros [Sh Q Nr So Co] Hh Lp He. set (st := Inner.state (Wire.inner w)) in *.
  destruct (build_relay_cell_built rng st (Inner.circ_id (Wire.inner w)) (length rest) RELAY_EXTEND2 0 payload true)
    as (st' & c & B); [done|done|done|rewrite Hh; cbn; lia|done|].
  pose proof (built_cell_received rng st st' (Inner.circ_id (Wire.inner w)) (length rest) RELAY_EXTEND2 0 payload true c rng_fills
    ltac:(lia) B) as Rc.
  pose proof B as B0. apply build_relay_cell_ok in B as (pad & hops & _ & Sl & Ec & _ & Es); [|done].
  assert (Lh : length hops = S (length rest)).
  { apply seal_hops in Sl. by rewrite Sl, Hh. }
  exists ((Wire.inner w){{Inner.state := st'}}{{Inner.sent := Inner.sent (Wire.inner w) ++ [c] }}), c, pad, hops.
  cbv zeta. unfold send_relay. fold st. rewrite B0. unfold send_cell.
  change (Inner.chan_closed ((Wire.inner w){{Inner.state := st'}})) with (Inner.chan_closed (Wire.inner w)).
  rewrite Co. split; [done|]. split; [done|]. split; [by rewrite Ec|]. split; [by rewrite Ec|].
  split; [by rewrite Es|]. split; [|by rewrite Es; split_and!]. rewrite <- Sh. intros Mk.
  destruct (Rc Mk) as (body & full & R1 & R2 & _). exists body, full. split; [|done]. rewrite R1, Es. done.
Qed.

(** What the far end does with EXTEND2: a relay takes it for its own by
    mistake, or the next relay answers. *)
Lemma answer_extend2 n c (rest hops : list Hop.t) p htype skin body full :
  length (Honest.hops n) = S (length rest) -> length hops = S (length rest) -> Cell.command c = CMD_RELAY_EARLY ->
  relays_receive (Honest.hops n) (Cell.body c) = (hops, body, Some (length rest, full)) ->
  relay_message body = Ok (RELAY_EXTEND2, 0, build_extend2 (info p) htype skin) ->
  info_ok (info p) -> 0 <= htype < 65536 -> len skin < 65536 ->
  (exists j, list_find (fun q => link_specifiers (info q) = link_specifiers (info p)) (Honest.others n) = Some (j, p)) ->
  forall reply keys, party_answers p htype skin = Some (reply, keys) ->
  exists hops' out, relays_send hops (length rest) (relay_body RELAY_EXTENDED2 0 (reply_body reply)) = Some (hops', out) /\
    react n c = (n{{Honest.hops := hops' ++ [Hop.new keys];
                    Honest.members := Honest.members n ++ [info p];
                    Honest.confused := Honest.confused n || mistaken Bwd hops (length rest) out }},
                 [(0, Cell.Mk (Cell.circ_id c) CMD_RELAY out)]).
Proof.
  intros Ln Lh Hc Rc Ms Io Ht Hs [j Fi] reply keys An.
  destruct (seal_total Bwd hops (length rest) (relay_body RELAY_EXTENDED2 0 (reply_body reply)) ltac:(lia)) as (hops' & out & Sl).
  exists hops', out. split; [exact Sl|]. change (react n c) with (honest_react n c). unfold honest_react.
  rewrite Hc. change (CMD_RELAY_EARLY =? CMD_CREATE2) with false. change (CMD_RELAY_EARLY =? CMD_RELAY_EARLY) with true.
  cbn iota. unfold answer_extend. rewrite Rc, bool_decide_eq_true_2 by lia. rewrite Ms.
  change (RELAY_EXTEND2 =? RELAY_EXTEND2) with true. cbn iota. rewrite read_built_extend2 by done. rewrite Fi.
  cbn [mbind option_bind]. rewrite An. cbn [mbind option_bind]. unfold relays_send. by rewrite Sl.
Qed.

Lemma react_mistaken n c (rest : list Hop.t) :
  length (Honest.hops n) = S (length rest) -> Cell.command c = CMD_RELAY_EARLY ->
  mistaken Fwd (Honest.hops n) (length rest) (Cell.body c) = true ->
  exists hops, react n c = (n{{Honest.hops := hops; Honest.confused := true }}, []).
Proof.
  intros Ln Hc Mk. apply mistaken_found in Mk as (hops & body & k & full & P & Hk & L). exists hops.
  change (react n c) with (honest_react n c). unfold honest_react. rewrite Hc.
  change (CMD_RELAY_EARLY =? CMD_CREATE2) with false. change (CMD_RELAY_EARLY =? CMD_RELAY_EARLY) with true. cbn iota.
  unfold answer_extend, relays_receive. rewrite P. by rewrite bool_decide_eq_false_2 by lia.
Qed.

Definition listed (p : Party) (n : Honest.t) : Prop :=
  exists j, list_find (fun q => link_specifiers (info q) = link_specifiers (info p)) (Honest.others n) = Some (j, p).

Definition early_left (w : Net) : Z := State.relay_early_left (Inner.state (Wire.inner w)).

(** [w'] is [w] with one more hop, [p]. *)
Record extended (w w' : Net) (p : Party) : Prop := {
  ext_step : in_step w';
  ext_members : Honest.members (Wire.peer w') = Honest.members (Wire.peer w) ++ [info p];
  ext_hops : hop_count w' = S (hop_count w);
  ext_others : Honest.others (Wire.peer w') = Honest.others (Wire.peer w);
  ext_early : early_left w' = early_left w - 1;
  ext_confused : Honest.confused (Wire.peer w') = Honest.confused (Wire.peer w);
}.

Lemma adopt_silent {End_} `{Peer End_} (w : Wire.t End_) answered params :
  exists flow r, operate (fun i => adopt_congestion_control i answered params) w =
    Some (Wire.Mk (set_state (Wire.inner w) ((Inner.state (Wire.inner w)){{State.flow := flow}}))
                  (Wire.peer w) (Wire.arriving w), r).
Proof.
  destruct (adopt_only_flow (Wire.inner w) answered params) as [flow F].
  destruct (adopt_congestion_control (Wire.inner w) answered params) as [i r] eqn:E. cbn [fst] in F. subst i.
  exists flow, r. by apply operate_silent.
Qed.

Lemma adopt_in_step (w w0 : Net) p answered params :
  extended w0 w p ->
  exists w' r, operate (fun i => adopt_congestion_control i answered params) w = Some (w', r) /\ extended w0 w' p.
Proof.
  intros [[Sh Q Nr So Co] M Hc O E Cf]. destruct (adopt_silent w answered params) as (flow & r & A).
  eexists _, r. split; [exact A|]. split; [split|..]; assumption.
Qed.

Lemma encode_request (congested : bool) :
  exists message, NtorV3.encode_extensions (if congested then [NtorV3.MkExtension EXT_CC_REQUEST []] else []) = Ok message /\
    len message <= 100.
Proof. destruct congested; eexists; (split; [reflexivity|done]). Qed.

(** Once the answer is awaited, the client says nothing more. *)
Lemma rest_is_silent {End_} `{Peer End_} (w : Wire.t End_) hs (asking : option CcParams.t) :
  exists w' r,
    (reply ← await rng; '(keys, answered) ← lift (finish hs reply); _ ← establish keys;
     match asking with
     | Some params => operate (fun i => adopt_congestion_control i
         (map (fun e => (NtorV3.kind e, NtorV3.body e)) answered) params)
     | None => mret tt
     end) w = Some (w', r) /\ Wire.peer w' = Wire.peer w.
Proof.
  destruct (await_ends w) as (i & [reply|e] & A); [|by rewrite (bind_err _ _ _ _ _ A); eexists _, _].
  rewrite (bind_ok _ _ _ _ _ A). destruct (finish hs reply) as [[keys answered]|e]; [|by eexists _, _].
  rewrite bind_lift, (bind_ok _ _ _ _ _ (establish_adds _ _)). destruct asking as [params|]; [|by eexists _, _].
  destruct (adopt_silent (Wire.Mk (push_hop i (Hop.new keys)) (Wire.peer w) ([] : list (Z * Cell.t)))
    (map (fun e => (NtorV3.kind e, NtorV3.body e)) answered) params) as (flow & r & E).
  eexists _, _. split; [exact E|reflexivity].
Qed.

(** Both sides after the answer: one more hop, the same on both. *)
Lemma answered_in_step (w : Net) i hops keys p :
  State.hops (Inner.state i) = hops -> length hops = hop_count w -> State.handshake (Inner.state i) = None ->
  Inner.closed i = false -> Inner.chan_closed i = false ->
  State.relay_early_left (Inner.state i) = early_left w - 1 ->
  extended w (Wire.Mk (push_hop i (Hop.new keys))
    ((Wire.peer w){{Honest.hops := hops ++ [Hop.new keys];
                    Honest.members := Honest.members (Wire.peer w) ++ [info p];
                    Honest.confused := Honest.confused (Wire.peer w) || false }}) []) p.
Proof.
  intros E L N O C Ey.
  assert (E2 : State.hops (Inner.state (push_hop i (Hop.new keys))) = hops ++ [Hop.new keys]) by (rewrite <- E; reflexivity).
  split; [split|..]; try assumption; try reflexivity.
  - unfold hop_count at 1. cbn [Wire.inner]. rewrite E2, length_app, L. cbn. lia.
  - apply orb_false_r.
Qed.

Lemma extend_in_step (w : Net) p x congestion :
  in_step w -> State.hops (Inner.state (Wire.inner w)) <> [] -> sound p -> listed p (Wire.peer w) ->
  generate (hop_count w) = Ok x -> meets p x -> early_left w <> 0 ->
  exists w' r, extend_with rng generate (info p) congestion w = Some (w', r) /\
    (Honest.confused (Wire.peer w') = true \/ (extended w w' p /\ (congestion = None -> r = Ok tt))).
Proof using Laws rng_fills rng_works.
  intros S0 Ne Sp Li G Mt He. pose proof S0 as [Sh Q Nr So Co].
  destruct (State.hops (Inner.state (Wire.inner w))) as [|h rest] eqn:Hh; [done|]. clear Ne.
  unfold extend_with. rewrite bind_get. unfold secret. rewrite G.
  destruct (encode_request (match asking (info p) congestion with Some _ => true | None => false end)) as (message & Em & Lm).
  replace (if match asking (info p) congestion with Some _ => true | None => false end
           then [NtorV3.MkExtension EXT_CC_REQUEST []] else [])
    with (match asking (info p) congestion with Some _ => [NtorV3.MkExtension EXT_CC_REQUEST []] | None => [] end) in Em
    by (by destruct (asking (info p) congestion)).
  destruct (party_agrees p x _ message Sp Mt Em Lm) as (hs & htype & skin & reply & keys & answered & St & An & Fi & Ht & Ls & Lr & _).
  rewrite St, bind_lift. unfold last_hop. rewrite Hh, bind_lift.
  pose proof (build_extend2_len (info p) htype skin (its_info _ Sp)) as Lp.
  assert (Hh2 : 0 <= htype < 65536) by (destruct Ht as [->| ->]; done).
  set (payload := build_extend2 (info p) htype skin) in *.
  destruct (send_extend2 w payload h rest S0 Hh) as (i & c & pad & hops & Sd & Ss & Cc & Ci & Hi & Rc & Lh & Ni & Oi & Ki & Ii & Ei);
    [unfold RELAY_DATA_MAX, CELL_BODY_LEN, RELAY_HEADER_LEN; lia|exact He|].
  assert (Ln : length (Honest.hops (Wire.peer w)) = S (length rest)) by (by rewrite <- Sh).
  destruct (mistaken Fwd (Honest.hops (Wire.peer w)) (length rest) (Cell.body c)) eqn:Mk.
  - destruct (react_mistaken (Wire.peer w) c rest Ln Cc Mk) as [hops' Re].
    rewrite (bind_ok _ _ _ _ _ (operate_sends w _ i c _ _ Sd Ss Re)), Q.
    rewrite (bind_err _ _ _ _ _ (await_silence i _ Ni Oi Ki)). eexists _, _. split; [reflexivity|by left].
  - destruct (Rc eq_refl) as (body & full & R1 & R2).
    destruct (answer_extend2 (Wire.peer w) c rest hops p htype skin body full Ln Lh Cc R1 R2 (its_info _ Sp) Hh2
      ltac:(lia) Li reply keys An) as (hops' & out & Sl & Re).
    rewrite (bind_ok _ _ _ _ _ (operate_sends w _ i c _ _ Sd Ss Re)), Q.
    match goal with |- context [Wire.Mk i ?n2 ?a] => set (w1 := Wire.Mk i n2 ([] ++ a)) end.
    destruct (mistaken Bwd hops (length rest) out) eqn:Mb.
    + destruct (rest_is_silent w1 hs (asking (info p) congestion))
        as (w' & r & E & P).
      exists w', r. split; [exact E|left]. rewrite P. apply orb_true_r.
    + pose proof (len_nonneg reply).
      assert (Lb : len (reply_body reply) = 2 + len reply) by (unfold reply_body; by rewrite len_app, len_to_be).
      rewrite relay_body_shape in Sl by (rewrite Lb; unfold RELAY_DATA_MAX, CELL_BODY_LEN, RELAY_HEADER_LEN; lia).
      rewrite <- Hi in Sl, Mb.
      destruct (await_extended w1 0 (Cell.circ_id c) out (length rest) hops' reply (zeros (RELAY_DATA_MAX - len (reply_body reply))))
        as (i' & Aw & Hi' & Ni' & Oi' & Ki' & Ii' & Si' & Ei'); [done|exact Oi| |exact Sl|exact Mb|].
      { rewrite len_zeros; [lia|]. rewrite Lb. unfold RELAY_DATA_MAX, CELL_BODY_LEN, RELAY_HEADER_LEN. lia. }
      rewrite (bind_ok _ _ _ _ _ Aw), Fi, bind_lift, (bind_ok _ _ _ _ _ (establish_adds _ _)).
      apply seal_hops in Sl as Lh'.
      assert (Ex : extended w (Wire.Mk (push_hop i' (Hop.new keys)) (Wire.peer w1) []) p).
      { apply (answered_in_step w i' hops' keys p Hi'); [|exact Ni'|exact Oi'|exact (eq_trans Ki' Ki)|exact (eq_trans Ei' Ei)].
        unfold hop_count. by rewrite Hh, Lh', Hi, Lh. }
      destruct (asking (info p) congestion) as [params|] eqn:As.
      * destruct (adopt_in_step _ w p (map (fun e => (NtorV3.kind e, NtorV3.body e)) answered) params Ex) as (w' & r & E & Ex').
        exists w', r. split; [exact E|right]. split; [exact Ex'|]. intros ->. done.
      * eexists _, _. split; [reflexivity|right]. by split.
Qed.
Lemma honest_stays_confused n c :
  Honest.confused n = true -> Honest.confused (fst (react n c)) = true.
Proof.
  intros C. change (react n c) with (honest_react n c). unfold honest_react.
  destruct (Cell.command c =? CMD_CREATE2); [|destruct (Cell.command c =? CMD_RELAY_EARLY); [|done]].
  - unfold answer_create. destruct (party_answers _ _ _) as [[reply keys]|]; [|done]. cbn [mbind option_bind].
    destruct (Honest.hops n); [|done]. by destruct (Cell.new _ _ _).
  - unfold answer_extend. destruct (relays_receive _ _) as [[hops body] [[k full]|]]; [|done].
    destruct (bool_decide _); [|done]. destruct (relay_message body) as [[[cmd sid] payload]|]; [|done].
    destruct (cmd =? RELAY_EXTEND2); [|done]. destruct (read_extend2 payload) as [[specifiers htype] skin].
    destruct (list_find _ _) as [[j next]|]; [cbn [mbind option_bind]|done].
    destruct (party_answers _ _ _) as [[reply keys]|]; [cbn [mbind option_bind]|done].
    destruct (relays_send _ _ _) as [[after out]|]; [cbn [mbind option_bind fst]|done]. cbn. by rewrite C.
Qed.

(** Where [w] is once the hops of [path] are added. *)
Definition reaches (w w' : Net) (path : list Party) : Prop :=
  in_step w' /\ Honest.members (Wire.peer w') = Honest.members (Wire.peer w) ++ map info path /\
  hop_count w' = (hop_count w + length path)%nat /\ early_left w' = early_left w - len path.

(** A relay that can answer whatever secret is drawn. *)
Definition ready (p : Party) : Prop := sound p /\ forall n, exists x, generate n = Ok x /\ meets p x.

Lemma extend_all_in_step path : forall w,
  in_step w -> State.hops (Inner.state (Wire.inner w)) <> [] ->
  Forall (fun p => ready p /\ listed p (Wire.peer w)) path -> len path <= early_left w ->
  exists w' r, extend_all rng generate (map info path) w = Some (w', r) /\
    (Honest.confused (Wire.peer w') = true \/ (r = Ok tt /\ reaches w w' path)).
Proof using Laws rng_fills rng_works.
  induction path as [|p path IH]; intros w S0 Ne F Le.
  - exists w, (Ok tt). split; [done|right]. split; [done|]. unfold reaches. cbn [map length]. rewrite app_nil_r, len_nil.
    split_and!; [done|done|lia|lia].
  - apply Forall_cons in F as [[[Sp Rd] Li] F]. rewrite len_cons in Le. pose proof (len_nonneg path).
    destruct (Rd (hop_count w)) as (x & G & Mt).
    destruct (extend_in_step w p x None S0 Ne Sp Li G Mt ltac:(lia)) as (w1 & r1 & E1 & [Cf|[Ex Ok1]]);
      cbn [map extend_all].
    + destruct r1 as [[]|e].
      * destruct (extend_all_ends rng generate (fun n => Honest.confused n = true) honest_stays_confused (map info path) w1)
          as (w2 & r2 & E2 & K & _).
        exists w2, r2. split; [exact (eq_trans (bind_ok _ _ _ _ _ E1) E2)|left]. by apply K.
      * exists w1, (Err e). split; [exact (bind_err _ _ _ _ _ E1)|by left].
    + specialize (Ok1 eq_refl). subst r1. destruct Ex as [S1 M1 H1 O1 L1 C1].
      destruct (IH w1 S1) as (w2 & r2 & E2 & D); [| |lia|].
      { intros En. unfold hop_count in H1. rewrite En in H1. discriminate H1. }
      { eapply Forall_impl; [exact F|]. intros q [Sq Lq]. split; [exact Sq|]. unfold listed. by rewrite O1. }
      exists w2, r2. split; [exact (eq_trans (bind_ok _ _ _ _ _ E1) E2)|]. destruct D as [D|(-> & S2 & M2 & H2 & L2)]; [by left|right].
      split; [done|]. unfold reaches. rewrite M2, M1, H2, H1, L2, L1, len_cons, <- app_assoc. split_and!; [done|done|cbn; lia|lia].
Qed.
End telescope.

(** ** What opening a circuit achieves *)

(** A circuit that was opened with [n] hops, or closed for good. *)
Definition outcome {End_} (n : nat) (w : Wire.t End_) (r : result unit) : Prop :=
  shut_down (Wire.inner w) /\
  match r with
  | Ok _ => hop_count w = n
  | Err _ => Inner.closed (Wire.inner w) = true
  end.

Definition fresh {End_} (circ_id created : Z) (p : End_) (a : list (Z * Cell.t)) : Wire.t End_ :=
  Wire.Mk (Inner.new_on circ_id created) p a.

Lemma do_create_fast_ends `{CryptoLaws} {End_} `{Peer End_} rng generate : 
  ends (fun _ => True) (do_create_fast rng generate) 1.
Proof.
  change 1%nat with (0 + (0 + (0 + (0 + 1))))%nat. apply ends_bind; [apply ends_get|]. intros w.
  apply ends_bind; [apply ends_lift|]. intros [client x]. apply ends_bind; [by apply send_ends|]. intros _.
  apply ends_bind; [apply ends_await|]. intros reply.
  assert (F : exists finished, CreateFast.finish client reply = Some finished).
  { unfold CreateFast.finish. case_match; [by eexists|].
    destruct (kdf_tor_len (client ++ slice_to reply CreateFast.CREATE_FAST_LEN) 92) as (s & -> & _); [unfold U8_MAX; lia|].
    by eexists. }
  destruct F as [finished ->]. change 1%nat with (0 + 1)%nat. apply ends_bind; [apply ends_lift|]. intros keys.
  by apply establish_ends.
Qed.

Lemma fresh_outcome {End_} `{Peer End_} circ_id created (p : End_) a m n :
  ends (fun _ => True) m n ->
  exists w r, closing_on_error m (fresh circ_id created p a) = Some (w, r) /\ outcome n w r.
Proof.
  intros E. destruct (closing_on_error_ends (fun _ => True) (fun _ _ _ => I) m n E (fresh circ_id created p a)) as (w & r & R & [K _] & O).
  assert (S : shut_down (Wire.inner (fresh circ_id created p a))) by done.
  exists w, r. split; [exact R|]. split; [by apply K|]. destruct r; [exact O|by apply O].
Qed.

Lemma begun_unanswered `{Crypto} rng i r :
  match begin_dir_stream rng i r with
  | (j, Ok r') => r' = r /\ answered_on j r = false
  | _ => True
  end.
Proof.
  unfold begin_dir_stream, open_stream. destruct (last_hop i) as [hop|]; [|done].
  destruct (alloc_stream_id i) as [i1 [id|]]; [|done]. cbv zeta.
  match goal with |- context [send_relay rng ?j hop _ _ _ _] => set (k := j) end.
  destruct (send_relay_objects rng k hop RELAY_BEGIN_DIR id [] false) as (O & _ & _).
  destruct (send_relay _ _ _ _ _ _ _) as [j [u|e]]; [|done]. split; [done|]. cbn [fst] in O. unfold answered_on. rewrite O.
  change (Inner.objects k) with
    (<[r := Stream.new id hop (FlowControl.xoff_bytes (State.flow (Inner.state i1)))]> (Inner.objects i1)).
  by rewrite lookup_insert_eq.
Qed.

(** A circuit whose far end says nothing fails its probe. *)
Lemma silence_fails_the_probe `{Crypto} {End_} `{Peer End_} rng (w : Wire.t End_) r :
  (forall p c, snd (react p c) = []) -> Wire.arriving w = [] ->
  exists w' e, probe rng r w = Some (w', Err e).
Proof.
  intros Si Ar. unfold probe.
  assert (Re : forall cells p, snd (reactions p cells) = []).
  { induction cells as [|c cells IH]; intros p; [done|]. cbn [reactions]. specialize (Si p c).
    destruct (react p c) as [q a]. specialize (IH q). destruct (reactions q cells) as [q' b]. cbn in *. by rewrite Si, IH. }
  assert (Op : forall A (f : Inner.t -> Inner.t * result A) v, Wire.arriving v = [] ->
    exists p, operate f v = Some (Wire.Mk (fst (f (Wire.inner v))) p [], snd (f (Wire.inner v)))).
  { intros A f v Av. unfold operate. destruct (f (Wire.inner v)) as [i x].
    specialize (Re (drop (length (Inner.sent (Wire.inner v))) (Inner.sent i)) (Wire.peer v)).
    destruct (reactions _ _) as [p a]. cbn [snd] in Re. rewrite Av, Re. by exists p. }
  destruct (Op _ (fun i => begin_dir_stream rng i r) w Ar) as [p E].
  pose proof (begun_unanswered rng (Wire.inner w) r) as U.
  destruct (begin_dir_stream rng (Wire.inner w) r) as [i [r'|e]]; cbn [fst snd] in E, U;
    [|rewrite (bind_err _ _ _ _ _ E); by eexists _, _].
  rewrite (bind_ok _ _ _ _ _ E). destruct U as [-> U].
  destruct (Op _ (fun i => (close_stream rng i r, Ok tt)) (Wire.Mk i p []) eq_refl) as [q C].
  assert (Ans : answered_on (Wire.inner (Wire.Mk i p [])) r = false) by exact U.
  rewrite (bind_ok _ _ _ (Wire.Mk i p []) tt) by done. rewrite bind_get, (bind_ok _ _ _ _ _ C), Ans. by eexists _, _.
Qed.

(** C8. Whatever the other end of the channel does -- silence, a DESTROY, a truncated or forged answer, cells of any kind at any time -- opening a circuit on a fresh registration comes to an end: create over any first relay, extended through any path, and create_fast. On success the circuit has exactly the hops asked for. On any error, of the first handshake or of any later hop, the circuit that was registered is closed, taken off the channel and left without a stream; no error leaves a half-built circuit registered. *)
Theorem circuits_fail_closed `{CryptoLaws} {End_} `{Peer End_} rng generate circ_id created (p : End_) a first path :
  (exists w r, open_path rng generate first path (fresh circ_id created p a) = Some (w, r) /\ outcome (1 + length path) w r) /\
  (exists w r, create rng generate first (fresh circ_id created p a) = Some (w, r) /\ outcome 1 w r) /\
  (exists w r, create_fast rng generate (fresh circ_id created p a) = Some (w, r) /\ outcome 1 w r).
Proof.
  assert (Cr : exists w r, create rng generate first (fresh circ_id created p a) = Some (w, r) /\ outcome 1 w r)
    by (by apply fresh_outcome, do_create_ends).
  split; [|split; [exact Cr|by apply fresh_outcome, do_create_fast_ends]].
  destruct Cr as (w & [[]|e] & R & S & O).
  - destruct (closing_on_error_ends (fun _ => True) (fun _ _ _ => I) _ _
      (extend_all_ends rng generate (fun _ => True) (fun _ _ _ => I) path) w) as (w' & r & R' & [K _] & O').
    exists w', r. split; [exact (eq_trans (bind_ok _ _ _ _ _ R) R')|]. split; [by apply K|].
    destruct r; [by rewrite O', O|by apply O'].
  - exists w, (Err e). split; [exact (bind_err _ _ _ _ _ R)|by split].
Qed.

(** A message sent along the circuit, and the reply waited for. *)
Lemma asked_and_waited `{Crypto} {End_} `{Peer End_} rng (w w1 w2 : Wire.t End_) hop cmd data reply :
  operate (fun i => send_relay rng i hop cmd 0 data true) w = Some (w1, Ok tt) -> await rng w1 = Some (w2, Ok reply) ->
  exists i, send_relay rng (Wire.inner w) hop cmd 0 data true = (i, Ok tt) /\
    (received rng (Wire.arriving w ++
       snd (reactions (Wire.peer w) (drop (length (Inner.sent (Wire.inner w))) (Inner.sent i)))) i reply \/
     State.handshake (Inner.state (Wire.inner w)) = Some (inl reply)).
Proof.
  intros E3 E4. unfold operate in E3.
  pose proof (send_relay_reply rng (Wire.inner w) hop cmd 0 data true) as S.
  destruct (send_relay rng (Wire.inner w) hop cmd 0 data true) as [i r]. cbn [fst] in S.
  destruct (reactions _ _) as [p a] eqn:Ra. injection E3 as <- ->. exists i. split; [done|]. cbn [snd].
  unfold await in E4. cbn [Wire.arriving Wire.inner] in E4.
  pose proof (deliver_reply rng (Wire.arriving w ++ a) i) as D. unfold reply_of in *.
  set (j := deliver rng _ i) in *. unfold wait_for_handshake in E4.
  destruct (State.handshake (Inner.state j)) as [[got|e]|]; [|done|by destruct (is_closed j)].
  injection E4 as _ ->. destruct D as [D|(reply' & R & D)]; [right; by rewrite <- S|left].
  injection D as <-. by rewrite Ra.
Qed.

(** C9. An extension that succeeds was authenticated, whoever carried it. For any other end of the channel, extend_with reports success only when: it sent the last hop an EXTEND2 that names exactly that relay and carries the handshake started for it, with the secret drawn for this hop and the extensions asked for; a reply came in a cell the pump handled while it waited (CREATED_FAST, CREATED2, or a relay cell that peels off to an EXTENDED2), or had come before; and that reply authenticates the relay -- its second half is the AUTH value computed from the protocol over the Diffie-Hellman results of the client's secret with the ephemeral key in its first half and with the relay's own onion key, its identity and both messages. The one hop added has exactly the keys of that exchange, after as many hops as there were. So if b is the secret of the relay's onion key and y that of the ephemeral key, the reply is the very answer that relay gives to the client's message: nobody else's is accepted. *)
Theorem extension_is_authenticated `{CryptoLaws} {End_} `{Peer End_} rng generate next congestion (w w' : Wire.t End_) :
  extend_with rng generate next congestion w = Some (w', Ok tt) ->
  let exts := match asking next congestion with Some _ => [NtorV3.MkExtension EXT_CC_REQUEST []] | None => [] end in
  exists x hs htype skin hop i reply keys answered front,
    secret generate w = Ok x /\ start (Ok x) next exts = Ok (hs, htype, skin) /\
    last_hop (Wire.inner w) = Ok hop /\
    send_relay rng (Wire.inner w) hop RELAY_EXTEND2 0 (build_extend2 next htype skin) true = (i, Ok tt) /\
    (received rng (Wire.arriving w ++
       snd (reactions (Wire.peer w) (drop (length (Inner.sent (Wire.inner w))) (Inner.sent i)))) i reply \/
     State.handshake (Inner.state (Wire.inner w)) = Some (inl reply)) /\
    authenticated next x exts reply keys answered /\
    (forall b y, info_ok next -> ntor_onion_key next = x25519_public b -> slice_to reply 32 = x25519_public y ->
       the_relays_answer next b y exts skin reply keys answered) /\
    State.hops (Inner.state (Wire.inner w')) = front ++ [Hop.new keys] /\ length front = hop_count w.
Proof.
  intros E exts. unfold extend_with in E. rewrite bind_get in E.
  apply bind_inv in E as (w1 & [[hs htype] skin] & E1 & E). injection E1 as <- E1. fold exts in E1.
  destruct (start_secret _ _ _ _ E1) as [x Hx]. rewrite Hx in E1.
  apply bind_inv in E as (w2 & hop & E2 & E). injection E2 as <- E2.
  apply bind_inv in E as (w3 & [] & E3 & E). apply bind_inv in E as (w4 & reply & E4 & E).
  apply bind_inv in E as (w5 & [keys answered] & E5 & E). injection E5 as <- E5.
  apply bind_inv in E as (w6 & [] & E6 & E). rewrite establish_adds in E6. injection E6 as <-.
  pose proof (ends_count (fun _ => True) _ 0 _ _ _ (send_relay_ends rng _ (fun _ _ _ => I) _ _ _ _ _) E3) as C3.
  pose proof (ends_count (fun _ => True) _ 0 _ _ _ (ends_await rng _) E4) as C4.
  destruct (asked_and_waited rng w w3 w4 _ _ _ _ E3 E4) as (i & Si & Re).
  pose proof (finish_authenticates _ _ _ _ _ _ _ _ _ E1 E5) as A.
  exists x, hs, htype, skin, hop, i, reply, keys, answered, (State.hops (Inner.state (Wire.inner w4))).
  split_and!; try done.
  - intros b y [_ Lr Le]. by apply authenticated_reply_is_the_relays with (hs := hs) (htype := htype) (x := x).
  - destruct (asking next congestion) as [params|]; [|by injection E as <-].
    match type of E with operate _ ?w6 = _ =>
      destruct (adopt_silent w6 (map (fun e => (NtorV3.kind e, NtorV3.body e)) answered) params) as (flow & r & A') end.
    rewrite A' in E. injection E as <- _. done.
  - unfold hop_count in *. lia.
Qed.

(** C7. Honest relays and the client agree on the whole circuit. Over a channel to an honest first relay, with the directory's true keys for every relay of the path and at most eight further hops, opening the circuit succeeds and both sides hold the same cipher and digest states for every hop, in the order asked for; the relays' record of who is on the circuit is the path itself, nothing is left under way, and each hop has cost exactly one RELAY_EARLY cell of the eight. The one exception is a four-byte digest coincidence that makes a relay take another's cell for its own. *)
Theorem telescope_agrees `{CryptoLaws} rng generate circ_id created first path others :
  fills rng -> (forall n, is_ok (rng n) = true) ->
  ready generate first -> Forall (ready generate) path ->
  Forall (fun p => listed p (Honest.Mk [] [] first others false)) path -> len path <= MAX_RELAY_EARLY ->
  exists w r, open_path rng generate (info first) (map info path)
      (fresh circ_id created (Honest.Mk [] [] first others false) []) = Some (w, r) /\
    (Honest.confused (Wire.peer w) = true \/
     (r = Ok tt /\ in_step w /\ Honest.members (Wire.peer w) = map info (first :: path) /\
      hop_count w = (1 + length path)%nat /\ early_left w = MAX_RELAY_EARLY - len path)).
Proof.
  intros Rf Rw [Sf Gf] Rp Lp Le. destruct (Gf 0%nat) as (x & G & Mt).
  set (w0 := fresh circ_id created (Honest.Mk [] [] first others false) []).
  destruct (do_create_in_step rng generate w0 x) as (w1 & E1 & S1 & M1 & H1 & O1 & C1 & L1); try done.
  destruct (closing_after (fun _ => True) (fun _ _ _ => I) _ w0 w1 _ E1) as (w1' & Cr & _ & ->).
  change (Honest.members (Wire.peer w1) = map info [first]) in M1.
  destruct (extend_all_in_step rng generate Rf Rw path w1 S1) as (w2 & r & E2 & D).
  { intros En. unfold hop_count in H1. rewrite En in H1. discriminate H1. }
  { eapply Forall_impl; [apply Forall_and; split; [exact Rp|exact Lp]|]. intros q [Rq Lq]. split; [exact Rq|].
    unfold listed in *. by rewrite O1. }
  { unfold early_left. rewrite L1. exact Le. }
  destruct (closing_after (fun n => Honest.confused n = true) honest_stays_confused _ _ _ _ E2) as (w3 & E3 & K3 & C3).
  exists w3, r. split; [exact (eq_trans (bind_ok _ _ _ _ _ Cr) E3)|].
  destruct D as [Cf|(-> & S2 & M2 & H2 & L2)]; [left; by apply K3|right]. subst w3.
  rewrite M1 in M2. rewrite H1 in H2. unfold early_left in *. rewrite L1 in L2. by split_and!.
Qed.

(** ** A circuit of three relays, and one that is open_path_refused *)
Module TelescopeDemo.
Import Toy RelayDemo.

Definition relay (i : Z) (ed : option bytes) : Party :=
  MkParty (MkRelay [10; 0; 0; i] 9001 (replicate 20 i) ed (x25519_public (replicate 32 (i + 10))))
    (replicate 32 (i + 10)) (replicate 32 (i + 20)) [].
Definition first : Party := relay 1 None.
Definition path : list Party := [relay 2 (Some (replicate 32 42)); relay 3 None].
Definition generate (n : nat) : result bytes := Ok (replicate 32 (30 + Z.of_nat n)).

Lemma relay_ready i ed : (forall e, ed = Some e -> len e = 32) -> ready generate (relay i ed).
Proof.
  intros He. split; [split; [split; [done|done|exact He]|done|]|].
  - by exists [0].
  - intros n. exists (replicate 32 (30 + Z.of_nat n)). split; [done|]. split; by eexists.
Qed.

Lemma path_ready : Forall (ready generate) path.
Proof. apply Forall_cons. split; [|apply Forall_singleton]; apply relay_ready; [by intros e [= <-]|done]. Qed.

Lemma path_listed : Forall (fun p => listed p (Honest.Mk [] [] first path false)) path.
Proof. apply Forall_cons. split; [|apply Forall_singleton]; eexists; vm_compute; reflexivity. Qed.

Definition world : Wire.t Honest.t := fresh 9 0 (Honest.Mk [] [] first path false) [].
Lemma unmistaken :
  (fun '(w, _) => Honest.confused (Wire.peer w)) <$> open_path demo_rng generate (info first) (map info path) world = Some false.
Proof. by vm_compute. Qed.

Lemma telescope_agrees_witness :
  exists w, open_path demo_rng generate (info first) (map info path) world = Some (w, Ok tt) /\ in_step w /\
    map addr_ip (Honest.members (Wire.peer w)) = [[10; 0; 0; 1]; [10; 0; 0; 2]; [10; 0; 0; 3]] /\ hop_count w = 3%nat.
Proof.
  destruct (telescope_agrees demo_rng generate 9 0 first path path demo_rng_fills (fun _ => eq_refl)
    (relay_ready 1 None ltac:(done)) path_ready path_listed ltac:(done)) as (w & r & E & D).
  pose proof unmistaken as U. unfold world in *. rewrite E in U. injection U as U.
  destruct D as [C|(-> & S & M & N & _)]; [by rewrite U in C|].
  exists w. rewrite M, N. by split_and!.
Defined.
Definition second : RelayInfo := info (relay 2 (Some (replicate 32 42))).
Definition landed (r : option (Wire.t Honest.t * result unit)) : Wire.t Honest.t :=
  match r with Some (w, _) => w | None => world end.
Definition one_hop : Wire.t Honest.t := landed (create demo_rng generate (info first) world).
Definition two_hops : Wire.t Honest.t := landed (extend demo_rng generate second one_hop).
Lemma extended_ok : extend_with demo_rng generate second None one_hop = Some (two_hops, Ok tt).
Proof. by vm_compute. Qed.

Lemma one_hop_is_quiet :
  secret generate one_hop = Ok (replicate 32 31) /\ last_hop (Wire.inner one_hop) = Ok 0%nat /\
  Wire.arriving one_hop = [] /\ State.handshake (Inner.state (Wire.inner one_hop)) = None /\
  length (Inner.sent (Wire.inner one_hop)) = 1%nat.
Proof. by vm_compute. Qed.

Lemma extension_is_authenticated_witness :
  exists htype skin i reply keys answered front,
    send_relay demo_rng (Wire.inner one_hop) 0 RELAY_EXTEND2 0 (build_extend2 second htype skin) true = (i, Ok tt) /\
    received demo_rng (snd (reactions (Wire.peer one_hop) (drop 1 (Inner.sent i)))) i reply /\
    authenticated second (replicate 32 31) [] reply keys answered /\
    State.hops (Inner.state (Wire.inner two_hops)) = front ++ [Hop.new keys].
Proof.
  destruct (extension_is_authenticated demo_rng generate second None one_hop two_hops extended_ok)
    as (x & hs & htype & skin & hop & i & reply & keys & answered & front & Sx & _ & L & Se & R & A & _ & E & _).
  destruct one_hop_is_quiet as (Q1 & Q2 & Q3 & Q4 & Q5).
  rewrite Q1 in Sx. injection Sx as <-. rewrite Q2 in L. injection L as <-. rewrite Q3, Q4, Q5 in R.
  destruct R as [R|R]; [|discriminate R].
  exists htype, skin, i, reply, keys, answered, front. split; [exact Se|]. split; [exact R|]. by split.
Defined.

(** An end that answers everything with DESTROY. *)
Inductive hostile := Hostile.
#[export] Instance destroyer : Peer hostile := { react := fun p c => (p, [(0, Cell.Mk (Cell.circ_id c) CMD_DESTROY [1])]) }.
Definition refusal : option (Wire.t hostile * result unit) :=
  open_path demo_rng generate (info first) (map info path) (fresh 9 0 Hostile []).
Lemma open_path_refused : (fun '(_, r) => is_ok r) <$> refusal = Some false.
Proof. by vm_compute. Qed.

Lemma circuits_fail_closed_witness :
  exists w e, refusal = Some (w, Err e) /\ Inner.closed (Wire.inner w) = true /\ Inner.registered (Wire.inner w) = false.
Proof.
  destruct (proj1 (circuits_fail_closed demo_rng generate 9 0 Hostile [] (info first) (map info path))) as (w & r & E & S & O).
  pose proof open_path_refused as F. unfold refusal in *. rewrite E in F. destruct r as [u|e]; [done|].
  exists w, e. split; [exact E|]. split; [exact O|]. by apply S.
Defined.
End TelescopeDemo.
