(* ===== verification/Builder.v ===== *)
(** * Building circuits ([src/src/tor/client.rs], the builder's jobs of [pool.rs])

    Choosing the relays of a path, extending circuits over them, and the
    request for a stream that needs one.  A computation threads what the client
    holds (the pool, the microdescriptors in memory), the random words still to
    come, and the log of what it did to circuits.  What relays, the directory
    and the clock answer is the [World], and may depend on all that went
    before.  The theorems say that a path never doubles back on itself, and
    that no circuit is lost. *)
From S2P Require Import Prelude.
From S2P Require Import Text.
From S2P Require Import Computation.
From S2P Require Import Cc.
From S2P Require Import Handshake.
From S2P Require Import Consensus.
From S2P Require Import Microdesc.
From S2P Require Import Path.
From S2P Require Import Pool.

Definition EXIT_SAMPLE : nat := 40.
Definition MIDDLE_SAMPLE : nat := 8.
Definition RENDEZVOUS_SAMPLE : nat := 8.
Definition MAX_CACHED_MICRODESCS : nat := 2000.
Definition CONNECT_ATTEMPTS : nat := 3.

Inductive Event :=
  | Created (h : handle) (relay : RelayInfo)
  | Extended (h : handle) (relay : RelayInfo) (congestion : option CcParams.t)
  | Closed (h : handle).

Definition microdescs : Type := gmap bytes Microdesc.t.

Module Client.
Record t := Mk {
  pool : State.t;
  cache : microdescs;
  draws : Rand.draws;
  log : list Event;
}.
End Client.

(** What everything outside answers, in the state it is asked in. *)
Record World := MkWorld {
  w_consensus : Consensus.t;
  w_look : Client.t -> nat -> Look;                                (* the pool's view of circuits *)
  w_guard : Client.t -> microdescs * result (nat * RelayInfo);     (* guard_channel *)
  w_first_guard : Client.t -> microdescs * option RelayInfo;       (* ensure_guard, then guard_relay *)
  w_fetch : Client.t -> list bytes -> result microdescs;           (* Directory::microdescs on a circuit of its own *)
  w_create : Client.t -> nat -> RelayInfo -> result handle;        (* Circuit::create *)
  w_extend : Client.t -> handle -> RelayInfo -> result unit;       (* Circuit::extend_with *)
  w_below : Client.t -> nat -> result nat;                         (* the pool's rand::below *)
  w_begin : Client.t -> handle -> bytes -> Z -> result nat;        (* Circuit::begin_stream *)
}.

(** The client's computations; [None] while the random words given run out. *)
Abbreviation M := (Comp Client.t).

Definition draw {A} (f : Rand.draws -> Rand.outcome A) : M A := fun s =>
  match f (Client.draws s) with
  | Rand.Done r rest => Some (s{{Client.draws := rest}}, r)
  | Rand.Waiting | Rand.Panicked => None
  end.

Definition record (e : Event) : M unit := fun s => Some (s{{Client.log := Client.log s ++ [e] }}, Ok tt).
Definition close (h : handle) : M unit := record (Closed h).

(** [let built = (|| ..)(); if let Err(e) = built { circuit.close(); .. }] *)
Definition closing_on_error {A} (h : handle) (m : M A) : M A :=
  r ← attempt m;
  match r with Ok a => mret a | Err e => _ ← close h; fail e end.

(** [relay.addr.ip().octets()] *)
Definition octets16 (relay : RelayInfo) : bytes := [byte_at (addr_ip relay) 0; byte_at (addr_ip relay) 1].

Definition relay_info (status : RouterStatus.t) (md : Microdesc.t) : RelayInfo :=
  MkRelay (RouterStatus.ipv4 status) (RouterStatus.or_port status) (RouterStatus.identity status)
    (Microdesc.ed_identity md) (Microdesc.ntor_onion_key md).

Section builder.
Context (w : World).

(** ** Relays *)

Definition router (identity : bytes) : option RouterStatus.t :=
  List.find (fun r => bytes_eqb (RouterStatus.identity r) identity) (Consensus.routers (w_consensus w)).

Definition cached_microdesc (cache : microdescs) (identity : bytes) : option Microdesc.t :=
  status ← router identity; cache !! RouterStatus.microdesc_digest status.

Definition family_of (cache : microdescs) (identity : bytes) : list bytes :=
  match cached_microdesc cache identity with Some md => Microdesc.family md | None => [] end.

Definition constrain (cache : microdescs) (constraints : PathConstraints.t) (relay : RelayInfo)
    : PathConstraints.t :=
  let md := cached_microdesc cache (rsa_identity relay) in
  match router (rsa_identity relay) with
  | Some status => PathConstraints.add constraints status md
  | None =>
      PathConstraints.add_relay constraints (rsa_identity relay) (octets16 relay)
        (match md with Some md => Microdesc.family md | None => [] end)
  end.

Definition load_microdescs (digests : list bytes) : M microdescs := fun s =>
  let cached := Client.cache s in
  let result := foldl (fun result digest =>
    match cached !! digest with Some md => <[digest := md]> result | None => result end)
    (∅ : microdescs) digests in
  let missing := filter (fun digest => cached !! digest = None) digests in
  match missing with
  | [] => Some (s, Ok result)
  | _ =>
      match w_fetch w s missing with
      | Err e => Some (s, Err e)
      | Ok fetched =>
          let cached := if (MAX_CACHED_MICRODESCS <? size cached + size fetched)%nat then ∅ else cached in
          Some (s{{Client.cache := fetched ∪ cached}}, Ok (fetched ∪ result))
      end
  end.

(** A relay by its identity, with the keys its microdescriptor names. *)
Definition resolve_relay (status : RouterStatus.t) : M RelayInfo :=
  mds ← load_microdescs [RouterStatus.microdesc_digest status];
  match mds !! RouterStatus.microdesc_digest status with
  | Some md => mret (relay_info status md)
  | None => fail (invalid_data "could not fetch the relay's microdescriptor")
  end.
Definition relay_for (identity : bytes) : M RelayInfo :=
  status ← lift (ok_or (router identity) (invalid_data "relay is not in the consensus"));
  resolve_relay status.
Definition guard_relay (identity : bytes) : M RelayInfo :=
  status ← lift (ok_or (router identity) (invalid_data "the guard is no longer in the consensus"));
  resolve_relay status.

(** What both kinds of hop have in common: sample, look the sample up, keep
    what is usable, draw one of it. *)
Definition draw_relay (candidates : list RouterStatus.t) (count : nat) (p : Position)
    (usable : microdescs -> RouterStatus.t -> bool) (vanished : io_error)
    : M (RouterStatus.t * Microdesc.t) :=
  let weights := Consensus.weights (w_consensus w) in
  sampled ← draw (sample_at candidates count p weights);
  fetched ← load_microdescs (map RouterStatus.microdesc_digest sampled);
  chosen ← draw (weighted_choice_at (filter (fun r => usable fetched r = true) sampled) p weights);
  match fetched !! RouterStatus.microdesc_digest chosen with
  | Some md => mret (chosen, md)
  | None => fail vanished
  end.

Definition choose_middle (constraints : PathConstraints.t) : M RelayInfo :=
  '(chosen, md) ← draw_relay (middle_candidates (w_consensus w) constraints) MIDDLE_SAMPLE Middle
    (fun fetched r => match fetched !! RouterStatus.microdesc_digest r with
                      | Some md => PathConstraints.accepts constraints r (Some md)
                      | None => false
                      end)
    (invalid_data "middle microdescriptor vanished");
  mret (relay_info chosen md).

Definition guard_channel : M (nat * RelayInfo) := fun s =>
  let '(cache, r) := w_guard w s in Some (s{{Client.cache := cache}}, r).

Definition choose_rendezvous_point : M RelayInfo := fun s =>
  let '(cache, guard) := w_first_guard w s in
  let s := s{{Client.cache := cache}} in
  let constraints := match guard with
                     | Some guard => constrain cache PathConstraints.default guard
                     | None => PathConstraints.default
                     end in
  ('(chosen, md) ← draw_relay (rendezvous_candidates (w_consensus w) constraints) RENDEZVOUS_SAMPLE Middle
     (fun fetched r => match fetched !! RouterStatus.microdesc_digest r with Some _ => true | None => false end)
     (invalid_data "rendezvous point microdescriptor vanished");
   mret (relay_info chosen md)) s.

(** ** Circuits *)

Definition create (channel : nat) (guard : RelayInfo) : M handle := fun s =>
  match w_create w s channel guard with
  | Ok h => Some (s{{Client.log := Client.log s ++ [Created h guard] }}, Ok h)
  | Err e => Some (s, Err e)
  end.

Definition extend (h : handle) (relay : RelayInfo) (congestion : option CcParams.t) : M unit := fun s =>
  match w_extend w s h relay with
  | Ok _ => Some (s{{Client.log := Client.log s ++ [Extended h relay congestion] }}, Ok tt)
  | Err e => Some (s, Err e)
  end.

(** An operation of the pool; the circuits it lets go of are closed. *)
Definition pooled {A} (op : (nat -> Look) -> State.t -> State.t * list handle * A) : M A := fun s =>
  let '(pool, closing, a) := op (w_look w s) (Client.pool s) in
  Some (s{{Client.pool := pool}}{{Client.log := Client.log s ++ map Closed closing}}, Ok a).

Definition take_stub (fits : PathConstraints.t -> bool) : M (option Stub.t) :=
  pooled (fun look s => Pool.take_stub look fits s).
Definition add_stub (stub : Stub.t) : M unit :=
  pooled (fun _ s => (Pool.add_stub s stub, tt)).
Definition insert (h : handle) (exit : Microdesc.t) (guard : bytes) (used : bool) : M unit :=
  pooled (fun look s => (Pool.insert look s h exit guard used, tt)).
Definition discard (h : handle) : M unit :=
  pooled (fun _ s => (Pool.discard s h, tt)).
Definition note_port (port : Z) : M unit :=
  pooled (fun look s => (Pool.note_port look s port, [], tt)).

Definition build_stub : M Stub.t :=
  '(channel, guard) ← guard_channel;
  s ← get;
  let constraints := constrain (Client.cache s) PathConstraints.default guard in
  middle ← choose_middle constraints;
  circuit ← create channel guard;
  _ ← closing_on_error circuit (extend circuit middle None);
  s ← get;
  let constraints := constrain (Client.cache s) constraints middle in
  mret (Stub.Mk circuit constraints (rsa_identity guard) (now (w_look w s 0))).

(** One of the two rounds over the sampled exits. *)
Definition exit_usable (constraints : PathConstraints.t) (ports : list Z) (all : bool)
    (fetched : microdescs) (r : RouterStatus.t) : bool :=
  match fetched !! RouterStatus.microdesc_digest r with
  | Some md =>
      negb (PortPolicy.is_empty (Microdesc.exit_policy md)) &&
      PathConstraints.accepts constraints r (Some md) &&
      (if all then forallb (PortPolicy.allows (Microdesc.exit_policy md)) ports
       else existsb (PortPolicy.allows (Microdesc.exit_policy md)) ports)
  | None => false
  end.

Definition allowing (constraints : PathConstraints.t) (ports : list Z) (fetched : microdescs)
    (sampled : list RouterStatus.t) : list RouterStatus.t :=
  match filter (fun r => exit_usable constraints ports true fetched r = true) sampled with
  | [] => filter (fun r => exit_usable constraints ports false fetched r = true) sampled
  | exits => exits
  end.

Definition extend_to_exit (stub : Stub.t) (ports : list Z) : M Microdesc.t :=
  let weights := Consensus.weights (w_consensus w) in
  sampled ← draw (sample_at (exit_candidates (w_consensus w) (Stub.constraints stub)) EXIT_SAMPLE Exit weights);
  fetched ← load_microdescs (map RouterStatus.microdesc_digest sampled);
  match allowing (Stub.constraints stub) ports fetched sampled with
  | [] => fail (invalid_data "none of {} sampled exits allows any of {ports:?}")
  | exits =>
      exit ← draw (weighted_choice_at exits Exit weights);
      match fetched !! RouterStatus.microdesc_digest exit with
      | None => fail (invalid_data "exit microdescriptor vanished")
      | Some exit_md =>
          _ ← extend (Stub.circuit stub) (relay_info exit exit_md)
                (Some (Params.cc_exit (Consensus.params (w_consensus w))));
          mret exit_md
      end
  end.

(** The part of [build_exit_circuit] without a stub. *)
Definition build_from_guard (ports : list Z) : M (handle * Microdesc.t * bytes) :=
  '(channel, guard) ← guard_channel;
  s ← get;
  let constraints := constrain (Client.cache s) PathConstraints.default guard in
  middle ← choose_middle constraints;
  circuit ← create channel guard;
  exit ← closing_on_error circuit (
    _ ← extend circuit middle None;
    s ← get;
    let constraints := constrain (Client.cache s) constraints middle in
    extend_to_exit (Stub.Mk circuit constraints (rsa_identity guard) (now (w_look w s 0))) ports);
  mret (circuit, exit, rsa_identity guard).

Definition build_exit_circuit (ports : list Z) : M (handle * Microdesc.t * bytes) :=
  stub ← take_stub (fun _ => true);
  match stub with
  | Some stub =>
      exit ← attempt (extend_to_exit stub ports);
      match exit with
      | Ok exit => mret (Stub.circuit stub, exit, Stub.guard stub)
      | Err _ => _ ← close (Stub.circuit stub); build_from_guard ports
      end
  | None => build_from_guard ports
  end.

Definition extend_path (channel : nat) (guard middle last : RelayInfo) : M handle :=
  circuit ← create channel guard;
  _ ← closing_on_error circuit (_ ← extend circuit middle None; extend circuit last None);
  mret circuit.

(** The part of [build_circuit_to] without a stub. *)
Definition build_path_to (last : RelayInfo) : M handle :=
  '(channel, guard) ← guard_channel;
  s ← get;
  let constraints := constrain (Client.cache s) PathConstraints.default guard in
  let constraints := constrain (Client.cache s) constraints last in
  middle ← choose_middle constraints;
  extend_path channel guard middle last.

Definition build_circuit_to (last : RelayInfo) : M handle :=
  s ← get;
  let family := family_of (Client.cache s) (rsa_identity last) in
  stub ← take_stub (fun c => PathConstraints.accepts_relay c (rsa_identity last) (octets16 last) family);
  match stub with
  | Some stub =>
      extended ← attempt (extend (Stub.circuit stub) last None);
      match extended with
      | Ok _ => mret (Stub.circuit stub)
      | Err _ => _ ← close (Stub.circuit stub); build_path_to last
      end
  | None => build_path_to last
  end.

(** ** Requests *)

Definition circuit_for (port : Z) : M handle :=
  s ← get;
  found ← pooled (fun look s' => Pool.circuit_for look (w_below w s) s' port);
  match found with
  | Some circuit => mret circuit
  | None =>
      '(circuit, exit, guard) ← build_exit_circuit [port];
      _ ← insert circuit exit guard true;
      mret circuit
  end.

Definition begin_stream (h : handle) (host : bytes) (port : Z) : M nat := fun s =>
  Some (s, w_begin w s h host port).

Fixpoint connect_loop (attempts : nat) (host : bytes) (port : Z) (last : option io_error) : M nat :=
  match attempts with
  | O => fail (match last with Some e => e | None => other_error "could not open a stream" end)
  | S attempts =>
      circuit ← attempt (circuit_for port);
      match circuit with
      | Err e => connect_loop attempts host port (Some e)
      | Ok circuit =>
          stream ← attempt (begin_stream circuit host port);
          match stream with
          | Ok stream => mret stream
          | Err e => _ ← discard circuit; connect_loop attempts host port (Some e)
          end
      end
  end.

Definition connect (host : bytes) (port : Z) : M nat :=
  _ ← note_port port; connect_loop CONNECT_ATTEMPTS host port None.

(** What a stream from [connect] does when its circuit fails it. *)
Definition reattach (failed : handle) (host : bytes) (port : Z) : M nat :=
  _ ← discard failed;
  circuit ← circuit_for port;
  begin_stream circuit host port.

(** One job of the builder thread. *)
Definition build (job : Job) (ports : list Z) : M unit :=
  match job with
  | JobStub => stub ← build_stub; add_stub stub
  | JobClean => '(circuit, exit, guard) ← build_exit_circuit ports; insert circuit exit guard false
  end.
End builder.

(** ** What the log says *)
Section log.

Definition created (log : list Event) : list handle :=
  omap (fun e => match e with Created h _ => Some h | _ => None end) log.
Definition closed (log : list Event) : list handle :=
  omap (fun e => match e with Closed h => Some h | _ => None end) log.

(** The circuits that were created and not closed. *)
Definition live (log : list Event) : list handle := filter (fun h => h ∉ closed log) (created log).

Definition handle_of (e : Event) : handle := match e with Created h _ | Extended h _ _ | Closed h => h end.

(** The relays of a circuit, in order. *)
Definition hops_of (h : handle) (log : list Event) : list RelayInfo :=
  omap (fun e => match e with
                 | Created h' relay | Extended h' relay _ => if decide (h' = h) then Some relay else None
                 | Closed _ => None
                 end) log.

(** Nothing is done to a circuit that was not created, and circuit IDs are not
    used twice. *)
Definition log_ok (log : list Event) : Prop :=
  NoDup (map circ_id (created log)) /\ forall e, e ∈ log -> handle_of e ∈ created log.

Lemma created_app l k : created (l ++ k) = created l ++ created k.
Proof. apply omap_app. Qed.
Lemma closed_app l k : closed (l ++ k) = closed l ++ closed k.
Proof. apply omap_app. Qed.
Lemma hops_of_app h l k : hops_of h (l ++ k) = hops_of h l ++ hops_of h k.
Proof. apply omap_app. Qed.

Lemma created_closes cs : created (map Closed cs) = [].
Proof. by induction cs. Qed.
Lemma closed_closes cs : closed (map Closed cs) = cs.
Proof. unfold closed. induction cs as [|c cs IH]; [done|]. cbn. by rewrite IH. Qed.
Lemma hops_of_closes h cs : hops_of h (map Closed cs) = [].
Proof. by induction cs. Qed.

Lemma log_ok_nodup log : log_ok log -> NoDup (created log).
Proof. intros [N _]. by eapply NoDup_fmap_1. Qed.

Lemma closed_created log h : log_ok log -> h ∈ closed log -> h ∈ created log.
Proof.
  intros [_ K] H. apply list_elem_of_omap in H as (e & He & E). destruct e; try done. injection E as ->. by apply (K (Closed h)).
Qed.

Lemma live_nodup log : log_ok log -> NoDup (live log).
Proof. intros H. by apply NoDup_filter, log_ok_nodup. Qed.

(** The relays of a circuit nothing was done to. *)
Lemma hops_of_none h log : (forall e, e ∈ log -> handle_of e <> h) -> hops_of h log = [].
Proof.
  intros H. unfold hops_of. induction log as [|e log IH]; [done|]. cbn.
  assert (N : handle_of e <> h) by (apply H; by left).
  rewrite IH by (intros; apply H; by right). destruct e as [h' r|h' r c|h']; cbn in *; [|case_decide|done]; [|done..].
  by rewrite decide_False.
Qed.

Lemma live_created log h relay :
  log_ok log -> h ∉ created log -> live (log ++ [Created h relay]) = live log ++ [h].
Proof.
  intros Hl N. unfold live. rewrite created_app, closed_app. cbn. rewrite app_nil_r, filter_app.
  f_equal. rewrite filter_cons_True; [done|]. intros C. by apply N, closed_created.
Qed.

Lemma live_extended log h relay cc : live (log ++ [Extended h relay cc]) = live log.
Proof. unfold live. rewrite created_app, closed_app. cbn. by rewrite !app_nil_r. Qed.

Lemma live_closes log kept cs :
  log_ok log -> live log ≡ₚ kept ++ cs -> live (log ++ map Closed cs) ≡ₚ kept.
Proof.
  intros Hl P. assert (E : live (log ++ map Closed cs) = filter (fun h => h ∉ cs) (live log)).
  { unfold live. rewrite created_app, closed_app, created_closes, closed_closes, app_nil_r.
    rewrite list_filter_filter. apply list_filter_iff. intros h. rewrite elem_of_app. tauto. }
  pose proof (live_nodup log Hl) as N. rewrite P in N. apply NoDup_app in N as (_ & D & _).
  rewrite E, P, filter_app, filter_all, filter_none, app_nil_r; [done|..]; apply Forall_forall; naive_solver.
Qed.

(** Closing a circuit that is not open changes nothing. *)
Lemma live_close_again log h : h ∉ live log -> live (log ++ [Closed h]) = live log.
Proof.
  intros N. unfold live in *. rewrite created_app, closed_app. cbn. rewrite app_nil_r.
  transitivity (filter (fun x => x <> h) (filter (fun x => x ∉ closed log) (created log))).
  - rewrite list_filter_filter. apply list_filter_iff. intros x. rewrite elem_of_app, list_elem_of_singleton. tauto.
  - apply filter_all, Forall_forall. by intros x Hx ->.
Qed.
End log.

(** ** Reasoning about the computations *)

(** What only looks at the microdescriptors survives what does not load any. *)
Definition keeps_cache {A} (m : M A) : Prop := forall s s' r, m s = Some (s', r) -> Client.cache s' = Client.cache s.

Lemma triple_frame {A} (X : microdescs -> Prop) P (m : M A) Q E :
  keeps_cache m -> triple P m Q E ->
  triple (fun s => P s /\ X (Client.cache s)) m (fun a s => Q a s /\ X (Client.cache s)) E.
Proof.
  intros K T s s' r [Hs Hx] B. specialize (T s s' r Hs B). specialize (K s s' r B). rewrite <- K in Hx. by destruct r.
Qed.

Lemma triple_frame_all {A} (X : microdescs -> Prop) P (m : M A) Q E :
  keeps_cache m -> triple P m Q E ->
  triple (fun s => P s /\ X (Client.cache s)) m (fun a s => Q a s /\ X (Client.cache s)) (fun s => E s /\ X (Client.cache s)).
Proof.
  intros K T s s' r [Hs Hx] B. specialize (T s s' r Hs B). specialize (K s s' r B). rewrite <- K in Hx. by destruct r.
Qed.

(** A computation that only draws. *)
Lemma triple_draw {A} (P : Client.t -> Prop) (f : Rand.draws -> Rand.outcome A) (F : A -> Prop) :
  (forall s ds, P s -> P (s{{Client.draws := ds}})) ->
  (forall ds a rest, f ds = Rand.Done (Ok a) rest -> F a) ->
  triple P (draw f) (fun a s => F a /\ P s) P.
Proof.
  intros HP HF s s' r Hs B. unfold draw in B. destruct (f (Client.draws s)) as [r1 rest| |] eqn:Ef; [|done..].
  injection B as <- <-. destruct r1 as [a|e]; [|by apply HP]. split; [by eapply HF|by apply HP].
Qed.

(** *** Draws give candidates *)

Lemma choose_elem l share ds r rest : choose l share ds = Rand.Done (Ok r) rest -> r ∈ l.
Proof.
  unfold choose. destruct (list.last l) as [final|] eqn:L; [|done].
  destruct (Rand.below _ ds) as [[k|e] ds'| |]; cbn [Rand.bind]; try done.
  intros [= <- _]. destruct (pick_from l share k) as [r|] eqn:P; cbn [default].
  - clear L. revert k P. induction l as [|x l IH]; intros k P; [done|]. cbn [pick_from] in P.
    destruct (k <? share x); [injection P as <-; by left|right; by eapply IH].
  - apply last_Some in L as (l' & ->). set_solver.
Qed.

Lemma sample_elem candidates count p weights ds out rest :
  sample_at candidates count p weights ds = Rand.Done (Ok out) rest -> out ⊆ candidates.
Proof.
  unfold sample_at, sample_with. generalize (S (length candidates)). intros fuel.
  assert (G : forall pool acc ds, pool ⊆ candidates -> acc ⊆ candidates ->
    sample_loop fuel pool count (fun r => weighted_bandwidth r p weights) acc ds = Rand.Done (Ok out) rest ->
    out ⊆ candidates); [|intros E; apply (G candidates [] ds); [set_solver..|done]].
  induction fuel as [|fuel IH]; intros pool acc ds' Hp Ha E; cbn [sample_loop] in E; [by injection E as <- _|].
  destruct (_ && _); [|by injection E as <- _].
  destruct (choose pool _ ds') as [[c|e] ds2| |] eqn:Ec; cbn [Rand.bind] in E; try done.
  apply choose_elem in Ec. apply IH in E; [done|..].
  - intros x Hx. apply list_elem_of_filter in Hx as [_ Hx]. by apply Hp.
  - intros x Hx. apply elem_of_app in Hx as [Hx|Hx]; [by apply Ha|].
    apply list_elem_of_singleton in Hx as ->. by apply Hp.
Qed.

(** *** What the pool's operations keep

    [pool_fair]: beside the circuits [hs] in hand before, [op] leaves the
    circuits [hs'] of its result in hand, and closes the rest; the stubs it
    leaves were there or are [extra]. *)
Definition pool_fair {A} (hs : list handle) (extra : list Stub.t) (hs' : A -> list handle)
    (F : A -> State.t -> State.t -> Prop)
    (op : (nat -> Look) -> State.t -> State.t * list handle * A) : Prop :=
  forall look s s' closing a, op look s = (s', closing, a) ->
  NoDup (map circ_id (handles s ++ hs)) ->
  handles s ++ hs ≡ₚ (handles s' ++ hs' a) ++ closing /\
  State.stubs s' ⊆ extra ++ State.stubs s /\ F a s s'.

Lemma retire_stubs look i s s' closing : retire look i s = (s', closing) -> State.stubs s' ⊆ State.stubs s.
Proof.
  unfold retire. destruct (retire_circuits _ _ _ _) as [[kept cl] blame]. intros [= <- <-]. cbn.
  intros st Hst. by apply list_elem_of_filter in Hst as [_ Hst].
Qed.

Lemma make_room_stubs look fuel : forall i s closing s' closing',
  make_room look fuel i s closing = (s', closing') -> State.stubs s' ⊆ State.stubs s.
Proof.
  induction fuel as [|fuel IH]; intros i s closing s' closing' E; cbn [make_room] in E; [by injection E as <- _|].
  destruct (_ <? _)%nat; [by injection E as <- _|].
  destruct (oldest_idle look i 0 (State.circuits s)) as [[index b]|].
  - destruct (State.circuits s !! index); [by apply IH in E|by injection E as <- _].
  - destruct (State.stubs s) as [|st stubs] eqn:Es; [injection E as <- _; by rewrite Es|].
    apply IH in E. cbn in E. intros x Hx. right. by apply E.
Qed.

Definition stub_list (stub : option Stub.t) : list handle :=
  match stub with Some st => [Stub.circuit st] | None => [] end.

Lemma take_stub_fair hs fits :
  pool_fair hs [] (fun stub => stub_list stub ++ hs)
    (fun stub s _ => match stub with Some st => st ∈ State.stubs s /\ fits (Stub.constraints st) = true | None => True end)
    (fun look s => Pool.take_stub look fits s).
Proof.
  intros look s s' closing a E _. pose proof (take_stub_handles look fits s s' closing a E) as P.
  unfold Pool.take_stub in E. destruct (retire look 0 s) as [s1 c1] eqn:R. apply retire_stubs in R.
  split; [|destruct (remove_first _ (State.stubs s1)) as [[st rest]|] eqn:F; injection E as <- <- <-].
  - rewrite P. rewrite <- !app_assoc. apply Permutation_app_head. fold (stub_list a). rewrite (app_assoc (stub_list a)).
    apply Permutation_app_comm.
  - apply remove_first_perm in F as [F1 F2]. split; [|split; [|done]].
    + intros x Hx. apply R. rewrite F1. by right.
    + apply R. rewrite F1. by left.
  - by split.
Qed.

(** A stub fresh from [build_stub] is kept or closed. *)
Lemma add_stub_fair hs st : pool_fair (Stub.circuit st :: hs) [st] (fun _ => hs) (fun _ _ _ => True)
  (fun _ s => (Pool.add_stub s st, tt)).
Proof.
  intros look s s' closing a E _. unfold Pool.add_stub in E.
  destruct (_ <=? _)%nat; injection E as <- <- _; (split; [|split; [|done]]).
  - rewrite <- app_assoc. apply Permutation_app_head, Permutation_cons_append.
  - set_solver.
  - unfold handles. cbn. rewrite map_app, app_nil_r. cbn. rewrite <- !app_assoc. apply Permutation_app_head. cbn.
    by rewrite Permutation_middle.
  - cbn. set_solver.
Qed.

Lemma insert_fair hs h exit guard used : pool_fair (h :: hs) [] (fun _ => hs) (fun _ _ _ => True)
  (fun look s => (Pool.insert look s h exit guard used, tt)).
Proof.
  intros look s s' closing a E _. destruct (Pool.insert look s h exit guard used) as [p c] eqn:I.
  injection E as <- <- _. pose proof (insert_handles look s h exit guard used p c I) as P.
  split; [|split; [|done]].
  - change (h :: hs) with ([h] ++ hs). rewrite app_assoc, P, <- !app_assoc. apply Permutation_app_head, Permutation_app_comm.
  - unfold Pool.insert in I. destruct (retire look 0 s) as [s1 c1] eqn:R. apply retire_stubs in R.
    destruct (make_room look _ 2 s1 c1) as [s2 c2] eqn:M. apply make_room_stubs in M. injection I as <- <-. cbn.
    by etrans.
Qed.

Lemma note_port_fair hs p : pool_fair hs [] (fun _ => hs) (fun _ s s' => handles s' = handles s)
  (fun look s => (Pool.note_port look s p, [], tt)).
Proof. intros look s s' closing a [= <- <- _] _. split; [by rewrite app_nil_r|]. done. Qed.

Lemma circuit_for_fair hs below p : pool_fair hs [] (fun _ => hs)
  (fun found _ s' => match found with Some h => h ∈ handles s' | None => True end)
  (fun look s => Pool.circuit_for look below s p).
Proof.
  intros look s s' closing a E _. pose proof (circuit_for_handles look below s p s' closing a E) as P.
  split; [rewrite P, <- !app_assoc; apply Permutation_app_head, Permutation_app_comm|].
  unfold Pool.circuit_for in E. destruct (retire look 0 s) as [s1 c1] eqn:R. apply retire_stubs in R.
  destruct (min_nat _) as [fewest|]; [|by injection E as <- <- <-].
  destruct (_ && _); [by injection E as <- <- <-|].
  match type of E with context [State.circuits s1 !! ?i] => generalize dependent i end. intros i E.
  destruct (State.circuits s1 !! i) as [chosen|] eqn:C; injection E as <- <- <-; [|done].
  split; [done|]. unfold handles. cbn. apply elem_of_app. right.
  assert (H : use_now look 3 chosen ∈ <[i:=use_now look 3 chosen]> (State.circuits s1)).
  { apply list_elem_of_lookup. exists i. apply list_lookup_insert_eq. by eapply lookup_lt_Some. }
  replace (Pooled.circuit chosen) with (Pooled.circuit (use_now look 3 chosen)); [by apply list_elem_of_fmap_2|].
  unfold use_now. by destruct (Pooled.first_used chosen).
Qed.


(** ** Paths and accounts *)
Section built.
Context (w : World).
Context (unique : NoDup (map RouterStatus.identity (Consensus.routers (w_consensus w)))).
Context (fresh : forall s channel guard h, w_create w s channel guard = Ok h ->
  circ_id h ∉ map circ_id (created (Client.log s))).

(** The microdescriptors in circulation: under each digest the one document
    that has it. *)
Context (documents : microdescs).

(** What a relay itself declares: the family in the microdescriptor the
    consensus names for it. *)
Definition declared (identity : bytes) : list bytes := family_of w documents identity.

(** Everything outside hands over genuine documents only. *)
Record faithful : Prop := {
  faithful_fetch : forall s digests fetched, w_fetch w s digests = Ok fetched -> fetched ⊆ documents;
  faithful_guard : forall s, Client.cache s ⊆ documents -> fst (w_guard w s) ⊆ documents;
  faithful_first : forall s, Client.cache s ⊆ documents -> fst (w_first_guard w s) ⊆ documents;
}.

(** And nothing is forgotten: the memory is large enough for what there is,
    and a guard's microdescriptor is in it when its channel is given. *)
Record retentive : Prop := {
  retentive_faithful : faithful;
  retentive_fetch : forall s digests fetched, Client.cache s ⊆ documents ->
    w_fetch w s digests = Ok fetched -> (size (Client.cache s) + size fetched <= MAX_CACHED_MICRODESCS)%nat;
  retentive_guard : forall s cache channel guard, Client.cache s ⊆ documents ->
    w_guard w s = (cache, Ok (channel, guard)) ->
    Client.cache s ⊆ cache /\ is_Some (cached_microdesc w cache (rsa_identity guard));
}.

(** What is in memory is genuine. *)
Definition wise (s : Client.t) : Prop := faithful -> Client.cache s ⊆ documents.

(** The relay's microdescriptor is in memory, if it was ([known]) and nothing
    is forgotten. *)
Definition recalled (known : Prop) (identity : bytes) (s : Client.t) : Prop :=
  retentive -> known -> is_Some (cached_microdesc w (Client.cache s) identity).

(** The /16 of a relay: the consensus knows, or its address does. *)
Definition subnet_of (relay : RelayInfo) : bytes :=
  match router w (rsa_identity relay) with
  | Some status => RouterStatus.subnet16 status
  | None => octets16 relay
  end.

(** What the constraints know of a family is what the relay declares; short of
    that only nothing, and never nothing while the memory holds. *)
Definition family_known (known : Prop) (identity : bytes) (family : list bytes) : Prop :=
  (faithful -> family = declared identity \/ family = []) /\
  (retentive -> known -> family = declared identity).

Definition described (relay : RelayInfo) (h : Hop) : Prop :=
  hop_identity h = rsa_identity relay /\ hop_subnet h = subnet_of relay /\
  family_known True (rsa_identity relay) (hop_family h).

(** A relay chosen later does not declare one chosen before: its
    microdescriptor was in hand when it was chosen. *)
Definition undeclared (a b : RelayInfo) : Prop := faithful -> rsa_identity a ∉ declared (rsa_identity b).

(** The relays of a circuit, no two of which share an identity, a /16, or a
    family one of them is known to declare. *)
Definition apart (relays : list RelayInfo) : Prop :=
  (exists hops, Forall2 described relays hops /\ ForallOrdPairs compatible hops) /\
  ForallOrdPairs undeclared relays.

Definition stub_ok (log : list Event) (st : Stub.t) : Prop := exists guard middle hg hm,
  hops_of (Stub.circuit st) log = [guard; middle] /\
  described guard hg /\ described middle hm /\ compatible hg hm /\ undeclared guard middle /\
  Stub.constraints st = of_hops [hg; hm] /\ Stub.guard st = rsa_identity guard.

(** What the client holds, beside the circuits [hs] that are in hand. *)
Definition holding (hs : list handle) (s : Client.t) : Prop :=
  log_ok (Client.log s) /\
  live (Client.log s) ≡ₚ handles (Client.pool s) ++ hs /\
  Forall (stub_ok (Client.log s)) (State.stubs (Client.pool s)) /\ wise s.

Lemma router_spec identity status :
  router w identity = Some status ->
  status ∈ Consensus.routers (w_consensus w) /\ RouterStatus.identity status = identity.
Proof using.
  unfold router. intros H. apply List.find_some in H as [H1 H2]. split; [by apply list_elem_of_In|].
  unfold bytes_eqb in H2. by apply bool_decide_eq_true in H2.
Qed.

(** The relay that is resolved is the one that was asked for. *)
Lemma relay_for_identity identity s s' info :
  relay_for w identity s = Some (s', Ok info) \/ guard_relay w identity s = Some (s', Ok info) ->
  rsa_identity info = identity.
Proof using.
  assert (R : forall (v : Client.t) status, resolve_relay w status v = Some (s', Ok info) ->
    rsa_identity info = RouterStatus.identity status).
  { intros v status E. unfold resolve_relay in E. apply bind_inv in E as (s1 & mds & _ & E).
    destruct (mds !! _); [|done]. by injection E as _ <-. }
  intros [E|E]; apply bind_inv in E as (s1 & status & L & E); injection L as <- L; apply R in E; rewrite E;
    destruct (router w identity) as [st|] eqn:F; try done; apply router_spec in F as [_ F]; by injection L as <-.
Qed.

Lemma router_found status :
  status ∈ Consensus.routers (w_consensus w) -> router w (RouterStatus.identity status) = Some status.
Proof using unique.
  unfold router. induction (Consensus.routers (w_consensus w)) as [|r rs IH]; intros H; [by apply not_elem_of_nil in H|].
  cbn [List.find map] in *. apply NoDup_cons in unique as [N U]. unfold bytes_eqb at 1. case_bool_decide as D.
  - apply elem_of_cons in H as [->|H]; [done|]. exfalso. apply N. rewrite D. by apply list_elem_of_fmap_2.
  - apply elem_of_cons in H as [->|H]; [done|]. by apply IH.
Qed.

Definition known_hop (cache : microdescs) (relay : RelayInfo) : Hop :=
  MkHop (rsa_identity relay) (subnet_of relay) (family_of w cache (rsa_identity relay)).

Lemma constrain_join cache c relay : constrain w cache c relay = join c (known_hop cache relay).
Proof using.
  unfold constrain, join, known_hop, subnet_of, family_of, PathConstraints.add. cbn.
  destruct (router w (rsa_identity relay)) as [status|] eqn:R; [|done].
  apply router_spec in R as [_ ->]. done.
Qed.

(** What the memory says of a relay, if the memory is genuine. *)
Lemma family_in_memory known cache identity :
  (faithful -> cache ⊆ documents) -> (retentive -> known -> is_Some (cached_microdesc w cache identity)) ->
  family_known known identity (family_of w cache identity).
Proof using.
  intros G R. unfold family_known, declared, family_of, cached_microdesc in *.
  destruct (router w identity) as [status|]; cbn [mbind option_bind] in *; [|split; auto].
  destruct (cache !! RouterStatus.microdesc_digest status) as [md|] eqn:C.
  - assert (D : faithful -> documents !! RouterStatus.microdesc_digest status = Some md)
      by (intros F; by eapply lookup_weaken; [|apply G]).
    split; [intros F; left|intros Rt _]; [by rewrite (D F)|]. by rewrite (D (retentive_faithful Rt)).
  - split; [by right|]. intros Rt K. by destruct (R Rt K).
Qed.

Lemma described_known cache relay :
  (faithful -> cache ⊆ documents) ->
  (retentive -> is_Some (cached_microdesc w cache (rsa_identity relay))) ->
  described relay (known_hop cache relay).
Proof using. intros G R. split_and!; [done|done|]. apply family_in_memory; auto. Qed.

Lemma declared_chosen r md :
  r ∈ Consensus.routers (w_consensus w) -> documents !! RouterStatus.microdesc_digest r = Some md ->
  declared (RouterStatus.identity r) = Microdesc.family md.
Proof using unique.
  intros Hr D. unfold declared, family_of, cached_microdesc. rewrite router_found by done.
  cbn [mbind option_bind]. by rewrite D.
Qed.

Lemma subnet_chosen r md :
  r ∈ Consensus.routers (w_consensus w) -> RouterStatus.subnet16 r = subnet_of (relay_info r md).
Proof using unique. intros H. unfold subnet_of, relay_info. cbn. by rewrite router_found. Qed.

Lemma described_chosen r md :
  r ∈ Consensus.routers (w_consensus w) -> (faithful -> documents !! RouterStatus.microdesc_digest r = Some md) ->
  described (relay_info r md) (hop_of r (Some md)).
Proof using unique.
  intros H D. split_and!; [done|by apply subnet_chosen|].
  assert (F : faithful -> Microdesc.family md = declared (RouterStatus.identity r))
    by (intros Fa; by rewrite (declared_chosen r md H (D Fa))).
  split; [intros Fa; left; by apply F|intros Rt _; apply F, Rt].
Qed.

(** *** Microdescriptors *)

(** [cache] may stand where that of [s] stood: it is genuine if that one was. *)
Definition succeeds (s : Client.t) (cache : microdescs) : Prop :=
  faithful -> Client.cache s ⊆ documents -> cache ⊆ documents.

(** What was loaded is genuine, and still in memory, or memory was emptied. *)
Definition loaded (fetched : microdescs) (s : Client.t) : Prop :=
  (faithful -> fetched ⊆ documents) /\
  (forall d md, fetched !! d = Some md -> Client.cache s !! d = Some md \/ Client.cache s !! d = None) /\
  (retentive -> fetched ⊆ Client.cache s).

Lemma load_microdescs_spec digests (P : Client.t -> Prop) :
  (forall s cache, succeeds s cache -> P s -> P (s{{Client.cache := cache}})) -> (forall s, P s -> wise s) ->
  triple P (load_microdescs w digests) (fun fetched s => P s /\ loaded fetched s) P.
Proof using.
  intros HP HW s s' r Hs. unfold load_microdescs. pose proof (HW s Hs) as W.
  set (result := foldl _ _ digests).
  assert (R : result ⊆ Client.cache s).
  { unfold result. assert (E0 : (∅ : microdescs) ⊆ Client.cache s) by apply map_empty_subseteq.
    revert E0. generalize (∅ : microdescs). induction digests as [|x xs IH]; intros m E0; cbn [foldl]; [exact E0|].
    apply IH. destruct (Client.cache s !! x) as [mx|] eqn:Ex; [|done]. by apply insert_subseteq_l. }
  destruct (filter _ digests) as [|m ms].
  { intros [= <- <-]. split; [done|]. split_and!; [intros F; etrans; [exact R|by apply W]| |done].
    intros d md H. left. by apply (lookup_weaken _ _ _ _ H). }
  destruct (w_fetch w s (m :: ms)) as [fetched|e] eqn:Fe; intros [= <- <-]; [|done]. cbn [Client.cache].
  set (cached := if (_ <? _)%nat then _ else _).
  assert (Cs : cached ⊆ Client.cache s) by (unfold cached; case_match; [apply map_empty_subseteq|done]).
  assert (Both : forall m, m ⊆ Client.cache s -> faithful -> fetched ∪ m ⊆ documents).
  { intros m' Hm F. apply map_union_least; [by eapply faithful_fetch|]. etrans; [exact Hm|by apply W]. }
  split; [apply HP; [intros F _; by apply Both|done]|]. split_and!.
  - intros F. by apply Both.
  - intros d md H. apply lookup_union_Some_raw in H as [H|[N H]].
    + left. by apply lookup_union_Some_l.
    + unfold cached. destruct (_ <? _)%nat.
      * right. by apply lookup_union_None.
      * left. apply lookup_union_Some_raw. right. split; [done|]. by apply (lookup_weaken _ _ _ _ H).
  - intros Rt. pose proof (retentive_fetch Rt s _ _ (W (retentive_faithful Rt)) Fe) as L. unfold cached.
    destruct (Nat.ltb_spec MAX_CACHED_MICRODESCS (size (Client.cache s) + size fetched)); [lia|].
    by apply map_union_mono_l.
Qed.

(** *** Choosing a relay *)

(** What depends on neither the random words nor on the memory, beyond that it
    is genuine. *)
Definition quiet (P : Client.t -> Prop) : Prop := forall s cache ds,
  succeeds s cache -> P s -> P (s{{Client.cache := cache}}{{Client.draws := ds}}).

Lemma quiet_cache P s cache : quiet P -> succeeds s cache -> P s -> P (s{{Client.cache := cache}}).
Proof using. destruct s. intros Q Su Hs. exact (Q _ cache draws Su Hs). Qed.
Lemma quiet_draws P s ds : quiet P -> P s -> P (s{{Client.draws := ds}}).
Proof using.
  destruct s as [p c d l]. intros Q Hs. refine (Q (Client.Mk p c d l) c ds _ Hs). by intros _ H.
Qed.

(** The microdescriptor a relay was chosen with. *)
Definition remembered (r : RouterStatus.t) (md : Microdesc.t) (cache : microdescs) : Prop :=
  (faithful -> documents !! RouterStatus.microdesc_digest r = Some md) /\
  (cache !! RouterStatus.microdesc_digest r = Some md \/ cache !! RouterStatus.microdesc_digest r = None) /\
  (retentive -> cache !! RouterStatus.microdesc_digest r = Some md).

Lemma loaded_remembered fetched s r md :
  loaded fetched s -> fetched !! RouterStatus.microdesc_digest r = Some md -> remembered r md (Client.cache s).
Proof using.
  intros (G & O & R) H. split_and!; [|by apply O|]; intros F; by eapply lookup_weaken; [|auto].
Qed.

Lemma draw_relay_spec candidates count p usable vanished P :
  quiet P -> (forall s, P s -> wise s) ->
  triple P (draw_relay w candidates count p usable vanished)
    (fun '(r, md) s => P s /\ r ∈ candidates /\ remembered r md (Client.cache s) /\
       exists fetched, usable fetched r = true /\ fetched !! RouterStatus.microdesc_digest r = Some md) P.
Proof using.
  intros HP HW. unfold draw_relay.
  eapply triple_bind; [apply triple_draw with (F := fun out => out ⊆ candidates)|].
  { intros s ds. by apply quiet_draws. }
  { intros ds out rest. apply sample_elem. }
  intros sampled. apply triple_pre. intros Hs.
  eapply triple_bind; [apply load_microdescs_spec; [intros s cache; by apply quiet_cache|done]|]. intros fetched.
  set (Q := fun s => P s /\ loaded fetched s).
  set (usable_ones := filter (fun r => usable fetched r = true) sampled).
  apply triple_bind with (Q := fun r s => r ∈ usable_ones /\ Q s).
  { eapply triple_conseq; [apply (triple_draw Q) with (F := fun r => r ∈ usable_ones)|done|done|by intros s []].
    - intros s ds [Hp Hm]. split; [by apply quiet_draws|done].
    - intros ds r rest. apply choose_elem. }
  intros chosen. apply triple_pre. intros Hc.
  apply list_elem_of_filter in Hc as [Hu Hc].
  destruct (fetched !! RouterStatus.microdesc_digest chosen) as [md|] eqn:F.
  - apply triple_ret. intros s [Hp Hm]. split_and!; [done|by apply Hs|by apply (loaded_remembered fetched)|by exists fetched].
  - apply triple_fail. by intros s [].
Qed.

(** A middle relay that fits. *)
Definition fitting (constraints : PathConstraints.t) (relay : RelayInfo) (cache : microdescs) : Prop :=
  exists r md, relay = relay_info r md /\ r ∈ Consensus.routers (w_consensus w) /\
    joins constraints (hop_of r (Some md)) = true /\ remembered r md cache.

Lemma choose_middle_spec constraints P :
  quiet P -> (forall s, P s -> wise s) ->
  triple P (choose_middle w constraints) (fun relay s => P s /\ fitting constraints relay (Client.cache s)) P.
Proof using.
  intros HP HW. unfold choose_middle. eapply triple_bind; [by apply draw_relay_spec|]. intros [r md].
  apply triple_ret. intros s (Hp & Hr & Hm & fetched & Hu & Hf). split; [done|]. rewrite Hf in Hu.
  exists r, md. split_and!; [done| |by rewrite <- accepts_joins|done].
  by apply list_elem_of_filter in Hr as [_ Hr].
Qed.

(** A relay that fits declares none of the relays before it; and forgetting
    what it declares would only loosen what may follow. *)
Lemma fitting_known constraints relay cache hops :
  constraints = of_hops hops -> fitting constraints relay cache -> (faithful -> cache ⊆ documents) ->
  described relay (known_hop cache relay) /\
  forall h, h ∈ hops -> compatible h (known_hop cache relay) /\
    (faithful -> hop_identity h ∉ declared (rsa_identity relay)).
Proof using unique.
  intros -> (r & md & -> & Hr & J & (Hd & Hm & Hk)) G.
  assert (Ca : cached_microdesc w cache (RouterStatus.identity r) = cache !! RouterStatus.microdesc_digest r).
  { unfold cached_microdesc. by rewrite router_found. }
  split.
  { apply described_known; [done|]. intros Rt. cbn [relay_info rsa_identity]. rewrite Ca, (Hk Rt). by eexists. }
  intros h Hh. rewrite joins_iff in J. destruct (J h Hh) as (J1 & J2 & J3 & J4). cbn [hop_of hop_identity hop_subnet hop_family] in *.
  split; [|intros F; cbn [relay_info rsa_identity]; by rewrite (declared_chosen r md Hr (Hd F))].
  unfold known_hop, compatible. cbn [hop_identity hop_subnet hop_family]. rewrite <- (subnet_chosen r md Hr).
  split_and!; [exact J1|exact J2|exact J3|]. unfold family_of. cbn [relay_info rsa_identity]. rewrite Ca.
  destruct Hm as [-> | ->]; [exact J4|apply not_elem_of_nil].
Qed.

(** *** Circuits *)

Lemma quiet_holding hs : quiet (holding hs).
Proof using.
  intros [p c d l] cache ds Su (L & P & F & W). split_and!; [exact L|exact P|exact F|].
  intros Fa. apply (Su Fa), W, Fa.
Qed.

Lemma holding_wise hs s : holding hs s -> wise s.
Proof using. by intros (_ & _ & _ & W). Qed.

Lemma holding_nodup hs s : holding hs s -> NoDup (handles (Client.pool s) ++ hs).
Proof using. intros (L & P & _). rewrite <- P. by apply live_nodup. Qed.

Lemma holding_perm hs hs' s : hs ≡ₚ hs' -> holding hs s -> holding hs' s.
Proof using. intros P (L & Q & R). split_and!; [done|by rewrite Q, P|apply R..]. Qed.

Lemma stub_handle st s : st ∈ State.stubs s -> Stub.circuit st ∈ handles s.
Proof using. intros H. apply elem_of_app. left. by apply list_elem_of_fmap_2. Qed.

(** The stubs of the pool do not notice what happens to a circuit in hand. *)
Lemma stubs_ok_more hs h s more :
  holding (h :: hs) s -> (forall e, e ∈ more -> handle_of e = h) ->
  Forall (stub_ok (Client.log s ++ more)) (State.stubs (Client.pool s)).
Proof using.
  intros H Hm. pose proof (holding_nodup _ _ H) as N. destruct H as (_ & _ & F & _).
  rewrite Forall_forall in *. intros st Hst. destruct (F st Hst) as (g & m & hg & hm & E & R).
  exists g, m, hg, hm. split; [|done]. rewrite hops_of_app, E.
  rewrite (hops_of_none _ more); [done|]. intros e He. rewrite (Hm e He). intros ->.
  apply NoDup_app in N as (_ & D & _). apply (D (Stub.circuit st)); [by apply stub_handle|by left].
Qed.

Lemma close_spec h hs : triple (holding (h :: hs)) (close h) (fun _ => holding hs) (fun _ => False).
Proof using.
  intros s s' r H [= <- <-]. pose proof (stubs_ok_more hs h s [Closed h] H) as F.
  destruct H as (L & P & _ & W). assert (P' : live (Client.log s) ≡ₚ (handles (Client.pool s) ++ hs) ++ [h]).
  { rewrite P. by rewrite <- app_assoc, <- (Permutation_cons_append hs h). }
  split_and!.
  - destruct L as [N K]. split; cbn [Client.log]; rewrite created_app; cbn; rewrite app_nil_r; [done|].
    intros e He. apply elem_of_app in He as [He|He]; [by apply K|]. apply list_elem_of_singleton in He as ->. cbn.
    assert (Hh : h ∈ live (Client.log s)) by (rewrite P; apply elem_of_app; right; by left). by apply list_elem_of_filter in Hh as [_ ?].
  - by apply (live_closes _ _ [h]).
  - apply F. intros e He. by apply list_elem_of_singleton in He as ->.
  - exact W.
Qed.

Lemma create_spec channel guard hs :
  triple (holding hs) (create w channel guard)
    (fun h s => holding (h :: hs) s /\ hops_of h (Client.log s) = [guard]) (holding hs).
Proof using fresh.
  intros s s' r H C. unfold create in C. destruct (w_create w s channel guard) as [h|e] eqn:W;
    injection C as <- <-; [|done]. pose proof (fresh _ _ _ _ W) as Hf. destruct H as (L & P & F & Wi).
  assert (Hn : h ∉ created (Client.log s)) by (intros Hn; apply Hf; by apply list_elem_of_fmap_2).
  assert (Hno : forall e, e ∈ Client.log s -> handle_of e <> h).
  { intros e He E. apply Hn. rewrite <- E. by apply L. }
  cbn [Client.log]. split; [split_and!|].
  - destruct L as [N K]. split; cbn [Client.log].
    + rewrite created_app, map_app. apply NoDup_app. split_and!; [done| |repeat constructor; by apply not_elem_of_nil].
      intros c Hc Hc'. cbn in Hc'. apply list_elem_of_singleton in Hc' as ->. done.
    + intros e He. rewrite created_app. apply elem_of_app in He as [He|He]; apply elem_of_app; [left; by apply K|right].
      apply list_elem_of_singleton in He as ->. by left.
  - cbn [Client.log Client.pool]. rewrite live_created by done. rewrite P, <- app_assoc.
    by rewrite <- (Permutation_cons_append hs h).
  - cbn [Client.log Client.pool]. rewrite Forall_forall in *. intros st Hst.
    destruct (F st Hst) as (g & m & hg & hm & E & R). exists g, m, hg, hm. split; [|done].
    rewrite hops_of_app, E. cbn. rewrite decide_False; [done|]. intros Eh.
    apply hops_of_none in Hno. rewrite Eh in Hno. by rewrite Hno in E.
  - exact Wi.
  - rewrite hops_of_app, (hops_of_none h _ Hno). cbn. by rewrite decide_True.
Qed.

Lemma extend_spec h relay cc hs relays :
  triple (fun s => holding (h :: hs) s /\ hops_of h (Client.log s) = relays) (extend w h relay cc)
    (fun _ s => holding (h :: hs) s /\ hops_of h (Client.log s) = relays ++ [relay])
    (fun s => holding (h :: hs) s /\ hops_of h (Client.log s) = relays).
Proof using.
  intros s s' r [H Hr] C. unfold extend in C. destruct (w_extend w s h relay); injection C as <- <-; [|done].
  pose proof (stubs_ok_more hs h s [Extended h relay cc] H) as F. destruct H as (L & P & _ & W).
  cbn [Client.log]. split; [split_and!|].
  - destruct L as [N K]. split; cbn [Client.log]; rewrite created_app; cbn; rewrite app_nil_r; [done|].
    intros e He. apply elem_of_app in He as [He|He]; [by apply K|]. apply list_elem_of_singleton in He as ->. cbn.
    assert (Hh : h ∈ live (Client.log s)) by (rewrite P; apply elem_of_app; right; by left). by apply list_elem_of_filter in Hh as [_ ?].
  - cbn [Client.log Client.pool]. by rewrite live_extended.
  - apply F. intros e He. by apply list_elem_of_singleton in He as ->.
  - exact W.
  - rewrite hops_of_app, Hr. cbn. by rewrite decide_True.
Qed.

Lemma closing_on_error_spec {A} h hs (m : M A) P Q :
  triple P m Q (holding (h :: hs)) -> triple P (closing_on_error h m) Q (holding hs).
Proof using.
  intros T. unfold closing_on_error.
  apply triple_bind with (Q := fun r s => match r with Ok a => Q a s | Err _ => holding (h :: hs) s end).
  { eapply triple_conseq; [by apply triple_attempt|done|done|done]. }
  intros r. destruct r as [a|e]; [by apply triple_ret|].
  apply triple_bind with (Q := fun _ => holding hs); [|intros _; by apply triple_fail].
  by eapply triple_conseq; [apply close_spec|..].
Qed.

(** *** The pool *)

Lemma unique_live s hs : holding hs s -> NoDup (map circ_id (handles (Client.pool s) ++ hs)).
Proof using.
  intros (L & P & _). rewrite <- P. destruct L as [N _]. unfold live. eapply sublist_NoDup; [exact N|].
  apply (fmap_sublist circ_id), sublist_filter.
Qed.

Lemma stub_ok_closes log closing st : stub_ok log st -> stub_ok (log ++ map Closed closing) st.
Proof using.
  intros (g & m & hg & hm & E & R). exists g, m, hg, hm.
  split; [|done]. by rewrite hops_of_app, E, hops_of_closes.
Qed.

(** Closing circuits that were created is always in order. *)
Lemma log_ok_closes log closing :
  log_ok log -> closing ⊆ created log -> log_ok (log ++ map Closed closing).
Proof using.
  intros [N K] S. split; rewrite created_app, created_closes, app_nil_r; [done|].
  intros e He. apply elem_of_app in He as [He|He]; [by apply K|].
  apply list_elem_of_fmap in He as (h & -> & Hh). by apply S.
Qed.

Lemma live_sub log h : h ∈ live log -> h ∈ created log.
Proof using. intros H. by apply list_elem_of_filter in H as [_ H]. Qed.

Lemma pooled_spec {A} hs extra hs' F (op : (nat -> Look) -> State.t -> State.t * list handle * A) :
  pool_fair hs extra hs' F op ->
  triple (fun s => holding hs s /\ Forall (stub_ok (Client.log s)) extra) (pooled w op)
    (fun a s => holding (hs' a) s /\
       exists before, F a before (Client.pool s) /\ Forall (stub_ok (Client.log s)) (State.stubs before))
    (fun _ => False).
Proof using.
  intros Hop s s' r [H Fe] C. unfold pooled in C.
  destruct (op (w_look w s) (Client.pool s)) as [[pool closing] a] eqn:O. injection C as <- <-.
  destruct (Hop _ _ _ _ _ O (unique_live _ _ H)) as (Q & S & Fa). destruct H as (L & P & Fs & W). rewrite Q in P.
  assert (G : Forall (stub_ok (Client.log s ++ map Closed closing)) (extra ++ State.stubs (Client.pool s))).
  { eapply Forall_impl; [by apply Forall_app|]. intros st. apply stub_ok_closes. }
  split; [split_and!|]; cbn [Client.log Client.pool].
  - apply log_ok_closes; [done|]. intros h Hh. apply live_sub. rewrite P. apply elem_of_app. by right.
  - by apply (live_closes _ _ closing).
  - rewrite Forall_forall in *. intros st Hst. by apply G, S.
  - exact W.
  - exists (Client.pool s). split; [done|]. by apply Forall_app in G as [_ G].
Qed.

(** Circuits are told apart by their IDs. *)
Lemma unique_created log x y :
  log_ok log -> x ∈ created log -> y ∈ created log -> circ_id x = circ_id y -> x = y.
Proof using.
  intros [N _] Hx Hy E. apply list_elem_of_lookup in Hx as [i Hx], Hy as [j Hy].
  assert (i = j) as ->; [|congruence]. eapply (NoDup_lookup _ i j (circ_id x) N).
  - by rewrite list_lookup_fmap, Hx.
  - by rewrite list_lookup_fmap, Hy, E.
Qed.

(** A circuit the client has is discarded once, whether or not the pool still
    has it. *)
Lemma discard_spec h hs :
  triple (fun s => holding hs s /\ h ∈ created (Client.log s) /\ h ∉ hs) (discard w h)
    (fun _ => holding hs) (fun _ => False).
Proof using.
  intros s s' r (H & Hc & Hn) C. pose proof (unique_live _ _ H) as U.
  destruct (decide (h ∈ handles (Client.pool s))) as [Hp|Hp].
  - assert (T : pool_fair hs [] (fun _ => hs) (fun _ _ _ => True) (fun _ s =>
      if decide (h ∈ handles s) then (Pool.discard s h, tt) else (s, [], tt))).
    { intros look p p' closing a E N. case_decide as D; [|injection E as <- <- _; by rewrite app_nil_r].
      destruct (Pool.discard p h) as [p1 c1] eqn:Dp. injection E as <- <- _.
      rewrite map_app in N. apply NoDup_app in N as (N & _ & _).
      assert (I : forall x y, x ∈ handles p -> y ∈ handles p -> circ_id x = circ_id y -> x = y).
      { intros x y Hx Hy Exy. apply list_elem_of_lookup in Hx as [i Hx], Hy as [j Hy].
        assert (i = j) as ->; [|congruence]. eapply (NoDup_lookup _ i j (circ_id x) N).
        - by rewrite list_lookup_fmap, Hx.
        - by rewrite list_lookup_fmap, Hy, Exy. }
      pose proof (discard_handles p h p1 c1) as P. rewrite decide_True in P by done. split; [|split; [|done]].
      - rewrite P; [|by eapply NoDup_fmap_1| |done].
        + rewrite <- !app_assoc. apply Permutation_app_head, Permutation_app_comm.
        + intros x y Hx Hy. apply elem_of_app in Hx as [Hx|Hx], Hy as [Hy|Hy];
            rewrite ?list_elem_of_singleton in *; subst; by apply I.
      - injection Dp as <- _. cbn. intros x Hx. by apply list_elem_of_filter in Hx as [_ Hx]. }
    apply pooled_spec in T. specialize (T s s' r (conj H (Forall_nil_2 _))).
    assert (C' : pooled w (fun _ s => if decide (h ∈ handles s) then (Pool.discard s h, tt) else (s, [], tt)) s = Some (s', r)).
    { unfold pooled. rewrite decide_True by done. exact C. }
    specialize (T C'). destruct r; [by destruct T|done].
  - assert (Hid : forall x, x ∈ handles (Client.pool s) -> circ_id x <> circ_id h).
    { intros x Hx E. destruct H as (L & P & _). apply Hp.
      assert (Hxc : x ∈ created (Client.log s)) by (apply live_sub; rewrite P; apply elem_of_app; by left).
      by rewrite <- (unique_created _ x h L Hxc Hc E). }
    unfold discard, pooled, Pool.discard in C. injection C as <- <-.
    assert (Es : filter (fun st => circ_id (Stub.circuit st) <> circ_id h) (State.stubs (Client.pool s)) =
      State.stubs (Client.pool s)).
    { apply filter_all, Forall_forall. intros st Hst. by apply Hid, stub_handle. }
    assert (Ec : filter (fun c => same_id h c = false) (State.circuits (Client.pool s)) =
      State.circuits (Client.pool s)).
    { apply filter_all, Forall_forall. intros c Hcc. unfold same_id. apply Z.eqb_neq, Hid.
      apply elem_of_app. right. by apply list_elem_of_fmap_2. }
    destruct H as (L & P & Fs & W). split_and!; cbn [Client.log map].
    + apply (log_ok_closes _ [h]); [done|]. intros x Hx. by apply list_elem_of_singleton in Hx as ->.
    + rewrite live_close_again by (rewrite P; intros K; by apply elem_of_app in K as [K|K]). rewrite P.
      unfold handles. cbn. by rewrite Es, Ec.
    + cbn. rewrite Es. eapply Forall_impl; [exact Fs|]. intros st. apply (stub_ok_closes _ [h]).
    + exact W.
Qed.

Lemma create_keeps channel guard : keeps_cache (create w channel guard).
Proof using. intros s s' r C. unfold create in C. by destruct (w_create w s channel guard); injection C as <- <-. Qed.

(** The guard's microdescriptor comes with it, and the others stay. *)
Lemma guard_step_spec known identity hs :
  triple (fun s => holding hs s /\ recalled known identity s) (guard_channel w)
    (fun '(_, guard) s => holding hs s /\ recalled True (rsa_identity guard) s /\ recalled known identity s)
    (holding hs).
Proof using.
  intros s s' r [H K] C. unfold guard_channel in C. pose proof (holding_wise _ _ H) as W.
  assert (Su : succeeds s (fst (w_guard w s))) by (intros F G; by apply faithful_guard).
  destruct (w_guard w s) as [cache g] eqn:Wg. injection C as <- <-.
  assert (H' : holding hs (s{{Client.cache := cache}})) by (by apply quiet_cache; [apply quiet_holding|..]).
  destruct g as [[channel guard]|e]; [|exact H']. split_and!; [exact H'| |].
  - intros Rt _. by eapply (retentive_guard Rt s cache channel guard); [apply W, Rt|].
  - intros Rt Kn. specialize (K Rt Kn).
    destruct (retentive_guard Rt s cache channel guard (W (retentive_faithful Rt)) Wg) as [Sub _].
    unfold cached_microdesc in *. destruct (router w identity) as [status|]; cbn [mbind option_bind] in *; [|by destruct K].
    destruct K as [md K]. exists md. by apply (lookup_weaken _ _ _ _ K).
Qed.

Lemma described_here s0 hs guard :
  holding hs s0 -> recalled True (rsa_identity guard) s0 -> described guard (known_hop (Client.cache s0) guard).
Proof using.
  intros H R. apply described_known; [exact (holding_wise _ _ H)|]. intros Rt. by apply R.
Qed.

(** A hop known from the memory as it stands. *)
Lemma known_here known relay s :
  wise s -> recalled known (rsa_identity relay) s ->
  family_known known (rsa_identity relay) (hop_family (known_hop (Client.cache s) relay)).
Proof using. intros W K. by apply family_in_memory. Qed.

(** The constraints after one hop. *)
Lemma constrain_first cache guard :
  constrain w cache PathConstraints.default guard = of_hops [known_hop cache guard].
Proof using. by rewrite constrain_join. Qed.

Lemma second_spec hs cache0 guard :
  triple (holding hs) (choose_middle w (constrain w cache0 PathConstraints.default guard))
    (fun middle s => holding hs s /\ fitting (of_hops [known_hop cache0 guard]) middle (Client.cache s))
    (holding hs).
Proof using. rewrite constrain_first. apply choose_middle_spec; [apply quiet_holding|apply holding_wise]. Qed.

Lemma close_keeps h : keeps_cache (close h).
Proof using. by intros s s' r [= <- <-]. Qed.

Lemma extend_keeps h relay cc : keeps_cache (extend w h relay cc).
Proof using. intros s s' r C. unfold extend in C. by destruct (w_extend w s h relay); injection C as <- <-. Qed.

Lemma closing_keeps {A} h (m : M A) : keeps_cache m -> keeps_cache (closing_on_error h m).
Proof using.
  intros K s s' r C. unfold closing_on_error, mbind, comp_bind, attempt in C.
  destruct (m s) as [[s1 [a|e]]|] eqn:E; [| |done]; injection C as <- _; [|cbn]; by apply K in E.
Qed.

(** Two hops are two thirds of a path. *)
Lemma two_hops cache0 cache guard middle circuit log built :
  fitting (of_hops [known_hop cache0 guard]) middle cache ->
  described guard (known_hop cache0 guard) -> (faithful -> cache ⊆ documents) ->
  hops_of circuit log = [guard; middle] ->
  stub_ok log (Stub.Mk circuit (constrain w cache (constrain w cache0 PathConstraints.default guard) middle)
    (rsa_identity guard) built).
Proof using unique.
  intros Fm Dg G Hh. destruct (fitting_known _ _ _ _ eq_refl Fm G) as [Dm K].
  destruct (K (known_hop cache0 guard) ltac:(by left)) as [C U].
  exists guard, middle, (known_hop cache0 guard), (known_hop cache middle).
  split_and!; try done. by rewrite constrain_first, constrain_join.
Qed.

(** A path begins with a guard, and with what is known of it. *)
Lemma guard_first hs :
  triple (holding hs) (guard_channel w)
    (fun '(_, guard) s => holding hs s /\ recalled True (rsa_identity guard) s) (holding hs).
Proof using.
  eapply triple_conseq; [apply (guard_step_spec False [] hs)| |intros [c g] s (H & R & _); by split|done].
  intros s H. split; [exact H|]. by intros _ [].
Qed.

Lemma with_guard {A} hs guard s0 (m : M A) Q E :
  (described guard (known_hop (Client.cache s0) guard) -> triple (holding hs) m Q E) ->
  triple (fun s => (holding hs s /\ recalled True (rsa_identity guard) s) /\ s = s0) m Q E.
Proof using.
  intros T s s' r [[H R] ->]. refine (T _ s0 s' r H). by apply (described_here _ hs).
Qed.

Lemma build_stub_spec hs :
  triple (holding hs) (build_stub w)
    (fun st s => holding (Stub.circuit st :: hs) s /\ stub_ok (Client.log s) st) (holding hs).
Proof using unique fresh.
  unfold build_stub. eapply triple_bind; [by apply guard_first|]. intros [channel guard].
  apply triple_get_bind. intros s0. apply with_guard. intros Dg. eapply triple_bind; [apply (second_spec hs)|].
  intros middle. set (X := fitting (of_hops [known_hop (Client.cache s0) guard]) middle).
  eapply triple_bind.
  { exact (triple_frame X _ _ _ _ (create_keeps channel guard) (create_spec channel guard hs)). }
  intros circuit. eapply triple_bind.
  { apply (triple_frame X); [apply closing_keeps, extend_keeps|]. apply closing_on_error_spec.
    eapply triple_conseq; [apply (extend_spec circuit middle None hs [guard])|done| |by intros s []].
    intros u s Hs. exact Hs. }
  intros u. apply triple_get_bind. intros s1. apply triple_ret. intros s [[[H Hh] Fm] ->].
  split; [exact H|]. apply two_hops; [done|done|by apply (holding_wise _ _ H)|done].
Qed.

(** A finished circuit: three relays apart, the last of which is one the
    consensus lists, with the keys and the policy of [md]. *)
Definition exit_path (ports : list Z) (h : handle) (md : Microdesc.t) (g : bytes) (log : list Event) : Prop :=
  exists guard middle r,
    hops_of h log = [guard; middle; relay_info r md] /\ apart [guard; middle; relay_info r md] /\
    g = rsa_identity guard /\ r ∈ Consensus.routers (w_consensus w) /\
    RouterStatus.has r FLAG_EXIT = true /\ RouterStatus.has r FLAG_BAD_EXIT = false /\
    (forallb (PortPolicy.allows (Microdesc.exit_policy md)) ports ||
     existsb (PortPolicy.allows (Microdesc.exit_policy md)) ports) = true.

Lemma allowing_usable constraints ports fetched sampled r :
  r ∈ allowing constraints ports fetched sampled ->
  r ∈ sampled /\ exists all, exit_usable constraints ports all fetched r = true.
Proof using.
  unfold allowing. destruct (filter _ sampled) as [|x xs] eqn:E.
  - intros H. apply list_elem_of_filter in H as [H1 H2]. split; [done|by exists false].
  - rewrite <- E. intros H. apply list_elem_of_filter in H as [H1 H2]. split; [done|by exists true].
Qed.

Lemma has_part r a b : RouterStatus.has r (Z.lor a b) = true -> RouterStatus.has r b = true.
Proof using.
  unfold RouterStatus.has. rewrite !Z.eqb_eq. intros H. apply Z.bits_inj'. intros n Hn.
  apply (f_equal (fun z => Z.testbit z n)) in H. rewrite Z.land_spec, Z.lor_spec in *.
  destruct (Z.testbit (RouterStatus.flags r) n), (Z.testbit a n), (Z.testbit b n); done.
Qed.

Lemma exit_candidate r constraints :
  r ∈ exit_candidates (w_consensus w) constraints ->
  r ∈ Consensus.routers (w_consensus w) /\ RouterStatus.has r FLAG_EXIT = true /\
  RouterStatus.has r FLAG_BAD_EXIT = false.
Proof using.
  unfold exit_candidates. intros H. apply list_elem_of_filter in H as [H Hr]. 
  apply andb_true_iff in H as [H _]. apply andb_true_iff in H as [H _]. apply andb_true_iff in H as [H1 H2].
  split_and!; [done| |by apply negb_true_iff].
  rewrite (Z.lor_comm USABLE), <- Z.lor_assoc, Z.lor_comm in H1. by apply has_part in H1.
Qed.

Lemma exit_joins constraints ports all fetched r md :
  exit_usable constraints ports all fetched r = true ->
  fetched !! RouterStatus.microdesc_digest r = Some md ->
  joins constraints (hop_of r (Some md)) = true /\
  (forallb (PortPolicy.allows (Microdesc.exit_policy md)) ports ||
   existsb (PortPolicy.allows (Microdesc.exit_policy md)) ports) = true.
Proof using.
  unfold exit_usable. intros U Hf. rewrite Hf in U. apply andb_true_iff in U as [U P]. apply andb_true_iff in U as [_ U].
  rewrite <- accepts_joins. split; [done|]. destruct all; rewrite P; [done|by rewrite orb_true_r].
Qed.

Lemma three_apart {A} (R : A -> A -> Prop) a b c :
  R a b -> R a c -> R b c -> ForallOrdPairs R [a; b; c].
Proof using. intros Hab Hac Hbc. apply FOP_cons; [by repeat apply List.Forall_cons|]. apply FOP_cons; [by apply List.Forall_cons|]. apply FOP_cons; constructor. Qed.

Lemma exit_path_of st log log' ports r md :
  stub_ok log st -> hops_of (Stub.circuit st) log' = hops_of (Stub.circuit st) log ++ [relay_info r md] ->
  (faithful -> documents !! RouterStatus.microdesc_digest r = Some md) ->
  r ∈ Consensus.routers (w_consensus w) -> RouterStatus.has r FLAG_EXIT = true ->
  RouterStatus.has r FLAG_BAD_EXIT = false ->
  joins (Stub.constraints st) (hop_of r (Some md)) = true ->
  (forallb (PortPolicy.allows (Microdesc.exit_policy md)) ports ||
   existsb (PortPolicy.allows (Microdesc.exit_policy md)) ports) = true ->
  exit_path ports (Stub.circuit st) md (Stub.guard st) log'.
Proof using unique.
  intros (guard & middle & hg & hm & Hh & Dg & Dm & C & U & Ec & Eg) E D Hr F1 F2 J Hp.
  rewrite Hh in E. rewrite Ec in J. rewrite joins_iff in J.
  assert (Jg : compatible hg (hop_of r (Some md))) by (apply J; by left).
  assert (Jm : compatible hm (hop_of r (Some md))) by (apply J; right; by left).
  assert (Un : forall a h, described a h -> compatible h (hop_of r (Some md)) -> undeclared a (relay_info r md)).
  { intros a h (Ia & _) (_ & _ & _ & K) F. cbn [relay_info rsa_identity hop_of hop_family] in *.
    by rewrite (declared_chosen r md Hr (D F)), <- Ia. }
  exists guard, middle, r. refine (conj E (conj _ (conj Eg (conj Hr (conj F1 (conj F2 Hp)))))). split.
  - exists [hg; hm; hop_of r (Some md)]. split.
    + constructor; [exact Dg|]. constructor; [exact Dm|]. constructor; [by apply described_chosen|constructor].
    + by apply three_apart.
  - apply three_apart; [exact U|exact (Un guard hg Dg Jg)|exact (Un middle hm Dm Jm)].
Qed.

(** A stub extended by one relay. *)
Lemma extend_stub_spec st relay cc hs :
  triple (fun s => holding (Stub.circuit st :: hs) s /\ stub_ok (Client.log s) st)
    (extend w (Stub.circuit st) relay cc)
    (fun _ s => holding (Stub.circuit st :: hs) s /\ exists log, stub_ok log st /\
       hops_of (Stub.circuit st) (Client.log s) = hops_of (Stub.circuit st) log ++ [relay])
    (holding (Stub.circuit st :: hs)).
Proof using.
  intros s s' r [H S] C.
  pose proof (extend_spec (Stub.circuit st) relay cc hs _ s s' r (conj H eq_refl) C) as T.
  destruct r as [u|e]; destruct T as [T1 T2]; [|done]. split; [done|]. by exists (Client.log s).
Qed.

Lemma extend_to_exit_spec st ports hs :
  triple (fun s => holding (Stub.circuit st :: hs) s /\ stub_ok (Client.log s) st) (extend_to_exit w st ports)
    (fun md s => holding (Stub.circuit st :: hs) s /\
       exit_path ports (Stub.circuit st) md (Stub.guard st) (Client.log s))
    (holding (Stub.circuit st :: hs)).
Proof using unique.
  set (P := fun s => holding (Stub.circuit st :: hs) s /\ stub_ok (Client.log s) st).
  assert (HP : quiet P) by (intros s cache ds Su [H S]; split; [by apply quiet_holding|by destruct s]).
  assert (HE : forall s, P s -> holding (Stub.circuit st :: hs) s) by (by intros s []).
  unfold extend_to_exit. eapply triple_bind.
  { eapply triple_conseq; [apply (triple_draw P) with (F := fun out => out ⊆ exit_candidates (w_consensus w) (Stub.constraints st))| | |exact HE].
    - intros s ds. by apply quiet_draws.
    - intros ds out rest. apply sample_elem.
    - done.
    - intros out s Hs. exact Hs. }
  intros sampled. apply triple_pre. intros Hsub. eapply triple_bind.
  { eapply triple_conseq; [apply (load_microdescs_spec _ P)|done| |exact HE].
    - intros s cache. by apply quiet_cache.
    - intros s [H _]. by apply holding_wise in H.
    - intros fetched s [Hs [G _]]. exact (conj G Hs). }
  intros fetched. apply triple_pre. intros Gf.
  assert (G : forall exits, exits ⊆ allowing (Stub.constraints st) ports fetched sampled ->
    triple P (exit ← draw (weighted_choice_at exits Exit (Consensus.weights (w_consensus w)));
        match fetched !! RouterStatus.microdesc_digest exit with
        | None => fail (invalid_data "exit microdescriptor vanished")
        | Some exit_md =>
            _ ← extend w (Stub.circuit st) (relay_info exit exit_md)
                  (Some (Params.cc_exit (Consensus.params (w_consensus w))));
            mret exit_md
        end)
      (fun md s => holding (Stub.circuit st :: hs) s /\
         exit_path ports (Stub.circuit st) md (Stub.guard st) (Client.log s))
      (holding (Stub.circuit st :: hs))).
  { intros exits Hex. eapply triple_bind.
    - eapply triple_conseq; [apply (triple_draw P) with (F := fun r => r ∈ exits)|done| |exact HE].
      + intros s ds. by apply quiet_draws.
      + intros ds r rest. apply choose_elem.
      + intros r s Hs. exact Hs.
    - intros r. apply triple_pre. intros Hr. apply Hex, allowing_usable in Hr as (Hr & all & U).
      apply Hsub, exit_candidate in Hr as (Hr & F1 & F2).
      destruct (fetched !! RouterStatus.microdesc_digest r) as [md|] eqn:Hf; [|by apply triple_fail].
      destruct (exit_joins _ _ _ _ _ _ U Hf) as [J Hp].
      eapply triple_bind; [apply extend_stub_spec|]. intros u. apply triple_ret.
      intros s [H (log & S & Hh)]. split; [done|]. eapply exit_path_of; try done.
      intros F. by eapply lookup_weaken; [|apply Gf]. }
  destruct (allowing _ _ _ _) as [|x xs]; [by apply triple_fail|]. by apply G.
Qed.

Definition exit_built (ports : list Z) (hs : list handle) (x : handle * Microdesc.t * bytes) (s : Client.t) : Prop :=
  let '(h, md, g) := x in holding (h :: hs) s /\ exit_path ports h md g (Client.log s).

Lemma build_from_guard_spec ports hs :
  triple (holding hs) (build_from_guard w ports) (exit_built ports hs) (holding hs).
Proof using unique fresh.
  unfold build_from_guard. eapply triple_bind; [by apply guard_first|]. intros [channel guard].
  apply triple_get_bind. intros s0. apply with_guard. intros Dg. eapply triple_bind; [apply (second_spec hs)|].
  intros middle. set (X := fitting (of_hops [known_hop (Client.cache s0) guard]) middle).
  eapply triple_bind.
  { exact (triple_frame X _ _ _ _ (create_keeps channel guard) (create_spec channel guard hs)). }
  intros circuit. eapply triple_bind with (Q := fun md => exit_built ports hs (circuit, md, rsa_identity guard));
    [apply closing_on_error_spec|intros md; by apply triple_ret].
  eapply triple_bind.
  { eapply triple_conseq; [apply (triple_frame X), (extend_spec circuit middle None hs [guard]); apply extend_keeps
                          |done| |by intros s []].
    intros u s Hs. exact Hs. }
  intros u. apply triple_get_bind. intros s1.
  eapply triple_conseq; [apply extend_to_exit_spec| |intros md s Hs; exact Hs|intros s Hs; exact Hs].
  intros s [[[H Hh] Fm] ->]. split; [exact H|]. apply two_hops; [done|done|by apply (holding_wise _ _ H)|done].
Qed.

Lemma closing_spec {A} h hs (m : M A) Q E :
  triple (holding hs) m Q E -> triple (holding (h :: hs)) (_ ← close h; m) Q E.
Proof using.
  intros T. eapply triple_bind; [|intros u; exact T].
  eapply triple_conseq; [apply close_spec|done|done|done].
Qed.

Lemma take_stub_spec fits hs :
  triple (holding hs) (take_stub w fits)
    (fun stub s => holding (stub_list stub ++ hs) s /\
       match stub with Some st => stub_ok (Client.log s) st /\ fits (Stub.constraints st) = true | None => True end)
    (holding hs).
Proof using.
  eapply triple_conseq; [apply (pooled_spec hs []), take_stub_fair|by split|..|done].
  intros stub s [H (before & F & S)]. split; [done|]. destruct stub as [st|]; [|done].
  destruct F as [F1 F2]. rewrite Forall_forall in S. split; [by apply S|done].
Qed.

Lemma build_exit_circuit_spec ports hs :
  triple (holding hs) (build_exit_circuit w ports) (exit_built ports hs) (holding hs).
Proof using unique fresh.
  unfold build_exit_circuit. eapply triple_bind; [apply take_stub_spec|]. intros stub.
  destruct stub as [st|]; cbn [stub_list app].
  2:{ eapply triple_conseq; [apply build_from_guard_spec|by intros s []|done|done]. }
  eapply triple_bind.
  { eapply triple_conseq; [apply triple_attempt, (extend_to_exit_spec st ports hs)| |intros r s Hs; exact Hs|done].
    by intros s (H & S & _). }
  intros r. destruct r as [md|e]; [by apply triple_ret|].
  apply closing_spec, build_from_guard_spec.
Qed.

(** A circuit that ends where it was asked to: the middle is apart from both
    ends.  What [last] declares is known if its microdescriptor was in memory
    when the circuit was asked for. *)
Definition path_to (known : Prop) (last : RelayInfo) (h : handle) (log : list Event) : Prop :=
  exists guard middle hg hm hl,
    hops_of h log = [guard; middle; last] /\ described guard hg /\ described middle hm /\
    hop_identity hl = rsa_identity last /\ (hop_subnet hl = octets16 last \/ hop_subnet hl = subnet_of last) /\
    family_known known (rsa_identity last) (hop_family hl) /\
    compatible hg hm /\ compatible hm hl /\ undeclared guard middle.

Lemma compatible_sym a b : compatible a b -> compatible b a.
Proof using. unfold compatible. intros (H1 & H2 & H3 & H4). by split_and!. Qed.

Lemma build_path_to_spec known last hs :
  triple (fun s => holding hs s /\ recalled known (rsa_identity last) s) (build_path_to w last)
    (fun h s => holding (h :: hs) s /\ path_to known last h (Client.log s)) (holding hs).
Proof using unique fresh.
  unfold build_path_to. eapply triple_bind; [apply guard_step_spec|]. intros [channel guard].
  apply triple_get_bind. intros s0.
  set (hops := [known_hop (Client.cache s0) guard; known_hop (Client.cache s0) last]).
  assert (Ec : constrain w (Client.cache s0) (constrain w (Client.cache s0) PathConstraints.default guard) last
    = of_hops hops) by (by rewrite constrain_first, constrain_join).
  eapply triple_conseq with (P' := fun s =>
    (described guard (known_hop (Client.cache s0) guard) /\
     family_known known (rsa_identity last) (hop_family (known_hop (Client.cache s0) last))) /\ holding hs s);
    [|by intros s [(H & Rg & Rl) ->]; split; [split; [by apply (described_here s0 hs)|by apply known_here; [apply (holding_wise hs)|]]|]
     |intros h s Hs; exact Hs|intros s Hs; exact Hs].
  apply triple_pre. intros [Dg Dl]. eapply triple_bind.
  { apply (choose_middle_spec _ (holding hs)); [apply quiet_holding|apply holding_wise]. }
  intros middle. rewrite Ec. set (X := fitting (of_hops hops) middle). unfold extend_path.
  eapply triple_bind.
  { exact (triple_frame X _ _ _ _ (create_keeps channel guard) (create_spec channel guard hs)). }
  intros circuit. eapply triple_bind.
  { apply closing_on_error_spec. eapply triple_bind.
    - eapply triple_conseq; [apply (triple_frame X), (extend_spec circuit middle None hs [guard]); apply extend_keeps
                            |done| |by intros s []].
      intros u s Hs. exact Hs.
    - intros u. eapply triple_conseq;
        [apply (triple_frame X), (extend_spec circuit last None hs [guard; middle]); apply extend_keeps
        |done| |by intros s []]. intros v s Hs. exact Hs. }
  intros u. apply triple_ret. intros s [[H Hh] Fm]. split; [exact H|].
  destruct (fitting_known _ _ _ hops eq_refl Fm (holding_wise _ _ H)) as [Dm C].
  destruct (C (known_hop (Client.cache s0) guard)) as [Cg Ug]; [by left|].
  destruct (C (known_hop (Client.cache s0) last)) as [Cl _]; [by right; left|].
  exists guard, middle, (known_hop (Client.cache s0) guard), (known_hop (Client.cache s) middle),
    (known_hop (Client.cache s0) last).
  refine (conj Hh (conj Dg (conj Dm (conj eq_refl (conj (or_intror eq_refl) (conj Dl (conj Cg (conj _ Ug)))))))).
  by apply compatible_sym.
Qed.

Lemma path_to_of known st log log' last family :
  stub_ok log st -> hops_of (Stub.circuit st) log' = hops_of (Stub.circuit st) log ++ [last] ->
  family_known known (rsa_identity last) family ->
  PathConstraints.accepts_relay (Stub.constraints st) (rsa_identity last) (octets16 last) family = true ->
  path_to known last (Stub.circuit st) log'.
Proof using.
  intros (guard & middle & hg & hm & Hh & Dg & Dm & C & U & Ec & Eg) E Fk J. rewrite Hh in E.
  rewrite Ec in J. change (joins (of_hops [hg; hm]) (MkHop (rsa_identity last) (octets16 last) family) = true) in J.
  rewrite joins_iff in J. exists guard, middle, hg, hm, (MkHop (rsa_identity last) (octets16 last) family).
  refine (conj E (conj Dg (conj Dm (conj eq_refl (conj (or_introl eq_refl) (conj Fk (conj C (conj _ U)))))))).
  apply J. right. by left.
Qed.

Lemma pooled_keeps {A} (op : (nat -> Look) -> State.t -> State.t * list handle * A) : keeps_cache (pooled w op).
Proof using. intros s s' r C. unfold pooled in C. destruct (op _ _) as [[p c] a]. by injection C as <- _. Qed.

Lemma build_circuit_to_spec known last hs :
  triple (fun s => holding hs s /\ recalled known (rsa_identity last) s) (build_circuit_to w last)
    (fun h s => holding (h :: hs) s /\ path_to known last h (Client.log s)) (holding hs).
Proof using unique fresh.
  set (X := fun cache : microdescs => retentive -> known -> is_Some (cached_microdesc w cache (rsa_identity last))).
  unfold build_circuit_to. apply triple_get_bind. intros s0.
  eapply triple_conseq with (P' := fun s =>
    family_known known (rsa_identity last) (family_of w (Client.cache s0) (rsa_identity last)) /\
    (holding hs s /\ X (Client.cache s))); [|by intros s [[H R] ->]; split; [by apply (known_here known last); [apply (holding_wise hs)|]|]
     |intros h s Hs; exact Hs|intros s Hs; exact Hs].
  apply triple_pre. intros Fk. eapply triple_bind.
  { eapply triple_conseq; [apply (triple_frame_all X); [apply pooled_keeps|apply take_stub_spec]
      |intros s Hs; exact Hs|intros stub s Hs; exact Hs|by intros s []]. }
  intros stub. destruct stub as [st|]; cbn [stub_list app].
  2:{ eapply triple_conseq; [apply (build_path_to_spec known)|by intros s [[H _] K]|done|done]. }
  eapply triple_conseq with (P' := fun s => PathConstraints.accepts_relay (Stub.constraints st)
      (rsa_identity last) (octets16 last) (family_of w (Client.cache s0) (rsa_identity last)) = true /\
      ((holding (Stub.circuit st :: hs) s /\ stub_ok (Client.log s) st) /\ X (Client.cache s)));
    [|by intros s [[H [S F]] K]; split; [exact F|split; [split|]]|intros h s Hs; exact Hs|intros s Hs; exact Hs].
  apply triple_pre. intros F. eapply triple_bind.
  { eapply triple_conseq; [apply triple_attempt, (triple_frame_all X); [apply extend_keeps|apply extend_stub_spec]
      |intros s Hs; exact Hs|intros r s Hs; exact Hs|done]. }
  intros r. destruct r as [u|e].
  - apply triple_ret. intros s [[H (log & S & Hh)] _]. split; [done|]. by eapply path_to_of.
  - eapply triple_bind; [|intros u; apply (build_path_to_spec known)].
    eapply triple_conseq; [apply (triple_frame_all X), close_spec; apply close_keeps|intros s Hs; exact Hs
      |intros u s Hs; exact Hs|by intros s []].
Qed.

(** *** Requests *)

Lemma pooled_created {A} (op : (nat -> Look) -> State.t -> State.t * list handle * A) s s' r :
  pooled w op s = Some (s', r) -> created (Client.log s') = created (Client.log s).
Proof using.
  unfold pooled. destruct (op _ _) as [[p c] a]. intros [= <- _]. cbn.
  by rewrite created_app, created_closes, app_nil_r.
Qed.

Lemma holding_in_hand h hs s : holding (h :: hs) s -> h ∈ created (Client.log s) /\ h ∉ hs.
Proof using.
  intros H. pose proof (holding_nodup _ _ H) as N. destruct H as (_ & P & _). split.
  - apply live_sub. rewrite P. apply elem_of_app. right. by left.
  - apply NoDup_app in N as (_ & _ & N). by apply NoDup_cons in N as [N _].
Qed.

Lemma holding_pooled h hs s :
  holding hs s -> h ∈ handles (Client.pool s) -> h ∈ created (Client.log s) /\ h ∉ hs.
Proof using.
  intros H Hp. pose proof (holding_nodup _ _ H) as N. destruct H as (_ & P & _). split.
  - apply live_sub. rewrite P. apply elem_of_app. by left.
  - apply NoDup_app in N as (_ & N & _). by apply N.
Qed.

Lemma insert_spec h exit guard used hs :
  triple (holding (h :: hs)) (insert w h exit guard used)
    (fun _ s => holding hs s /\ h ∈ created (Client.log s) /\ h ∉ hs) (fun _ => False).
Proof using.
  intros s s' r H C. pose proof (pooled_spec _ _ _ _ _ (insert_fair hs h exit guard used) s s' r
    (conj H (Forall_nil_2 _)) C) as T.
  destruct r; [|done]. destruct T as [T _]. split; [done|]. apply holding_in_hand in H.
  by rewrite (pooled_created _ _ _ _ C).
Qed.

Lemma request_circuit_spec port hs :
  triple (holding hs) (circuit_for w port)
    (fun h s => holding hs s /\ h ∈ created (Client.log s) /\ h ∉ hs) (holding hs).
Proof using unique fresh.
  unfold circuit_for. apply triple_get_bind. intros s0. eapply triple_bind.
  { eapply triple_conseq; [apply (pooled_spec hs []), (circuit_for_fair hs (w_below w s0) port)|by intros s [? ?]
      |intros found s Hs; exact Hs|done]. }
  intros found. destruct found as [h|].
  - apply triple_ret. intros s [H (before & Hp & _)]. split; [done|]. by apply holding_pooled.
  - eapply triple_conseq; [|by intros s [H _]; exact H|intros h s Hs; exact Hs|intros s Hs; exact Hs].
    eapply triple_bind; [apply build_exit_circuit_spec|]. intros [[h md] g]. cbn [exit_built].
    eapply triple_bind; [|intros u; apply triple_ret; intros s Hs; exact Hs].
    eapply triple_conseq; [apply (insert_spec h md g true hs)|by intros s []|done|done].
Qed.

Lemma begin_stream_spec h host port P : triple P (begin_stream w h host port) (fun _ => P) P.
Proof using. intros s s' r Hs [= <- <-]. by destruct (w_begin w s h host port). Qed.

Lemma connect_loop_spec attempts host port last hs :
  triple (holding hs) (connect_loop w attempts host port last) (fun _ => holding hs) (holding hs).
Proof using unique fresh.
  revert last. induction attempts as [|attempts IH]; intros last; cbn [connect_loop]; [by apply triple_fail|].
  eapply triple_bind.
  { eapply triple_conseq; [apply triple_attempt, (request_circuit_spec port hs)|done|intros r s Hs; exact Hs|done]. }
  intros r. destruct r as [h|e]; [|apply IH]. eapply triple_bind.
  { eapply triple_conseq; [apply triple_attempt, begin_stream_spec|intros s Hs; exact Hs|intros r s Hs; exact Hs|done]. }
  intros r. destruct r as [stream|e]; [by apply triple_ret; intros s []|].
  eapply triple_bind; [|intros u; apply IH].
  eapply triple_conseq; [apply (discard_spec h hs)|done|done|done].
Qed.

Lemma note_port_spec port hs : triple (holding hs) (note_port w port) (fun _ => holding hs) (fun _ => False).
Proof using.
  eapply triple_conseq; [apply (pooled_spec hs []), (note_port_fair hs port)|by split|by intros u s [H _]|done].
Qed.

Lemma choose_rendezvous_point_spec hs :
  triple (holding hs) (choose_rendezvous_point w) (fun _ => holding hs) (holding hs).
Proof using.
  intros s s' r H C. unfold choose_rendezvous_point in C.
  assert (Su : succeeds s (fst (w_first_guard w s))) by (intros F G; by apply faithful_first).
  destruct (w_first_guard w s) as [cache guard].
  assert (H' : holding hs (s{{Client.cache := cache}})) by (by apply quiet_cache; [apply quiet_holding|..]).
  match type of C with ?m _ = _ =>
    assert (T : triple (holding hs) m (fun _ => holding hs) (holding hs)); [|exact (T _ _ _ H' C)] end.
  eapply triple_bind; [apply (draw_relay_spec _ _ _ _ _ (holding hs)); [apply quiet_holding|apply holding_wise]|].
  intros [x md]. apply triple_ret. by intros s1 [].
Qed.

(** C31. A path never doubles back.  Whatever the guard, the directory and the random source give, the three relays of a circuit built to an exit are told apart by identity and by /16, and none is of a family another one is known to declare.  What is known is tied to what the relays declare -- the family in the microdescriptor the consensus names for each, as long as everything outside hands over genuine documents ([faithful]): a relay chosen later, the middle or the exit, never declares one chosen before it, whatever has been forgotten; and an earlier relay's family is held to as declared, exactly so as long as the memory of microdescriptors is large enough for what there is and has the guard's when its channel is given ([retentive]), and short of that is at worst unknown, never another. The exit is a relay the consensus lists as an exit and not as a bad one, and the policy of the microdescriptor it was extended with allows the ports asked for or, failing that, one of them.  A stub keeps the same promise for its two relays, and remembers them so that the relay added later keeps it too; on the way to a relay the caller names, the middle is apart from both ends, and the named relay's family is the declared one if its microdescriptor was in memory when it was asked for ([known]). *)
Theorem paths_never_double_back known ports last hs :
  triple (holding hs) (build_exit_circuit w ports)
    (fun '(h, md, g) s => exit_path ports h md g (Client.log s)) (fun _ => True) /\
  triple (holding hs) (build_stub w) (fun st s => stub_ok (Client.log s) st) (fun _ => True) /\
  triple (fun s => holding hs s /\ recalled known (rsa_identity last) s) (build_circuit_to w last)
    (fun h s => path_to known last h (Client.log s)) (fun _ => True).
Proof using unique fresh.
  split; [|split].
  - eapply triple_conseq; [apply build_exit_circuit_spec|done|by intros [[h md] g] s []|done].
  - eapply triple_conseq; [apply build_stub_spec|done|by intros st s []|done].
  - eapply triple_conseq; [apply (build_circuit_to_spec known)|intros s Hs; exact Hs|by intros h s []|done].
Qed.

(** C32. No circuit is lost.  Through every request for a stream, every re-attachment of one, every job of the builder thread and every circuit built to a named relay, whatever fails on the way, the circuits that have been created and not closed are exactly the ones the pool holds, and the one that was handed to the caller; and the pool's stubs stay what they say they are. *)
Theorem no_circuit_is_lost host port failed job ports last hs :
  triple (holding hs) (connect w host port) (fun _ => holding hs) (holding hs) /\
  triple (fun s => holding hs s /\ failed ∈ created (Client.log s) /\ failed ∉ hs)
    (reattach w failed host port) (fun _ => holding hs) (holding hs) /\
  triple (holding hs) (build w job ports) (fun _ => holding hs) (holding hs) /\
  triple (holding hs) (build_circuit_to w last) (fun h => holding (h :: hs)) (holding hs) /\
  triple (holding hs) (choose_rendezvous_point w) (fun _ => holding hs) (holding hs).
Proof using unique fresh.
  split; [|split; [|split; [|split]]].
  - eapply triple_bind; [|intros u; apply connect_loop_spec].
    eapply triple_conseq; [apply note_port_spec|done|done|done].
  - eapply triple_bind; [eapply triple_conseq; [apply (discard_spec failed hs)|done|done|done]|intros u].
    eapply triple_bind; [apply request_circuit_spec|intros h].
    eapply triple_conseq; [apply (begin_stream_spec h host port (holding hs))|by intros s []|done|done].
  - destruct job; cbn [build].
    + eapply triple_bind; [apply build_stub_spec|]. intros st.
      eapply triple_conseq; [apply (pooled_spec _ _ _ _ _ (add_stub_fair hs st))| |by intros u s [? _]|done].
      intros s [H S]. split; [done|]. by apply Forall_singleton.
    + eapply triple_bind; [apply build_exit_circuit_spec|]. intros [[h md] g].
      eapply triple_conseq; [apply (insert_spec h md g false hs)|by intros s []|by intros u s []|done].
  - eapply triple_conseq; [apply (build_circuit_to_spec False)| |by intros h s []|done].
    intros s H. split; [exact H|]. by intros _ [].
  - apply choose_rendezvous_point_spec.
Qed.
End built.

(** ** Concrete runs *)
Module BuilderDemo.

Definition router (n flags : Z) : RouterStatus.t :=
  RouterStatus.Mk (replicate 20 n) (replicate 32 n) [10; n; 0; 1] 9001 flags 100.
Definition exit_flags : Z := Z.lor (Z.lor USABLE FLAG_EXIT) FLAG_FAST.

(** A guard, a middle and two exits; the first exit is of the guard's family. *)
Definition consensus : Consensus.t :=
  Consensus.Mk 0 0 0
    [router 1 GUARD_FLAGS; router 2 (Z.lor USABLE FLAG_FAST); router 3 exit_flags; router 4 exit_flags]
    Params.default None None.

Definition microdesc (digest : bytes) : Microdesc.t :=
  Microdesc.Mk digest (zeros 32) None (PortPolicy.Mk true [(80, 80); (443, 443)])
    (if bytes_eqb digest (replicate 32 3) then [replicate 20 1] else []).

Definition guard : RelayInfo := relay_info (router 1 GUARD_FLAGS) (microdesc (replicate 32 1)).

(** The microdescriptors there are. *)
Definition documents : microdescs :=
  list_to_map (map (fun d => (d, microdesc d)) (map (replicate 32) [1; 2; 3; 4])).

Definition next_id (log : list Event) : Z := 1 + foldr (fun h m => Z.max (circ_id h) m) 0 (created log).

Definition world : World := {|
  w_consensus := consensus;
  w_look := fun s i => MkLook (secs (100 + Z.of_nat i)) (fun _ => MkView false 0 (Delivery.Mk 0 0) false);
  w_guard := fun s => (<[replicate 32 1 := microdesc (replicate 32 1)]> (Client.cache s), Ok (1%nat, guard));
  w_first_guard := fun s => (Client.cache s, Some guard);
  w_fetch := fun _ digests => Ok (filter (fun p => p.1 ∈ digests) documents);
  w_create := fun s _ _ => Ok (MkHandle (length (Client.log s)) (next_id (Client.log s)));
  w_extend := fun _ _ _ => Ok tt;
  w_below := fun _ _ => Ok 0%nat;
  w_begin := fun s h _ _ => if circ_id h =? 1 then Err (invalid_data "refused") else Ok 7%nat;
|}.

Definition start : Client.t := Client.Mk State.default ∅ (replicate 30 (Ok 0)) [].

Lemma consensus_unique : NoDup (map RouterStatus.identity (Consensus.routers (w_consensus world))).
Proof. by apply (bool_decide_unpack _); vm_compute. Qed.

Lemma ids_fresh s channel g h :
  w_create world s channel g = Ok h -> circ_id h ∉ map circ_id (created (Client.log s)).
Proof.
  intros [= <-]. cbn [circ_id]. unfold next_id. intros H. apply list_elem_of_fmap in H as (x & E & Hx).
  assert (G : forall l, x ∈ l -> circ_id x <= foldr (fun h m => Z.max (circ_id h) m) 0 l).
  { induction l as [|y l IH]; intros Hl; [by apply not_elem_of_nil in Hl|]. cbn [foldr].
    apply elem_of_cons in Hl as [->|Hl]; [lia|]. specialize (IH Hl). lia. }
  specialize (G _ Hx). lia.
Qed.

Lemma guard_document : documents !! replicate 32 1 = Some (microdesc (replicate 32 1)).
Proof. vm_compute. reflexivity. Qed.

Lemma guard_status : Builder.router world (rsa_identity guard) = Some (router 1 GUARD_FLAGS).
Proof. vm_compute. reflexivity. Qed.

Lemma world_faithful : faithful world documents.
Proof.
  split.
  - intros s digests fetched E. apply (inj Ok) in E. rewrite <- E. apply map_filter_subseteq.
  - intros s Hs. exact (insert_subseteq_l _ _ _ _ guard_document Hs).
  - intros s Hs. exact Hs.
Qed.

Lemma kept_document (docs cache : gmap bytes Microdesc.t) d md :
  cache ⊆ docs -> docs !! d = Some md -> cache ⊆ <[d := md]> cache.
Proof.
  intros Hs G. apply map_subseteq_spec. intros e me H. destruct (decide (e = d)) as [->|Ne].
  - pose proof (lookup_weaken _ _ _ _ H Hs) as H2. rewrite <- H2, G. apply lookup_insert_eq.
  - rewrite lookup_insert_ne; [exact H|]. intros E. apply Ne. symmetry. exact E.
Qed.

Lemma world_retentive : retentive world documents.
Proof.
  split; [exact world_faithful| |].
  - intros s digests fetched Hs E. apply (inj Ok) in E. rewrite <- E. apply map_subseteq_size in Hs.
    pose proof (map_subseteq_size _ _ (map_filter_subseteq (fun p : bytes * Microdesc.t => p.1 ∈ digests) documents)) as Hf.
    etrans; [apply Nat.add_le_mono; [exact Hs|exact Hf]|]. apply Nat.leb_le. vm_compute. reflexivity.
  - intros s cache channel g Hs E. apply pair_equal_spec in E as [E1 E2]. apply (inj Ok), pair_equal_spec in E2 as [_ E2].
    rewrite <- E1, <- E2. split; [exact (kept_document _ _ _ _ Hs guard_document)|].
    unfold cached_microdesc. rewrite guard_status. eexists. apply lookup_insert_eq.
Qed.

Lemma start_holding : holding world documents [] start.
Proof.
  split_and!; [split; [constructor|by intros e He; apply not_elem_of_nil in He]|done|constructor|].
  intros _. apply map_empty_subseteq.
Qed.

Definition built : option (Client.t * result (handle * Microdesc.t * bytes)) :=
  build_exit_circuit world [443] start.
Definition built_state : Client.t := match built with Some (s, _) => s | None => start end.

Lemma built_run :
  build_exit_circuit world [443] start =
  Some (built_state, Ok (MkHandle 0 1, microdesc (replicate 32 4), replicate 20 1)).
Proof. by vm_compute. Qed.

(** The exit of the guard's family is sampled and passed over. *)
Lemma paths_witness :
  exit_path world documents [443] (MkHandle 0 1) (microdesc (replicate 32 4)) (replicate 20 1) (Client.log built_state) /\
  declared world documents (replicate 20 3) = [replicate 20 1] /\ retentive world documents.
Proof.
  split; [|split; [by vm_compute|exact world_retentive]].
  exact (proj1 (paths_never_double_back world consensus_unique ids_fresh documents False [443] guard [])
    start built_state (Ok _) start_holding built_run).
Defined.

(** The first circuit refuses the stream, so a second one is built. *)
Definition connected : option (Client.t * result nat) := connect world (B "example.com") 443 start.
Definition connected_state : Client.t := match connected with Some (s, _) => s | None => start end.

Lemma connected_run : connect world (B "example.com") 443 start = Some (connected_state, Ok 7%nat).
Proof. by vm_compute. Qed.

Lemma owned_witness :
  holding world documents [] connected_state /\ live (Client.log connected_state) ≡ₚ handles (Client.pool connected_state) ++ [].
Proof.
  assert (H : holding world documents [] connected_state).
  { exact (proj1 (no_circuit_is_lost world consensus_unique ids_fresh documents (B "example.com") 443 (MkHandle 0 0) JobStub
      [] guard []) start connected_state (Ok 7%nat) start_holding connected_run). }
  split; [exact H|exact (proj1 (proj2 H))].
Defined.

Example connected_log :
  map handle_of (Client.log connected_state) =
    [MkHandle 0 1; MkHandle 0 1; MkHandle 0 1; MkHandle 0 1; MkHandle 4 2; MkHandle 4 2; MkHandle 4 2] /\
  live (Client.log connected_state) = [MkHandle 4 2].
Proof. by vm_compute. Qed.

(** On the way to a named relay the guard is not compared with that relay: a
    circuit to the guard itself goes out and comes back to it. *)
Example circuit_back_to_its_guard :
  match build_circuit_to world guard start with
  | Some (s, Ok h) => map rsa_identity (hops_of h (Client.log s)) = [replicate 20 1; replicate 20 2; replicate 20 1]
  | _ => False
  end.
Proof. by vm_compute. Qed.
End BuilderDemo.
