(* ===== verification/Fetch.v ===== *)
(** * Directory requests ([src/src/tor/dir/fetch.rs], [src/src/ffi/zlib.rs])

    HTTP over a directory stream: the request, the reading of the answer with
    its size limit, its header, and the decompression of its body.  zlib is a
    library the program loads at run time: the class [Zlib] holds the entry
    points it calls, [ZlibLaws] what zlib.h documents of them.  The directory
    stream is the class [DirStream]. *)
From S2P Require Import Prelude.
From S2P Require Import Text.

(** ** zlib *)

Definition Z_OK : Z := 0.
Definition Z_STREAM_END : Z := 1.
Definition Z_NEED_DICT : Z := 2.
Definition Z_DATA_ERROR : Z := -3.
Definition Z_MEM_ERROR : Z := -4.
Definition Z_BUF_ERROR : Z := -5.
Definition Z_VERSION_ERROR : Z := -6.
Definition INITIAL_OUT : Z := 32 * 1024.

(** The library: whether it could be loaded, a zeroed [z_stream],
    [inflateInit2_] and [inflateEnd], and [inflate] with [Z_NO_FLUSH] on the
    input at [next_in] and the room at [next_out], which returns its code, the
    stream, how much input it took and what it wrote. *)
Class Zlib := {
  zstate : Type;
  available : bool;
  zeroed : zstate;
  inflate_init2 : zstate -> Z * zstate;
  inflate : zstate -> bytes -> Z -> Z * zstate * Z * bytes;
  inflate_end : zstate -> zstate;
}.

Definition is_padding (b : Z) : bool := is_ascii_whitespace b || (b =? 0).

(** *** Finding the library *)

Definition LIBZ_NAMES : list bytes := [B "libz.so.1"; B "libz.so"].

Definition SEARCH_DIRS : list bytes := [
  B "/usr/lib/x86_64-linux-gnu"; B "/usr/lib/aarch64-linux-gnu"; B "/lib/x86_64-linux-gnu";
  B "/lib/aarch64-linux-gnu"; B "/usr/lib64"; B "/usr/lib"; B "/lib64"; B "/lib";
  B "/usr/local/lib64"; B "/usr/local/lib"].

Definition candidates : list bytes :=
  LIBZ_NAMES ++ concat (map (fun dir => map (fun name => dir ++ B "/" ++ name) LIBZ_NAMES) SEARCH_DIRS).

Section library.
Context {Handle : Type} (try_open : bytes -> option Handle).

(** The first path that opens, and those tried before it. *)
Fixpoint first_open (paths tried : list bytes) : option Handle * list bytes :=
  match paths with
  | [] => (None, tried)
  | path :: paths =>
      match try_open path with
      | Some handle => (Some handle, tried)
      | None => first_open paths (tried ++ [path])
      end
  end.

(** [open_library]: [var] is what [TOR_LIBZ] is set to. *)
Definition open_library (var : option bytes) : option Handle * list bytes :=
  match var with
  | Some (b :: path) =>
      match try_open (b :: path) with
      | Some handle => (Some handle, [])
      | None => first_open candidates [b :: path]
      end
  | _ => first_open candidates []
  end.
End library.

(** How many padding bytes a string starts with: the [while] of
    [inflate_all]. *)
Fixpoint padding (s : bytes) : Z :=
  match s with
  | b :: s => if is_padding b then 1 + padding s else 0
  | [] => 0
  end.

Section inflating.
Context `{Zlib}.

Definition init (strm : zstate) : result zstate :=
  let '(rc, strm) := inflate_init2 strm in
  if rc =? Z_OK then Ok strm
  else if rc =? Z_VERSION_ERROR
  then Err (other_error "zlib {} rejected our declaration of z_stream ({size} bytes)")
  else Err (other_error "inflateInit2_ failed ({rc})").

Definition restart (strm : zstate) : result zstate := init (inflate_end strm).

(** The variables of the loop of [inflate_all]; [written] is the filled part
    of its buffer, [room] the buffer's length. *)
Record Inflating := MkInflating {
  strm : zstate;
  written : bytes;
  room : Z;
  consumed : Z;
}.

Definition past_the_limit : io_error :=
  invalid_data "compressed data expands past the {max_out}-byte limit".

(** After [Z_STREAM_END]: step over padding, then end or begin a new member. *)
Definition next_member (data : bytes) (s : Inflating) : Inflating + result bytes :=
  let consumed := consumed s + padding (slice_from data (consumed s)) in
  if consumed =? len data then inr (Ok (written s))
  else match restart (strm s) with
       | Ok strm => inl (MkInflating strm (written s) (room s) consumed)
       | Err e => inr (Err e)
       end.

(** One round of the loop. *)
Definition inflate_round (data : bytes) (max_out : Z) (s : Inflating) : Inflating + result bytes :=
  let cap := sat_add U64_MAX max_out 1 in
  let room :=
    if len (written s) =? room s
    then Z.min (Z.max (sat_mul U64_MAX (room s) 2) INITIAL_OUT) cap else room s in
  let in_len := Z.min (len data - consumed s) U32_MAX in
  let out_len := Z.min (room - len (written s)) U32_MAX in
  let '(rc, strm, taken, made) :=
    inflate (strm s) (slice data (consumed s) (consumed s + in_len)) out_len in
  let next := MkInflating strm (written s ++ made) room (consumed s + taken) in
  if max_out <? len (written next) then inr (Err past_the_limit)
  else if (rc =? Z_STREAM_END) || (rc =? Z_OK) || (rc =? Z_BUF_ERROR) then
    if (taken =? 0) && (len made =? 0)
    then inr (Err (invalid_data "compressed data ends in the middle of a stream"))
    else if rc =? Z_STREAM_END then next_member data next else inl next
  else if rc =? Z_DATA_ERROR then inr (Err (invalid_data "not a valid zlib or gzip stream: {}"))
  else if rc =? Z_NEED_DICT
  then inr (Err (invalid_data "compressed data wants a preset dictionary, which no directory document uses"))
  else if rc =? Z_MEM_ERROR then inr (Err (other_error "zlib ran out of memory"))
  else inr (Err (other_error "inflate failed ({rc})")).

(** Every round takes a byte of the input or writes a byte of the output. *)
Definition inflate_fuel (data : bytes) (max_out : Z) : positive :=
  Z.to_pos (len data + max_out + 3).

Definition out_of_fuel : io_error := other_error "out of fuel".

Definition inflate_all (data : bytes) (max_out : Z) : result bytes :=
  if negb available then Err (other_error "zlib is unavailable: {e}")
  else
    strm ← init zeroed;
    match iterate (inflate_round data max_out) (inflate_fuel data max_out)
            (MkInflating strm [] 0 0) with
    | inr r => r
    | inl _ => Err out_of_fuel
    end.
End inflating.

(** What zlib.h documents.  [member m d]: [m] is a whole zlib or gzip stream
    for [d]; [ready s m d]: a stream in state [s] still takes [m] and gives
    [d] for it, however the input and the room are cut up. *)
Class ZlibLaws `{Zlib} := {
  member : bytes -> bytes -> Prop;
  ready : zstate -> bytes -> bytes -> Prop;
  inflate_bounds st input n rc st' taken made :
    0 < n -> inflate st input n = (rc, st', taken, made) ->
    0 <= taken <= len input /\ len made <= n;
  member_head m d : member m d -> match m with b :: _ => is_padding b = false | [] => False end;
  init_ready st m d : member m d ->
    exists st', inflate_init2 st = (Z_OK, st') /\ ready st' m d;
  ready_unfinished st m d : ready st m d -> m <> [];
  inflate_ready st m d rest n : ready st m d -> 0 < n ->
    exists rc st' m1 m2 d1 d2,
      m = m1 ++ m2 /\ d = d1 ++ d2 /\ len d1 <= n /\
      inflate st (m ++ rest) n = (rc, st', len m1, d1) /\
      (rc = Z_STREAM_END /\ m2 = [] /\ d2 = [] \/
       rc = Z_OK /\ ready st' m2 d2 /\ 0 < len m1 + len d1);
}.

Lemma padding_bounds s : 0 <= padding s <= len s.
Proof.
  induction s as [|b s IH]; cbn [padding]; [change (len (@nil Z)) with 0; lia|]. rewrite len_cons.
  case_match; lia.
Qed.

Lemma padding_skips p s :
  Forall (fun b => is_padding b = true) p ->
  match s with b :: _ => is_padding b = false | [] => True end -> padding (p ++ s) = len p.
Proof.
  intros F Hs. induction F as [|b p Hb F IH]; cbn [app padding].
  - rewrite (@len_nil Z). destruct s as [|b s]; cbn [padding]; [done|]. rewrite Hs. done.
  - rewrite Hb, IH, len_cons. done.
Qed.

Section total.
Context `{ZlibLaws}.

(** What holds at the head of the loop. *)
Record looping (data : bytes) (max_out : Z) (s : Inflating) : Prop := {
  taken_ok : 0 <= consumed s <= len data;
  written_ok : len (written s) <= max_out;
  room_ok : len (written s) <= room s <= max_out + 1;
}.

Definition work (data : bytes) (max_out : Z) (s : Inflating) : Z :=
  (len data - consumed s) + (max_out + 1 - len (written s)).

(** The room the round gives [inflate]: some, and never past the limit. *)
Lemma room_grows data max_out s :
  0 <= max_out < U64_MAX -> looping data max_out s ->
  let room' := if len (written s) =? room s
               then Z.min (Z.max (sat_mul U64_MAX (room s) 2) INITIAL_OUT) (sat_add U64_MAX max_out 1)
               else room s in
  len (written s) < room' <= max_out + 1.
Proof.
  unfold sat_mul, sat_add, INITIAL_OUT, U64_MAX. intros Hm [T W R].
  pose proof (len_nonneg (written s)). destruct (Z.eqb_spec (len (written s)) (room s)); lia.
Qed.

Lemma next_member_keeps data max_out s s' :
  looping data max_out s -> next_member data s = inl s' ->
  looping data max_out s' /\ work data max_out s' <= work data max_out s.
Proof.
  intros [T W R] E. unfold next_member in E.
  pose proof (padding_bounds (slice_from data (consumed s))) as P.
  assert (len (slice_from data (consumed s)) = len data - consumed s) as L.
  { unfold slice_from. rewrite len_drop. lia. }
  case_match; [done|]. case_match; [|done]. injection E as <-.
  split; [split|unfold work]; cbn [consumed written room]; lia.
Qed.

Lemma round_keeps data max_out s s' :
  0 <= max_out < U64_MAX -> looping data max_out s -> inflate_round data max_out s = inl s' ->
  looping data max_out s' /\ work data max_out s' < work data max_out s.
Proof.
  intros Hm Hs E. pose proof (room_grows data max_out s Hm Hs) as R. unfold inflate_round in E.
  cbv zeta in R, E. set (room' := if _ =? room s then _ else _) in *.
  destruct (inflate _ _ _) as [[[rc st] taken] made] eqn:I.
  destruct Hs as [T W R0]. apply inflate_bounds in I as [Ht Hd]; [|unfold U32_MAX; lia].
  assert (len (slice data (consumed s) (consumed s + Z.min (len data - consumed s) U32_MAX))
          <= len data - consumed s) as L by (unfold slice; rewrite len_take, len_drop; lia).
  pose proof (len_nonneg made). cbn [written] in E. rewrite len_app in E.
  destruct (Z.ltb_spec max_out (len (written s) + len made)); [done|].
  set (next := MkInflating _ _ _ _) in E.
  assert (looping data max_out next) as Hn.
  { split; cbn [next consumed written room]; rewrite ?len_app; lia. }
  destruct (_ || _ || _)%bool; [|by repeat case_match].
  destruct ((taken =? 0) && (len made =? 0)) eqn:Z0; [done|].
  assert (work data max_out next < work data max_out s) as Hw.
  { unfold work. cbn [next consumed written]. rewrite len_app. apply andb_false_iff in Z0.
    destruct Z0 as [Z0|Z0]; apply Z.eqb_neq in Z0; lia. }
  case_match; [|injection E as <-; done].
  destruct (next_member_keeps _ _ _ _ Hn E). split; [done|lia].
Qed.

Lemma round_gives data max_out s r :
  looping data max_out s -> inflate_round data max_out s = inr (Ok r) -> len r <= max_out.
Proof.
  intros Hs. unfold inflate_round. cbv zeta. destruct (inflate _ _ _) as [[[rc st] taken] made].
  cbn [written]. destruct (Z.ltb_spec max_out (len (written s ++ made))); [done|].
  destruct (_ || _ || _)%bool; [|by repeat case_match].
  destruct ((taken =? 0) && (len made =? 0)); [done|]. destruct (rc =? Z_STREAM_END); [|done].
  unfold next_member. destruct (_ =? len data); [by intros [= <-]|by destruct (restart _)].
Qed.

Lemma start_looping data max_out st :
  0 <= max_out -> looping data max_out (MkInflating st [] 0 0).
Proof. split; cbn; pose proof (len_nonneg data); rewrite ?(@len_nil Z); lia. Qed.

Lemma inflate_run_ends data max_out st :
  0 <= max_out < U64_MAX ->
  exists r, iterate (inflate_round data max_out) (inflate_fuel data max_out)
              (MkInflating st [] 0 0) = inr r /\ (forall out, r = Ok out -> len out <= max_out).
Proof.
  intros Hm. pose proof (start_looping data max_out st ltac:(lia)) as Hl.
  destruct (iterate_ends (inflate_round data max_out) (looping data max_out) (work data max_out))
    with (p := inflate_fuel data max_out) (s := MkInflating st [] 0 0) as [r E]; [..|exists r].
  - intros s [T W R]. unfold work. lia.
  - intros s s' Hs E. by apply round_keeps.
  - done.
  - unfold work, inflate_fuel. cbn [consumed written]. rewrite (@len_nil Z).
    pose proof (len_nonneg data). rewrite Z2Pos.id by lia. lia.
  - split; [done|]. intros out ->.
    pose proof (iterate_inv (inflate_round data max_out) (looping data max_out)
      (fun r => forall out, r = Ok out -> len out <= max_out)) as Hinv.
    specialize (Hinv ltac:(intros; eapply round_keeps; eauto)
                     ltac:(intros s r Hs Er out' ->; by eapply round_gives)
                     (inflate_fuel data max_out) _ Hl).
    rewrite E in Hinv. by apply Hinv.
Qed.

(** *** Concatenated members *)

(** A member, what it inflates to, and the padding after it. *)
Record part := Part { packed : bytes; plain_data : bytes; pad : bytes }.

Definition part_ok (p : part) : Prop :=
  member (packed p) (plain_data p) /\ Forall (fun b => is_padding b = true) (pad p).

Definition packed_parts (ps : list part) : bytes := concat (map (fun p => packed p ++ pad p) ps).
Definition plain_parts (ps : list part) : bytes := concat (map plain_data ps).

Lemma packed_head ps :
  Forall part_ok ps ->
  match packed_parts ps with b :: _ => is_padding b = false | [] => ps = [] end.
Proof.
  destruct 1 as [|p ps' [M _] F]; [done|]. cbn. apply member_head in M. by destruct (packed p).
Qed.

(** The loop in the middle of a member: [m] of it is still to be taken and
    will give [d]. *)
Record midway (data : bytes) (max_out : Z) (total : bytes) (s : Inflating) : Prop := {
  midway_looping : looping data max_out s;
  midway_rest : exists m d p ps,
    Forall (fun b => is_padding b = true) p /\ Forall part_ok ps /\ ready (strm s) m d /\
    slice_from data (consumed s) = m ++ p ++ packed_parts ps /\
    written s ++ d ++ plain_parts ps = total;
}.

Lemma slice_from_advance (data x y : bytes) a :
  0 <= a -> slice_from data a = x ++ y -> slice_from data (a + len x) = y.
Proof.
  unfold slice_from, len. intros Ha E. rewrite Z2Nat.inj_add, Nat2Z.id, <- drop_drop, E by lia.
  by rewrite drop_app_length.
Qed.

Lemma slice_all (data : bytes) a :
  0 <= a <= len data -> len data <= U32_MAX ->
  slice data a (a + Z.min (len data - a) U32_MAX) = slice_from data a.
Proof.
  intros Ha Hd. unfold slice, slice_from. apply take_ge. rewrite length_drop.
  unfold len, U32_MAX in *. lia.
Qed.

(** What the end of a member leads to. *)
Lemma next_member_midway data max_out total s p ps :
  looping data max_out s -> Forall (fun b => is_padding b = true) p -> Forall part_ok ps ->
  slice_from data (consumed s) = p ++ packed_parts ps ->
  written s ++ plain_parts ps = total ->
  match next_member data s with
  | inl s' => midway data max_out total s'
  | inr r => r = Ok total /\ len total <= max_out
  end.
Proof.
  intros Hs Hp Hps E Et. unfold next_member. pose proof (packed_head ps Hps) as Hh.
  rewrite E, padding_skips by (done || by destruct (packed_parts ps)).
  destruct Hs as [T W R]. pose proof (slice_from_advance _ _ _ _ (proj1 T) E) as E2.
  assert (len (slice_from data (consumed s)) = len data - consumed s) as L.
  { unfold slice_from. rewrite len_drop. lia. }
  rewrite E, len_app in L. pose proof (len_nonneg (packed_parts ps)). pose proof (len_nonneg p).
  destruct (Z.eqb_spec (consumed s + len p) (len data)) as [Hend|Hmore].
  - rewrite (len_zero_nil (packed_parts ps)) in Hh by lia. subst ps total.
    cbn [plain_parts map concat]. rewrite app_nil_r. split; [done|lia].
  - destruct ps as [|q ps]; [cbn in L; rewrite (@len_nil Z) in L; lia|].
    inversion_clear Hps as [|? ? [Mq Pq] F]. unfold restart, init.
    destruct (init_ready (inflate_end (strm s)) _ _ Mq) as (st & Ei & Hr). rewrite Ei.
    rewrite Z.eqb_refl. split; [split; cbn [consumed written room]; lia|].
    exists (packed q), (plain_data q), (pad q), ps. cbn [strm consumed written]. split_and!; try done.
    rewrite E2. unfold packed_parts. cbn [map concat]. by rewrite <- app_assoc.
Qed.

Lemma round_midway data max_out total s :
  0 <= max_out < U64_MAX -> len data <= U32_MAX -> midway data max_out total s ->
  match inflate_round data max_out s with
  | inl s' => midway data max_out total s'
  | inr r => r = (if len total <=? max_out then Ok total else Err past_the_limit)
  end.
Proof.
  intros Hm Hd [Hs (m & d & p & ps & Hp & Hps & Hr & Er & Et)].
  pose proof (room_grows data max_out s Hm Hs) as R. unfold inflate_round. cbv zeta in *.
  set (room' := if _ =? room s then _ else _) in *. destruct Hs as [T W R0].
  rewrite slice_all, Er by done.
  destruct (inflate_ready (strm s) m d (p ++ packed_parts ps)
              (Z.min (room' - len (written s)) U32_MAX) Hr) as
    (rc & st & m1 & m2 & d1 & d2 & -> & -> & Hd1 & -> & Hcase); [unfold U32_MAX; lia|].
  set (next := MkInflating _ _ _ _). rewrite <- app_assoc in Er, Et.
  pose proof (len_nonneg m1). pose proof (len_nonneg d1).
  pose proof (slice_from_advance _ _ _ _ (proj1 T) Er) as E2.
  assert (len (slice_from data (consumed s)) = len data - consumed s) as L.
  { unfold slice_from. rewrite len_drop. lia. }
  rewrite Er, len_app in L. pose proof (len_nonneg (m2 ++ p ++ packed_parts ps)).
  destruct (Z.ltb_spec max_out (len (written next))) as [Hbig|Hfit].
  { cbn [next written] in Hbig. rewrite len_app in Hbig. rewrite <- Et, !len_app.
    pose proof (len_nonneg d2). pose proof (len_nonneg (plain_parts ps)). zif. done. }
  cbn [next written] in Hfit. rewrite len_app in Hfit.
  assert (looping data max_out next) as Hn.
  { split; cbn [next consumed written room]; rewrite ?len_app; lia. }
  pose proof (ready_unfinished _ _ _ Hr) as Hne.
  destruct Hcase as [(-> & -> & ->)|(-> & Hr' & Hprog)]; cbn [orb Z.eqb Z_STREAM_END Z_OK].
  - rewrite app_nil_r in Hne. assert (0 < len m1) as Hp1 by (destruct m1; [done|rewrite len_cons; pose proof (len_nonneg m1); lia]).
    rewrite (proj2 (Z.eqb_neq (len m1) 0)) by lia. cbn [andb Pos.eqb].
    pose proof (next_member_midway data max_out total next p ps Hn Hp Hps E2) as Hnext.
    cbn [next written app] in Hnext. rewrite <- app_assoc in Hnext. specialize (Hnext Et).
    fold next in Hnext. destruct (next_member data next); [done|]. destruct Hnext as [-> Hle]. by zif.
  - assert ((len m1 =? 0) && (len d1 =? 0) = false) as ->.
    { apply andb_false_iff. rewrite !Z.eqb_neq. lia. }
    split; [done|]. exists m2, d2, p, ps. cbn [next strm consumed written]. split_and!; try done.
    by rewrite <- app_assoc.
Qed.

(** C33. Decompression handles any concatenation of members and always ends. With a loaded zlib that keeps to its documentation, [inflate_all] on a non-empty sequence of whole zlib or gzip members, each followed by padding, gives the concatenation of what they hold when that is within the limit and the limit's error when it is not, whatever way [inflate] cuts up its input and output; and on any input at all, corrupt or truncated, the loop stops within its fuel (each round takes or writes a byte) and what it returns is never longer than the limit. *)
Theorem inflate_concatenation data max_out (Hm : 0 <= max_out < U64_MAX) :
  available = true ->
  (forall st, exists r,
     iterate (inflate_round data max_out) (inflate_fuel data max_out)
       (MkInflating st [] 0 0) = inr r) /\
  (forall out, inflate_all data max_out = Ok out -> len out <= max_out) /\
  (forall ps, ps <> [] -> Forall part_ok ps -> data = packed_parts ps -> len data <= U32_MAX ->
     inflate_all data max_out =
       if len (plain_parts ps) <=? max_out then Ok (plain_parts ps) else Err past_the_limit).
Proof.
  intros Ha. split; [|split].
  - intros st. destruct (inflate_run_ends data max_out st Hm) as (r & E & _). by exists r.
  - unfold inflate_all. rewrite Ha. cbn [negb]. destruct (init zeroed) as [st|e]; [|done].
    cbn [mbind result_bind]. destruct (inflate_run_ends data max_out st Hm) as (r & -> & B).
    intros out E. by apply B.
  - intros [|q ps] Hne F -> Hd; [done|]. inversion_clear F as [|? ? [Mq Pq] Fps].
    unfold inflate_all. rewrite Ha. cbn [negb]. unfold init.
    destruct (init_ready zeroed _ _ Mq) as (st & -> & Hr). rewrite Z.eqb_refl. cbn [mbind result_bind].
    destruct (inflate_run_ends (packed_parts (q :: ps)) max_out st Hm) as (r & E & _).
    pose proof (iterate_inv (inflate_round (packed_parts (q :: ps)) max_out)
      (midway (packed_parts (q :: ps)) max_out (plain_parts (q :: ps)))
      (fun r => r = if len (plain_parts (q :: ps)) <=? max_out
                    then Ok (plain_parts (q :: ps)) else Err past_the_limit)) as Hinv.
    rewrite E. specialize (Hinv
      ltac:(intros s s' Hs Es; pose proof (round_midway _ _ _ _ Hm Hd Hs) as Hr'; by rewrite Es in Hr')
      ltac:(intros s r' Hs Es; pose proof (round_midway _ _ _ _ Hm Hd Hs) as Hr'; by rewrite Es in Hr')
      (inflate_fuel (packed_parts (q :: ps)) max_out) (MkInflating st [] 0 0)).
    rewrite E in Hinv. apply Hinv. split; [apply start_looping; lia|].
    exists (packed q), (plain_data q), (pad q), ps. cbn [strm consumed written app].
    split_and!; try done. unfold packed_parts. cbn [map concat]. by rewrite <- app_assoc.
Qed.
End total.

(** ** HTTP *)

Definition MAX_RESPONSE_BYTES : Z := 16 * 1024 * 1024.
Definition MAX_PARALLEL_REQUESTS : nat := 4.

Definition CRLF : bytes := [CR; NL].

(** [str::split] on a line end. *)
Fixpoint split_crlf (s : bytes) : list bytes :=
  match s with
  | [] => [[]]
  | a :: s1 =>
      let more := match split_crlf s1 with w :: ws => (a :: w) :: ws | [] => [[a]] end in
      match s1 with
      | b :: s2 => if (a =? CR) && (b =? NL) then [] :: split_crlf s2 else more
      | [] => more
      end
  end.

Definition find_header_end (raw : bytes) : option Z := find raw (CRLF ++ CRLF).

(** One line of [header_value]. *)
Definition header_field (name line : bytes) : option bytes :=
  '(key, value) ← split_once 58 line;
  if eq_ignore_ascii_case (trim key) name then Some (map to_ascii_lowercase (trim value)) else None.

Fixpoint find_map {A C} (f : A -> option C) (l : list A) : option C :=
  match l with
  | [] => None
  | x :: l => match f x with Some y => Some y | None => find_map f l end
  end.

Definition header_value (header name : bytes) : option bytes :=
  find_map (header_field name) (drop 1 (split_crlf header)).

Section http.
Context `{Zlib}.

Definition request (path host : bytes) (headers : list (bytes * bytes)) : bytes :=
  let encoding := if available then B "deflate" else B "identity" in
  B "GET " ++ path ++ B " HTTP/1.0" ++ CRLF ++ B "Host: " ++ host ++ CRLF ++
  B "Accept-Encoding: " ++ encoding ++ CRLF ++
  concat (map (fun h => fst h ++ B ": " ++ snd h ++ CRLF) headers) ++ CRLF.

Definition decode_body (body encoding : bytes) : result bytes :=
  if bytes_eqb encoding (B "identity") || bytes_eqb encoding [] then Ok body
  else if bytes_eqb encoding (B "deflate") || bytes_eqb encoding (B "gzip")
  then inflate_all body MAX_RESPONSE_BYTES
  else Err (invalid_data "directory server used {other:?} compression, which was not offered").

Definition status_error (status : Z) : io_error :=
  IoError (if status =? 404 then NotFound
           else if status =? 304 then AlreadyExists else InvalidData)
    (Message "directory server answered HTTP {status}").

Definition status_of (status_line : bytes) : option Z :=
  word ← split_whitespace status_line !! 1%nat; parse_uint U16_MAX word.

Definition parse_response (raw : bytes) : result bytes :=
  header_end ← ok_or (find_header_end raw)
                 (invalid_data "directory response has no header terminator");
  let header := from_utf8_lossy (slice_to raw header_end) in
  status_line ← ok_or (head (split_crlf header)) (invalid_data "empty directory response");
  status ← ok_or (status_of status_line) (invalid_data "bad HTTP status line {status_line:?}");
  if negb (status =? 200) then Err (status_error status)
  else
    let encoding := default (B "identity") (header_value header (B "content-encoding")) in
    decode_body (slice_from raw (header_end + 4)) encoding.
End http.

(** ** Over a stream

    What the fetch needs of a circuit: opening a directory stream, the
    operations of [Read] and [Write] on it, [close], and the address of the
    peer. *)
Class DirStreams (W S : Type) := {
  begin_dir_stream : W -> W * result S;
  write_all : W -> S -> bytes -> W * result unit;
  flush : W -> S -> W * result unit;
  read : W -> S -> Z -> W * result bytes;
  close : W -> S -> W;
  peer_ip : W -> bytes;
}.

(** [open w s]: the stream is in the circuit's table.  Opening adds one,
    closing removes it, and the rest leave the table alone. *)
Class DirStreamsLaws (W S : Type) `{!DirStreams W S, !EqDecision S} := {
  open : W -> S -> bool;
  begin_ok w w' s : begin_dir_stream w = (w', Ok s) ->
    open w s = false /\ forall t, open w' t = if decide (t = s) then true else open w t;
  begin_err w w' e : begin_dir_stream w = (w', Err e) -> forall t, open w' t = open w t;
  write_open w s b t : open (fst (write_all w s b)) t = open w t;
  flush_open w s t : open (fst (flush w s)) t = open w t;
  read_open w s n t : open (fst (read w s n)) t = open w t;
  close_open w s t : open (close w s) t = if decide (t = s) then false else open w t;
}.

Section get.
Context {W S : Type} `{!DirStreams W S} `{Zlib}.

Definition READ_CHUNK : Z := 4096.

Definition too_large : io_error := invalid_data "directory response is implausibly large".

(** One round of the reading loop; every way out of it closes the stream. *)
Definition read_round (s : S) (st : W * bytes) : (W * bytes) + (W * result bytes) :=
  let '(w, raw) := st in
  match read w s READ_CHUNK with
  | (w, Ok []) => inr (close w s, parse_response raw)
  | (w, Ok chunk) =>
      if MAX_RESPONSE_BYTES <? len raw + len chunk then inr (close w s, Err too_large)
      else inl (w, raw ++ chunk)
  | (w, Err e) => inr (close w s, Err e)
  end.

(** Every round but the last adds a byte to a response of at most
    [MAX_RESPONSE_BYTES]. *)
Definition read_fuel : positive := Z.to_pos (MAX_RESPONSE_BYTES + 2).

Definition read_response (w : W) (s : S) : W * result bytes :=
  match iterate (read_round s) read_fuel (w, []) with
  | inr o => o
  | inl (w, _) => (w, Err out_of_fuel)
  end.

Definition get_with (w : W) (path : bytes) (headers : list (bytes * bytes)) : W * result bytes :=
  match begin_dir_stream w with
  | (w, Err e) => (w, Err e)
  | (w, Ok s) =>
      match write_all w s (request path (peer_ip w) headers) with
      | (w, Err e) => (w, Err e)
      | (w, Ok _) =>
          match flush w s with
          | (w, Err e) => (w, Err e)
          | (w, Ok _) => read_response w s
          end
      end
  end.

Definition get (w : W) (path : bytes) : W * result bytes := get_with w path [].
End get.

(** [get_parallel]: [threads] runs the scope of one group, a thread for each
    path, and gives what joining each of them gave, [None] for a panic. *)
Section parallel.
Context {W : Type} (threads : W -> list bytes -> W * list (option (result bytes))).

Definition join_thread (r : option (result bytes)) : result bytes :=
  match r with
  | Some r => r
  | None => Err (other_error "directory fetch thread panicked")
  end.

Fixpoint get_groups (w : W) (groups : list (list bytes)) : W * list (result bytes) :=
  match groups with
  | [] => (w, [])
  | group :: groups =>
      let '(w, joined) := threads w group in
      let '(w, results) := get_groups w groups in
      (w, map join_thread joined ++ results)
  end.

Definition get_parallel (w : W) (paths : list bytes) : W * list (result bytes) :=
  get_groups w (chunks MAX_PARALLEL_REQUESTS paths).
End parallel.

(** ** The answer to a well-formed response *)

Definition printable (b : Z) : Prop := 32 <= b <= 126.

Definition no_cr (s : bytes) : Prop := Forall (fun b => b <> CR) s.

Fixpoint join_crlf (ls : list bytes) : bytes :=
  match ls with
  | [] => []
  | [l] => l
  | l :: ls => l ++ CRLF ++ join_crlf ls
  end.

Definition header_line (h : bytes * bytes) : bytes := fst h ++ B ": " ++ snd h.

(** A status line and headers, as HTTP writes them, and a body. *)
Definition response (version : bytes) (code : Z) (reason : bytes) (headers : list (bytes * bytes))
    (body : bytes) : bytes :=
  join_crlf ((version ++ SP :: show_uint code ++ SP :: reason) :: map header_line headers) ++
  CRLF ++ CRLF ++ body.

Definition header_ok (h : bytes * bytes) : Prop :=
  fst h <> [] /\ Forall (fun b => plain b /\ b <> 58) (fst h) /\
  Forall printable (snd h) /\ trim (SP :: snd h) = snd h.

(** The value of the first header of that name, in lower case. *)
Definition header_named (name : bytes) (headers : list (bytes * bytes)) : option bytes :=
  find_map (fun h => if eq_ignore_ascii_case (fst h) name
                     then Some (map to_ascii_lowercase (snd h)) else None) headers.

Lemma join_crlf_cons l ls : ls <> [] -> join_crlf (l :: ls) = l ++ CRLF ++ join_crlf ls.
Proof. by destruct ls. Qed.

Lemma split_crlf_nonempty s : split_crlf s <> [].
Proof.
  destruct s as [|a s1]; [done|]. cbn [split_crlf]. by repeat case_match.
Qed.

Lemma split_crlf_word w s :
  no_cr w -> split_crlf (w ++ s) =
    match split_crlf s with v :: vs => (w ++ v) :: vs | [] => [w] end.
Proof.
  induction 1 as [|a w Ha F IH]; cbn [app].
  { pose proof (split_crlf_nonempty s). by destruct (split_crlf s). }
  cbn [split_crlf]. rewrite IH. pose proof (split_crlf_nonempty s).
  destruct (split_crlf s) as [|v vs]; [done|]. rewrite (proj2 (Z.eqb_neq a CR)) by done.
  cbn [andb]. by destruct (w ++ s).
Qed.

Lemma split_join_crlf ls : ls <> [] -> Forall no_cr ls -> split_crlf (join_crlf ls) = ls.
Proof.
  intros Hne F. induction F as [|l ls Hl F IH]; [done|]. destruct ls as [|k ls].
  - cbn [join_crlf]. rewrite <- (app_nil_r l) at 1. rewrite split_crlf_word by done.
    cbn. by rewrite app_nil_r.
  - rewrite join_crlf_cons, split_crlf_word by done. unfold CRLF. cbn [app split_crlf].
    rewrite !Z.eqb_refl. cbn [andb]. rewrite IH by done. by rewrite app_nil_r.
Qed.

(** The blank line is found after the last line of the head. *)
Lemma find_end_word w i s :
  no_cr w -> find_from i (w ++ s) (CRLF ++ CRLF) = find_from (i + len w) s (CRLF ++ CRLF).
Proof.
  intros F. revert i. induction F as [|a w Ha F IH]; intros i; cbn [app].
  { by rewrite (@len_nil Z), Z.add_0_r. }
  cbn [find_from]. unfold starts_with, CRLF. cbn [strip_prefix app].
  rewrite (proj2 (Z.eqb_neq CR a)) by done. fold CRLF. change [CR; NL; CR; NL] with (CRLF ++ CRLF).
  rewrite IH, len_cons. f_equal. lia.
Qed.

Lemma find_end_line i b s :
  b <> CR -> find_from i (CRLF ++ b :: s) (CRLF ++ CRLF) = find_from (i + 2) (b :: s) (CRLF ++ CRLF).
Proof.
  intros Hb. unfold CRLF at 1. cbn [app find_from]. unfold starts_with at 1 2. cbn [strip_prefix CRLF app].
  rewrite !Z.eqb_refl, (proj2 (Z.eqb_neq CR b)) by done. replace (i + 1 + 1) with (i + 2) by lia. done.
Qed.

Lemma find_end_head ls : forall i s,
  ls <> [] -> Forall (fun l => l <> [] /\ no_cr l) ls ->
  find_from i (join_crlf ls ++ CRLF ++ CRLF ++ s) (CRLF ++ CRLF) = Some (i + len (join_crlf ls)).
Proof.
  induction ls as [|l ls IH]; intros i s Hne F; [done|]. inversion_clear F as [|? ? [Hl Cl] F'].
  destruct ls as [|k ls].
  - cbn [join_crlf]. by rewrite find_end_word by done.
  - rewrite join_crlf_cons, <- !app_assoc, find_end_word by done.
    assert (exists b k', join_crlf (k :: ls) = b :: k' /\ b <> CR) as (b & k' & E & Hb).
    { inversion_clear F' as [|? ? [Hk Ck] _]. destruct k as [|b k]; [done|].
      inversion_clear Ck. destruct ls; cbn; eauto. }
    rewrite E. cbn [app]. rewrite find_end_line by done.
    change (b :: k' ++ CRLF ++ CRLF ++ s) with ((b :: k') ++ CRLF ++ CRLF ++ s).
    rewrite <- E, IH by done. rewrite !len_app. f_equal. change (len CRLF) with 2. lia.
Qed.

Lemma split_ws_first w s :
  w <> [] -> Forall plain w -> split_whitespace (w ++ SP :: s) = w :: split_whitespace s.
Proof.
  intros Hn F. unfold split_whitespace. rewrite length_app, split_ws_word by done.
  cbn [length split_ws_fuel]. change (ws_len (SP :: s)) with 1%nat. cbn [drop]. rewrite drop_0, app_nil_r.
  destruct (rev w) eqn:R; [exfalso; apply Hn; by rewrite <- (rev_involutive w), R|].
  by rewrite <- R, rev_involutive.
Qed.

Lemma status_read version code reason :
  version <> [] -> Forall plain version -> 0 <= code <= U16_MAX ->
  status_of (version ++ SP :: show_uint code ++ SP :: reason) = Some code.
Proof.
  intros Hn F Hc. unfold status_of.
  rewrite split_ws_first by done. cbn [lookup list_lookup].
  rewrite split_ws_first by (apply show_uint_nonempty || (apply digits_plain, show_uint_digits; lia)).
  cbn [lookup list_lookup mbind option_bind]. apply parse_show_uint; unfold U16_MAX in *; lia.
Qed.

Lemma trim_plain_word w : Forall plain w -> trim w = w.
Proof.
  intros F. unfold trim. assert (trim_start_fuel (length w) w = w) as ->.
  { destruct F as [|b w Hb F]; [done|]. cbn [trim_start_fuel length]. by rewrite ws_len_plain. }
  unfold trim_end. induction F as [|b w Hb F IH]; [done|]. cbn [length trim_end_fuel].
  by rewrite ws_len_plain, IH.
Qed.

Lemma header_field_line name h :
  header_ok h -> header_field name (header_line h) =
    if eq_ignore_ascii_case (fst h) name then Some (map to_ascii_lowercase (snd h)) else None.
Proof.
  intros (Hn & F & Fv & T). unfold header_field, header_line.
  change (B ": " ++ snd h) with (58 :: SP :: snd h).
  rewrite split_once_app by (eapply Forall_impl; [exact F|intros ? [_ ?]; done]).
  cbn [mbind option_bind]. rewrite T, trim_plain_word; [done|].
  eapply Forall_impl; [exact F|by intros ? [? _]].
Qed.

Lemma header_values name hs :
  Forall header_ok hs -> find_map (header_field name) (map header_line hs) = header_named name hs.
Proof.
  unfold header_named. induction 1 as [|h hs Hh F IH]; [done|]. cbn [map find_map].
  by rewrite header_field_line, IH.
Qed.

Lemma printable_ascii s : Forall printable s -> Forall (fun b => 0 <= b < 128) s /\ no_cr s.
Proof.
  intros F. split; (eapply Forall_impl; [exact F|]); unfold printable, CR; intros; lia.
Qed.

Lemma plain_printable s : Forall plain s -> Forall printable s.
Proof. intros F. eapply Forall_impl; [exact F|]. unfold plain, printable. lia. Qed.

Lemma header_line_printable h : header_ok h -> header_line h <> [] /\ Forall printable (header_line h).
Proof.
  intros (Hn & F & Fv & _). unfold header_line. split; [by destruct (fst h)|].
  apply Forall_app. split; [|apply Forall_app; split; [|done]].
  - apply plain_printable. eapply Forall_impl; [exact F|by intros ? [? _]].
  - change (B ": ") with [58; 32]. repeat (apply Forall_cons; split; [unfold printable; lia|]). constructor.
Qed.

Lemma join_crlf_ascii ls :
  Forall (Forall printable) ls -> Forall (fun b => 0 <= b < 128) (join_crlf ls).
Proof.
  induction 1 as [|l ls Hl F IH]; [constructor|]. apply printable_ascii in Hl as [Hl _].
  destruct ls as [|k ls]; [done|]. rewrite join_crlf_cons by done.
  apply Forall_app. split; [done|]. apply Forall_app. split; [|done].
  change CRLF with [13; 10]. repeat (apply Forall_cons; split; [lia|]). constructor.
Qed.

(** What a well-formed response means. *)
Definition answer `{Zlib} (code : Z) (headers : list (bytes * bytes)) (body : bytes) : result bytes :=
  if code =? 200
  then decode_body body (default (B "identity") (header_named (B "content-encoding") headers))
  else Err (status_error code).

Record well_formed (version : bytes) (code : Z) (reason : bytes) (headers : list (bytes * bytes)) : Prop := {
  version_ok : version <> [] /\ Forall plain version;
  code_ok : 0 <= code <= U16_MAX;
  reason_ok : Forall printable reason;
  headers_ok : Forall header_ok headers;
}.

Lemma head_lines version code reason headers :
  well_formed version code reason headers ->
  Forall (fun l => l <> [] /\ Forall printable l)
    ((version ++ SP :: show_uint code ++ SP :: reason) :: map header_line headers).
Proof.
  intros [[Hn Hv] Hc Hr Hh]. constructor.
  - split; [by destruct version|]. apply Forall_app. split; [by apply plain_printable|].
    constructor; [unfold printable, SP; lia|]. apply Forall_app. split.
    + apply plain_printable, digits_plain, show_uint_digits. lia.
    + constructor; [unfold printable, SP; lia|done].
  - apply Forall_map. eapply Forall_impl; [exact Hh|]. intros h. apply header_line_printable.
Qed.

Lemma parse_response_answer `{Zlib} version code reason headers body :
  well_formed version code reason headers ->
  parse_response (response version code reason headers body) = answer code headers body.
Proof.
  intros Hw. pose proof (head_lines _ _ _ _ Hw) as F. destruct Hw as [[Hn Hv] Hc Hr Hh].
  unfold parse_response, response, find_header_end, find. set (status := version ++ _) in *.
  assert (Forall no_cr (status :: map header_line headers)) as Fc.
  { eapply Forall_impl; [exact F|]. intros l [_ Pl]. by apply printable_ascii in Pl as [_ ?]. }
  rewrite find_end_head; [|done|].
  2: { eapply Forall_impl; [exact F|]. intros l [Nl Pl]. split; [done|].
       by apply printable_ascii in Pl as [_ ?]. }
  cbn [ok_or mbind result_bind]. rewrite Z.add_0_l.
  rewrite slice_to_app by done. rewrite lossy_ascii.
  2: { apply join_crlf_ascii. eapply Forall_impl; [exact F|by intros l [_ ?]]. }
  unfold header_value. rewrite split_join_crlf by done. cbn [head ok_or mbind result_bind drop].
  
  rewrite drop_0. assert (status_of status = Some code) as -> by by apply status_read.
 cbn [ok_or mbind result_bind]. rewrite header_values by done.
  unfold answer. destruct (code =? 200); [|done]. cbn [negb]. f_equal.
  rewrite !app_assoc, <- (app_assoc (join_crlf _)). apply slice_from_app. by rewrite len_app.
Qed.

(** ** The fetch as a whole *)
Section fetch.
Context {W S : Type} `{!DirStreams W S, !EqDecision S, !DirStreamsLaws W S} `{ZL : ZlibLaws}.

(** The far end delivers these bytes, cut up in whatever way, and ends. *)
Inductive delivers (s : S) : W -> bytes -> W -> Prop :=
  | delivers_end w w' : read w s READ_CHUNK = (w', Ok []) -> delivers s w [] w'
  | delivers_more w chunk w' rest w'' :
      chunk <> [] -> read w s READ_CHUNK = (w', Ok chunk) -> delivers s w' rest w'' ->
      delivers s w (chunk ++ rest) w''.

Lemma read_response_ends w (s : S) :
  exists o, iterate (read_round s) read_fuel (w, []) = inr o.
Proof.
  eapply (iterate_ends (read_round s) (fun st => len (snd st) <= MAX_RESPONSE_BYTES)
    (fun st => MAX_RESPONSE_BYTES - len (snd st))).
  - intros st Hst. lia.
  - intros [w1 raw] st Hst. unfold read_round. destruct (read w1 s READ_CHUNK) as [w2 [[|b c]|e]]; [done| |done].
    destruct (Z.ltb_spec MAX_RESPONSE_BYTES (len raw + len (b :: c))); [done|]. intros [= <-].
    cbn [snd] in *. rewrite len_app. split; [done|]. rewrite len_cons in *. pose proof (len_nonneg c). lia.
  - cbn [snd]. by vm_compute.
  - cbn [snd]. by vm_compute.
Qed.

(** Every way out of the reading loop leaves the stream closed and the rest of
    the table alone. *)
Lemma read_response_closes w (s : S) t :
  open (fst (read_response w s)) t = if decide (t = s) then false else open w t.
Proof.
  unfold read_response. destruct (read_response_ends w s) as [o E]. rewrite E.
  pose proof (iterate_inv (read_round s) (fun st => forall t, open (fst st) t = open w t)
    (fun o => forall t, open (fst o) t = if decide (t = s) then false else open w t)) as I.
  assert (Hread : forall w1, (forall t, open w1 t = open w t) ->
            forall t, open (fst (read w1 s READ_CHUNK)) t = open w t).
  { intros w1 H1 u. by rewrite read_open. }
  specialize (I
    ltac:(intros [w1 raw] st H1; specialize (Hread w1 H1); unfold read_round;
          destruct (read w1 s READ_CHUNK) as [w2 [[|b c]|e]]; [done| |done];
          case_match; [done|]; by intros [= <-])
    ltac:(intros [w1 raw] st H1; specialize (Hread w1 H1); unfold read_round;
          destruct (read w1 s READ_CHUNK) as [w2 [[|b c]|e]]; repeat case_match; intros [= <-] u;
          cbn [fst] in *; by rewrite close_open, Hread)
    read_fuel (w, []) ltac:(done)).
  rewrite E in I. apply I.
Qed.

Lemma decode_body_bounded body encoding out :
  len body <= MAX_RESPONSE_BYTES -> decode_body body encoding = Ok out -> len out <= MAX_RESPONSE_BYTES.
Proof.
  intros Hb. unfold decode_body. case_match; [by intros [= <-]|]. case_match; [|done].
  unfold inflate_all. destruct (negb available); [done|]. destruct (init zeroed) as [st|]; [|done].
  cbn [mbind result_bind].
  destruct (inflate_run_ends body MAX_RESPONSE_BYTES st) as (r & -> & Hr); [by vm_compute|]. apply Hr.
Qed.

Lemma parse_response_bounded raw out :
  len raw <= MAX_RESPONSE_BYTES -> parse_response raw = Ok out -> len out <= MAX_RESPONSE_BYTES.
Proof.
  intros Hr E. unfold parse_response in E. res_inv. eapply decode_body_bounded; [|exact E].
  unfold slice_from. rewrite len_drop. pose proof (len_nonneg raw). lia.
Qed.

Lemma read_response_bounded w (s : S) out :
  snd (read_response w s) = Ok out -> len out <= MAX_RESPONSE_BYTES.
Proof.
  unfold read_response. destruct (read_response_ends w s) as [o E]. rewrite E. revert out.
  pose proof (iterate_inv (read_round s) (fun st => len (snd st) <= MAX_RESPONSE_BYTES)
    (fun o => forall out, snd o = Ok out -> len out <= MAX_RESPONSE_BYTES)) as I.
  specialize (I
    ltac:(intros [w1 raw] st H1; unfold read_round;
          destruct (read w1 s READ_CHUNK) as [w2 [[|b c]|e]]; [done| |done];
          destruct (Z.ltb_spec MAX_RESPONSE_BYTES (len raw + len (b :: c))); [done|];
          intros [= <-]; cbn [snd]; by rewrite len_app)
    ltac:(intros [w1 raw] st H1; unfold read_round;
          destruct (read w1 s READ_CHUNK) as [w2 [[|b c]|e]]; repeat case_match; intros [= <-] out;
          cbn [snd] in *; try done; by apply parse_response_bounded)
    read_fuel (w, []) ltac:(by vm_compute)).
  by rewrite E in I.
Qed.

(** The loop on a response that fits, and on one that does not. *)
Lemma delivered_rounds (s : S) w raw w' :
  delivers s w raw w' -> forall p got o,
  len got <= MAX_RESPONSE_BYTES ->
  iterate (read_round s) p (w, got) = inr o ->
  if len got + len raw <=? MAX_RESPONSE_BYTES then o = (close w' s, parse_response (got ++ raw))
  else snd o = Err too_large.
Proof.
  intros D p got o Hg E.
  pose proof (iterate_inv (read_round s)
    (fun st => len (snd st) <= MAX_RESPONSE_BYTES /\
               exists rest, delivers s (fst st) rest w' /\ snd st ++ rest = got ++ raw)
    (fun o => if len got + len raw <=? MAX_RESPONSE_BYTES
              then o = (close w' s, parse_response (got ++ raw)) else snd o = Err too_large)) as I.
  specialize (fun H1 H2 => I H1 H2 p (w, got) (conj Hg (ex_intro _ raw (conj D eq_refl)))).
  rewrite E in I. rewrite <- len_app in *. apply I; clear I E.
  - intros [w1 g] st [Hl (rest & D1 & Eg)]. cbn [fst snd] in *. unfold read_round.
    inversion D1 as [? ? R|? c w2 r ? Hne R D2]; subst; rewrite R; [done|].
    destruct c as [|b c]; [done|]. destruct (Z.ltb_spec MAX_RESPONSE_BYTES (len g + len (b :: c))); [done|].
    intros [= <-]. cbn [fst snd]. rewrite len_app. split; [done|]. exists r. by rewrite <- app_assoc.
  - intros [w1 g] st [Hl (rest & D1 & Eg)]. cbn [fst snd] in *. unfold read_round.
    inversion D1 as [? ? R|? c w2 r ? Hne R D2]; subst; rewrite R.
    + intros [= <-]. rewrite app_nil_r in Eg. subst g. by zif.
    + destruct c as [|b c]; [done|].
      destruct (Z.ltb_spec MAX_RESPONSE_BYTES (len g + len (b :: c))) as [Hb|]; [|done].
      intros [= <-]. rewrite <- Eg, !len_app. pose proof (len_nonneg r). by zif.
Qed.

(** C34. A directory fetch returns what the directory answered. When the stream opens and takes the request, and the far end delivers a well-formed response in pieces of any size, [get_with] closes the stream and returns, for status 200, the body decoded as its Content-Encoding header says in whatever case that is written (as it stands when there is none), NotFound for 404, AlreadyExists for 304 and InvalidData for every other status -- unless head and body together pass MAX_RESPONSE_BYTES, which is an error of its own. *)
Theorem fetch_returns_the_answer w w1 w2 w3 w4 (s : S) path extra version code reason headers body :
  begin_dir_stream w = (w1, Ok s) ->
  write_all w1 s (request path (peer_ip w1) extra) = (w2, Ok tt) ->
  flush w2 s = (w3, Ok tt) ->
  well_formed version code reason headers ->
  delivers s w3 (response version code reason headers body) w4 ->
  if len (response version code reason headers body) <=? MAX_RESPONSE_BYTES
  then get_with w path extra = (close w4 s, answer code headers body)
  else snd (get_with w path extra) = Err too_large.
Proof using Type.
  intros E1 E2 E3 Hw D. unfold get_with. rewrite E1, E2, E3. unfold read_response.
  destruct (read_response_ends w3 s) as [o E]. rewrite E.
  pose proof (delivered_rounds s w3 _ w4 D read_fuel [] o ltac:(by vm_compute) E) as R.
  rewrite (@len_nil Z), Z.add_0_l, app_nil_l, parse_response_answer in R by done. done.
Qed.

(** C35. A fetch always comes to an end, within bounds, and cleans up. Whatever the far end does, the reading loop ends within its fuel, a document it returns is no longer than MAX_RESPONSE_BYTES even when it was compressed, and the circuit's streams are afterwards those it had before -- except when the request itself could not be sent, in which case the stream that was opened for it is still open. *)
Theorem fetch_ends_and_closes w path extra :
  (forall w (s : S), exists o, iterate (read_round s) read_fuel (w, []) = inr o) /\
  (forall out, snd (get_with w path extra) = Ok out -> len out <= MAX_RESPONSE_BYTES) /\
  ((forall t, open (fst (get_with w path extra)) t = open w t) \/
   exists w1 s e, begin_dir_stream w = (w1, Ok s) /\ snd (get_with w path extra) = Err e /\
     (snd (write_all w1 s (request path (peer_ip w1) extra)) = Err e \/
      exists w2, write_all w1 s (request path (peer_ip w1) extra) = (w2, Ok tt) /\ snd (flush w2 s) = Err e) /\
     open w s = false /\ forall t, open (fst (get_with w path extra)) t = bool_decide (t = s) || open w t).
Proof.
  split; [exact read_response_ends|]. unfold get_with.
  destruct (begin_dir_stream w) as [w1 [s|e]] eqn:E1; cycle 1.
  { split; [done|]. left. cbn [fst]. by apply (begin_err w w1 e). }
  destruct (begin_ok w w1 s E1) as [Hf Ho].
  assert (L : forall t, open w1 t = bool_decide (t = s) || open w t).
  { intros t. rewrite Ho. by case_decide; [rewrite bool_decide_true|rewrite bool_decide_false]. }
  set (r := request _ _ _). pose proof (write_open w1 s r) as Hw.
  destruct (write_all w1 s r) as [w2 [[]|e]] eqn:E2; cbn [fst] in Hw; cycle 1.
  { split; [done|]. right. exists w1, s, e. fold r. rewrite E2. split_and!; try done; [by left|].
    intros t. cbn [fst]. by rewrite Hw. }
  pose proof (flush_open w2 s) as Hfl.
  destruct (flush w2 s) as [w3 [u|e]] eqn:E3; cbn [fst] in Hfl; cycle 1.
  { split; [done|]. right. exists w1, s, e. fold r. rewrite E2. split_and!; try done.
    - right. exists w2. by rewrite E3.
    - intros t. cbn [fst]. by rewrite Hfl, Hw. }
  split; [apply read_response_bounded|]. left. intros t. rewrite read_response_closes.
  rewrite Hfl, Hw, Ho. case_decide; [by subst|done].
Qed.
End fetch.

(** The results of a parallel fetch are those of the groups, in the order of
    the paths. *)
Lemma get_parallel_length {W} (threads : W -> list bytes -> W * list (option (result bytes))) w paths :
  (forall w group, length (snd (threads w group)) = length group) ->
  length (snd (get_parallel threads w paths)) = length paths.
Proof.
  intros Ht. unfold get_parallel. rewrite <- (concat_chunks MAX_PARALLEL_REQUESTS paths) at 2
    by (unfold MAX_PARALLEL_REQUESTS; lia).
  generalize (chunks MAX_PARALLEL_REQUESTS paths). intros groups. revert w.
  induction groups as [|g groups IH]; intros w; [done|]. cbn [get_groups concat].
  specialize (Ht w g). destruct (threads w g) as [w1 joined]. specialize (IH w1).
  destruct (get_groups _ w1 groups) as [w2 rs]. cbn [snd] in *.
  by rewrite !length_app, length_map, Ht, IH.
Qed.

(** ** A library and a peer to try it with

    A member is 120, its length, and its bytes as they are; a circuit has a
    script of what its reads give and a table of open streams. *)
Module FetchDemo.

Inductive toy_state := Idle | Fresh | Body (left : Z).

Definition toy_inflate (st : toy_state) (input : bytes) (n : Z) : Z * toy_state * Z * bytes :=
  match st with
  | Fresh =>
      match input with
      | 120 :: k :: _ =>
          if k =? 0 then (Z_STREAM_END, Idle, 2, []) else (Z_OK, Body k, 2, [])
      | 120 :: [] | [] => (Z_BUF_ERROR, st, 0, [])
      | _ => (Z_DATA_ERROR, st, 0, [])
      end
  | Body k =>
      let made := slice_to input (Z.min k n) in
      if len made =? k then (Z_STREAM_END, Idle, k, made)
      else if len made =? 0 then (Z_BUF_ERROR, st, 0, [])
      else (Z_OK, Body (k - len made), len made, made)
  | Idle => (-2, st, 0, [])
  end.

#[export] Instance toy_zlib : Zlib := {|
  zstate := toy_state;
  available := true;
  zeroed := Idle;
  inflate_init2 := fun _ => (Z_OK, Fresh);
  inflate := toy_inflate;
  inflate_end := fun _ => Idle;
|}.

Definition toy_member (m d : bytes) : Prop := m = 120 :: len d :: d.

Definition toy_ready (st : toy_state) (m d : bytes) : Prop :=
  match st with
  | Fresh => toy_member m d
  | Body k => m = d /\ len d = k /\ 0 < k
  | Idle => False
  end.

Lemma toy_bounds st input n rc st' taken made :
  0 < n -> toy_inflate st input n = (rc, st', taken, made) ->
  0 <= taken <= len input /\ len made <= n.
Proof.
  intros Hn. pose proof (len_nonneg input) as Hi. destruct st as [| |k]; cbn [toy_inflate].
  - intros [= _ _ <- <-]. rewrite (@len_nil Z). lia.
  - repeat case_match; intros [= _ _ <- <-]; rewrite ?len_cons, ?(@len_nil Z);
      repeat match goal with |- context [len ?l] => pose proof (len_nonneg l); generalize dependent (len l); intros end; lia.
  - assert (len (slice_to input (Z.min k n)) = Z.min (Z.of_nat (Z.to_nat (Z.min k n))) (len input)) as L
      by (unfold slice_to; by rewrite len_take).
    pose proof (len_nonneg (slice_to input (Z.min k n))).
    destruct (Z.eqb_spec (len (slice_to input (Z.min k n))) k); [|case_match];
      intros [= _ _ <- <-]; rewrite ?(@len_nil Z); lia.
Qed.

#[export] Instance toy_zlib_laws : ZlibLaws.
Proof.
  refine {| member := toy_member; ready := toy_ready; inflate_bounds := toy_bounds |}.
  - by intros m d ->.
  - intros st m d M. by exists Fresh.
  - intros [| |k] m d; cbn; [done|by intros ->|]. intros (-> & <- & Hk) ->. by vm_compute in Hk.
  - intros [| |k] m d rest n; unfold toy_ready; [done| |].
    + unfold toy_member. intros -> Hn. cbn [inflate toy_zlib toy_inflate app]. destruct (Z.eqb_spec (len d) 0) as [E|E].
      * apply len_zero_nil in E as ->. exists Z_STREAM_END, Idle, [120; 0], [], [], [].
        split_and!; try done; [rewrite (@len_nil Z); lia|by left].
      * exists Z_OK, (Body (len d)), [120; len d], d, [], d. pose proof (len_nonneg d).
        split_and!; try done; [rewrite (@len_nil Z); lia|]. right. split_and!; try done. lia.
    + intros (-> & Hk & Hp) Hn. cbn [inflate toy_zlib toy_inflate]. destruct (Z.leb_spec k n) as [Hkn|Hkn].
      * rewrite (Z.min_l k n), slice_to_app, Hk, Z.eqb_refl by (done || lia).
        exists Z_STREAM_END, Idle, d, [], d, []. rewrite app_nil_r, Hk. split_and!; try done. by left.
      * rewrite (Z.min_r k n) by lia.
        assert (slice_to (d ++ rest) n = take (Z.to_nat n) d) as ->.
        { unfold slice_to. apply take_app_le. unfold len in Hk. lia. }
        assert (len (take (Z.to_nat n) d) = n) as L by (rewrite len_take; lia).
        rewrite L, (proj2 (Z.eqb_neq n k)), (proj2 (Z.eqb_neq n 0)) by lia.
        exists Z_OK, (Body (k - n)), (take (Z.to_nat n) d), (drop (Z.to_nat n) d),
          (take (Z.to_nat n) d), (drop (Z.to_nat n) d).
        rewrite take_drop, L. split_and!; try done. right.
        split_and!; try done; rewrite ?len_drop; lia.
Defined.

(** Three members, padding between and after them. *)
Definition parts : list part :=
  [Part [120; 3; 97; 98; 99] [97; 98; 99] [10]; Part [120; 0] [] [32; 0]; Part [120; 1; 33] [33] []].

Lemma inflate_witness :
  inflate_all (packed_parts parts) 4 = Ok (B "abc!") /\
  inflate_all (packed_parts parts) 3 = Err past_the_limit.
Proof.
  assert (F : Forall part_ok parts) by (repeat constructor).
  pose proof (inflate_concatenation (packed_parts parts) 4 ltac:(by vm_compute) eq_refl) as (_ & _ & H).
  pose proof (inflate_concatenation (packed_parts parts) 3 ltac:(by vm_compute) eq_refl) as (_ & _ & H').
  split; [rewrite (H parts)|rewrite (H' parts)]; done || by vm_compute.
Defined.

(** A byte that is neither padding nor a member, and a member cut short. *)
Example trailing_bytes_are_an_error :
  inflate_all (B "x!") 100 = Err (invalid_data "compressed data ends in the middle of a stream") /\
  inflate_all [120; 1; 33; 7] 100 = Err (invalid_data "not a valid zlib or gzip stream: {}") /\
  inflate_all [120; 5; 33] 100 = Err (invalid_data "compressed data ends in the middle of a stream").
Proof. by vm_compute. Qed.

(** *** A peer *)

Record circuit := Circ { script : list bytes; table : list nat; broken : bool }.

Definition next_id (w : circuit) : nat := S (max_list (table w)).

#[export] Instance toy_streams : DirStreams circuit nat := {|
  begin_dir_stream := fun w => (Circ (script w) (next_id w :: table w) (broken w), Ok (next_id w));
  write_all := fun w _ _ => (w, if broken w then Err (other_error "circuit closed") else Ok tt);
  flush := fun w _ => (w, Ok tt);
  read := fun w _ n =>
    match script w with
    | chunk :: more => (Circ more (table w) (broken w), Ok (slice_to chunk n))
    | [] => (w, Ok [])
    end;
  close := fun w s => Circ (script w) (filter (fun t => t <> s) (table w)) (broken w);
  peer_ip := fun _ => B "1.2.3.4";
|}.

Lemma max_list_bound l (s : nat) : s ∈ l -> (s <= max_list l)%nat.
Proof.
  induction 1 as [s l|s x l Hs IH]; cbn; lia.
Qed.

#[export] Instance toy_streams_laws : DirStreamsLaws circuit nat.
Proof.
  refine {| open := fun w s => bool_decide (s ∈ table w) |}; cbn.
  - intros w w' s [= <- <-]. split.
    + apply bool_decide_false. intros H%max_list_bound. unfold next_id in H. lia.
    + intros t. cbn. case_decide; [apply bool_decide_true; set_solver|].
      apply bool_decide_ext. set_solver.
  - done.
  - done.
  - done.
  - intros w s n t. by destruct (script w).
  - intros w s t. case_decide as D; [apply bool_decide_false|apply bool_decide_ext];
      rewrite list_elem_of_filter; [by intros []|tauto].
Defined.

Definition fetched (code : Z) : bytes :=
  response (B "HTTP/1.0") code (B "Fine by me") [(B "CONTENT-Encoding", B "Deflate")] (packed_parts parts).

Definition peer (code : Z) : circuit := Circ (chunks 7 (fetched code)) [3%nat] false.

Lemma fetch_witness :
  get_with (peer 200) (B "/tor/keys/all") [] = (Circ [] [3%nat] false, Ok (B "abc!")) /\
  get_with (peer 304) (B "/tor/keys/all") [] = (Circ [] [3%nat] false, Err (status_error 304)).
Proof.
  assert (Hw : forall code, 0 <= code <= U16_MAX ->
    well_formed (B "HTTP/1.0") code (B "Fine by me") [(B "CONTENT-Encoding", B "Deflate")]).
  { split; [split; [done|]|done| |].
    - apply (bool_decide_unpack (Forall (fun b => 33 <= b <= 126) (B "HTTP/1.0"))). by vm_compute.
    - apply (bool_decide_unpack (Forall (fun b => 32 <= b <= 126) (B "Fine by me"))). by vm_compute.
    - constructor; [|constructor]. split_and!; [done| | |by vm_compute].
      + apply (bool_decide_unpack (Forall (fun b => 33 <= b <= 126 /\ b <> 58) (B "CONTENT-Encoding"))). by vm_compute.
      + apply (bool_decide_unpack (Forall (fun b => 32 <= b <= 126) (B "Deflate"))). by vm_compute. }
  assert (D : forall w, Forall (fun c => 0 < len c <= READ_CHUNK) (script w) ->
    delivers 4%nat w (concat (script w)) (Circ [] (table w) (broken w))).
  { intros [sc t b]. cbn. induction sc as [|c sc IH]; intros F; [by constructor|].
    inversion_clear F as [|? ? Hc F']. cbn [concat].
    apply (delivers_more 4%nat _ c (Circ sc t b)); [intros ->; rewrite (@len_nil Z) in Hc; lia|cbn [read toy_streams script table broken]|by apply IH].
    f_equal. f_equal. unfold slice_to. apply take_ge. unfold len in Hc. lia. }
  assert (C : forall code, concat (script (peer code)) = fetched code) by (intros; apply concat_chunks; lia).
  assert (A : forall code, 0 <= code <= U16_MAX -> (len (fetched code) <=? MAX_RESPONSE_BYTES) = true ->
    Forall (fun c => 0 < len c <= READ_CHUNK) (script (peer code)) ->
    get_with (peer code) (B "/tor/keys/all") [] =
      (Circ [] [3%nat] false, answer code [(B "CONTENT-Encoding", B "Deflate")] (packed_parts parts))).
  { intros code Hc Hl F. specialize (D (Circ (script (peer code)) [4; 3]%nat false) F).
    cbn [script table broken] in D. rewrite C in D.
    pose proof (fetch_returns_the_answer (peer code) (Circ (script (peer code)) [4; 3]%nat false) _ _
      (Circ [] [4; 3]%nat false) 4%nat (B "/tor/keys/all") [] (B "HTTP/1.0") code (B "Fine by me")
      [(B "CONTENT-Encoding", B "Deflate")] (packed_parts parts) eq_refl eq_refl eq_refl (Hw code Hc) D) as H.
    unfold fetched in Hl. rewrite Hl in H. exact H. }
  split; (rewrite A; [by vm_compute|by vm_compute|by vm_compute|]);
    apply (bool_decide_unpack _); by vm_compute.
Defined.

Lemma fetch_ends_witness :
  snd (get_with (peer 200) (B "/x") []) = Ok (B "abc!") /\ len (B "abc!") <= MAX_RESPONSE_BYTES.
Proof.
  assert (E : snd (get_with (peer 200) (B "/x") []) = Ok (B "abc!")) by (by vm_compute).
  split; [exact E|]. destruct (fetch_ends_and_closes (peer 200) (B "/x") []) as (_ & H & _). by apply H.
Defined.

(** A request that cannot be sent leaves its stream open. *)
Example unsent_request_leaks_its_stream :
  get_with (Circ [] [3%nat] true) (B "/x") [] = (Circ [] [4; 3]%nat true, Err (other_error "circuit closed")).
Proof. by vm_compute. Qed.

Example request_has_the_headers :
  request (B "/x") (B "1.2.3.4") [(B "X-Or-Diff-From-Consensus", B "ABCD")] =
  B "GET /x HTTP/1.0" ++ CRLF ++ B "Host: 1.2.3.4" ++ CRLF ++ B "Accept-Encoding: deflate" ++ CRLF ++
  B "X-Or-Diff-From-Consensus: ABCD" ++ CRLF ++ CRLF.
Proof. by vm_compute. Qed.
End FetchDemo.
