(* ===== verification/Directory.v ===== *)
(** * The directory ([src/src/tor/dir/mod.rs], [src/src/tor/dir/cache.rs])

    The cache on disk and the verified view of the network: starting from the
    cache or by download, refreshing with diffs, and fetching microdescriptors.
    A computation threads the network and the disk.  The theorems say that nothing unverified is ever adopted or
    stored, that what was stored is found again, and that a microdescriptor in
    hand is the one its digest names. *)
From S2P Require Import Prelude.
From S2P Require Import Text.
From S2P Require Import Crypto.
From S2P Require Import Util.
From S2P Require Import Netdoc.
From S2P Require Import Authority.
From S2P Require Import Consensus.
From S2P Require Import Diff.
From S2P Require Import Microdesc.
From S2P Require Import Fetch.

(** ** The disk

    The files below the cache's directory, by path, and what the next
    operations meet: [None] is success, [Some (e, None)] a failure that
    changed nothing, [Some (e, Some n)] one that wrote only [n] bytes. *)
Abbreviation fault := (option (io_error * option nat)).

Module Disk.
Record t := Mk { files : gmap bytes bytes; faults : list fault }.

Definition next_fault (d : t) : fault := default None (head (faults d)).
Definition drop_fault (d : t) : t := Mk (files d) (tail (faults d)).

(** [fs::create_dir_all] of the parent, [fs::write], [fs::rename] and
    [fs::remove_file]. *)
Definition create_dir_all (d : t) : t * result unit :=
  (drop_fault d, match next_fault d with None => Ok tt | Some (e, _) => Err e end).

Definition write (d : t) (path data : bytes) : t * result unit :=
  let d' := drop_fault d in
  match next_fault d with
  | None => (Mk (<[path := data]> (files d')) (faults d'), Ok tt)
  | Some (e, None) => (d', Err e)
  | Some (e, Some n) => (Mk (<[path := take n data]> (files d')) (faults d'), Err e)
  end.

Definition rename (d : t) (source target : bytes) : t * result unit :=
  let d' := drop_fault d in
  match next_fault d, files d !! source with
  | None, Some data => (Mk (<[target := data]> (delete source (files d'))) (faults d'), Ok tt)
  | None, None => (d', Err (IoError NotFound (Message "No such file or directory")))
  | Some (e, _), _ => (d', Err e)
  end.

Definition remove_file (d : t) (path : bytes) : t * result unit :=
  let d' := drop_fault d in
  match next_fault d with
  | None => (Mk (delete path (files d')) (faults d'), Ok tt)
  | Some (e, _) => (d', Err e)
  end.

Definition read (d : t) (path : bytes) : option bytes := files d !! path.
End Disk.

(** ** The cache *)
Module Cache.
Import Disk.

Definition load (d : Disk.t) (name : bytes) : option bytes := read d name.

(** [Path::with_extension] of a file name: what precedes its last dot, unless
    nothing does, and the new extension. *)
Fixpoint file_stem (name : bytes) : option bytes :=
  match name with
  | [] => None
  | c :: name =>
      match file_stem name with
      | Some stem => Some (c :: stem)
      | None => if c =? 46 then Some [] else None
      end
  end.
Definition with_extension (name extension : bytes) : bytes :=
  match file_stem name with
  | Some (c :: stem) => (c :: stem) ++ B "." ++ extension
  | _ => name ++ B "." ++ extension
  end.

Definition store (d : Disk.t) (name data : bytes) : Disk.t * result unit :=
  let temp := with_extension name (B "tmp") in
  match create_dir_all d with
  | (d, Err e) => (d, Err e)
  | (d, Ok _) =>
      match write d temp data with
      | (d, Err e) => (d, Err e)
      | (d, Ok _) => rename d temp name
      end
  end.

Definition MICRODESCS : bytes := B "microdescs/".
Definition microdesc_path (digest : bytes) : bytes := MICRODESCS ++ hex_encode digest.

Definition load_microdesc (d : Disk.t) (digest : bytes) : option bytes := read d (microdesc_path digest).

Definition store_microdesc (d : Disk.t) (digest data : bytes) : Disk.t * result unit :=
  match create_dir_all d with
  | (d, Err e) => (d, Err e)
  | (d, Ok _) => write d (microdesc_path digest) data
  end.

Record PruneReport := MkReport { kept : Z; removed : Z }.

(** [fs::read_dir] of the microdescriptors. *)
Definition entries (d : Disk.t) : list bytes :=
  omap (strip_prefix MICRODESCS) (map fst (map_to_list (files d))).

Definition wanted (keep : list bytes) (name : bytes) : bool :=
  match hex_decode name with
  | Ok digest => (len digest =? 32) && bool_decide (digest ∈ keep)
  | Err _ => false
  end.

Fixpoint prune_entries (d : Disk.t) (keep names : list bytes) (report : PruneReport)
    : Disk.t * PruneReport :=
  match names with
  | [] => (d, report)
  | name :: names =>
      if negb (utf8_valid name) then prune_entries d keep names report
      else if wanted keep name
      then prune_entries d keep names (MkReport (kept report + 1) (removed report))
      else
        match remove_file d (MICRODESCS ++ name) with
        | (d, Ok _) => prune_entries d keep names (MkReport (kept report) (removed report + 1))
        | (d, Err _) => prune_entries d keep names report
        end
  end.

(** [listing] is what opening the directory gave. *)
Definition prune_microdescs (d : Disk.t) (keep : list bytes) (listing : result unit)
    : Disk.t * result PruneReport :=
  match listing with
  | Ok _ => let '(d, report) := prune_entries d keep (entries d) (MkReport 0 0) in (d, Ok report)
  | Err e => if bool_decide (kind e = NotFound) then (d, Ok (MkReport 0 0)) else (d, Err e)
  end.
End Cache.

(** ** The directory server

    What the directory needs of the one circuit it talks over. *)
Class DirServer (W : Type) := {
  open_circuit : W -> W * result unit;
  dir_get : W -> bytes -> list (bytes * bytes) -> W * result bytes;
  dir_get_parallel : W -> list bytes -> W * list (result bytes);
  close_circuit : W -> W;
}.

(** The requests of [fetch.rs] over a circuit that opens streams. *)
Definition fetching {W S} `{!DirStreams W S} `{Zlib}
    (threads : W -> list bytes -> W * list (option (result bytes)))
    (opened : W -> W * result unit) (closed : W -> W) : DirServer W := {|
  open_circuit := opened;
  dir_get := Fetch.get_with;
  dir_get_parallel := Fetch.get_parallel threads;
  close_circuit := closed;
|}.

Definition CONSENSUS_PATH : bytes := B "/tor/status-vote/current/consensus-microdesc".
Definition CONSENSUS_FILE : bytes := B "consensus".
Definition CERTS_FILE : bytes := B "certs".
Definition MICRODESCS_PER_REQUEST : nat := 92.

Module Directory.
Record t := Mk { consensus : Consensus.t; certs : list KeyCertificate.t }.
End Directory.

Section directory.
Context `{Crypto} {W : Type} `{!DirServer W}.

(** *** Computations over the network and the disk *)
Record World := MkWorld { net : W; disk : Disk.t }.

Definition D (A : Type) : Type := World -> World * result A.

#[export] Instance dir_ret : MRet D := fun A a w => (w, Ok a).
#[export] Instance dir_bind : MBind D := fun A C f m w =>
  match m w with (w, Ok a) => f a w | (w, Err e) => (w, Err e) end.

Definition lift {A} (r : result A) : D A := fun w => (w, r).
Definition attempt {A} (m : D A) : D (result A) := fun w => let '(w, r) := m w in (w, Ok r).
Definition on_disk {A} (f : Disk.t -> Disk.t * result A) : D A := fun w =>
  let '(d, r) := f (disk w) in (MkWorld (net w) d, r).
Definition on_net {A} (f : W -> W * result A) : D A := fun w =>
  let '(n, r) := f (net w) in (MkWorld n (disk w), r).
Definition loaded_file (name : bytes) : D (option bytes) := fun w => (w, Ok (Cache.load (disk w) name)).

Definition get (path : bytes) : D bytes := on_net (fun n => dir_get n path []).
Definition get_with (path : bytes) (headers : list (bytes * bytes)) : D bytes :=
  on_net (fun n => dir_get n path headers).

(** [String::from_utf8]. *)
Definition from_utf8 (raw : bytes) (what : string) : result bytes :=
  if utf8_valid raw then Ok raw else Err (invalid_data what).

(** *** The consensus *)

Definition download_full : D bytes :=
  raw ← get CONSENSUS_PATH; lift (from_utf8 raw "consensus is not valid UTF-8").

Definition download_diffed (base : bytes) : D bytes :=
  raw ← get_with CONSENSUS_PATH [(B "X-Or-Diff-From-Consensus", signed_part_digest base)];
  text ← lift (from_utf8 raw "consensus is not UTF-8");
  if negb (starts_with text (B "network-status-diff-version")) then mret text
  else lift (apply base text).

Definition keys_path (missing : list (bytes * bytes)) : bytes :=
  B "/tor/keys/fp-sk/" ++
  Text.join 43 (map (fun p => hex_encode (fst p) ++ B "-" ++ hex_encode (snd p)) missing).

Definition certificates_for (consensus_text : bytes) (now : Z) (known : list KeyCertificate.t)
    : D (list KeyCertificate.t) :=
  let wanted := required_certificates consensus_text in
  match wanted with
  | [] => lift (Err (invalid_data "consensus carries no signature from a trusted authority"))
  | _ =>
      let missing := filter (fun p => existsb (fun c => KeyCertificate.matches c (fst p) (snd p)) known = false) wanted in
      let text := serialize known in
      match missing with
      | [] => mret (parse_key_certificates text now)
      | _ =>
          fetched ← get (keys_path missing);
          mret (parse_key_certificates (text ++ from_utf8_lossy fetched) now)
      end
  end.

Definition consensus_text_for (base : option bytes) : D bytes :=
  match base with
  | Some base =>
      r ← attempt (download_diffed base);
      match r with
      | Ok text => mret text
      | Err e => if bool_decide (kind e = AlreadyExists) then lift (Err e) else download_full
      end
  | None => download_full
  end.

Definition download (now : Z) (base : option bytes) (known : list KeyCertificate.t) : D Directory.t :=
  consensus_text ← consensus_text_for base;
  certs ← certificates_for consensus_text now known;
  consensus ← lift (parse_and_verify consensus_text certs now);
  _ ← attempt (on_disk (fun d => Cache.store d CERTS_FILE (serialize certs)));
  _ ← attempt (on_disk (fun d => Cache.store d CONSENSUS_FILE consensus_text));
  mret (Directory.Mk consensus certs).

Definition from_cache (d : Disk.t) (now : Z) : option Directory.t :=
  certs_raw ← Cache.load d CERTS_FILE;
  consensus_raw ← Cache.load d CONSENSUS_FILE;
  let certs := parse_key_certificates (from_utf8_lossy certs_raw) now in
  consensus ← to_option (parse_and_verify (from_utf8_lossy consensus_raw) certs now);
  if negb (Consensus.is_live consensus now) then None
  else Some (Directory.Mk consensus certs).

(** The cached consensus as the base of a diff. *)
Definition cached_text : D (option bytes) :=
  raw ← loaded_file CONSENSUS_FILE; mret (raw ← raw; to_option (from_utf8 raw "")).

Definition bootstrap (now : Z) : D Directory.t := fun w =>
  match from_cache (disk w) now with
  | Some directory => (w, Ok directory)
  | None =>
      (stale ← cached_text;
       certs_raw ← loaded_file CERTS_FILE;
       let certs := match certs_raw with
                    | Some raw => parse_key_certificates (from_utf8_lossy raw) now
                    | None => []
                    end in
       _ ← on_net open_circuit;
       first ← attempt (download now stale certs);
       r ← match first with
           | Err e => if bool_decide (kind e = AlreadyExists) then attempt (download now None certs)
                      else mret first
           | Ok _ => mret first
           end;
       _ ← on_net (fun n => (close_circuit n, Ok tt));
       lift r) w
  end.

Definition refresh (directory : Directory.t) (now : Z) : D Directory.t :=
  base ← cached_text;
  next ← download now base (Directory.certs directory);
  if Consensus.valid_after (Directory.consensus next) <=? Consensus.valid_after (Directory.consensus directory)
  then lift (Err (invalid_data "directory server offered a consensus from {}, no newer than the one we hold"))
  else mret next.

Definition prune_cache (directory : Directory.t) (listing : result unit) : D Cache.PruneReport :=
  on_disk (fun d => Cache.prune_microdescs d
    (map RouterStatus.microdesc_digest (Consensus.routers (Directory.consensus directory))) listing).

Definition summary (directory : Directory.t) : bytes :=
  let c := Directory.consensus directory in
  show_uint (len (Consensus.routers c)) ++ B " relays (" ++
  show_uint (Consensus.count_with c (Z.lor (Z.lor FLAG_GUARD FLAG_RUNNING) FLAG_VALID)) ++ B " guards, " ++
  show_uint (Consensus.count_with c (Z.lor (Z.lor FLAG_EXIT FLAG_RUNNING) FLAG_VALID)) ++ B " exits), " ++
  show_uint (len (Directory.certs directory)) ++ B " authority certificates, valid-after " ++
  format_datetime (Consensus.valid_after c) ++ B ", fresh-until " ++
  format_datetime (Consensus.fresh_until c) ++ B ", valid-until " ++
  format_datetime (Consensus.valid_until c).

(** *** Microdescriptors *)

Definition microdescs_path (batch : list bytes) : bytes :=
  B "/tor/micro/d/" ++ Text.join 45 (map base64_encode_unpadded batch).

(** What the cache has of one digest. *)
Definition cached_microdesc (d : Disk.t) (digest : bytes) : option Microdesc.t :=
  raw ← Cache.load_microdesc d digest;
  md ← to_option (Microdesc.parse (from_utf8_lossy raw));
  if bytes_eqb (Microdesc.digest md) digest then Some md else None.

(** One batch: the documents asked for are stored and handed on. *)
Fixpoint take_batch (batch : list bytes) (docs : list (bytes * Microdesc.t)) (d : Disk.t)
    : Disk.t * list (bytes * Microdesc.t) :=
  match docs with
  | [] => (d, [])
  | (body, md) :: docs =>
      if negb (bool_decide (Microdesc.digest md ∈ batch)) then take_batch batch docs d
      else
        let d := fst (Cache.store_microdesc d (Microdesc.digest md) body) in
        let '(d, rest) := take_batch batch docs d in
        (d, (Microdesc.digest md, md) :: rest)
  end.

Fixpoint take_batches (batches : list (list bytes)) (results : list (result bytes)) (d : Disk.t)
    : Disk.t * list (bytes * Microdesc.t) :=
  match batches, results with
  | batch :: batches, r :: results =>
      match r with
      | Err _ => take_batches batches results d
      | Ok raw =>
          let '(d, found) := take_batch batch (parse_batch (from_utf8_lossy raw)) d in
          let '(d, rest) := take_batches batches results d in
          (d, found ++ rest)
      end
  | _, _ => (d, [])
  end.

(** [stream_microdescs], with what it hands to [on_each] as a list. *)
Definition stream_microdescs (digests : list bytes) (w : World) : World * list (bytes * Microdesc.t) :=
  let cached := omap (fun digest => md ← cached_microdesc (disk w) digest; Some (digest, md)) digests in
  let missing := filter (fun digest => cached_microdesc (disk w) digest = None) digests in
  let batches := chunks MICRODESCS_PER_REQUEST missing in
  let '(n, results) := dir_get_parallel (net w) (map microdescs_path batches) in
  let '(d, fetched) := take_batches batches results (disk w) in
  (MkWorld n d, cached ++ fetched).

Definition microdescs (digests : list bytes) (w : World) : World * gmap bytes Microdesc.t :=
  let '(w, found) := stream_microdescs digests w in
  (w, foldl (fun m p => <[fst p := snd p]> m) ∅ found).

Definition microdesc_ed_ids (digests : list bytes) (w : World) : World * gmap bytes bytes :=
  let '(w, found) := stream_microdescs digests w in
  (w, foldl (fun m p => match Microdesc.ed_identity (snd p) with
                        | Some ed => <[fst p := ed]> m
                        | None => m
                        end) ∅ found).
End directory.

(** ** The disk under failures *)

Lemma create_dir_spec d d' r : Disk.create_dir_all d = (d', r) ->
  Disk.files d' = Disk.files d /\ (Disk.faults d = [] -> r = Ok tt /\ Disk.faults d' = []).
Proof.
  unfold Disk.create_dir_all, Disk.drop_fault, Disk.next_fault. destruct d as [fs [|[[e n]|] faults]];
    cbn; by intros [= <- <-].
Qed.

Lemma write_spec d path data d' r : Disk.write d path data = (d', r) ->
  (if is_ok r then Disk.files d' = <[path := data]> (Disk.files d)
   else Disk.files d' = Disk.files d \/ exists n, Disk.files d' = <[path := take n data]> (Disk.files d)) /\
  (Disk.faults d = [] -> r = Ok tt /\ Disk.faults d' = []).
Proof.
  unfold Disk.write, Disk.drop_fault, Disk.next_fault. destruct d as [fs [|[[e [n|]]|] faults]];
    cbn; intros [= <- <-]; (split; [|done]); cbn [is_ok Disk.files]; eauto.
Qed.

Lemma rename_spec d source target data d' r :
  Disk.files d !! source = Some data -> Disk.rename d source target = (d', r) ->
  Disk.files d' = (if is_ok r then <[target := data]> (delete source (Disk.files d)) else Disk.files d) /\
  (Disk.faults d = [] -> r = Ok tt /\ Disk.faults d' = []).
Proof.
  unfold Disk.rename, Disk.drop_fault, Disk.next_fault. intros ->. destruct d as [fs [|[[e n]|] faults]];
    cbn; intros [= <- <-]; by split.
Qed.

(** A store either replaces the file or, whatever fails in it and at whatever
    byte, leaves it as it was; and it touches no other file but the temporary
    one. *)
Lemma store_atomic d name data d' r :
  Cache.with_extension name (B "tmp") <> name -> Cache.store d name data = (d', r) ->
  Disk.read d' name = (if is_ok r then Some data else Disk.read d name) /\
  (forall other, other <> name -> other <> Cache.with_extension name (B "tmp") ->
     Disk.read d' other = Disk.read d other) /\
  (Disk.faults d = [] -> r = Ok tt /\ Disk.faults d' = []).
Proof.
  intros Ht. set (temp := Cache.with_extension name (B "tmp")) in *. unfold Cache.store, Disk.read. fold temp.
  destruct (Disk.create_dir_all d) as [d1 r1] eqn:E1. apply create_dir_spec in E1 as [F1 N1].
  destruct r1 as [[]|e]; [|intros [= <- <-]; rewrite F1; split_and!; [done|done|intros H; by apply N1 in H as [? _]]].
  destruct (Disk.write d1 temp data) as [d2 r2] eqn:E2. apply write_spec in E2 as [F2 N2]. rewrite F1 in F2.
  destruct r2 as [[]|e]; cbn [is_ok] in F2; cycle 1.
  { intros [= <- <-]. cbn [is_ok]. split_and!.
    - destruct F2 as [-> |[n ->]]; [done|by rewrite lookup_insert_ne].
    - intros other H1 H2. destruct F2 as [-> |[n ->]]; [done|by rewrite lookup_insert_ne].
    - intros Hn. apply N1 in Hn as [_ Hn]. by apply N2 in Hn as [? _]. }
  intros E3. apply (rename_spec _ _ _ data) in E3 as [F3 N3]; [|by rewrite F2, lookup_insert_eq].
  rewrite F3, F2. split_and!.
  - destruct (is_ok r); [by rewrite lookup_insert_eq|by rewrite lookup_insert_ne].
  - intros other H1 H2. destruct (is_ok r); by rewrite ?lookup_insert_ne, ?lookup_delete_ne, ?lookup_insert_ne by done.
  - intros Hn. apply N1 in Hn as [_ Hn]. apply N2 in Hn as [_ Hn]. by apply N3.
Qed.

Section proofs.
Context `{Crypto} {W : Type} `{!DirServer W}.
#[local] Abbreviation Comp := (D (W:=W)).

(** ** Reasoning about computations

    [quiet m]: [m] leaves the disk alone.  [returns m Q]: what [m] returns, if
    it does not fail, satisfies [Q]. *)
Definition quiet {A} (m : Comp A) : Prop := forall w, disk (fst (m w)) = disk w.
Definition returns {A} (m : Comp A) (Q : A -> Prop) : Prop := forall w w' a, m w = (w', Ok a) -> Q a.

Lemma quiet_ret {A} (a : A) : quiet (mret a).
Proof. done. Qed.
Lemma quiet_lift {A} (r : result A) : quiet (lift r).
Proof. done. Qed.
Lemma quiet_on_net {A} (f : W -> W * result A) : quiet (on_net f).
Proof. intros w. unfold on_net. by destruct (f (net w)). Qed.
Lemma quiet_attempt {A} (m : Comp A) : quiet m -> quiet (attempt m).
Proof. intros Q w. unfold attempt. specialize (Q w). by destruct (m w). Qed.
Lemma quiet_loaded name : quiet (loaded_file name).
Proof. done. Qed.
Lemma quiet_bind {A C} (m : Comp A) (f : A -> Comp C) : quiet m -> (forall a, quiet (f a)) -> quiet (m ≫= f).
Proof.
  intros Hm Hf w. specialize (Hm w). unfold mbind, dir_bind.
  destruct (m w) as [w1 [a|e]]; cbn [fst] in *; [by rewrite Hf|done].
Qed.

Lemma returns_bind {A C} (m : Comp A) (f : A -> Comp C) P Q :
  returns m P -> (forall a, P a -> returns (f a) Q) -> returns (m ≫= f) Q.
Proof.
  intros Hm Hf w w' c. unfold mbind, dir_bind. destruct (m w) as [w1 [a|e]] eqn:E; [|done].
  apply Hf. by eapply Hm.
Qed.
Lemma returns_lift {A} (r : result A) (Q : A -> Prop) : (forall a, r = Ok a -> Q a) -> returns (lift r) Q.
Proof. intros HQ w w' a [= <- E]. by apply HQ. Qed.
Lemma returns_ret {A} (a : A) (Q : A -> Prop) : Q a -> returns (mret a) Q.
Proof. by intros HQ w w' b [= _ <-]. Qed.
Lemma returns_any {A} (m : Comp A) : returns m (fun _ => True).
Proof. done. Qed.
Lemma returns_attempt {A} (m : Comp A) (Q : A -> Prop) :
  returns m Q -> returns (attempt m) (fun r => forall a, r = Ok a -> Q a).
Proof.
  intros HQ w w' r. unfold attempt. destruct (m w) as [w1 r1] eqn:E. intros [= <- <-] a ->. by eapply HQ.
Qed.

#[local] Hint Resolve quiet_ret quiet_lift quiet_on_net quiet_attempt quiet_loaded quiet_bind : core.

(** ** Downloads *)

Abbreviation is_utf8 s := (utf8_valid s = true).

Lemma from_utf8_ok raw what text : from_utf8 raw what = Ok text -> is_utf8 text.
Proof. unfold from_utf8. destruct (utf8_valid raw) eqn:V; [by intros [= <-]|done]. Qed.

Lemma full_spec : quiet download_full /\ returns download_full (fun t => is_utf8 t).
Proof.
  split; [unfold download_full, get; eauto|]. eapply returns_bind; [apply returns_any|].
  intros raw _. apply returns_lift. intros a. apply from_utf8_ok.
Qed.

Lemma diffed_spec base :
  quiet (download_diffed base) /\ (is_utf8 base -> returns (download_diffed base) (fun t => is_utf8 t)).
Proof.
  split.
  { unfold download_diffed, get_with. apply quiet_bind; [done|]. intros raw. apply quiet_bind; [done|].
    intros t. by case_match. }
  intros V. eapply returns_bind; [apply returns_any|]. intros raw _. eapply returns_bind.
  { apply returns_lift. intros a. apply from_utf8_ok. }
  intros t Vt. cbn beta in Vt. destruct (negb _); [by apply returns_ret|].
  apply returns_lift. intros a. by apply apply_utf8.
Qed.

Definition base_ok (base : option bytes) : Prop := match base with Some b => is_utf8 b | None => True end.

Lemma consensus_text_spec base :
  quiet (consensus_text_for base) /\ (base_ok base -> returns (consensus_text_for base) (fun t => is_utf8 t)).
Proof.
  destruct full_spec as [Qf Rf]. destruct base as [base|]; [|by split].
  destruct (diffed_spec base) as [Qd Rd]. cbn [consensus_text_for base_ok]. split.
  - apply quiet_bind; [by apply quiet_attempt|]. intros [t|e]; [done|]. by case_bool_decide.
  - intros V. eapply returns_bind; [by apply returns_attempt, Rd|]. intros [t|e] Ht.
    + apply returns_ret. by apply Ht.
    + by case_bool_decide.
Qed.

(** Certificates that came out of the parser, from UTF-8 text. *)
Definition known_ok (known : list KeyCertificate.t) : Prop :=
  Forall (fun c => is_utf8 (KeyCertificate.text c)) known /\ exists n, Forall (text_ok n) known.

Lemma parsed_known keys n : is_utf8 keys -> known_ok (parse_key_certificates keys n).
Proof.
  intros V. pose proof (certificates_text_ok (S (length keys)) keys n) as F. split; [|exists n];
    (eapply Forall_impl; [exact F|]); [intros c [_ U]; by apply U|by intros c [? _]].
Qed.

Lemma known_utf8 known : known_ok known -> is_utf8 (serialize known).
Proof. intros [V [n F]]. by eapply serialize_utf8. Qed.

Lemma certificates_spec text now known :
  quiet (certificates_for text now known) /\
  (known_ok known -> returns (certificates_for text now known)
     (fun certs => exists keys, is_utf8 keys /\ certs = parse_key_certificates keys now)).
Proof.
  unfold certificates_for. destruct (required_certificates text) as [|q qs]; [by split|].
  destruct (filter _ _) as [|m ms]; split.
  - done.
  - intros K. apply returns_ret. exists (serialize known). split; [by apply known_utf8|done].
  - unfold get. eauto.
  - intros K. eapply returns_bind; [apply returns_any|]. intros raw _. apply returns_ret. eexists.
    split; [|done]. rewrite utf8_app_ok by (by apply known_utf8). apply lossy_is_utf8.
Qed.

(** A directory the program may hold: both halves come from text that parses
    to them, and the one verifies the other. *)
Definition verified (now : Z) (text : bytes) (directory : Directory.t) : Prop :=
  is_utf8 text /\
  (exists keys, is_utf8 keys /\ Directory.certs directory = parse_key_certificates keys now) /\
  parse_and_verify text (Directory.certs directory) now = Ok (Directory.consensus directory).

(** What a download does to the disk: nothing when it fails. *)
Lemma download_spec now base known w :
  let '(w', r) := download now base known w in
  match r with
  | Err _ => disk w' = disk w
  | Ok directory => base_ok base -> known_ok known -> exists text d,
      verified now text directory /\
      d = fst (Cache.store (disk w) CERTS_FILE (serialize (Directory.certs directory))) /\
      disk w' = fst (Cache.store d CONSENSUS_FILE text)
  end.
Proof.
  unfold download. destruct (consensus_text_spec base) as [Q1 R1].
  unfold mbind, dir_bind. specialize (Q1 w).
  destruct (consensus_text_for base w) as [w1 [text|e]] eqn:E1; [|done]. cbn [fst] in Q1.
  destruct (certificates_spec text now known) as [Q2 R2]. specialize (Q2 w1).
  destruct (certificates_for text now known w1) as [w2 [certs|e]] eqn:E2; cbn [fst] in Q2; [|congruence].
  cbn [lift]. destruct (parse_and_verify text certs now) as [c|e] eqn:E3; [|congruence].
  unfold attempt, on_disk. destruct (Cache.store (disk w2) CERTS_FILE (serialize certs)) as [d1 r1] eqn:S1.
  cbn [disk net]. destruct (Cache.store d1 CONSENSUS_FILE text) as [d2 r2] eqn:S2.
  intros Vb Vk. exists text, d1. cbn [Directory.certs]. rewrite <- Q1, <- Q2, S1. cbn [fst]. rewrite S2. split_and!; [|done|done].
  split_and!; [by eapply R1|by eapply R2|done].
Qed.
(** ** Nothing unverified *)

(** A directory that some pair of documents verifies. *)
Definition sound (now : Z) (directory : Directory.t) : Prop := exists text, verified now text directory.

(** What the disk may hold after an operation: either file is as it was, or
    holds what was just verified. *)
Definition disk_moves (now : Z) (d d' : Disk.t) : Prop :=
  (Disk.read d' CERTS_FILE = Disk.read d CERTS_FILE \/
   exists directory, sound now directory /\ Disk.read d' CERTS_FILE = Some (serialize (Directory.certs directory))) /\
  (Disk.read d' CONSENSUS_FILE = Disk.read d CONSENSUS_FILE \/
   exists directory text, verified now text directory /\ Disk.read d' CONSENSUS_FILE = Some text).

Lemma cache_names :
  Cache.with_extension CERTS_FILE (B "tmp") <> CERTS_FILE /\
  Cache.with_extension CONSENSUS_FILE (B "tmp") <> CONSENSUS_FILE /\
  CERTS_FILE <> CONSENSUS_FILE /\ CERTS_FILE <> Cache.with_extension CONSENSUS_FILE (B "tmp") /\
  CONSENSUS_FILE <> Cache.with_extension CERTS_FILE (B "tmp").
Proof. split_and!; apply (bool_decide_unpack _); by vm_compute. Qed.

Lemma disk_moves_refl now d d' : d' = d -> disk_moves now d d'.
Proof. intros ->. split; by left. Qed.

Lemma stores_move now text directory d d1 d2 :
  verified now text directory ->
  d1 = fst (Cache.store d CERTS_FILE (serialize (Directory.certs directory))) ->
  d2 = fst (Cache.store d1 CONSENSUS_FILE text) ->
  disk_moves now d d2 /\
  (Disk.faults d = [] -> Disk.read d2 CERTS_FILE = Some (serialize (Directory.certs directory)) /\
     Disk.read d2 CONSENSUS_FILE = Some text /\ Disk.faults d2 = []).
Proof.
  intros V E1 E2. destruct (Cache.store d CERTS_FILE _) as [d1' r1] eqn:S1. cbn [fst] in E1. subst d1'.
  destruct (Cache.store d1 CONSENSUS_FILE text) as [d2' r2] eqn:S2. cbn [fst] in E2. subst d2'.
  destruct cache_names as (T1 & T2 & T3 & T4 & T5).
  destruct (store_atomic _ _ _ _ _ T1 S1) as (A1 & O1 & N1).
  destruct (store_atomic _ _ _ _ _ T2 S2) as (A2 & O2 & N2).
  unfold disk_moves. rewrite (O2 CERTS_FILE), A2, A1, (O1 CONSENSUS_FILE) by done. split.
  - split; [destruct (is_ok r1); [right; exists directory; split; [by exists text|done]|by left]|].
    destruct (is_ok r2); [right; by exists directory, text|by left].
  - intros H0. apply N1 in H0 as [-> H0]. by apply N2 in H0 as [-> H0].
Qed.

Lemma from_cache_sound now d directory : from_cache d now = Some directory -> sound now directory.
Proof.
  unfold from_cache. intros E. destruct (Cache.load d CERTS_FILE) as [craw|]; [|done].
  destruct (Cache.load d CONSENSUS_FILE) as [raw|]; [|done]. cbn [mbind option_bind] in E.
  set (text := from_utf8_lossy raw) in *. set (keys := from_utf8_lossy craw) in *.
  destruct (parse_and_verify text _ now) as [c|] eqn:P; [|done]. cbn [to_option mbind option_bind] in E.
  destruct (negb _); [done|]. injection E as <-. exists text. split_and!; [apply lossy_is_utf8| |done].
  exists keys. split; [apply lossy_is_utf8|done].
Qed.

Lemma download_moves now base known w :
  base_ok base -> known_ok known ->
  let '(w', r) := download now base known w in
  disk_moves now (disk w) (disk w') /\
  match r with
  | Ok directory => exists text, verified now text directory /\
      (Disk.faults (disk w) = [] ->
       Disk.read (disk w') CERTS_FILE = Some (serialize (Directory.certs directory)) /\
       Disk.read (disk w') CONSENSUS_FILE = Some text)
  | Err _ => disk w' = disk w
  end.
Proof.
  intros Vb Vk. pose proof (download_spec now base known w) as S.
  destruct (download now base known w) as [w' [directory|e]]; [|split; [by apply disk_moves_refl|done]].
  destruct (S Vb Vk) as (text & d & V & Ed & Ew).
  destruct (stores_move now text directory (disk w) d (disk w') V Ed Ew) as [M N].
  split; [done|]. exists text. split; [done|]. intros H0. by destruct (N H0) as (? & ? & _).
Qed.

(** The cached consensus, as the base of a diff. *)
Lemma cached_text_spec (w : World (W:=W)) :
  exists base, cached_text w = (w, Ok base) /\ base_ok base.
Proof.
  unfold cached_text, loaded_file, mbind, dir_bind. destruct (Cache.load (disk w) CONSENSUS_FILE) as [raw|].
  - eexists. split; [done|]. cbn [option_bind mbind]. unfold from_utf8.
    by destruct (utf8_valid raw) eqn:V.
  - by exists None.
Qed.

(** What [bootstrap] does after the cache did not do. *)
Lemma bootstrap_spec now w :
  from_cache (disk w) now = None ->
  let '(w', r) := bootstrap now w in
  disk_moves now (disk w) (disk w') /\
  match r with
  | Ok directory => exists text, verified now text directory /\
      (Disk.faults (disk w) = [] ->
       Disk.read (disk w') CERTS_FILE = Some (serialize (Directory.certs directory)) /\
       Disk.read (disk w') CONSENSUS_FILE = Some text)
  | Err _ => disk w' = disk w
  end.
Proof.
  intros Hc. unfold bootstrap. rewrite Hc. destruct (cached_text_spec w) as (base & Eb & Vb).
  unfold mbind at 1, dir_bind at 1. rewrite Eb. unfold mbind at 1, dir_bind at 1. cbn [loaded_file].
  set (certs := match Cache.load (disk w) CERTS_FILE with Some raw => _ | None => _ end).
  assert (Vk : known_ok certs).
  { unfold certs. destruct (Cache.load _ _); [apply parsed_known, lossy_is_utf8|].
    split; [constructor|exists 0; constructor]. }
  unfold mbind at 1, dir_bind at 1, on_net at 1. destruct (open_circuit (net w)) as [n [[]|e]];
    [|split; [by apply disk_moves_refl|done]].
  set (w1 := MkWorld n (disk w)). change (disk w) with (disk w1).
  unfold mbind at 1, dir_bind at 1, attempt at 1. pose proof (download_moves now base certs w1 Vb Vk) as D1.
  destruct (download now base certs w1) as [w2 [directory|e]]; [exact D1|]. destruct D1 as [M1 E1].
  unfold mbind at 1, dir_bind at 1. case_bool_decide; cycle 1; [exact (conj M1 E1)|].
  unfold attempt. pose proof (download_moves now None certs w2 I Vk) as D2. rewrite E1 in D2.
  destruct (download now None certs w2) as [w3 [directory|e']]; exact D2.
Qed.

Lemma refresh_sound now held_at held w :
  sound held_at held ->
  let '(w', r) := refresh held now w in
  disk_moves now (disk w) (disk w') /\
  forall directory, r = Ok directory -> sound now directory /\
    Consensus.valid_after (Directory.consensus held) < Consensus.valid_after (Directory.consensus directory).
Proof.
  intros (text & _ & (keys & Vk & Ek) & _). unfold refresh.
  destruct (cached_text_spec w) as (base & Eb & Vb). unfold mbind at 1, dir_bind at 1. rewrite Eb.
  unfold mbind at 1, dir_bind at 1.
  pose proof (download_moves now base (Directory.certs held) w Vb) as D1.
  specialize (D1 ltac:(rewrite Ek; by apply parsed_known)).
  destruct (download now base (Directory.certs held) w) as [w' [next|e]]; [|by destruct D1].
  destruct D1 as (M & text' & V & _).
  destruct (Z.leb_spec (Consensus.valid_after (Directory.consensus next))
              (Consensus.valid_after (Directory.consensus held))); (split; [done|]); [done|].
  intros ? [= <-]. split; [by exists text'|done].
Qed.

Lemma bootstrap_sound now w :
  let '(w', r) := bootstrap now w in
  disk_moves now (disk w) (disk w') /\ forall directory, r = Ok directory -> sound now directory.
Proof.
  destruct (from_cache (disk w) now) as [directory|] eqn:Hc.
  - unfold bootstrap. rewrite Hc. split; [by apply disk_moves_refl|].
    intros ? [= <-]. by eapply from_cache_sound.
  - pose proof (bootstrap_spec now w Hc) as S. destruct (bootstrap now w) as [w' [directory|e]];
      destruct S as [M S]; (split; [done|]); [|done]. destruct S as (text & V & _).
    intros ? [= <-]. by exists text.
Qed.

(** C5. Nothing unverified is ever adopted or kept. Whatever the directory server sends and however the disk fails, a directory that [bootstrap] returns, from the cache or from the network, and one that [refresh] returns, holds a consensus that parse_and_verify accepts against its certificates, all of which parse_key_certificates accepts now; a refresh only ever moves to a later valid-after; and the two cached files are afterwards either as they were or hold a document that was verified in the course of the operation -- never part of one. *)
Theorem only_the_verified_is_kept now w :
  (let '(w', r) := bootstrap now w in
   disk_moves now (disk w) (disk w') /\ forall directory, r = Ok directory -> sound now directory) /\
  (forall held_at held, sound held_at held ->
   let '(w', r) := refresh held now w in
   disk_moves now (disk w) (disk w') /\
   forall directory, r = Ok directory -> sound now directory /\
     Consensus.valid_after (Directory.consensus held) < Consensus.valid_after (Directory.consensus directory)).
Proof.
  split.
  - apply bootstrap_sound.
  - intros held_at held. apply refresh_sound.
Qed.

(** ** The next start *)

Lemma find_distinct id key certs : forall seen,
  (id, key) ∉ seen ->
  List.find (fun c => KeyCertificate.matches c id key) (distinct_from certs seen) =
  List.find (fun c => KeyCertificate.matches c id key) certs.
Proof.
  induction certs as [|c certs IH]; intros seen Hs; [done|]. cbn [distinct_from List.find].
  destruct (KeyCertificate.matches c id key) eqn:M.
  - unfold KeyCertificate.matches in M. apply andb_prop in M as [M1%bytes_eqb_true M2%bytes_eqb_true].
    subst id key. rewrite bool_decide_false by done. cbn [List.find]. unfold KeyCertificate.matches.
    by rewrite !(proj2 (bytes_eqb_true _ _) eq_refl).
  - case_bool_decide; [by apply IH|]. cbn [List.find]. rewrite M. apply IH.
    rewrite elem_of_app, list_elem_of_singleton. intros [?|E]; [done|]. injection E as -> ->.
    unfold KeyCertificate.matches in M. by rewrite !(proj2 (bytes_eqb_true _ _) eq_refl) in M.
Qed.

Lemma verify_distinct text certs now : parse_and_verify text (distinct certs) now = parse_and_verify text certs now.
Proof.
  unfold parse_and_verify. destruct (head (lines text)); [|done]. cbn [ok_or mbind result_bind].
  destruct (negb _); [done|]. destruct (signed_length text) as [n|]; [|done]. cbn [mbind result_bind].
  assert (forall ss signers, fold_left (count_signature (distinct certs) (sha1 (slice_to text n)) (sha256 (slice_to text n))) ss signers =
            fold_left (count_signature certs (sha1 (slice_to text n)) (sha256 (slice_to text n))) ss signers) as ->; [|done].
  induction ss as [|s ss IH]; intros signers; [done|]. cbn [fold_left]. rewrite IH. f_equal.
  unfold count_signature, distinct. destruct (if bytes_eqb _ (B "sha256") then _ else _) as [d|]; [|done].
  by rewrite find_distinct by (apply not_elem_of_nil).
Qed.

Lemma verified_live now text directory :
  verified now text directory -> Consensus.is_live (Directory.consensus directory) now = true.
Proof.
  intros (_ & _ & P). unfold Consensus.is_live. apply Z.ltb_lt. unfold parse_and_verify in P. res_inv.
  b2p. subst. rewrite <- P. cbn. lia.
Qed.

(** What a start stored, the next start uses. On a disk that does not fail, after [bootstrap] has returned a directory, the cache holds a directory with the same consensus, so a second [bootstrap] returns it without asking the network for anything: what [serialize] writes of the certificates, parse_key_certificates reads back. *)
Theorem the_next_start_uses_the_cache now w w' directory :
  Disk.faults (disk w) = [] -> bootstrap now w = (w', Ok directory) ->
  exists again, Directory.consensus again = Directory.consensus directory /\
    from_cache (disk w') now = Some again /\ bootstrap now w' = (w', Ok again).
Proof.
  intros Hf E. assert (exists again, Directory.consensus again = Directory.consensus directory /\
    from_cache (disk w') now = Some again) as (again & Ea & Ec); cycle 1.
  { exists again. split_and!; [done..|]. unfold bootstrap. by rewrite Ec. }
  destruct (from_cache (disk w) now) as [cached|] eqn:Hc.
  { unfold bootstrap in E. rewrite Hc in E. injection E as <- <-. by exists cached. }
  pose proof (bootstrap_spec now w Hc) as S. rewrite E in S. destruct S as (_ & text & V & S).
  destruct (S Hf) as [S1 S2]. pose proof (verified_live _ _ _ V) as L. destruct V as (Vt & (keys & Vk & Ek) & P).
  unfold from_cache, Cache.load. rewrite S1, S2. cbn [mbind option_bind]. rewrite (lossy_valid text) by done.
  rewrite Ek, certificates_read_back, verify_distinct, <- Ek, P by done. cbn [to_option mbind option_bind].
  rewrite L. cbn [negb]. eexists. split; [|done]. done.
Qed.

(** ** Microdescriptors *)

(** [md] is what some text says whose hash is [digest]. *)
Definition genuine (digest : bytes) (md : Microdesc.t) : Prop :=
  exists body, Microdesc.parse body = Ok md /\ sha256 body = digest.

Lemma parse_digest body md : Microdesc.parse body = Ok md -> Microdesc.digest md = sha256 body.
Proof. unfold Microdesc.parse. intros E. res_inv; by subst md. Qed.

Lemma cached_genuine d digest md : cached_microdesc d digest = Some md -> genuine digest md.
Proof.
  unfold cached_microdesc. intros E. destruct (Cache.load_microdesc d digest) as [raw|]; [|done].
  cbn [mbind option_bind] in E. destruct (Microdesc.parse (from_utf8_lossy raw)) as [m|] eqn:P; [|done].
  cbn [to_option mbind option_bind] in E. destruct (bytes_eqb _ _) eqn:B1; [|done]. injection E as <-.
  apply bytes_eqb_true in B1. exists (from_utf8_lossy raw). split; [done|].
  by rewrite <- (parse_digest _ _ P).
Qed.

Lemma batch_genuine text body md : (body, md) ∈ parse_batch text -> genuine (Microdesc.digest md) md.
Proof.
  unfold parse_batch. intros I. apply list_elem_of_omap in I as (b & _ & E).
  destruct (Microdesc.parse b) as [m|] eqn:P; [|done]. cbn in E. injection E as -> ->.
  exists body. split; [done|]. symmetry. by apply parse_digest.
Qed.

(** Storing a microdescriptor touches one file. *)
Lemma store_microdesc_spec d digest data path :
  path <> Cache.microdesc_path digest ->
  Disk.read (fst (Cache.store_microdesc d digest data)) path = Disk.read d path.
Proof.
  intros Hp. unfold Cache.store_microdesc, Disk.read. destruct (Disk.create_dir_all d) as [d1 r1] eqn:E1.
  apply create_dir_spec in E1 as [F1 _]. destruct r1; [|cbn [fst]; by rewrite F1].
  destruct (Disk.write d1 _ data) as [d2 r2] eqn:E2. apply write_spec in E2 as [F2 _]. cbn [fst].
  rewrite F1 in F2. destruct (is_ok r2); [by rewrite F2, lookup_insert_ne by done|].
  destruct F2 as [-> |[n ->]]; [done|by rewrite lookup_insert_ne by done].
Qed.

Lemma take_batch_spec batch docs : forall d,
  let '(d', found) := take_batch batch docs d in
  (forall digest md, (digest, md) ∈ found <-> (exists body, (body, md) ∈ docs) /\ Microdesc.digest md = digest /\ digest ∈ batch) /\
  (forall path, (forall digest, digest ∈ batch -> path <> Cache.microdesc_path digest) ->
     Disk.read d' path = Disk.read d path).
Proof.
  induction docs as [|[body md] docs IH]; intros d; cbn [take_batch].
  { split; [|done]. intros digest md. split; [by intros ?%elem_of_nil|by intros [[? ?%elem_of_nil] _]]. }
  case_bool_decide as Hin; cbn [negb].
  - specialize (IH (fst (Cache.store_microdesc d (Microdesc.digest md) body))).
    destruct (take_batch batch docs _) as [d' rest]. destruct IH as [IH1 IH2]. split.
    + intros digest m. rewrite elem_of_cons, IH1. split.
      * intros [[= -> ->]|((b & Hb) & ? & ?)]; [|split_and!; [exists b; by apply elem_of_cons; right|done..]].
        split_and!; [exists body; by apply elem_of_cons; left|done..].
      * intros ((b & Hb) & Hd & Hm). apply elem_of_cons in Hb as [[= -> ->]|Hb]; [left; by subst|right].
        split_and!; [by exists b|done..].
    + intros path Hp. rewrite IH2 by done. apply store_microdesc_spec. by apply Hp.
  - specialize (IH d). destruct (take_batch batch docs d) as [d' rest]. destruct IH as [IH1 IH2].
    split; [|done]. intros digest m. rewrite IH1. split.
    + intros ((b & Hb) & ? & ?). split_and!; [exists b; by apply elem_of_cons; right|done..].
    + intros ((b & Hb) & Hd & Hm). apply elem_of_cons in Hb as [[= -> ->]|Hb]; [by subst|].
      split_and!; [by exists b|done..].
Qed.

Lemma take_batches_spec batches : forall results d,
  let '(d', found) := take_batches batches results d in
  (forall digest md, (digest, md) ∈ found <-> exists i batch raw body,
     batches !! i = Some batch /\ results !! i = Some (Ok raw) /\
     (body, md) ∈ parse_batch (from_utf8_lossy raw) /\ Microdesc.digest md = digest /\ digest ∈ batch) /\
  (forall path, (forall digest, digest ∈ concat batches -> path <> Cache.microdesc_path digest) ->
     Disk.read d' path = Disk.read d path).
Proof.
  induction batches as [|batch batches IH]; intros results d; cbn [take_batches].
  { split; [|done]. intros digest md. split; [by intros ?%elem_of_nil|].
    intros (i & batch & raw & body & E & _). by rewrite lookup_nil in E. }
  destruct results as [|r results].
  { split; [|done]. intros digest md. split; [by intros ?%elem_of_nil|].
    intros (i & b & raw & body & _ & E & _). by rewrite lookup_nil in E. }
  assert (Shift : forall digest md,
    (exists i b raw body, (batch :: batches) !! i = Some b /\ (r :: results) !! i = Some (Ok raw) /\
       (body, md) ∈ parse_batch (from_utf8_lossy raw) /\ Microdesc.digest md = digest /\ digest ∈ b) <->
    (exists raw body, r = Ok raw /\ (body, md) ∈ parse_batch (from_utf8_lossy raw) /\
       Microdesc.digest md = digest /\ digest ∈ batch) \/
    (exists i b raw body, batches !! i = Some b /\ results !! i = Some (Ok raw) /\
       (body, md) ∈ parse_batch (from_utf8_lossy raw) /\ Microdesc.digest md = digest /\ digest ∈ b)).
  { intros digest md. split.
    - intros ([|i] & b & raw & body & E1 & E2 & ?); cbn in E1, E2; [left|right; by exists i, b, raw, body].
      injection E1 as ->. injection E2 as ->. by exists raw, body.
    - intros [(raw & body & -> & ?)|(i & b & raw & body & ?)]; [by exists 0%nat, batch, raw, body|].
      by exists (S i), b, raw, body. }
  destruct r as [raw|e].
  - pose proof (take_batch_spec batch (parse_batch (from_utf8_lossy raw)) d) as T.
    destruct (take_batch batch _ d) as [d1 found]. destruct T as [T1 T2]. specialize (IH results d1).
    destruct (take_batches batches results d1) as [d2 rest]. destruct IH as [IH1 IH2]. split.
    + intros digest md. rewrite Shift, elem_of_app, T1, IH1. split; (intros [H1|H1]; [left|by right]).
      * destruct H1 as ((body & ?) & ? & ?). by exists raw, body.
      * destruct H1 as (raw' & body & [= <-] & ? & ? & ?). split_and!; [by exists body|done..].
    + intros path Hp. cbn [concat] in Hp. rewrite IH2, T2; [done| |];
        intros digest Hd; apply Hp, elem_of_app; [by left|by right].
  - specialize (IH results d). destruct (take_batches batches results d) as [d2 rest].
    destruct IH as [IH1 IH2]. split.
    + intros digest md. rewrite Shift, IH1. split; [by right|]. by intros [(? & ? & ? & _)|?].
    + intros path Hp. apply IH2. intros digest Hd. apply Hp. cbn [concat]. apply elem_of_app. by right.
Qed.

(** Pruning removes nothing that is wanted, and only microdescriptors. *)
Lemma prune_entries_spec keep names : forall d report path,
  (forall name, name ∈ names -> path = Cache.MICRODESCS ++ name -> Cache.wanted keep name = true) ->
  Disk.read (fst (Cache.prune_entries d keep names report)) path = Disk.read d path.
Proof.
  induction names as [|name names IH]; intros d report path Hp; [done|]. cbn [Cache.prune_entries].
  assert (Hp' : forall name, name ∈ names -> path = Cache.MICRODESCS ++ name -> Cache.wanted keep name = true).
  { intros n Hn. apply Hp. apply elem_of_cons. by right. }
  destruct (negb _); [by apply IH|]. destruct (Cache.wanted keep name) eqn:Hw; [by apply IH|].
  assert (Hne : path <> Cache.MICRODESCS ++ name).
  { intros E. apply Hp in E; [by rewrite Hw in E|]. apply elem_of_cons. by left. }
  assert (Hr : Disk.read (fst (Disk.remove_file d (Cache.MICRODESCS ++ name))) path = Disk.read d path).
  { unfold Disk.remove_file, Disk.read. destruct (Disk.next_fault d) as [[e n]|]; [done|].
    cbn. by rewrite lookup_delete_ne. }
  by destruct (Disk.remove_file d _) as [d1 [u|e]]; rewrite IH.
Qed.

Lemma prune_spares keep d listing digest :
  len digest = 32 -> bytes_ok digest -> digest ∈ keep ->
  Cache.load_microdesc (fst (Cache.prune_microdescs d keep listing)) digest = Cache.load_microdesc d digest.
Proof.
  intros Hl Hb Hk. unfold Cache.prune_microdescs, Cache.load_microdesc. destruct listing as [[]|e]; [|by case_bool_decide].
  pose proof (prune_entries_spec keep (Cache.entries d) d (Cache.MkReport 0 0) (Cache.microdesc_path digest)) as P.
  destruct (Cache.prune_entries d keep _ _) as [d' report]. apply P. intros name _ E.
  unfold Cache.microdesc_path in E. apply app_inv_head in E as <-. unfold Cache.wanted.
  rewrite hex_round by done. by rewrite Hl, bool_decide_true.
Qed.

(** A map filled from a list of pairs. *)
Lemma filled_lookup {A} (l : list (bytes * A)) (m : gmap bytes A) k v :
  foldl (fun m p => <[fst p := snd p]> m) m l !! k = Some v -> (k, v) ∈ l \/ m !! k = Some v.
Proof.
  revert m. induction l as [|[k' v'] l IH]; intros m E; [by right|]. cbn [foldl fst snd] in E.
  apply IH in E as [E|E]; [left; apply elem_of_cons; by right|].
  destruct (decide (k = k')) as [<-|Hk]; [|rewrite lookup_insert_ne in E by done; by right].
  rewrite lookup_insert_eq in E. injection E as <-. left. apply elem_of_cons. by left.
Qed.

Lemma filled_some {A} (l : list (bytes * A)) (m : gmap bytes A) k v :
  (k, v) ∈ l \/ is_Some (m !! k) -> is_Some (foldl (fun m p => <[fst p := snd p]> m) m l !! k).
Proof.
  revert m. induction l as [|[k' v'] l IH]; intros m E; [by destruct E as [?%elem_of_nil|]|].
  cbn [foldl fst snd]. apply IH. destruct (decide (k = k')) as [<-|Hk].
  - right. by rewrite lookup_insert_eq.
  - rewrite lookup_insert_ne by done. destruct E as [E|E]; [|by right].
    apply elem_of_cons in E as [[= -> ->]|E]; [done|by left].
Qed.

(** C36. Microdescriptors are the ones asked for. [microdescs] returns, under each digest, a microdescriptor parsed from a text that hashes to that digest, and only for digests it was asked for; whatever is already cached it returns from there, asking the network for the others only, at most 92 to a request; every document a batch's answer holds that the batch asked for is in the result; and of the disk it touches only the files of the digests it had to fetch. *)
Theorem microdescs_are_genuine digests w :
  let missing := filter (fun digest => cached_microdesc (disk w) digest = None) digests in
  let batches := chunks MICRODESCS_PER_REQUEST missing in
  let '(n, results) := dir_get_parallel (net w) (map microdescs_path batches) in
  let '(w', found) := microdescs digests w in
  net w' = n /\ concat batches = missing /\ Forall (fun batch => (length batch <= 92)%nat) batches /\
  (forall digest md, found !! digest = Some md -> digest ∈ digests /\ genuine digest md) /\
  (forall digest md, digest ∈ digests -> cached_microdesc (disk w) digest = Some md ->
     found !! digest = Some md) /\
  (forall i batch raw body md, batches !! i = Some batch -> results !! i = Some (Ok raw) ->
     (body, md) ∈ parse_batch (from_utf8_lossy raw) -> Microdesc.digest md ∈ batch ->
     is_Some (found !! Microdesc.digest md)) /\
  (forall path, (forall digest, digest ∈ missing -> path <> Cache.microdesc_path digest) ->
     Disk.read (disk w') path = Disk.read (disk w) path).
Proof.
  intros missing batches. unfold microdescs, stream_microdescs. fold missing batches.
  destruct (dir_get_parallel _ _) as [n results].
  pose proof (take_batches_spec batches results (disk w)) as T.
  destruct (take_batches batches results (disk w)) as [d fetched]. destruct T as [T1 T2].
  set (cached := omap _ digests). cbn [net disk].
  assert (Hc : forall digest md, (digest, md) ∈ cached <-> digest ∈ digests /\ cached_microdesc (disk w) digest = Some md).
  { intros digest md. unfold cached. rewrite list_elem_of_omap. split.
    - intros (x & Hx & E). destruct (cached_microdesc (disk w) x) as [m|] eqn:C; [|done]. cbn in E.
      injection E as -> ->. done.
    - intros [Hd C]. exists digest. by rewrite C. }
  assert (Hb : concat batches = missing) by (apply concat_chunks; unfold MICRODESCS_PER_REQUEST; lia).
  assert (Hf : forall digest md, (digest, md) ∈ fetched -> digest ∈ missing /\ genuine digest md).
  { intros digest md (i & batch & raw & body & Ei & _ & Hp & Hd & Hin)%T1. split.
    - rewrite <- Hb. apply list_elem_of_In, in_concat. exists batch. split; [|by apply list_elem_of_In].
      apply list_elem_of_In. by eapply list_elem_of_lookup_2.
    - subst digest. by eapply batch_genuine. }
  split_and!; [done|done| | | | |].
  - apply Forall_forall. intros batch Hin. apply chunks_bound in Hin as [_ Hl];
      [exact Hl|unfold MICRODESCS_PER_REQUEST; lia].
  - intros digest md [Hin|E]%filled_lookup; [|by rewrite lookup_empty in E].
    apply elem_of_app in Hin as [Hin|Hin].
    + apply Hc in Hin as [Hin C]. split; [done|by eapply cached_genuine].
    + apply Hf in Hin as [Hin G]. split; [|done]. unfold missing in Hin. by apply list_elem_of_filter in Hin as [_ ?].
  - intros digest md Hd C. destruct (filled_some (cached ++ fetched) ∅ digest md) as [m Hm].
    + left. apply elem_of_app. left. by apply Hc.
    + rewrite Hm. f_equal. apply filled_lookup in Hm as [Hm|Hm]; [|by rewrite lookup_empty in Hm].
      apply elem_of_app in Hm as [Hm|Hm].
      * apply Hc in Hm as [_ C2]. rewrite C in C2. by injection C2 as ->.
      * apply Hf in Hm as [Hm _]. unfold missing in Hm. apply list_elem_of_filter in Hm as [C2 _]. by rewrite C in C2.
  - intros i batch raw body md Ei Er Hp Hd. apply (filled_some _ _ _ md). left. apply elem_of_app. right.
    apply T1. by exists i, batch, raw, body.
  - intros path Hp. apply T2. by rewrite Hb.
Qed.

End proofs.

(** ** A server to try it with *)
Module DirectoryDemo.
Import ConsensusDemo.

(** What the server answers to a request for a diff, for the whole consensus,
    for certificates and for microdescriptors; and what it was asked. *)
Record server := Server {
  diffed : result bytes;
  whole : result bytes;
  keys_answer : result bytes;
  micro : result bytes;
  connected : bool;
  asked : list bytes;
}.

Definition ask (n : server) (path : bytes) : server :=
  Server (diffed n) (whole n) (keys_answer n) (micro n) (connected n) (asked n ++ [path]).
Definition connect (n : server) (b : bool) : server :=
  Server (diffed n) (whole n) (keys_answer n) (micro n) b (asked n).

#[export] Instance toy_server : DirServer server := {|
  open_circuit := fun n => (connect n true, Ok tt);
  dir_get := fun n path headers =>
    (ask n path,
     if starts_with path (B "/tor/keys/") then keys_answer n
     else match headers with [] => whole n | _ => diffed n end);
  dir_get_parallel := fun n paths => (fold_left ask paths n, map (fun _ => micro n) paths);
  close_circuit := fun n => connect n false;
|}.

(** The document of [ConsensusDemo], published half an hour later. *)
Definition later_part : bytes :=
  line HEADER ++ line (B "valid-after 2026-09-02 10:30:00") ++
  slice_from signed_part (len (line HEADER ++ line (B "valid-after 2026-09-02 10:00:00"))).
Definition later_block (id : bytes) : bytes :=
  line (B "sha256 " ++ hex_encode id ++ [SP] ++ hex_encode (sha1 (signing_der id))) ++
  line (pem (B "SIGNATURE") (ConsensusDemo.sign (signing_der id) (sha256 later_part))).
Definition later : bytes := later_part ++ Text.join 1 [] ++
  match map later_block (ids 5) with
  | [] => []
  | b :: bs => b ++ concat (map (fun b => SIGNATURE_KEYWORD ++ b) bs)
  end.

Definition not_modified : result bytes := Err (IoError AlreadyExists (Message "directory server answered HTTP {status}")).
Definition entry : bytes := MicrodescDemo.one 66 (B "p accept 80").
Definition honest : server := Server not_modified (Ok (document 5)) (Ok keys) (Ok (entry ++ entry)) false [].
Definition empty_disk : Disk.t := Disk.Mk ∅ [].
Definition start : World := MkWorld honest empty_disk.

Definition started : World * result Directory.t := bootstrap now start.
Definition held : Directory.t := match snd started with Ok d => d | Err _ => Directory.Mk ConsensusDemo.empty [] end.

Lemma first_start_ok : started = (fst started, Ok held).
Proof. by vm_compute. Qed.

Lemma held_sound : sound now held.
Proof.
  pose proof (bootstrap_sound now start) as S. fold started in S. rewrite first_start_ok in S.
  destruct S as [_ S]. by apply S.
Qed.

(** A later consensus is offered whole in answer to the request for a diff. *)
Definition published : World := MkWorld (Server (Ok later) (Ok later) (Ok keys) (Ok []) false []) (disk (fst started)).
Definition refreshed : World * result Directory.t := refresh held now published.
Definition renewed : Directory.t := match snd refreshed with Ok d => d | Err _ => Directory.Mk ConsensusDemo.empty [] end.

Lemma verified_witness :
  sound now held /\ sound now renewed /\
  Consensus.valid_after (Directory.consensus renewed) = Consensus.valid_after (Directory.consensus held) + 1800.
Proof.
  assert (E : refreshed = (fst refreshed, Ok renewed)) by (by vm_compute).
  pose proof (only_the_verified_is_kept now start) as [S _]. fold started in S. rewrite first_start_ok in S.
  destruct S as [_ S]. assert (Sh : sound now held) by (by apply S).
  pose proof (only_the_verified_is_kept now published) as [_ R]. specialize (R now held Sh).
  fold refreshed in R. rewrite E in R. destruct R as [_ R]. destruct (R renewed eq_refl) as [Sn _].
  split; [exact Sh|]. split; [exact Sn|]. by vm_compute.
Defined.

Lemma next_start_witness :
  Disk.faults (disk start) = [] /\
  exists again, bootstrap now (fst started) = (fst started, Ok again) /\
    Directory.consensus again = Directory.consensus held.
Proof.
  split; [reflexivity|].
  destruct (the_next_start_uses_the_cache now start (fst started) held eq_refl first_start_ok) as (again & E1 & _ & E2).
  exists again. split; [exact E2|exact E1].
Defined.

(** The first start asks for the document and its keys, and closes its
    circuit. *)
Example first_start_asks :
  map (fun p => take 10 p) (asked (net (fst started))) = [B "/tor/statu"; B "/tor/keys/"] /\
  connected (net (fst started)) = false.
Proof. by vm_compute. Qed.

Example summary_of_the_first_start :
  summary held = B "1 relays (1 guards, 0 exits), 6 authority certificates, valid-after 2026-09-02 10:00:00, fresh-until 2026-09-02 11:00:00, valid-until 2026-09-02 13:00:00".
Proof. by vm_compute. Qed.

(** *** Where the cache and the fallback fall short *)

(** A server that offers an older document to a client that holds the later
    one: the refresh is refused, and yet the cached document is now the older
    one. *)
Definition behind : World := MkWorld (Server (Ok (document 5)) (Ok (document 5)) (Ok keys) (Ok []) false []) (disk (fst refreshed)).

Example refused_refresh_replaces_the_cache :
  Disk.read (disk behind) CONSENSUS_FILE = Some later /\
  is_ok (snd (refresh renewed now behind)) = false /\
  Disk.read (disk (fst (refresh renewed now behind))) CONSENSUS_FILE = Some (document 5).
Proof. by vm_compute. Qed.

(** The answer to the request for a diff does not verify (four signatures);
    the whole document would, but is not asked for. *)
Definition forged : World := MkWorld (Server (Ok (document 4)) (Ok later) (Ok keys) (Ok []) false []) (disk (fst started)).

Example unverified_answer_has_no_fallback :
  is_ok (snd (refresh held now forged)) = false /\
  length (asked (net (fst (refresh held now forged)))) = 1%nat /\
  is_ok (snd (download now None (Directory.certs held) forged)) = true.
Proof. by vm_compute. Qed.

(** *** Microdescriptors *)

Definition digest : bytes := sha256 entry.

Definition fetched : World * gmap bytes Microdesc.t := microdescs [digest; zeros 32] start.

Lemma microdescs_witness :
  (forall d md, snd fetched !! d = Some md -> genuine d md) /\
  size (snd fetched) = 1%nat /\ length (asked (net (fst fetched))) = 1%nat /\
  size (snd (microdescs [digest] (fst fetched))) = 1%nat /\
  length (asked (net (fst (microdescs [digest] (fst fetched))))) = 1%nat.
Proof.
  split; [|split_and!; by vm_compute]. intros d md.
  pose proof (microdescs_are_genuine [digest; zeros 32] start) as G. cbv zeta in G.
  destruct (dir_get_parallel (net start) _) as [n results]. unfold fetched.
  destruct (microdescs [digest; zeros 32] start) as [w found].
  destruct G as (_ & _ & _ & G & _). cbn [snd]. intros H. by apply G in H as [_ ?].
Defined.
End DirectoryDemo.
