(* ===== verification/Fallback.v ===== *)
(** * Fallback directory mirrors ([src/src/tor/dir/fallback.rs])

    The relays a client with no guard fetches its first directory documents
    from.  A table of data: an address, a port and an identity each. *)
From S2P Require Import Prelude.
From S2P Require Import Text.
From S2P Require Import Util.

Record FallbackDir := MkFallback { ipv4 : bytes; or_port : Z; rsa_identity : bytes }.

(** An entry as the upstream file has it: the identity in hexadecimal. *)
Definition mirror (a b c d port : Z) (identity : string) : FallbackDir :=
  MkFallback [a; b; c; d] port (match hex_decode (B identity) with Ok id => id | Err _ => [] end).

Definition FALLBACK_DIRS : list FallbackDir := [
  mirror 64 65 62 122 443 "4F067C5C488173987B568CD7245F1CA71DEE996B";
  mirror 162 19 252 137 9200 "E0608745ED237A918A73A370538023330F1BF45D";
  mirror 185 183 157 214 9100 "5BDD0633E0AC09763E49641DCD1BA3AB3A21AA83";
  mirror 185 243 218 225 8166 "3287F79D9C1687BF7F3A9D140369CA64D2FD111B";
  mirror 96 9 98 136 443 "6EADE4A39AB89F1C6BF989668CC046E9C6ADFC5A";
  mirror 178 254 18 25 9001 "1932C6B0B3D15F6CDA47632FB2257A5DF3BC014F";
  mirror 8 211 31 18 9002 "49AD06A955605436C04459E247A724C231234AEA";
  mirror 149 172 60 95 443 "70F35FF59D6F37959A6D9B9089BB31C5D73F3956";
  mirror 195 154 200 146 80 "60A211F20E74C7D2D884BA49202964F5C94FA015";
  mirror 15 204 141 95 8080 "32742AD57C3D243DA0713BB6DFD82118DF573D2E";
  mirror 217 154 63 133 9001 "730C207C0B7A9B48B4991213E1F5BA26A2E721CF";
  mirror 136 243 176 179 9002 "A208C66E3BAF32B70920EB6AF8081F7CFA5DB1D1";
  mirror 170 117 192 249 420 "01E8A81D47C488C54064D20FEBC3B9928CADA502";
  mirror 162 19 204 163 10000 "5C426791CB47BDDDD97A71EB2EFC4CCC84DEB299";
  mirror 192 76 153 253 9005 "6DAD7AF818F4E1CDA7909DF2E4018A998BE21113";
  mirror 23 191 200 25 443 "1938F805DEA65F2F351134465BF5D5F3815E5235";
  mirror 78 80 158 218 433 "06165000052A06FF3C6C2B8A7773833622D6AF70";
  mirror 37 221 208 7 9100 "F795756C04D2458CEECA249613A58BBABFD70143";
  mirror 80 67 167 86 9001 "22D2314BC5146890A8E5C19C884D96C0CBFEAA24";
  mirror 62 72 47 105 8430 "D4C4D01625AF1473A8AEABB28CDE7EC8D553C428";
  mirror 75 145 166 75 9001 "29711824A49ECE595B9B29594759FD7CDF5B1BA8";
  mirror 185 112 249 156 443 "B86F28E63E7972C533D1F20CB94F0F0AAFF3DC5B";
  mirror 144 76 26 58 9001 "26BC5109EE3495F4655D133BBE0A77FE1608D9A7";
  mirror 82 153 138 57 9007 "7AD80E51B0D3867A8E32785038EA37E41BF4A2B2";
  mirror 147 90 235 228 9000 "D806EC0E00D5E9E83C661E07A9589C3FE5583FB3";
  mirror 103 152 178 73 9001 "CD2EAAE3552F0F73B9C69FE3301DF0A2BA57CFD4";
  mirror 81 245 98 184 4096 "9B260AFE88F69D6C7C981173E21AD8243CA7C42A";
  mirror 195 58 58 72 443 "D1A39C70169F2C4B690DC9B6E7B03C3B9ABE907B";
  mirror 64 65 1 6 443 "61FDC20A73FD35D96C3BE5EE984156210B10A491";
  mirror 45 13 225 78 9001 "301DD621B68D0B7257EA221FD938D34FE3794BEE";
  mirror 217 23 8 2 9001 "B42C797CC8CD63C60FB643E820A11D113DF4F5C8";
  mirror 135 125 103 47 9001 "C460E8A702592EF52116466BBA2725E11FB82AC9";
  mirror 80 67 172 162 4443 "042944E139508E6A8495AA1F6F320D1087D84930";
  mirror 82 141 122 156 442 "09DD0F811808091DACA286CB50CF85919416ABD4";
  mirror 171 25 193 39 81 "9A561CA579F0918D4E0C7A8533801B91C56FD605";
  mirror 212 132 97 196 443 "7E74AEB864E7386E041C5551DD6CE7C0C8B5FE9F";
  mirror 188 213 94 245 9001 "1D22FDB094132E415174968BC0B52A53B386D29C";
  mirror 23 191 200 22 443 "821921A4F18B2E152153C8138E6989FA48745180";
  mirror 66 146 193 33 9001 "2037A6568C5771A5D8FF5C64FC1819247E6FEE7B";
  mirror 45 137 201 5 9001 "C4FEABB1C0F7709312B33345040FBC29682877DE";
  mirror 193 189 100 198 443 "FDD9CD7406582E0B56C4A27D44126AE843EAF6DD";
  mirror 162 201 194 145 9001 "345F576F29CA1F2A3B86262A6165E2F9F1AAAD8D";
  mirror 45 83 104 137 9600 "CFF9C18036D401579C473177C0D95B463AD371F7";
  mirror 128 52 132 189 9002 "CEE465A048F5F53261F418C5257A4285E73C3C66";
  mirror 128 232 113 47 9001 "2427E37429BD1E5EE094BDDF417D1D2BE2A2C803";
  mirror 50 7 154 218 443 "1442F40CA33AC29441F54EF696FCC04A5A16C307";
  mirror 158 69 201 83 9001 "C25A982DCFE86D647273CD66C478EE0A1193FE4E";
  mirror 64 65 1 128 443 "2F32397F39D58E88B0863621FC58C6D7F59491B3";
  mirror 192 42 116 29 443 "007BE01311B98AEFDFDCB7F4A2F167296E696825";
  mirror 96 9 98 90 443 "911BE3F16FA3609A056FFF56814CACD6F8669E53";
  mirror 213 144 142 24 9001 "4B582F3F4BB4DE56D7728DEB22AA255350870F98";
  mirror 185 220 101 199 8443 "E1AF5373E3240566B598FA481AD3860549F6168B";
  mirror 109 70 100 246 9010 "E8CCA1C61EBA1614BAB6B5CA792BDC687F397B4F";
  mirror 193 189 100 199 444 "E3426F15A222DA8788615224722799975943EE63";
  mirror 93 237 51 47 30003 "8AFE4E6F05234B0184327C052B09F10191EAFAF3";
  mirror 82 221 131 86 8443 "EEEBDC066C59143A2C614DE6600601EDAB85C2B9";
  mirror 102 211 56 112 80 "EB0EEE7C95D2B4324115C07FE175CB1D1DF18B99";
  mirror 135 125 183 193 9200 "D95EA120340506CB35A32512CBACFD671CC0A613";
  mirror 171 25 193 25 444 "97F70D82466B7EC179641753490EFF91A52C790C";
  mirror 23 129 64 220 443 "EED7EFB9D49FF1D713F3FA4083A36EB97BA18406";
  mirror 23 191 200 23 443 "7AC25DC9E4606154DE38305BDC5A40BCBCB6D04A";
  mirror 162 216 18 62 443 "460CB72A11A5948FDDDE032603DDBEB837AF662C";
  mirror 194 156 89 6 9003 "DB9B9D7ED50046DC52D5A09368E1C53E81D40DE5";
  mirror 141 105 130 119 9001 "249C706F0F360429F367719F01A2246186BC8B17";
  mirror 193 142 59 74 9100 "FD162550A00234ED29E41CE1C78C63741CD1037E";
  mirror 5 255 101 10 443 "31EF78B9019D61CF259B223DB9F80940994EDA34";
  mirror 68 67 32 31 9001 "964B4E8A75263A69769541F2764563DABDD995D2";
  mirror 146 59 15 186 9001 "FFB4BF2AE896CA8E7B3C419855346415D743E889";
  mirror 45 137 199 102 9001 "DA8C9D509989F8175EC3E487788815F7BAD2DAEC";
  mirror 67 215 234 141 8430 "ADC35E769B42A3CAB8557E0B5295D3F152595EF8";
  mirror 193 108 117 103 9001 "438F3EA4C9FB0DB63F5377A3271AB5435FAD7E04";
  mirror 84 238 10 142 19001 "F12F8DFDDE1969D4E5940781E3DAB326D28C1220";
  mirror 185 82 126 57 443 "FFAF2849EED3BBB66031173551CFD5E39ECEA324";
  mirror 147 90 234 30 9003 "5AE8D6148CB3B153AC6303988A4348949A1266F5";
  mirror 82 41 132 3 9001 "579E92A3168011112BE428E28F1DB12B847EE662";
  mirror 96 9 98 64 443 "8D69CBCD465028B306080C55E8DF8858D986023D";
  mirror 64 65 0 120 443 "A06E4ABE8E49E25BDD1DB618ED262706742A215B";
  mirror 89 58 26 216 7100 "39CE03A66016B0D69BC6C2A1F362C628436FEF7B";
  mirror 185 229 90 81 993 "FEEBABA2B6FAF53AE1DC8DDA8681CE026537DFA4";
  mirror 64 188 93 178 9001 "94351CC9E17E00741D694F0AC3CD57A9C23E1A43";
  mirror 194 49 71 252 9001 "527BFB3CE819BE8D74C2A488B83A2F4332B878B5";
  mirror 96 9 98 156 443 "18A65FC409848256101AE4AE90AFCAE2C00E0776";
  mirror 70 39 234 182 9001 "AC68C99B4B26E2B4729237B0DBC7065023690940";
  mirror 95 17 81 188 9008 "E4CABFB603248E0C9741EBA4924F93A0445F142D";
  mirror 91 158 13 188 9001 "49B1EF7777C56048D30D3DD756BE1EEDFFDF470C";
  mirror 89 47 51 90 443 "06F3E28948A3C6E2BA8B0C7D109C7BFC12D69DC5";
  mirror 85 215 67 230 8443 "FA561E534DDDE63830FA0B0A484235ED23BB27A3";
  mirror 192 42 116 144 443 "3DEE67992679A782BD81D2801275449C763741E3";
  mirror 51 75 141 87 9100 "FC003BAD97BC06BF4B1CECB6423929D66FF34932";
  mirror 46 165 252 48 9001 "9F74A77EB9D76F2FCCE591C89A26E0FDBD110AB8";
  mirror 185 100 87 141 9002 "EC5A78D5974701196C93E9D326B8672BC04FAB7C";
  mirror 89 44 193 42 443 "675C1CFC6FABBFCBE4CB5BE77CFE2A0A8F575B8D";
  mirror 178 254 44 163 5126 "0501011B32C77C3FFE68DC4B3E40FC5D27F9501B";
  mirror 132 243 162 13 443 "E339970C7021BB066F033083DC7F402FC95CFCFC";
  mirror 91 226 144 98 80 "1C75E1F02A0A7CBB70E72D194298B3DA3A622CDF";
  mirror 78 42 200 34 9601 "2F51D0746765580A0A48BCAA21B56ECF797B903E";
  mirror 51 178 136 58 9100 "58214F460A2EB3EC745DFED36D190316132AE3B1";
  mirror 92 60 37 247 443 "47186E3631689057A7EF223ECC5D86918A9E679E";
  mirror 209 58 180 236 9001 "0371E4EC901C4FC77FEA2AA5BE4218F0BE1F6CE3";
  mirror 147 90 235 21 9100 "5CEA56320C904E731AE827866C71B90D50696F6A";
  mirror 96 9 98 78 443 "C05783305558432D94B024A1C2EC5CDC5B4817F5";
  mirror 54 36 108 162 443 "46F9FB943917858F618F2648595DEACD931D4400";
  mirror 198 46 168 17 9001 "B8FA90A8B7DA9B90A09AA04CD2E81E263AA8DA4C";
  mirror 77 33 128 196 9001 "38F14F8F0B30D35C491AAB5EC6770000A6CA794C";
  mirror 216 197 207 49 9001 "C366391E67A29CE959A15193D0CF2F9ED94F3578";
  mirror 117 53 155 113 9001 "584E7A714D68266083B873372D766597BDF67939";
  mirror 194 15 115 93 9001 "5A9404C9AF72DB12ADEB2FF810E7DA12D3D66CEF";
  mirror 89 58 26 216 9000 "56D878C942CD38F5287079974950668B18ECC4CD";
  mirror 188 245 217 208 444 "B2FB2A441E2AE4CA0420A187F388F8B5137E51F4";
  mirror 64 65 1 147 443 "EAAB427C68A509AAE2B246F25423137FC9ED9489";
  mirror 185 181 63 124 9001 "617ABB55C145AB81C6322E1082855F0DACC65F64";
  mirror 96 9 98 36 443 "CA893A2714E62ACAC7A28548F6F69BA5AF22C026";
  mirror 64 65 62 119 443 "5983A781B6525C7918CFD9ABAB035BBA16105B32";
  mirror 147 90 235 40 9100 "BB5C8B377F9078A13653015B8C4538140CE2DD44";
  mirror 5 255 101 24 9001 "C89976F41351B3F0CDA25C385B41ED26A276579A";
  mirror 167 114 103 133 443 "D5E9356A5958E4891A124FB749829B30EB7F8D29";
  mirror 193 31 117 236 443 "F16FA573E1A9B5B545920972618698235DD78E05";
  mirror 52 14 1 170 33123 "400EF1A0A38600641CB845875568828DC1D14C89";
  mirror 185 129 62 63 9001 "07ACFB0801E4F74F5610F870B5FCBB5539DBCBD1";
  mirror 171 25 193 35 443 "0F1C2A846C228EF96A623D9E421EF63B3BD32BD5";
  mirror 109 70 100 246 9000 "D12FBEA6247B25C0FCD09D5E123DD59BF943D7BB";
  mirror 64 65 63 66 443 "1359BB4BF1382722D11895B298053F9A99A7314E";
  mirror 193 115 253 174 443 "C16118AB499F579A4F95EE8CBA30758BA6B2F804";
  mirror 154 53 58 161 110 "66FF32B5D2ED28E310E0C368BFD3CED3799988AC";
  mirror 87 106 44 40 9001 "E6007F4B6BF63905470B55807BA996EC48C72D6B";
  mirror 94 140 115 114 8443 "66C102FA5DDF48C9EEEB048C1630933B66C50ECC";
  mirror 64 95 10 169 19001 "579795881A9BEB88E42FDDA8E5A45EE7606CFC01";
  mirror 171 25 193 131 9030 "7860F0AD272C7045A27C67CD215D467D8E679F45";
  mirror 173 249 215 107 9001 "B9591189772AD8D32AE960E9570A49292F3A1E40";
  mirror 45 84 107 84 8443 "A91B7AC7A53D2E08A45DAF748C250FB535DBDE8F";
  mirror 5 104 84 183 7430 "2E821477E6CB66014DF2385F7C48BE56E7884F1F";
  mirror 147 135 129 138 9200 "FC0A83C73D9DA146D3608AE71F54E322890D59C5";
  mirror 95 217 112 245 53 "3F43D0584A2613C9DB631382FF486DC6B95EA1C8";
  mirror 67 215 234 141 7430 "B2A4EFD1B3DAD0F5FA127B5C29BBFE625628A6D9";
  mirror 62 210 99 238 39819 "3E18FEBABD94CDC986416C957DF323FEDE97A2BD";
  mirror 45 90 4 235 9001 "F475E5987E44A2B7B143A2BEE3F8128EEFD7E5A3";
  mirror 190 120 229 2 443 "1EA7A6645619538D286FDBED7688AFA7F82E0A51";
  mirror 68 185 124 105 42069 "ACD05B04783AC9B868A07DCF945E49C5792679AA";
  mirror 193 187 91 79 443 "3E59280EA67C918F5AD5CBF7978643BB70A0C169";
  mirror 212 24 100 138 9001 "96070698714DC07AE2B377864625B7EF64E33BF5";
  mirror 65 21 94 13 9001 "509EAB4C5D10C9A9A24B4EA0CE402C047A2D64E6";
  mirror 142 132 157 35 8443 "CA1684516B7FECF3DB76D43FD02F56D8B95E8A69";
  mirror 45 80 171 18 9001 "DA71126E1D0B11605533B7AD399DD5A7EC8E2F0E";
  mirror 23 88 154 69 9001 "90AAC6245388A9A9EC7050810775503004FE40BF";
  mirror 46 166 165 116 9051 "2B1FA70BE95457A0A9DD878D3C05A5FFA45960BF";
  mirror 64 65 1 157 443 "9C0952E6E80F51A2D37F2D3053B7B2D5E186EBB9";
  mirror 64 65 63 77 443 "8C694E170C33A11C91565D9BC1A2F2648E9167C2";
  mirror 94 100 6 11 443 "03E107A3663E912664F4A934DFF451262C218357";
  mirror 142 44 243 133 9001 "019FEB22CE04CBD0489B7F24BE038518B64FA223";
  mirror 96 9 98 88 443 "E237E9F386F14456E99EED36B1FAC4F9F77B0F80";
  mirror 23 141 40 7 9001 "89ECFA01219A76D222EDD68BF3EEB1DCC3A8D2B3";
  mirror 195 176 3 23 8443 "9C61FC0A01401EDF71C4048665E53968E81351FC";
  mirror 104 248 233 233 9001 "25317B5C9B83C574351A8F016DFB4B7053893C97";
  mirror 203 55 81 2 19005 "98697EF93E26DD52CD96D3F998BF20B2A4162291";
  mirror 64 65 1 49 443 "7E338F23CC660D83C0150087473767DAD0FB0556";
  mirror 38 45 67 186 9001 "9215A08C840208C79235D821C8B57BFB33245945";
  mirror 185 227 70 53 443 "B792BEE2B51CC5F8F53139638C8F89AE17D71EB1";
  mirror 90 90 165 58 443 "0106DDA8BE86AAACF769D3E1D30867495E9F3E22";
  mirror 79 237 214 38 9005 "A4E498C6CC34329E607531002A19C5908FEABFD3";
  mirror 217 182 73 157 9001 "F46854EDACCD16828FEAAFC6C6EDDC07DDF04411";
  mirror 178 239 17 187 9001 "E094C5DFC402CE402DADF2D699EC8641B9D5B76E";
  mirror 168 138 183 189 9001 "EBF2AB8FB3B4F70CE57C491A6FF37D7F6659159A";
  mirror 185 50 195 27 27016 "87372BFA3477E25ECC0BC82800338BF92DACFEF9";
  mirror 64 65 63 7 443 "340976A4CBE4B2D8423A8F98914776A85B9151BD";
  mirror 87 98 242 239 8080 "37A5E87EBD0B99B09650B32C8F3E085CF83A6EA7";
  mirror 96 9 98 186 443 "28A791F9E9CFCAD286D42F83EB676481322E4E99";
  mirror 185 220 100 244 9000 "C0E7334A181184ABD07698D04ADC19E15E3EE184";
  mirror 128 0 64 148 8443 "E31B3E63F132961C70C5FCEE2187F4F935391234";
  mirror 185 181 60 39 9001 "FF39B0037CAF4E9A014DB1CC0E4FDEC19B1E6B3A";
  mirror 193 5 87 219 9001 "46DA79FDCCC1BB8AA2D1A6A10A4E59F5A8FB114C";
  mirror 217 156 67 176 19890 "7EA8AB9F5695B89D682760DB0CF03C32F22D5872";
  mirror 109 70 100 245 9020 "E5A4F065BA4E4CB193E50FFD310BA09788A27856";
  mirror 107 189 10 86 9001 "0CADF9650BE6F3CB6A09F29D8B91250D93DD91E6";
  mirror 5 45 99 251 8080 "75C0B7A2650BD317CE0FF4EE37DEA093AAD9019B";
  mirror 64 65 62 160 443 "54EE54565CBDA3793EDB47EC4E5E8C01E2495A36";
  mirror 176 65 134 37 443 "8ECBA648364559FE79DBC70246C0CAABE083B46D";
  mirror 185 243 218 231 443 "3DF62F4EE0A90D59B126EBFA95AB8E79B00A73A3";
  mirror 147 90 234 117 9002 "8885AF6339F9FEB97FEE16C9227582A255A5E89C";
  mirror 94 16 118 23 8443 "502774BA0466D3AE9B7A7A0EA2259CC62B8398A9";
  mirror 94 23 45 103 9001 "EFA4C5E7E9215E8A3C7A8F3C74D3139667DA92A5";
  mirror 45 38 20 240 9005 "1F9A218BF276554927EBEFFE0B86826697CBDDD2";
  mirror 146 190 212 212 9001 "280F964311BBCC5193C70DDF0C2DA3C38D4578C4";
  mirror 176 125 242 131 443 "EABB390323F80D4457BAA5CEEE511455700E929D";
  mirror 205 185 125 239 443 "27A3C6E301B9803F0F57856ADA5FD834DB0412FD";
  mirror 45 9 168 16 443 "4BD7D8D384FF76BCB5256DF41304DA84F77C8BFA";
  mirror 107 189 5 249 5061 "BC7A5E911554477F7346FA9B680250D1D84B14AF";
  mirror 57 128 223 198 9001 "EFC6EC2BD9BBDC77DD38AA2D87FD636DFC26AAC0";
  mirror 45 84 107 44 80 "0B725B5FEBE9F7EE0A7052A3F38CEE8392EFC4AA";
  mirror 57 129 110 6 9200 "B23434F504DF500096CB5E5895495E89F6CB30FD";
  mirror 23 129 64 179 443 "DAD8815C1AE82B1888F44720C9416B1F891B3639";
  mirror 217 116 95 26 9001 "F77D84B0E49F567BFC22AB9BB6E28901D4137CBA";
  mirror 185 129 62 64 9001 "141C317F74D92DA44FAA072F6BFD0C98DEFF9066";
  mirror 66 78 40 91 8500 "6055A518F03989F867DF7C435B61D5776D768B10";
  mirror 64 65 1 22 443 "484E4F9B4865E1A3D772C01930D59694F4BAEF4D";
  mirror 146 19 213 120 443 "99F78512785F45236A35322A1643AA08DC6399B5";
  mirror 37 221 208 216 9100 "43620A053D56582673F74E0325831646E117C009";
  mirror 176 65 149 96 443 "26CD29D07FAE2C27EB316EE551EFC7EF96BA5784";
  mirror 57 131 31 124 9100 "9825D849919114B8E9005C5D093B95F912511A88";
  mirror 64 65 1 152 443 "143AB48271BB0B2BC7AF8FE94B306E70162FD6C1";
  mirror 85 215 249 184 443 "64BCBA882D45CE42B56226564435EA0D364A7281"].

(** Every entry has an address, a usable port and a whole identity, and no
    relay is listed twice. *)
Definition mirror_ok (d : FallbackDir) : bool :=
  (len (ipv4 d) =? 4) && bool_decide (bytes_ok (ipv4 d)) && (0 <? or_port d) && (or_port d <=? U16_MAX) &&
  (len (rsa_identity d) =? 20).

Lemma fallback_dirs_ok :
  forallb mirror_ok FALLBACK_DIRS = true /\ NoDup (map rsa_identity FALLBACK_DIRS) /\ 0 < len FALLBACK_DIRS.
Proof. split; [by vm_compute|]. split; [apply (bool_decide_unpack _); by vm_compute|by vm_compute]. Qed.
