(* ===== verification/DirCircuit.v ===== *)
(** * Directory circuits ([DirCircuit] in [src/src/tor/dir/mod.rs], and what
      [src/src/tor/client.rs] does with one)

    A one-hop circuit to a directory cache: over the guard's channel when one
    is open, to a random fallback mirror otherwise, and to the authorities as
    a last resort.  What channels and circuits offer is the class [Links]; the
    theorem says what each of these ways leaves open. *)
From S2P Require Import Prelude.
From S2P Require Import Text.
From S2P Require Import Consensus.
From S2P Require Import Path.
From S2P Require Import Authority.
From S2P Require Import Fallback.

Definition REACHABILITY_PROBES : nat := 2.
Definition FALLBACK_TRIES : nat := 10.

(** An IPv4 socket address. *)
Definition addr : Type := bytes * Z.

Class Links (W Ch Ci : Type) := {
  connect : W -> addr -> W * result Ch;
  create_fast : W -> Ch -> W * result Ci;
  close_channel : W -> Ch -> W;
  close_circuit : W -> Ci -> W;
  tcp_connect : W -> addr -> W * bool;
}.

(** Which channels and circuits are open: opening adds a new one, closing
    removes one, and nothing else changes. *)
Class LinksLaws (W Ch Ci : Type) `{!Links W Ch Ci, !EqDecision Ch, !EqDecision Ci} := {
  channels : W -> Ch -> bool;
  circuits : W -> Ci -> bool;
  connect_ok w a w' ch : connect w a = (w', Ok ch) ->
    channels w ch = false /\ (forall c, channels w' c = if decide (c = ch) then true else channels w c) /\
    (forall c, circuits w' c = circuits w c);
  connect_err w a w' e : connect w a = (w', Err e) ->
    (forall c, channels w' c = channels w c) /\ (forall c, circuits w' c = circuits w c);
  create_ok w ch w' ci : create_fast w ch = (w', Ok ci) ->
    circuits w ci = false /\ (forall c, circuits w' c = if decide (c = ci) then true else circuits w c) /\
    (forall c, channels w' c = channels w c);
  create_err w ch w' e : create_fast w ch = (w', Err e) ->
    (forall c, channels w' c = channels w c) /\ (forall c, circuits w' c = circuits w c);
  close_channel_eff w ch :
    (forall c, channels (close_channel w ch) c = if decide (c = ch) then false else channels w c) /\
    (forall c, circuits (close_channel w ch) c = circuits w c);
  close_circuit_eff w ci :
    (forall c, circuits (close_circuit w ci) c = if decide (c = ci) then false else circuits w c) /\
    (forall c, channels (close_circuit w ci) c = channels w c);
}.

Module DirCircuit.
Record t (Ch Ci : Type) := Mk { channel : Ch; circuit : Ci; owns_channel : bool }.
Arguments Mk {Ch Ci} _ _ _.
Arguments channel {Ch Ci} _.
Arguments circuit {Ch Ci} _.
Arguments owns_channel {Ch Ci} _.
End DirCircuit.

Section dir_circuit.
Context {W Ch Ci : Type} `{!Links W Ch Ci}.
Abbreviation dir := (DirCircuit.t Ch Ci).

Definition to (w : W) (a : addr) : W * result dir :=
  match connect w a with
  | (w, Err e) => (w, Err e)
  | (w, Ok channel) =>
      match create_fast w channel with
      | (w, Err e) => (close_channel w channel, Err e)
      | (w, Ok circuit) => (w, Ok (DirCircuit.Mk channel circuit true))
      end
  end.

Definition on (w : W) (channel : Ch) : W * result dir :=
  match create_fast w channel with
  | (w, Err e) => (w, Err e)
  | (w, Ok circuit) => (w, Ok (DirCircuit.Mk channel circuit false))
  end.

Definition close (w : W) (d : dir) : W :=
  let w := close_circuit w (DirCircuit.circuit d) in
  if DirCircuit.owns_channel d then close_channel w (DirCircuit.channel d) else w.

Definition auth_addr (a : Authority) : addr := (Authority.ipv4 a, Authority.or_port a).
Definition dir_addr (d : FallbackDir) : addr := (Fallback.ipv4 d, Fallback.or_port d).

(** The authorities, in order. *)
Fixpoint try_authorities (w : W) (auths : list Authority) (last : option io_error) : W * result dir :=
  match auths with
  | [] => (w, Err (match last with Some e => e | None => other_error "no directory server answered" end))
  | auth :: auths =>
      match to w (auth_addr auth) with
      | (w, Ok d) => (w, Ok d)
      | (w, Err e) => try_authorities w auths (Some e)
      end
  end.

(** The random mirrors, with the random words still to come; then the
    authorities. *)
Fixpoint try_mirrors (n : nat) (dirs : list FallbackDir) (w : W) (ds : Rand.draws)
    (last : option io_error) : W * Rand.outcome dir :=
  match n with
  | O => let '(w, r) := try_authorities w AUTHORITIES last in (w, Rand.Done r ds)
  | S n =>
      match Rand.below (len dirs) ds with
      | Rand.Done (Ok index) ds =>
          match dirs !! Z.to_nat index with
          | None => (w, Rand.Panicked)
          | Some entry =>
              match to w (dir_addr entry) with
              | (w, Ok d) => (w, Rand.Done (Ok d) ds)
              | (w, Err e) => try_mirrors n dirs w ds (Some e)
              end
          end
      | Rand.Done (Err e) ds => (w, Rand.Done (Err e) ds)
      | Rand.Waiting => (w, Rand.Waiting)
      | Rand.Panicked => (w, Rand.Panicked)
      end
  end.

Definition to_random_fallback (w : W) (ds : Rand.draws) : W * Rand.outcome dir :=
  try_mirrors FALLBACK_TRIES FALLBACK_DIRS w ds None.

(** [TorClient::dir_circuit]: [guard] is the guard's channel, if one is
    open. *)
Definition dir_circuit (guard : option Ch) (w : W) (ds : Rand.draws) : W * Rand.outcome dir :=
  match guard with
  | Some channel =>
      match on w channel with
      | (w, Ok d) => (w, Rand.Done (Ok d) ds)
      | (w, Err _) => to_random_fallback w ds
      end
  | None => to_random_fallback w ds
  end.

(** [network_reachable]: bare connections to random mirrors. *)
Fixpoint reachable (n : nat) (dirs : list FallbackDir) (w : W) (ds : Rand.draws) : W * Rand.outcome bool :=
  match n with
  | O => (w, Rand.Done (Ok false) ds)
  | S n =>
      match Rand.below (len dirs) ds with
      | Rand.Done (Err _) ds => (w, Rand.Done (Ok true) ds)
      | Rand.Done (Ok index) ds =>
          match dirs !! Z.to_nat index with
          | None => (w, Rand.Panicked)
          | Some entry =>
              let '(w, answered) := tcp_connect w (dir_addr entry) in
              if answered then (w, Rand.Done (Ok true) ds) else reachable n dirs w ds
          end
      | Rand.Waiting => (w, Rand.Waiting)
      | Rand.Panicked => (w, Rand.Panicked)
      end
  end.
Definition network_reachable (w : W) (ds : Rand.draws) : W * Rand.outcome bool :=
  reachable REACHABILITY_PROBES FALLBACK_DIRS w ds.
End dir_circuit.

(** ** What is left open *)
Section proofs.
Context {W Ch Ci : Type} `{!Links W Ch Ci, !EqDecision Ch, !EqDecision Ci, !LinksLaws W Ch Ci}.

(** The same channels and circuits are open. *)
Definition same_open (w w' : W) : Prop :=
  (forall c, channels w' c = channels w c) /\ (forall c, circuits w' c = circuits w c).

(** [d] and nothing else has been opened. *)
Definition opened (w w' : W) (d : DirCircuit.t Ch Ci) : Prop :=
  (forall c, channels w' c = (DirCircuit.owns_channel d && bool_decide (c = DirCircuit.channel d)) || channels w c) /\
  (forall c, circuits w' c = bool_decide (c = DirCircuit.circuit d) || circuits w c) /\
  circuits w (DirCircuit.circuit d) = false /\
  (DirCircuit.owns_channel d = true -> channels w (DirCircuit.channel d) = false).

#[export] Instance same_open_preorder : PreOrder same_open.
Proof.
  split; [by split|]. intros w1 w2 w3 [A B] [C D]. split; intros c; by rewrite ?C, ?D.
Qed.

Lemma opened_after w w1 w2 d : same_open w w1 -> opened w1 w2 d -> opened w w2 d.
Proof.
  intros [A B] (C & D & E & F). split_and!.
  - intros c. by rewrite C, A.
  - intros c. by rewrite D, B.
  - by rewrite <- B.
  - intros O. rewrite <- A. by apply F.
Qed.

Definition settled (w w' : W) (r : result (DirCircuit.t Ch Ci)) : Prop :=
  match r with Ok d => opened w w' d | Err _ => same_open w w' end.

Lemma settled_after w w1 w2 r : same_open w w1 -> settled w1 w2 r -> settled w w2 r.
Proof. intros S. destruct r; cbn [settled]; [by apply opened_after|intros T; by etrans]. Qed.

Lemma if_eq_bool {A} `{!EqDecision A} (x y : A) (b : bool) :
  (if decide (x = y) then true else b) = bool_decide (x = y) || b.
Proof. by case_decide; [rewrite bool_decide_true|rewrite bool_decide_false]. Qed.

Lemma on_settles w channel : let '(w', r) := on w channel in
  settled w w' r /\ (forall d, r = Ok d -> DirCircuit.owns_channel d = false).
Proof.
  unfold on. destruct (create_fast w channel) as [w1 [ci|e]] eqn:E.
  - destruct (create_ok w channel w1 ci E) as (N & A & B). split; [|by intros d [= <-]].
    split_and!; cbn [DirCircuit.owns_channel DirCircuit.circuit andb orb]; [done| |done|done].
    intros c. by rewrite A, if_eq_bool.
  - destruct (create_err w channel w1 e E). by split.
Qed.

Lemma to_settles w a : let '(w', r) := to w a in
  settled w w' r /\ (forall d, r = Ok d -> DirCircuit.owns_channel d = true).
Proof.
  unfold to. destruct (connect w a) as [w1 [ch|e]] eqn:E1; cycle 1.
  { destruct (connect_err w a w1 e E1). by split. }
  destruct (connect_ok w a w1 ch E1) as (N & A & B).
  destruct (create_fast w1 ch) as [w2 [ci|e]] eqn:E2.
  - destruct (create_ok w1 ch w2 ci E2) as (N2 & A2 & B2). split; [|by intros d [= <-]].
    split_and!; cbn [DirCircuit.owns_channel DirCircuit.circuit DirCircuit.channel andb].
    + intros c. by rewrite B2, A, if_eq_bool.
    + intros c. by rewrite A2, B, if_eq_bool.
    + by rewrite <- B.
    + done.
  - destruct (create_err w1 ch w2 e E2) as [A2 B2]. destruct (close_channel_eff w2 ch) as [A3 B3].
    split; [|done]. split; intros c; rewrite ?A3, ?B3, ?A2, ?B2, ?A, ?B; [|done].
    case_decide; [by subst|done].
Qed.

Lemma authorities_settle auths : forall w last, let '(w', r) := try_authorities w auths last in
  settled w w' r /\ (forall d, r = Ok d -> DirCircuit.owns_channel d = true).
Proof.
  induction auths as [|auth auths IH]; intros w last; cbn [try_authorities]; [by split|].
  pose proof (to_settles w (auth_addr auth)) as T. destruct (to w _) as [w1 [d|e]]; [done|].
  destruct T as [S _]. specialize (IH w1 (Some e)). destruct (try_authorities w1 auths _) as [w2 r].
  destruct IH as [IH1 IH2]. split; [by eapply settled_after|done].
Qed.

(** A draw below the length of the table always names an entry. *)
Lemma below_range n ds index rest : Rand.below n ds = Rand.Done (Ok index) rest -> 0 <= index < n.
Proof.
  unfold Rand.below. destruct (Z.ltb_spec 0 n); [|done].
  induction ds as [|[v|e] ds IH]; cbn [Rand.below_loop]; [done| |done].
  case_match; [|done]. intros [= <- _]. apply Z.mod_pos_bound. lia.
Qed.

Lemma mirrors_settle n dirs : forall w ds last,
  0 < len dirs -> let '(w', o) := try_mirrors n dirs w ds last in
  match o with
  | Rand.Done r _ => settled w w' r /\ (forall d, r = Ok d -> DirCircuit.owns_channel d = true)
  | Rand.Waiting => same_open w w'
  | Rand.Panicked => False
  end.
Proof.
  induction n as [|n IH]; intros w ds last Hd; cbn [try_mirrors].
  { pose proof (authorities_settle AUTHORITIES w last) as A. by destruct (try_authorities _ _ _) as [w' r]. }
  destruct (Rand.below (len dirs) ds) as [[index|e] rest| |] eqn:R; [|by split|done|].
  - apply below_range in R. destruct (dirs !! Z.to_nat index) as [entry|] eqn:L; cycle 1.
    { apply lookup_ge_None in L. unfold len in R. lia. }
    pose proof (to_settles w (dir_addr entry)) as T. destruct (to w _) as [w1 [d|e]]; [done|].
    destruct T as [S _]. specialize (IH w1 rest (Some e) Hd). destruct (try_mirrors n dirs w1 rest _) as [w2 o].
    destruct o as [r r'| |]; [destruct IH; split; [by eapply settled_after|done]|by etrans|done].
  - unfold Rand.below in R. rewrite (proj2 (Z.ltb_lt _ _)) in R by done. clear - R.
    induction ds as [|[v|e] ds IH]; cbn [Rand.below_loop] in R; [done| |done]. case_match; [done|by apply IH].
Qed.

Lemma close_undoes w w1 w' d :
  opened w w1 d -> (forall c, channels w' c = channels w1 c) -> (forall c, circuits w' c = circuits w1 c) ->
  same_open w (close w' d).
Proof.
  intros (A & B & C & D) E F. unfold close. destruct (close_circuit_eff w' (DirCircuit.circuit d)) as [G H].
  set (w2 := close_circuit w' _) in *. destruct (DirCircuit.owns_channel d) eqn:O.
  - destruct (close_channel_eff w2 (DirCircuit.channel d)) as [I J]. split; intros c.
    + rewrite I, H, E, A. case_decide; [subst; by rewrite D|by rewrite bool_decide_false].
    + rewrite J, G, F, B. case_decide; [by subst|by rewrite bool_decide_false].
  - split; intros c.
    + by rewrite H, E, A.
    + rewrite G, F, B. case_decide; [by subst|by rewrite bool_decide_false].
Qed.

(** A directory circuit takes nothing with it. However the relays, the mirrors and the authorities answer and whatever the draws, [dir_circuit] never panics; when it fails, the channels and circuits that are open are those that were; when it succeeds, just the circuit it returns has been opened, and with it a channel only if it is the circuit's own; and closing that circuit later -- whatever it was used for, as long as nothing else was opened or closed -- leaves exactly what was open before, the guard's channel included. *)
Theorem dir_circuit_leaves_nothing guard w ds :
  let '(w', o) := dir_circuit guard w ds in
  match o with
  | Rand.Done (Ok d) _ =>
      opened w w' d /\
      (DirCircuit.owns_channel d = false -> guard = Some (DirCircuit.channel d)) /\
      forall later, same_open w' later -> same_open w (close later d)
  | Rand.Done (Err _) _ | Rand.Waiting => same_open w w'
  | Rand.Panicked => False
  end.
Proof.
  assert (M : forall w1, let '(w', o) := to_random_fallback w1 ds in
    match o with
    | Rand.Done r _ => settled w1 w' r /\ (forall d, r = Ok d -> DirCircuit.owns_channel d = true)
    | Rand.Waiting => same_open w1 w'
    | Rand.Panicked => False
    end) by (intros w1; apply mirrors_settle; by vm_compute).
  assert (F : forall w1, same_open w w1 -> let '(w', o) := to_random_fallback w1 ds in
    match o with
    | Rand.Done (Ok d) _ =>
        opened w w' d /\ (DirCircuit.owns_channel d = false -> guard = Some (DirCircuit.channel d)) /\
        forall later, same_open w' later -> same_open w (close later d)
    | Rand.Done (Err _) _ | Rand.Waiting => same_open w w'
    | Rand.Panicked => False
    end).
  { intros w1 S. specialize (M w1). destruct (to_random_fallback w1 ds) as [w2 [[d|e] rest| |]];
      [|destruct M; by etrans|by etrans|done].
    destruct M as [M O]. pose proof (opened_after _ _ _ _ S M) as Op. split_and!; [done| |].
    - by rewrite O.
    - intros later [A B]. by apply (close_undoes w w2). }
  unfold dir_circuit. destruct guard as [ch|]; [|by apply F].
  pose proof (on_settles w ch) as T. unfold on in *. destruct (create_fast w ch) as [w1 [ci|e]].
  - destruct T as [T _]. split_and!; [done|done|]. intros later [A B]. by apply (close_undoes w w1).
  - destruct T as [S _]. by apply F.
Qed.
End proofs.

(** ** Links to try it with

    A network where only some addresses answer, and where one channel refuses
    circuits. *)
Module DirCircuitDemo.

Record network := Net { answering : list addr; refusing : list nat; chans : list nat; circs : list nat }.

Definition fresh_id (l : list nat) : nat := S (max_list l).

Lemma fresh_id_new l : fresh_id l ∉ l.
Proof.
  assert (B : forall x l, x ∈ l -> (x <= max_list l)%nat) by (induction 1; cbn; lia).
  intros H%B. unfold fresh_id in H. lia.
Qed.

Definition without (x : nat) (l : list nat) : list nat := filter (fun y => y <> x) l.

#[export] Instance toy_links : Links network nat nat := {|
  connect := fun w a =>
    if bool_decide (a ∈ answering w)
    then (Net (answering w) (refusing w) (fresh_id (chans w) :: chans w) (circs w), Ok (fresh_id (chans w)))
    else (w, Err (IoError ConnectionRefused (Message "connection refused")));
  create_fast := fun w ch =>
    if bool_decide (ch ∈ refusing w) then (w, Err (IoError TimedOut (Message "no CREATED_FAST")))
    else (Net (answering w) (refusing w) (chans w) (fresh_id (circs w) :: circs w), Ok (fresh_id (circs w)));
  close_channel := fun w ch => Net (answering w) (refusing w) (without ch (chans w)) (circs w);
  close_circuit := fun w ci => Net (answering w) (refusing w) (chans w) (without ci (circs w));
  tcp_connect := fun w a => (w, bool_decide (a ∈ answering w));
|}.

Lemma cons_elem (x c : nat) l : bool_decide (c ∈ x :: l) = if decide (c = x) then true else bool_decide (c ∈ l).
Proof.
  case_decide as D; [apply bool_decide_true|apply bool_decide_ext]; rewrite elem_of_cons; [by left|tauto].
Qed.

Lemma without_elem (x c : nat) l : bool_decide (c ∈ without x l) = if decide (c = x) then false else bool_decide (c ∈ l).
Proof.
  unfold without. case_decide as D; [apply bool_decide_false|apply bool_decide_ext]; rewrite list_elem_of_filter; tauto.
Qed.

#[export] Instance toy_links_laws : LinksLaws network nat nat.
Proof.
  refine {| channels := fun w c => bool_decide (c ∈ chans w); circuits := fun w c => bool_decide (c ∈ circs w) |}; cbn.
  - intros w a w' ch. case_bool_decide; [|done]. intros [= <- <-]. split_and!; [|intros c; apply cons_elem|done].
    apply bool_decide_false, fresh_id_new.
  - intros w a w' e. case_bool_decide; [done|]. by intros [= <- _].
  - intros w ch w' ci. case_bool_decide; [done|]. intros [= <- <-]. split_and!; [|intros c; apply cons_elem|done].
    apply bool_decide_false, fresh_id_new.
  - intros w ch w' e. case_bool_decide; [|done]. by intros [= <- _].
  - intros w ch. split; [intros c; apply without_elem|done].
  - intros w ci. split; [intros c; apply without_elem|done].
Defined.

(** The guard's channel 7 refuses circuits, no mirror answers, and the second
    authority does. *)
Definition second_authority : addr := auth_addr (nth 1 AUTHORITIES (hd (MkAuthority [] [] [] [] 0 0) AUTHORITIES)).
Definition lonely : network := Net [second_authority] [7%nat] [7%nat] [].
Definition words : Rand.draws := replicate 20 (Ok 5).
Definition reached : DirCircuit.t nat nat := DirCircuit.Mk 8%nat 1%nat true.

Lemma dir_circuit_witness :
  dir_circuit (Some 7%nat) lonely words =
    (Net [second_authority] [7%nat] [8; 7]%nat [1%nat], Rand.Done (Ok reached) (replicate 10 (Ok 5))) /\
  same_open lonely (close (Net [second_authority] [7%nat] [8; 7]%nat [1%nat]) reached).
Proof.
  assert (E : dir_circuit (Some 7%nat) lonely words =
    (Net [second_authority] [7%nat] [8; 7]%nat [1%nat], Rand.Done (Ok reached) (replicate 10 (Ok 5)))) by (by vm_compute).
  split; [exact E|]. pose proof (dir_circuit_leaves_nothing (Some 7%nat) lonely words) as T.
  rewrite E in T. destruct T as (_ & _ & T). by apply T.
Defined.

(** On a guard channel that takes circuits, the channel is left to the guard. *)
Example guard_keeps_its_channel :
  let '(w, o) := dir_circuit (Some 7%nat) (Net [] [] [7%nat] []) words in
  match o with
  | Rand.Done (Ok d) _ => chans (close w d) = [7%nat] /\ circs (close w d) = []
  | _ => False
  end.
Proof. by vm_compute. Qed.
End DirCircuitDemo.
