(* ===== verification/Maintain.v ===== *)
(** * The maintenance thread ([src/src/tor/maintain.rs])

    When the next consensus is fetched, and what one tick of the thread does.
    Times are unix seconds in 64 bits.  The theorems say that a refresh is
    planned for while the consensus is stale but valid, and how soon a failed
    one is tried again. *)
From S2P Require Import Prelude.
From S2P Require Import Cc.
From S2P Require Import Consensus.
From S2P Require Import Path.

Definition RETRY_MIN : Z := 300.
Definition RETRY_MAX : Z := 1800.
Definition EXPIRED_RETRY : Z := 60.
Definition NOT_MODIFIED_RETRY : Z := 900.

(** [u64] arithmetic of a release build. *)
Definition u64 (z : Z) : Z := z mod 2 ^ 64.

(** ** The refresh window *)

Definition refresh_window (valid_after fresh_until valid_until : Z) : Z * Z :=
  if (fresh_until <=? valid_after) || (valid_until <=? fresh_until) then (0, 0)
  else
    let interval := fresh_until - valid_after in
    let start := u64 (fresh_until + u64 (interval * 3) / 4) in
    if valid_until <=? start then (start, start)
    else (start, u64 (start + u64 ((valid_until - start) * 7) / 8)).

(** [None] while the random words given run out. *)
Definition pick_within (start stop : Z) (ds : Rand.draws) : option Z :=
  if stop <=? start then Some start
  else
    match Rand.below (stop - start) ds with
    | Rand.Done (Ok offset) _ => Some (u64 (start + offset))
    | Rand.Done (Err _) _ => Some (u64 (start + (stop - start) / 2))
    | Rand.Waiting | Rand.Panicked => None
    end.

Definition plan_refresh (c : Consensus.t) (ds : Rand.draws) : option Z :=
  let '(start, stop) := refresh_window (Consensus.valid_after c) (Consensus.fresh_until c) (Consensus.valid_until c) in
  pick_within start stop ds.

(** ** The loop *)

Inductive Action :=
  | Prune
  | RetryPrimaryGuard
  | ProbeQuietCircuits
  | NoteBadCircuits
  | RefreshConsensus
  | PrefetchHsdirRing.

#[export] Instance Action_eq_dec : EqDecision Action.
Proof. solve_decision. Defined.

Module Maintain.
Record t := Mk { next_refresh : Z; backoff : Z }.
End Maintain.

(** Before the loop: plan, and prune what earlier runs left. *)
Definition start_up (planned : Z) : list Action * Maintain.t :=
  ([Prune], Maintain.Mk planned RETRY_MIN).

(** What one round meets: the clock, what refreshing gives, the clock after
    it, whether the consensus then held is live, and the plan for it. *)
Record Round := MkRound {
  now : Z;
  refreshed : result unit;
  after : Z;
  live : bool;
  planned : Z;
}.

Definition tick (r : Round) (s : Maintain.t) : list Action * Maintain.t :=
  let upkeep := [RetryPrimaryGuard; ProbeQuietCircuits; NoteBadCircuits] in
  if now r <? Maintain.next_refresh s then (upkeep, s)
  else
    match refreshed r with
    | Ok _ => (upkeep ++ [RefreshConsensus; Prune; PrefetchHsdirRing], Maintain.Mk (planned r) RETRY_MIN)
    | Err e =>
        if bool_decide (kind e = AlreadyExists)
        then (upkeep ++ [RefreshConsensus], Maintain.Mk (u64 (after r + NOT_MODIFIED_RETRY)) (Maintain.backoff s))
        else
          let delay := if live r then Maintain.backoff s else EXPIRED_RETRY in
          (upkeep ++ [RefreshConsensus],
           Maintain.Mk (u64 (after r + delay)) (Z.min (u64 (Maintain.backoff s * 2)) RETRY_MAX))
    end.

Fixpoint run (rounds : list Round) (s : Maintain.t) : list Action * Maintain.t :=
  match rounds with
  | [] => ([], s)
  | r :: rounds =>
      let '(actions, s) := tick r s in
      let '(more, s) := run rounds s in
      (actions ++ more, s)
  end.

(** ** When a refresh is planned for *)

Definition sensible (c : Consensus.t) : Prop :=
  0 <= Consensus.valid_after c /\ Consensus.valid_after c < Consensus.fresh_until c /\
  Consensus.fresh_until c < Consensus.valid_until c /\ Consensus.valid_until c < 2 ^ 61.

Lemma wrap_small z : 0 <= z < 2 ^ 64 -> u64 z = z.
Proof. apply Z.mod_small. Qed.

Lemma window_spec a f u :
  0 <= a -> a < f -> f < u -> u < 2 ^ 61 ->
  let s := f + (f - a) * 3 / 4 in
  refresh_window a f u = (s, if u <=? s then s else s + (u - s) * 7 / 8).
Proof.
  intros Ha Hf Hu Hb s. unfold refresh_window.
  rewrite (proj2 (Z.leb_gt f a)), (proj2 (Z.leb_gt u f)) by lia. cbn [orb].
  assert (Hs : f <= s <= f + (f - a)) by (unfold s; split; [apply Z.le_sub_le_add_l; rewrite Z.sub_diag; apply Z.div_pos; lia|];
    apply Zplus_le_compat_l, Z.div_le_upper_bound; lia).
  rewrite (wrap_small ((f - a) * 3)) by lia. fold s. rewrite (wrap_small s) by lia.
  destruct (Z.leb_spec u s); [done|]. rewrite (wrap_small ((u - s) * 7)) by lia.
  rewrite wrap_small; [done|]. assert (0 <= (u - s) * 7 / 8 <= u - s); [|lia].
  split; [apply Z.div_pos; lia|apply Z.div_le_upper_bound; lia].
Qed.

Lemma draw_range n ds index rest : Rand.below n ds = Rand.Done (Ok index) rest -> 0 <= index < n.
Proof.
  unfold Rand.below. destruct (Z.ltb_spec 0 n); [|done].
  induction ds as [|[v|e] ds IH]; cbn [Rand.below_loop]; [done| |done].
  case_match; [|done]. intros [= <- _]. apply Z.mod_pos_bound. lia.
Qed.

(** The consensus is replaced in time. Of a consensus whose times are in order (and before the year 2 to the 61 seconds), the refresh is planned, whatever the draw and even when the random source fails, no earlier than three quarters of its fresh interval past fresh-until; and if that is before it expires, then strictly before it expires, with an eighth of the remaining time to spare; of a consensus whose times are not in order, at once. *)
Theorem refresh_is_planned_in_time c ds at_ :
  plan_refresh c ds = Some at_ ->
  (sensible c ->
     let start := Consensus.fresh_until c + (Consensus.fresh_until c - Consensus.valid_after c) * 3 / 4 in
     Consensus.fresh_until c <= start <= at_ /\
     (Consensus.valid_until c <= start -> at_ = start) /\
     (start < Consensus.valid_until c ->
        at_ <= start + (Consensus.valid_until c - start) * 7 / 8 < Consensus.valid_until c)) /\
  (Consensus.fresh_until c <= Consensus.valid_after c \/ Consensus.valid_until c <= Consensus.fresh_until c -> at_ = 0).
Proof.
  intros E. split.
  - intros (Ha & Hf & Hu & Hb) start. unfold plan_refresh in E. rewrite window_spec in E by done. cbv zeta in E.
    fold start in E. set (u := Consensus.valid_until c) in *.
    assert (Hs : Consensus.fresh_until c <= start <= Consensus.fresh_until c + (Consensus.fresh_until c - Consensus.valid_after c)).
    { unfold start. assert (0 <= (Consensus.fresh_until c - Consensus.valid_after c) * 3 / 4 <=
        Consensus.fresh_until c - Consensus.valid_after c); [|lia].
      split; [apply Z.div_pos; lia|apply Z.div_le_upper_bound; lia]. }
    clearbody start. unfold pick_within in E. destruct (Z.leb_spec u start) as [Hle|Hlt].
    { rewrite (proj2 (Z.leb_le _ _)) in E by lia. injection E as <-. lia. }
    assert (Hw : 0 <= (u - start) * 7 / 8 < u - start).
    { split; [apply Z.div_pos; lia|apply Z.div_lt_upper_bound; lia]. }
    set (w := (u - start) * 7 / 8) in *. clearbody w. destruct (Z.leb_spec (start + w) start).
    { injection E as <-. lia. }
    destruct (Rand.below _ ds) as [[offset|e] rest| |] eqn:R; [| |done..].
    + apply draw_range in R. rewrite wrap_small in E by lia. injection E as <-. lia.
    + assert (0 <= (start + w - start) / 2 <= w) by (split; [apply Z.div_pos; lia|apply Z.div_le_upper_bound; lia]).
      rewrite wrap_small in E by lia. injection E as <-. lia.
  - intros H. unfold plan_refresh, refresh_window in E.
    assert ((Consensus.fresh_until c <=? Consensus.valid_after c) ||
            (Consensus.valid_until c <=? Consensus.fresh_until c) = true) as Hb
      by (apply orb_true_iff; rewrite !Z.leb_le; tauto).
    rewrite Hb in E. by injection E as <-.
Qed.

(** ** How soon a failure is retried *)

Definition schedule_ok (s : Maintain.t) : Prop := RETRY_MIN <= Maintain.backoff s <= RETRY_MAX.

Lemma tick_keeps r s : schedule_ok s -> schedule_ok (snd (tick r s)).
Proof.
  unfold schedule_ok, RETRY_MIN, RETRY_MAX. intros H. unfold tick. case_match; [done|].
  destruct (refreshed r) as [[]|e]; [cbn; unfold RETRY_MIN; lia|]. case_bool_decide; [done|].
  cbn [snd Maintain.backoff]. rewrite wrap_small by lia. unfold RETRY_MAX. lia.
Qed.

Lemma run_keeps rounds : forall s, schedule_ok s -> schedule_ok (snd (run rounds s)).
Proof.
  induction rounds as [|r rounds IH]; intros s H; [done|]. cbn [run].
  pose proof (tick_keeps r s H) as T. destruct (tick r s) as [a s1]. specialize (IH s1 T).
  by destruct (run rounds s1).
Qed.

(** The maintenance thread never stops trying and never hammers. In every state the loop can reach, a tick before the appointed time does the upkeep only; one at or after it asks for a consensus once, and then the next request is due: as planned for the new consensus after a success, with the cache pruned and the ring prefetched; fifteen minutes on after an answer of not-modified, with the backoff as it was; otherwise, after a failure, between five minutes and half an hour on while the consensus held is live, doubling up to that, and one minute on once it has expired. *)
Theorem retries_are_scheduled planned_first rounds r :
  let s := snd (run rounds (snd (start_up planned_first))) in
  let '(actions, s') := tick r s in
  0 <= after r < 2 ^ 63 ->
  schedule_ok s' /\
  (now r < Maintain.next_refresh s -> RefreshConsensus ∉ actions /\ s' = s) /\
  (Maintain.next_refresh s <= now r ->
     length (filter (fun a => a = RefreshConsensus) actions) = 1%nat /\
     match refreshed r with
     | Ok _ => Prune ∈ actions /\ s' = Maintain.Mk (planned r) RETRY_MIN
     | Err e =>
         if bool_decide (kind e = AlreadyExists)
         then s' = Maintain.Mk (after r + NOT_MODIFIED_RETRY) (Maintain.backoff s)
         else
           Maintain.next_refresh s' = after r + (if live r then Maintain.backoff s else EXPIRED_RETRY) /\
           after r + 60 <= Maintain.next_refresh s' <= after r + 1800 /\
           Maintain.backoff s' = Z.min (2 * Maintain.backoff s) RETRY_MAX
     end).
Proof.
  intros s. assert (Hs : schedule_ok s).
  { apply run_keeps. unfold schedule_ok, RETRY_MIN, RETRY_MAX. cbn [snd start_up Maintain.backoff].
    unfold RETRY_MIN. lia. }
  pose proof (tick_keeps r s Hs) as T. clearbody s. revert T. unfold tick.
  destruct (Z.ltb_spec (now r) (Maintain.next_refresh s)) as [Hb|Hb]; [intros T Ha|].
  { split; [exact T|]. split; [|intros ?; exfalso; lia]. intros _. split; [|done].
    apply (bool_decide_unpack _). by vm_compute. }
  unfold schedule_ok, RETRY_MIN, RETRY_MAX in Hs. destruct (refreshed r) as [[]|e]; [intros T Ha|].
  { split; [exact T|]. split; [intros ?; exfalso; lia|]. intros _. split; [done|]. split; [|done].
    cbn [app]. rewrite !elem_of_cons. tauto. }
  case_bool_decide; intros T Ha; (split; [exact T|]); (split; [intros ?; exfalso; lia|]); intros _; (split; [done|]).
  - unfold NOT_MODIFIED_RETRY. by rewrite wrap_small by lia.
  - cbn [Maintain.next_refresh Maintain.backoff]. unfold RETRY_MAX, EXPIRED_RETRY.
    rewrite !wrap_small by (destruct (live r); lia). split; [done|].
    split; [destruct (live r); lia|]. f_equal. lia.
Qed.

Module MaintainDemo.

(** The worked example of the specification: valid at 1:00, fresh until 2:00,
    expiring at 4:00. *)
Definition example : Consensus.t := Consensus.Mk 3600 7200 14400 [] Params.default None None.

Lemma planned_witness :
  plan_refresh example [Ok 1000000] = Some (9900 + 1000000 mod 3937) /\
  9900 <= 9900 + 1000000 mod 3937 < 14400.
Proof.
  assert (E : plan_refresh example [Ok 1000000] = Some (9900 + 1000000 mod 3937)) by (by vm_compute).
  split; [exact E|]. pose proof (refresh_is_planned_in_time example [Ok 1000000] _ E) as [H _].
  destruct (H ltac:(split_and!; by vm_compute)) as ([_ H1] & _ & H2).
  split; [exact H1|]. specialize (H2 ltac:(by vm_compute)). destruct H2 as [H2 H3].
  eapply Z.le_lt_trans; [exact H2|exact H3].
Defined.

Definition failing (t : Z) : Round := MkRound t (Err (other_error "no directory server answered")) (t + 1) true 0.
Definition failures : list Round := [failing 100; failing 500; failing 1200; failing 2500].

Lemma retries_witness :
  let '(actions, s) := tick (failing 4400) (snd (run failures (snd (start_up 0)))) in
  Maintain.next_refresh s = 4401 + 1800 /\ actions = [RetryPrimaryGuard; ProbeQuietCircuits; NoteBadCircuits; RefreshConsensus].
Proof.
  pose proof (retries_are_scheduled 0 failures (failing 4400)) as H. cbv zeta in H.
  assert (E : tick (failing 4400) (snd (run failures (snd (start_up 0)))) =
    ([RetryPrimaryGuard; ProbeQuietCircuits; NoteBadCircuits; RefreshConsensus], Maintain.Mk 6201 1800)) by (by vm_compute).
  rewrite E in H |- *. split; [|reflexivity].
  destruct (H ltac:(split; by vm_compute)) as (_ & _ & F).
  destruct (F ltac:(by vm_compute)) as [_ [F1 _]]. rewrite F1. by vm_compute.
Defined.
End MaintainDemo.
