(* ===== verification/OnionClient.v ===== *)
(** * Onion services in the client ([src/src/tor/client.rs])

    The ring of directories, descriptors and their cache, and the rendezvous
    circuits streams share.  What the network, the clock and the directory
    answer is the [World], asked at numbered moments; while a thread waits for
    an answer it holds no lock, and the other threads of the client may then
    run any of the three sections that touch the shared circuits.  The
    theorems say that no circuit is lost and none is used for another service,
    and that a descriptor in hand is an authentic one. *)
From S2P Require Import Prelude.
From S2P Require Import Text.
From S2P Require Import Crypto.
From S2P Require Import Util.
From S2P Require Import Computation.
From S2P Require Import Consensus.
From S2P Require Import Field25519.
From S2P Require Import Ed25519Point.
From S2P Require Import Onion.
From S2P Require Import Path.
From S2P Require Import Pool.
From S2P Require Import Descriptor.
From S2P Require Import Rendezvous.
From S2P Require Import Circuit.

(** Seconds, as the program's [Instant]s here. *)
Definition MAX_CIRCUIT_AGE : Z := 600.
Definition HSDIR_TRIES : nat := 3.
Definition HSDIR_PARALLEL : nat := 2.
Definition CONNECT_ATTEMPTS : nat := 3.
Definition MAX_DESCRIPTOR_BYTES : Z := 50 * 1024.

(** ** The shared rendezvous circuits *)

Record PooledOnionCircuit := MkPooled { circuit : nat; built : Z }.

(** What happened to circuits: a rendezvous circuit was established for a
    service, closed, or let go of by a [retain] at a moment. *)
Inductive Event :=
  | Established (key : bytes) (h : nat)
  | Closed (h : nat)
  | Dropped (moment : nat) (entry : PooledOnionCircuit).

Module Tables.
Record t := Mk {
  open : gmap bytes PooledOnionCircuit;
  in_use : nat;                          (* Pool::set_onion_in_use *)
  next : nat;
  log : list Event;
}.
End Tables.

Record HsdirRing := MkRing {
  period : TimePeriod.t;
  ring_valid_after : Z;
  nodes : list HsDir.RingNode;
  n_replicas : nat;
  spread_fetch : nat;
}.

Record CachedDescriptor := MkCached {
  descriptor : Descriptor.t;
  cached_period : Z;
  expires_at : Z;
}.

(** A section another thread runs. *)
Inductive Section_ :=
  | Reusing
  | Admitting (key : bytes)      (* with a circuit it has just established *)
  | Discarding (key : bytes).

Record World := MkWorld {
  w_consensus : nat -> Consensus.t;
  w_now : nat -> Z;                                           (* Instant::now *)
  w_unix : nat -> Z;                                          (* now_unix *)
  w_dir_circuit : nat -> result unit;
  w_ed_ids : nat -> list bytes -> gmap bytes bytes;           (* Directory::microdesc_ed_ids *)
  w_order : nat -> list bytes -> list bytes;                  (* in what order the threads of a group answer *)
  w_fetch : nat -> bytes -> bytes -> result bytes;            (* relay_for, build_circuit_to, fetch::get, close *)
  w_establish : nat -> Descriptor.t -> bytes -> unit + Failure;  (* rendezvous::establish *)
  w_is_closed : nat -> nat -> bool;                           (* Circuit::is_closed *)
  w_begin : nat -> nat -> Z -> result nat;                    (* begin_stream_onion *)
  w_others : nat -> list Section_;
}.

Section tables.
Context (w : World).

(** [!c.circuit.is_closed() && c.built.elapsed() < MAX_CIRCUIT_AGE] *)
Definition retained (i : nat) (c : PooledOnionCircuit) : bool :=
  negb (w_is_closed w i (circuit c)) && (w_now w i - built c <? MAX_CIRCUIT_AGE).

Definition retain (i : nat) (t : Tables.t) : Tables.t :=
  let gone := filter (fun kc => retained i (snd kc) = false) (map_to_list (Tables.open t)) in
  t{{Tables.open := filter (fun kc => retained i (snd kc) = true) (Tables.open t)}}
   {{Tables.log := Tables.log t ++ map (fun kc => Dropped i (snd kc)) gone}}.

Definition set_in_use (t : Tables.t) : Tables.t := t{{Tables.in_use := size (Tables.open t)}}.

Definition note_closed (h : nat) (t : Tables.t) : Tables.t := t{{Tables.log := Tables.log t ++ [Closed h] }}.

(** The first section of [onion_circuit]. *)
Definition reuse (i : nat) (key : bytes) (t : Tables.t) : Tables.t * option nat :=
  let t := set_in_use (retain i t) in
  (t, c ← Tables.open t !! key; Some (circuit c)).

(** [min_by_key]: the first of the least. *)
Fixpoint oldest (l : list (bytes * PooledOnionCircuit)) : option (bytes * PooledOnionCircuit) :=
  match l with
  | [] => None
  | kc :: l =>
      match oldest l with
      | Some kc' => if built (snd kc') <? built (snd kc) then Some kc' else Some kc
      | None => Some kc
      end
  end.

(** The [while] of the second section; every round removes one. *)
Fixpoint evict (fuel : nat) (t : Tables.t) : Tables.t :=
  match fuel with
  | O => t
  | S fuel =>
      if (MAX_CIRCUITS <=? size (Tables.open t))%nat then
        match oldest (map_to_list (Tables.open t)) with
        | Some (key, c) =>
            evict fuel (note_closed (circuit c) (t{{Tables.open := delete key (Tables.open t)}}))
        | None => t
        end
      else t
  end.

(** The second section of [onion_circuit], with the circuit [h]. *)
Definition admit_circuit (i : nat) (key : bytes) (h : nat) (t : Tables.t) : Tables.t :=
  let t := retain i t in
  let t := evict (size (Tables.open t)) t in
  let displaced := Tables.open t !! key in
  let t := t{{Tables.open := <[key := MkPooled h (w_now w i)]> (Tables.open t)}} in
  let t := match displaced with Some c => note_closed (circuit c) t | None => t end in
  set_in_use t.

(** [discard_onion_circuit]. *)
Definition discard (key : bytes) (t : Tables.t) : Tables.t :=
  let retired := Tables.open t !! key in
  let t := t{{Tables.open := delete key (Tables.open t)}} in
  set_in_use (match retired with Some c => note_closed (circuit c) t | None => t end).

(** A circuit has been established. *)
Definition established (key : bytes) (t : Tables.t) : Tables.t * nat :=
  let h := Tables.next t in
  (t{{Tables.next := S h}}{{Tables.log := Tables.log t ++ [Established key h] }}, h).

Definition run_section (i : nat) (t : Tables.t) (s : Section_) : Tables.t :=
  match s with
  | Reusing => fst (reuse i [] t)
  | Admitting key => let '(t, h) := established key t in admit_circuit i key h t
  | Discarding key => discard key t
  end.
End tables.

(** ** The client *)

Module Client.
Record t := Mk {
  tables : Tables.t;
  ring : option HsdirRing;
  wanted : bool;
  descriptors : gmap bytes CachedDescriptor;
  draws : Rand.draws;
  moment : nat;
}.
End Client.

Abbreviation M := (Comp Client.t).

Definition locked {A} (f : Tables.t -> Tables.t * A) : M A := fun s =>
  let '(t, a) := f (Client.tables s) in Some (s{{Client.tables := t}}, Ok a).
Definition draw {A} (f : Rand.draws -> Rand.outcome A) : M A := fun s =>
  match f (Client.draws s) with
  | Rand.Done r rest => Some (s{{Client.draws := rest}}, r)
  | Rand.Waiting | Rand.Panicked => None
  end.

Section client.
Context `{Crypto} `{Machine} (w : World).

(** Ask the world something: the other threads run first. *)
Definition ask : M nat := fun s =>
  let i := Client.moment s in
  Some (s{{Client.tables := fold_left (run_section w i) (w_others w i) (Client.tables s)}}
         {{Client.moment := S i}}, Ok i).

(** *** The ring *)

Definition cached_hsdir_ring (valid_after : Z) (s : Client.t) : option HsdirRing :=
  ring ← Client.ring s; if ring_valid_after ring =? valid_after then Some ring else None.

(** [dir_circuit], the fetch over it, and its closing. *)
Definition fetch_ed_ids (digests : list bytes) : M (gmap bytes bytes) :=
  i ← ask;
  _ ← lift (w_dir_circuit w i);
  mret (w_ed_ids w i digests).

Definition hsdir_ring : M HsdirRing :=
  i ← ask;
  _ ← put (fun s => s{{Client.wanted := true}});
  let c := w_consensus w i in
  s ← get;
  match cached_hsdir_ring (Consensus.valid_after c) s with
  | Some ring => mret ring
  | None =>
      let period := TimePeriod.containing (Consensus.valid_after c) (Params.hsdir_interval (Consensus.params c)) in
      let srv := HsDir.shared_random_value c period in
      let hsdirs := filter (fun r => RouterStatus.has r FLAG_HSDIR = true) (Consensus.routers c) in
      let digests := map RouterStatus.microdesc_digest hsdirs in
      ed_ids ← fetch_ed_ids digests;
      let missing := filter (fun d => ed_ids !! d = None) digests in
      ed_ids ← (match missing with
                | [] => mret ed_ids
                | _ => if (length missing <? length digests)%nat
                       then more ← fetch_ed_ids missing; mret (more ∪ ed_ids)
                       else mret ed_ids
                end);
      let placed := omap (fun r => ed ← ed_ids !! RouterStatus.microdesc_digest r;
                                   Some (RouterStatus.identity r, ed)) hsdirs in
      let nodes := HsDir.build_ring placed srv period in
      if (length nodes * 3 <? length hsdirs * 2)%nat
      then fail (invalid_data "only {} of {} HSDirs could be placed on the ring")
      else
        let ring := MkRing period (Consensus.valid_after c) nodes
          (Z.to_nat (Params.hsdir_n_replicas (Consensus.params c)))
          (Z.to_nat (Params.hsdir_spread_fetch (Consensus.params c))) in
        _ ← put (fun s => s{{Client.ring := Some ring}});
        mret ring
  end.

(** [HsdirRing::responsible_for]. *)
Definition responsible_for (ring : HsdirRing) (blinded : bytes) : list bytes :=
  HsDir.responsible (nodes ring) blinded (period ring) (n_replicas ring) (spread_fetch ring).

(** *** Descriptors *)

(** What one directory node answers at a moment, as far as it is a descriptor. *)
Definition answer (i : nat) (path blinded subcredential identity : bytes) : result Descriptor.t :=
  raw ← w_fetch w i identity path;
  if MAX_DESCRIPTOR_BYTES <? len raw
  then Err (invalid_data "onion service descriptor is implausibly large")
  else if negb (utf8_valid raw)
  then Err (invalid_data "onion service descriptor is not UTF-8")
  else Descriptor.parse raw blinded subcredential (w_unix w i).

Definition fetch_descriptor_from (path blinded subcredential identity : bytes) : M Descriptor.t :=
  i ← ask; lift (answer i path blinded subcredential identity).

(** The answers in the order they come, up to the first descriptor. *)
Fixpoint until_found (path blinded subcredential : bytes) (order : list bytes)
    : M (list (bytes * result Descriptor.t)) :=
  match order with
  | [] => mret []
  | identity :: order =>
      r ← attempt (fetch_descriptor_from path blinded subcredential identity);
      match r with
      | Ok _ => mret [(identity, r)]
      | Err _ => rest ← until_found path blinded subcredential order; mret ((identity, r) :: rest)
      end
  end.

Definition ask_hsdirs (path blinded subcredential : bytes) (group : list bytes)
    : M (list (bytes * result Descriptor.t)) :=
  match group with
  | [identity] =>
      r ← attempt (fetch_descriptor_from path blinded subcredential identity); mret [(identity, r)]
  | _ => i ← ask; until_found path blinded subcredential (w_order w i group)
  end.

(** The loop over the answers of a group: a verdict, or what to remember. *)
Fixpoint weigh (results : list (bytes * result Descriptor.t)) (last : option io_error) (all_absent : bool)
    : result Descriptor.t + (option io_error * bool) :=
  match results with
  | [] => inr (last, all_absent)
  | (_, Ok d) :: _ => inl (Ok d)
  | (_, Err e) :: results =>
      if bool_decide (kind e = PermissionDenied) then inl (Err e)
      else weigh results (Some e) (all_absent && bool_decide (kind e = NotFound))
  end.

Definition not_published : io_error :=
  IoError NotFound (Message "no directory node holds a descriptor for this onion service").

Definition no_answer (last : option io_error) (all_absent : bool) : io_error :=
  match last with
  | Some e => if bool_decide (kind e = NotFound) || all_absent then not_published else e
  | None => invalid_data "no directory node is responsible for this onion service"
  end.

Fixpoint ask_groups (path blinded subcredential : bytes) (groups : list (list bytes))
    (last : option io_error) (all_absent : bool) (asked : nat) : M Descriptor.t :=
  match groups with
  | [] => fail (no_answer last all_absent)
  | group :: groups =>
      if (HSDIR_TRIES <=? asked)%nat && negb all_absent then fail (no_answer last all_absent)
      else
        results ← ask_hsdirs path blinded subcredential group;
        match weigh results last all_absent with
        | inl verdict => lift verdict
        | inr (last, all_absent) =>
            ask_groups path blinded subcredential groups last all_absent (asked + length group)
        end
  end.

Definition descriptor_path (blinded : bytes) : bytes := B "/tor/hs/3/" ++ base64_encode_unpadded blinded.

Definition fetch_descriptor (ring : HsdirRing) (blinded subcredential : bytes) : M Descriptor.t :=
  responsible ← draw (Rand.shuffle (responsible_for ring blinded));
  ask_groups (descriptor_path blinded) blinded subcredential (chunks HSDIR_PARALLEL responsible) None true 0.

Definition lifetime (d : Descriptor.t) : Z := Z.min (Descriptor.lifetime_minutes d) 720 * 60.

(** [TorClient::descriptor]. *)
Definition descriptor_for (address : OnionAddress) : M Descriptor.t :=
  ring ← hsdir_ring;
  blinded ← lift (TimePeriod.blinded_key (period ring) (public_key address));
  i ← ask;
  _ ← put (fun s => s{{Client.descriptors :=
    filter (fun kd => w_now w i <? expires_at (snd kd) = true) (Client.descriptors s)}});
  s ← get;
  match (d ← Client.descriptors s !! public_key address;
         if cached_period d =? TimePeriod.number (period ring) then Some (descriptor d) else None) with
  | Some d => mret d
  | None =>
      d ← fetch_descriptor ring blinded (subcredential address blinded);
      i ← ask;
      _ ← put (fun s => s{{Client.descriptors :=
        <[public_key address := MkCached d (TimePeriod.number (period ring)) (w_now w i + lifetime d)]>
          (Client.descriptors s)}});
      mret d
  end.

Definition forget_descriptor (address : OnionAddress) : M unit :=
  put (fun s => s{{Client.descriptors := delete (public_key address) (Client.descriptors s)}}).

(** *** Circuits and streams *)

Definition onion_keys (address : OnionAddress) : M (bytes * bytes) :=
  ring ← hsdir_ring;
  blinded ← lift (TimePeriod.blinded_key (period ring) (public_key address));
  mret (blinded, subcredential address blinded).

Definition establish (address : OnionAddress) (d : Descriptor.t) (subcredential : bytes) : M (nat + Failure) :=
  i ← ask;
  match w_establish w i d subcredential with
  | inl _ => h ← locked (established (public_key address)); mret (inl h)
  | inr failure => mret (inr failure)
  end.

Definition established_circuit (address : OnionAddress) : M nat :=
  '(_, subcredential) ← onion_keys address;
  d ← descriptor_for address;
  r ← establish address d subcredential;
  match r with
  | inl h => mret h
  | inr failure =>
      if descriptor_is_stale failure then
        _ ← forget_descriptor address;
        d ← descriptor_for address;
        r ← establish address d subcredential;
        match r with inl h => mret h | inr failure => fail (error failure) end
      else fail (error failure)
  end.

Definition onion_circuit (address : OnionAddress) : M nat :=
  i ← ask;
  found ← locked (reuse w i (public_key address));
  match found with
  | Some h => mret h
  | None =>
      h ← established_circuit address;
      i ← ask;
      _ ← locked (fun t => (admit_circuit w i (public_key address) h t, tt));
      mret h
  end.

Definition discard_onion_circuit (address : OnionAddress) : M unit :=
  _ ← ask; locked (fun t => (discard (public_key address) t, tt)).

Definition begin_stream_onion (h : nat) (port : Z) : M nat := i ← ask; lift (w_begin w i h port).

(** What a stream does when its circuit fails. *)
Definition reattach_onion (address : OnionAddress) (port : Z) : M nat :=
  _ ← discard_onion_circuit address;
  h ← onion_circuit address;
  begin_stream_onion h port.

Fixpoint connect_onion_loop (attempts : nat) (address : OnionAddress) (port : Z) (last : option io_error) : M nat :=
  match attempts with
  | O => fail (match last with Some e => e | None => other_error "could not reach the onion service" end)
  | S attempts =>
      r ← attempt (onion_circuit address);
      match r with
      | Err e =>
          if bool_decide (kind e = NotFound) || bool_decide (kind e = PermissionDenied) then fail e
          else connect_onion_loop attempts address port (Some e)
      | Ok h =>
          r ← attempt (begin_stream_onion h port);
          match r with
          | Ok stream => mret stream
          | Err e =>
              if is_stream_end e then fail e
              else _ ← discard_onion_circuit address; connect_onion_loop attempts address port (Some e)
          end
      end
  end.
Definition connect_onion (address : OnionAddress) (port : Z) : M nat :=
  connect_onion_loop CONNECT_ATTEMPTS address port None.
End client.

(** ** The accounts of the shared circuits *)

Section accounts.
Context (w : World).

Definition was_established (t : Tables.t) (key : bytes) (h : nat) : Prop := Established key h ∈ Tables.log t.
Definition is_open (t : Tables.t) (h : nat) : Prop :=
  exists key c, Tables.open t !! key = Some c /\ circuit c = h.

(** Every circuit that was established is held under its service's key, in
    the hand of the thread that has just established it ([hand]), closed, or
    let go of because it was already closed or too old. *)
Record accounted (hand : list nat) (t : Tables.t) : Prop := {
  count_ok : (size (Tables.open t) <= MAX_CIRCUITS)%nat;
  in_use_ok : Tables.in_use t = size (Tables.open t);
  rightful : forall key c, Tables.open t !! key = Some c -> was_established t key (circuit c);
  numbered : forall key h, was_established t key h -> (h < Tables.next t)%nat;
  one_owner : forall key key' h, was_established t key h -> was_established t key' h -> key = key';
  hand_apart : forall h, h ∈ hand -> ~ is_open t h /\ exists key, was_established t key h;
  not_closed : forall h, Closed h ∈ Tables.log t -> ~ is_open t h /\ h ∉ hand /\ exists key, was_established t key h;
  dropped_ok : forall i c, Dropped i c ∈ Tables.log t -> retained w i c = false;
  all_there : forall key h, was_established t key h ->
    is_open t h \/ h ∈ hand \/ Closed h ∈ Tables.log t \/ exists i c, Dropped i c ∈ Tables.log t /\ circuit c = h;
}.

(** No circuit is held twice. *)
Lemma held_once hand t key key' c c' :
  accounted hand t -> Tables.open t !! key = Some c -> Tables.open t !! key' = Some c' ->
  circuit c = circuit c' -> key = key'.
Proof.
  intros A O O' E. apply (rightful _ _ A) in O, O'. rewrite E in O. by eapply (one_owner _ _ A).
Qed.

(** What a section changes: entries leave the table, and the log says why. *)
Lemma leaves hand t (gone : PooledOnionCircuit -> Prop) open' log' :
  accounted hand t ->
  (forall key c, open' !! key = Some c -> Tables.open t !! key = Some c /\ ~ gone c) ->
  (forall key c, Tables.open t !! key = Some c -> open' !! key = Some c \/ gone c) ->
  (forall e, e ∈ log' -> (exists key c, Tables.open t !! key = Some c /\ gone c /\
     (e = Closed (circuit c) \/ exists i, e = Dropped i c /\ retained w i c = false))) ->
  (forall key c, Tables.open t !! key = Some c -> gone c ->
     Closed (circuit c) ∈ log' \/ exists i, Dropped i c ∈ log') ->
  accounted hand (set_in_use (Tables.Mk open' (Tables.in_use t) (Tables.next t) (Tables.log t ++ log'))).
Proof.
  intros A Sub Rest Log Why. set (t' := set_in_use _).
  assert (L : Tables.log t' = Tables.log t ++ log') by done.
  assert (O' : Tables.open t' = open') by done.
  assert (Est : forall key h, was_established t' key h <-> was_established t key h).
  { intros key h. unfold was_established. rewrite L, elem_of_app.
    split; [|by left]. intros [?|H]; [done|]. by destruct (Log _ H) as (? & ? & _ & _ & [?|(? & ? & _)]). }
  assert (Op : forall h, is_open t' h -> is_open t h).
  { intros h (key & c & O & E). exists key, c. split; [apply Sub; by rewrite <- O'|done]. }
  split.
  - etrans; [|apply (count_ok _ _ A)]. rewrite O'.
    apply (map_subseteq_size open' (Tables.open t)). apply map_subseteq_spec. intros key c O. by apply Sub.
  - done.
  - intros key c O. apply Est. apply (rightful _ _ A). by apply Sub.
  - intros key h E%Est. by apply (numbered _ _ A) in E.
  - intros key key' h E%Est E'%Est. by eapply (one_owner _ _ A).
  - intros h Hh. destruct (hand_apart _ _ A h Hh) as [N [key E]]. split; [by intros ?%Op|exists key; by apply Est].
  - intros h H. rewrite L in H. apply elem_of_app in H as [H|H].
    + destruct (not_closed _ _ A h H) as (N & N2 & key & E). split_and!; [by intros ?%Op|done|].
      exists key. by apply Est.
    + destruct (Log _ H) as (key & c & O & G & [[= ->]|(? & ? & _)]); [|done].
      split_and!; [| |exists key; apply Est; by apply (rightful _ _ A)].
      * intros (key' & c' & Hk & E). apply Sub in Hk as [Hk G'].
        pose proof (held_once _ _ _ _ _ _ A O Hk (eq_sym E)) as <-. rewrite O in Hk. by injection Hk as ->.
      * intros Hh. destruct (hand_apart _ _ A _ Hh) as [N _]. apply N. by exists key, c.
  - intros i c H. rewrite L in H. apply elem_of_app in H as [H|H];
      [by apply (dropped_ok _ _ A)|]. by destruct (Log _ H) as (? & ? & _ & _ & [?|(? & [= -> ->] & R)]).
  - intros key h E%Est. rewrite L.
    destruct (all_there _ _ A key h E) as [(k & c & O & <-)|[?|[?|(i & c & ? & ?)]]].
    + destruct (Rest k c O) as [Hk|G]; [left; by exists k, c|]. right. right.
      destruct (Why k c O G) as [H|[i H]]; [left|right; exists i, c; split; [|done]]; apply elem_of_app; by right.
    + by right; left.
    + right; right; left. apply elem_of_app. by left.
    + right; right; right. exists i, c. split; [apply elem_of_app; by left|done].
Qed.

Lemma set_in_use_idem hand t : accounted hand (set_in_use t) -> Tables.in_use t = size (Tables.open t) -> accounted hand t.
Proof. intros A E. destruct t. cbn in *. by subst. Qed.

Lemma retain_accounts hand i t :
  accounted hand t -> accounted hand (set_in_use (retain w i t)).
Proof.
  intros A. unfold retain. destruct t as [open in_use next log].
  set (kept := filter (fun kc => retained w i (snd kc) = true) open).
  set (gone := filter (fun kc => retained w i (snd kc) = false) (map_to_list open)).
  apply (leaves hand (Tables.Mk open in_use next log) (fun c => retained w i c = false) kept
           (map (fun kc => Dropped i (snd kc)) gone)); [done|..].
  - intros key c H. unfold kept in H. apply map_lookup_filter_Some in H as [H R]. split; [done|]. cbn in R.
    by rewrite R.
  - intros key c H. destruct (retained w i c) eqn:R; [left|by right]. unfold kept.
    by apply map_lookup_filter_Some.
  - intros e H. apply list_elem_of_fmap in H as ([key c] & -> & H). unfold gone in H.
    apply list_elem_of_filter in H as [R H]. apply elem_of_map_to_list in H. cbn in *.
    exists key, c. split_and!; [done|done|]. right. by exists i.
  - intros key c H R. right. exists i. apply list_elem_of_fmap. exists (key, c). split; [done|].
    unfold gone. apply list_elem_of_filter. split; [done|]. by apply elem_of_map_to_list.
Qed.

(** Removing one entry and closing its circuit. *)
Lemma remove_accounts hand t key c :
  accounted hand t -> Tables.open t !! key = Some c ->
  accounted hand (set_in_use (note_closed (circuit c) (t{{Tables.open := delete key (Tables.open t)}}))).
Proof.
  intros A O. destruct t as [open in_use next log]. cbn [Tables.open] in O.
  apply (leaves hand (Tables.Mk open in_use next log) (fun c' => c' = c) (delete key open) [Closed (circuit c)]); [done|..].
  - intros k c' H. apply lookup_delete_Some in H as [Hk H]. split; [done|]. intros ->.
    apply Hk. by apply (held_once _ _ _ _ _ _ A O H).
  - intros k c' H. destruct (decide (k = key)) as [->|Hk]; [right|left; by rewrite lookup_delete_ne].
    cbn in H. rewrite O in H. by injection H as ->.
  - intros e H. apply list_elem_of_singleton in H as ->. exists key, c. split_and!; [done|done|by left].
  - intros k c' H ->. left. by apply list_elem_of_singleton.
Qed.

Lemma discard_accounts hand key t : accounted hand t -> accounted hand (discard key t).
Proof.
  intros A. unfold discard. destruct (Tables.open t !! key) as [c|] eqn:O; [by apply remove_accounts|].
  rewrite delete_id by done. destruct t as [open in_use next log]. destruct A as [? B ? ? ? ? ? ? ?].
  cbn in B. unfold set_in_use. cbn. rewrite <- B. by split.
Qed.

Lemma reuse_accounts hand i key t : accounted hand t -> accounted hand (fst (reuse w i key t)).
Proof. apply retain_accounts. Qed.

Lemma oldest_elem l kc : oldest l = Some kc -> kc ∈ l.
Proof.
  revert kc. induction l as [|x l IH]; intros kc; [done|]. cbn [oldest].
  destruct (oldest l) as [kc'|]; [|intros [= ->]; apply elem_of_cons; by left].
  case_match; intros [= <-]; apply elem_of_cons; [right; by apply IH|by left].
Qed.

Lemma oldest_some l : l <> [] -> is_Some (oldest l).
Proof. destruct l as [|x l]; [done|]. intros _. cbn [oldest]. destruct (oldest l); [by case_match|done]. Qed.

Lemma evict_accounts hand fuel : forall t,
  accounted hand (set_in_use t) -> (size (Tables.open t) <= fuel)%nat ->
  accounted hand (set_in_use (evict fuel t)) /\ (size (Tables.open (evict fuel t)) < MAX_CIRCUITS)%nat.
Proof.
  induction fuel as [|fuel IH]; intros t A Hs; cbn [evict].
  { split; [done|]. unfold MAX_CIRCUITS. lia. }
  destruct (Nat.leb_spec MAX_CIRCUITS (size (Tables.open t))) as [Hle|Hlt]; [|done].
  destruct (oldest_some (map_to_list (Tables.open t))) as [[key c] E].
  { intros E. apply (f_equal length) in E. rewrite length_map_to_list in E. cbn in E. unfold MAX_CIRCUITS in Hle. lia. }
  rewrite E. apply oldest_elem in E. apply elem_of_map_to_list in E.
  apply IH.
  - exact (remove_accounts hand (set_in_use t) key c A E).
  - change (size (delete key (Tables.open t)) <= fuel)%nat. rewrite map_size_delete_Some by (by exists c). lia.
Qed.

(** A new circuit comes to hand. *)
Lemma established_accounts hand key t :
  accounted hand t -> let '(t', h) := established key t in
  accounted (h :: hand) t' /\ was_established t' key h.
Proof.
  intros A. unfold established. set (h := Tables.next t).
  set (t' := t{{Tables.next := S h}}{{Tables.log := Tables.log t ++ [Established key h] }}).
  assert (Est : forall k h', was_established t' k h' <-> was_established t k h' \/ (k = key /\ h' = h)).
  { intros k h'. unfold was_established, t'. cbn. rewrite elem_of_app, list_elem_of_singleton. naive_solver. }
  assert (Fresh : ~ is_open t h).
  { intros (k & c & O & E). apply (rightful _ _ A) in O. apply (numbered _ _ A) in O. unfold h in E. lia. }
  assert (Op : forall x, is_open t' x <-> is_open t x) by done.
  assert (Cl : forall x, Closed x ∈ Tables.log t' <-> Closed x ∈ Tables.log t).
  { intros x. unfold t'. cbn. rewrite elem_of_app, list_elem_of_singleton. naive_solver. }
  split; [|apply Est; by right]. split.
  - apply (count_ok _ _ A).
  - apply (in_use_ok _ _ A).
  - intros k c O. apply Est. left. by apply (rightful _ _ A).
  - intros k x [E|[-> ->]]%Est; unfold t'; cbn; [apply (numbered _ _ A) in E; lia|unfold h; lia].
  - intros k k' x [E|[-> ->]]%Est [E'|[-> E']]%Est; [by eapply (one_owner _ _ A)| | |done].
    + subst x. apply (numbered _ _ A) in E. unfold h in E. lia.
    + apply (numbered _ _ A) in E'. unfold h in E'. lia.
  - intros x Hx. rewrite Op. apply elem_of_cons in Hx as [->|Hx].
    + split; [done|]. exists key. apply Est. by right.
    + destruct (hand_apart _ _ A x Hx) as [N [k E]]. split; [done|]. exists k. apply Est. by left.
  - intros x C%Cl. rewrite Op. destruct (not_closed _ _ A x C) as (N & N2 & k & E).
    split_and!; [done| |exists k; apply Est; by left].
    rewrite not_elem_of_cons. split; [|done]. intros ->.
    apply (numbered _ _ A) in E. unfold h in E. lia.
  - intros i c D. apply (dropped_ok _ _ A). unfold t' in D. cbn in D.
    apply elem_of_app in D as [D|D%list_elem_of_singleton]; done.
  - intros k x [E|[-> ->]]%Est; [|right; left; apply elem_of_cons; by left].
    rewrite Op, Cl. destruct (all_there _ _ A k x E) as [?|[?|[?|(i & c & D & ?)]]]; [by left| | |].
    + right; left. apply elem_of_cons. by right.
    + by right; right; left.
    + right; right; right. exists i, c. split; [|done]. unfold t'. cbn. apply elem_of_app. by left.
Qed.

(** The circuit in hand goes into the table. *)
Lemma insert_accounts hand t key h now :
  accounted (h :: hand) (set_in_use t) -> (size (Tables.open t) < MAX_CIRCUITS)%nat ->
  Tables.open t !! key = None -> was_established t key h -> h ∉ hand ->
  accounted hand (set_in_use (t{{Tables.open := <[key := MkPooled h now]> (Tables.open t)}})).
Proof.
  intros A Size None Est Apart. set (t' := set_in_use _).
  assert (O' : Tables.open t' = <[key := MkPooled h now]> (Tables.open t)) by done.
  assert (Op : forall x, is_open t' x <-> x = h \/ is_open t x).
  { intros x. unfold is_open. rewrite O'. split.
    - intros (k & c & Hk & <-). apply lookup_insert_Some in Hk as [[<- <-]|[_ Hk]]; [by left|right; by exists k, c].
    - intros [->|(k & c & Hk & <-)].
      + exists key, (MkPooled h now). by rewrite lookup_insert_eq.
      + exists k, c. rewrite lookup_insert_ne; [done|]. intros ->. by rewrite None in Hk. }
  split.
  - rewrite O', map_size_insert_None by done. lia.
  - done.
  - intros k c. rewrite O'. intros [[<- <-]|[_ Hk]]%lookup_insert_Some; [done|]. by apply (rightful _ _ A).
  - apply (numbered _ _ A).
  - apply (one_owner _ _ A).
  - intros x Hx. destruct (hand_apart _ _ A x) as [N E]; [apply elem_of_cons; by right|].
    split; [|done]. rewrite Op. intros [->|?]; [done|by apply N].
  - intros x C. destruct (not_closed _ _ A x C) as (N & N2 & E). apply not_elem_of_cons in N2 as [N2 N3].
    split_and!; [|done|done]. rewrite Op. intros [?|?]; [done|by apply N].
  - apply (dropped_ok _ _ A).
  - intros k x E. rewrite Op. destruct (all_there _ _ A k x E) as [?|[Hx|?]]; [by left; right| |by right; right].
    apply elem_of_cons in Hx as [->|?]; [by left; left|by right; left].
Qed.

(** The log only grows. *)
Definition grows (t t' : Tables.t) : Prop := forall e, e ∈ Tables.log t -> e ∈ Tables.log t'.

Lemma retain_grows i t : grows t (retain w i t).
Proof. intros e He. unfold retain. cbn. apply elem_of_app. by left. Qed.

Lemma evict_grows fuel : forall t, grows t (evict fuel t).
Proof.
  induction fuel as [|fuel IH]; intros t e He; cbn [evict]; [done|]. repeat case_match; [|done..].
  apply IH. cbn. apply elem_of_app. by left.
Qed.

Lemma admit_accounts hand i key h t :
  accounted (h :: hand) t -> was_established t key h -> h ∉ hand -> accounted hand (admit_circuit w i key h t).
Proof.
  intros A E Apart. unfold admit_circuit.
  pose proof (evict_accounts (h :: hand) _ (retain w i t) (retain_accounts _ i _ A) (le_n _)) as [A2 S2].
  assert (E2 : was_established (evict (size (Tables.open (retain w i t))) (retain w i t)) key h)
    by (apply evict_grows, retain_grows, E).
  set (t2 := evict _ _) in *. destruct (Tables.open t2 !! key) as [c|] eqn:O.
  - pose proof (remove_accounts _ _ _ _ A2 O) as A3.
    set (t3 := note_closed (circuit c) (t2{{Tables.open := delete key (Tables.open t2)}})) in A3.
    assert (I : accounted hand (set_in_use (t3{{Tables.open := <[key := MkPooled h (w_now w i)]> (Tables.open t3)}}))).
    { apply insert_accounts; [exact A3| | | |done].
      + change (Tables.open t3) with (delete key (Tables.open t2)).
        rewrite map_size_delete_Some by (by exists c). lia.
      + apply lookup_delete_eq.
      + apply elem_of_app. by left. }
    change (Tables.open t3) with (delete key (Tables.open t2)) in I. by rewrite insert_delete_eq in I.
  - by apply insert_accounts.
Qed.

Lemma run_section_accounts hand i t s : accounted hand t -> accounted hand (run_section w i t s).
Proof.
  intros A. destruct s as [|key|key]; cbn [run_section].
  - by apply reuse_accounts.
  - pose proof (established_accounts hand key t A) as [A' E].
    unfold established in *. apply admit_accounts; [done..|].
    intros Hh. destruct (hand_apart _ _ A _ Hh) as [_ [k Ek]]. apply (numbered _ _ A) in Ek. lia.
  - by apply discard_accounts.
Qed.

Lemma others_account hand i t l : accounted hand t -> accounted hand (fold_left (run_section w i) l t).
Proof. revert t. induction l as [|s l IH]; intros t A; [done|]. cbn. by apply IH, run_section_accounts. Qed.
End accounts.

(** ** What a computation keeps *)

Definition keeps {A} (I : Client.t -> Prop) (m : M A) : Prop := triple I m (fun _ => I) I.

Section keeps.
Context (I : Client.t -> Prop).

Lemma keeps_ret {A} (a : A) : keeps I (mret a).
Proof. by apply triple_ret. Qed.
Lemma keeps_fail {A} e : keeps I (fail (A := A) e).
Proof. by apply triple_fail. Qed.
Lemma keeps_lift {A} (r : result A) : keeps I (lift r).
Proof. by apply triple_lift. Qed.
Lemma keeps_get : keeps I get.
Proof. intros s s' r Hs [= <- <-]. done. Qed.
Lemma keeps_put f : (forall s, I s -> I (f s)) -> keeps I (put f).
Proof. intros H. apply triple_put. done. Qed.
Lemma keeps_bind {A C} (m : M A) (f : A -> M C) : keeps I m -> (forall a, keeps I (f a)) -> keeps I (m ≫= f).
Proof. intros Hm Hf. by eapply triple_bind. Qed.
Lemma keeps_attempt {A} (m : M A) : keeps I m -> keeps I (attempt m).
Proof.
  intros H. eapply triple_conseq; [by apply triple_attempt|done| |done]. by intros [a|e] s.
Qed.
Lemma keeps_draw {A} (f : Rand.draws -> Rand.outcome A) :
  (forall s d, I s -> I (s{{Client.draws := d}})) -> keeps I (draw f).
Proof. intros H s s' r Hs E. unfold draw in E. destruct (f _) as [r' d| |]; [|done..]. injection E as <- <-.
  destruct r'; by apply H. Qed.
End keeps.

Create HintDb keeps.
#[export] Hint Resolve keeps_ret keeps_fail keeps_lift keeps_get keeps_bind keeps_attempt : keeps.
#[export] Hint Extern 1 (keeps _ (match ?x with _ => _ end)) => destruct x : keeps.
#[export] Hint Extern 1 (keeps _ (if ?x then _ else _)) => destruct x : keeps.
Ltac keep := repeat (intros; first
  [ match goal with K : _ |- keeps _ _ => solve [apply K] end
  | apply keeps_bind | apply keeps_ret | apply keeps_fail | apply keeps_lift | apply keeps_get
  | apply keeps_attempt | case_match | solve [eauto with keeps] ]).

(** What survives the others' sections and the moves of the caches survives
    everything but the sections of the thread itself. *)
Section invariant.
Context `{Crypto} `{Machine} (w : World) (I : Client.t -> Prop).
Context (I_ask : keeps I (ask w)).
Context (I_want : forall s b, I s -> I (s{{Client.wanted := b}})).
Context (I_ring : forall s ring, I s -> I (s{{Client.ring := Some ring}})).
Context (I_draws : forall s d, I s -> I (s{{Client.draws := d}})).

Lemma fetch_ed_ids_keeps digests : keeps I (fetch_ed_ids w digests).
Proof using I_ask. unfold fetch_ed_ids. keep. Qed.

Lemma hsdir_ring_keeps : keeps I (hsdir_ring w).
Proof using I_ask I_ring I_want.
  pose proof fetch_ed_ids_keeps as F.
  assert (P1 : keeps I (put (fun s => s{{Client.wanted := true}}))) by (apply keeps_put; auto).
  assert (P2 : forall ring, keeps I (put (fun s => s{{Client.ring := Some ring}}))) by (intros; apply keeps_put; auto).
  unfold hsdir_ring. keep.
Qed.

Lemma fetch_descriptor_from_keeps path blinded subcredential identity :
  keeps I (fetch_descriptor_from w path blinded subcredential identity).
Proof using I_ask. unfold fetch_descriptor_from. keep. Qed.

Lemma until_found_keeps path blinded subcredential order : keeps I (until_found w path blinded subcredential order).
Proof using I_ask.
  pose proof fetch_descriptor_from_keeps. induction order as [|x order IH]; cbn [until_found]; keep.
Qed.

Lemma ask_hsdirs_keeps path blinded subcredential group : keeps I (ask_hsdirs w path blinded subcredential group).
Proof using I_ask.
  pose proof fetch_descriptor_from_keeps. pose proof until_found_keeps. unfold ask_hsdirs. keep.
Qed.

Lemma ask_groups_keeps path blinded subcredential groups : forall last all_absent asked,
  keeps I (ask_groups w path blinded subcredential groups last all_absent asked).
Proof using I_ask.
  pose proof ask_hsdirs_keeps. induction groups as [|g groups IH]; intros last all_absent asked; cbn [ask_groups]; keep.
Qed.

Lemma fetch_descriptor_keeps ring blinded subcredential : keeps I (fetch_descriptor w ring blinded subcredential).
Proof using I_ask I_draws.
  pose proof ask_groups_keeps. unfold fetch_descriptor. keep. by apply keeps_draw.
Qed.
End invariant.

(** ** Sharing the circuits *)

Section sharing.
Context `{Crypto} `{Machine} (w : World) (address : OnionAddress).

(** The accounts are in order with [hand] held, and the circuits [known] are
    this service's. *)
Definition holds (hand known : list nat) (s : Client.t) : Prop :=
  accounted w hand (Client.tables s) /\ forall h, h ∈ known -> was_established (Client.tables s) (public_key address) h.

Lemma admit_grows i key h t : grows t (admit_circuit w i key h t).
Proof.
  intros e He. unfold admit_circuit. apply (retain_grows w i) in He.
  apply (evict_grows (size (Tables.open (retain w i t)))) in He.
  destruct (Tables.open _ !! key); [|done]. cbn. apply elem_of_app. by left.
Qed.

Lemma run_section_grows i t s : grows t (run_section w i t s).
Proof.
  intros e He. destruct s as [|key|key]; cbn [run_section].
  - apply retain_grows, He.
  - unfold established. apply admit_grows. apply elem_of_app. by left.
  - unfold discard. destruct (Tables.open t !! key); [|done]. cbn. apply elem_of_app. by left.
Qed.

(** The world always answers. *)
Lemma ask_never_fails hand known : triple (holds hand known) (ask w) (fun _ => holds hand known) (fun _ => False).
Proof.
  intros s s' r [A K] [= <- <-]. split.
  - by apply others_account.
  - intros h Hh. cbn. apply K in Hh. revert Hh. generalize (Client.tables s).
    induction (w_others w (Client.moment s)) as [|x l IH]; intros t Ht; [done|]. apply IH, run_section_grows, Ht.
Qed.

Lemma ask_holds hand known : keeps (holds hand known) (ask w).
Proof. eapply triple_conseq; [apply ask_never_fails|done..]. Qed.

Lemma holds_tables hand known s s' : holds hand known s -> Client.tables s' = Client.tables s -> holds hand known s'.
Proof. unfold holds. by intros ? ->. Qed.

Lemma hsdir_ring_holds hand known : keeps (holds hand known) (hsdir_ring w).
Proof. apply hsdir_ring_keeps; [apply ask_holds|..]; intros; by eapply holds_tables. Qed.

Lemma descriptor_for_holds hand known : keeps (holds hand known) (descriptor_for w address).
Proof.
  pose proof (hsdir_ring_holds hand known). pose proof (ask_holds hand known).
  assert (forall ring blinded sub, keeps (holds hand known) (fetch_descriptor w ring blinded sub)).
  { intros. apply fetch_descriptor_keeps; [apply ask_holds|]. intros. by eapply holds_tables. }
  unfold descriptor_for. keep; apply keeps_put; intros; by eapply holds_tables.
Qed.

Lemma forget_descriptor_holds hand known : keeps (holds hand known) (forget_descriptor address).
Proof. apply keeps_put. intros s Hs. by eapply holds_tables. Qed.

Lemma onion_keys_holds hand known : keeps (holds hand known) (onion_keys w address).
Proof. pose proof (hsdir_ring_holds hand known). unfold onion_keys. keep. Qed.

(** *** The sections of the thread *)

Lemma locked_triple {A} (P : Client.t -> Prop) (f : Tables.t -> Tables.t * A) Q E :
  (forall s, P s -> Q (snd (f (Client.tables s))) (s{{Client.tables := fst (f (Client.tables s))}})) ->
  triple P (locked f) Q E.
Proof. intros Hf s s' r Hs E'. specialize (Hf s Hs). unfold locked in E'. destruct (f (Client.tables s)). injection E' as <- <-. done. Qed.

Lemma establish_holds d sub :
  triple (holds [] []) (establish w address d sub)
    (fun r => match r with inl h => holds [h] [h] | inr _ => holds [] [] end) (holds [] []).
Proof.
  unfold establish. apply triple_bind with (Q := fun _ => holds [] []); [apply ask_holds|]. intros i.
  destruct (w_establish w i d sub) as [_|failure]; [|by apply triple_ret].
  apply triple_bind with (Q := fun h => holds [h] [h]); [|intros h; by apply triple_ret].
  apply locked_triple. intros s [A _]. pose proof (established_accounts w [] (public_key address) _ A) as [A' E].
  split; [done|]. intros h ->%list_elem_of_singleton. done.
Qed.

Lemma established_circuit_holds :
  triple (holds [] []) (established_circuit w address) (fun h => holds [h] [h]) (holds [] []).
Proof.
  unfold established_circuit. apply triple_bind with (Q := fun _ => holds [] []); [apply onion_keys_holds|].
  intros [blinded sub]. apply triple_bind with (Q := fun _ => holds [] []); [apply descriptor_for_holds|]. intros d.
  eapply triple_bind; [apply establish_holds|]. intros [h|failure]; [by apply triple_ret|].
  destruct (descriptor_is_stale failure); [|by apply triple_fail].
  apply triple_bind with (Q := fun _ => holds [] []); [apply forget_descriptor_holds|]. intros _.
  apply triple_bind with (Q := fun _ => holds [] []); [apply descriptor_for_holds|]. intros d'.
  eapply triple_bind; [apply establish_holds|]. intros [h|failure']; [by apply triple_ret|by apply triple_fail].
Qed.

Lemma reuse_rightful hand i key t h :
  accounted w hand t -> snd (reuse w i key t) = Some h -> was_established (fst (reuse w i key t)) key h.
Proof.
  intros A E. pose proof (rightful _ _ _ (reuse_accounts w hand i key t A) key) as R.
  unfold reuse in *. cbn [fst snd] in *. destruct (_ !! key) as [c|]; [|done]. injection E as <-. by apply R.
Qed.

Lemma onion_circuit_holds :
  triple (holds [] []) (onion_circuit w address) (fun h => holds [] [h]) (holds [] []).
Proof.
  unfold onion_circuit. apply triple_bind with (Q := fun _ => holds [] []); [apply ask_holds|]. intros i.
  apply triple_bind with (Q := fun found => match found with Some h => holds [] [h] | None => holds [] [] end).
  { apply locked_triple. intros s [A _]. pose proof (reuse_accounts w [] i (public_key address) _ A) as A'.
    destruct (snd (reuse w i _ _)) as [h|] eqn:E; (split; [done|]); intros x Hx; [|by apply not_elem_of_nil in Hx].
    apply list_elem_of_singleton in Hx as ->. by eapply reuse_rightful. }
  intros [h|]; [by apply triple_ret|].
  eapply triple_bind; [apply established_circuit_holds|]. intros h.
  apply triple_bind with (Q := fun _ => holds [h] [h]).
  { eapply triple_conseq; [apply (ask_never_fails [h] [h])|done..]. }
  intros j. apply triple_bind with (Q := fun _ => holds [] [h]); [|intros _; by apply triple_ret].
  apply locked_triple. intros s [A K]. specialize (K h (list_elem_of_here _ _)) as E. split.
  - apply admit_accounts; [done|done|apply not_elem_of_nil].
  - intros x ->%list_elem_of_singleton. cbn.
    by apply admit_grows.
Qed.

Lemma discard_holds known : keeps (holds [] known) (discard_onion_circuit w address).
Proof.
  unfold discard_onion_circuit. apply triple_bind with (Q := fun _ => holds [] known); [apply ask_holds|].
  intros i. apply locked_triple. intros s [A K]. split; [by apply discard_accounts|].
  intros h Hh. apply (run_section_grows i _ (Discarding (public_key address))). by apply K.
Qed.

(** A stream of the result is one begun on a circuit of this service. *)
Definition begun (port : Z) (stream : nat) (s : Client.t) : Prop :=
  exists i h, w_begin w i h port = Ok stream /\ was_established (Client.tables s) (public_key address) h.

Lemma begin_holds h port :
  triple (holds [] [h]) (begin_stream_onion w h port)
    (fun stream s => holds [] [] s /\ begun port stream s) (holds [] []).
Proof.
  assert (Weak : forall s, holds [] [h] s -> holds [] [] s).
  { intros s [A _]. split; [done|]. intros x Hx. by apply not_elem_of_nil in Hx. }
  unfold begin_stream_onion. apply triple_bind with (Q := fun _ => holds [] [h]).
  { eapply triple_conseq; [apply (ask_never_fails [] [h])|done..]. }
  intros i. apply triple_lift; [|exact Weak]. intros stream s E Hs. split; [by apply Weak|].
  exists i, h. split; [done|]. apply (proj2 Hs), list_elem_of_here.
Qed.

Lemma connect_loop_holds attempts port : forall last,
  triple (holds [] []) (connect_onion_loop w attempts address port last)
    (fun stream s => holds [] [] s /\ begun port stream s) (holds [] []).
Proof.
  induction attempts as [|attempts IH]; intros last; cbn [connect_onion_loop]; [by apply triple_fail|].
  eapply triple_tried; [apply onion_circuit_holds| |].
  - intros h. eapply triple_tried; [apply begin_holds| |].
    + intros stream. by apply triple_ret.
    + intros e. destruct (is_stream_end e); [by apply triple_fail|].
      apply triple_bind with (Q := fun _ => holds [] []); [apply discard_holds|]. intros _. apply IH.
  - intros e. destruct (_ || _); [by apply triple_fail|]. apply IH.
Qed.

Lemma reattach_holds port :
  triple (holds [] []) (reattach_onion w address port)
    (fun stream s => holds [] [] s /\ begun port stream s) (holds [] []).
Proof.
  unfold reattach_onion. apply triple_bind with (Q := fun _ => holds [] []); [apply discard_holds|]. intros _.
  eapply triple_bind; [apply onion_circuit_holds|]. intros h. apply begin_holds.
Qed.
End sharing.

(** ** Authentic descriptors *)

Section authentic.
Context `{Crypto} `{Machine} (w : World).

(** The descriptor [d] was parsed from what a directory node sent between the
    moments [from] and [i], under the keys the service with [key] has in the
    period [number]. *)
Definition authentic (from : nat) (key : bytes) (number : Z) (d : Descriptor.t) (i : nat) : Prop :=
  exists p blinded raw identity j,
    TimePeriod.number p = number /\ TimePeriod.blinded_key p key = Ok blinded /\
    w_fetch w j identity (descriptor_path blinded) = Ok raw /\ (from <= j <= i)%nat /\
    len raw <= MAX_DESCRIPTOR_BYTES /\ utf8_valid raw = true /\
    Descriptor.parse raw blinded (subcredential (MkOnion key) blinded) (w_unix w j) = Ok d.

Definition cached_ok (key : bytes) (e : CachedDescriptor) (now : nat) : Prop :=
  exists i, authentic 0 key (cached_period e) (descriptor e) i /\ (i < now)%nat /\
    expires_at e = w_now w i + lifetime (descriptor e).

Definition cache_ok (s : Client.t) : Prop :=
  forall key e, Client.descriptors s !! key = Some e -> cached_ok key e (Client.moment s).

Lemma cache_ok_later s s' :
  cache_ok s -> Client.descriptors s' = Client.descriptors s -> (Client.moment s <= Client.moment s')%nat -> cache_ok s'.
Proof.
  intros C E L key e He. rewrite E in He. destruct (C key e He) as (i & A & Li & X). exists i. split_and!; [done|lia|done].
Qed.

(** The cache stays so, and time does not run backwards past [i]. *)
Definition since (i : nat) (s : Client.t) : Prop := cache_ok s /\ (i <= Client.moment s)%nat.

Lemma ask_since i : triple (since i) (ask w) (fun j s => since i s /\ (i <= j)%nat /\ Client.moment s = S j) (fun _ => False).
Proof.
  intros s s' r [C L] [= <- <-]. cbn. split_and!; [|done|done]. split; [|cbn; lia].
  eapply cache_ok_later; [exact C|done|cbn; lia].
Qed.

Lemma ask_keeps_since i : keeps (since i) (ask w).
Proof. eapply triple_conseq; [apply ask_since|done|by intros j s [? _]|done]. Qed.

Lemma since_same i s s' : since i s -> Client.descriptors s' = Client.descriptors s ->
  Client.moment s' = Client.moment s -> since i s'.
Proof. intros [C L] E M. split; [|by rewrite M]. eapply cache_ok_later; [exact C|done|by rewrite M]. Qed.

(** The ring that is returned is the one the client holds. *)
Lemma hsdir_ring_since i :
  triple (since i) (hsdir_ring w) (fun ring s => since i s /\ Client.ring s = Some ring) (since i).
Proof.
  pose proof (ask_keeps_since i) as A.
  assert (F : forall ds, keeps (since i) (fetch_ed_ids w ds)) by (intros; by apply fetch_ed_ids_keeps).
  unfold hsdir_ring. apply triple_bind with (Q := fun _ => since i); [exact A|]. intros j.
  apply triple_bind with (Q := fun _ => since i); [apply triple_put; intros s Hs; by eapply since_same|]. intros _.
  apply triple_get_bind. intros s0.
  destruct (cached_hsdir_ring _ s0) as [ring|] eqn:Ec.
  { apply triple_ret. intros s [Hs ->]. split; [done|]. unfold cached_hsdir_ring in Ec.
    destruct (Client.ring s0); [|done]. cbn in Ec. by destruct (_ =? _); simplify_eq. }
  eapply triple_conseq with (P' := since i); [|by intros s [? _]|intros a s Hs; exact Hs|done].
  apply triple_bind with (Q := fun _ => since i); [apply F|]. intros ids.
  apply triple_bind with (Q := fun _ => since i); [repeat case_match; keep|]. intros ids'.
  destruct (_ <? _)%nat; [by apply triple_fail|].
  eapply triple_bind; [|intros u; apply triple_ret; intros s Hs; exact Hs].
  apply triple_put. intros s Hs. split; [by eapply since_same|done].
Qed.

Lemma fetch_descriptor_from_since i key number p blinded identity :
  TimePeriod.number p = number -> TimePeriod.blinded_key p key = Ok blinded ->
  triple (since i)
    (fetch_descriptor_from w (descriptor_path blinded) blinded (subcredential (MkOnion key) blinded) identity)
    (fun d s => since i s /\ authentic i key number d (Client.moment s)) (since i).
Proof.
  intros Hn Hb. unfold fetch_descriptor_from.
  eapply triple_bind; [eapply triple_conseq; [apply ask_since|done|intros j s Hs; exact Hs|done]|]. intros j.
  apply triple_lift; [|by intros s (? & _)]. intros d s E (Hs & Hj & Hm). split; [done|].
  unfold answer in E. destruct (w_fetch w j identity (descriptor_path blinded)) as [raw|] eqn:Hf; [cbn in E|done].
  destruct (Z.ltb_spec MAX_DESCRIPTOR_BYTES (len raw)) as [|Hl]; [done|].
  destruct (utf8_valid raw) eqn:U; [cbn [negb] in E|done].
  exists p, blinded, raw, identity, j. split_and!; [done..|lia|lia|done|done|done].
Qed.

Section fetched.
Context (i : nat) (key : bytes) (number : Z) (p : TimePeriod.t) (blinded : bytes).
Context (Hn : TimePeriod.number p = number) (Hb : TimePeriod.blinded_key p key = Ok blinded).
Notation path := (descriptor_path blinded).
Notation sub := (subcredential (MkOnion key) blinded).

Definition genuine (results : list (bytes * result Descriptor.t)) (s : Client.t) : Prop :=
  since i s /\ forall x d, (x, Ok d) ∈ results -> authentic i key number d (Client.moment s).

Lemma until_found_genuine order : triple (since i) (until_found w path blinded sub order) genuine (since i).
Proof using Hn Hb.
  induction order as [|x order IH]; cbn [until_found].
  { apply triple_ret. intros s Hs. split; [done|]. by intros ? ? ?%not_elem_of_nil. }
  eapply triple_tried; [by eapply fetch_descriptor_from_since| |].
  - intros d. apply triple_ret. intros s [Hs A]. split; [done|]. intros y d' E%list_elem_of_singleton.
    by injection E as -> ->.
  - intros e. eapply triple_bind; [apply IH|]. intros rest. apply triple_ret. intros s [Hs A].
    split; [done|]. intros y d [?|?]%elem_of_cons; [done|by eapply A].
Qed.

Lemma ask_hsdirs_genuine group : triple (since i) (ask_hsdirs w path blinded sub group) genuine (since i).
Proof using Hn Hb.
  assert (Many : forall order, triple (since i) (j ← ask w; until_found w path blinded sub (order j)) genuine (since i)).
  { intros order. apply triple_bind with (Q := fun _ => since i); [apply ask_keeps_since|].
    intros j. apply until_found_genuine. }
  destruct group as [|x [|y group]]; [apply Many| |apply Many].
  cbn [ask_hsdirs]. eapply triple_tried; [by eapply fetch_descriptor_from_since| |].
  - intros d. apply triple_ret. intros s [Hs A]. split; [done|]. intros z d' E%list_elem_of_singleton. by injection E as -> ->.
  - intros e. apply triple_ret. intros s Hs. split; [done|]. by intros z d' E%list_elem_of_singleton.
Qed.

(** A verdict of success is one of the answers. *)
Lemma weigh_found results : forall last absent d,
  weigh results last absent = inl (Ok d) -> exists x, (x, Ok d) ∈ results.
Proof.
  induction results as [|[x [d'|e]] results IH]; intros last absent d; cbn [weigh]; [done|..].
  - intros [= ->]. exists x. apply elem_of_cons. by left.
  - case_bool_decide; [done|]. intros E%IH. destruct E as [y ?]. exists y. apply elem_of_cons. by right.
Qed.

Lemma ask_groups_genuine groups : forall last absent asked,
  triple (since i) (ask_groups w path blinded sub groups last absent asked)
    (fun d s => since i s /\ authentic i key number d (Client.moment s)) (since i).
Proof using Hn Hb.
  induction groups as [|g groups IH]; intros last absent asked; cbn [ask_groups]; [by apply triple_fail|].
  destruct (_ && _); [by apply triple_fail|].
  eapply triple_bind; [apply ask_hsdirs_genuine|]. intros results.
  destruct (weigh results last absent) as [[d|e]|[last' absent']] eqn:W.
  - apply triple_lift; [|by intros s [? _]]. intros d' s [= <-] [Hs A]. split; [done|].
    destruct (weigh_found _ _ _ _ W) as [x Hx]. by eapply A.
  - apply triple_fail. by intros s [? _].
  - eapply triple_conseq; [apply IH|by intros s [? _]|done|done].
Qed.
End fetched.

(** *** A descriptor in hand *)

Lemma draw_since {A} (f : Rand.draws -> Rand.outcome A) i : keeps (since i) (draw f).
Proof. apply keeps_draw. intros s d Hs. by eapply since_same. Qed.

(** The ring is the one for the consensus in force when the call began. *)
Definition in_force (s0 : Client.t) (ring : HsdirRing) : Prop :=
  let c := w_consensus w (Client.moment s0) in
  ring_valid_after ring = Consensus.valid_after c /\
  (Client.ring s0 = Some ring \/
   period ring = TimePeriod.containing (Consensus.valid_after c) (Params.hsdir_interval (Consensus.params c))).

(** An entry that was in the cache when the call began, and at the later
    moment [j] is still within its lifetime. *)
Definition unexpired (s0 : Client.t) (j : nat) (key : bytes) (e : CachedDescriptor) : Prop :=
  Client.descriptors s0 !! key = Some e /\ w_now w j < expires_at e.

(** What [descriptor] answers, called in [s0]: an unexpired entry of the
    period in force or, when there is none, what has been fetched since, which
    is then kept for its lifetime.  All that stays in the cache was still
    unexpired during the call. *)
Definition handed (s0 : Client.t) (address : OnionAddress) (d : Descriptor.t) (s : Client.t) : Prop :=
  let key := public_key address in
  exists ring j, Client.ring s = Some ring /\ in_force s0 ring /\ (Client.moment s0 <= j < Client.moment s)%nat /\
  let good e := unexpired s0 j key e /\ cached_period e = TimePeriod.number (period ring) in
  ((exists e, good e /\ descriptor e = d) /\
   (forall k e, Client.descriptors s !! k = Some e -> unexpired s0 j k e) \/
   (forall e, ~ good e) /\
   exists i, (j < i < Client.moment s)%nat /\
     authentic (Client.moment s0) key (TimePeriod.number (period ring)) d i /\
     Client.descriptors s !! key = Some (MkCached d (TimePeriod.number (period ring)) (w_now w i + lifetime d)) /\
     (forall k e, k <> key -> Client.descriptors s !! k = Some e -> unexpired s0 j k e)).

Lemma ask_moves (P : Client.t -> Prop) :
  triple P (ask w) (fun j s => exists s0, P s0 /\ j = Client.moment s0 /\ Client.moment s = S j /\
    Client.descriptors s = Client.descriptors s0 /\ Client.ring s = Client.ring s0) (fun _ => False).
Proof. intros s s' r Hs [= <- <-]. by exists s. Qed.

Lemma hsdir_ring_in_force s0 :
  triple (fun s => s = s0) (hsdir_ring w) (fun ring s => Client.ring s = Some ring /\ in_force s0 ring) (fun _ => True).
Proof.
  assert (A : keeps (fun _ => True) (ask w)) by (by intros s s' [] _ _).
  assert (F : forall ds, keeps (fun _ => True) (fetch_ed_ids w ds)) by (intros; by apply fetch_ed_ids_keeps).
  unfold hsdir_ring. apply triple_bind with (Q := fun i s => i = Client.moment s0 /\ Client.ring s = Client.ring s0).
  { eapply triple_conseq; [apply ask_moves|intros s Hs; exact Hs|by intros i s (s1 & -> & -> & _ & _ & R)|done]. }
  intros i. apply triple_pre. intros ->.
  apply triple_bind with (Q := fun _ s => Client.ring s = Client.ring s0); [by apply triple_put|]. intros _.
  apply triple_get_bind. intros s1. destruct (cached_hsdir_ring _ s1) as [ring|] eqn:Ec.
  { apply triple_ret. intros s [Hs ->]. unfold cached_hsdir_ring in Ec. rewrite Hs in Ec.
    unfold in_force. rewrite Hs. destruct (Client.ring s0) as [ring'|]; [|done]. cbn in Ec.
    destruct (Z.eqb_spec (ring_valid_after ring') (Consensus.valid_after (w_consensus w (Client.moment s0)))); [|done].
    injection Ec as ->. split; [done|]. split; [done|by left]. }
  apply triple_bind with (Q := fun _ _ => True); [by eapply triple_conseq; [apply F|..]|]. intros ids.
  apply triple_bind with (Q := fun _ _ => True); [repeat case_match; keep|]. intros ids'.
  destruct (_ <? _)%nat; [by apply triple_fail|].
  eapply triple_bind; [|intros u; apply triple_ret; intros s Hs; exact Hs].
  apply triple_put. intros s _. split; [done|]. split; [done|by right].
Qed.

(** Where a call begun in [s0] stands: the ring is settled and [D] cached. *)
Record asking (s0 : Client.t) (ring : HsdirRing) (D : gmap bytes CachedDescriptor) (s : Client.t) : Prop := Asking {
  asking_since : since (Client.moment s0) s;
  asking_cached : Client.descriptors s = D;
  asking_ring : Client.ring s = Some ring;
  asking_force : in_force s0 ring;
}.

Lemma asking_moves s0 ring D :
  triple (asking s0 ring D) (ask w)
    (fun j s => asking s0 ring D s /\ (Client.moment s0 <= j)%nat /\ Client.moment s = S j) (fun _ => False).
Proof.
  intros s s' r [S E R F] C. pose proof (ask_since _ _ _ _ S C) as T. injection C as <- <-.
  destruct T as (T & L & M). split; [by split|done].
Qed.

Lemma hsdir_ring_asks s0 :
  cache_ok s0 -> triple (fun s => s = s0) (hsdir_ring w) (fun ring => asking s0 ring (Client.descriptors s0)) cache_ok.
Proof.
  intros C s s' r -> E.
  pose proof (hsdir_ring_in_force s0 s0 s' r eq_refl E) as T.
  pose proof (hsdir_ring_since (Client.moment s0) s0 s' r (conj C (le_n _)) E) as U.
  assert (K : keeps (fun s => Client.descriptors s = Client.descriptors s0) (hsdir_ring w)).
  { apply hsdir_ring_keeps; [|done..]. by intros v v' q Hv [= <- <-]. }
  specialize (K s0 s' r eq_refl E). destruct r as [ring|e]; [|by destruct U].
  destruct T as [R F], U as [U _]. by split.
Qed.

(** The expired are dropped. *)
Lemma drop_expired s0 ring D s j :
  asking s0 ring D s ->
  asking s0 ring (filter (fun kd => w_now w j <? expires_at (snd kd) = true) D)
    (s{{Client.descriptors := filter (fun kd => w_now w j <? expires_at (snd kd) = true) (Client.descriptors s)}}).
Proof.
  intros [[C L] E R F]. split; [split|cbn; by rewrite E|exact R|exact F].
  - intros key e He. cbn in He. apply map_lookup_filter_Some in He as [He _]. by apply C.
  - exact L.
Qed.

Lemma unexpired_iff s0 j k e :
  filter (fun kd => w_now w j <? expires_at (snd kd) = true) (Client.descriptors s0) !! k = Some e <-> unexpired s0 j k e.
Proof. rewrite map_lookup_filter_Some. cbn. by rewrite Z.ltb_lt. Qed.

(** What is fetched in a call is from that call. *)
Lemma fetch_genuine s0 ring D n blinded address :
  TimePeriod.blinded_key (period ring) (public_key address) = Ok blinded ->
  triple (fun s => asking s0 ring D s /\ (n <= Client.moment s)%nat)
    (fetch_descriptor w ring blinded (subcredential address blinded))
    (fun d s => (asking s0 ring D s /\ (n <= Client.moment s)%nat) /\
       authentic (Client.moment s0) (public_key address) (TimePeriod.number (period ring)) d (Client.moment s)) cache_ok.
Proof.
  intros Hb s s' r [[S E R F] N] C.
  assert (K : keeps (fun v => Client.ring v = Some ring /\ Client.descriptors v = D /\ (n <= Client.moment v)%nat)
                (fetch_descriptor w ring blinded (subcredential address blinded))).
  { apply fetch_descriptor_keeps; [|done]. intros v v' q (V1 & V2 & V3) [= <- <-]. split_and!; [done..|cbn; lia]. }
  specialize (K s s' r (conj R (conj E N)) C).
  enough (T : triple (since (Client.moment s0)) (fetch_descriptor w ring blinded (subcredential address blinded))
    (fun d v => since (Client.moment s0) v /\
       authentic (Client.moment s0) (public_key address) (TimePeriod.number (period ring)) d (Client.moment v))
    (since (Client.moment s0))).
  { specialize (T s s' r S C). destruct r as [d|e]; [|apply T]. destruct T as [T A], K as (K1 & K2 & K3). by split; [split|]. }
  eapply triple_bind; [apply draw_since|]. intros l. destruct address as [key]. by eapply ask_groups_genuine.
Qed.

Lemma authentic_weaken lo lo' key number d i i' :
  authentic lo key number d i -> (lo' <= lo)%nat -> (i <= i')%nat -> authentic lo' key number d i'.
Proof. intros (p & b & raw & x & j & Hn & Hb & Hf & Hj & T) H1 H2. exists p, b, raw, x, j. split_and!; try apply T; done || lia. Qed.

(** And is kept. *)
Lemma store_handed s0 ring address d s i j :
  let D := filter (fun kd => w_now w j <? expires_at (snd kd) = true) (Client.descriptors s0) in
  let number := TimePeriod.number (period ring) in
  asking s0 ring D s -> Client.moment s = S i -> (Client.moment s0 <= j < i)%nat ->
  (forall e, D !! public_key address = Some e -> cached_period e <> number) ->
  authentic (Client.moment s0) (public_key address) number d i ->
  let s' := s{{Client.descriptors :=
    <[public_key address := MkCached d number (w_now w i + lifetime d)]> (Client.descriptors s)}} in
  cache_ok s' /\ handed s0 address d s'.
Proof.
  intros D number [[C L] E R F] M Hj None A s'. split.
  - intros key e He. cbn in He. apply lookup_insert_Some in He as [[<- <-]|[_ He]].
    + exists i. split_and!; [by eapply authentic_weaken; [exact A|lia|]| |done]. change (i < Client.moment s)%nat. lia.
    + destruct (C key e He) as (m & ? & ? & ?). by exists m.
  - exists ring, j. split_and!; [exact R|exact F|lia|change (j < Client.moment s)%nat; lia|]. right. split.
    + intros e [Ue Pe]. apply unexpired_iff in Ue. exact (None e Ue Pe).
    + exists i. split_and!; [lia|change (i < Client.moment s)%nat; lia|exact A|apply lookup_insert_eq|].
      intros k e Nk He. cbn in He. rewrite lookup_insert_ne in He by done. rewrite E in He. by apply unexpired_iff.
Qed.

Lemma descriptor_for_genuine address s0 :
  cache_ok s0 ->
  triple (fun s => s = s0) (descriptor_for w address) (fun d s => cache_ok s /\ handed s0 address d s) cache_ok.
Proof.
  intros C0. unfold descriptor_for. eapply triple_bind; [by apply hsdir_ring_asks|]. intros ring.
  assert (Out : forall D s, asking s0 ring D s -> cache_ok s) by (by intros D s [[? _] _ _ _]).
  eapply triple_bind.
  { apply triple_lift with (Q := fun b s => TimePeriod.blinded_key (period ring) (public_key address) = Ok b /\
      asking s0 ring (Client.descriptors s0) s); [done|]. intros s. apply Out. }
  intros blinded. apply triple_pre. intros Hb.
  eapply triple_bind; [eapply triple_conseq; [apply asking_moves|done|intros j s Hs; exact Hs|done]|]. intros j.
  set (D := filter (fun kd => w_now w j <? expires_at (snd kd) = true) (Client.descriptors s0)).
  eapply triple_bind with (Q := fun _ s => asking s0 ring D s /\ (Client.moment s0 <= j)%nat /\ Client.moment s = S j).
  { apply triple_put. intros s (A & L & M). split; [by apply drop_expired|by split]. }
  intros _. apply triple_get_bind. intros s1.
  destruct (d ← Client.descriptors s1 !! public_key address; _) as [d|] eqn:Ed.
  - apply triple_ret. intros s [(A & L & M) ->]. split; [by eapply Out|]. destruct A as [S E R F]. rewrite E in Ed.
    destruct (D !! public_key address) as [e|] eqn:He; [|done]. cbn in Ed.
    destruct (Z.eqb_spec (cached_period e) (TimePeriod.number (period ring))) as [Hn|]; [|done]. injection Ed as Ed.
    exists ring, j. split_and!; [exact R|exact F|exact L|lia|]. left. split.
    + exists e. split; [split; [by apply unexpired_iff|exact Hn]|exact Ed].
    + intros k x Hx. rewrite E in Hx. by apply unexpired_iff.
  - apply triple_conseq with (P' := fun s => ((forall e, D !! public_key address = Some e ->
        cached_period e <> TimePeriod.number (period ring)) /\ (Client.moment s0 <= j)%nat) /\
        (asking s0 ring D s /\ (S j <= Client.moment s)%nat))
      (Q' := fun d s => cache_ok s /\ handed s0 address d s) (E' := cache_ok); [| |done|done]; cycle 1.
    { intros s [(A & L & M) ->]. refine (conj (conj _ L) (conj A _)); [|by rewrite M]. intros e He Hn.
      rewrite (asking_cached _ _ _ _ A), He in Ed. cbn in Ed. by rewrite Hn, Z.eqb_refl in Ed. }
    apply triple_pre. intros [None L].
    eapply triple_bind; [by apply fetch_genuine|]. intros d.
    eapply triple_bind; [eapply triple_conseq; [apply ask_moves|intros s Hs; exact Hs|intros i s Hs; exact Hs|done]|].
    intros i. eapply triple_bind; [|intros u; apply triple_ret; intros s Hs; exact Hs].
    apply triple_put. intros s (s2 & [[[[C Ls] E R F] N] A] & -> & M & Es & Rs).
    eapply store_handed; [|exact M| |exact None|exact A]; [|lia].
    split; [split; [by eapply cache_ok_later; [exact C| |lia]|lia]|exact (eq_trans Es E)|exact (eq_trans Rs R)|done].
Qed.
End authentic.

(** ** The directory nodes' verdict *)

Section verdict.
Context `{Crypto} `{Machine} (w : World) (path blinded sub : bytes).
Notation answer i x := (answer w i path blinded sub x).
Notation Results := (list (bytes * result Descriptor.t)).

Definition absence (r : result Descriptor.t) : Prop := exists e, r = Err e /\ kind e = NotFound.
Definition plain (x : bytes) : Prop := forall i, (exists d, answer i x = Ok d) \/ absence (answer i x).
Definition holder (x : bytes) : Prop := forall i, exists d, answer i x = Ok d.
Definition absentee (x : bytes) : Prop := forall i, absence (answer i x).

(** What a group of nodes answers, when they only have it or have it not. *)
Record told (group : list bytes) (results : Results) : Prop := {
  told_plain : forall x r, (x, r) ∈ results -> (exists d, r = Ok d) \/ absence r;
  told_holder : Exists holder group -> exists x d, (x, Ok d) ∈ results;
  told_absent : Forall absentee group ->
    (group <> [] -> results <> []) /\ forall x d, (x, Ok d) ∉ results;
}.

Lemma asked_node x s :
  exists s', attempt (fetch_descriptor_from w path blinded sub x) s = Some (s', Ok (answer (Client.moment s) x)).
Proof. by eexists. Qed.

Lemma told_one x i : plain x -> told [x] [(x, answer i x)].
Proof.
  intros P. split.
  - intros y r [= -> ->]%list_elem_of_singleton. apply P.
  - intros [y [Hy Hh]]%Exists_exists. apply list_elem_of_singleton in Hy as ->. destruct (Hh i) as [d ->].
    exists x, d. apply list_elem_of_here.
  - intros A. rewrite Forall_singleton in A. split; [done|]. intros y d [= -> E]%list_elem_of_singleton.
    destruct (A i) as (e & E' & _). congruence.
Qed.

Lemma until_found_told order : forall s, Forall plain order ->
  exists s' results, until_found w path blinded sub order s = Some (s', Ok results) /\ told order results.
Proof.
  induction order as [|x order IH]; intros s P; cbn [until_found].
  { exists s, []. split; [done|]. split; [by intros ? ? ?%not_elem_of_nil|by intros ?%Exists_nil|].
    split; [done|]. by intros ? ? ?%not_elem_of_nil. }
  apply Forall_cons in P as [Px P]. destruct (asked_node x s) as [s1 E1].
  destruct (IH s1 P) as (s2 & rest & E2 & T).
  unfold mbind, comp_bind at 1. rewrite E1. destruct (answer (Client.moment s) x) as [d|e] eqn:Ea.
  - exists s1, [(x, Ok d)]. split; [done|]. split.
    + intros y r [= -> ->]%list_elem_of_singleton. left. by exists d.
    + intros _. exists x, d. apply list_elem_of_here.
    + intros A. apply Forall_cons in A as [A _]. destruct (A (Client.moment s)) as (e & E' & _). congruence.
  - exists s2, ((x, Err e) :: rest). unfold mbind, comp_bind. rewrite E2. split; [done|].
    destruct (Px (Client.moment s)) as [[d Hd]|Ab]; [congruence|]. rewrite Ea in Ab. split.
    + intros y r [[= -> ->]|Hr]%elem_of_cons; [by right|]. by eapply (told_plain _ _ T).
    + intros Ex. apply Exists_cons in Ex as [Hh|Ex].
      * destruct (Hh (Client.moment s)) as [d Hd]. congruence.
      * destruct (told_holder _ _ T Ex) as (y & d & Hy). exists y, d. apply elem_of_cons. by right.
    + intros A. apply Forall_cons in A as [_ A]. split; [done|]. intros y d [?|Hy]%elem_of_cons; [done|].
      by eapply (told_absent _ _ T).
Qed.

Lemma told_perm group group' results : group ≡ₚ group' -> told group results -> told group' results.
Proof.
  intros Pm [T1 T2 T3]. split; [done| |].
  - intros Ex. apply T2. by rewrite Pm.
  - intros A. destruct T3 as [T3 T4]; [by rewrite Pm|]. split; [|done]. intros Ne. apply T3.
    intros ->. by apply Permutation_nil_l in Pm.
Qed.

Context (orders : forall i l, w_order w i l ≡ₚ l).

Lemma ask_hsdirs_told group s : Forall plain group ->
  exists s' results, ask_hsdirs w path blinded sub group s = Some (s', Ok results) /\ told group results.
Proof using orders.
  intros P.
  assert (Many : exists s' results,
    (i ← ask w; until_found w path blinded sub (w_order w i group)) s = Some (s', Ok results) /\ told group results).
  { destruct (ask w s) as [[s1 [i|]]|] eqn:E1; [|done..].
    destruct (until_found_told (w_order w i group) s1) as (s' & results & E & T); [by rewrite orders|].
    exists s', results. unfold mbind, comp_bind. rewrite E1. split; [done|]. eapply told_perm; [apply orders|exact T]. }
  destruct group as [|x [|y group]]; [exact Many| |exact Many].
  destruct (asked_node x s) as [s1 E1]. exists s1, [(x, answer (Client.moment s) x)].
  unfold ask_hsdirs, mbind, comp_bind. rewrite E1. split; [done|]. apply told_one. by rewrite Forall_singleton in P.
Qed.

Definition absent_so_far (last : option io_error) : Prop := forall e, last = Some e -> kind e = NotFound.

Lemma weigh_plain (results : Results) : forall last,
  (forall x r, (x, r) ∈ results -> (exists d, r = Ok d) \/ absence r) -> absent_so_far last ->
  (exists d, weigh results last true = inl (Ok d) /\ exists x, (x, Ok d) ∈ results) \/
  (exists last', weigh results last true = inr (last', true) /\ absent_so_far last' /\
     (results <> [] \/ last <> None -> last' <> None) /\ forall x d, (x, Ok d) ∉ results).
Proof.
  induction results as [|[x r] results IH]; intros last P A; cbn [weigh].
  { right. exists last. split_and!; [done|done|by intros [?|?]|]. by intros ? ? ?%not_elem_of_nil. }
  destruct (P x r (list_elem_of_here _ _)) as [[d ->]|(e & -> & K)].
  { left. exists d. split; [done|]. exists x. apply list_elem_of_here. }
  rewrite K. cbn. destruct (IH (Some e)) as [(d & E & y & Hy)|(last' & E & A' & N & No)].
  { intros y r Hr. apply (P y). apply elem_of_cons. by right. }
  { by intros e' [= <-]. }
  - left. exists d. split; [done|]. exists y. apply elem_of_cons. by right.
  - right. exists last'. split_and!; [done|done|intros _; apply N; by right|].
    intros y d [?|Hy]%elem_of_cons; [done|by eapply No].
Qed.

Lemma ask_groups_told groups : forall last asked s,
  Forall plain (concat groups) -> absent_so_far last ->
  exists s' r, ask_groups w path blinded sub groups last true asked s = Some (s', r) /\
    (Exists holder (concat groups) -> exists d, r = Ok d) /\
    (Forall absentee (concat groups) -> concat groups <> [] \/ last <> None -> r = Err not_published).
Proof using orders.
  induction groups as [|g groups IH]; intros last asked s P A; cbn [ask_groups concat] in *.
  { exists s, (Err (no_answer last true)). split_and!; [done|by intros ?%Exists_nil|].
    intros _ [?|Hl]; [done|]. destruct last as [e|]; [|done]. unfold no_answer. by rewrite orb_true_r. }
  rewrite andb_false_r. apply Forall_app in P as [Pg P].
  destruct (ask_hsdirs_told g s Pg) as (s1 & results & E1 & T). unfold mbind, comp_bind. rewrite E1.
  destruct (weigh_plain results last (told_plain _ _ T) A) as [(d & -> & x & Hx)|(last' & -> & A' & N & No)].
  - exists s1, (Ok d). split_and!; [done|by exists d|]. intros Ab. exfalso.
    apply Forall_app in Ab as [Ab _]. by eapply (told_absent _ _ T Ab).
  - destruct (IH last' (asked + length g)%nat s1 P A') as (s' & r & E & Hh & Ha).
    exists s', r. split_and!; [done| |].
    + intros Ex. apply Exists_app in Ex as [Ex|Ex]; [|by apply Hh].
      destruct (told_holder _ _ T Ex) as (x & d & Hx). by apply No in Hx.
    + intros Ab Ne. apply Forall_app in Ab as [Ag Ab]. apply Ha; [done|].
      destruct (decide (concat groups = [])) as [Ec|Ec]; [right|by left]. apply N. rewrite Ec, app_nil_r in Ne.
      destruct Ne as [Ne|?]; [left; by apply (told_absent _ _ T Ag)|by right].
Qed.
End verdict.

(** ** The claims *)

(** C37. Whatever the other threads do to the shared circuits while this one waits,
    opening a stream to a service -- or moving one to another circuit -- leaves
    every circuit that was ever established in one place: held under its own
    service's key and counted, closed, or let go of because it was already
    closed or too old; at most [MAX_CIRCUITS] are held; and the stream that is
    returned was begun on a circuit established for this very service. *)
Theorem onion_circuits_accounted `{Crypto} `{Machine} w address port s s' r :
  accounted w [] (Client.tables s) ->
  connect_onion w address port s = Some (s', r) \/ reattach_onion w address port s = Some (s', r) ->
  accounted w [] (Client.tables s') /\ forall stream, r = Ok stream -> begun w address port stream s'.
Proof.
  intros A E.
  assert (Hs : holds w address [] [] s) by (split; [done|]; by intros ? ?%not_elem_of_nil).
  assert (T : match r with
              | Ok stream => holds w address [] [] s' /\ begun w address port stream s'
              | Err _ => holds w address [] [] s'
              end).
  { destruct E as [E|E]; [exact (connect_loop_holds w address _ port _ s s' r Hs E)|].
    exact (reattach_holds w address port s s' r Hs E). }
  destruct r as [stream|e]; [|by destruct T]. destruct T as [[A' _] B]. split; [done|]. by intros ? [= ->].
Qed.

(** C38. A descriptor the client hands out is genuine and fresh.  The ring in
    use is the one of the consensus in force when the call began.  If the cache
    has an entry for the address, of that ring's period and not past its
    lifetime at a moment of this call, that one is handed out; only if it has
    none, a descriptor is handed out that was parsed -- its certificate,
    signature and both layers included -- from what a directory node sent during
    this call, under the blinded key and subcredential the address has in that
    period, and it is then cached for its lifetime, never above twelve hours.
    Either way every other entry left in the cache was unexpired during the
    call, and the cache keeps to what was authentic in its period when it was
    fetched and expires a lifetime after. *)
Theorem descriptors_are_authentic `{Crypto} `{Machine} w address s s' r :
  cache_ok w s -> descriptor_for w address s = Some (s', r) ->
  cache_ok w s' /\ forall d, r = Ok d -> handed w s address d s' /\ lifetime d <= 12 * 3600.
Proof.
  intros C E. pose proof (descriptor_for_genuine w address s C s s' r eq_refl E) as T.
  destruct r as [d|e]; [|by split]. destruct T as [C' I]. split; [done|]. intros d' [= <-].
  split; [done|]. unfold lifetime. lia.
Qed.

(** The verdict on a service whose directory nodes either have its descriptor
    or say they have none: in whatever order the nodes are asked and answer,
    and however small the usual budget, one node with a descriptor is enough
    to get it, and when none has one the service is reported as not
    published. *)
Theorem directory_verdict `{Crypto} `{Machine} w ring blinded sub s s1 order :
  let nodes := responsible_for ring blinded in
  let path := descriptor_path blinded in
  (forall i l, w_order w i l ≡ₚ l) ->
  Forall (plain w path blinded sub) nodes ->
  draw (Rand.shuffle nodes) s = Some (s1, Ok order) ->
  exists s' r, fetch_descriptor w ring blinded sub s = Some (s', r) /\
    (Exists (holder w path blinded sub) nodes -> exists d, r = Ok d) /\
    (Forall (absentee w path blinded sub) nodes -> nodes <> [] -> r = Err not_published).
Proof.
  intros nodes path Orders P D.
  assert (Pm : order ≡ₚ nodes).
  { unfold draw in D. destruct (Rand.shuffle nodes (Client.draws s)) as [l d| |] eqn:Sh; [|done..].
    injection D as _ ->. by eapply shuffle_permutation. }
  assert (Ec : concat (chunks HSDIR_PARALLEL order) = order) by (apply concat_chunks; unfold HSDIR_PARALLEL; lia).
  destruct (ask_groups_told w path blinded sub Orders (chunks HSDIR_PARALLEL order) None 0 s1) as (s' & r & E & Hh & Ha).
  { by rewrite Ec, Pm. }
  { done. }
  rewrite Ec in Hh, Ha. exists s', r. split_and!.
  - unfold fetch_descriptor, mbind, comp_bind. fold nodes. by rewrite D.
  - rewrite <- Pm. exact Hh.
  - intros Ab Ne. apply Ha; [by rewrite Pm|]. left. intros ->. by apply Permutation_nil_l in Pm.
Qed.

(** ** A client and a service *)
Module OnionClientDemo.
Import Toy.

(** The neutral point is its own blinding. *)
Definition neutral : bytes := 1 :: zeros 31.
Definition address : OnionAddress := MkOnion neutral.
Definition sub : bytes := subcredential address neutral.
Definition other_key : bytes := replicate 32 200.

Definition router (n : Z) : RouterStatus.t :=
  RouterStatus.Mk (replicate 20 n) (replicate 32 n) [10; 0; n; 1] 9001 FLAG_HSDIR 1000.
Definition consensus : Consensus.t :=
  Consensus.Mk 1700000000 1700003600 1700010800 (map router [1; 2; 3]) Params.default None None.

Definition unpublished : io_error := IoError NotFound (Message "directory server answered HTTP {status}").
Definition reset : io_error := other_error "the circuit was closed".

(** The first directory node has no copy.  While the client waits, another
    thread opens a circuit to the same service, then one to another, and once
    more one to this; the first turns out not to work. *)
Definition world : World := {|
  w_consensus _ := consensus;
  w_now i := 100 + Z.of_nat i;
  w_unix _ := 1000;
  w_dir_circuit _ := Ok tt;
  w_ed_ids _ ds := list_to_map (map (fun d => (d, d)) ds);
  w_order _ l := rev l;
  w_fetch _ identity _ :=
    if bytes_eqb identity (replicate 20 1) then Err unpublished else Ok (DescriptorDemo.document neutral sub);
  w_establish _ _ _ := inl tt;
  w_is_closed _ _ := false;
  w_begin _ h port := if (h =? 0)%nat then Err reset else Ok (100 + h)%nat;
  w_others i :=
    match i with
    | 0%nat => [Admitting neutral] | 2%nat => [Admitting other_key]
    | 3%nat => [Admitting neutral; Reusing] | _ => []
    end;
|}.

Definition fresh : Client.t :=
  Client.Mk (Tables.Mk ∅ 0 0 []) None false ∅ [Ok 2; Ok 1] 0.

Lemma fresh_accounted : accounted world [] (Client.tables fresh).
Proof.
  split; try done; try (intros * H; exfalso; revert H; apply not_elem_of_nil).
  apply Nat.le_0_l.
Qed.

(** What there is to see of a run. *)
Definition seen {A} (r : option (Client.t * result A)) : option (list Event * nat * result A) :=
  match r with Some (s, r) => Some (Tables.log (Client.tables s), Tables.in_use (Client.tables s), r) | None => None end.

Lemma connected : seen (connect_onion world address 80 fresh) =
  Some ([Established neutral 0; Established other_key 1; Closed 0; Established neutral 2], 2%nat, Ok 102%nat).
Proof. by vm_compute. Qed.

Lemma accounted_witness :
  exists s', connect_onion world address 80 fresh = Some (s', Ok 102%nat) /\
    accounted world [] (Client.tables s') /\ Tables.in_use (Client.tables s') = 2%nat /\
    was_established (Client.tables s') neutral 2.
Proof.
  pose proof connected as C. destruct (connect_onion world address 80 fresh) as [[s' r]|] eqn:E; [|done].
  cbn [seen] in C. injection C as L U R. subst r.
  destruct (onion_circuits_accounted world address 80 fresh s' (Ok 102%nat) fresh_accounted (or_introl E)) as [A B].
  exists s'. split; [reflexivity|]. split; [exact A|]. split; [exact U|].
  unfold was_established. rewrite L. do 3 apply list_elem_of_further. apply list_elem_of_here.
Defined.

Lemma fresh_cache : cache_ok world fresh.
Proof. by intros key e H. Qed.

Lemma blinded_neutral p : TimePeriod.blinded_key p neutral = Ok neutral.
Proof.
  apply blinded_zero. unfold TimePeriod.blinding_param, sha3_256. split; [apply hash_bytes|].
  match goal with |- length (hash _ ?m) = _ => pose proof (hash_len Sha3_256 m) as L end. apply Nat2Z.inj. exact L.
Qed.

Definition after_ring : Client.t := match hsdir_ring world fresh with Some (s, _) => s | None => fresh end.
Definition first_ring : HsdirRing := default (MkRing (TimePeriod.Mk 0 0) 0 [] 0 0) (Client.ring after_ring).
Lemma ring_built : hsdir_ring world fresh = Some (after_ring, Ok first_ring).
Proof. by vm_compute. Qed.

Lemma described : match descriptor_for world address fresh with
  | Some (s, r) => Some (r, size (Client.descriptors s)) | None => None end
  = Some (Ok DescriptorDemo.expected, 1%nat).
Proof.
  eassert (descriptor_for world address fresh = _) as E.
  { unfold descriptor_for. exact (bind_ok (hsdir_ring world) _ fresh after_ring first_ring ring_built). }
  rewrite E. clear E. change (public_key address) with neutral. rewrite blinded_neutral.
  rewrite bind_lift. by vm_compute.
Qed.

Lemma authentic_witness :
  exists s', descriptor_for world address fresh = Some (s', Ok DescriptorDemo.expected) /\
    cache_ok world s' /\ handed world fresh address DescriptorDemo.expected s'.
Proof.
  pose proof described as D. destruct (descriptor_for world address fresh) as [[s' r]|] eqn:E; [|done].
  injection D as R _. subst r.
  destruct (descriptors_are_authentic world address fresh s' _ fresh_cache E) as [C I].
  exists s'. split; [reflexivity|]. split; [exact C|exact (proj1 (I _ eq_refl))].
Defined.

(** *** The verdict *)

Definition ring : HsdirRing :=
  MkRing (TimePeriod.Mk 19675 1440) 1700000000
    (HsDir.build_ring (map (fun n => (replicate 20 n, replicate 32 n)) [1; 2; 3]) (zeros 32) (TimePeriod.Mk 19675 1440)) 2 3.

Lemma three_nodes : responsible_for ring neutral ≡ₚ [replicate 20 1; replicate 20 2; replicate 20 3].
Proof. apply (bool_decide_unpack _). by vm_compute. Qed.

Lemma node_answers i n : n ∈ [2; 3] ->
  answer world i (descriptor_path neutral) neutral sub (replicate 20 n) = Ok DescriptorDemo.expected.
Proof.
  assert (E : forall raw, raw = DescriptorDemo.document neutral sub ->
    (if MAX_DESCRIPTOR_BYTES <? len raw then Err (invalid_data "onion service descriptor is implausibly large")
     else if negb (utf8_valid raw) then Err (invalid_data "onion service descriptor is not UTF-8")
     else Descriptor.parse raw neutral sub 1000) = Ok DescriptorDemo.expected).
  { intros raw ->. by vm_compute. }
  intros H. repeat (apply elem_of_cons in H as [->|H]); [| |by apply not_elem_of_nil in H].
  all: exact (E _ eq_refl).
Qed.

Lemma node_without i : answer world i (descriptor_path neutral) neutral sub (replicate 20 1) = Err unpublished.
Proof. reflexivity. Qed.

Lemma drawn : match draw (Rand.shuffle (responsible_for ring neutral)) fresh with
  | Some (_, Ok l) => length l | _ => 0%nat end = 3%nat.
Proof. by vm_compute. Qed.

Lemma verdict_witness :
  exists s' d, fetch_descriptor world ring neutral sub fresh = Some (s', Ok d).
Proof.
  pose proof drawn as D.
  destruct (draw (Rand.shuffle (responsible_for ring neutral)) fresh) as [[s1 [order|e]]|] eqn:E; [|done..].
  destruct (directory_verdict world ring neutral sub fresh s1 order) as (s' & r & Run & Holds & _); [| |exact E|].
  - intros i l. symmetry. apply Permutation_rev.
  - rewrite three_nodes. repeat (apply Forall_cons; split); [| | |apply Forall_nil_2]; intros i.
    + right. exists unpublished. split; [apply node_without|reflexivity].
    + left. exists DescriptorDemo.expected. apply (node_answers i 2), list_elem_of_here.
    + left. exists DescriptorDemo.expected. apply (node_answers i 3), list_elem_of_further, list_elem_of_here.
  - destruct Holds as [d ->]; [|exists s', d; exact Run]. rewrite three_nodes. apply Exists_cons_tl, Exists_cons_hd.
    intros i. exists DescriptorDemo.expected. apply (node_answers i 2), list_elem_of_here.
Defined.

(** *** What modelling showed *)

(** A circuit past its age is dropped from the table and nobody closes it. *)
Example an_expired_circuit_is_not_closed :
  let t := Tables.Mk {[neutral := MkPooled 0 (-600)]} 1 1 [Established neutral 0] in
  Tables.log (fst (reuse world 0 neutral t)) = [Established neutral 0; Dropped 0 (MkPooled 0 (-600))] /\
  w_is_closed world 0 0 = false.
Proof. by vm_compute. Qed.

(** A stream fails on circuit 0; another thread has already replaced that
    circuit by 1, and 1 is closed. *)
Example a_fresh_replacement_is_closed :
  let t := Tables.Mk {[neutral := MkPooled 1 100]} 1 2 [Established neutral 0; Closed 0; Established neutral 1] in
  Tables.log (discard neutral t) = [Established neutral 0; Closed 0; Established neutral 1; Closed 1].
Proof. by vm_compute. Qed.

(** One node answers with something that is not a descriptor, the next one
    that it has none: the service is reported as not published. *)
Example one_absence_is_enough :
  match weigh [(replicate 20 1, Err (invalid_data "onion service descriptor is not UTF-8"));
               (replicate 20 2, Err unpublished)] None true with
  | inr (last, all_absent) => all_absent = false /\ no_answer last all_absent = not_published
  | inl _ => False
  end.
Proof. by vm_compute. Qed.
End OnionClientDemo.
