(* ===== verification/Status.v ===== *)
(** * The status page ([src/src/status.rs], [TorClient::status])

    The writer of JSON appends to a string and remembers, per open object,
    whether it has a member; [render] drives it.  The theorems compare it with
    a printer of JSON trees, and read the page back. *)
From S2P Require Import Prelude.
From S2P Require Import Text.
From S2P Require Import Util.
From S2P Require Import Consensus.
From S2P Require Import Pool.
From S2P Require Import Guards.
From S2P Require Import OnionClient.
From S2P Require Import Socks5.

Definition QUOTE : Z := 34.
Definition BACKSLASH : Z := 92.
Definition COMMA : Z := 44.

(** [{:04x}] of a byte below 32. *)
Definition hex_lower (d : Z) : Z := if d <? 10 then 48 + d else 87 + d.
Definition escaped (c : Z) : bytes := [BACKSLASH; 117; 48; 48; hex_lower (c / 16); hex_lower (c mod 16)].

(** Character by character in the source; the bytes of a character past ASCII
    are all 128 or more and pass unchanged. *)
Definition quote_char (c : Z) : bytes :=
  if c =? QUOTE then [BACKSLASH; QUOTE]
  else if c =? BACKSLASH then [BACKSLASH; BACKSLASH]
  else if c <? 32 then escaped c
  else [c].
Definition quote (out s : bytes) : bytes := out ++ QUOTE :: concat (map quote_char s) ++ [QUOTE].

Module Json.
(** [has_member] has the innermost object first. *)
Record t := Mk { out : bytes; depth : nat; has_member : list bool }.
Definition default : t := Mk [] 0 [].

Definition push (s : bytes) (j : t) : t := j{{out := out j ++ s}}.

Definition newline (j : t) : t := push (NL :: concat (replicate (depth j) (B "  "))) j.

Definition open (j : t) : t :=
  let j := push [123] j in Mk (out j) (S (depth j)) (false :: has_member j).

(** Every [close] has its [open], so [depth] is not zero. *)
Definition close (j : t) : t :=
  let j := j{{depth := (depth j - 1)%nat}} in
  let top := head (has_member j) in
  let j := j{{has_member := tail (has_member j)}} in
  push [125] (if bool_decide (top = Some true) then newline j else j).

Definition key (k : bytes) (j : t) : t :=
  let j := match has_member j with
           | has :: rest =>
               let j := if has then push [COMMA] j else j in j{{has_member := true :: rest}}
           | [] => j
           end in
  let j := newline j in
  push (B ": ") (j{{out := quote (out j) k}}).

Definition str (k value : bytes) (j : t) : t := let j := key k j in j{{out := quote (out j) value}}.
Definition num (k : bytes) (value : Z) (j : t) : t := push (show_uint value) (key k j).
Definition bool (k : bytes) (value : Datatypes.bool) (j : t) : t :=
  push (if value then B "true" else B "false") (key k j).
Definition null (k : bytes) (j : t) : t := push (B "null") (key k j).

Definition finish (j : t) : bytes := out j ++ [NL].
End Json.

(** ** What the page shows *)

Record ClientStatus := MkStatus {
  relays : Z; guard_relays : Z; exit_relays : Z;
  valid_after : Z; fresh_until : Z; valid_until : Z;
  guards : Z; guards_demoted : Z; guards_unreachable : Z; guard_channel_open : bool;
  slow_guard_changes : Z; stubs : Z; circuits : Z; onion_circuits : Z; descriptors : Z;
  hsdir_ring_built : bool;
}.

(** [TorClient::status]: [counts] retires circuits on the way. *)
Definition status (look : nat -> Look) (c : Consensus.t) (g : Guards.t) (slow : Z) (p : Pool.State.t)
    (s : OnionClient.Client.t) : Pool.State.t * list Pool.handle * ClientStatus :=
  let '(p, closing, (stubs, circuits)) := counts look p in
  (p, closing, {|
    relays := len (Consensus.routers c);
    guard_relays := Consensus.count_with c (Z.lor (Z.lor FLAG_GUARD FLAG_RUNNING) FLAG_VALID);
    exit_relays := Consensus.count_with c (Z.lor (Z.lor FLAG_EXIT FLAG_RUNNING) FLAG_VALID);
    valid_after := Consensus.valid_after c;
    fresh_until := Consensus.fresh_until c;
    valid_until := Consensus.valid_until c;
    guards := len (Guards.entries g);
    guards_demoted := len (filter (fun e => is_Some (GuardEntry.demoted_unix e)) (Guards.entries g));
    guards_unreachable := len (filter (fun e => is_Some (GuardEntry.failed_at e)) (Guards.entries g));
    guard_channel_open := bool_decide (is_Some (Guards.open g));
    slow_guard_changes := slow;
    stubs := Z.of_nat stubs;
    circuits := Z.of_nat circuits;
    onion_circuits := Z.of_nat (size (Tables.open (OnionClient.Client.tables s)));
    descriptors := Z.of_nat (size (OnionClient.Client.descriptors s));
    hsdir_ring_built := bool_decide (is_Some (OnionClient.Client.ring s));
  |}).

(** [find_map] over the lines of [/proc/self/status]. *)
Fixpoint find_field (lines : list bytes) (field : bytes) : option bytes :=
  match lines with
  | [] => None
  | line :: lines =>
      match (rest ← strip_prefix field line; strip_prefix [58] rest) with
      | Some rest => Some rest
      | None => find_field lines field
      end
  end.
Definition proc_field (text field : bytes) : option Z :=
  rest ← find_field (lines text) field;
  n ← head (split_whitespace rest);
  parse_uint (2 ^ 64 - 1) n.

(** What [render] reads: the build, the clock (twice), the counters, the
    client if it is ready, and the operating system. *)
Record Sources := MkSources {
  version : bytes; commit : option bytes;
  listen_port : Z; now_unix : Z; started_unix : Z; uptime : Z;
  counters : Counters.t;
  client : option (ClientStatus * Z);
  proc_status : bytes;
  arch : bytes; os : bytes; library_paths : option (bytes * bytes); zlib : option bytes;
}.

Definition FAILURE_NAMES : list bytes :=
  [B "succeeded"; B "general_failure"; B "not_allowed"; B "network_unreachable"; B "host_unreachable";
   B "connection_refused"; B "ttl_expired"; B "command_not_supported"; B "address_type_not_supported"].
Definition PROC_FIELDS : list (bytes * bytes) :=
  [(B "VmRSS", B "vm_rss_kb"); (B "VmHWM", B "vm_hwm_kb"); (B "Threads", B "threads")].

(** ** The page *)

Definition tor_section (j : Json.t) (s : ClientStatus) (now : Z) : Json.t :=
  let j := Json.key (B "tor") j in
  let j := Json.open j in
  let j := Json.key (B "consensus") j in
  let j := Json.open j in
  let j := Json.num (B "relays") (relays s) j in
  let j := Json.num (B "guards") (guard_relays s) j in
  let j := Json.num (B "exits") (exit_relays s) j in
  let j := Json.str (B "valid_after") (format_datetime (valid_after s)) j in
  let j := Json.str (B "fresh_until") (format_datetime (fresh_until s)) j in
  let j := Json.str (B "valid_until") (format_datetime (valid_until s)) j in
  let j := Json.num (B "age_seconds") (sat_sub now (valid_after s)) j in
  let j := Json.bool (B "fresh") (now <? fresh_until s) j in
  let j := Json.bool (B "live") (now <? valid_until s) j in
  let j := Json.close j in
  let j := Json.key (B "guards") j in
  let j := Json.open j in
  let j := Json.num (B "count") (guards s) j in
  let j := Json.num (B "demoted") (guards_demoted s) j in
  let j := Json.num (B "unreachable") (guards_unreachable s) j in
  let j := Json.bool (B "channel_open") (guard_channel_open s) j in
  let j := Json.num (B "slow_guard_changes") (slow_guard_changes s) j in
  let j := Json.close j in
  let j := Json.key (B "circuits") j in
  let j := Json.open j in
  let j := Json.num (B "stubs") (stubs s) j in
  let j := Json.num (B "exit") (circuits s) j in
  let j := Json.num (B "onion") (onion_circuits s) j in
  let j := Json.num (B "onion_descriptors_cached") (descriptors s) j in
  let j := Json.bool (B "hsdir_ring_built") (hsdir_ring_built s) j in
  let j := Json.close j in
  Json.close j.

Definition num_or_null (k : bytes) (value : option Z) (j : Json.t) : Json.t :=
  match value with Some v => Json.num k v j | None => Json.null k j end.
Definition str_or_null (k : bytes) (value : option bytes) (j : Json.t) : Json.t :=
  match value with Some v => Json.str k v j | None => Json.null k j end.

Definition render (s : Sources) : bytes :=
  let j := Json.open Json.default in
  let j := Json.str (B "version") (version s) j in
  let j := str_or_null (B "commit") (commit s) j in
  let j := Json.str (B "state") (match client s with Some _ => B "ready" | None => B "bootstrapping" end) j in
  let j := Json.num (B "listen_port") (listen_port s) j in
  let j := Json.num (B "now_unix") (now_unix s) j in
  let j := Json.num (B "started_unix") (started_unix s) j in
  let j := Json.num (B "uptime_seconds") (uptime s) j in
  let c := counters s in
  let j := Json.key (B "connections") j in
  let j := Json.open j in
  let j := Json.num (B "accepted") (Counters.accepted c) j in
  let j := Json.num (B "active") (Counters.active c) j in
  let j := Json.num (B "succeeded") (Counters.succeeded c) j in
  let j := Json.num (B "handshake_failed") (Counters.handshake_failed c) j in
  let j := Json.num (B "status_requests") (Counters.status_requests c) j in
  let j := Json.key (B "requests") j in
  let j := Json.open j in
  let j := Json.num (B "socks5") (Counters.socks5 c) j in
  let j := Json.num (B "socks4") (Counters.socks4 c) j in
  let j := Json.num (B "http_connect") (Counters.http_connect c) j in
  let j := Json.num (B "onion") (Counters.onion c) j in
  let j := Json.close j in
  let j := Json.key (B "failed") j in
  let j := Json.open j in
  let j := fold_left (fun j nc => Json.num (fst nc) (snd nc) j) (drop 1 (zip FAILURE_NAMES (Counters.failed c))) j in
  let j := Json.close j in
  let j := Json.close j in
  let j := Json.key (B "bytes") j in
  let j := Json.open j in
  let j := Json.num (B "from_clients") (Counters.bytes_up c) j in
  let j := Json.num (B "to_clients") (Counters.bytes_down c) j in
  let j := Json.close j in
  let j := match client s with
           | Some (status, now) => tor_section j status now
           | None => Json.null (B "tor") j
           end in
  let j := Json.key (B "process") j in
  let j := Json.open j in
  let j := fold_left (fun j fn => num_or_null (snd fn) (proc_field (proc_status s) (fst fn)) j) PROC_FIELDS j in
  let j := Json.close j in
  let j := Json.key (B "runtime") j in
  let j := Json.open j in
  let j := Json.str (B "arch") (arch s) j in
  let j := Json.str (B "os") (os s) j in
  let j := match library_paths s with
           | Some (ssl, crypto) => Json.str (B "libcrypto") crypto (Json.str (B "libssl") ssl j)
           | None => Json.null (B "libcrypto") (Json.null (B "libssl") j)
           end in
  let j := str_or_null (B "zlib") (zlib s) j in
  let j := Json.close j in
  Json.finish (Json.close j).

(** ** JSON trees and their printer *)

Inductive json :=
  | JStr (s : bytes)
  | JNum (n : Z)
  | JBool (b : bool)
  | JNull
  | JObj (members : list (bytes * json)).

Section json_ind.
Context (P : json -> Prop) (HS : forall s, P (JStr s)) (HN : forall n, P (JNum n)) (HB : forall b, P (JBool b)) (HU : P JNull)
  (HO : forall ms, Forall (fun kv => P (snd kv)) ms -> P (JObj ms)).
Fixpoint json_nested_ind (v : json) : P v :=
  match v with
  | JStr s => HS s
  | JNum n => HN n
  | JBool b => HB b
  | JNull => HU
  | JObj ms => HO ms ((fix all ms : Forall (fun kv => P (snd kv)) ms :=
      match ms with
      | [] => Forall_nil_2 _
      | kv :: ms => Forall_cons_2 _ _ _ (json_nested_ind (snd kv)) (all ms)
      end) ms)
  end.
End json_ind.

Definition quoted (s : bytes) : bytes := quote [] s.
Definition indent (d : nat) : bytes := NL :: concat (replicate d (B "  ")).

Section members.
Context (show : json -> bytes) (d : nat).
Fixpoint show_members (first : bool) (ms : list (bytes * json)) : bytes :=
  match ms with
  | [] => []
  | (k, v) :: ms =>
      (if first then [] else [COMMA]) ++ indent (S d) ++ quoted k ++ B ": " ++ show v ++ show_members false ms
  end.
End members.

Fixpoint show (d : nat) (v : json) : bytes :=
  match v with
  | JStr s => quoted s
  | JNum n => show_uint n
  | JBool b => if b then B "true" else B "false"
  | JNull => B "null"
  | JObj ms =>
      [123] ++ show_members (show (S d)) d true ms ++ (match ms with [] => [] | _ => indent d end) ++ [125]
  end.

(** *** The writer prints trees *)

(** A member, and the members of an object, as calls of the writer. *)
Fixpoint write (k : bytes) (v : json) (j : Json.t) : Json.t :=
  match v with
  | JStr s => Json.str k s j
  | JNum n => Json.num k n j
  | JBool b => Json.bool k b j
  | JNull => Json.null k j
  | JObj ms =>
      Json.close (fold_left (fun j kv => let '(k, v) := kv in write k v j) ms (Json.open (Json.key k j)))
  end.

#[local] Arguments B : simpl never.
#[local] Arguments show_uint : simpl never.
Ltac normal := cbn; repeat (rewrite <- !app_assoc; cbn [app]).

(** What a member adds to an object. *)
Definition key_text (d : nat) (first : bool) (k : bytes) : bytes :=
  (if first then [] else [COMMA]) ++ indent d ++ quoted k ++ B ": ".

Lemma key_adds k out d first rest :
  Json.key k (Json.Mk out d (negb first :: rest)) = Json.Mk (out ++ key_text d first k) d (true :: rest).
Proof.
  unfold Json.key, key_text, Json.newline, Json.push, quoted, quote, indent. destruct first; normal; done.
Qed.

Lemma show_members_cons d first k v ms :
  show_members (show (S d)) d first ((k, v) :: ms) =
  key_text (S d) first k ++ show (S d) v ++ show_members (show (S d)) d false ms.
Proof. cbn [show_members]. unfold key_text. by rewrite <- !app_assoc. Qed.

Definition writes (v : json) : Prop := forall k out d first rest,
  write k v (Json.Mk out d (negb first :: rest)) = Json.Mk (out ++ key_text d first k ++ show d v) d (true :: rest).
Definition write_members (ms : list (bytes * json)) (j : Json.t) : Json.t :=
  fold_left (fun j kv => let '(k, v) := kv in write k v j) ms j.

Lemma members_add d rest ms : forall first out, Forall (fun kv => writes (snd kv)) ms ->
  write_members ms (Json.Mk out (S d) (negb first :: rest)) =
  Json.Mk (out ++ show_members (show (S d)) d first ms) (S d)
    (match ms with [] => negb first | _ => true end :: rest).
Proof.
  induction ms as [|[k v] ms IH]; intros first out F; unfold write_members; cbn [fold_left]; [by rewrite app_nil_r|].
  apply Forall_cons in F as [Fv F]. cbn [snd] in Fv. rewrite Fv. fold (write_members ms). change true with (negb false) at 1.
  rewrite IH by done. rewrite show_members_cons, <- !app_assoc. by destruct ms.
Qed.

(** An object opened, filled and closed. *)
Lemma object_adds ms out d rest : Forall (fun kv => writes (snd kv)) ms ->
  Json.close (write_members ms (Json.open (Json.Mk out d rest))) = Json.Mk (out ++ show d (JObj ms)) d rest.
Proof.
  intros F. unfold Json.open, Json.push. cbn. change false with (negb true). rewrite members_add by done.
  unfold Json.close, Json.newline, Json.push, indent. normal. rewrite Nat.sub_0_r.
  destruct ms as [|kv ms]; case_bool_decide; try done; normal; done.
Qed.

(** A member, as calls of the writer, adds what the printer prints. *)
Lemma write_member v : writes v.
Proof.
  induction v as [s|n|b| |ms IH] using json_nested_ind; intros k out d first rest; cbn [write show];
    unfold Json.str, Json.num, Json.bool, Json.null; rewrite key_adds; unfold Json.push, quoted, quote; [normal; done..|].
  fold (write_members ms). rewrite object_adds by done. by rewrite <- app_assoc.
Qed.

(** ** The page as a tree *)

Definition num_tree (v : option Z) : json := match v with Some v => JNum v | None => JNull end.
Definition str_tree (v : option bytes) : json := match v with Some v => JStr v | None => JNull end.

Definition tor_tree (s : ClientStatus) (now : Z) : json := JObj [
  (B "consensus", JObj [
    (B "relays", JNum (relays s)); (B "guards", JNum (guard_relays s)); (B "exits", JNum (exit_relays s));
    (B "valid_after", JStr (format_datetime (valid_after s)));
    (B "fresh_until", JStr (format_datetime (fresh_until s)));
    (B "valid_until", JStr (format_datetime (valid_until s)));
    (B "age_seconds", JNum (sat_sub now (valid_after s)));
    (B "fresh", JBool (now <? fresh_until s)); (B "live", JBool (now <? valid_until s))]);
  (B "guards", JObj [
    (B "count", JNum (guards s)); (B "demoted", JNum (guards_demoted s));
    (B "unreachable", JNum (guards_unreachable s)); (B "channel_open", JBool (guard_channel_open s));
    (B "slow_guard_changes", JNum (slow_guard_changes s))]);
  (B "circuits", JObj [
    (B "stubs", JNum (stubs s)); (B "exit", JNum (circuits s)); (B "onion", JNum (onion_circuits s));
    (B "onion_descriptors_cached", JNum (descriptors s)); (B "hsdir_ring_built", JBool (hsdir_ring_built s))])].

Definition page (s : Sources) : list (bytes * json) :=
  let c := counters s in [
  (B "version", JStr (version s)); (B "commit", str_tree (commit s));
  (B "state", JStr (match client s with Some _ => B "ready" | None => B "bootstrapping" end));
  (B "listen_port", JNum (listen_port s)); (B "now_unix", JNum (now_unix s));
  (B "started_unix", JNum (started_unix s)); (B "uptime_seconds", JNum (uptime s));
  (B "connections", JObj [
    (B "accepted", JNum (Counters.accepted c)); (B "active", JNum (Counters.active c));
    (B "succeeded", JNum (Counters.succeeded c)); (B "handshake_failed", JNum (Counters.handshake_failed c));
    (B "status_requests", JNum (Counters.status_requests c));
    (B "requests", JObj [
      (B "socks5", JNum (Counters.socks5 c)); (B "socks4", JNum (Counters.socks4 c));
      (B "http_connect", JNum (Counters.http_connect c)); (B "onion", JNum (Counters.onion c))]);
    (B "failed", JObj (map (fun nc => (fst nc, JNum (snd nc))) (drop 1 (zip FAILURE_NAMES (Counters.failed c)))))]);
  (B "bytes", JObj [(B "from_clients", JNum (Counters.bytes_up c)); (B "to_clients", JNum (Counters.bytes_down c))]);
  (B "tor", match client s with Some (status, now) => tor_tree status now | None => JNull end);
  (B "process", JObj (map (fun fn => (snd fn, num_tree (proc_field (proc_status s) (fst fn)))) PROC_FIELDS));
  (B "runtime", JObj [
    (B "arch", JStr (arch s)); (B "os", JStr (os s));
    (B "libssl", str_tree (fst <$> library_paths s)); (B "libcrypto", str_tree (snd <$> library_paths s));
    (B "zlib", str_tree (zlib s))])].

(** A whole document, as calls of the writer. *)
Definition write_document (ms : list (bytes * json)) : bytes :=
  Json.finish (Json.close (write_members ms (Json.open Json.default))).

Lemma write_document_shows ms : write_document ms = show 0 (JObj ms) ++ [NL].
Proof.
  unfold write_document, Json.default. rewrite object_adds; [done|]. apply Forall_true. intros kv. apply write_member.
Qed.

Lemma write_nums l j :
  write_members (map (fun nc => (fst nc, JNum (snd nc))) l) j = fold_left (fun j nc => Json.num (fst nc) (snd nc) j) l j.
Proof. revert j. induction l as [|[k n] l IH]; intros j; [done|]. cbn. apply IH. Qed.

Lemma write_fields text l j :
  write_members (map (fun fn => (snd fn, num_tree (proc_field text (fst fn)))) l) j =
  fold_left (fun j fn => num_or_null (snd fn) (proc_field text (fst fn)) j) l j.
Proof. revert j. induction l as [|[f n] l IH]; intros j; [done|]. cbn. rewrite IH. by destruct (proc_field text f). Qed.

#[local] Opaque Json.open Json.close Json.key Json.num Json.str Json.bool Json.null B.
Lemma render_document s : render s = write_document (page s).
Proof.
  unfold render, write_document, page. cbn [write_members fold_left write].
  rewrite <- write_nums, <- write_fields.
  destruct (commit s), (client s) as [[]|], (library_paths s) as [[]|], (zlib s); reflexivity.
Qed.
#[local] Transparent Json.open Json.close Json.key Json.num Json.str Json.bool Json.null B.

(** ** Reading JSON

    A reader of RFC 8259 for trees without arrays, fractions or signs, and
    with escapes below 128; anything else is refused. *)
Definition is_ws (c : Z) : bool := (c =? 32) || (c =? NL) || (c =? CR) || (c =? 9).
Fixpoint skip_ws (s : bytes) : bytes :=
  match s with
  | c :: rest => if is_ws c then skip_ws rest else s
  | [] => []
  end.

Definition hex_digit (c : Z) : option Z :=
  if is_ascii_digit c then Some (c - 48)
  else if (97 <=? c) && (c <=? 102) then Some (c - 87)
  else if (65 <=? c) && (c <=? 70) then Some (c - 55) else None.

Fixpoint read_string (s : bytes) : option (bytes * bytes) :=
  match s with
  | [] => None
  | c :: s =>
      if c =? QUOTE then Some ([], s)
      else if c =? BACKSLASH then
        match s with
        | e :: s =>
            if (e =? QUOTE) || (e =? BACKSLASH) || (e =? 47) then '(t, rest) ← read_string s; Some (e :: t, rest)
            else if e =? 117 then
              match s with
              | a :: b :: x :: y :: s =>
                  a ← hex_digit a; b ← hex_digit b; x ← hex_digit x; y ← hex_digit y;
                  let v := ((a * 16 + b) * 16 + x) * 16 + y in
                  if v <? 128 then '(t, rest) ← read_string s; Some (v :: t, rest) else None
              | _ => None
              end
            else None
        | [] => None
        end
      else if c <? 32 then None
      else '(t, rest) ← read_string s; Some (c :: t, rest)
  end.

Fixpoint span_digits (s : bytes) : bytes * bytes :=
  match s with
  | c :: rest => if is_ascii_digit c then let '(d, rest) := span_digits rest in (c :: d, rest) else ([], s)
  | [] => ([], [])
  end.

(** No leading zero. *)
Definition read_number (s : bytes) : option (Z * bytes) :=
  let '(d, rest) := span_digits s in
  if bool_decide (head d = Some 48 /\ (1 < length d)%nat) then None
  else match d with [] => None | _ => n ← parse_digits 0 d; Some (n, rest) end.

Fixpoint read_value (fuel : nat) (s : bytes) : option (json * bytes) :=
  match fuel with
  | O => None
  | S fuel =>
      match skip_ws s with
      | [] => None
      | (c :: rest) as s =>
          if c =? QUOTE then '(t, rest) ← read_string rest; Some (JStr t, rest)
          else if c =? 123 then
            match skip_ws rest with
            | 125 :: rest => Some (JObj [], rest)
            | _ => '(ms, rest) ← read_members fuel rest; Some (JObj ms, rest)
            end
          else if is_ascii_digit c then '(n, rest) ← read_number s; Some (JNum n, rest)
          else match strip_prefix (B "true") s, strip_prefix (B "false") s, strip_prefix (B "null") s with
               | Some rest, _, _ => Some (JBool true, rest)
               | _, Some rest, _ => Some (JBool false, rest)
               | _, _, Some rest => Some (JNull, rest)
               | _, _, _ => None
               end
      end
  end
with read_members (fuel : nat) (s : bytes) : option (list (bytes * json) * bytes) :=
  match fuel with
  | O => None
  | S fuel =>
      match skip_ws s with
      | c :: rest =>
          if c =? QUOTE then
            '(k, rest) ← read_string rest;
            match skip_ws rest with
            | 58 :: rest =>
                '(v, rest) ← read_value fuel rest;
                match skip_ws rest with
                | 44 :: rest => '(ms, rest) ← read_members fuel rest; Some ((k, v) :: ms, rest)
                | 125 :: rest => Some ([(k, v)], rest)
                | _ => None
                end
            | _ => None
            end
          else None
      | [] => None
      end
  end.

Definition read_json (s : bytes) : option json :=
  '(v, rest) ← read_value (S (length s)) s;
  match skip_ws rest with [] => Some v | _ => None end.

(** *** Reading what is printed *)

Lemma skip_ws_indent d c rest : is_ws c = false -> skip_ws (indent d ++ c :: rest) = c :: rest.
Proof.
  intros H. unfold indent. cbn [app skip_ws]. change (is_ws NL) with true. cbn iota.
  induction d as [|d IH]; cbn [replicate concat app skip_ws]; [by rewrite H|exact IH].
Qed.

Lemma skip_ws_id c rest : is_ws c = false -> skip_ws (c :: rest) = c :: rest.
Proof. intros H. cbn. by rewrite H. Qed.

Lemma hex_lower_digit d : 0 <= d < 16 -> hex_digit (hex_lower d) = Some d.
Proof.
  intros H. assert (A : Forall (fun d => hex_digit (hex_lower d) = Some d) (seqZ 0 16))
    by (apply (bool_decide_unpack _); by vm_compute).
  rewrite Forall_forall in A. apply A, elem_of_seqZ. lia.
Qed.

Lemma read_char c s t rest :
  is_u8 c -> read_string s = Some (t, rest) -> read_string (quote_char c ++ s) = Some (c :: t, rest).
Proof.
  intros Hc E. unfold quote_char.
  destruct (Z.eqb_spec c QUOTE) as [->|Hq]; [cbn [app read_string]; by rewrite E|].
  destruct (Z.eqb_spec c BACKSLASH) as [->|Hb]; [cbn [app read_string]; by rewrite E|].
  destruct (Z.ltb_spec c 32) as [Hs|Hs].
  - unfold is_u8 in Hc. pose proof (Z.div_mod c 16 ltac:(done)) as D. pose proof (Z.mod_pos_bound c 16 ltac:(done)) as M.
    unfold escaped. cbn [app read_string]. change (BACKSLASH =? QUOTE) with false. change (BACKSLASH =? BACKSLASH) with true.
    change ((117 =? QUOTE) || (117 =? BACKSLASH) || (117 =? 47)) with false. change (117 =? 117) with true. cbn iota.
    rewrite (hex_lower_digit (c / 16)), (hex_lower_digit (c mod 16)) by lia. cbn [mbind option_bind hex_digit].
    change (hex_digit 48) with (Some 0). cbn [mbind option_bind].
    replace (((0 * 16 + 0) * 16 + c / 16) * 16 + c mod 16) with c by lia.
    rewrite E. destruct (Z.ltb_spec c 128); [done|lia].
  - cbn [app read_string]. rewrite E. repeat case_match; try lia; done.
Qed.

Lemma read_quoted s rest : bytes_ok s -> exists t, quoted s = QUOTE :: t /\ read_string (t ++ rest) = Some (s, rest).
Proof.
  intros Hs. exists (concat (map quote_char s) ++ [QUOTE]). split; [done|].
  induction s as [|c s IH]; [done|]. apply Forall_cons in Hs as [Hc Hs]. cbn [map concat].
  rewrite <- !app_assoc. apply read_char; [done|]. rewrite app_assoc. by apply IH.
Qed.

(** What may follow a number. *)
Definition stops (rest : bytes) : Prop := match rest with c :: _ => is_ascii_digit c = false | [] => True end.

Lemma span_digits_app d rest :
  Forall (fun b => is_ascii_digit b = true) d -> stops rest -> span_digits (d ++ rest) = (d, rest).
Proof.
  intros Hd Hr. induction d as [|c d IH]; cbn [app span_digits].
  - destruct rest as [|c rest]; [done|]. cbn in Hr |- *. by rewrite Hr.
  - apply Forall_cons in Hd as [-> Hd]. by rewrite IH.
Qed.

Lemma show_fuel_head fuel : forall v, 0 < v < 10 ^ Z.of_nat fuel -> head (show_fuel fuel v) <> Some 48 /\ show_fuel fuel v <> [].
Proof.
  induction fuel as [|fuel IH]; intros v Hv; [cbn in Hv; lia|]. cbn [show_fuel].
  destruct (Z.ltb_spec v 10) as [Hl|Hl].
  - rewrite Z.mod_small by lia. cbn. split; [|done]. intros [= E]. lia.
  - rewrite Nat2Z.inj_succ, Z.pow_succ_r in Hv by lia.
    destruct (IH (v / 10)) as [H1 H2]; [split; [apply Z.div_str_pos; lia|apply Z.div_lt_upper_bound; lia]|].
    destruct (show_fuel fuel (v / 10)); [done|]. by split.
Qed.

Lemma read_shown v rest : 0 <= v < 2 ^ 64 -> stops rest -> read_number (show_uint v ++ rest) = Some (v, rest).
Proof.
  intros Hv Hr. unfold read_number. rewrite span_digits_app; [|apply show_uint_digits; lia|done].
  pose proof (parse_show_fuel 20 v ltac:(lia)) as P. fold (show_uint v) in P.
  rewrite bool_decide_eq_false_2.
  - pose proof (show_uint_nonempty v). destruct (show_uint v); [done|]. by rewrite P.
  - intros [H1 H2]. destruct (decide (v = 0)) as [->|Hz].
    + change (length (show_uint 0)) with 1%nat in H2. lia.
    + destruct (show_fuel_head 20 v) as [H3 _]; [lia|]. by apply H3.
Qed.

(** A tree the printer can be read back from. *)
Fixpoint json_ok (v : json) : Prop :=
  match v with
  | JStr s => bytes_ok s
  | JNum n => 0 <= n < 2 ^ 64
  | JObj ms => foldr (fun kv P => bytes_ok (fst kv) /\ json_ok (snd kv) /\ P) True ms
  | _ => True
  end.

Fixpoint weight (v : json) : nat :=
  match v with JObj ms => S (foldr (fun kv n => (1 + weight (snd kv) + n)%nat) 1%nat ms) | _ => 1 end.
Definition weights (ms : list (bytes * json)) : nat := foldr (fun kv n => (1 + weight (snd kv) + n)%nat) 1%nat ms.
Definition members_ok (ms : list (bytes * json)) : Prop :=
  foldr (fun kv P => bytes_ok (fst kv) /\ json_ok (snd kv) /\ P) True ms.

Definition reads (v : json) : Prop := forall fuel d rest,
  json_ok v -> (weight v <= fuel)%nat -> stops rest -> read_value fuel (show d v ++ rest) = Some (v, rest).

Lemma members_stop d ms rest : stops (show_members (show (S d)) d false ms ++ indent d ++ 125 :: rest).
Proof. by destruct ms as [|[k v] ms]. Qed.

(** One member, and what comes after it. *)
Lemma read_member d k v fuel T :
  reads v -> bytes_ok k -> json_ok v -> (weight v <= fuel)%nat -> stops T ->
  read_members (S fuel) (key_text d true k ++ show d v ++ T) =
    match skip_ws T with
    | 44 :: rest => '(ms, rest) ← read_members fuel rest; Some ((k, v) :: ms, rest)
    | 125 :: rest => Some ([(k, v)], rest)
    | _ => None
    end.
Proof.
  intros Rv Hk Hv Hf HT. unfold key_text. cbn [read_members app]. rewrite <- !app_assoc.
  destruct (read_quoted k (B ": " ++ show d v ++ T) Hk) as (t & -> & E).
  rewrite <- app_comm_cons, skip_ws_indent by done. change (QUOTE =? QUOTE) with true. cbn iota. rewrite E.
  cbn [mbind option_bind]. change (B ": " ++ show d v ++ T) with (58 :: 32 :: show d v ++ T).
  rewrite skip_ws_id by done. cbn iota.
  assert (S' : read_value fuel (32 :: show d v ++ T) = read_value fuel (show d v ++ T)) by (by destruct fuel).
  by rewrite S', (Rv fuel d T Hv Hf HT).
Qed.

Lemma read_members_shown d rest ms : forall k v fuel,
  Forall (fun kv => reads (snd kv)) ((k, v) :: ms) -> members_ok ((k, v) :: ms) ->
  (weights ((k, v) :: ms) <= fuel)%nat ->
  read_members fuel (show_members (show (S d)) d true ((k, v) :: ms) ++ indent d ++ 125 :: rest) = Some ((k, v) :: ms, rest).
Proof.
  induction ms as [|[k' v'] ms IH]; intros k v fuel F (Hk & Hv & Hms) Hf; apply Forall_cons in F as [Fv F];
    cbn [fst snd] in *; cbn [weights foldr snd] in Hf; (destruct fuel as [|fuel]; [lia|]);
    rewrite show_members_cons, <- !app_assoc, read_member; try done; try lia; try apply members_stop.
  - cbn [show_members app]. by rewrite skip_ws_indent.
  - change (show_members (show (S d)) d false ((k', v') :: ms) ++ indent d ++ 125 :: rest)
      with (COMMA :: show_members (show (S d)) d true ((k', v') :: ms) ++ indent d ++ 125 :: rest).
    rewrite skip_ws_id by done. cbn iota. unfold COMMA. rewrite (IH k' v' fuel); [done|done|done|].
    cbn [weights foldr snd] in Hf |- *. lia.
Qed.

Lemma read_shown_value v : reads v.
Proof.
  induction v as [s|n|b| |ms IH] using json_nested_ind; intros fuel d rest Hv Hf Hr;
    (destruct fuel as [|fuel]; [cbn in Hf; lia|]); cbn [read_value show].
  - destruct (read_quoted s rest Hv) as (t & -> & E). rewrite <- app_comm_cons, skip_ws_id by done.
    change (QUOTE =? QUOTE) with true. cbn iota. by rewrite E.
  - pose proof (read_shown n rest Hv Hr) as R. pose proof (show_uint_nonempty n). pose proof (show_uint_head n) as Hd.
    destruct (show_uint n) as [|c s] eqn:En; [done|]. specialize (Hd c s ltac:(cbn in Hv; lia) eq_refl).
    cbn [app] in R |- *. pose proof Hd as D. unfold is_ascii_digit in D. apply andb_true_iff in D as [D1 D2].
    apply Z.leb_le in D1, D2.
    rewrite skip_ws_id by (unfold is_ws, NL, CR; apply not_true_is_false; rewrite !orb_true_iff, !Z.eqb_eq; lia).
    unfold QUOTE. destruct (Z.eqb_spec c 34); [lia|]. destruct (Z.eqb_spec c 123); [lia|]. by rewrite Hd, R.
  - by destruct b.
  - done.
  - cbn [app]. rewrite skip_ws_id by done. change (123 =? QUOTE) with false. change (123 =? 123) with true. cbn iota.
    destruct ms as [|[k v] ms]; [done|]. rewrite <- !app_assoc. cbn [weight] in Hf.
    assert (R : read_members fuel (show_members (show (S d)) d true ((k, v) :: ms) ++ indent d ++ [125] ++ rest) =
      Some ((k, v) :: ms, rest)) by (apply (read_members_shown d rest ms k v fuel IH Hv); unfold weights; lia).
    rewrite R. rewrite show_members_cons. unfold key_text. cbn [app]. rewrite <- !app_assoc.
    destruct (read_quoted k [] ltac:(apply Hv)) as (t & -> & _).
    rewrite <- app_comm_cons, skip_ws_indent by done. by cbn iota.
Qed.

Lemma weight_shown v : forall d, (weight v <= length (show d v))%nat.
Proof.
  induction v as [s|n|b| |ms IH] using json_nested_ind; intros d; cbn [weight show].
  - unfold quoted, quote. cbn. lia.
  - pose proof (show_uint_nonempty n). destruct (show_uint n); [done|]. cbn. lia.
  - by destruct b; vm_compute; lia.
  - vm_compute. lia.
  - cbn [app length]. rewrite !length_app. cbn [length].
    enough (forall first, weights ms <= length (show_members (show (S d)) d first ms) + 1)%nat as E
      by (specialize (E true); unfold weights in E; lia).
    induction IH as [|[k v] ms Hv _ IH]; intros first; cbn [weights foldr snd]; [cbn; lia|].
    specialize (IH false). specialize (Hv (S d)). cbn [snd] in Hv. rewrite show_members_cons, !length_app.
    unfold key_text, indent. rewrite !length_app. cbn [length]. unfold weights in IH. lia.
Qed.

(** ** The page can be read back *)

Definition u64_range (n : Z) : Prop := 0 <= n < 2 ^ 64.
#[export] Instance u64_range_dec n : Decision (u64_range n).
Proof. unfold u64_range. apply _. Defined.

Lemma show_fuel_bytes fuel : forall v, bytes_ok (show_fuel fuel v).
Proof.
  induction fuel as [|fuel IH]; intros v; [constructor|]. cbn [show_fuel]. apply Forall_app. split.
  - destruct (v <? 10); [constructor|apply IH].
  - constructor; [|constructor]. pose proof (Z.mod_pos_bound v 10 ltac:(done)). unfold is_u8. lia.
Qed.

Lemma format_datetime_bytes t : bytes_ok (format_datetime t).
Proof.
  assert (P : forall w v, bytes_ok (show_padded w v)).
  { intros w v. unfold show_padded. apply Forall_app. split; [by apply Forall_replicate|apply show_fuel_bytes]. }
  unfold format_datetime. destruct (civil_of_days _) as [[y m] d].
  repeat first [apply P | apply Forall_cons; split; [unfold is_u8; lia|constructor] | apply Forall_app; split].
Qed.

(** Texts of bytes, and numbers of their machine width. *)
Definition status_ok (s : ClientStatus) : Prop :=
  Forall u64_range [relays s; guard_relays s; exit_relays s; valid_after s; fresh_until s; valid_until s;
    guards s; guards_demoted s; guards_unreachable s; slow_guard_changes s; stubs s; circuits s;
    onion_circuits s; descriptors s].
Definition counters_range (c : Counters.t) : Prop :=
  Forall u64_range ([Counters.accepted c; Counters.active c; Counters.succeeded c; Counters.handshake_failed c;
    Counters.status_requests c; Counters.socks5 c; Counters.socks4 c; Counters.http_connect c; Counters.onion c;
    Counters.bytes_up c; Counters.bytes_down c] ++ Counters.failed c).
Definition texts (s : Sources) : list bytes :=
  [version s; arch s; os s] ++ option_list (commit s) ++ option_list (zlib s) ++
  match library_paths s with Some (a, b) => [a; b] | None => [] end.
Definition sources_ok (s : Sources) : Prop :=
  Forall bytes_ok (texts s) /\ Forall u64_range [listen_port s; now_unix s; started_unix s; uptime s] /\
  counters_range (counters s) /\
  match client s with Some (status, now) => status_ok status /\ u64_range now | None => True end.

Lemma read_document ms : json_ok (JObj ms) -> read_json (show 0 (JObj ms) ++ [NL]) = Some (JObj ms).
Proof.
  intros H. unfold read_json. rewrite (read_shown_value (JObj ms)); [done|exact H| |done].
  pose proof (weight_shown (JObj ms) 0). rewrite length_app. lia.
Qed.

Lemma B_bytes s : bytes_ok (B s).
Proof.
  unfold B. apply Forall_map, Forall_forall. intros a _. destruct a as [[] [] [] [] [] [] [] []]; by split.
Qed.

Lemma members_ok_map {A} (f : A -> bytes * json) l :
  Forall (fun x => bytes_ok (fst (f x)) /\ json_ok (snd (f x))) l -> json_ok (JObj (map f l)).
Proof. induction 1 as [|x l [H1 H2] _ IH]; [done|]. by split_and!. Qed.

Lemma str_tree_ok v : Forall bytes_ok (option_list v) -> json_ok (str_tree v).
Proof. destruct v; [|done]. intros H. by inversion H. Qed.

Lemma failures_ok l : Forall u64_range l ->
  json_ok (JObj (map (fun nc => (fst nc, JNum (snd nc))) (drop 1 (zip FAILURE_NAMES l)))).
Proof.
  intros H. apply members_ok_map, Forall_drop, Forall_forall. intros [n c] Hin. split.
  - apply elem_of_zip_l in Hin. assert (F : Forall bytes_ok FAILURE_NAMES) by (repeat (constructor; [apply B_bytes|]); constructor).
    rewrite Forall_forall in F. by apply F.
  - apply elem_of_zip_r in Hin. rewrite Forall_forall in H. by apply H.
Qed.

Lemma fields_ok text :
  json_ok (JObj (map (fun fn => (snd fn, num_tree (proc_field text (fst fn)))) PROC_FIELDS)).
Proof.
  apply members_ok_map. repeat (apply Forall_cons; split); [..|constructor]; (split; [apply B_bytes|]); cbn [snd fst];
    unfold proc_field; (destruct (find_field _ _); [cbn|done]); (destruct (head _); [cbn|done]);
    destruct (parse_uint _ _) as [v|] eqn:E; [|done| |done| |done]; apply parse_uint_bound in E; cbn; lia.
Qed.

Ltac members := repeat match goal with
  | |- json_ok (JObj (_ :: _)) => split
  | |- _ /\ _ => split
  | |- bytes_ok (fst _) => apply B_bytes
  | |- foldr _ True ((_, _) :: _) => split
  | |- foldr _ True [] => exact I
  | |- json_ok (snd (_, _)) => cbn [snd]
  end.

Lemma tor_tree_ok s now : status_ok s -> u64_range now -> json_ok (tor_tree s now).
Proof.
  intros S N. unfold status_ok in S. repeat (apply Forall_cons in S as [? S]). unfold tor_tree.
  members; try apply format_datetime_bytes; try done. unfold u64_range, sat_sub in *. cbn [json_ok]. lia.
Qed.

Lemma page_ok s : sources_ok s -> json_ok (JObj (page s)).
Proof.
  intros (T & N & C & K). unfold texts in T. apply Forall_app in T as [T1 T2]. apply Forall_app in T2 as [T2 T3].
  apply Forall_app in T3 as [T3 T4]. repeat (apply Forall_cons in T1 as [? T1]). repeat (apply Forall_cons in N as [? N]).
  unfold counters_range in C. apply Forall_app in C as [C F]. repeat (apply Forall_cons in C as [? C]).
  unfold page. members; try done; try (by apply str_tree_ok); try (by destruct (client s); apply B_bytes).
  - by apply failures_ok.
  - destruct (client s) as [[status now]|]; [|done]. destruct K. by apply tor_tree_ok.
  - apply fields_ok.
  - apply str_tree_ok. destruct (library_paths s) as [[a b]|]; [|done]. apply Forall_cons in T4 as [? _]. by constructor.
  - apply str_tree_ok. destruct (library_paths s) as [[a b]|]; [|done]. apply Forall_cons in T4 as [_ T4]. done.
Qed.

(** ** The claims *)

(** C39. The status page is JSON and says what the process knows. For whatever texts and machine-width numbers it is made of, what render writes is exactly the two-space-indented print of a tree of objects, and a reader of RFC 8259 that refuses raw control characters, bad escapes, leading zeros, missing or doubled commas and trailing text reads that tree back, every counter, field and quoted text unchanged. *)
Theorem status_page_reads_back s :
  sources_ok s ->
  render s = show 0 (JObj (page s)) ++ [NL] /\ read_json (render s) = Some (JObj (page s)).
Proof.
  intros Hs. rewrite render_document, write_document_shows. split; [done|]. by apply read_document, page_ok.
Qed.

(** ** A page *)
Module StatusDemo.
Definition sample : Sources := {|
  version := B "1.0"; commit := Some [QUOTE; BACKSLASH; 7; 195; 169];
  listen_port := 9050; now_unix := 1788352496; started_unix := 1788352000; uptime := 496;
  counters := Counters.Mk 12 1 2 3 4 0 1 1 0 77 (2 ^ 64 - 1) [0; 1; 0; 2; 3; 0; 0; 0; 0];
  client := Some (MkStatus 7000 2000 1000 1788350000 1788353600 1788360800 3 0 1 true 0 2 4 1 1 false, 1788352496);
  proc_status := B "Name:	proxy" ++ [NL] ++ B "VmRSS:	   1234 kB" ++ [NL] ++ B "Threads: many" ++ [NL];
  arch := B "x86_64"; os := B "linux"; library_paths := None; zlib := Some (B "1.3.1");
|}.

Lemma sample_ok : sources_ok sample.
Proof.
  split; [|split; [|split; [|split]]]; [..|by split]; unfold counters_range, status_ok;
    apply (bool_decide_unpack _); by vm_compute.
Qed.

Lemma status_page_witness :
  read_json (render sample) = Some (JObj (page sample)) /\
  proc_field (proc_status sample) (B "VmRSS") = Some 1234 /\ proc_field (proc_status sample) (B "Threads") = None.
Proof. split; [exact (proj2 (status_page_reads_back sample sample_ok))|by vm_compute]. Defined.

(** The reader refuses what is not JSON. *)
Example reader_is_strict :
  read_json (B "{") = None /\ read_json (B "{}}") = None /\ read_json (B "007") = None /\
  read_json ([QUOTE; 10; QUOTE]) = None /\
  read_json ([123; QUOTE; QUOTE; 58; 49; 44; 125]) = None /\ read_json (B " 7 ") = Some (JNum 7).
Proof. by vm_compute. Qed.
End StatusDemo.
