(* ===== verification/Upkeep.v ===== *)
(** * The running client ([src/src/tor/client.rs], [src/src/tor/maintain.rs])

    Starting up, adopting a new consensus, and the rounds of the maintenance
    thread, over the parts that [Directory], [Guards], [Pool], [OnionClient]
    and [Maintain] model.  Nothing but these operations changes the directory
    a client works from; the theorem says what it is after any rounds. *)
From S2P Require Import Prelude.
From S2P Require Import Text.
From S2P Require Import Crypto.
From S2P Require Import Util.
From S2P Require Import Computation.
From S2P Require Import Consensus.
From S2P Require Import Authority.
From S2P Require Import Handshake.
From S2P Require Import Path.
From S2P Require Import Pool.
From S2P Require Import Guards.
From S2P Require Import Maintain.
From S2P Require Import OnionClient.
From S2P Require Import Directory.

Definition GUARDS_FILE : bytes := B "guards".
Definition LEGACY_GUARD_FILE : bytes := B "guard".

(** What a client holds; [closed] are the circuits its upkeep has closed. *)
Module TorClient.
Record t (W : Type) := Mk {
  world : Directory.World (W:=W);
  directory : Directory.t;
  onion : OnionClient.Client.t;
  pool : Pool.State.t;
  guards : Guards.Guards.t;
  slow_guard_changes : nat;
  closed : list handle;
}.
Arguments Mk {W} _ _ _ _ _ _ _.
Arguments world {W} _.
Arguments directory {W} _.
Arguments onion {W} _.
Arguments pool {W} _.
Arguments guards {W} _.
Arguments slow_guard_changes {W} _.
Arguments closed {W} _.
End TorClient.

(** What one round meets outside. *)
Record Outside := MkOutside {
  o_unix : Z;                                (* the clock of the tick *)
  o_refreshing : Z;                          (* the clock handed to the refresh *)
  o_after : Z;                               (* and after it *)
  o_moment : nat -> Moment;
  o_look : nat -> Look;                      (* the pool's view of circuits *)
  o_resolve : bytes -> result RelayInfo;     (* guard_relay *)
  o_connect : RelayInfo -> result nat;       (* Channel::connect *)
  o_peer : nat -> GuardContact;
  o_probe : handle -> result unit;           (* Circuit::probe *)
  o_onion : OnionClient.World;               (* what building the ring meets *)
  o_listing : result unit;                   (* read_dir of the cache *)
  o_draws : Rand.draws;
}.

Section client.
Context `{Crypto} {W : Type}.
Abbreviation Client := (TorClient.t W).

Section serving.
Context `{!DirServer W}.

(** ** Files *)

Definition fs_write (path data : bytes) (w : Directory.World (W:=W)) : Directory.World (W:=W) :=
  MkWorld (net w) (fst (Disk.write (disk w) path data)).
Definition save_guards (s : Client) : Client :=
  s{{TorClient.world := fs_write GUARDS_FILE (serialize_guards (Guards.entries (TorClient.guards s))) (TorClient.world s)}}.

(** [read_to_string], and nothing when it fails. *)
Definition read_to_string (d : Disk.t) (path : bytes) : bytes :=
  match Disk.read d path with Some raw => if utf8_valid raw then raw else [] | None => [] end.

(** ** A new consensus *)

Definition install_directory (look : nat -> Look) (next : Directory.t) (s : Client) : Client :=
  let s := s{{TorClient.directory := next}} in
  let s := s{{TorClient.onion := (TorClient.onion s){{OnionClient.Client.ring := None}} }} in
  let '(pool, closing) := Pool.clear look (TorClient.pool s) in
  s{{TorClient.pool := pool}}{{TorClient.closed := TorClient.closed s ++ closing}}.

(** The list is written out when a guard was dropped from it. *)
Definition reconcile (s : Client) : Client :=
  let before := length (Guards.entries (TorClient.guards s)) in
  let s := s{{TorClient.guards := reconcile_guards (Directory.consensus (TorClient.directory s)) (TorClient.guards s)}} in
  if (length (Guards.entries (TorClient.guards s)) =? before)%nat then s else save_guards s.

Definition fetch_newer (held : Directory.t) (now : Z) : D (W:=W) Directory.t :=
  _ ← on_net open_circuit;
  fetched ← Directory.attempt (refresh held now);
  _ ← on_net (fun n => (close_circuit n, Ok tt));
  Directory.lift fetched.

Definition refresh_consensus (o : Outside) (s : Client) : Client * result unit :=
  let '(w, fetched) := fetch_newer (TorClient.directory s) (o_refreshing o) (TorClient.world s) in
  let s := s{{TorClient.world := w}} in
  match fetched with
  | Err e => (s, Err e)
  | Ok next => (reconcile (install_directory (o_look o) next s), Ok tt)
  end.

(** The ring is built from the consensus the client holds. *)
Definition with_consensus (c : Consensus.t) (w : OnionClient.World) : OnionClient.World :=
  OnionClient.MkWorld (fun _ => c) (w_now w) (w_unix w) (w_dir_circuit w) (w_ed_ids w) (w_order w)
    (OnionClient.w_fetch w) (w_establish w) (w_is_closed w) (OnionClient.w_begin w) (w_others w).

Definition prefetch_hsdir_ring (o : Outside) (s : Client) : Client :=
  if negb (OnionClient.Client.wanted (TorClient.onion s)) then s
  else
    match hsdir_ring (with_consensus (Directory.consensus (TorClient.directory s)) (o_onion o)) (TorClient.onion s) with
    | Some (onion, _) => s{{TorClient.onion := onion}}
    | None => s
    end.

Definition prune (o : Outside) (s : Client) : Client :=
  s{{TorClient.world := fst (prune_cache (TorClient.directory s) (o_listing o) (TorClient.world s))}}.

(** ** Circuits and guards *)

Definition retry_primary_guard (o : Outside) (s : Client) : Client :=
  match primary_to_retry (o_moment o 0) (TorClient.guards s) with
  | None => s
  | Some primary =>
      match o_resolve o primary with
      | Err _ => s
      | Ok relay =>
          match o_connect o relay with
          | Err _ => s
          | Ok channel => save_guards (s{{TorClient.guards := adopt_primary (o_peer o) primary channel relay (TorClient.guards s)}})
          end
      end
  end.

Definition probe_one (o : Outside) (s : Client) (circuit : handle) : Client :=
  match o_probe o circuit with
  | Ok _ => s
  | Err _ =>
      let '(pool, closing) := condemn (TorClient.pool s) circuit in
      s{{TorClient.pool := pool}}{{TorClient.closed := TorClient.closed s ++ closing}}
  end.
Definition probe_quiet_circuits (o : Outside) (s : Client) : Client :=
  foldl (probe_one o) s (wanting_probe (o_look o) (TorClient.pool s)).

Definition note_bad (o : Outside) (s : Client) : Client :=
  let '(pool, blamed) := take_blame (TorClient.pool s) in
  let s := s{{TorClient.pool := pool}} in
  let '(g, changes, moved) := note_bad_circuits (o_moment o) blamed (TorClient.guards s) (TorClient.slow_guard_changes s) in
  let s := s{{TorClient.guards := g}}{{TorClient.slow_guard_changes := changes}} in
  if negb moved then s
  else
    let s := save_guards s in
    let '(pool, closing) := Pool.clear (o_look o) (TorClient.pool s) in
    s{{TorClient.pool := pool}}{{TorClient.closed := TorClient.closed s ++ closing}}.

(** ** One round of the maintenance thread

    [None] while the random words for the next plan run out. *)
Definition round (o : Outside) (s : Client) (plan : Maintain.t) : option (Client * Maintain.t) :=
  let s := note_bad o (probe_quiet_circuits o (retry_primary_guard o s)) in
  if o_unix o <? Maintain.next_refresh plan then Some (s, plan)
  else
    let '(s, refreshed) := refresh_consensus o s in
    let live := Consensus.is_live (Directory.consensus (TorClient.directory s)) (o_after o) in
    match refreshed with
    | Ok _ =>
        let s := prefetch_hsdir_ring o (prune o s) in
        planned ← plan_refresh (Directory.consensus (TorClient.directory s)) (o_draws o);
        Some (s, snd (tick (MkRound (o_unix o) refreshed (o_after o) live planned) plan))
    | Err _ => Some (s, snd (tick (MkRound (o_unix o) refreshed (o_after o) live 0) plan))
    end.

Fixpoint rounds (os : list Outside) (s : Client) (plan : Maintain.t) : option (Client * Maintain.t) :=
  match os with
  | [] => Some (s, plan)
  | o :: os => '(s, plan) ← round o s plan; rounds os s plan
  end.
End serving.

(** ** Starting up

    The consensus comes through the saved guard that answered, or else
    through a directory mirror. *)
Section starting.
Context (via_guard via_mirror : DirServer W).

Definition bootstrap_directory (open : option OpenGuard.t) (now later : Z) : D (W:=W) Directory.t :=
  match open with
  | None => @bootstrap _ W via_mirror later
  | Some _ =>
      first ← Directory.attempt (@bootstrap _ W via_guard now);
      match first with
      | Ok directory => mret directory
      | Err _ => @bootstrap _ W via_mirror later
      end
  end.

(** [connect_to] is [Channel::connect] to a saved contact, [ws] what opening
    the guard channel meets. *)
Definition start (connect_to : GuardContact -> result nat) (peer_of : nat -> GuardContact) (is_closed : nat -> bool)
    (ws : nat -> Guards.World) (now later : Z) (ds : Rand.draws) (w : Directory.World (W:=W))
    : Directory.World (W:=W) * Rand.outcome Client :=
  match Disk.create_dir_all (disk w) with
  | (d, Err e) => (MkWorld (net w) d, Rand.Done (Err e) ds)
  | (d, Ok _) =>
      let entries := load_guards (read_to_string d GUARDS_FILE) (read_to_string d LEGACY_GUARD_FILE) in
      let open := bootstrap_open connect_to entries in
      match bootstrap_directory open now later (MkWorld (net w) d) with
      | (w, Err e) => (w, Rand.Done (Err e) ds)
      | (w, Ok directory) =>
          match guard_channel peer_of is_closed ws (Directory.consensus directory) (Guards.Guards.Mk entries open) ds with
          | (g, Rand.Done (Ok _) ds) =>
              (w, Rand.Done (Ok (TorClient.Mk w directory
                 (OnionClient.Client.Mk (Tables.Mk ∅ 0 0 []) None false ∅ ds 0) Pool.State.default g 0 [])) ds)
          | (_, Rand.Done (Err e) ds) => (w, Rand.Done (Err e) ds)
          | (_, Rand.Waiting) => (w, Rand.Waiting)
          | (_, Rand.Panicked) => (w, Rand.Panicked)
          end
      end
  end.
End starting.
End client.

(** ** What the client works from *)

(** A ring is of the consensus [c]. *)
Definition ring_of (c : Consensus.t) (s : OnionClient.Client.t) : Prop :=
  forall ring, OnionClient.Client.ring s = Some ring -> ring_valid_after ring = Consensus.valid_after c.

Lemma ring_of_same c s s' : OnionClient.Client.ring s' = OnionClient.Client.ring s -> ring_of c s -> ring_of c s'.
Proof. intros E R ring. rewrite E. apply R. Qed.

(** The ring the client builds is of the consensus it holds. *)
Lemma hsdir_ring_of `{Crypto} c w : keeps (ring_of c) (hsdir_ring (with_consensus c w)).
Proof.
  assert (A : keeps (ring_of c) (ask (with_consensus c w))).
  { intros s s' r Hs [= <- <-]. by eapply ring_of_same. }
  assert (F : forall ds, keeps (ring_of c) (fetch_ed_ids (with_consensus c w) ds)) by (intros; by apply fetch_ed_ids_keeps).
  unfold hsdir_ring. apply keeps_bind; [exact A|]. intros i.
  apply keeps_bind; [apply keeps_put; intros s; by apply ring_of_same|]. intros _.
  apply keeps_bind; [apply keeps_get|]. intros s0. destruct (cached_hsdir_ring _ s0); [apply keeps_ret|].
  apply keeps_bind; [apply F|]. intros ids. apply keeps_bind; [repeat case_match; keep|]. intros ids'. cbv zeta.
  destruct (_ <? _)%nat; [apply keeps_fail|]. apply keeps_bind; [|intros _; apply keeps_ret].
  apply keeps_put. intros s _ ring. cbn. by intros [= <-].
Qed.

Section proofs.
Context `{Crypto} {W : Type} `{!DirServer W}.
Abbreviation Client := (TorClient.t W).

(** The directory was verified, and any ring is of its consensus. *)
Record client_ok (s : Client) : Prop := {
  co_sound : exists at_, sound at_ (TorClient.directory s);
  co_ring : ring_of (Directory.consensus (TorClient.directory s)) (TorClient.onion s);
}.

(** What of it a step leaves alone. *)
Definition view (s : Client) : Directory.t * OnionClient.Client.t := (TorClient.directory s, TorClient.onion s).
Lemma view_ok s s' : view s' = view s -> client_ok s -> client_ok s'.
Proof. intros [= D O] [S R]. split; [by rewrite D|by rewrite D, O]. Qed.

Lemma reconcile_view s : view (reconcile s) = view s.
Proof. unfold reconcile. by destruct (_ =? _)%nat. Qed.

Lemma retry_view o s : view (retry_primary_guard o s) = view s.
Proof. unfold retry_primary_guard. by repeat case_match. Qed.

Lemma probe_view o s : view (probe_quiet_circuits o s) = view s.
Proof.
  unfold probe_quiet_circuits. generalize (wanting_probe (o_look o) (TorClient.pool s)). intros hs. revert s.
  induction hs as [|h hs IH]; intros s; [done|]. cbn [foldl]. rewrite IH. unfold probe_one.
  destruct (o_probe o h); [done|]. by destruct (condemn _ _).
Qed.

Lemma note_bad_view o s : view (note_bad o s) = view s.
Proof.
  unfold note_bad. destruct (take_blame _) as [p blamed]. cbv zeta.
  destruct (note_bad_circuits _ _ _ _) as [[g changes] moved]. destruct moved; [|done]. cbn [negb].
  by destruct (Pool.clear _ _).
Qed.

Lemma fetched_spec held now at_ w :
  sound at_ held ->
  match snd (fetch_newer (W:=W) held now w) with
  | Ok next => sound now next /\
      Consensus.valid_after (Directory.consensus held) < Consensus.valid_after (Directory.consensus next)
  | Err _ => True
  end.
Proof.
  intros So. unfold fetch_newer, mbind, dir_bind. destruct (on_net open_circuit w) as [w1 [u|e]]; [|done].
  unfold Directory.attempt. pose proof (refresh_sound now at_ held w1 So) as R.
  destruct (refresh held now w1) as [w2 r]. unfold on_net, Directory.lift. destruct r as [next|e]; [by apply R|done].
Qed.

(** A refresh that fails leaves everything but the network and the disk; one
    that succeeds adopts a verified, newer consensus and drops the ring. *)
Lemma refresh_spec o s at_ :
  sound at_ (TorClient.directory s) ->
  let '(s', r) := refresh_consensus o s in
  match r with
  | Err _ => s' = s{{TorClient.world := TorClient.world s'}}
  | Ok _ => sound (o_refreshing o) (TorClient.directory s') /\
      Consensus.valid_after (Directory.consensus (TorClient.directory s)) <
        Consensus.valid_after (Directory.consensus (TorClient.directory s')) /\
      OnionClient.Client.ring (TorClient.onion s') = None
  end.
Proof.
  intros So. unfold refresh_consensus.
  pose proof (fetched_spec (TorClient.directory s) (o_refreshing o) at_ (TorClient.world s) So) as F.
  destruct (fetch_newer _ _ _) as [w [next|e]]; [|by destruct s]. cbn [snd] in F. destruct F as [F1 F2].
  set (s1 := install_directory (o_look o) next (s{{TorClient.world := w}})).
  assert (V : view s1 = (next, (TorClient.onion s){{OnionClient.Client.ring := None}}))
    by (subst s1; unfold install_directory; by destruct (Pool.clear _ _)).
  rewrite <- (reconcile_view s1) in V. unfold view in V. apply pair_equal_spec in V as [V1 V2].
  rewrite V1, V2. by split_and!.
Qed.
End proofs.

Section rounds.
Context `{Crypto} {W : Type} `{!DirServer W}.
Abbreviation Client := (TorClient.t W).

Lemma refresh_ok o (s : Client) : client_ok s -> client_ok (fst (refresh_consensus o s)).
Proof.
  intros [[at_ So] R]. pose proof (refresh_spec o s at_ So) as F.
  destruct (refresh_consensus o s) as [s' [u|e]]; cbn [fst].
  - destruct F as (F1 & _ & F3). split; [by exists (o_refreshing o)|]. intros ring. by rewrite F3.
  - rewrite F. split; [by exists at_|exact R].
Qed.

(** The valid-after of what the client holds. *)
Definition at_least (v : Z) (s : Client) : Prop := v <= Consensus.valid_after (Directory.consensus (TorClient.directory s)).

Lemma prefetch_ok o (s : Client) :
  client_ok s -> client_ok (prefetch_hsdir_ring o s) /\ TorClient.directory (prefetch_hsdir_ring o s) = TorClient.directory s.
Proof.
  intros [So R]. unfold prefetch_hsdir_ring. destruct (negb _); [by split; [split|]|].
  pose proof (hsdir_ring_of (Directory.consensus (TorClient.directory s)) (o_onion o)) as K.
  destruct (hsdir_ring _ _) as [[onion r]|] eqn:E; [|by split; [split|]]. split; [|done]. split; [done|].
  specialize (K _ _ _ R E). by destruct r.
Qed.

Definition newer (s s' : Client) : Prop :=
  TorClient.directory s' = TorClient.directory s \/
  Consensus.valid_after (Directory.consensus (TorClient.directory s)) <
    Consensus.valid_after (Directory.consensus (TorClient.directory s')).

#[local] Instance newer_trans : Transitive newer.
Proof. unfold newer. intros s1 s2 s3 [E1|L1] [E2|L2]; [left; congruence|right; by rewrite <- E1|right; by rewrite E2|right; lia]. Qed.

Lemma refresh_newer o (s : Client) : client_ok s -> newer s (fst (refresh_consensus o s)).
Proof.
  intros [[at_ So] _]. pose proof (refresh_spec o s at_ So) as F. destruct (refresh_consensus o s) as [s' [u|e]]; cbn [fst].
  - right. apply F.
  - left. by rewrite F.
Qed.

Lemma upkeep_view o (s : Client) : view (note_bad o (probe_quiet_circuits o (retry_primary_guard o s))) = view s.
Proof. by rewrite note_bad_view, probe_view, retry_view. Qed.

Lemma round_ok o (s s' : Client) plan plan' :
  client_ok s -> schedule_ok plan -> round o s plan = Some (s', plan') ->
  client_ok s' /\ newer s s' /\ schedule_ok plan'.
Proof.
  intros C P. unfold round. pose proof (upkeep_view o s) as V.
  set (s1 := note_bad o (probe_quiet_circuits o (retry_primary_guard o s))) in *.
  assert (C1 : client_ok s1) by (by eapply view_ok). assert (N1 : newer s s1) by (left; exact (f_equal fst V)).
  destruct (o_unix o <? _); [by intros [= <- <-]|].
  pose proof (refresh_ok o s1 C1) as C2. pose proof (refresh_newer o s1 C1) as N2.
  destruct (refresh_consensus o s1) as [s2 refreshed]. cbn [fst] in C2, N2. cbv zeta.
  destruct refreshed as [u|e].
  - destruct (prefetch_ok o (prune o s2)) as [C3 D3]; [exact (view_ok s2 (prune o s2) eq_refl C2)|].
    destruct (plan_refresh _ _) as [planned|]; [|done]. cbn [mbind option_bind]. intros [= <- <-].
    split; [exact C3|]. split; [|by apply tick_keeps].
    etrans; [exact N1|]. etrans; [exact N2|]. left. exact D3.
  - intros [= <- <-]. split; [exact C2|]. split; [by etrans|by apply tick_keeps].
Qed.

Lemma bootstrap_directory_sound (via_guard via_mirror : DirServer W) open now later w :
  match snd (bootstrap_directory via_guard via_mirror open now later w) with
  | Ok directory => sound now directory \/ sound later directory
  | Err _ => True
  end.
Proof.
  assert (Mirror : forall v, match snd (@bootstrap _ W via_mirror later v) with Ok d => sound now d \/ sound later d | Err _ => True end).
  { intros v. pose proof (@bootstrap_sound _ W via_mirror later v) as B. destruct (@bootstrap _ W via_mirror later v) as [v' [d|e]]; [|done].
    right. by apply B. }
  unfold bootstrap_directory. destruct open as [o|]; [|apply Mirror]. unfold mbind, dir_bind, Directory.attempt.
  pose proof (@bootstrap_sound _ W via_guard now w) as B. destruct (@bootstrap _ W via_guard now w) as [w1 [d|e]]; [|apply Mirror].
  left. by apply B.
Qed.

(** C2. A client never works from anything but a verified consensus, and only ever moves to a newer one. Whatever the guards, mirrors, disk and clock do, a client that starts -- through a saved guard or, when that fails, through a mirror -- holds a directory that was verified and no ring; and from any such client, through any number of rounds of the maintenance thread, with guards retried and demoted, circuits probed and condemned, refreshes that fail or succeed, the directory is at every point one that was verified, replaced only by one with a later valid-after, any onion-service ring held is of exactly the consensus held, and the retry schedule stays within its limits. *)
Theorem client_only_moves_forward :
  (forall (via_guard via_mirror : DirServer W) connect_to peer_of is_closed ws now later ds w w' s ds',
     start via_guard via_mirror connect_to peer_of is_closed ws now later ds w = (w', Rand.Done (Ok s) ds') -> client_ok s) /\
  (forall os (s s' : Client) plan plan',
     client_ok s -> schedule_ok plan -> rounds os s plan = Some (s', plan') ->
     client_ok s' /\ newer s s' /\ schedule_ok plan').
Proof.
  split.
  - intros via_guard via_mirror connect_to peer_of is_closed ws now later ds w w' s ds'. unfold start.
    destruct (Disk.create_dir_all (disk w)) as [d [u|e]]; [|done]. cbv zeta.
    pose proof (bootstrap_directory_sound via_guard via_mirror
      (bootstrap_open connect_to (load_guards (read_to_string d GUARDS_FILE) (read_to_string d LEGACY_GUARD_FILE)))
      now later (MkWorld (net w) d)) as B.
    destruct (bootstrap_directory _ _ _ _ _ _) as [w1 [directory|e]]; [|done]. cbn [snd] in B.
    destruct (guard_channel _ _ _ _ _ _) as [g [[found|e] ds1| |]]; [|done..]. intros [= <- <- <-].
    split; [destruct B; eauto|]. done.
  - induction os as [|o os IH]; intros s s' plan plan' C P; cbn [rounds]; [intros [= <- <-]; split_and!; [done|by left|done]|].
    destruct (round o s plan) as [[s1 plan1]|] eqn:R; [|done]. cbn [mbind option_bind]. intros E.
    destruct (round_ok _ _ _ _ _ C P R) as (C1 & N1 & P1). destruct (IH _ _ _ _ C1 P1 E) as (C2 & N2 & P2).
    split_and!; [done|by etrans|done].
Qed.
End rounds.

(** ** A round in which a newer consensus is adopted *)
Module UpkeepDemo.
Import ConsensusDemo DirectoryDemo.

Definition outside_onion : OnionClient.World :=
  OnionClient.MkWorld (fun _ => ConsensusDemo.empty) (fun _ => 0) (fun _ => 0) (fun _ => Ok tt) (fun _ _ => ∅)
    (fun _ order => order) (fun _ _ _ => Err (other_error "no descriptor")) (fun _ _ _ => inl tt) (fun _ _ => false)
    (fun _ _ _ => Ok 0%nat) (fun _ => []).
Definition outside : Outside :=
  MkOutside 10 ConsensusDemo.now (ConsensusDemo.now + 1) (fun _ => GuardsDemo.at_ 100) PoolDemo.look
    (fun _ => Err (other_error "unreachable")) (fun _ => Err (other_error "unreachable")) GuardsDemo.contact_of
    (fun _ => Ok tt) outside_onion (Ok tt) (replicate 20 (Ok 5)).

(** A client whose guard the newer consensus does not list. *)
Definition leaving : OpenGuard.t := OpenGuard.Mk (GuardsDemo.id 9) (Some (GuardsDemo.relay_of (GuardsDemo.id 9))) 9.
Definition client : TorClient.t server :=
  TorClient.Mk published held (OnionClient.Client.Mk (Tables.Mk ∅ 0 0 []) None false ∅ [] 0) Pool.State.default
    (Guards.Guards.Mk [GuardsDemo.entry 9 None None] (Some leaving)) 0 [].
Definition plan : Maintain.t := Maintain.Mk 0 RETRY_MIN.
Definition ran : option (TorClient.t server * Maintain.t) := rounds [outside] client plan.
Lemma client_is_ok : client_ok client.
Proof. split; [exists ConsensusDemo.now; exact held_sound|done]. Qed.

Lemma plan_is_ok : schedule_ok plan.
Proof. unfold schedule_ok, RETRY_MIN, RETRY_MAX. cbn. unfold RETRY_MIN. lia. Qed.

Lemma the_round_runs :
  match ran with
  | Some (s, _) => Consensus.valid_after (Directory.consensus (TorClient.directory s)) =
      Consensus.valid_after (Directory.consensus held) + 1800
  | None => False
  end.
Proof. by vm_compute. Qed.

Lemma client_only_moves_forward_witness :
  exists s plan', ran = Some (s, plan') /\ client_ok s /\ newer client s /\
    Consensus.valid_after (Directory.consensus (TorClient.directory s)) = Consensus.valid_after (Directory.consensus held) + 1800.
Proof.
  pose proof the_round_runs as E. destruct ran as [[s plan']|] eqn:R; [|destruct E]. exists s, plan'.
  destruct (client_only_moves_forward (W:=server)) as [_ F].
  destruct (F [outside] client s plan plan' client_is_ok plan_is_ok R) as (C & N & _).
  split; [reflexivity|]. split; [exact C|]. split; [exact N|exact E].
Defined.

(** A guard has left the list, and yet its open channel is what the next
    circuit is built on. *)
Definition dropped : Guards.Guards.t := reconcile_guards ConsensusDemo.empty (TorClient.guards client).
Definition next_guard : result (option (nat * RelayInfo)) :=
  snd (open_guard_channel GuardsDemo.contact_of (fun _ => false)
    (Guards.MkWorld (GuardsDemo.at_ 200) (fun _ => Err (other_error "not listed")) (fun _ => Err (other_error "unused")) true)
    dropped).
Example a_dropped_guard_stays_in_use :
  Guards.entries dropped = [] /\ next_guard = Ok (Some (9%nat, GuardsDemo.relay_of (GuardsDemo.id 9))).
Proof. by vm_compute. Qed.
End UpkeepDemo.
