(* ===== verification/Loader.v ===== *)
(** * Loading OpenSSL ([src/src/ffi/mod.rs]) and reading the settings ([src/src/config.rs])

    What happens before the client starts: the environment, the search for
    the two libraries and the resolution of every entry point.  The dynamic
    loader itself is an interface. *)
From S2P Require Import Prelude.
From S2P Require Import Text.

(** [std::env::var]: [None] is unset or not Unicode. *)
Definition Env : Type := bytes -> option bytes.

(** ** The settings *)

Definition DEFAULT_PORT : Z := 9050.

Module Config.
Record t := Mk { listen_port : Z; state_dir : bytes }.
End Config.

(** [state_dir] is what [var_os] gives for TOR_STATE_DIR. *)
Definition from_env (var : Env) (state_dir : option bytes) : result Config.t :=
  listen_port ← match var (B "SERVER_PORT") with
                | None => Ok DEFAULT_PORT
                | Some value => ok_or (parse_uint U16_MAX value)
                    (IoError InvalidInput (Message "SERVER_PORT must be a port number"))
                end;
  if listen_port =? 0 then Err (IoError InvalidInput (Message "SERVER_PORT must be between 1 and 65535"))
  else Ok (Config.Mk listen_port (default (B "state") state_dir)).

(** ** The libraries *)

Definition LIBSSL_VAR : bytes := B "TOR_LIBSSL".
Definition LIBCRYPTO_VAR : bytes := B "TOR_LIBCRYPTO".
Definition LIB_DIR_VAR : bytes := B "TOR_OPENSSL_DIR".
Definition LIBSSL_NAMES : list bytes := map B ["libssl.so.3"; "libssl.so"; "libssl.so.1.1"]%string.
Definition LIBCRYPTO_NAMES : list bytes := map B ["libcrypto.so.3"; "libcrypto.so"; "libcrypto.so.1.1"]%string.
Definition SEARCH_DIRS : list bytes := map B
  ["/usr/lib/x86_64-linux-gnu"; "/usr/lib/aarch64-linux-gnu"; "/lib/x86_64-linux-gnu"; "/lib/aarch64-linux-gnu";
   "/usr/lib64"; "/usr/lib"; "/lib64"; "/lib"; "/usr/local/lib64"; "/usr/local/lib"]%string.

(** The entry points the program binds, in the order it resolves them. *)
Definition SYMBOLS : list string :=
  ["TLS_client_method"; "SSL_CTX_new"; "SSL_CTX_free"; "SSL_CTX_ctrl"; "SSL_CTX_set_verify"; 
   "SSL_CTX_set_security_level"; "SSL_new"; "SSL_free"; "SSL_set_fd"; "SSL_connect"; "SSL_read"; "SSL_write"; 
   "SSL_get_error"; "SSL_shutdown"; "SSL_get1_peer_certificate"; "X509_free"; "i2d_X509"; "EVP_sha1"; 
   "EVP_sha256"; "EVP_Digest"; "EVP_MD_CTX_new"; "EVP_MD_CTX_free"; "EVP_DigestInit_ex"; "EVP_DigestUpdate"; 
   "EVP_DigestFinal_ex"; "EVP_MD_CTX_copy_ex"; "EVP_sha3_256"; "EVP_shake256"; "EVP_DigestFinalXOF"; "HMAC"; 
   "EVP_aes_128_ctr"; "EVP_aes_256_ctr"; "EVP_CIPHER_CTX_new"; "EVP_CIPHER_CTX_free"; "EVP_EncryptInit_ex"; 
   "EVP_EncryptUpdate"; "EVP_PKEY_free"; "EVP_PKEY_get_size"; "EVP_PKEY_CTX_new"; "EVP_PKEY_CTX_new_id"; 
   "EVP_PKEY_CTX_free"; "EVP_PKEY_keygen_init"; "EVP_PKEY_keygen"; "EVP_PKEY_get_raw_public_key"; 
   "EVP_PKEY_new_raw_public_key"; "EVP_PKEY_derive_init"; "EVP_PKEY_derive_set_peer"; "EVP_PKEY_derive"; 
   "EVP_DigestVerifyInit"; "EVP_DigestVerify"; "d2i_PublicKey"; "EVP_PKEY_verify_recover_init"; 
   "EVP_PKEY_verify_recover"; "EVP_PKEY_CTX_set_rsa_padding"; "RAND_bytes"; "ERR_get_error"; 
   "ERR_error_string_n"]%string.

(** The dynamic loader: its state, opening a file, the last error, and the
    address of a symbol in an open library. *)
Class DynamicLoader (W : Type) := {
  dlopen : W -> bytes -> W * option Z;
  dlerror : W -> W * option bytes;
  dlsym : Z -> bytes -> option Z;
}.

Module Library.
Record t := Mk { handle : Z; path : bytes }.
End Library.

Module Symbols.
Record t := Mk { addresses : list (string * Z); ssl_path : bytes; crypto_path : bytes }.
End Symbols.

(** Why loading failed: nothing to open, with the paths tried and the
    loader's last word; or a library without one of the symbols. *)
Inductive load_error :=
  | NotFoundAnywhere (what : bytes) (tried : list bytes) (dl_error : bytes)
  | MissingSymbol (name : string).

Section loader.
Context {W : Type} `{!DynamicLoader W} (var : Env).

(** [trim_end_matches('/')]. *)
Fixpoint trim_start_slashes (s : bytes) : bytes :=
  match s with 47 :: s => trim_start_slashes s | _ => s end.
Definition trim_end_slashes (s : bytes) : bytes := rev (trim_start_slashes (rev s)).

Definition within (dir : bytes) (names : list bytes) : list bytes := map (fun name => dir ++ B "/" ++ name) names.

Definition candidates (names : list bytes) : list bytes :=
  match var LIB_DIR_VAR with
  | Some dir =>
      let dir := trim_end_slashes dir in
      match dir with [] => [] | _ => within dir names end
  | None => []
  end ++ names ++ concat (map (fun dir => within dir names) SEARCH_DIRS).

(** A path with a NUL in it never reaches the loader. *)
Definition try_open (w : W) (path : bytes) : W * option Library.t :=
  if bool_decide (0 ∈ path) then (w, None)
  else let '(w, handle) := dlopen w path in (w, (fun h => Library.Mk h path) <$> handle).

Definition last_dl_error (w : W) : W * bytes :=
  match dlerror w with
  | (w, Some message) => (w, from_utf8_lossy message)
  | (w, None) => (w, B "none reported")
  end.

Fixpoint search (w : W) (paths tried : list bytes) : W * list bytes * option Library.t :=
  match paths with
  | [] => (w, tried, None)
  | path :: paths =>
      match try_open w path with
      | (w, Some library) => (w, tried, Some library)
      | (w, None) => search w paths (tried ++ [path])
      end
  end.

Definition explicit (env_var : bytes) : option bytes :=
  path ← var env_var; match path with [] => None | _ => Some path end.

Definition open_library (w : W) (env_var : bytes) (names tried : list bytes) : W * list bytes * option Library.t :=
  match explicit env_var with
  | Some path =>
      match try_open w path with
      | (w, Some library) => (w, tried, Some library)
      | (w, None) =>
          let '(w, _) := last_dl_error w in
          search w (candidates names) (tried ++ [path])
      end
  | None => search w (candidates names) tried
  end.

Fixpoint resolve (handles : list Z) (name : bytes) : option Z :=
  match handles with
  | [] => None
  | handle :: handles => match dlsym handle name with Some symbol => Some symbol | None => resolve handles name end
  end.

Fixpoint resolve_names (handles : list Z) (names : list string) : list (string * Z) + string :=
  match names with
  | [] => inl []
  | name :: names =>
      match resolve handles (B name) with
      | None => inr name
      | Some address =>
          match resolve_names handles names with
          | inl rest => inl ((name, address) :: rest)
          | inr missing => inr missing
          end
      end
  end.
Definition resolve_all (ssl crypto : Library.t) : Symbols.t + load_error :=
  match resolve_names [Library.handle ssl; Library.handle crypto] SYMBOLS with
  | inl addresses => inl (Symbols.Mk addresses (Library.path ssl) (Library.path crypto))
  | inr name => inr (MissingSymbol name)
  end.

Definition load (w : W) : W * (Symbols.t + load_error) :=
  match open_library w LIBCRYPTO_VAR LIBCRYPTO_NAMES [] with
  | (w, tried, None) =>
      let '(w, e) := last_dl_error w in (w, inr (NotFoundAnywhere (B "libcrypto") tried e))
  | (w, _, Some crypto) =>
      match open_library w LIBSSL_VAR LIBSSL_NAMES [] with
      | (w, tried, None) =>
          let '(w, e) := last_dl_error w in (w, inr (NotFoundAnywhere (B "libssl") tried e))
      | (w, _, Some ssl) => (w, resolve_all ssl crypto)
      end
  end.

(** [loaded]: the first caller loads, and what it found is kept. *)
Definition loaded (kept : option (Symbols.t + load_error)) (w : W) : W * option (Symbols.t + load_error) * (Symbols.t + load_error) :=
  match kept with
  | Some r => (w, kept, r)
  | None => let '(w, r) := load w in (w, Some r, r)
  end.
Definition ensure_loaded (kept : option (Symbols.t + load_error)) (w : W)
    : W * option (Symbols.t + load_error) * (unit + load_error) :=
  let '(w, kept, r) := loaded kept w in
  (w, kept, match r with inl _ => inl tt | inr e => inr e end).
Definition library_paths (kept : option (Symbols.t + load_error)) (w : W)
    : W * option (Symbols.t + load_error) * option (bytes * bytes) :=
  let '(w, kept, r) := loaded kept w in
  (w, kept, match r with inl s => Some (Symbols.ssl_path s, Symbols.crypto_path s) | inr _ => None end).
End loader.

(** *** What is said about it *)

Fixpoint join_with (sep : bytes) (ws : list bytes) : bytes :=
  match ws with [] => [] | [w] => w | w :: ws => w ++ sep ++ join_with sep ws end.

Definition not_found (what : bytes) (tried : list bytes) (dl_error : bytes) : bytes :=
  let shown := take 6 tried in
  B "could not load " ++ what ++ B ". Tried " ++ join_with (B ", ") shown ++
  (if (length shown <? length tried)%nat
   then B " and " ++ show_uint (Z.of_nat (length tried - length shown)) ++ B " more" else []) ++
  B " (last loader error: " ++ dl_error ++
  B "). Only the runtime library is needed, not a -dev package. If it is installed somewhere unusual, set " ++
  LIB_DIR_VAR ++ B " to its directory, or " ++ LIBCRYPTO_VAR ++ B "/" ++ LIBSSL_VAR ++ B " to the exact files.".

(** [openssl_errors]: the queue of errors is emptied; each comes in a buffer
    of 256 bytes that ends at its first NUL. *)
Fixpoint until_nul (buffer : bytes) : bytes :=
  match buffer with [] => [] | b :: buffer => if b =? 0 then [] else b :: until_nul buffer end.
Fixpoint drain_errors (queue : list bytes) (out : bytes) : bytes :=
  match queue with
  | [] => match out with [] => B "no OpenSSL error information" | _ => out end
  | buffer :: queue =>
      drain_errors queue ((match out with [] => [] | _ => out ++ B "; " end) ++ from_utf8_lossy (until_nul buffer))
  end.
Definition openssl_errors (queue : list bytes) : bytes := drain_errors queue [].
Definition openssl_err (what : bytes) (queue : list bytes) : bytes := what ++ B ": " ++ openssl_errors queue.

(** ** What the search finds

    The loader's answers may change while it is being asked: libcrypto stays
    open, with its symbols global, when libssl is looked for.  So a search goes
    through the states of the loader, each path being tried in the one the
    loader is then in. *)
Section finds.
Context {W : Type} `{!DynamicLoader W} (var : Env).

(** The directory setting, without the slashes at its end. *)
Definition directory_setting : option bytes :=
  dir ← var LIB_DIR_VAR; let dir := trim_end_slashes dir in if bool_decide (dir = []) then None else Some dir.

(** Everything that is tried, in the order the module documents, with whether
    the user is told why it could not be opened: an explicit path, the
    directory setting with each name, each name on its own, and each name in
    each of the usual directories. *)
Definition places (env_var : bytes) (names : list bytes) : list (bytes * bool) :=
  (path ← option_list (explicit var env_var); [(path, true)]) ++
  (dir ← option_list directory_setting; name ← names; [(dir ++ B "/" ++ name, false)]) ++
  (name ← names; [(name, false)]) ++
  (dir ← SEARCH_DIRS; name ← names; [(dir ++ B "/" ++ name, false)]).

(** A path does not open, in the state the loader is in; telling the user why
    asks the loader. *)
Definition refuses (w : W) (p : bytes * bool) (w' : W) : Prop := exists w1,
  ((0 ∈ fst p /\ w1 = w) \/ (0 ∉ fst p /\ dlopen w (fst p) = (w1, None))) /\
  w' = if snd p then fst (dlerror w1) else w1.

Inductive passed_over : W -> list (bytes * bool) -> W -> Prop :=
  | passed_all w : passed_over w [] w
  | passed_next w p w1 ps w2 : refuses w p w1 -> passed_over w1 ps w2 -> passed_over w (p :: ps) w2.

(** The first of the places that opens, each of those before it having been
    tried and refused. *)
Definition first_in (w : W) (ps : list (bytes * bool)) (l : Library.t) (w' : W) : Prop :=
  exists before told after w1, ps = before ++ (Library.path l, told) :: after /\
    passed_over w before w1 /\ 0 ∉ Library.path l /\ dlopen w1 (Library.path l) = (w', Some (Library.handle l)).

Lemma try_open_opens w path w' l :
  try_open w path = (w', Some l) -> Library.path l = path /\ 0 ∉ path /\ dlopen w path = (w', Some (Library.handle l)).
Proof.
  unfold try_open. case_bool_decide as N; [done|]. destruct (dlopen w path) as [w1 [h|]] eqn:D; [|done].
  by intros [= <- <-].
Qed.

Lemma try_open_refuses w path w' :
  try_open w path = (w', None) -> (0 ∈ path /\ w' = w) \/ (0 ∉ path /\ dlopen w path = (w', None)).
Proof.
  unfold try_open. case_bool_decide as N; [intros [= <-]; by left|]. destruct (dlopen w path) as [w1 [h|]] eqn:D; [done|].
  intros [= <-]. by right.
Qed.

Lemma first_here w p told ps l w' :
  Library.path l = p /\ 0 ∉ p /\ dlopen w p = (w', Some (Library.handle l)) -> first_in w ((p, told) :: ps) l w'.
Proof. intros (<- & N & O). exists [], told, ps, w. split_and!; [done|constructor|done|done]. Qed.

Lemma first_later w p w1 ps l w' : refuses w p w1 -> first_in w1 ps l w' -> first_in w (p :: ps) l w'.
Proof.
  intros R (before & told & after & w2 & -> & F & N & S). exists (p :: before), told, after, w2.
  split_and!; [done|by econstructor|done..].
Qed.

Definition silent (paths : list bytes) : list (bytes * bool) := map (fun path => (path, false)) paths.

Lemma search_spec paths : forall w tried,
  match search w paths tried with
  | (w', _, Some l) => first_in w (silent paths) l w'
  | (w', tried', None) => passed_over w (silent paths) w' /\ tried' = tried ++ paths
  end.
Proof.
  induction paths as [|path paths IH]; intros w tried; cbn [search].
  { split; [constructor|by rewrite app_nil_r]. }
  destruct (try_open w path) as [w1 [l|]] eqn:T.
  - by apply first_here, try_open_opens.
  - assert (R : refuses w (path, false) w1) by (exists w1; split; [by apply try_open_refuses|done]).
    specialize (IH w1 (tried ++ [path])). destruct (search w1 paths (tried ++ [path])) as [[w2 tried2] [l|]].
    + by eapply first_later.
    + destruct IH as [N ->]. split; [by econstructor|by rewrite <- app_assoc].
Qed.

Lemma map_as_bind {A C} (f : A -> C) l : map f l = x ← l; [f x].
Proof. induction l as [|x l IH]; [done|]. cbn [map]. by rewrite IH. Qed.

Lemma silent_within dir names : silent (within dir names) = name ← names; [(dir ++ B "/" ++ name, false)].
Proof. unfold silent, within. rewrite map_map. apply map_as_bind. Qed.

(** The candidates are the places after the explicit one. *)
Lemma candidates_places env_var names :
  places env_var names = (path ← option_list (explicit var env_var); [(path, true)]) ++ silent (candidates var names).
Proof.
  unfold places, candidates, silent. rewrite !map_app. f_equal. f_equal; [|f_equal].
  - unfold directory_setting. destruct (var LIB_DIR_VAR) as [dir|]; [|done]. cbn [mbind option_bind].
    destruct (trim_end_slashes dir) as [|x xs]; [done|]. rewrite bool_decide_eq_false_2 by done.
    pose proof (silent_within (x :: xs) names) as S. unfold silent in S. rewrite S. exact (app_nil_r _).
  - induction SEARCH_DIRS as [|d ds IH]; [done|]. cbn [map concat]. rewrite map_app, <- IH.
    change (map _ (within d names)) with (silent (within d names)). by rewrite silent_within.
Qed.

Lemma silent_paths paths : map fst (silent paths) = paths.
Proof. unfold silent. rewrite map_map. apply map_id. Qed.

Lemma open_library_spec w env_var names :
  match open_library var w env_var names [] with
  | (w', _, Some l) => first_in w (places env_var names) l w'
  | (w', tried, None) => passed_over w (places env_var names) w' /\ tried = map fst (places env_var names)
  end.
Proof.
  rewrite candidates_places. unfold open_library. destruct (explicit var env_var) as [path|]; cbn [option_list mbind list_bind app].
  - destruct (try_open w path) as [w1 [l|]] eqn:T.
    { by apply first_here, try_open_opens. }
    assert (R : refuses w (path, true) (fst (last_dl_error w1))).
    { exists w1. split; [by apply try_open_refuses|]. unfold last_dl_error. by destruct (dlerror w1) as [w2 [m|]]. }
    destruct (last_dl_error w1) as [w2 e]. pose proof (search_spec (candidates var names) w2 [path]) as S.
    destruct (search w2 _ _) as [[w3 tried] [l|]]; [by eapply first_later|].
    destruct S as [N ->]. split; [by econstructor|]. exact (f_equal (cons path) (eq_sym (silent_paths _))).
  - pose proof (search_spec (candidates var names) w []) as S. destruct (search w _ _) as [[w3 tried] [l|]]; [done|].
    destruct S as [N ->]. split; [done|]. exact (eq_sym (silent_paths _)).
Qed.

(** An address comes from libssl, or else from libcrypto. *)
Definition exported (ssl crypto : Library.t) (symbol : string * Z) : Prop :=
  dlsym (Library.handle ssl) (B (fst symbol)) = Some (snd symbol) \/
  (dlsym (Library.handle ssl) (B (fst symbol)) = None /\ dlsym (Library.handle crypto) (B (fst symbol)) = Some (snd symbol)).
Definition missing (ssl crypto : Library.t) (name : string) : Prop :=
  dlsym (Library.handle ssl) (B name) = None /\ dlsym (Library.handle crypto) (B name) = None.

Lemma resolve_names_spec ssl crypto names :
  match resolve_names [Library.handle ssl; Library.handle crypto] names with
  | inl addresses => map fst addresses = names /\ Forall (exported ssl crypto) addresses
  | inr name => name ∈ names /\ missing ssl crypto name
  end.
Proof.
  induction names as [|name names IH]; cbn [resolve_names]; [by split|]. cbn [resolve].
  assert (R : match (match dlsym (Library.handle ssl) (B name) with Some symbol => Some symbol | None =>
                       match dlsym (Library.handle crypto) (B name) with Some symbol => Some symbol | None => None end end) with
              | Some address => exported ssl crypto (name, address)
              | None => missing ssl crypto name
              end).
  { unfold exported, missing. cbn [fst snd]. destruct (dlsym (Library.handle ssl) (B name)); [by left|].
    destruct (dlsym (Library.handle crypto) (B name)); [by right|done]. }
  destruct (match dlsym (Library.handle ssl) (B name) with Some symbol => Some symbol | None => _ end) as [address|].
  - destruct (resolve_names _ names) as [rest|other].
    + destruct IH as [M F]. cbn [map fst]. rewrite M. split; [done|by constructor].
    + destruct IH as [In Mi]. split; [by right|done].
  - split; [by left|done].
Qed.

(** C40. Loading OpenSSL does what its search order says, whatever the dynamic loader answers and however its answers change as libraries are opened. For libcrypto the explicit setting, the directory setting with each name, each bare name and each name in each usual directory are tried in that order, each in the state the loader is then in, and the first that opens is it; in the state it leaves the loader in, libssl is then found the same way. On success every one of the entry points the program binds has an address, exported by libssl or else by libcrypto. If no place opens, the error lists exactly the paths of the whole search, in order, and gives the loader's last word; and if both open but a symbol is in neither, the error names such a symbol -- nothing else makes loading fail. The first that opens need not be an OpenSSL 3: see [old_library_hides_the_new]. *)
Theorem openssl_is_found w :
  let crypto_places := places LIBCRYPTO_VAR LIBCRYPTO_NAMES in
  let ssl_places := places LIBSSL_VAR LIBSSL_NAMES in
  match snd (load var w) with
  | inl s =>
      exists crypto w1 ssl w2, first_in w crypto_places crypto w1 /\ first_in w1 ssl_places ssl w2 /\
        Symbols.crypto_path s = Library.path crypto /\ Symbols.ssl_path s = Library.path ssl /\
        map fst (Symbols.addresses s) = SYMBOLS /\ Forall (exported ssl crypto) (Symbols.addresses s)
  | inr (NotFoundAnywhere what tried e) =>
      exists w2, e = snd (last_dl_error w2) /\
      ((what = B "libcrypto" /\ passed_over w crypto_places w2 /\ tried = map fst crypto_places) \/
       (what = B "libssl" /\ tried = map fst ssl_places /\
        exists crypto w1, first_in w crypto_places crypto w1 /\ passed_over w1 ssl_places w2))
  | inr (MissingSymbol name) =>
      exists crypto w1 ssl w2, first_in w crypto_places crypto w1 /\ first_in w1 ssl_places ssl w2 /\
        name ∈ SYMBOLS /\ missing ssl crypto name
  end.
Proof.
  intros crypto_places ssl_places. unfold load.
  pose proof (open_library_spec w LIBCRYPTO_VAR LIBCRYPTO_NAMES) as C. fold crypto_places in C.
  destruct (open_library var w LIBCRYPTO_VAR LIBCRYPTO_NAMES []) as [[w1 tried1] [crypto|]].
  2: { pose proof (eq_refl (snd (last_dl_error w1))) as L. destruct (last_dl_error w1) as [w2 e] in L at 1 |- *.
       destruct C as [N ->]. exists w1. split; [exact L|by left]. }
  pose proof (open_library_spec w1 LIBSSL_VAR LIBSSL_NAMES) as S. fold ssl_places in S.
  destruct (open_library var w1 LIBSSL_VAR LIBSSL_NAMES []) as [[w2 tried2] [ssl|]].
  2: { pose proof (eq_refl (snd (last_dl_error w2))) as L. destruct (last_dl_error w2) as [w3 e] in L at 1 |- *.
       destruct S as [N ->]. exists w2. split; [exact L|right]. split_and!; [done|done|by exists crypto, w1]. }
  cbn [snd]. unfold resolve_all. pose proof (resolve_names_spec ssl crypto SYMBOLS) as R.
  destruct (resolve_names _ SYMBOLS) as [addresses|name]; destruct R as [R1 R2]; by exists crypto, w1, ssl, w2.
Qed.
End finds.

(** The port is always one that can be listened on. *)
Lemma listen_port_range var state_dir config :
  from_env var state_dir = Ok config -> 1 <= Config.listen_port config <= U16_MAX.
Proof.
  unfold from_env. destruct (var (B "SERVER_PORT")) as [value|]; cbn [mbind result_bind].
  - destruct (parse_uint U16_MAX value) as [port|] eqn:P; [|done]. apply parse_uint_bound in P. cbn [ok_or mbind result_bind].
    destruct (Z.eqb_spec port 0); [done|]. intros [= <-]. cbn. lia.
  - intros [= <-]. by cbn.
Qed.

(** ** An image with only the runtime libraries, in a directory of their own *)
Module LoaderDemo.
Definition plain : Env := fun _ => None.
Definition here (files : list string) (path : bytes) : option Z :=
  if bool_decide (path ∈ map B files) then Some (len path) else None.

(** libssl can be opened only once libcrypto is there. *)
Record image := Image { crypto_open : bool }.
Definition runtime : list string := ["/usr/lib64/libssl.so.3"; "/usr/lib64/libcrypto.so.3"]%string.
#[export] Instance image_loader : DynamicLoader image := {
  dlopen := fun w path =>
    if bool_decide (path = B "/usr/lib64/libcrypto.so.3") then (Image true, Some 25)
    else (w, if crypto_open w then here runtime path else None);
  dlerror := fun w => (w, Some (B "no such file"));
  dlsym := fun handle name => if handle =? 25 then Some (len name) else None;
}.
Definition found : Symbols.t + load_error := snd (load plain (Image false)).
Lemma found_paths :
  match found with inl s => (Symbols.ssl_path s, Symbols.crypto_path s) | inr _ => ([], []) end =
    (B "/usr/lib64/libssl.so.3", B "/usr/lib64/libcrypto.so.3").
Proof. by vm_compute. Qed.

Lemma openssl_is_found_witness :
  exists crypto w1 ssl w2,
    first_in (Image false) (places plain LIBCRYPTO_VAR LIBCRYPTO_NAMES) crypto w1 /\
    first_in w1 (places plain LIBSSL_VAR LIBSSL_NAMES) ssl w2 /\
    Library.path crypto = B "/usr/lib64/libcrypto.so.3" /\ Library.path ssl = B "/usr/lib64/libssl.so.3".
Proof.
  pose proof (openssl_is_found plain (Image false)) as T.
  pose proof found_paths as P. unfold found in P. cbv zeta in T. destruct (snd (load plain (Image false))) as [s|e]; [|done].
  destruct T as (crypto & w1 & ssl & w2 & C & S & EC & ES & _). exists crypto, w1, ssl, w2.
  split; [exact C|]. split; [exact S|]. rewrite <- EC, <- ES. by injection P as -> ->.
Defined.

(** A 1.1 library that the loader finds by its bare name hides an OpenSSL 3
    that only the directory sweep would find. *)
Inductive mixed := Mixed.
Definition both : list string :=
  ["libssl.so.1.1"; "libcrypto.so.1.1"; "/usr/local/lib/libssl.so.3"; "/usr/local/lib/libcrypto.so.3"]%string.
#[export] Instance mixed_loader : DynamicLoader mixed := {
  dlopen := fun w path => (w, here both path);
  dlerror := fun w => (w, None);
  dlsym := fun handle name => if 20 <? handle then Some (len name) else None;
}.
Example old_library_hides_the_new :
  snd (load plain Mixed) = inr (MissingSymbol "TLS_client_method") /\
  dlsym (len (B "/usr/local/lib/libssl.so.3")) (B "TLS_client_method") = Some 17.
Proof. split; by vm_compute. Qed.
End LoaderDemo.
